(* ===== verification/_CoqProject ===== *)
-Q . S2P
Prelude.v
Go.v
GoText.v
GoTextProps.v
Spanner.v
Rows.v
Invariant.v
Sim.v
StoreRead.v
StoreWrite.v
StoreTxn.v
StoreSpec.v
Reads.v
StoreCompact.v
StoreInvariant.v
Safe.v
KVServer.v
KVProps.v
KVRanges.v
Leases.v
LeaseProps.v
LeaseRuns.v
Auth.v
Watcher.v
WatchProps.v
WatchServer.v
WatchServerProps.v
WatchDelivery.v
WatchReplay.v
ChangeStream.v
ChangeStreamProps.v
Partitions.v
PartitionProps.v
PollLoop.v
Migrate.v
MigrateProps.v
MigrateSource.v
ServerMain.v
ServerMainProps.v
Metrics.v
MetricsProps.v
Gateway.v
Replica.v
ReplicaProps.v
WatchPipeline.v
WatchComplete.v
Cluster.v
WatchRuns.v
