(* ===== verification/Prelude.v ===== *)
(** * spanner-etcd: a verification library

    spanner-etcd serves the etcd v3 API from a Cloud Spanner database.  Every
    write appends a row to the table [kv] whose [rev] column is the commit
    timestamp; the revision of the API is that timestamp in nanoseconds.  Any
    number of replicas run against one database.  A request goes from a gRPC
    handler ([src/pkg/server]) to the store ([src/pkg/store]), which runs SQL
    statements and transactions through the Spanner client; a successful write
    notifies the watcher.  The watcher has two sources of events, a poll of the
    log and Spanner's change stream, and hands the new rows to the subscriptions;
    the watch service turns them into responses of a stream.  The lease manager
    deletes the keys of expired leases through the store.  [src/cmd/server]
    assembles these from flags; [src/cmd/migrate] copies another etcd into the
    service.

    ** What models what

    - [Prelude]: results, tactics, hint databases, lists.
    - [Go], [GoText]: int64 wrap-around, time, errors, package strings; the
      parsers of RFC 3339 timestamps, durations, base64 and integers.
      [GoTextProps]: what these read back.
    - [Spanner]: the tables of pkg/schema/schema.go, mutations, SQL operators,
      and the client calls.  Spanner is the class [Spanner]: for the n-th call of
      a replica, what others committed before it, how it ends (success, an error,
      an error after the commit was applied, an error in the middle of a streamed
      result), its commit timestamp, its sequence values, the order of unordered
      rows, and the attempts of a transaction that were aborted and repeated.
    - [Rows], [Invariant]: reference definitions over the log ([latest], [live],
      [latest_at]), the invariant [db_wf], the commits replicas perform
      ([db_step], [reach]), the assumptions [SpannerLaws], and the proof rule for
      a transaction under interference ([read_write_txn_inv]).
    - [Sim]: instances of [Spanner] that satisfy the laws, for evaluation.
    - [StoreRead]: store.go, data and reads ([scanKV], [CurrentRevision], [Get],
      [List], [Count], [After], [compactRevision]).
    - [StoreWrite]: store.go, [Create], [Update], [Delete], [DeleteIfLease];
      [notify] of watch.go.
    - [StoreTxn]: store.go, [AtomicTxn].
    - [StoreCompact]: store.go, [NewWithConfig], [Compact], [compactRows], the tick
      of [autoCompactLoop]; [SeedCompactRev] of schema.go.
    - [StoreSpec]: the contract, operations on a map from keys to values, and
      that the writes implement it.
    - [Reads]: what the reads return.
    - [StoreInvariant]: the store as a step relation.
    - [Safe]: the class [Safe] of computations that keep the invariant under
      interference, the interface the handlers use of the store.
    - [KVServer], [KVProps]: kv.go of the server and its properties; the class
      [Grpc] stands for [status.FromError] and [error.Error].  [KVRanges]: range
      deletions, and ranges that are no prefixes.
    - [Leases], [LeaseProps]: lease.go of the store and of the server.  [LeaseRuns]: the
      lease manager as a machine, a grant in its two parts, and the attempts its expiry
      goroutines make.
    - [Auth]: auth.go of the server.
    - [Watcher], [WatchProps]: watch.go of the store, subscriptions and dispatch.
    - [WatchServer], [WatchServerProps], [WatchDelivery]: watch.go of the server,
      a Watch stream with its goroutines as a state machine over [Watcher].
    - [WatchReplay]: the replay of history to a subscription, over its pages.
    - [ChangeStream], [ChangeStreamProps]: changestream.go, decoding of change
      records; the class [Structpb] stands for package structpb.
    - [Partitions], [PartitionProps]: changestream.go, the goroutines that read the
      partitions, and the cursors.
    - [PollLoop]: watch.go of the store, the poll loop, [startChangeStream] and the
      health flag, over [Watcher] and [Partitions].
    - [Migrate], [MigrateProps]: cmd/migrate; the class [Etcd] stands for the
      client, the classes [SourceLaws] and [SinkLaws] for what the servers promise,
      and the KV service is shown to be such a destination, in [MigrateSource] also
      such a source.
    - [ServerMain], [ServerMainProps]: cmd/server, server.go, helpers.go, cluster.go,
      maintenance.go, [Ensure] of schema.go.
    - [Metrics], [MetricsProps]: metrics.go, and the operations of the components
      with the calls of the metrics in them.
    - [Gateway]: server.go and cmd/server, what is registered, the path of a call
      through the interceptors, the metrics endpoint, what start-up acquires and
      releases.
    - [Replica], [ReplicaProps]: the components put together, one replica as a step
      relation over all its handlers and goroutines and over what other replicas do.
    - [WatchPipeline], [WatchComplete]: the way of an event from the poll loop to the
      client of a watch.
    - [Cluster]: replicas that share a database.  [WatchRuns]: runs of one and of two
      replicas.

    A replica's state is a [world]: the database, the number of client calls made,
    the buffer of [notifyCh], the compaction goroutines not run yet.  Code that
    talks to Spanner is a function on it ([ST]); a call may find the database
    changed by others, so what happens between two statements of one function is
    part of the model.  Objects shared by goroutines (leases, subscribers) live at
    addresses; a goroutine is a value saying where it stands, with a function for
    its next action, and a step relation interleaves them.

    ** What the theorems show

    - Contract: each write of the store, and each Txn of simple operations, is the
      operation of [StoreSpec] on the map of a single state the database went
      through, whatever other replicas do and however often the transaction is
      repeated; a Txn that compares a mod revision is a compare-and-swap.
    - Composition: in every interleaving of any number of replicas, each with its
      handlers, leases, polls, change stream and Watch streams, each member behaves as
      one replica among interfering others ([cluster_refines]) and keeps the
      invariants of all its components ([replica_invariant]); a watch at one replica
      misses no write made through any other ([cluster_watch_complete]).
    - Invariant: every operation and every KV handler preserves [db_wf], also when
      calls fail or fail after committing; a run of this program is a legal
      environment for the other replicas; the recorded previous revision and value
      of a row are those of the row it replaced.
    - Reads: [Get], [List] and [After] return the reference definitions on the states
      their statements see, in the order and with the limits requested, with other
      replicas writing between the statements; what is selected is what the LIKE
      pattern of the prefix matches, which is the keys with the prefix when it has no
      metacharacter.  [Count], undisturbed, is the length of [List].
    - Compaction: exactly the superseded rows up to the target go, the present does
      not change, older reads are refused; the automatic tick.
    - Service: which invalid transactions are refused before the store is touched and
      what is left of them on the path for ranges; compacted reads, beside other
      replicas; undisturbed, prefix ranges and their deletion, for prefixes without LIKE
      metacharacters, and puts.
    - Leases: undisturbed, revocation deletes exactly the lease's keys; in every run no
      lease is without a goroutine about it unless each of five attempts was made and
      failed; a keep-alive keeps its lease, at its replica, until a second before the new
      expiry; a restarted replica reloads all leases.
    - Watches: what one poll delivers; the protocol of a subscription's channel in
      every interleaving; termination of its teardown; silence after it; in a store
      nobody writes to, the replay delivers the history of a prefix completely, or
      closes a subscription that starts at a compacted revision.
    - Watch streams: in every interleaving the responses of a stream are in order
      and carry only events of their watch; a batch can always be delivered; the
      watched prefix covers the requested range; previous values are right.
    - Change stream: a record decodes to what was written into it; its events are
      those of a poll except for the previous value; a partition has one reader at
      a time and is delivered completely across failures; cursors are read back.
    - Migration: it ends, and success means that the destination holds the source;
      into spanner-etcd, and from one spanner-etcd to another, it succeeds; nobody else
      writes meanwhile.
    - Start-up: what holds when the server serves; flags reach the components they
      configure; the clients and the store are released on every path, the goroutine of
      the authentication only after serving.
    - Authentication: served only with a live token of a configured user, at every
      method the assembled server handles; a token is accepted for its lifetime; the
      users flag is read back.
    - Metrics: they do not change what the code does; the counters of the store add up
      to its transactions; the gauges of watches and partitions are exact, that of
      leases up to the grants a reload overtakes.
    - Departures from the etcd API or from the comments of the code, as theorems
      that exhibit them: [compaction_loses_history],
      [DeleteRange_deletes_outside_range], [Put_lost_update],
      [revoke_zero_deletes_unleased], [poll_skips_events],
      [List_wildcard_overmatches], [version_is_not_a_count],
      [lease_revoked_early], [keepalive_is_not_shared],
      [stale_batch_before_sentinel], [watch_delivers_outside_range],
      [watch_range_missed], [prev_kv_of_empty_value], [events_after_cancel],
      [replay_splits_transaction], [stream_drops_prev_kv],
      [child_partition_read_twice], [failed_stream_slows_polls],
      [write_delivered_twice], [batch_flag_ignored], [partial_tls_is_plaintext],
      [malformed_users_disable_auth], [member_identity_differs],
      [created_before_subscribed], [Range_misses_keys], [lease_counted_twice],
      [drop_counted_again], [current_revision_rounded], [run_releases].

    ** Assumptions and bounds

    [SpannerLaws] holds what is relied on of Spanner and of the other replicas: a
    query returns its rows in some order; the commit timestamps of one replica
    grow strictly; sequence values are unique; other clients run this program and
    commit before this call's timestamp.  [solo_laws] and [rival_laws] show that
    the laws can be met.  [clock_ok k] says that the timestamps of the next [k]
    calls fit an int64 of nanoseconds, so before the year 2262.  [calls_ok k] says
    that the next [k] calls succeed, [alone] that nobody else commits, [quiet]
    both, for all later calls and without repeated transactions.  [StructpbLaws]
    says how strings, booleans and null are converted.  The loops over database rows
    are structural.  Fuel is taken by [compactRows_loop], which repeats until a scan
    is empty: [compactRows_exact] shows that it ends, with the result, for every
    fuel above the number of eligible rows, since each round deletes at least one;
    by [copy_pages] of the migration: [migration_complete] shows that it ends for
    every fuel above the number of keys, since each page moves past at least one;
    by [ParseDuration], whose fuel is the length of the text
    ([duration_loop_fuel]); and by [gcLoop], the number of scans
    ([gcLoop_reloads]).

    ** What is not modelled

    Logging, the listeners and the health and reflection services: I/O and libraries
    around the components.  The Prometheus client is reduced to the documented meaning
    of counters, gauges and histograms, gRPC to the order of interceptors and the limit
    on messages.  In [Cluster] the actions of different replicas alternate between the
    steps of [Replica]; what happens between the calls of one handler is the
    interference of [SpannerLaws].  The text of error messages is kept as a format with
    its arguments.  [Grant] is one step in [Replica] and two in [LeaseRuns] and
    [Metrics]; the managers of [LeaseRuns] and [Replica] run until they are stopped.

    ** Plan

    The goroutine of a partition as a refinement of [readPartition]; the metered
    operations inside the steps of [Replica]; a watch that starts at a revision, from its
    replay into the live events. *)

From stdpp Require Export sorting relations strings.
From stdpp Require Export base decidable option numbers tactics gmap fin_maps list.

Open Scope Z_scope.

(** ** Results of fallible calls *)

(** A Go call that returns [(v, err)] with a zero [v] whenever [err != nil]. *)
Inductive result (E A : Type) : Type :=
| Ok (a : A)
| Err (e : E).
Arguments Ok {_ _} _.
Arguments Err {_ _} _.

Definition is_ok {E A} (r : result E A) : bool :=
  match r with Ok _ => true | Err _ => false end.

(** ** Hint databases and tactics *)

Create HintDb setcd.
Create HintDb setcd_rw.

(** Split every conjunction and existential of the context. *)
Ltac des :=
  repeat match goal with
  | H : _ ∧ _ |- _ => destruct H
  | H : ∃ _, _ |- _ => destruct H
  end.

(** Turn boolean comparisons of the context and the goal into propositions. *)
Ltac bool_prop :=
  repeat match goal with
  | H : andb _ _ = true |- _ => apply andb_true_iff in H; destruct H
  | H : orb _ _ = false |- _ => apply orb_false_iff in H; destruct H
  | H : negb _ = true |- _ => apply negb_true_iff in H
  | H : negb _ = false |- _ => apply negb_false_iff in H
  | H : (_ <=? _)%Z = true |- _ => apply Z.leb_le in H
  | H : (_ <=? _)%Z = false |- _ => apply Z.leb_gt in H
  | H : (_ <? _)%Z = true |- _ => apply Z.ltb_lt in H
  | H : (_ <? _)%Z = false |- _ => apply Z.ltb_ge in H
  | H : (_ =? _)%Z = true |- _ => apply Z.eqb_eq in H
  | H : (_ =? _)%Z = false |- _ => apply Z.eqb_neq in H
  | H : bool_decide _ = true |- _ => apply bool_decide_eq_true in H
  | H : bool_decide _ = false |- _ => apply bool_decide_eq_false in H
  end.

(** Case on the boolean conditions of the goal, keeping their meaning. *)
Ltac case_bool :=
  match goal with
  | |- context [if ?b then _ else _] => destruct b eqn:?
  end; bool_prop.

(** ** Lists *)

Section lists.
Context {A : Type}.
Implicit Types (l : list A) (P : A → Prop).

Lemma filter_perm P `{∀ x, Decision (P x)} l1 l2 :
  l1 ≡ₚ l2 → filter P l1 ≡ₚ filter P l2.
Proof. intros ->. done. Qed.

Lemma filter_ext_on P Q `{∀ x, Decision (P x)} `{∀ x, Decision (Q x)} l :
  (∀ x, x ∈ l → P x ↔ Q x) → filter P l = filter Q l.
Proof.
  induction l as [|x l IH]; intros HPQ; [done|].
  rewrite !filter_cons, IH by (intros; apply HPQ; by right).
  specialize (HPQ x ltac:(by left)). do 2 case_decide; naive_solver.
Qed.

Lemma filter_none P `{∀ x, Decision (P x)} l : (∀ x, x ∈ l → ¬ P x) → filter P l = [].
Proof.
  induction l as [|x l IH]; intros HP; [done|].
  rewrite filter_cons, decide_False by (apply HP; by left). apply IH. intros. apply HP. by right.
Qed.

Lemma filter_all P `{∀ x, Decision (P x)} l : (∀ x, x ∈ l → P x) → filter P l = l.
Proof.
  induction l as [|x l IH]; intros HP; [done|].
  rewrite filter_cons, decide_True by (apply HP; by left). f_equal. apply IH.
  intros. apply HP. by right.
Qed.

Lemma head_None_nil l : head l = None → l = [].
Proof. by destruct l. Qed.

Lemma head_Some_elem l x : head l = Some x → x ∈ l.
Proof. destruct l; [done|]. intros [= ->]. constructor. Qed.

(** The first element of a strongly sorted list precedes every other one. *)
Lemma StronglySorted_head (R : relation A) l x :
  StronglySorted R l → head l = Some x → ∀ y, y ∈ l → y = x ∨ R x y.
Proof.
  intros Hs Hx y Hy. destruct l as [|z l]; [done|]. simplify_eq/=.
  apply StronglySorted_cons in Hs as [Hall _].
  apply elem_of_cons in Hy as [->|Hy]; [by left|right].
  rewrite Forall_forall in Hall. by apply Hall.
Qed.

Lemma StronglySorted_take (R : relation A) n l :
  StronglySorted R l → StronglySorted R (take n l).
Proof.
  intros Hs. rewrite <-(take_drop n l) in Hs.
  by apply StronglySorted_app in Hs as (_ & ? & _).
Qed.

Lemma StronglySorted_filter (R : relation A) P `{∀ x, Decision (P x)} l :
  StronglySorted R l → StronglySorted R (filter P l).
Proof.
  induction 1 as [|x l Hs IH Hall]; [constructor|].
  rewrite filter_cons. case_decide; [|done]. constructor; [done|].
  rewrite Forall_forall in Hall |- *. intros y [_ Hy]%list_elem_of_filter. auto.
Qed.

Lemma NoDup_fmap_inj_on {B} (f : A → B) l x y :
  NoDup (f <$> l) → x ∈ l → y ∈ l → f x = f y → x = y.
Proof.
  induction l as [|z l IH]; cbn; [by rewrite elem_of_nil|].
  rewrite NoDup_cons, !elem_of_cons. intros [Hz Hnd] [->|Hx] [->|Hy] Hf; auto.
  - destruct Hz. rewrite Hf. by apply list_elem_of_fmap_2.
  - destruct Hz. rewrite <-Hf. by apply list_elem_of_fmap_2.
Qed.

Lemma NoDup_fmap_filter {B} (f : A → B) P `{∀ x, Decision (P x)} l :
  NoDup (f <$> l) → NoDup (f <$> filter P l).
Proof.
  induction l as [|z l IH]; [done|]. cbn [fmap list_fmap].
  rewrite NoDup_cons. intros [Hz Hnd]. rewrite filter_cons.
  case_decide; [|by auto]. cbn [fmap list_fmap]. apply NoDup_cons. split; [|by auto].
  intros (y & Hy & [_ Hin]%list_elem_of_filter)%list_elem_of_fmap.
  apply Hz. rewrite Hy. by apply list_elem_of_fmap_2.
Qed.

End lists.
