(* ===== verification/Go.v ===== *)
(** * The parts of Go and its standard library the program uses

    [int64] arithmetic with its wrap-around, [time.Time] and [time.Duration] as
    nanosecond counts, [error] values with wrapping, and the byte-string
    operations of package [strings].  Go strings and byte slices are Rocq
    [string]s, one [ascii] per byte, compared byte by byte as Go does. *)

From Stdlib Require Import Ascii String SpecFloat.
From S2P Require Import Prelude.

(** ** int64 *)

(** Two's complement wrap-around of a mathematical integer to [int64]. *)
Definition int64 (z : Z) : Z := (z + 2 ^ 63) `mod` 2 ^ 64 - 2 ^ 63.

Definition int64_range (z : Z) : Prop := - 2 ^ 63 ≤ z < 2 ^ 63.

(** ** Time *)

(** Instants are nanoseconds since the Unix epoch, durations nanoseconds. *)
Definition Second : Z := 1000000000.
Definition Minute : Z := 60 * Second.

(** The zero [time.Time]: January 1, year 1, 00:00:00 UTC. *)
Definition zero_time : Z := -62135596800 * Second.

(** [t.UnixNano()]: seconds times 1e9 plus nanoseconds in [int64] arithmetic. *)
Definition UnixNano (t : Z) : Z := int64 t.

(** [t.Add(d)] for a duration in range, and [time.Until(t)] at the instant [now],
    which saturates. *)
Definition Time_Add (t d : Z) : Z := t + d.
Definition Until (t now : Z) : Z := Z.max (- 2 ^ 63) (Z.min (2 ^ 63 - 1) (t - now)).

(** [time.Duration(n) * time.Second], an [int64] product. *)
Definition seconds (n : Z) : Z := int64 (n * Second).

(** [float64] values and [d.Seconds()]: the whole seconds plus the rest over
    1e9, each operation rounded; then truncation to [int64]. *)
Definition float64_of (z : Z) : spec_float := binary_normalize 53 1024 z 0 false.

Definition Duration_Seconds (d : Z) : spec_float :=
  SFadd 53 1024 (float64_of (Z.quot d Second))
    (SFdiv 53 1024 (float64_of (Z.rem d Second)) (float64_of Second)).

Definition int64_of_float (f : spec_float) : Z :=
  match f with
  | S754_finite s m e =>
      let v := if 0 <=? e then Z.pos m * 2 ^ e else Z.pos m / 2 ^ (- e) in
      int64 (if s then - v else v)
  | _ => 0
  end.

(** ** Errors *)

(** The gRPC status codes. *)
Inductive code :=
| OK | Canceled | Unknown | InvalidArgument | DeadlineExceeded | NotFound
| AlreadyExists | PermissionDenied | ResourceExhausted | FailedPrecondition
| Aborted | OutOfRange | Unimplemented | Internal | Unavailable | DataLoss
| Unauthenticated.

#[export] Instance code_eq_dec : EqDecision code.
Proof. solve_decision. Defined.

(** An argument of a formatting verb. *)
Inductive fmt_arg := ArgS (s : string) | ArgZ (z : Z).

#[export] Instance fmt_arg_eq_dec : EqDecision fmt_arg.
Proof. solve_decision. Defined.

(** Error values: the store's sentinels, gRPC status errors, errors of the
    Spanner client, [fmt.Errorf] without and with [%w].  Formatted messages are
    kept as the format string and its arguments. *)
Inductive error :=
| ErrKeyNotFound
| ErrKeyExists
| ErrRevisionMismatch
| ErrCompacted
| StatusError (c : code) (format : string) (args : list fmt_arg)
| SpannerError (c : code) (msg : string)
| Errorf (format : string) (args : list fmt_arg)
| Wrapf (format : string) (args : list fmt_arg) (e : error).

#[export] Instance error_eq_dec : EqDecision error.
Proof. solve_decision. Defined.

(** [errors.Is(err, target)]. *)
Fixpoint errors_Is (err target : error) : bool :=
  bool_decide (err = target) ||
  match err with Wrapf _ _ e => errors_Is e target | _ => false end.

Abbreviation res := (result error).

(** The value of a call whose error the caller discards ([v, _ := f()]) when
    the callee returns a zero value with every error. *)
Definition or_zero (r : res Z) : Z :=
  match r with Ok v => v | Err _ => 0 end.

(** ** Strings *)

Definition str_le (s t : string) : Prop := String.leb s t = true.

(** [s[:len(s)-1]], for non-empty [s]. *)
Fixpoint str_init (s : string) : string :=
  match s with
  | EmptyString => EmptyString
  | String c EmptyString => EmptyString
  | String c s' => String c (str_init s')
  end.

(** [strings.HasPrefix(s, p)]. *)
Definition HasPrefix (s p : string) : bool := String.prefix p s.

(** The last byte of a string. *)
Fixpoint str_last (s : string) : option ascii :=
  match s with
  | EmptyString => None
  | String c EmptyString => Some c
  | String _ s' => str_last s'
  end.

(** [strings.TrimSuffix(s, suf)] for a one-byte suffix [suf]. *)
Definition TrimSuffixByte (s : string) (suf : ascii) : string :=
  match str_last s with
  | Some c => if bool_decide (c = suf) then str_init s else s
  | None => s
  end.

(** ** Lemmas *)

#[global] Arguments String.append : simpl nomatch.

Lemma int64_id z : int64_range z → int64 z = z.
Proof. unfold int64, int64_range. intros. rewrite Z.mod_small; lia. Qed.

Lemma int64_in_range z : int64_range (int64 z).
Proof.
  unfold int64, int64_range.
  pose proof (Z.mod_pos_bound (z + 2 ^ 63) (2 ^ 64)). lia.
Qed.

#[export] Hint Resolve int64_in_range : setcd.

Lemma ascii_compare_spec a b :
  match Ascii.compare a b with
  | Eq => a = b | Lt => (N_of_ascii a < N_of_ascii b)%N | Gt => (N_of_ascii b < N_of_ascii a)%N
  end.
Proof.
  destruct (Ascii.compare a b) eqn:E.
  - by apply Ascii.compare_eq_iff.
  - by apply N.compare_lt_iff.
  - by apply N.compare_gt_iff.
Qed.

Lemma ascii_compare_refl a : Ascii.compare a a = Eq.
Proof. apply N.compare_refl. Qed.

Lemma str_compare_refl s : String.compare s s = Eq.
Proof. induction s as [|a s IH]; cbn; [done|]. by rewrite ascii_compare_refl. Qed.

Lemma str_le_refl s : str_le s s.
Proof. unfold str_le, String.leb. by rewrite str_compare_refl. Qed.

Lemma str_le_cons a s b t :
  str_le (String a s) (String b t) ↔
  (N_of_ascii a < N_of_ascii b)%N ∨ (a = b ∧ str_le s t).
Proof.
  unfold str_le, String.leb; cbn. pose proof (ascii_compare_spec a b) as H.
  destruct (Ascii.compare a b); naive_solver lia.
Qed.

#[export] Instance str_le_trans : Transitive str_le.
Proof.
  intros s. induction s as [|a s IH]; intros [|b t] [|c u]; try done.
  rewrite !str_le_cons. naive_solver lia.
Qed.

#[export] Instance str_le_total : Total str_le.
Proof. intros s t. apply String.leb_total. Qed.

#[export] Instance str_le_antisymm : AntiSymm (=) str_le.
Proof. intros s t. apply String.leb_antisym. Qed.

#[export] Instance str_le_dec s t : Decision (str_le s t).
Proof. unfold str_le. apply _. Defined.

Lemma str_ltb_le s t : String.ltb s t = true ↔ ¬ str_le t s.
Proof.
  unfold str_le, String.ltb, String.leb. rewrite (String.compare_antisym t s).
  destruct (String.compare s t); cbn; naive_solver.
Qed.

Lemma HasPrefix_app p t : HasPrefix (p +:+ t) p = true.
Proof.
  unfold HasPrefix. induction p as [|a p IH]; cbn.
  - by destruct t.
  - destruct (ascii_dec a a); [exact IH|congruence].
Qed.

Lemma HasPrefix_spec s p : HasPrefix s p = true ↔ ∃ t, s = p +:+ t.
Proof.
  split.
  - unfold HasPrefix. revert s. induction p as [|a p IH]; intros s; cbn.
    + intros _. by exists s.
    + destruct s as [|b s]; [done|]. cbn. destruct (ascii_dec a b) as [->|]; [|done].
      intros [t ->]%IH. by exists t.
  - intros [t ->]. apply HasPrefix_app.
Qed.

Lemma str_app_nil_r s : s +:+ EmptyString = s.
Proof. induction s; cbn; congruence. Qed.

Lemma str_app_assoc s t u : (s +:+ t) +:+ u = s +:+ (t +:+ u).
Proof. induction s; cbn; congruence. Qed.

Lemma str_app_inj_l s t u : s +:+ t = s +:+ u → t = u.
Proof. induction s; cbn; naive_solver. Qed.

Lemma str_le_prefix p t : str_le p (p +:+ t).
Proof.
  induction p as [|a p IH]; cbn.
  - by destruct t.
  - rewrite str_le_cons. auto.
Qed.

Lemma str_init_last s : s ≠ EmptyString → ∃ c, s = str_init s +:+ String c EmptyString ∧ str_last s = Some c.
Proof.
  induction s as [|a s IH]; [done|]. intros _. destruct s as [|b s].
  - by exists a.
  - destruct IH as (c & E & El); [done|]. exists c.
    split; [|exact El]. change (str_init (String a (String b s))) with (String a (str_init (String b s))).
    cbn [String.append]. by rewrite <-E.
Qed.

#[export] Hint Resolve str_le_refl HasPrefix_app str_le_prefix : setcd.
