(* ===== verification/GoText.v ===== *)
(** * Text conversions of the Go standard library

    The functions the program reads text with: [time.Parse] for RFC 3339,
    [time.ParseDuration], [base64.StdEncoding.DecodeString], [fmt.Sscan] of an
    [int64], and package strings. *)

From Stdlib Require Import Ascii String SpecFloat.
From S2P Require Import Prelude Go.

Open Scope string_scope.
Open Scope list_scope.
Open Scope Z_scope.

(** ** Bytes and digits *)

Definition byte_of (c : ascii) : Z := Z.of_N (N_of_ascii c).

Definition digit (c : ascii) : option Z :=
  if (48 <=? byte_of c) && (byte_of c <=? 57) then Some (byte_of c - 48) else None.

Definition is_digit (c : ascii) : bool := match digit c with Some _ => true | None => false end.

(** The digits a string starts with, and the rest. *)
Fixpoint span_digits (s : string) : list Z * string :=
  match s with
  | String c s' =>
      match digit c with
      | Some d => let (ds, rest) := span_digits s' in (d :: ds, rest)
      | None => ([], s)
      end
  | EmptyString => ([], EmptyString)
  end.

(** The number a list of digits denotes. *)
Definition digits_val (ds : list Z) : Z := foldl (λ x d, x * 10 + d) 0 ds.

(** ** [time.Parse(time.RFC3339Nano, s)] *)

Definition is_leap (y : Z) : bool := (y mod 4 =? 0) && (negb (y mod 100 =? 0) || (y mod 400 =? 0)).

Definition daysIn (m y : Z) : Z :=
  if m =? 2 then (if is_leap y then 29 else 28)
  else if (m =? 4) || (m =? 6) || (m =? 9) || (m =? 11) then 30 else 31.

(** Days from 1970-01-01 to a date of the Gregorian calendar, counted in years
    that start on March 1. *)
Definition days_of_date (y m d : Z) : Z :=
  let y' := if m <=? 2 then y - 1 else y in
  let era := y' / 400 in
  let yoe := y' mod 400 in
  let mp := if m <=? 2 then m + 9 else m - 3 in
  let doy := (153 * mp + 2) / 5 + d - 1 in
  era * 146097 + (yoe * 365 + yoe / 4 - yoe / 100 + doy) - 719468.

(** [getnum(s, fixed)]: two digits, or one when it is not fixed. *)
Definition getnum (s : string) (fixed : bool) : option (Z * string) :=
  match s with
  | String a s1 =>
      match digit a with
      | None => None
      | Some da =>
          match s1 with
          | String b s2 =>
              match digit b with
              | Some db => Some (da * 10 + db, s2)
              | None => if fixed then None else Some (da, s1)
              end
          | EmptyString => if fixed then None else Some (da, s1)
          end
      end
  | EmptyString => None
  end.

(** The four digits of a year. *)
Definition getyear (s : string) : option (Z * string) :=
  match s with
  | String a (String b (String c (String d rest))) =>
      match digit a, digit b, digit c, digit d with
      | Some a, Some b, Some c, Some d => Some (digits_val [a; b; c; d], rest)
      | _, _, _, _ => None
      end
  | _ => None
  end.

Definition expect (c : ascii) (s : string) : option string :=
  match s with
  | String d rest => if bool_decide (d = c) then Some rest else None
  | EmptyString => None
  end.

(** [parseNanoseconds]: nine digits count. *)
Definition nanos (ds : list Z) : Z :=
  let ds := take 9 ds in digits_val ds * 10 ^ (9 - Z.of_nat (length ds)).

(** An optional fraction of a second: a period or a comma, and at least one digit. *)
Definition getfraction (s : string) : Z * string :=
  match s with
  | String c rest =>
      if bool_decide (c = "."%char) || bool_decide (c = ","%char) then
        match span_digits rest with
        | ([], _) => (0, s)
        | (ds, rest) => (nanos ds, rest)
        end
      else (0, s)
  | EmptyString => (0, s)
  end.

(** [Z07:00]: the offset in seconds. *)
Definition getzone (s : string) : option (Z * string) :=
  match s with
  | String c s1 =>
      if bool_decide (c = "Z"%char) then Some (0, s1)
      else
        '(hr, s2) ← getnum s1 true;
        s3 ← expect ":" s2;
        '(mm, s4) ← getnum s3 true;
        if (24 <? hr) || (60 <? mm) then None
        else
          let off := (hr * 60 + mm) * 60 in
          if bool_decide (c = "+"%char) then Some (off, s4)
          else if bool_decide (c = "-"%char) then Some (- off, s4)
          else None
  | EmptyString => None
  end.

Definition time_Parse (s : string) : option Z :=
  '(year, s) ← getyear s;
  s ← expect "-" s;
  '(month, s) ← getnum s true;
  if (month <=? 0) || (12 <? month) then None
  else
    s ← expect "-" s;
    '(day, s) ← getnum s true;
    s ← expect "T" s;
    '(hour, s) ← getnum s false;
    if 24 <=? hour then None
    else
      s ← expect ":" s;
      '(min, s) ← getnum s true;
      if 60 <=? min then None
      else
        s ← expect ":" s;
        '(sec, s) ← getnum s true;
        if 60 <=? sec then None
        else
          let (nsec, s) := getfraction s in
          '(off, s) ← getzone s;
          if bool_decide (s = "") then
            if (day <? 1) || (daysIn month year <? day) then None
            else Some ((days_of_date year month day * 86400 + hour * 3600 + min * 60 + sec - off) * Second + nsec)
          else None.

(** ** [time.ParseDuration] *)

Definition two63 : Z := 2 ^ 63.

(** [leadingInt]: [None] on overflow. *)
Fixpoint leadingInt (x : Z) (s : string) : option (Z * string) :=
  match s with
  | String c s' =>
      match digit c with
      | Some d =>
          if two63 / 10 <? x then None
          else let x := x * 10 + d in if two63 <? x then None else leadingInt x s'
      | None => Some (x, s)
      end
  | EmptyString => Some (x, s)
  end.

(** [leadingFraction]: digits after an overflow are dropped. *)
Fixpoint leadingFraction (x : Z) (scale : spec_float) (overflow : bool) (s : string) :
    Z * spec_float * string :=
  match s with
  | String c s' =>
      match digit c with
      | Some d =>
          if overflow then leadingFraction x scale true s'
          else if (two63 - 1) / 10 <? x then leadingFraction x scale true s'
          else
            let y := x * 10 + d in
            if two63 <? y then leadingFraction x scale true s'
            else leadingFraction y (SFmul 53 1024 scale (float64_of 10)) false s'
      | None => (x, scale, s)
      end
  | EmptyString => (x, scale, s)
  end.

(** The unit: everything up to the next digit or period. *)
Fixpoint span_unit (s : string) : string * string :=
  match s with
  | String c s' =>
      if is_digit c || bool_decide (c = "."%char) then (EmptyString, s)
      else let (u, rest) := span_unit s' in (String c u, rest)
  | EmptyString => (EmptyString, EmptyString)
  end.

Definition micro_sign : string := String (ascii_of_N 194) (String (ascii_of_N 181) "s").
Definition greek_mu : string := String (ascii_of_N 206) (String (ascii_of_N 188) "s").

Definition unitMap (u : string) : option Z :=
  if bool_decide (u = "ns") then Some 1
  else if bool_decide (u = "us") || bool_decide (u = micro_sign) || bool_decide (u = greek_mu) then Some 1000
  else if bool_decide (u = "ms") then Some 1000000
  else if bool_decide (u = "s") then Some Second
  else if bool_decide (u = "m") then Some Minute
  else if bool_decide (u = "h") then Some (60 * Minute)
  else None.

(** The nonnegative integer part of a float. *)
Definition uint64_of_float (f : spec_float) : Z :=
  match f with
  | S754_finite false m e => if 0 <=? e then Z.pos m * 2 ^ e else Z.pos m / 2 ^ (- e)
  | _ => 0
  end.

(** One number with its unit, in nanoseconds. *)
Definition duration_part (s : string) : option (Z * string) :=
  match s with
  | String c _ =>
      if is_digit c || bool_decide (c = "."%char) then
        '(v, s1) ← leadingInt 0 s;
        let pre := negb (String.length s1 =? String.length s)%nat in
        let '(f, scale, s2, post) :=
          match s1 with
          | String c1 r =>
              if bool_decide (c1 = "."%char) then
                let '(f, scale, s2) := leadingFraction 0 (float64_of 1) false r in
                (f, scale, s2, negb (String.length s2 =? String.length r)%nat)
              else (0, float64_of 1, s1, false)
          | EmptyString => (0, float64_of 1, s1, false)
          end in
        if negb pre && negb post then None
        else
          let (u, s3) := span_unit s2 in
          if bool_decide (u = "") then None
          else
            unit ← unitMap u;
            if two63 / unit <? v then None
            else
              let v := v * unit in
              let v := if 0 <? f
                       then v + uint64_of_float (SFmul 53 1024 (float64_of f) (SFdiv 53 1024 (float64_of unit) scale))
                       else v in
              if (0 <? f) && (two63 <? v) then None else Some (v, s3)
      else None
  | EmptyString => None
  end.

(** The sum of the parts, a [uint64]. *)
Fixpoint duration_loop (fuel : nat) (d : Z) (s : string) : option Z :=
  match s with
  | EmptyString => Some d
  | _ =>
      match fuel with
      | O => None
      | S fuel =>
          '(v, s) ← duration_part s;
          let d := (d + v) mod 2 ^ 64 in
          if two63 <? d then None else duration_loop fuel d s
      end
  end.

Definition ParseDuration (s : string) : option Z :=
  let '(neg, s) :=
    match s with
    | String c r => if bool_decide (c = "-"%char) || bool_decide (c = "+"%char)
                    then (bool_decide (c = "-"%char), r) else (false, s)
    | EmptyString => (false, s)
    end in
  if bool_decide (s = "0") then Some 0
  else if bool_decide (s = "") then None
  else
    d ← duration_loop (String.length s) 0 s;
    if (neg : bool) then Some (int64 (- int64 d))
    else if two63 - 1 <? d then None else Some d.

(** ** [base64.StdEncoding.DecodeString] *)

Definition b64_val (c : ascii) : option Z :=
  let n := byte_of c in
  if (65 <=? n) && (n <=? 90) then Some (n - 65)
  else if (97 <=? n) && (n <=? 122) then Some (n - 71)
  else if (48 <=? n) && (n <=? 57) then Some (n + 4)
  else if n =? 43 then Some 62
  else if n =? 47 then Some 63
  else None.

Definition is_newline (c : ascii) : bool := (byte_of c =? 10) || (byte_of c =? 13).

Definition chr (z : Z) : ascii := ascii_of_N (Z.to_N (z mod 256)).

Fixpoint skip_newlines (s : string) : string :=
  match s with
  | String c s' => if is_newline c then skip_newlines s' else s
  | EmptyString => EmptyString
  end.

(** The bytes decoded before the end or the first error, which the program ignores:
    [acc] holds the digits of the current group, last first. *)
Fixpoint b64_decode_from (acc : list Z) (s : string) : string :=
  match s with
  | EmptyString => EmptyString
  | String c s' =>
      match b64_val c with
      | Some v =>
          match acc with
          | [v2; v1; v0] =>
              String (chr (v0 * 4 + v1 / 16))
                (String (chr (v1 * 16 + v2 / 4))
                   (String (chr (v2 * 64 + v)) (b64_decode_from [] s')))
          | _ => b64_decode_from (v :: acc) s'
          end
      | None =>
          if is_newline c then b64_decode_from acc s'
          else if bool_decide (c = "="%char) then
            match acc with
            | [v1; v0] =>
                match skip_newlines s' with
                | String p _ => if bool_decide (p = "="%char) then String (chr (v0 * 4 + v1 / 16)) EmptyString
                                else EmptyString
                | EmptyString => EmptyString
                end
            | [v2; v1; v0] =>
                String (chr (v0 * 4 + v1 / 16)) (String (chr (v1 * 16 + v2 / 4)) EmptyString)
            | _ => EmptyString
            end
          else EmptyString
      end
  end.

Definition b64_decode (s : string) : string := b64_decode_from [] s.

(** ** Package strings *)

(** [strings.Contains(s, sub)]. *)
Fixpoint Contains (s sub : string) : bool :=
  HasPrefix s sub || match s with EmptyString => false | String _ s' => Contains s' sub end.

(** [strings.TrimPrefix(s, p)]. *)
Definition TrimPrefix (s p : string) : string :=
  if HasPrefix s p then String.substring (String.length p) (String.length s - String.length p) s else s.

(** [strings.Split(s, sep)] for a one-byte separator. *)
Fixpoint Split (s : string) (sep : ascii) : list string :=
  match s with
  | EmptyString => [""]
  | String c s' =>
      if bool_decide (c = sep) then "" :: Split s' sep
      else match Split s' sep with
           | [] => [String c ""]
           | p :: ps => String c p :: ps
           end
  end.

(** [strings.SplitN(s, sep, 2)] when it has two parts. *)
Fixpoint Cut (s : string) (sep : ascii) : option (string * string) :=
  match s with
  | EmptyString => None
  | String c s' =>
      if bool_decide (c = sep) then Some ("", s')
      else match Cut s' sep with
           | Some (a, b) => Some (String c a, b)
           | None => None
           end
  end.

Definition of_bytes (l : list N) : string := String.string_of_list_ascii (ascii_of_N <$> l).

(** The UTF-8 encodings of the characters [unicode.IsSpace] accepts. *)
Definition spaces : list string := of_bytes <$>
  ([[9]; [10]; [11]; [12]; [13]; [32]; [194; 133]; [194; 160]; [225; 154; 128];
    [226; 128; 128]; [226; 128; 129]; [226; 128; 130]; [226; 128; 131]; [226; 128; 132];
    [226; 128; 133]; [226; 128; 134]; [226; 128; 135]; [226; 128; 136]; [226; 128; 137];
    [226; 128; 138]; [226; 128; 168]; [226; 128; 169]; [226; 128; 175]; [226; 129; 159];
    [227; 128; 128]])%N.

(** The length of the space [s] starts with, 0 for none. *)
Definition space_prefix (s : string) : nat :=
  match List.find (λ sp, HasPrefix s sp) spaces with
  | Some sp => String.length sp
  | None => 0
  end.

Definition HasSuffix (s suf : string) : bool :=
  let n := String.length s in let k := String.length suf in
  Nat.leb k n && String.eqb (String.substring (n - k) k s) suf.

Definition space_suffix (s : string) : nat :=
  match List.find (λ sp, HasSuffix s sp) spaces with
  | Some sp => String.length sp
  | None => 0
  end.

Fixpoint trim_left (fuel : nat) (s : string) : string :=
  match fuel, space_prefix s with
  | S fuel, S k => trim_left fuel (String.substring (S k) (String.length s - S k) s)
  | _, _ => s
  end.

Fixpoint trim_right (fuel : nat) (s : string) : string :=
  match fuel, space_suffix s with
  | S fuel, S k => trim_right fuel (String.substring 0 (String.length s - S k) s)
  | _, _ => s
  end.

(** [strings.TrimSpace(s)]. *)
Definition TrimSpace (s : string) : string :=
  let n := String.length s in trim_right n (trim_left n s).

(** ** [fmt.Sscan(s, &n)] of an [int64] *)

(** Digits of a base and underscores, as [scanNumber] collects them. *)
Definition digit_in (base : Z) (c : ascii) : option Z :=
  let n := byte_of c in
  let v := if (48 <=? n) && (n <=? 57) then n - 48
           else if (97 <=? n) && (n <=? 102) then n - 87
           else if (65 <=? n) && (n <=? 70) then n - 55
           else 99 in
  if v <? base then Some v else None.

(** [Some d] is a digit, [None] an underscore. *)
Fixpoint scan_digits (base : Z) (s : string) : list (option Z) :=
  match s with
  | String c s' =>
      match digit_in base c with
      | Some d => Some d :: scan_digits base s'
      | None => if bool_decide (c = "_"%char) then None :: scan_digits base s' else []
      end
  | EmptyString => []
  end.

(** [underscoreOK] after a prefix or a leading zero ([after = true], an underscore
    may follow it) or at the start: underscores separate digits, one at a time. *)
Fixpoint underscore_ok (after : bool) (ds : list (option Z)) : bool :=
  match ds with
  | [] => true
  | Some _ :: ds => underscore_ok true ds
  | None :: ds => after && match ds with Some _ :: _ => underscore_ok false ds | _ => false end
  end.

Definition scanned_val (base : Z) (ds : list (option Z)) : Z :=
  foldl (λ x d, match d with Some d => x * base + d | None => x end) 0 ds.

(** The base prefix: the base, whether something was consumed that an underscore may
    follow, whether a digit was consumed, and the rest. *)
Definition base_prefix (s : string) : Z * bool * bool * string :=
  match s with
  | String "0" r =>
      match r with
      | String c r' =>
          if bool_decide (c = "b"%char) || bool_decide (c = "B"%char) then (2, true, false, r')
          else if bool_decide (c = "o"%char) || bool_decide (c = "O"%char) then (8, true, false, r')
          else if bool_decide (c = "x"%char) || bool_decide (c = "X"%char) then (16, true, false, r')
          else (8, true, true, r)
      | EmptyString => (8, true, true, r)
      end
  | _ => (10, false, false, s)
  end.

(** The value stored in [n], which stays 0 when scanning fails. *)
Definition Sscan_int64 (s : string) : Z :=
  let s := trim_left (String.length s) s in
  let '(neg, s) :=
    match s with
    | String c r => if bool_decide (c = "+"%char) || bool_decide (c = "-"%char)
                    then (bool_decide (c = "-"%char), r) else (false, s)
    | EmptyString => (false, s)
    end in
  let '(base, after, have, s) := base_prefix s in
  let ds := scan_digits base s in
  let v := scanned_val base ds in
  if negb have && negb (existsb (λ d, match d with Some _ => true | None => false end) ds) then 0
  else if negb (underscore_ok after ds) then 0
  else if (neg : bool) then (if two63 <? v then 0 else - v)
  else if two63 <=? v then 0 else v.
