(* ===== verification/GoTextProps.v ===== *)
(** * Printing and reading back

    Decimal numbers, base64 and RFC 3339 timestamps as Spanner writes them, and
    that the functions of [GoText] read them back; bounds of durations. *)

From Stdlib Require Import Ascii String SpecFloat.
From S2P Require Import Prelude Go GoText.

Open Scope string_scope.
Open Scope list_scope.
Open Scope Z_scope.

(** ** Digits *)

Fixpoint str_digits (ds : list Z) (rest : string) : string :=
  match ds with [] => rest | d :: ds => String (chr (48 + d)) (str_digits ds rest) end.

Definition digits_ok (ds : list Z) : Prop := Forall (λ d, 0 ≤ d < 10) ds.

Definition no_digit (s : string) : Prop := match s with String c _ => digit c = None | EmptyString => True end.

Lemma byte_of_chr z : 0 ≤ z < 256 → byte_of (chr z) = z.
Proof.
  intros. unfold byte_of, chr. rewrite N_ascii_embedding, Z.mod_small by (rewrite ?Z.mod_small; lia). lia.
Qed.

Lemma digit_chr d : 0 ≤ d < 10 → digit (chr (48 + d)) = Some d.
Proof.
  intros. unfold digit. rewrite byte_of_chr by lia.
  destruct (48 <=? 48 + d) eqn:E1, (48 + d <=? 57) eqn:E2; bool_prop; try lia. cbn. f_equal. lia.
Qed.

Lemma span_digits_str ds rest :
  digits_ok ds → no_digit rest → span_digits (str_digits ds rest) = (ds, rest).
Proof.
  induction 1 as [|d ds Hd _ IH]; intros Hr; cbn.
  - destruct rest as [|c rest]; [done|]. cbn in Hr |- *. by rewrite Hr.
  - by rewrite digit_chr, IH.
Qed.

Lemma digits_val_app ds ds' :
  digits_val (ds ++ ds') = foldl (λ x d, x * 10 + d) (digits_val ds) ds'.
Proof. unfold digits_val. by rewrite foldl_app. Qed.

(** [k] digits of [n]. *)
Fixpoint fix_digits (k : nat) (n : Z) : list Z :=
  match k with O => [] | S k => fix_digits k (n / 10) ++ [n mod 10] end.

Lemma fix_digits_ok k n : digits_ok (fix_digits k n).
Proof.
  revert n. induction k as [|k IH]; intros n; cbn; [constructor|]. apply Forall_app. split; [apply IH|].
  apply Forall_singleton. apply Z.mod_pos_bound. lia.
Qed.

Lemma fix_digits_length k n : length (fix_digits k n) = k.
Proof. revert n. induction k as [|k IH]; intros n; cbn; [done|]. rewrite length_app, IH. cbn. lia. Qed.

Lemma fix_digits_val k n : 0 ≤ n < 10 ^ Z.of_nat k → digits_val (fix_digits k n) = n.
Proof.
  revert n. induction k as [|k IH]; intros n Hn.
  - cbn in *. lia.
  - cbn [fix_digits]. rewrite digits_val_app. cbn [foldl]. rewrite IH.
    + pose proof (Z.div_mod n 10). lia.
    + rewrite Nat2Z.inj_succ, Z.pow_succ_r in Hn by lia. split; [apply Z.div_pos; lia|apply Z.div_lt_upper_bound; lia].
Qed.

(** Decimal notation. *)
Fixpoint to_digits (fuel : nat) (n : Z) : list Z :=
  match fuel with
  | O => []
  | S fuel => if n <? 10 then [n] else to_digits fuel (n / 10) ++ [n mod 10]
  end.

Definition dec (n : Z) : string := str_digits (to_digits 20 n) "".

Lemma to_digits_spec fuel n :
  0 ≤ n < 10 ^ Z.of_nat fuel → digits_ok (to_digits fuel n) ∧ digits_val (to_digits fuel n) = n.
Proof.
  revert n. induction fuel as [|fuel IH]; intros n Hn.
  - cbn in *. split; [constructor|lia].
  - cbn [to_digits]. case_bool; [split; [apply Forall_singleton; lia|unfold digits_val; cbn; lia]|].
    rewrite Nat2Z.inj_succ, Z.pow_succ_r in Hn by lia.
    destruct (IH (n / 10)) as [Hok Hv]; [split; [apply Z.div_pos; lia|apply Z.div_lt_upper_bound; lia]|].
    split.
    + apply Forall_app. split; [done|]. apply Forall_singleton. apply Z.mod_pos_bound. lia.
    + rewrite digits_val_app, Hv. cbn. pose proof (Z.div_mod n 10). lia.
Qed.

(** The first digit is 0 only for zero itself. *)
Lemma to_digits_head fuel n :
  0 ≤ n < 10 ^ Z.of_nat (S fuel) → ∃ d ds, to_digits (S fuel) n = d :: ds ∧ (d = 0 → n = 0 ∧ ds = []).
Proof.
  revert n. induction fuel as [|fuel IH]; intros n Hn.
  - cbn in Hn. cbn. destruct (n <? 10) eqn:E; bool_prop; [|lia]. by exists n, [].
  - cbn [to_digits]. case_bool; [by exists n, []|]. change (if n / 10 <? 10 then [n / 10] else to_digits fuel (n / 10 / 10) ++ [n / 10 mod 10]) with (to_digits (S fuel) (n / 10)).
    rewrite Nat2Z.inj_succ, Z.pow_succ_r in Hn by lia.
    destruct (IH (n / 10)) as (d & ds & -> & Hd); [split; [apply Z.div_pos; lia|apply Z.div_lt_upper_bound; lia]|].
    exists d, (ds ++ [n mod 10]). split; [done|]. intros H0. destruct (Hd H0) as [H1 _].
    assert (1 ≤ n / 10) by (apply Z.div_le_lower_bound; lia). lia.
Qed.

Lemma two63_eq : two63 = 9223372036854775808.
Proof. done. Qed.

Lemma digits_grow x ds : digits_ok ds → 0 ≤ x → x ≤ foldl (λ x d, x * 10 + d) x ds.
Proof.
  intros H. revert x. induction H as [|d ds Hd _ IH]; intros x Hx; cbn; [lia|]. specialize (IH (x * 10 + d)). lia.
Qed.

Lemma leadingInt_digits x ds rest :
  digits_ok ds → no_digit rest → 0 ≤ x → foldl (λ x d, x * 10 + d) x ds ≤ two63 →
  leadingInt x (str_digits ds rest) = Some (foldl (λ x d, x * 10 + d) x ds, rest).
Proof.
  intros H Hr. revert x. induction H as [|d ds Hd Hds IH]; intros x Hx Hle; cbn.
  - destruct rest as [|c rest]; [done|]. cbn in Hr |- *. by rewrite Hr.
  - cbn in Hle. rewrite digit_chr by done. pose proof (digits_grow (x * 10 + d) ds Hds ltac:(lia)) as Hg.
    rewrite two63_eq in *. change (9223372036854775808 / 10) with 922337203685477580.
    destruct (922337203685477580 <? x) eqn:E; bool_prop; [lia|].
    destruct (9223372036854775808 <? x * 10 + d) eqn:E'; bool_prop; [lia|]. apply IH; [lia|done].
Qed.

Lemma leadingInt_dec n rest :
  0 ≤ n ≤ two63 → no_digit rest → leadingInt 0 (str_digits (to_digits 20 n) rest) = Some (n, rest).
Proof.
  intros Hn Hr. rewrite two63_eq in Hn. destruct (to_digits_spec 20 n) as [Hok Hv]; [cbn; lia|].
  rewrite leadingInt_digits; [by rewrite <-Hv at 2|done|done|done|]. unfold digits_val in Hv. rewrite Hv, two63_eq. lia.
Qed.

(** ** [Sscan] reads decimal numbers *)

Lemma digit_in_10 c : digit_in 10 c = digit c.
Proof.
  unfold digit_in, digit. destruct ((48 <=? byte_of c) && (byte_of c <=? 57)) eqn:E.
  - bool_prop. destruct (byte_of c - 48 <? 10) eqn:E'; bool_prop; [done|lia].
  - destruct ((97 <=? byte_of c) && (byte_of c <=? 102)) eqn:E1; bool_prop;
      [destruct (byte_of c - 87 <? 10) eqn:E2; bool_prop; [lia|done]|].
    destruct ((65 <=? byte_of c) && (byte_of c <=? 70)) eqn:E3; bool_prop;
      [destruct (byte_of c - 55 <? 10) eqn:E4; bool_prop; [lia|done]|done].
Qed.

Lemma scan_digits_str ds : digits_ok ds → scan_digits 10 (str_digits ds "") = Some <$> ds.
Proof.
  induction 1 as [|d ds Hd _ IH]; [done|]. cbn. by rewrite digit_in_10, digit_chr, IH.
Qed.

Lemma scanned_val_digits x (ds : list Z) :
  foldl (λ x d, match d with Some d => x * 10 + d | None => x end) x (Some <$> ds) = foldl (λ x d, x * 10 + d) x ds.
Proof. revert x. induction ds as [|d ds IH]; intros x; [done|]. cbn. apply IH. Qed.

Lemma underscore_ok_digits b (ds : list Z) : underscore_ok b (Some <$> ds) = true.
Proof. revert b. induction ds as [|d ds IH]; intros b; [done|]. cbn. apply IH. Qed.

Lemma space_not_digit c s : digit c ≠ None → space_prefix (String c s) = 0%nat.
Proof.
  intros Hd. unfold space_prefix. destruct (List.find _ spaces) as [sp|] eqn:E; [|done].
  apply List.find_some in E as [Hin Hp].
  assert (Forall (λ sp, match sp with String c0 _ => digit c0 = None | EmptyString => False end) spaces) as H
    by (vm_compute; repeat constructor).
  rewrite List.Forall_forall in H. specialize (H sp Hin). destruct sp as [|c0 sp]; [done|].
  unfold HasPrefix in Hp. cbn in Hp. destruct (ascii_dec c0 c) as [->|]; done.
Qed.

Lemma trim_left_digit n c s : digit c ≠ None → trim_left n (String c s) = String c s.
Proof. intros Hd. destruct n; cbn -[space_prefix]; by rewrite ?space_not_digit. Qed.

Lemma base_prefix_decimal c s : c ≠ "0"%char → base_prefix (String c s) = (10, false, false, String c s).
Proof. intros H. by destruct c as [[] [] [] [] [] [] [] []]. Qed.

(** The digits of [n] after the sign. *)
Lemma scan_dec n :
  0 ≤ n ≤ two63 → n ≠ 0 →
  base_prefix (dec n) = (10, false, false, dec n) ∧
  ∃ ds, scan_digits 10 (dec n) = Some <$> ds ∧ ds ≠ [] ∧ digits_val ds = n.
Proof.
  intros Hn Hn0. rewrite two63_eq in Hn. destruct (to_digits_spec 20 n) as [Hok Hv]; [cbn; lia|].
  destruct (to_digits_head 19 n) as (d & ds & E & H0); [cbn; lia|]. unfold dec. rewrite E in *.
  split; [|exists (d :: ds); by rewrite scan_digits_str].
  apply Forall_cons in Hok as [Hd _]. apply base_prefix_decimal. intros Hc. apply (f_equal digit) in Hc.
  rewrite digit_chr in Hc by done. injection Hc as ->. by destruct H0.
Qed.

(** Decimal notation of an [int64]. *)
Definition dec_int (n : Z) : string := if n <? 0 then String "-" (dec (- n)) else dec n.

Lemma dec_head n : 0 ≤ n ≤ two63 → ∃ c s, dec n = String c s ∧ digit c ≠ None.
Proof.
  intros Hn. rewrite two63_eq in Hn. destruct (to_digits_spec 20 n) as [Hok _]; [cbn; lia|].
  destruct (to_digits_head 19 n) as (d & ds & E & _); [cbn; lia|]. unfold dec. rewrite E in *.
  apply Forall_cons in Hok as [Hd _]. eexists _, _. split; [reflexivity|]. by rewrite digit_chr.
Qed.

Lemma Sscan_dec n : int64_range n → Sscan_int64 (dec_int n) = n.
Proof.
  unfold int64_range. intros Hn. unfold dec_int. destruct (decide (n = 0)) as [->|Hn0]; [reflexivity|].
  destruct (dec_head (Z.abs n)) as (c & s & Ec & Hc); [unfold two63; lia|].
  destruct (scan_dec (Z.abs n)) as (Hb & ds & Hs & Hne & Hv); [unfold two63; lia|lia|].
  unfold Sscan_int64. case_bool.
  - rewrite Z.abs_neq in * by lia. 
    change (trim_left (String.length (String "-" (dec (- n)))) (String "-" (dec (- n)))) with (String "-" (dec (- n))).
    cbn [bool_decide decide]. rewrite !(bool_decide_true ("-"%char = "-"%char)) by done. rewrite orb_true_r.
    rewrite Hb, Hs. unfold scanned_val. rewrite scanned_val_digits, underscore_ok_digits. fold (digits_val ds).
    rewrite Hv. destruct ds as [|e ds]; [done|]. cbn. 
    destruct (two63 <? - n) eqn:E; bool_prop; [unfold two63 in E; lia|]. lia.
  - rewrite Z.abs_eq in * by lia. cbv zeta.
    assert (trim_left (String.length (dec n)) (dec n) = String c s) as -> by (rewrite Ec; by apply trim_left_digit).
    assert (∀ c', digit c' = None → bool_decide (c = c') = false) as Hne'.
    { intros c' Hc'. apply bool_decide_eq_false. by intros ->. }
    rewrite !Hne' by done. cbn [orb]. rewrite <-Ec, Hb, Hs. unfold scanned_val.
    rewrite scanned_val_digits, underscore_ok_digits. fold (digits_val ds). rewrite Hv.
    destruct ds as [|e ds]; [done|]. cbn [fmap list_fmap existsb orb negb andb].
    destruct (two63 <=? n) eqn:E; bool_prop; [unfold two63 in E; lia|done].
Qed.

(** ** Durations *)

(** [ParseDuration] answers an [int64]. *)
Lemma ParseDuration_range s d : ParseDuration s = Some d → int64_range d.
Proof.
  unfold ParseDuration.
  destruct (match s with String _ _ => _ | EmptyString => _ end) as [neg s'].
  case_bool; [intros [= <-]; unfold int64_range; lia|]. case_bool; [done|].
  destruct (duration_loop _ _ _) as [x|] eqn:E; [|done]. cbn [mbind option_bind].
  assert (0 ≤ x) as Hx.
  { assert (∀ fuel y s x, 0 ≤ y → duration_loop fuel y s = Some x → 0 ≤ x) as Hl; [|by eapply (Hl _ 0)].
    clear. intros fuel. induction fuel as [|fuel IH]; intros y s x Hy; cbn; destruct s; try done.
    1,2: intros [= <-]; done.
    destruct (duration_part _) as [[v s']|]; cbn; [|done]. case_bool; [done|]. apply IH.
    apply Z.mod_pos_bound. lia. }
  destruct neg; [intros [= <-]; apply int64_in_range|]. case_bool; [done|]. intros [= <-].
  rewrite two63_eq in *. unfold int64_range. lia.
Qed.

(** The loop has enough fuel: every part consumes a byte. *)
Lemma span_unit_length s : let (u, r) := span_unit s in (String.length u + String.length r = String.length s)%nat.
Proof.
  induction s as [|c s IH]; [done|]. cbn. case_bool; [done|]. destruct (span_unit s) as [u r]. cbn. lia.
Qed.

Lemma leadingInt_length x s y r : leadingInt x s = Some (y, r) → (String.length r ≤ String.length s)%nat.
Proof.
  revert x. induction s as [|c s IH]; intros x; cbn; [by intros [= <- <-]|].
  destruct (digit c); [|by intros [= <- <-]]. repeat (case_bool; [done|]). intros H%IH. lia.
Qed.

Lemma leadingFraction_length x sc o s :
  (String.length (leadingFraction x sc o s).2 ≤ String.length s)%nat.
Proof.
  revert x sc o. induction s as [|c s IH]; intros x sc o; cbn; [done|]. destruct (digit c); [|done].
  repeat case_bool; (etrans; [apply IH|lia]).
Qed.

Lemma duration_part_shorter s v r : duration_part s = Some (v, r) → (String.length r < String.length s)%nat.
Proof.
  unfold duration_part. destruct s as [|c s0]; [done|]. set (s := String c s0). case_bool; [|done].
  destruct (leadingInt 0 s) as [[x s1]|] eqn:E1; [|done]. cbn [mbind option_bind].
  apply leadingInt_length in E1.
  destruct (match s1 with String _ _ => _ | EmptyString => _ end) as [[[f sc] s2] post] eqn:E2.
  assert (String.length s2 ≤ String.length s1)%nat as Hl2.
  { destruct s1 as [|c1 r1]; [by injection E2 as <- <- <- <-|]. destruct (bool_decide (c1 = "."%char)); [|by injection E2 as <- <- <- <-].
    pose proof (leadingFraction_length 0 (float64_of 1) false r1) as Hf.
    destruct (leadingFraction _ _ _ _) as [[f0 sc0] s20]. injection E2 as <- <- <- <-. cbn in *. lia. }
  case_bool; [done|]. pose proof (span_unit_length s2) as Hu. destruct (span_unit s2) as [u s3].
  case_bool; [done|]. assert (0 < String.length u)%nat by (destruct u; [done|cbn; lia]).
  destruct (unitMap u); [|done]. cbn. case_bool; [done|]. case_bool; [done|]. intros [= <- <-]. clear -E1 Hl2 Hu H. cbn in E1. lia.
Qed.

Lemma duration_loop_fuel n m d s :
  (String.length s ≤ n)%nat → (n ≤ m)%nat → duration_loop m d s = duration_loop n d s.
Proof.
  revert m d s. induction n as [|n IH]; intros m d s Hs Hm.
  - destruct s; [by destruct m|cbn in Hs; lia].
  - destruct m as [|m]; [lia|]. destruct s as [|c s]; [done|]. cbn [duration_loop].
    destruct (duration_part (String c s)) as [[v r]|] eqn:E; [|done]. cbn.
    apply duration_part_shorter in E. case_bool; [done|]. apply IH; lia.
Qed.

(** Whole seconds are read exactly. *)
Lemma ParseDuration_seconds n : 0 < n ≤ 9223372036 → ParseDuration (dec n +:+ "s") = Some (n * Second).
Proof.
  intros Hn. destruct (to_digits_spec 20 n) as [Hok Hv]; [cbn; lia|].
  destruct (to_digits_head 19 n) as (d & ds & E & H0); [cbn; lia|].
  assert (dec n +:+ "s" = str_digits (to_digits 20 n) "s") as ->.
  { unfold dec. generalize (to_digits 20 n). clear. intros ds. induction ds as [|d ds IH]; [done|]. cbn. by rewrite IH. }
  assert (leadingInt 0 (str_digits (to_digits 20 n) "s") = Some (n, "s")) as HL
    by (apply leadingInt_dec; [rewrite two63_eq; lia|done]).
  rewrite E in *. apply Forall_cons in Hok as Hok'. destruct Hok' as [Hd _].
  assert (digit (chr (48 + d)) = Some d) as Hdig by (by apply digit_chr).
  assert (∀ c, digit c = None → bool_decide (chr (48 + d) = c) = false) as Hne.
  { intros c Hc. apply bool_decide_eq_false. intros <-. congruence. }
  unfold ParseDuration. cbn [str_digits] in *. rewrite !Hne by done. cbn [orb].
  rewrite bool_decide_false by (by destruct ds). rewrite bool_decide_false by done.
  assert (duration_part (String (chr (48 + d)) (str_digits ds "s")) = Some (n * Second, "")) as Hp.
  { unfold duration_part. unfold is_digit. rewrite Hdig. cbn [orb]. rewrite HL. cbn [mbind option_bind].
    assert ((String.length "s" =? String.length (String (chr (48 + d)) (str_digits ds "s")))%nat = false) as ->.
    { apply Nat.eqb_neq. cbn. intros Hl. injection Hl as Hl. by destruct ds. }
    rewrite (bool_decide_false ("s"%char = "."%char)) by done. cbn [negb andb].
    change (span_unit "s") with ("s", ""). cbv beta iota zeta. rewrite (bool_decide_false ("s" = "")) by done.
    change (unitMap "s") with (Some Second). cbn [mbind option_bind].
    cbv beta iota. change (two63 / Second) with 9223372036. destruct (9223372036 <? n) eqn:E1; bool_prop; [lia|].
    by rewrite Z.ltb_irrefl. }
  cbn [String.length duration_loop]. rewrite Hp. cbn [mbind option_bind].
  rewrite Z.add_0_l, Z.mod_small by (unfold Second; lia).
  assert ((two63 <? n * Second) = false) as -> by (apply Z.ltb_ge; rewrite two63_eq; unfold Second; lia).
  assert (∀ k, duration_loop k (n * Second) "" = Some (n * Second)) as -> by (by intros []).
  cbn [mbind option_bind].
  assert ((two63 - 1 <? n * Second) = false) as E1 by (apply Z.ltb_ge; rewrite two63_eq; unfold Second; lia).
  by rewrite E1.
Qed.

(** ** base64 *)

Definition b64_chr (v : Z) : ascii :=
  chr (if v <? 26 then v + 65 else if v <? 52 then v + 71 else if v <? 62 then v - 4
       else if v =? 62 then 43 else 47).

Fixpoint b64_encode (s : string) : string :=
  match s with
  | EmptyString => EmptyString
  | String a EmptyString =>
      let a := byte_of a in
      String (b64_chr (a / 4)) (String (b64_chr (a mod 4 * 16)) "==")
  | String a (String b EmptyString) =>
      let a := byte_of a in let b := byte_of b in
      String (b64_chr (a / 4)) (String (b64_chr (a mod 4 * 16 + b / 16)) (String (b64_chr (b mod 16 * 4)) "="))
  | String a (String b (String c s)) =>
      let a := byte_of a in let b := byte_of b in let c := byte_of c in
      String (b64_chr (a / 4)) (String (b64_chr (a mod 4 * 16 + b / 16))
        (String (b64_chr (b mod 16 * 4 + c / 64)) (String (b64_chr (c mod 64)) (b64_encode s))))
  end.

Lemma b64_val_chr v : 0 ≤ v < 64 → b64_val (b64_chr v) = Some v.
Proof.
  intros Hv. unfold b64_val, b64_chr.
  destruct (v <? 26) eqn:E1; [|destruct (v <? 52) eqn:E2; [|destruct (v <? 62) eqn:E3; [|destruct (v =? 62) eqn:E4]]];
    bool_prop; rewrite byte_of_chr by lia; repeat case_bool; try (f_equal; lia).
Qed.

Lemma chr_byte_of a z : z = byte_of a → chr z = a.
Proof.
  intros ->. unfold chr, byte_of. pose proof (N_ascii_bounded a) as Hb. rewrite Z.mod_small by lia. rewrite N2Z.id. apply ascii_N_embedding.
Qed.

Lemma chr_mod z z' : z mod 256 = z' mod 256 → chr z = chr z'.
Proof. unfold chr. by intros ->. Qed.

Lemma byte_of_bound a : 0 ≤ byte_of a < 256.
Proof. unfold byte_of. pose proof (N_ascii_bounded a). lia. Qed.

(** The three bytes of a group. *)
Lemma b64_byte0 a b : 0 ≤ b < 256 → chr (byte_of a / 4 * 4 + (byte_of a mod 4 * 16 + b / 16) / 16) = a.
Proof.
  intros Hb. apply chr_byte_of. pose proof (byte_of_bound a).
  assert ((byte_of a mod 4 * 16 + b / 16) / 16 = byte_of a mod 4) as ->; [|pose proof (Z.div_mod (byte_of a) 4); lia].
  rewrite Z.add_comm, Z.div_add by lia. rewrite (Z.div_small (b / 16)); [lia|]. split; [apply Z.div_pos; lia|apply Z.div_lt_upper_bound; lia].
Qed.

Lemma b64_byte1 a b c :
  0 ≤ c < 256 → chr ((byte_of a mod 4 * 16 + byte_of b / 16) * 16 + (byte_of b mod 16 * 4 + c / 64) / 4) = b.
Proof.
  intros Hc. pose proof (byte_of_bound b) as Hb.
  assert ((byte_of b mod 16 * 4 + c / 64) / 4 = byte_of b mod 16) as ->.
  { rewrite Z.add_comm, Z.div_add by lia. rewrite (Z.div_small (c / 64)); [lia|].
    split; [apply Z.div_pos; lia|apply Z.div_lt_upper_bound; lia]. }
  rewrite (chr_mod _ (byte_of b)); [by apply chr_byte_of|].
  replace ((byte_of a mod 4 * 16 + byte_of b / 16) * 16 + byte_of b mod 16)
    with (byte_of b + byte_of a mod 4 * 256) by (pose proof (Z.div_mod (byte_of b) 16); lia).
  apply Z.mod_add. lia.
Qed.

Lemma b64_byte2 b c : chr ((byte_of b mod 16 * 4 + byte_of c / 64) * 64 + byte_of c mod 64) = c.
Proof.
  rewrite (chr_mod _ (byte_of c)); [by apply chr_byte_of|].
  replace ((byte_of b mod 16 * 4 + byte_of c / 64) * 64 + byte_of c mod 64)
    with (byte_of c + byte_of b mod 16 * 256) by (pose proof (Z.div_mod (byte_of c) 64); lia).
  apply Z.mod_add. lia.
Qed.

Lemma b64_digit_bounds a b : 
  0 ≤ a < 256 → 0 ≤ b < 256 →
  0 ≤ a / 4 < 64 ∧ 0 ≤ a mod 4 * 16 + b / 16 < 64 ∧ 0 ≤ a mod 16 * 4 + b / 64 < 64 ∧ 0 ≤ a mod 64 < 64.
Proof. intros. Z.div_mod_to_equations. lia. Qed.

Lemma string_ind3 (P : string → Prop) :
  P "" → (∀ a, P (String a "")) → (∀ a b, P (String a (String b ""))) →
  (∀ a b c s, P s → P (String a (String b (String c s)))) → ∀ s, P s.
Proof.
  intros H0 H1 H2 H3. fix IH 1. intros [|a [|b [|c s]]]; [done|done|done|]. apply H3, IH.
Qed.

Lemma b64_roundtrip s : b64_decode (b64_encode s) = s.
Proof.
  unfold b64_decode. induction s as [|a|a b|a b c s IH] using string_ind3; [done|..];
    pose proof (byte_of_bound a) as Ha.
  - destruct (b64_digit_bounds (byte_of a) 0) as (H1 & H2 & _); [lia..|]. cbn in H2. rewrite Z.add_0_r in H2.
    cbn [b64_encode]. cbn [b64_decode_from]. rewrite !b64_val_chr by lia. cbn.
    f_equal. rewrite <-(b64_byte0 a 0) at 3 by lia. f_equal. cbn. by rewrite Z.add_0_r.
  - pose proof (byte_of_bound b) as Hb.
    destruct (b64_digit_bounds (byte_of a) (byte_of b)) as (H1 & H2 & _); [lia..|].
    destruct (b64_digit_bounds (byte_of b) 0) as (_ & _ & H3 & _); [lia..|]. cbn in H3. rewrite Z.add_0_r in H3.
    cbn [b64_encode]. cbn [b64_decode_from]. rewrite !b64_val_chr by lia. cbn.
    rewrite b64_byte0 by lia. pose proof (b64_byte1 a b 0 ltac:(lia)) as E. rewrite Z.add_0_r in E. by rewrite E.
  - pose proof (byte_of_bound b) as Hb. pose proof (byte_of_bound c) as Hc.
    destruct (b64_digit_bounds (byte_of a) (byte_of b)) as (H1 & H2 & _); [lia..|].
    destruct (b64_digit_bounds (byte_of b) (byte_of c)) as (_ & _ & H3 & _); [lia..|].
    destruct (b64_digit_bounds (byte_of c) 0) as (_ & _ & _ & H4); [lia..|].
    cbn [b64_encode]. cbn [b64_decode_from]. rewrite !b64_val_chr by lia.
    by rewrite b64_byte0, b64_byte1, b64_byte2, IH by lia.
Qed.

(** ** Timestamps *)

(** The date of a day counted from 1970-01-01. *)
Definition date_of_days (n : Z) : Z * Z * Z :=
  let z := n + 719468 in
  let era := z / 146097 in
  let doe := z mod 146097 in
  let yoe := (doe - doe / 1460 + doe / 36524 - doe / 146096) / 365 in
  let doy := doe - (365 * yoe + yoe / 4 - yoe / 100) in
  let mp := (5 * doy + 2) / 153 in
  let m := if mp <? 10 then mp + 3 else mp - 9 in
  (yoe + era * 400 + (if m <=? 2 then 1 else 0), m, doy - (153 * mp + 2) / 5 + 1).

Definition year_of_doe (doe : Z) : Z := (doe - doe / 1460 + doe / 36524 - doe / 146096) / 365.

(** In the 400 years of an era, a year that has a 366th day ends in a leap day. *)
Lemma long_years :
  forallb (λ y, implb (year_of_doe (365 * y + y / 4 - y / 100 + 365) =? y) (is_leap (y + 1)))
    (seqZ 0 400) = true.
Proof. vm_compute. reflexivity. Qed.

(** A day of an era has a year of the era and a day of that year. *)
Lemma year_of_era doe :
  0 ≤ doe < 146097 →
  let yoe := year_of_doe doe in
  let doy := doe - (365 * yoe + yoe / 4 - yoe / 100) in
  0 ≤ yoe < 400 ∧ 0 ≤ doy ≤ 365 ∧ (doy = 365 → is_leap (yoe + 1) = true).
Proof.
  intros Hd yoe doy.
  assert (0 ≤ yoe < 400) as Hy by (subst yoe; unfold year_of_doe; Z.div_mod_to_equations; lia).
  assert (0 ≤ doy ≤ 365) as Hdy by (subst doy yoe; unfold year_of_doe; Z.div_mod_to_equations; lia).
  split_and!; [lia..|]. intros E.
  pose proof (proj1 (List.forallb_forall _ _) long_years yoe) as H.
  assert (List.In yoe (seqZ 0 400)) as Hin by (apply list_elem_of_In, elem_of_seqZ; lia).
  specialize (H Hin). subst doy. assert (365 * yoe + yoe / 4 - yoe / 100 + 365 = doe) as E' by lia.
  cbv beta in H. rewrite E' in H. fold yoe in H. by rewrite Z.eqb_refl in H.
Qed.

Definition month_of_mp (mp : Z) : Z := if mp <? 10 then mp + 3 else mp - 9.

(** The days of a year that starts on March 1 are days of its months; the 366th is
    February 29. *)
Lemma days_of_months :
  forallb (λ doy, let mp := (5 * doy + 2) / 153 in let m := month_of_mp mp in
                  let d := doy - (153 * mp + 2) / 5 + 1 in
                  ((1 <=? m) && (m <=? 12) && (1 <=? d) &&
                  (if m =? 2 then (d <=? 28) || ((d <=? 29) && (doy =? 365)) else d <=? daysIn m 1) &&
                  ((if m <=? 2 then m + 9 else m - 3) =? mp)))
    (seqZ 0 366) = true.
Proof. vm_compute. reflexivity. Qed.

Lemma is_leap_era y era : is_leap (y + era * 400) = is_leap y.
Proof.
  unfold is_leap.
  assert (∀ k c, 400 = k * c → c ≠ 0 → (y + era * 400) mod c = y mod c) as H.
  { intros k c E Hc. rewrite E, Z.mul_assoc. by apply Z.mod_add. }
  by rewrite (H 100 4), (H 4 100), (H 1 400).
Qed.

Lemma daysIn_not_feb m y y' : m ≠ 2 → daysIn m y = daysIn m y'.
Proof. intros. unfold daysIn. by rewrite (proj2 (Z.eqb_neq m 2)). Qed.

(** A day has a date of the calendar, which is counted back to it. *)
Lemma date_of_days_correct n y m d :
  date_of_days n = (y, m, d) →
  1 ≤ m ≤ 12 ∧ 1 ≤ d ≤ daysIn m y ∧ days_of_date y m d = n.
Proof.
  unfold date_of_days. cbv zeta. change (if ?mp <? 10 then ?mp + 3 else ?mp - 9) with (month_of_mp mp).
  set (z := n + 719468). set (era := z / 146097). set (doe := z mod 146097).
  pose proof (Z.mod_pos_bound z 146097 ltac:(lia)) as Hd. fold doe in Hd.
  pose proof (Z.div_mod z 146097 ltac:(lia)) as Hz. fold era doe in Hz.
  fold (year_of_doe doe). destruct (year_of_era doe Hd) as (Hy & Hdy & Hl).
  set (yoe := year_of_doe doe) in *. set (doy := doe - (365 * yoe + yoe / 4 - yoe / 100)) in *.
  pose proof (proj1 (List.forallb_forall _ _) days_of_months doy) as H. cbv beta zeta in H.
  specialize (H ltac:(apply list_elem_of_In, elem_of_seqZ; lia)).
  set (mp := (5 * doy + 2) / 153) in *. set (mo := month_of_mp mp) in *.
  rewrite !andb_true_iff in H. destruct H as [[[[Hm1 Hm2] Hd1] Hfeb] Hmp]. bool_prop.
  assert (yoe + era * 400 + (if mo <=? 2 then 1 else 0) = (yoe + (if mo <=? 2 then 1 else 0)) + era * 400) as Ey by lia.
  intros [= <- <- <-]. split_and!; [lia..| |].
  - destruct (Z.eqb_spec mo 2) as [E2|E2].
    + rewrite Ey. unfold daysIn. rewrite E2. cbn. rewrite is_leap_era. 
      apply orb_true_iff in Hfeb as [Hf|Hf]; bool_prop; [destruct (is_leap _); lia|].
      rewrite Hl by lia. lia.
    + bool_prop. by rewrite (daysIn_not_feb _ _ 1).
  - unfold days_of_date. rewrite Hmp.
    assert ((if mo <=? 2 then yoe + era * 400 + (if mo <=? 2 then 1 else 0) - 1
             else yoe + era * 400 + (if mo <=? 2 then 1 else 0)) = yoe + era * 400) as -> by (case_bool; lia).
    rewrite Z.div_add, Z.mod_add, (Z.div_small yoe), (Z.mod_small yoe) by lia. subst doy z. lia.
Qed.

(** ** Timestamps *)

(** RFC 3339 in UTC with nine digits of a fraction, for years of four digits. *)
Definition format_ts (t : Z) : string :=
  let secs := t / Second in
  let '(y, m, d) := date_of_days (secs / 86400) in
  let s := secs mod 86400 in
  str_digits (fix_digits 4 y) ("-" +:+ str_digits (fix_digits 2 m) ("-" +:+ str_digits (fix_digits 2 d)
    ("T" +:+ str_digits (fix_digits 2 (s / 3600)) (":" +:+ str_digits (fix_digits 2 (s / 60 mod 60))
      (":" +:+ str_digits (fix_digits 2 (s mod 60)) ("." +:+ str_digits (fix_digits 9 (t mod Second)) "Z")))))).

Lemma fix_digits_2 n : fix_digits 2 n = [n / 10 mod 10; n mod 10].
Proof. done. Qed.

Lemma getnum_fix b n rest : 0 ≤ n < 100 → getnum (str_digits (fix_digits 2 n) rest) b = Some (n, rest).
Proof.
  intros Hn. pose proof (fix_digits_val 2 n ltac:(cbn; lia)) as Hv. pose proof (fix_digits_ok 2 n) as Hok.
  rewrite fix_digits_2 in *. apply Forall_cons in Hok as [H1 [H2 _]%Forall_cons].
  cbn [str_digits getnum]. rewrite !digit_chr by done. unfold digits_val in Hv. cbn [foldl] in Hv. do 2 f_equal. lia.
Qed.

Lemma getyear_fix y rest : 0 ≤ y < 10000 → getyear (str_digits (fix_digits 4 y) rest) = Some (y, rest).
Proof.
  intros Hn. pose proof (fix_digits_val 4 y ltac:(cbn; lia)) as Hv. pose proof (fix_digits_ok 4 y) as Hok.
  pose proof (fix_digits_length 4 y) as Hl. destruct (fix_digits 4 y) as [|a [|b [|c [|d [|? ?]]]]]; try done.
  apply Forall_cons in Hok as [Ha [Hb [Hc [Hd _]%Forall_cons]%Forall_cons]%Forall_cons].
  cbn [str_digits getyear]. by rewrite !digit_chr, Hv by done.
Qed.

Lemma expect_here (c : ascii) rest : expect c (String c rest) = Some rest.
Proof. unfold expect. by rewrite bool_decide_true. Qed.

Lemma getfraction_nine n rest : 0 ≤ n < Second → no_digit rest →
  getfraction ("." +:+ str_digits (fix_digits 9 n) rest) = (n, rest).
Proof.
  intros Hn Hr. pose proof (fix_digits_val 9 n ltac:(unfold Second in Hn; cbn; lia)) as Hv.
  pose proof (fix_digits_length 9 n) as Hl. cbn [String.append getfraction].
  rewrite bool_decide_true by done. cbn [orb]. rewrite span_digits_str by (apply fix_digits_ok || done).
  unfold nanos. destruct (fix_digits 9 n) as [|e ds] eqn:E; [done|].
  rewrite take_ge by (rewrite Hl; lia). rewrite Hl, Hv. f_equal. cbn. lia.
Qed.

Definition year_of (t : Z) : Z := (date_of_days (t / Second / 86400)).1.1.

(** Reading back a timestamp that was printed gives the timestamp. *)
Lemma time_Parse_format t : 0 ≤ year_of t < 10000 → time_Parse (format_ts t) = Some t.
Proof.
  unfold format_ts, year_of. destruct (date_of_days _) as [[y m] d] eqn:E. cbn [fst]. intros Hy.
  destruct (date_of_days_correct _ _ _ _ E) as (Hm & Hd & Hback).
  set (secs := t / Second) in *. set (s := secs mod 86400).
  pose proof (Z.mod_pos_bound secs 86400 ltac:(lia)) as Hs. fold s in Hs.
  pose proof (Z.div_mod secs 86400 ltac:(lia)) as Hsecs. fold s in Hsecs.
  pose proof (Z.mod_pos_bound t Second ltac:(done)) as Hn.
  pose proof (Z.div_mod t Second ltac:(done)) as Ht. fold secs in Ht.
  assert (daysIn m y ≤ 31) as H31 by (unfold daysIn; repeat case_bool; try lia; destruct (is_leap y); lia).
  assert (0 ≤ s / 3600 < 24 ∧ 0 ≤ s / 60 mod 60 < 60 ∧ 0 ≤ s mod 60 < 60 ∧
          s = s / 3600 * 3600 + s / 60 mod 60 * 60 + s mod 60) as (Hh & Hmi & Hse & Hsum)
    by (Z.div_mod_to_equations; lia).
  unfold time_Parse. cbv beta zeta.
  rewrite getyear_fix by lia. cbn [mbind option_bind String.append]. rewrite expect_here. cbn [mbind option_bind].
  rewrite getnum_fix by lia. cbn [mbind option_bind].
  rewrite (proj2 (Z.leb_gt m 0)), (proj2 (Z.ltb_ge 12 m)) by lia. cbn [orb]. rewrite expect_here. cbn [mbind option_bind].
  rewrite getnum_fix by lia. cbn [mbind option_bind]. rewrite expect_here. cbn [mbind option_bind].
  rewrite getnum_fix by lia. cbn [mbind option_bind]. rewrite (proj2 (Z.leb_gt 24 (s / 3600))), expect_here by lia.
  cbn [mbind option_bind]. rewrite getnum_fix by lia. cbn [mbind option_bind].
  rewrite (proj2 (Z.leb_gt 60 (s / 60 mod 60))), expect_here by lia. cbn [mbind option_bind].
  rewrite getnum_fix by lia. cbn [mbind option_bind]. rewrite (proj2 (Z.leb_gt 60 (s mod 60))) by lia.
  pose proof (getfraction_nine (t mod Second) "Z" Hn ltac:(done)) as Hf. cbn [String.append] in Hf. rewrite Hf.
  change (getzone "Z") with (Some (0, "")). cbn [mbind option_bind]. rewrite bool_decide_true by done.
  rewrite (proj2 (Z.ltb_ge d 1)), (proj2 (Z.ltb_ge (daysIn m y) d)) by lia. cbn [orb]. f_equal.
  rewrite Hback. clearbody secs s. unfold Second in *. lia.
Qed.

(** Revisions are nanoseconds of an [int64], whose years have four digits. *)
Lemma int64_year t : int64_range t → 0 ≤ year_of t < 10000.
Proof.
  intros Ht. unfold year_of. set (n := t / Second / 86400).
  assert (- 106752 ≤ n ≤ 106751) as Hn
    by (subst n; unfold int64_range, Second in *; Z.div_mod_to_equations; lia).
  clearbody n. unfold date_of_days. cbv zeta. cbn [fst]. fold (year_of_doe ((n + 719468) mod 146097)).
  destruct (year_of_era ((n + 719468) mod 146097)) as (Hy & _); [apply Z.mod_pos_bound; lia|].
  assert (4 ≤ (n + 719468) / 146097 ≤ 5) by (Z.div_mod_to_equations; lia).
  case_match; lia.
Qed.

#[global] Arguments format_ts : simpl never.
#[global] Arguments time_Parse : simpl never.
#[global] Arguments dec_int : simpl never.
#[global] Arguments Sscan_int64 : simpl never.
