(* ===== verification/Spanner.v ===== *)
(** * The Spanner database as the program sees it

    The tables of [pkg/schema/schema.go], the mutations and the SQL operators
    the program's statements are built from, and the client calls
    ([Single().Query], [ReadRow], [Apply], [ReadWriteTransaction]).

    Spanner itself is a parameter, the class [Spanner]: for the [n]-th call of a
    replica it says what other clients committed beforehand, how the call ends,
    which commit timestamp and which sequence values it gets, in which order
    rows come back where the statement does not fix it, and how often a
    read-write transaction is aborted and its callback run again. *)

From Stdlib Require Import Ascii String.
From S2P Require Import Prelude Go.

(** ** Tables *)

Record kv_row := mk_kv_row {
  r_id : Z;
  r_rev : Z;
  r_key : string;
  r_value : option string;
  r_old_value : option string;
  r_lease_id : option Z;
  r_deleted : bool;
  r_created : bool;
  r_create_revision : option Z;
  r_prev_revision : option Z;
}.

#[export] Instance kv_row_eq_dec : EqDecision kv_row.
Proof. solve_decision. Defined.

Record lease_row := mk_lease_row { l_ttl_sec : Z; l_granted_at : Z }.

Record cursor_row := mk_cursor_row { c_resume_timestamp : Z; c_updated_at : Z }.

Record database := mk_database {
  kv : list kv_row;
  kv_rev : gmap Z Z;
  kv_lease : gmap Z lease_row;
  kv_cs_cursors : gmap (string * string) cursor_row;
}.

Definition set_kv (rows : list kv_row) (db : database) : database :=
  mk_database rows (kv_rev db) (kv_lease db) (kv_cs_cursors db).
Definition set_kv_rev (m : gmap Z Z) (db : database) : database :=
  mk_database (kv db) m (kv_lease db) (kv_cs_cursors db).
Definition set_kv_lease (m : gmap Z lease_row) (db : database) : database :=
  mk_database (kv db) (kv_rev db) m (kv_cs_cursors db).
Definition set_kv_cs_cursors (m : gmap (string * string) cursor_row) (db : database) : database :=
  mk_database (kv db) (kv_rev db) (kv_lease db) m.

(** ** Mutations *)

(** A TIMESTAMP value of a mutation: [spanner.CommitTimestamp] is replaced by
    the timestamp of the commit. *)
Inductive tsval := CommitTimestamp | Timestamp (t : Z) | NullTime.

Definition resolve_ts (ts : Z) (v : tsval) : option Z :=
  match v with CommitTimestamp => Some ts | Timestamp t => Some t | NullTime => None end.

Inductive mutation :=
| InsertKV (key : string) (value old_value : option string) (lease_id : Z)
    (deleted created : bool) (create_revision prev_revision : tsval)
| DeleteKV (id : Z)
| InsertRev (id rev : Z)
| InsertOrUpdateRev (id rev : Z)
| InsertLease (lease_id ttl_sec : Z)
| DeleteLease (lease_id : Z)
| InsertOrUpdateCursor (replica_id partition_token : string) (resume_timestamp : Z).

Definition row_exists : error := SpannerError AlreadyExists "row already exists".

(** One mutation of a commit at [ts]; [id] is the sequence value a new [kv] row
    gets.  The [rev] column of [kv], [granted_at] and [updated_at] are always
    written as the commit timestamp by the program. *)
Definition apply_mutation (ts id : Z) (m : mutation) (db : database) : res database :=
  match m with
  | InsertKV k v ov l d c cr pr =>
      Ok (set_kv (kv db ++ [mk_kv_row id ts k v ov (Some l) d c
                              (resolve_ts ts cr) (resolve_ts ts pr)]) db)
  | DeleteKV i => Ok (set_kv (filter (λ r, r_id r ≠ i) (kv db)) db)
  | InsertRev i t =>
      match kv_rev db !! i with
      | Some _ => Err row_exists
      | None => Ok (set_kv_rev (<[i := t]> (kv_rev db)) db)
      end
  | InsertOrUpdateRev i t => Ok (set_kv_rev (<[i := t]> (kv_rev db)) db)
  | InsertLease i ttl =>
      match kv_lease db !! i with
      | Some _ => Err row_exists
      | None => Ok (set_kv_lease (<[i := mk_lease_row ttl ts]> (kv_lease db)) db)
      end
  | DeleteLease i => Ok (set_kv_lease (delete i (kv_lease db)) db)
  | InsertOrUpdateCursor r p t =>
      Ok (set_kv_cs_cursors (<[(r, p) := mk_cursor_row t ts]> (kv_cs_cursors db)) db)
  end.

(** All mutations of a commit, in order; [seq i] is the [i]-th sequence value. *)
Fixpoint apply_mutations (ts : Z) (seq : nat → Z) (ms : list mutation) (db : database) :
    res database :=
  match ms with
  | [] => Ok db
  | m :: ms =>
      match apply_mutation ts (seq 0%nat) m db with
      | Ok db' => apply_mutations ts (λ i, seq (S i)) ms db'
      | Err e => Err e
      end
  end.

(** ** SQL operators *)

Definition rev_desc (a b : kv_row) : Prop := r_rev b ≤ r_rev a.
Definition rev_asc (a b : kv_row) : Prop := r_rev a ≤ r_rev b.
Definition key_asc (a b : kv_row) : Prop := str_le (r_key a) (r_key b).

#[export] Instance rev_desc_dec a b : Decision (rev_desc a b).
Proof. unfold rev_desc. apply _. Defined.
#[export] Instance rev_asc_dec a b : Decision (rev_asc a b).
Proof. unfold rev_asc. apply _. Defined.
#[export] Instance key_asc_dec a b : Decision (key_asc a b).
Proof. unfold key_asc. apply _. Defined.

(** [ORDER BY]; rows that compare equal stay in an order the plan chooses. *)
Definition order_by (R : relation kv_row) `{∀ a b, Decision (R a b)} : list kv_row → list kv_row :=
  merge_sort R.

(** [LIMIT n], for [n > 0]. *)
Definition sql_limit {A} (n : Z) (l : list A) : list A := take (Z.to_nat n) l.

(** [SELECT key, MAX(rev) FROM rows GROUP BY key]. *)
Definition group_max (rows : list kv_row) : gmap string Z :=
  foldr (λ r m, <[r_key r := Z.max (r_rev r) (default (r_rev r) (m !! r_key r))]> m) ∅ rows.

(** [rows INNER JOIN latest ON rows.key = latest.key AND rows.rev = latest.max_rev],
    where [latest] has one row per key. *)
Definition join_latest (rows : list kv_row) (latest : gmap string Z) : list kv_row :=
  filter (λ r, latest !! r_key r = Some (r_rev r)) rows.

(** UTF-8 continuation bytes: 10xxxxxx. *)
Definition is_continuation (c : ascii) : bool :=
  (128 <=? Z.of_N (N_of_ascii c)) && (Z.of_N (N_of_ascii c) <? 192).

Fixpoint skip_continuation (s : string) : string :=
  match s with
  | String c s' => if is_continuation c then skip_continuation s' else s
  | EmptyString => EmptyString
  end.

(** Whether [s] starts at a character boundary. *)
Definition at_boundary (s : string) : bool :=
  match s with String c _ => negb (is_continuation c) | EmptyString => true end.

(** [s LIKE p] over UTF-8 strings: [%] matches any sequence of characters, [_]
    one character, a backslash quotes the character after it. *)
Fixpoint sql_like (p : string) : string → bool :=
  match p with
  | EmptyString => λ s, match s with EmptyString => true | _ => false end
  | String c p' =>
      if bool_decide (c = "%"%char) then
        fix any (s : string) : bool :=
          (at_boundary s && sql_like p' s) ||
          match s with EmptyString => false | String _ s' => any s' end
      else if bool_decide (c = "_"%char) then
        λ s, match s with
             | EmptyString => false
             | String _ s' => sql_like p' (skip_continuation s')
             end
      else if bool_decide (c = "\"%char) then
        match p' with
        | EmptyString => λ _, false
        | String q p'' => λ s, match s with
                               | String d s' => bool_decide (d = q) && sql_like p'' s'
                               | EmptyString => false
                               end
        end
      else λ s, match s with
                | String d s' => bool_decide (d = c) && sql_like p' s'
                | EmptyString => false
                end
  end.

(** ** The client *)

(** How a call ends: normally, or with an error of code [c], after [rows] rows of
    a streamed result were delivered, and with the writes of the call committed
    although the error was reported when [applied]. *)
Inductive fate := FOk | FErr (rows : nat) (applied : bool) (c : code) (msg : string).

Class Spanner := {
  (** commits of other clients between call [n-1] and call [n] of this replica *)
  sp_env : nat → database → database;
  (** for each aborted attempt of transaction [n], what others committed before it *)
  sp_aborted : nat → list (database → database);
  sp_fate : nat → fate;
  sp_ts : nat → Z;
  sp_seq : nat → nat → Z;
  sp_plan : nat → list kv_row → list kv_row;
  sp_lease_plan : nat → list (Z * lease_row) → list (Z * lease_row);
}.

(** State of one replica's [Store]: the shared database, the number of client
    calls made so far, the watcher's [notifyCh] buffer, and the compaction
    goroutines that were spawned and not run yet, with their target. *)
Record world := mk_world {
  w_db : database;
  w_rpc : nat;
  w_notify : list Z;
  w_compactions : list Z;
}.

Definition set_db (db : database) (w : world) : world :=
  mk_world db (S (w_rpc w)) (w_notify w) (w_compactions w).

(** State monad. *)
Definition ST (S A : Type) : Type := S → A * S.

#[export] Instance st_ret {S} : MRet (ST S) := λ A a s, (a, s).
#[export] Instance st_bind {S} : MBind (ST S) := λ A B f m s, let (a, s') := m s in f a s'.

(** [v, err := m; if err != nil { h }; k]. *)
Notation "'try' x := m 'catch' e => h ; k" :=
  (mbind (λ r, match r with Ok x => k | Err e => h end) m)
  (at level 10, x name, m at level 100, e name, h at level 100, k at level 200,
   format "'[v' 'try'  x  :=  m  'catch'  e  =>  h ; '/' k ']'").

Section client.
Context `{SP : Spanner}.

(** The database a call of the replica in state [w] runs against. *)
Definition seen (w : world) : database := sp_env (w_rpc w) (w_db w).

(** [client.Single().Query(...)] read to its end, or [Single().ReadRow]. *)
Definition single {A} (q : (list kv_row → list kv_row) → database → res A) : ST world (res A) :=
  λ w, (match sp_fate (w_rpc w) with
        | FOk => q (sp_plan (w_rpc w)) (seen w)
        | FErr _ _ c m => Err (SpannerError c m)
        end, set_db (seen w) w).

(** A streamed query: the rows delivered, and the error that ended the stream. *)
Definition stream {A} (q : (list kv_row → list kv_row) → database → list A) :
    ST world (list A * option error) :=
  λ w, let rows := q (sp_plan (w_rpc w)) (seen w) in
       (match sp_fate (w_rpc w) with
        | FOk => (rows, None)
        | FErr k _ c m => (take k rows, Some (SpannerError c m))
        end, set_db (seen w) w).

(** The same over [kv_lease], whose rows come in an order of their own. *)
Definition stream_leases : ST world (list (Z * lease_row) * option error) :=
  λ w, let rows := sp_lease_plan (w_rpc w) (map_to_list (kv_lease (seen w))) in
       (match sp_fate (w_rpc w) with
        | FOk => (rows, None)
        | FErr k _ c m => (take k rows, Some (SpannerError c m))
        end, set_db (seen w) w).

(** Commit [ms] to [db] as call [n]. *)
Definition commit (n : nat) (ms : list mutation) (db : database) : res Z * database :=
  match sp_fate n with
  | FErr _ false c m => (Err (SpannerError c m), db)
  | FErr _ true c m =>
      (Err (SpannerError c m),
       match apply_mutations (sp_ts n) (sp_seq n) ms db with Ok db' => db' | Err _ => db end)
  | FOk =>
      match apply_mutations (sp_ts n) (sp_seq n) ms db with
      | Ok db' => (Ok (sp_ts n), db')
      | Err e => (Err e, db)
      end
  end.

(** [client.Apply(ctx, ms)]: the commit timestamp. *)
Definition client_apply (ms : list mutation) : ST world (res Z) :=
  λ w, let (r, db) := commit (w_rpc w) ms (seen w) in (r, set_db db w).

(** The callback of [client.ReadWriteTransaction]: it reads the database, updates
    the variables [C] it captures and returns the mutations it buffered, or an
    error, which rolls the transaction back. *)
Definition txn_body (C : Type) : Type :=
  (list kv_row → list kv_row) → database → C → res (list mutation) * C.

(** Run the callback for the aborted attempts: their buffered mutations are
    dropped, the captured variables keep what was assigned. *)
Fixpoint aborted_attempts {C} (n : nat) (fs : list (database → database)) (body : txn_body C)
    (db : database) (c : C) : database * (option error * C) :=
  match fs with
  | [] => (db, (None, c))
  | f :: fs =>
      let db' := f db in
      match body (sp_plan n) db' c with
      | (Err e, c') => (db', (Some e, c'))
      | (Ok _, c') => aborted_attempts n fs body db' c'
      end
  end.

(** [client.ReadWriteTransaction(ctx, body)]: the commit timestamp, and the final
    value of the captured variables.  A call that fails without committing may
    fail before the callback returns its own error. *)
Definition read_write_txn {C} (body : txn_body C) (c0 : C) : ST world (res Z * C) :=
  λ w,
    let n := w_rpc w in
    match aborted_attempts n (sp_aborted n) body (w_db w) c0 with
    | (db, (Some e, c)) => ((Err e, c), set_db db w)
    | (db, (None, c)) =>
        let db := sp_env n db in
        match body (sp_plan n) db c with
        | (Err e, c') =>
            ((Err match sp_fate n with FErr _ false c m => SpannerError c m | _ => e end, c'),
             set_db db w)
        | (Ok ms, c') => let (r, db') := commit n ms db in ((r, c'), set_db db' w)
        end
    end.

End client.

(** [spanner.ErrCode(err)]. *)
Definition ErrCode (e : error) : code :=
  match e with SpannerError c _ => c | StatusError c _ _ => c | _ => Unknown end.

(** [ReadRow("kv_rev", {id}, {"rev"})]. *)
Definition read_kv_rev (id : Z) (db : database) : res Z :=
  match kv_rev db !! id with
  | Some t => Ok t
  | None => Err (SpannerError NotFound "row not found")
  end.
