(* ===== verification/Rows.v ===== *)
(** * The [kv] log: latest rows, well-formedness, and what a commit may do

    Reference definitions for the program's queries ([latest], [live],
    [latest_at]), the invariant [db_wf] of the database, and the step relation
    [db_step]: the commits a replica of the program can perform.  [reach] is what
    any number of other replicas can do between two calls of this one. *)

From Stdlib Require Import Ascii String.
From S2P Require Import Prelude Go Spanner.

(** ** Reference definitions *)

(** A row of maximal revision. *)
Definition max_row (rows : list kv_row) : option kv_row :=
  foldr (λ r b, match b with
                | Some b' => if r_rev b' <? r_rev r then Some r else Some b'
                | None => Some r
                end) None rows.

Definition latest (rows : list kv_row) (k : string) : option kv_row :=
  max_row (filter (λ r, r_key r = k) rows).

Definition latest_at (rows : list kv_row) (k : string) (cap : Z) : option kv_row :=
  max_row (filter (λ r, r_key r = k ∧ r_rev r ≤ cap) rows).

Definition non_deleted (o : option kv_row) : option kv_row :=
  match o with Some r => if r_deleted r then None else Some r | None => None end.

(** The row of a key that currently exists. *)
Definition live (rows : list kv_row) (k : string) : option kv_row :=
  non_deleted (latest rows k).

Definition live_at (rows : list kv_row) (k : string) (cap : Z) : option kv_row :=
  non_deleted (latest_at rows k cap).

(** The largest revision of the log, 1 when it is empty. *)
Definition current_rev (rows : list kv_row) : Z :=
  match max_row rows with Some r => r_rev r | None => 1 end.

(** A newer row of the same key exists. *)
Definition superseded (rows : list kv_row) (r : kv_row) : Prop :=
  ∃ n, n ∈ rows ∧ r_key n = r_key r ∧ r_rev r < r_rev n.

Definition key_rev (r : kv_row) : string * Z := (r_key r, r_rev r).

(** ** What a write appends *)

Definition put_row (id ts : Z) (k : string) (v : option string) (lease : Z)
    (prev : option kv_row) : kv_row :=
  mk_kv_row id ts k v (match prev with Some p => r_value p | None => None end) (Some lease)
    false (match prev with Some _ => false | None => true end)
    (match prev with Some p => r_create_revision p | None => Some ts end)
    (match prev with Some p => Some (r_rev p) | None => None end).

Definition del_row (id ts : Z) (k : string) (prev : kv_row) : kv_row :=
  mk_kv_row id ts k None (r_value prev) (Some 0) true false
    (r_create_revision prev) (Some (r_rev prev)).

Inductive next_row (ts : Z) (rows : list kv_row) : kv_row → Prop :=
| next_put id k v lease : next_row ts rows (put_row id ts k v lease (live rows k))
| next_del id k p : live rows k = Some p → next_row ts rows (del_row id ts k p).

(** ** Commits *)

Inductive db_step (ts : Z) (db : database) : database → Prop :=
| step_write new :
    Forall (next_row ts (kv db)) new →
    NoDup (r_key <$> new) →
    NoDup (r_id <$> (kv db ++ new)) →
    1 < ts →
    (∀ r, r ∈ kv db → r_rev r < ts) →
    db_step ts db (set_kv (kv db ++ new) db)
| step_delete_rows (ids : list Z) :
    (∀ r, r ∈ kv db → r_id r ∈ ids → superseded (kv db) r) →
    db_step ts db (set_kv (filter (λ r, r_id r ∉ ids) (kv db)) db)
| step_compact_rev c :
    1 ≤ c < 2 ^ 63 →
    (∀ c0, kv_rev db !! 1 = Some c0 → c0 < c) →
    db_step ts db (set_kv_rev (<[1 := c]> (kv_rev db)) db)
| step_lease m : db_step ts db (set_kv_lease m db)
| step_cursor m : db_step ts db (set_kv_cs_cursors m db).

(** Any number of commits before [ts]. *)
Definition reach (ts : Z) : relation database :=
  rtc (λ db db', ∃ t, t < ts ∧ db_step t db db').

(** ** The invariant *)

Record row_wf (ts : Z) (r : kv_row) : Prop := mk_row_wf {
  rw_rev : 1 < r_rev r < ts;
  rw_lease : is_Some (r_lease_id r);
  rw_tombstone : r_deleted r = true → r_value r = None ∧ r_lease_id r = Some 0;
  rw_create : ∃ c, r_create_revision r = Some c ∧ 1 < c ≤ r_rev r;
  rw_created : r_created r = true →
    r_deleted r = false ∧ r_create_revision r = Some (r_rev r) ∧
    r_prev_revision r = None ∧ r_old_value r = None;
  rw_updated : r_created r = false →
    ∃ p c, r_prev_revision r = Some p ∧ r_create_revision r = Some c ∧ c ≤ p < r_rev r;
}.

(** [r'] is an older row of the key of [r], whose predecessor has revision [p]. *)
Definition chain_ok (r : kv_row) (p : Z) (r' : kv_row) : Prop :=
  r_rev r' ≤ p ∧
  (r_rev r' = p → r_deleted r' = false ∧ r_value r' = r_old_value r ∧
                  r_create_revision r' = r_create_revision r).

Record db_wf (ts : Z) (db : database) : Prop := mk_db_wf {
  wf_ids : NoDup (r_id <$> kv db);
  wf_keys : NoDup (key_rev <$> kv db);
  wf_rows : ∀ r, r ∈ kv db → row_wf ts r;
  wf_chain : ∀ r p r', r ∈ kv db → r_prev_revision r = Some p →
    r' ∈ kv db → r_key r' = r_key r → r_rev r' < r_rev r → chain_ok r p r';
  wf_compact : ∀ c, kv_rev db !! 1 = Some c → 1 ≤ c < 2 ^ 63;
}.

(** ** Lemmas: [max_row] *)

Lemma max_row_None rows : max_row rows = None ↔ rows = [].
Proof.
  destruct rows as [|r rows]; [done|]. split; [|done]. cbn.
  destruct (foldr _ _ _); [case_bool|]; done.
Qed.

Lemma max_row_Some rows r :
  max_row rows = Some r → r ∈ rows ∧ ∀ r', r' ∈ rows → r_rev r' ≤ r_rev r.
Proof.
  revert r. induction rows as [|x rows IH]; intros r; [done|]. cbn.
  change (foldr _ None rows) with (max_row rows).
  destruct (max_row rows) as [b|] eqn:E.
  - destruct (IH b eq_refl) as [Hb Hmax].
    destruct (r_rev b <? r_rev x) eqn:Hlt; bool_prop; intros [= <-];
      (split; [set_solver|]); intros r' [->|Hr']%elem_of_cons; try lia;
      specialize (Hmax r' Hr'); lia.
  - intros [= <-]. apply max_row_None in E as ->. split; [set_solver|].
    intros r' ->%list_elem_of_singleton. done.
Qed.

Lemma max_row_unique rows r :
  (∀ x y, x ∈ rows → y ∈ rows → r_rev x = r_rev y → x = y) →
  r ∈ rows → (∀ r', r' ∈ rows → r_rev r' ≤ r_rev r) → max_row rows = Some r.
Proof.
  intros Hinj Hr Hmax. destruct (max_row rows) as [b|] eqn:E.
  - destruct (max_row_Some _ _ E) as [Hb Hb']. f_equal. apply Hinj; auto.
    specialize (Hmax b Hb). specialize (Hb' r Hr). lia.
  - apply max_row_None in E as ->. by apply elem_of_nil in Hr.
Qed.

Lemma max_row_elem rows r : max_row rows = Some r → r ∈ rows.
Proof. intros H. by apply max_row_Some in H as [??]. Qed.

(** ** Lemmas: [latest], [live] *)

Lemma latest_Some rows k r :
  latest rows k = Some r →
  r ∈ rows ∧ r_key r = k ∧ ∀ r', r' ∈ rows → r_key r' = k → r_rev r' ≤ r_rev r.
Proof.
  intros H. apply max_row_Some in H as [Hr Hmax].
  apply list_elem_of_filter in Hr as [Hk Hr]. split_and!; [done..|].
  intros r' Hr' Hk'. apply Hmax, list_elem_of_filter. done.
Qed.

Lemma latest_None rows k : latest rows k = None ↔ ∀ r, r ∈ rows → r_key r ≠ k.
Proof.
  unfold latest. rewrite max_row_None. split.
  - intros H r Hr Hk. assert (r ∈ filter (λ r, r_key r = k) rows) as Hin
      by by apply list_elem_of_filter. rewrite H in Hin. by apply elem_of_nil in Hin.
  - intros H. destruct (filter _ rows) as [|x l] eqn:E; [done|exfalso].
    assert (x ∈ filter (λ r, r_key r = k) rows) as Hin by (rewrite E; constructor).
    apply list_elem_of_filter in Hin as [Hk Hx]. by apply (H x Hx).
Qed.

Lemma latest_at_Some rows k cap r :
  latest_at rows k cap = Some r →
  r ∈ rows ∧ r_key r = k ∧ r_rev r ≤ cap ∧
  ∀ r', r' ∈ rows → r_key r' = k → r_rev r' ≤ cap → r_rev r' ≤ r_rev r.
Proof.
  intros H. apply max_row_Some in H as [Hr Hmax].
  apply list_elem_of_filter in Hr as [[Hk Hc] Hr]. split_and!; [done..|].
  intros r' Hr' Hk' Hc'. apply Hmax, list_elem_of_filter. done.
Qed.

(** When nothing is newer than [cap], a read at [cap] is a read of the present. *)
Lemma latest_at_all rows k cap :
  (∀ r, r ∈ rows → r_rev r ≤ cap) → latest_at rows k cap = latest rows k.
Proof.
  intros H. unfold latest_at, latest. f_equal. apply filter_ext_on.
  intros r Hr. specialize (H r Hr). naive_solver.
Qed.

Lemma live_Some rows k r :
  live rows k = Some r ↔ latest rows k = Some r ∧ r_deleted r = false.
Proof.
  unfold live, non_deleted. destruct (latest rows k) as [x|]; [|naive_solver].
  destruct (r_deleted x) eqn:E; (split; [naive_solver|]); intros [[= <-] ?]; congruence.
Qed.

Lemma key_rev_inj rows x y :
  NoDup (key_rev <$> rows) → x ∈ rows → y ∈ rows →
  r_key x = r_key y → r_rev x = r_rev y → x = y.
Proof.
  intros Hnd Hx Hy Hk Hr. eapply (NoDup_fmap_inj_on key_rev); eauto.
  unfold key_rev. congruence.
Qed.

Lemma latest_intro rows k r :
  NoDup (key_rev <$> rows) → r ∈ rows → r_key r = k →
  (∀ r', r' ∈ rows → r_key r' = k → r_rev r' ≤ r_rev r) → latest rows k = Some r.
Proof.
  intros Hnd Hr Hk Hmax. apply max_row_unique.
  - intros x y [? Hx]%list_elem_of_filter [? Hy]%list_elem_of_filter Hxy.
    eapply key_rev_inj; eauto. congruence.
  - by apply list_elem_of_filter.
  - intros r' [? Hr']%list_elem_of_filter. auto.
Qed.

Lemma latest_at_intro rows k cap r :
  NoDup (key_rev <$> rows) → r ∈ rows → r_key r = k → r_rev r ≤ cap →
  (∀ r', r' ∈ rows → r_key r' = k → r_rev r' ≤ cap → r_rev r' ≤ r_rev r) →
  latest_at rows k cap = Some r.
Proof.
  intros Hnd Hr Hk Hc Hmax. apply max_row_unique.
  - intros x y [[??] Hx]%list_elem_of_filter [[??] Hy]%list_elem_of_filter Hxy.
    eapply key_rev_inj; eauto. congruence.
  - by apply list_elem_of_filter.
  - intros r' [[??] Hr']%list_elem_of_filter. auto.
Qed.

#[export] Hint Resolve latest_intro max_row_elem : setcd.
