(* ===== verification/Invariant.v ===== *)
(** * The database invariant and interference

    Every commit of the program ([db_step]) preserves [db_wf]; what is
    superseded stays superseded; deleting superseded rows changes no current
    value.  The class [SpannerLaws] states what the program relies on of Spanner
    and of the other replicas, and [read_write_txn_inv] turns a callback's
    behaviour on one snapshot into the behaviour of the whole transaction,
    retries and concurrent commits included. *)

From Stdlib Require Import Ascii String.
From S2P Require Import Prelude Go Spanner Rows.

(** ** Rows a write appends *)

Lemma live_elem rows k p :
  live rows k = Some p →
  p ∈ rows ∧ r_key p = k ∧ r_deleted p = false ∧
  ∀ r, r ∈ rows → r_key r = k → r_rev r ≤ r_rev p.
Proof. intros [Hl Hd]%live_Some. apply latest_Some in Hl. naive_solver. Qed.

Lemma next_put_None ts rows id k v lease :
  live rows k = None → next_row ts rows (put_row id ts k v lease None).
Proof. intros <-. apply next_put. Qed.

Lemma next_row_rev ts rows r : next_row ts rows r → r_rev r = ts.
Proof. by destruct 1. Qed.

(** The predecessor a new row points to is the live row of its key. *)
Lemma next_row_prev ts rows r p :
  next_row ts rows r → r_prev_revision r = Some p →
  ∃ q, live rows (r_key r) = Some q ∧ r_rev q = p ∧ r_old_value r = r_value q ∧
       r_create_revision r = r_create_revision q.
Proof.
  destruct 1 as [id k v lease|id k q Hq]; cbn.
  - destruct (live rows k) as [q|]; [|done]. intros [= <-]. by exists q.
  - intros [= <-]. by exists q.
Qed.

Lemma next_row_wf ts T rows r :
  1 < ts < T → (∀ q, q ∈ rows → row_wf T q) → (∀ q, q ∈ rows → r_rev q < ts) →
  next_row ts rows r → row_wf T r.
Proof.
  intros Hts Hwf Hlt Hn. destruct Hn as [id k v lease|id k q Hq].
  - destruct (live rows k) as [q|] eqn:Hq.
    + apply live_elem in Hq as (Hin & Hk & Hd & _).
      destruct (Hwf q Hin) as [Hr Hl Ht [c [Hc Hc']] _ _].
      specialize (Hlt q Hin). split; cbn; try done.
      * exists c. split; [done|lia].
      * intros _. exists (r_rev q), c. split_and!; [done..|lia|lia].
    + split; cbn; try done. exists ts. split; [done|lia].
  - apply live_elem in Hq as (Hin & Hk & Hd & _).
    destruct (Hwf q Hin) as [Hr Hl Ht [c [Hc Hc']] _ _].
    specialize (Hlt q Hin). split; cbn; try done.
    + exists c. split; [done|lia].
    + intros _. exists (r_rev q), c. split_and!; [done..|lia|lia].
Qed.

Lemma NoDup_key_rev new : NoDup (r_key <$> new) → NoDup (key_rev <$> new).
Proof.
  intros H. apply (NoDup_fmap_1 fst). rewrite <-list_fmap_compose. exact H.
Qed.

(** Only rows of the present table count for the chain of an old row. *)
Lemma wf_chain_write ts T db new r p r' :
  db_wf T db → Forall (next_row ts (kv db)) new → (∀ q, q ∈ kv db → r_rev q < ts) →
  r ∈ kv db ++ new → r_prev_revision r = Some p →
  r' ∈ kv db ++ new → r_key r' = r_key r → r_rev r' < r_rev r → chain_ok r p r'.
Proof.
  intros Hwf Hnew Hlt Hr Hp Hr' Hk Hrev. rewrite Forall_forall in Hnew.
  assert (r' ∈ kv db) as Hr0.
  { apply elem_of_app in Hr' as [|Hr']; [done|exfalso].
    apply Hnew, next_row_rev in Hr'. apply elem_of_app in Hr as [Hr|Hr].
    - specialize (Hlt r Hr). lia.
    - apply Hnew, next_row_rev in Hr. lia. }
  apply elem_of_app in Hr as [Hr|Hr].
  - by eapply wf_chain.
  - destruct (next_row_prev _ _ _ _ (Hnew r Hr) Hp) as (q & Hq & <- & Hv & Hc).
    apply live_elem in Hq as (Hin & Hqk & Hd & Hmax). split; [apply Hmax; congruence|].
    intros Heq. assert (r' = q) as ->.
    { eapply key_rev_inj; [apply Hwf|done..|congruence|done]. }
    split_and!; congruence.
Qed.

(** ** Every commit preserves the invariant *)

Lemma db_wf_subset T db rows :
  db_wf T db → NoDup (r_id <$> rows) → NoDup (key_rev <$> rows) →
  (∀ r, r ∈ rows → r ∈ kv db) → db_wf T (set_kv rows db).
Proof.
  intros [Hi Hk Hr Hc Hcp] Hi' Hk' Hsub. split; cbn; eauto.
Qed.

Lemma db_wf_delete T db (ids : list Z) :
  db_wf T db → db_wf T (set_kv (filter (λ r, r_id r ∉ ids) (kv db)) db).
Proof.
  intros Hwf. apply db_wf_subset; [done|..].
  - apply NoDup_fmap_filter, Hwf.
  - apply NoDup_fmap_filter, Hwf.
  - by intros r [_ ?]%list_elem_of_filter.
Qed.

Lemma db_wf_write ts T db new :
  db_wf T db → ts < T → Forall (next_row ts (kv db)) new → NoDup (r_key <$> new) →
  NoDup (r_id <$> (kv db ++ new)) → 1 < ts → (∀ r, r ∈ kv db → r_rev r < ts) →
  db_wf T (set_kv (kv db ++ new) db).
Proof.
  intros Hwf HT Hnew Hk Hid Hts Hlt. split; cbn; [done|..|apply Hwf].
  - rewrite fmap_app. apply NoDup_app. split_and!; [apply Hwf| |by apply NoDup_key_rev].
    intros [k t] (r & [= -> ->] & Hr)%list_elem_of_fmap (r' & [= _ E] & Hr')%list_elem_of_fmap.
    specialize (Hlt r Hr). rewrite Forall_forall in Hnew.
    apply Hnew, next_row_rev in Hr'. lia.
  - intros r [Hr|Hr]%elem_of_app; [by apply Hwf|]. rewrite Forall_forall in Hnew.
    eapply next_row_wf; [|apply Hwf|apply Hlt|by apply Hnew]. lia.
  - intros. by eapply wf_chain_write.
Qed.

Lemma db_step_wf ts T db db' : db_wf T db → ts < T → db_step ts db db' → db_wf T db'.
Proof.
  intros Hwf Hts. destruct 1 as [new|ids|c|m|m].
  - by apply (db_wf_write ts).
  - by apply db_wf_delete.
  - destruct Hwf as [Hi Hk Hr Hc Hcp]. split; cbn; auto.
    intros c0. rewrite lookup_insert_eq. by intros [= <-].
  - by destruct Hwf; split.
  - by destruct Hwf; split.
Qed.

Lemma reach_wf T db db' : db_wf T db → reach T db db' → db_wf T db'.
Proof.
  intros Hwf Hreach. induction Hreach as [|a b c (t & Ht & Hs) _ IH]; [done|].
  apply IH. by eapply db_step_wf.
Qed.

Lemma row_wf_mono T T' r : row_wf T r → T ≤ T' → row_wf T' r.
Proof. intros [] ?. split; try done. lia. Qed.

Lemma db_wf_mono T T' db : db_wf T db → T ≤ T' → db_wf T' db.
Proof. intros [Hi Hk Hr Hc Hcp] HT. split; eauto using row_wf_mono. Qed.

Lemma db_wf_empty T m c : db_wf T (mk_database [] ∅ m c).
Proof.
  split; cbn; try by constructor; try by apply NoDup_nil.
  - intros r Hr. by apply elem_of_nil in Hr.
  - intros r p r' Hr. by apply elem_of_nil in Hr.
Qed.

Lemma reach_refl T db : reach T db db.
Proof. apply rtc_refl. Qed.

Lemma reach_trans T db1 db2 db3 : reach T db1 db2 → reach T db2 db3 → reach T db1 db3.
Proof. unfold reach. intros. by etrans. Qed.

Lemma reach_mono T T' db db' : T ≤ T' → reach T db db' → reach T' db db'.
Proof.
  intros HT H. eapply rtc_subrel; [|exact H]. intros a b (t & ? & ?). exists t. split; [lia|done].
Qed.

Lemma reach_step t T db db' : t < T → db_step t db db' → reach T db db'.
Proof. intros. apply rtc_once. eauto. Qed.

#[export] Hint Resolve reach_refl reach_step : setcd.

(** ** Superseded rows and the current state *)

(** Some newest row of a key survives any deletion of superseded rows. *)
Lemma delete_keeps_newest rows (ids : list Z) k r :
  (∀ x, x ∈ rows → r_id x ∈ ids → superseded rows x) → latest rows k = Some r →
  r ∈ filter (λ x, r_id x ∉ ids) rows.
Proof.
  intros Hdel Hl. apply latest_Some in Hl as (Hr & Hk & Hmax).
  apply list_elem_of_filter. split; [|done]. intros Hid.
  destruct (Hdel r Hr Hid) as (n & Hn & Hnk & Hlt).
  specialize (Hmax n Hn). lia || (rewrite Hnk in Hmax; specialize (Hmax Hk); lia).
Qed.

Lemma latest_is_Some rows r : r ∈ rows → ∃ m, latest rows (r_key r) = Some m.
Proof.
  intros Hr. destruct (latest rows (r_key r)) as [m|] eqn:E; [by exists m|].
  rewrite latest_None in E. by destruct (E r Hr).
Qed.

Lemma latest_delete rows (ids : list Z) k :
  NoDup (key_rev <$> rows) → (∀ x, x ∈ rows → r_id x ∈ ids → superseded rows x) →
  latest (filter (λ x, r_id x ∉ ids) rows) k = latest rows k.
Proof.
  intros Hnd Hdel. destruct (latest rows k) as [r|] eqn:E.
  - pose proof (delete_keeps_newest _ _ _ _ Hdel E) as Hin.
    apply latest_Some in E as (Hr & Hk & Hmax). apply latest_intro; auto.
    + by apply NoDup_fmap_filter.
    + intros r' [_ Hr']%list_elem_of_filter. auto.
  - rewrite latest_None in E |- *. intros r [_ Hr]%list_elem_of_filter. auto.
Qed.

Lemma current_rev_delete rows (ids : list Z) :
  (∀ x, x ∈ rows → r_id x ∈ ids → superseded rows x) →
  current_rev (filter (λ x, r_id x ∉ ids) rows) = current_rev rows.
Proof.
  intros Hdel. unfold current_rev. destruct (max_row rows) as [r|] eqn:E.
  - destruct (max_row_Some _ _ E) as [Hr Hmax].
    assert (r ∈ filter (λ x, r_id x ∉ ids) rows) as Hin.
    { apply list_elem_of_filter. split; [|done]. intros Hid.
      destruct (Hdel r Hr Hid) as (n & Hn & _ & Hlt). specialize (Hmax n Hn). lia. }
    destruct (max_row (filter _ rows)) as [r'|] eqn:E'.
    + apply max_row_Some in E' as [[_ Hr']%list_elem_of_filter Hmax'].
      specialize (Hmax r' Hr'). specialize (Hmax' r Hin). lia.
    + apply max_row_None in E'. rewrite E' in Hin. by apply elem_of_nil in Hin.
  - apply max_row_None in E as ->. done.
Qed.

Lemma superseded_step ts db db' r :
  db_step ts db db' → superseded (kv db) r → superseded (kv db') r.
Proof.
  intros Hs (n & Hn & Hk & Hlt). destruct Hs as [new|ids Hdel|c|m|m]; cbn;
    try by exists n.
  - exists n. split; [|done]. apply elem_of_app. by left.
  - destruct (latest_is_Some _ _ Hn) as [x Hx]. exists x.
    split; [by eapply delete_keeps_newest|]. apply latest_Some in Hx as (Hin & Hxk & Hmax).
    specialize (Hmax n Hn eq_refl). split; [congruence|lia].
Qed.

Lemma superseded_reach T db db' r :
  reach T db db' → superseded (kv db) r → superseded (kv db') r.
Proof.
  induction 1 as [|a b c (t & _ & Hs) _ IH]; [done|]. intros. by eapply IH, superseded_step.
Qed.

(** A commit appends: the latest row of a written key is the new one. *)
Lemma latest_write_new rows new r :
  NoDup (key_rev <$> (rows ++ new)) → (∀ x, x ∈ rows ++ new → r_rev x ≤ r_rev r) →
  r ∈ new → latest (rows ++ new) (r_key r) = Some r.
Proof.
  intros Hnd Hmax Hr. apply latest_intro; auto. apply elem_of_app. by right.
Qed.

Lemma latest_write_other rows new k :
  k ∉ r_key <$> new → latest (rows ++ new) k = latest rows k.
Proof.
  intros Hk. unfold latest. rewrite filter_app. f_equal.
  assert (filter (λ r, r_key r = k) new = []) as ->; [|by rewrite app_nil_r].
  apply filter_none. intros x Hx <-. apply Hk, list_elem_of_fmap_2, Hx.
Qed.

(** ** What is assumed of Spanner and of the other replicas *)

(** Row order is a permutation; commit timestamps of one replica strictly grow;
    sequence values are never given out twice; the commits of other clients, all
    running this program, are steps of [db_step] earlier than this call's. *)
Class SpannerLaws (SP : Spanner) : Prop := {
  law_plan n rows : sp_plan n rows ≡ₚ rows;
  law_lease_plan n rows : sp_lease_plan n rows ≡ₚ rows;
  law_ts_pos n : 1 < sp_ts n;
  law_ts_mono n : sp_ts n < sp_ts (S n);
  law_seq n i m j : sp_seq n i = sp_seq m j → n = m ∧ i = j;
  law_env n db : db_wf (sp_ts n) db → reach (sp_ts n) db (sp_env n db);
  law_env_ids n db r :
    r ∈ kv (sp_env n db) → r ∈ kv db ∨ ∀ m i, r_id r ≠ sp_seq m i;
  law_env_same n db r r' :
    db_wf (sp_ts n) db → r ∈ kv db → r' ∈ kv (sp_env n db) → r_id r' = r_id r → r' = r;
  law_aborted n f db :
    f ∈ sp_aborted n → db_wf (sp_ts n) db → reach (sp_ts n) db (f db);
  law_aborted_ids n f db r :
    f ∈ sp_aborted n → r ∈ kv (f db) → r ∈ kv db ∨ ∀ m i, r_id r ≠ sp_seq m i;
}.

Section world.
Context `{SP : Spanner} `{!SpannerLaws SP}.

(** No row carries a sequence value this replica gets from call [n] on. *)
Definition ids_fresh (n : nat) (db : database) : Prop :=
  ∀ r m i, r ∈ kv db → (n ≤ m)%nat → r_id r ≠ sp_seq m i.

Record world_wf (w : world) : Prop := mk_world_wf {
  ww_db : db_wf (sp_ts (w_rpc w)) (w_db w);
  ww_ids : ids_fresh (w_rpc w) (w_db w);
}.

(** [db'] is a state of the database that call [n] may run against: reached by
    commits of others, so [db] itself when there are none. *)
Record snapshot (n : nat) (db db' : database) : Prop := mk_snapshot {
  snap_wf : db_wf (sp_ts n) db';
  snap_ids : ids_fresh n db';
  snap_reach : reach (sp_ts n) db db';
  snap_alone : (∀ d, sp_env n d = d) → sp_aborted n = [] → db' = db;
}.

(** The timestamps of the next [k] calls fit an [int64] (they do until 2262). *)
Definition clock_ok (k : nat) (w : world) : Prop := sp_ts (w_rpc w + k) < 2 ^ 63.

Lemma sp_ts_mono n m : (n ≤ m)%nat → sp_ts n ≤ sp_ts m.
Proof using All.
  induction 1 as [|m _ IH]; [done|]. pose proof (law_ts_mono m). lia.
Qed.

Lemma clock_ok_now k w : clock_ok k w → sp_ts (w_rpc w) < 2 ^ 63.
Proof using All.
  unfold clock_ok. pose proof (sp_ts_mono (w_rpc w) (w_rpc w + k)%nat ltac:(lia)). lia.
Qed.

Lemma snapshot_refl w : world_wf w → snapshot (w_rpc w) (w_db w) (w_db w).
Proof. intros []. split; auto with setcd. Qed.

Lemma ids_fresh_grow n db db' :
  ids_fresh n db → (∀ r, r ∈ kv db' → r ∈ kv db ∨ ∀ m i, r_id r ≠ sp_seq m i) →
  ids_fresh n db'.
Proof. intros Hf H r m i Hr Hm. destruct (H r Hr); eauto. Qed.

Lemma snapshot_env n db db' :
  snapshot n db db' → snapshot n db (sp_env n db').
Proof using All.
  intros [Hwf Hid Hr Ha]. pose proof (law_env n db' Hwf). split.
  - by eapply reach_wf.
  - eapply ids_fresh_grow; [done|]. intros r. apply (law_env_ids n).
  - by eapply reach_trans.
  - intros He Hab. rewrite He. auto.
Qed.

Lemma snapshot_aborted n db db' f :
  f ∈ sp_aborted n → snapshot n db db' → snapshot n db (f db').
Proof using All.
  intros Hf [Hwf Hid Hr Ha]. pose proof (law_aborted n f db' Hf Hwf). split.
  - by eapply reach_wf.
  - eapply ids_fresh_grow; [done|]. intros r. by apply (law_aborted_ids n).
  - by eapply reach_trans.
  - intros _ Hab. rewrite Hab in Hf. by apply elem_of_nil in Hf.
Qed.

Lemma seen_snapshot w : world_wf w → snapshot (w_rpc w) (w_db w) (seen w).
Proof using All. intros. by apply snapshot_env, snapshot_refl. Qed.

Lemma world_wf_set_db w db :
  snapshot (w_rpc w) (w_db w) db → world_wf (set_db db w).
Proof using All.
  intros [Hwf Hid _ _]. split; cbn.
  - eapply db_wf_mono; [done|]. pose proof (law_ts_mono (w_rpc w)). lia.
  - intros r m i Hr Hm. apply Hid; auto. lia.
Qed.

(** A commit of this replica on top of a snapshot. *)
Lemma world_wf_commit w db db' :
  snapshot (w_rpc w) (w_db w) db → db_step (sp_ts (w_rpc w)) db db' →
  (∀ r, r ∈ kv db' → r ∈ kv db ∨ ∃ i, r_id r = sp_seq (w_rpc w) i) →
  world_wf (set_db db' w) ∧ reach (sp_ts (S (w_rpc w))) (w_db w) db'.
Proof using All.
  intros [Hwf Hid Hre _] Hs Hnew. pose proof (law_ts_mono (w_rpc w)) as Hm.
  split; [split; cbn|].
  - eapply db_step_wf; [|exact Hm|exact Hs]. eapply db_wf_mono; [done|lia].
  - intros r m i Hr Hle. destruct (Hnew r Hr) as [Hr'|[j Hj]].
    + apply Hid; auto. lia.
    + rewrite Hj. intros [? ?]%law_seq. lia.
  - eapply reach_trans; [|by eapply reach_step]. eapply reach_mono; [|done]. lia.
Qed.

(** ** Transactions *)

(** The callback assigns every captured variable it leaves behind, on well-formed
    databases: a second run of it does not depend on a first one. *)
Definition retry_safe {C} (n : nat) (body : txn_body C) : Prop :=
  ∀ db c c', db_wf (sp_ts n) db → body (sp_plan n) db c = body (sp_plan n) db c'.

Lemma aborted_attempts_inv {C} n fs (body : txn_body C) db0 db c c0 :
  (∀ f, f ∈ fs → f ∈ sp_aborted n) → retry_safe n body → snapshot n db0 db →
  ∃ db', snapshot n db0 db' ∧
    match aborted_attempts n fs body db c with
    | (d, (Some e, c')) => d = db' ∧ body (sp_plan n) db' c0 = (Err e, c')
    | (d, (None, c')) => d = db'
    end.
Proof using All.
  intros Hfs Hsafe. revert db c. induction fs as [|f fs IH]; intros db c Hsnap; cbn.
  - by exists db.
  - pose proof (snapshot_aborted _ _ _ f (Hfs f ltac:(by left)) Hsnap) as Hsnap'.
    destruct (body (sp_plan n) (f db) c) as [[ms|e] c'] eqn:E.
    + apply IH; [|done]. intros. apply Hfs. by right.
    + exists (f db). split_and!; [done..|]. rewrite <-E. apply Hsafe, Hsnap'.
Qed.

(** A transaction behaves as its callback run once, on one snapshot of the
    database, whatever was aborted and whatever others committed meanwhile. *)
Lemma read_write_txn_inv {C} (body : txn_body C) c0 w :
  world_wf w → retry_safe (w_rpc w) body →
  ∃ db, snapshot (w_rpc w) (w_db w) db ∧
    match body (sp_plan (w_rpc w)) db c0 with
    | (Err e, c') => ∃ e',
        read_write_txn body c0 w = ((Err e', c'), set_db db w) ∧
        (e' = e ∨ ∃ k c m, sp_fate (w_rpc w) = FErr k false c m ∧ e' = SpannerError c m)
    | (Ok ms, c') =>
        read_write_txn body c0 w =
          ((commit (w_rpc w) ms db).1, c', set_db (commit (w_rpc w) ms db).2 w)
    end.
Proof using All.
  intros Hw Hsafe. unfold read_write_txn.
  destruct (aborted_attempts_inv _ (sp_aborted (w_rpc w)) body (w_db w) (w_db w) c0 c0
              ltac:(done) Hsafe (snapshot_refl _ Hw)) as (db & Hsnap & H).
  destruct (aborted_attempts _ _ _ _ _) as [d [[e|] c']].
  - destruct H as [-> Hb]. exists db. split; [done|]. rewrite Hb. exists e. auto.
  - subst d. exists (sp_env (w_rpc w) db).
    pose proof (snapshot_env _ _ _ Hsnap) as Hsnap'. split; [done|].
    rewrite (Hsafe _ c' c0 (snap_wf _ _ _ Hsnap')).
    destruct (body _ _ c0) as [[ms|e] c''].
    + by destruct (commit _ _ _).
    + eexists. split; [done|]. destruct (sp_fate _) as [|k [] c m] eqn:Ef; eauto 10.
Qed.

(** How a commit ends. *)
Lemma commit_cases n ms db db' :
  apply_mutations (sp_ts n) (sp_seq n) ms db = Ok db' →
  (sp_fate n = FOk ∧ commit n ms db = (Ok (sp_ts n), db')) ∨
  (∃ k c m, sp_fate n = FErr k false c m ∧ commit n ms db = (Err (SpannerError c m), db)) ∨
  (∃ k c m, sp_fate n = FErr k true c m ∧ commit n ms db = (Err (SpannerError c m), db')).
Proof.
  intros H. unfold commit. rewrite H. destruct (sp_fate n) as [|k [] c m]; eauto 10.
Qed.

Lemma commit_db_or n ms db db' :
  apply_mutations (sp_ts n) (sp_seq n) ms db = Ok db' →
  (commit n ms db).2 = db' ∨ (commit n ms db).2 = db.
Proof.
  intros H. destruct (commit_cases _ _ _ _ H) as [[_ ->]|[(k&c&m&_&->)|(k&c&m&_&->)]]; auto.
Qed.

(** A commit of call [n] that the rely of the other replicas allows. *)
Definition commit_ok (n : nat) (db db' : database) : Prop :=
  db' = db ∨
  (db_step (sp_ts n) db db' ∧
   ∀ r, r ∈ kv db' → r ∈ kv db ∨ ∃ i, r_id r = sp_seq n i).

(** What a replica guarantees: the state it leaves is well-formed, and it got
    there by steps of [db_step] before the timestamp of its next call. *)
Definition guarantee (w w' : world) : Prop :=
  world_wf w' ∧ reach (sp_ts (w_rpc w')) (w_db w) (w_db w') ∧ (w_rpc w ≤ w_rpc w')%nat.

Lemma guarantee_refl w : world_wf w → guarantee w w.
Proof. intros. unfold guarantee. split_and!; auto with setcd. Qed.

Lemma guarantee_trans w1 w2 w3 : guarantee w1 w2 → guarantee w2 w3 → guarantee w1 w3.
Proof using All.
  intros (H1 & R1 & L1) (H2 & R2 & L2). unfold guarantee. split_and!; [done| |lia].
  eapply reach_trans; [|done]. eapply reach_mono; [|done]. by apply sp_ts_mono.
Qed.

Lemma guarantee_read w db : snapshot (w_rpc w) (w_db w) db → guarantee w (set_db db w).
Proof using All.
  intros H. unfold guarantee. split_and!; [by apply world_wf_set_db| |cbn; lia]. cbn.
  eapply reach_mono; [|apply H]. pose proof (law_ts_mono (w_rpc w)). lia.
Qed.

Lemma guarantee_commit w db db' :
  snapshot (w_rpc w) (w_db w) db → commit_ok (w_rpc w) db db' → guarantee w (set_db db' w).
Proof using All.
  intros Hs [->|[Hst Hid]]; [by apply guarantee_read|].
  destruct (world_wf_commit w db db' Hs Hst Hid). unfold guarantee. split_and!; [done|done|cbn; lia].
Qed.

(** A transaction whose callback commits only what is allowed. *)
Lemma read_write_txn_guarantee {C} (body : txn_body C) c0 w :
  world_wf w → retry_safe (w_rpc w) body →
  (∀ db ms c', snapshot (w_rpc w) (w_db w) db → body (sp_plan (w_rpc w)) db c0 = (Ok ms, c') →
    ∃ db', apply_mutations (sp_ts (w_rpc w)) (sp_seq (w_rpc w)) ms db = Ok db' ∧
           commit_ok (w_rpc w) db db') →
  guarantee w (read_write_txn body c0 w).2.
Proof using All.
  intros Hw Hsafe Hbody. destruct (read_write_txn_inv body c0 w Hw Hsafe) as (db & Hs & H).
  destruct (body _ db c0) as [[ms|e] c'] eqn:E.
  - rewrite H. cbn. destruct (Hbody db ms c' Hs E) as (db' & Ha & Hok).
    apply guarantee_commit with db; [done|].
    destruct (commit_db_or _ _ _ _ Ha) as [->| ->]; [done|by left].
  - destruct H as (e' & -> & _). by apply guarantee_read.
Qed.

(** [Apply] of mutations that are refused, or commit only what is allowed. *)
Lemma client_apply_guarantee_or ms w :
  world_wf w →
  (∀ db, snapshot (w_rpc w) (w_db w) db →
    match apply_mutations (sp_ts (w_rpc w)) (sp_seq (w_rpc w)) ms db with
    | Ok db' => commit_ok (w_rpc w) db db'
    | Err _ => True
    end) →
  guarantee w (client_apply ms w).2.
Proof using All.
  intros Hw H. specialize (H (seen w) (seen_snapshot w Hw)). unfold client_apply.
  apply seen_snapshot in Hw as Hs.
  assert (commit_ok (w_rpc w) (seen w) (commit (w_rpc w) ms (seen w)).2) as Hok.
  { unfold commit. destruct (apply_mutations _ _ ms (seen w)); destruct (sp_fate _) as [|? [] ? ?]; cbn; auto; by left. }
  destruct (commit _ _ _) as [r d]. by apply guarantee_commit with (seen w).
Qed.

Lemma client_apply_guarantee ms w :
  world_wf w →
  (∀ db, snapshot (w_rpc w) (w_db w) db →
    ∃ db', apply_mutations (sp_ts (w_rpc w)) (sp_seq (w_rpc w)) ms db = Ok db' ∧
           commit_ok (w_rpc w) db db') →
  guarantee w (client_apply ms w).2.
Proof using All.
  intros Hw H. apply client_apply_guarantee_or; [done|]. intros db Hs.
  by destruct (H db Hs) as (db' & -> & ?).
Qed.

(** Appending rows of this call. *)
Lemma commit_ok_writes n db0 db rows :
  snapshot n db0 db → Forall (next_row (sp_ts n) (kv db)) rows → NoDup (r_key <$> rows) →
  NoDup (r_id <$> rows) → (∀ r, r ∈ rows → ∃ i, r_id r = sp_seq n i) →
  commit_ok n db (set_kv (kv db ++ rows) db).
Proof using All.
  intros [Hwf Hid _ _] Hn Hk Hnd Hi. right. split.
  - apply step_write; [done..| |apply law_ts_pos|].
    + rewrite fmap_app. apply NoDup_app. split_and!; [apply Hwf| |done].
      intros i (x & -> & Hx)%list_elem_of_fmap (y & E & Hy)%list_elem_of_fmap.
      destruct (Hi y Hy) as [j Hj]. rewrite Hj in E. by apply (Hid x n j Hx (le_n n)).
    + intros x Hx. destruct (wf_rows _ _ Hwf x Hx). lia.
  - intros x [Hx|Hx]%elem_of_app; auto.
Qed.

Lemma snapshot_live_writes n db0 db rows :
  snapshot n db0 db → Forall (next_row (sp_ts n) (kv db)) rows → NoDup (r_key <$> rows) →
  (∀ r, r ∈ rows → live (kv db ++ rows) (r_key r) = non_deleted (Some r)) ∧
  ∀ k, k ∉ r_key <$> rows → live (kv db ++ rows) k = live (kv db) k.
Proof using All.
  intros [Hwf _ _ _] Hn Hk. split.
  - intros r Hr. unfold live. rewrite Forall_forall in Hn. rewrite latest_write_new; [done| |..|done].
    + rewrite fmap_app. apply NoDup_app. split_and!; [apply Hwf| |by apply NoDup_key_rev].
      intros i (x & -> & Hx)%list_elem_of_fmap (y & [= _ E] & Hy)%list_elem_of_fmap.
      apply (wf_rows _ _ Hwf) in Hx as [? _ _ _ _ _]. apply Hn, next_row_rev in Hy. lia.
    + rewrite (next_row_rev _ _ _ (Hn r Hr)). intros x [Hx|Hx]%elem_of_app.
      * apply (wf_rows _ _ Hwf) in Hx as [? _ _ _ _ _]. lia.
      * by rewrite (next_row_rev _ _ _ (Hn x Hx)).
  - intros k Hnk. unfold live. by rewrite latest_write_other.
Qed.

(** Appending one row. *)
Lemma commit_ok_write n db0 db r :
  snapshot n db0 db → next_row (sp_ts n) (kv db) r → r_id r = sp_seq n 0 →
  commit_ok n db (set_kv (kv db ++ [r]) db).
Proof using All.
  intros Hs Hn Hi. eapply commit_ok_writes; [done|by apply Forall_singleton|
    apply NoDup_singleton|apply NoDup_singleton|].
  intros x ->%list_elem_of_singleton. by exists 0%nat.
Qed.

Lemma snapshot_live_write n db0 db r :
  snapshot n db0 db → next_row (sp_ts n) (kv db) r →
  live (kv db ++ [r]) (r_key r) = non_deleted (Some r) ∧
  ∀ k, k ≠ r_key r → live (kv db ++ [r]) k = live (kv db) k.
Proof using All.
  intros Hs Hn. destruct (snapshot_live_writes n db0 db [r]) as [H1 H2];
    [done|by apply Forall_singleton|apply NoDup_singleton|].
  split; [apply H1, list_elem_of_singleton; done|]. intros k Hk. apply H2. cbn. set_solver.
Qed.

End world.

(** The row an insertion appends. *)
Definition row_of (ts id : Z) (m : mutation) : option kv_row :=
  match m with
  | InsertKV k v ov l d c cr pr =>
      Some (mk_kv_row id ts k v ov (Some l) d c (resolve_ts ts cr) (resolve_ts ts pr))
  | _ => None
  end.

Lemma apply_insert1 ts (seq : nat → Z) m r db :
  row_of ts (seq 0%nat) m = Some r →
  apply_mutations ts seq [m] db = Ok (set_kv (kv db ++ [r]) db).
Proof. destruct m; naive_solver. Qed.

(** The rows of a list of insertions. *)
Fixpoint rows_of (ts : Z) (seq : nat → Z) (ms : list mutation) : list kv_row :=
  match ms with
  | [] => []
  | m :: ms => option_list (row_of ts (seq 0%nat) m) ++ rows_of ts (λ i, seq (S i)) ms
  end.

Definition is_insert (m : mutation) : Prop :=
  match m with InsertKV _ _ _ _ _ _ _ _ => True | _ => False end.

Lemma set_kv_kv db : set_kv (kv db) db = db.
Proof. by destruct db. Qed.

Lemma apply_inserts ts seq ms db :
  Forall is_insert ms →
  apply_mutations ts seq ms db = Ok (set_kv (kv db ++ rows_of ts seq ms) db).
Proof.
  intros H. revert seq db. induction H as [|m ms Hm _ IH]; intros seq db; cbn.
  - by rewrite app_nil_r, set_kv_kv.
  - destruct m; try done. cbn. rewrite IH. cbn. by rewrite <-app_assoc.
Qed.

Lemma rows_of_elem ts seq ms r :
  r ∈ rows_of ts seq ms → ∃ i m, m ∈ ms ∧ row_of ts (seq i) m = Some r.
Proof.
  revert seq. induction ms as [|m ms IH]; intros seq; cbn; [by rewrite elem_of_nil|].
  rewrite elem_of_app. intros [Hr|(i & m' & Hm & Hr)%IH].
  - exists 0%nat, m. split; [by left|]. destruct (row_of _ _ m); cbn in Hr; [|by apply elem_of_nil in Hr].
    by apply list_elem_of_singleton in Hr as ->.
  - exists (S i), m'. split; [by right|done].
Qed.

Lemma rows_of_elem_2 ts seq ms m :
  m ∈ ms → is_insert m → ∃ i r, row_of ts (seq i) m = Some r ∧ r ∈ rows_of ts seq ms.
Proof.
  revert seq. induction ms as [|m' ms IH]; intros seq; cbn; [by rewrite elem_of_nil|].
  intros [->|Hm]%elem_of_cons Hi.
  - destruct m'; try done. exists 0%nat. eexists. split; [done|]. by left.
  - destruct (IH (λ i, seq (S i)) Hm Hi) as (i & r & Hr & Hin).
    exists (S i), r. split; [done|]. apply elem_of_app. by right.
Qed.

Lemma rows_of_id ts seq ms r : r ∈ rows_of ts seq ms → ∃ i, r_id r = seq i.
Proof.
  intros (i & m & _ & Hr)%rows_of_elem. exists i. destruct m; naive_solver.
Qed.

Lemma rows_of_NoDup_id ts seq ms :
  (∀ i j, seq i = seq j → i = j) → NoDup (r_id <$> rows_of ts seq ms).
Proof.
  revert seq. induction ms as [|m ms IH]; intros seq Hinj; cbn; [constructor|].
  rewrite fmap_app. apply NoDup_app. split_and!.
  - destruct (row_of _ _ _); cbn; [apply NoDup_singleton|constructor].
  - intros x Hx (r & -> & (j & Hj)%rows_of_id)%list_elem_of_fmap.
    destruct m; cbn in Hx; try by apply elem_of_nil in Hx.
    apply list_elem_of_singleton in Hx. rewrite Hj in Hx. by apply Hinj in Hx.
  - apply IH. intros i j E. by apply Hinj in E as [=].
Qed.

#[export] Hint Resolve snapshot_refl seen_snapshot world_wf_set_db : setcd.
