(* ===== verification/Sim.v ===== *)
(** * Concrete Spanner behaviours

    Instances of [Spanner] that satisfy [SpannerLaws], on which the operations
    can be evaluated: a replica alone with its database ([solo]), and one next to
    another client that puts a key just before a chosen call ([rival]). *)

From Stdlib Require Import Ascii String Cantor.
From S2P Require Import Prelude Go Spanner Rows Invariant.

(** Commit timestamps leave room for other clients between two calls. *)
Definition sim_ts (n : nat) : Z := 100 + 10 * Z.of_nat n.

Definition sim_seq (n i : nat) : Z := Z.of_nat (Cantor.to_nat (n, i)).

#[export] Instance sim (env : nat → database → database) (fates : nat → fate) : Spanner := {|
  sp_env := env;
  sp_aborted _ := [];
  sp_fate := fates;
  sp_ts := sim_ts;
  sp_seq := sim_seq;
  sp_plan _ rows := reverse rows;
  sp_lease_plan _ rows := reverse rows;
|}.

Definition solo : Spanner := sim (λ _ db, db) (λ _, FOk).

(** Another client puts [key] at time [t], with a sequence value [id] of its own,
    unless the log has moved past [t] already. *)
Definition put_by_other (id t : Z) (key : string) (v : option string) (lease : Z) (db : database) :
    database :=
  if bool_decide (Forall (λ r, r_rev r < t ∧ r_id r ≠ id) (kv db))
  then set_kv (kv db ++ [put_row id t key v lease (live (kv db) key)]) db
  else db.

Definition rival (k : nat) (key : string) (v : option string) : Spanner :=
  sim (λ n db, if Nat.eqb n k then put_by_other (-1) (sim_ts n - 5) key v 0 db else db) (λ _, FOk).

Definition empty_db : database := mk_database [] ∅ ∅ ∅.

Definition world_of (db : database) : world := mk_world db 0 [] [].

(** ** The laws hold *)

Lemma sim_seq_inj n i m j : sim_seq n i = sim_seq m j → n = m ∧ i = j.
Proof.
  unfold sim_seq. intros E%Nat2Z.inj%(f_equal Cantor.of_nat).
  rewrite !Cantor.cancel_of_to in E. by injection E.
Qed.

Lemma sim_seq_nonneg n i : 0 ≤ sim_seq n i.
Proof. unfold sim_seq. lia. Qed.

#[export] Instance solo_laws : SpannerLaws solo.
Proof.
  split; cbn; try done.
  - intros. apply reverse_Permutation.
  - intros. apply reverse_Permutation.
  - intros. unfold sim_ts. lia.
  - intros. unfold sim_ts. lia.
  - apply sim_seq_inj.
  - auto with setcd.
  - intros n db r r' Hwf Hr Hr' E. by eapply (NoDup_fmap_inj_on r_id), E; [apply Hwf|..].
  - by intros n f db ?%elem_of_nil.
  - by intros n f db r ?%elem_of_nil.
Qed.

Lemma put_by_other_step id t key v lease db :
  1 < t → NoDup (r_id <$> kv db) →
  put_by_other id t key v lease db = db ∨
  db_step t db (put_by_other id t key v lease db).
Proof.
  intros Ht Hnd. unfold put_by_other. case_bool; [right|by left].
  rename Heqb into H. rewrite Forall_forall in H. apply step_write; [..|done|].
  - apply Forall_singleton, next_put.
  - apply NoDup_singleton.
  - rewrite fmap_app. apply NoDup_app. split_and!; [done| |apply NoDup_singleton].
    intros i (r & -> & Hr)%list_elem_of_fmap E%list_elem_of_singleton. by apply (H r Hr).
  - intros r Hr. by apply H.
Qed.

#[export] Instance rival_laws k key v : SpannerLaws (rival k key v).
Proof.
  split; cbn; try done.
  - intros. apply reverse_Permutation.
  - intros. apply reverse_Permutation.
  - intros. unfold sim_ts. lia.
  - intros. unfold sim_ts. lia.
  - apply sim_seq_inj.
  - intros n db Hwf. case_bool; [|auto with setcd].
    destruct (put_by_other_step (-1) (sim_ts n - 5) key v 0 db) as [->|Hs];
      [unfold sim_ts; lia|apply Hwf|auto with setcd|].
    eapply reach_step; [|exact Hs]. unfold sim_ts. lia.
  - intros n db r. case_bool; [|auto]. unfold put_by_other. case_bool; [|auto].
    intros [Hr|Hr]%elem_of_app; [auto|]. apply list_elem_of_singleton in Hr as ->. right.
    intros m i. pose proof (sim_seq_nonneg m i). cbn. lia.
  - intros n db r r' Hwf Hr Hr' E. revert Hr'. case_bool;
      [unfold put_by_other; case_bool|]; [intros [Hr'|Hr']%elem_of_app|..]; try intros Hr';
      try by eapply (NoDup_fmap_inj_on r_id), E; [apply Hwf|..].
    apply list_elem_of_singleton in Hr' as ->. cbn in E.
    rename Heqb0 into H. rewrite Forall_forall in H. by destruct (H r Hr) as [_ []].
  - by intros n f db ?%elem_of_nil.
  - by intros n f db r ?%elem_of_nil.
Qed.

(** ** Well-formed states *)

Lemma empty_world_wf (env : nat → database → database) fates :
  world_wf (SP := sim env fates) (world_of empty_db).
Proof.
  split; [apply db_wf_empty|]. intros r m i Hr. by apply elem_of_nil in Hr.
Qed.

Lemma sim_clock env fates k w :
  Z.of_nat (w_rpc w + k) < 2 ^ 32 → clock_ok (SP := sim env fates) k w.
Proof. unfold clock_ok. cbn. unfold sim_ts. lia. Qed.
