(* ===== verification/StoreRead.v ===== *)
(** * pkg/store/store.go: data model and reads

    Revisions, [KV], [scanKV] and the read operations [CurrentRevision], [Get],
    [List], [Count], [After], [compactRevision], with the two reads that run
    inside read-write transactions.  A Go result [(v, err)] is a [res]; where the
    code returns a meaningful value next to an error (the current revision next
    to [ErrCompacted]) that value is kept outside the [res]. *)

From Stdlib Require Import Ascii String.
From S2P Require Import Prelude Go Spanner Rows Invariant Sim.

(** ** Data *)

Record KV := mk_KV {
  Key : string;
  Value : option string;
  OldValue : option string;
  LeaseID : Z;
  Deleted : bool;
  Created : bool;
  Rev : Z;
  CreateRevision : Z;
  PrevRevision : Z;
}.

Inductive EventType := EventPut | EventDelete.

Record Event := mk_Event { EvKV : KV; EvType : EventType }.

#[export] Instance KV_eq_dec : EqDecision KV.
Proof. solve_decision. Defined.
#[export] Instance EventType_eq_dec : EqDecision EventType.
Proof. solve_decision. Defined.
#[export] Instance Event_eq_dec : EqDecision Event.
Proof. solve_decision. Defined.

Definition CompactRevRow : Z := 1.

(** ** Helpers *)

Definition tsToRev (ts : Z) : Z :=
  let n := UnixNano ts in
  if n <=? 0 then 1 else n.

Definition revToTS (rev : Z) : Z :=
  if rev <=? 1 then 1 else rev.

Definition revCap (revision currentRev : Z) : Z :=
  if 0 <? revision then revision else currentRev.

Definition likePrefix (prefix : string) : string := prefix +:+ "%".

(** [limitClause] appends no LIMIT for [limit <= 0]. *)
Definition limitClause {A} (limit : Z) (rows : list A) : list A :=
  if limit <=? 0 then rows else sql_limit limit rows.

(** Decoding fails on a NULL [lease_id], the one nullable column whose
    destination has no NULL value. *)
Definition scanKV (row : kv_row) : res KV :=
  match r_lease_id row with
  | None => Err (Wrapf "scan kv row: %w" [] (SpannerError InvalidArgument "cannot decode NULL"))
  | Some lease =>
      Ok (mk_KV (r_key row) (r_value row) (r_old_value row) lease
            (r_deleted row) (r_created row) (tsToRev (r_rev row))
            (match r_create_revision row with Some t => tsToRev t | None => 0 end)
            (match r_prev_revision row with Some t => tsToRev t | None => 0 end))
  end.

(** The decoding loop over a result: stops at the first error. *)
Fixpoint scanAll (rows : list kv_row) : res (list KV) :=
  match rows with
  | [] => Ok []
  | row :: rows =>
      match scanKV row with
      | Err e => Err e
      | Ok kv => match scanAll rows with Ok kvs => Ok (kv :: kvs) | Err e => Err e end
      end
  end.

Definition toEvent (kv : KV) : Event :=
  mk_Event kv (if Deleted kv then EventDelete else EventPut).

(** ** SQL statements *)

(** [SELECT ... FROM kv ORDER BY rev DESC LIMIT 1]. *)
Definition q_current (plan : list kv_row → list kv_row) (db : database) : option kv_row :=
  head (sql_limit 1 (order_by rev_desc (plan (kv db)))).

(** [SELECT ... FROM kv WHERE key = @key AND rev <= @cap ORDER BY key, rev DESC LIMIT 1]. *)
Definition q_get (key : string) (cap : Z) (plan : list kv_row → list kv_row) (db : database) :
    option kv_row :=
  head (sql_limit 1 (order_by rev_desc (filter (λ r, r_key r = key ∧ r_rev r ≤ cap) (plan (kv db))))).

(** [SELECT ... FROM kv WHERE key = @key ORDER BY rev DESC LIMIT 1]. *)
Definition q_latest (key : string) (plan : list kv_row → list kv_row) (db : database) : option kv_row :=
  head (sql_limit 1 (order_by rev_desc (filter (λ r, r_key r = key) (plan (kv db))))).

(** The latest non-deleted row of every key matching the pattern, from
    [start_key] on, at or before [cap]. *)
Definition q_matching (prefix startKey : string) (cap : Z)
    (plan : list kv_row → list kv_row) (db : database) : list kv_row :=
  let latest := group_max
    (filter (λ r, sql_like (likePrefix prefix) (r_key r) = true ∧ str_le startKey (r_key r)
                  ∧ r_rev r ≤ cap) (plan (kv db))) in
  filter (λ r, r_deleted r = false) (join_latest (plan (kv db)) latest).

Definition q_list (prefix startKey : string) (cap limit : Z)
    (plan : list kv_row → list kv_row) (db : database) : list kv_row :=
  limitClause limit (order_by key_asc (q_matching prefix startKey cap plan db)).

Definition q_count (prefix startKey : string) (cap : Z)
    (plan : list kv_row → list kv_row) (db : database) : Z :=
  Z.of_nat (length (q_matching prefix startKey cap plan db)).

(** [SELECT ... FROM kv WHERE key LIKE @prefix AND rev > @after_rev ORDER BY rev ASC]. *)
Definition q_after (prefix : string) (afterTS limit : Z)
    (plan : list kv_row → list kv_row) (db : database) : list kv_row :=
  limitClause limit (order_by rev_asc
    (filter (λ r, sql_like (likePrefix prefix) (r_key r) = true ∧ afterTS < r_rev r) (plan (kv db)))).

(** ** Operations *)

Section reads.
Context `{SP : Spanner}.

Definition CurrentRevision : ST world (res Z) :=
  try row := single (λ plan db, Ok (q_current plan db))
    catch e => mret (Err (Wrapf "current revision: %w" [] e));
  mret (match row with
        | None => Ok 1
        | Some r => let rev := tsToRev (r_rev r) in Ok (if rev <=? 1 then 1 else rev)
        end).

Definition compactRevision : ST world (res Z) :=
  try ts := single (λ _ db, read_kv_rev CompactRevRow db)
    catch e => mret (if bool_decide (ErrCode e = NotFound) then Ok 1 else Err e);
  mret (Ok (tsToRev ts)).

(** The query of [Get] and the decoding of its row. *)
Definition get_at (key : string) (revision currentRev : Z) : ST world (Z * res (option KV)) :=
  let capTS := revToTS (revCap revision currentRev) in
  try row := single (λ plan db, Ok (q_get key capTS plan db))
    catch e => mret (0, Err (Wrapf "get %s: %w" [ArgS key] e));
  mret (match row with
        | None => (currentRev, Ok None)
        | Some row =>
            match scanKV row with
            | Err e => (0, Err e)
            | Ok kv => (currentRev, Ok (if Deleted kv then None else Some kv))
            end
        end).

Definition Get (key : string) (revision : Z) : ST world (Z * res (option KV)) :=
  try currentRev := CurrentRevision catch e => mret (0, Err e);
  if 0 <? revision then
    try compactRev := compactRevision
      catch e => mret (0, Err (Wrapf "get compact revision: %w" [] e));
    if (1 <? compactRev) && (revision <=? compactRev)
    then mret (currentRev, Err ErrCompacted)
    else get_at key revision currentRev
  else get_at key revision currentRev.

(** [(currentRev, compactRev, kvs, err)]. *)
Definition List (prefix startKey : string) (limit revision : Z) :
    ST world (Z * Z * res (list KV)) :=
  try currentRev := CurrentRevision catch e => mret (0, 0, Err e);
  let capTS := revToTS (revCap revision currentRev) in
  try compactRev := compactRevision catch e => mret (0, 0, Err e);
  if (1 <? compactRev) && (0 <? revision) && (revision <=? compactRev)
  then mret (currentRev, compactRev, Err ErrCompacted)
  else
    try rows := single (λ plan db, Ok (q_list prefix startKey capTS limit plan db))
      catch e => mret (0, 0, Err (Wrapf "list %s: %w" [ArgS prefix] e));
    mret (match scanAll rows with
          | Err e => (0, 0, Err e)
          | Ok kvs => (currentRev, compactRev, Ok kvs)
          end).

Definition count_at (prefix startKey : string) (revision currentRev : Z) : ST world (Z * res Z) :=
  let capTS := revToTS (revCap revision currentRev) in
  try count := single (λ plan db, Ok (q_count prefix startKey capTS plan db))
    catch e => mret (0, Err (Wrapf "count %s: %w" [ArgS prefix] e));
  mret (currentRev, Ok count).

Definition Count (prefix startKey : string) (revision : Z) : ST world (Z * res Z) :=
  try currentRev := CurrentRevision catch e => mret (0, Err e);
  if 0 <? revision then
    try compactRev := compactRevision
      catch e => mret (0, Err (Wrapf "get compact revision: %w" [] e));
    if (1 <? compactRev) && (revision <=? compactRev)
    then mret (currentRev, Err ErrCompacted)
    else count_at prefix startKey revision currentRev
  else count_at prefix startKey revision currentRev.

Definition after_at (prefix : string) (afterRev limit currentRev : Z) :
    ST world (Z * res (list Event)) :=
  let afterTS := revToTS afterRev in
  try rows := single (λ plan db, Ok (q_after prefix afterTS limit plan db))
    catch e => mret (0, Err (Wrapf "after %s: %w" [ArgS prefix] e));
  mret (match scanAll rows with
        | Err e => (0, Err e)
        | Ok kvs => (currentRev, Ok (toEvent <$> kvs))
        end).

Definition After (prefix : string) (afterRev limit : Z) : ST world (Z * res (list Event)) :=
  try currentRev := CurrentRevision catch e => mret (0, Err e);
  if 0 <? afterRev then
    try compactRev := compactRevision
      catch e => mret (0, Err (Wrapf "get compact revision: %w" [] e));
    if afterRev <? compactRev
    then mret (currentRev, Err ErrCompacted)
    else after_at prefix afterRev limit currentRev
  else after_at prefix afterRev limit currentRev.

End reads.

(** [keyExistsTxn] and [getLatestTxn], inside a transaction's callback. *)
Definition keyExistsTxn (plan : list kv_row → list kv_row) (db : database) (key : string) : bool :=
  match q_latest key plan db with
  | None => false
  | Some row => negb (r_deleted row)
  end.

Definition getLatestTxn (plan : list kv_row → list kv_row) (db : database) (key : string) :
    res (option KV) :=
  match q_latest key plan db with
  | None => Ok None
  | Some row =>
      match scanKV row with
      | Err e => Err e
      | Ok kv => Ok (if Deleted kv then None else Some kv)
      end
  end.

(** ** What a row decodes to *)

Definition KV_of (r : kv_row) : KV :=
  mk_KV (r_key r) (r_value r) (r_old_value r) (default 0 (r_lease_id r)) (r_deleted r)
    (r_created r) (r_rev r) (default 0 (r_create_revision r)) (default 0 (r_prev_revision r)).

(** ** Revisions *)

Lemma tsToRev_id t : 1 ≤ t < 2 ^ 63 → tsToRev t = t.
Proof.
  intros. unfold tsToRev, UnixNano. rewrite int64_id by (unfold int64_range; lia).
  case_bool; lia.
Qed.

Lemma revToTS_id r : 1 ≤ r → revToTS r = r.
Proof. intros. unfold revToTS. case_bool; lia. Qed.

Lemma tsToRev_range t : 1 ≤ tsToRev t < 2 ^ 63.
Proof.
  unfold tsToRev, UnixNano. pose proof (int64_in_range t) as [??].
  case_bool; lia.
Qed.

Lemma scanKV_wf T r : row_wf T r → T ≤ 2 ^ 63 → scanKV r = Ok (KV_of r).
Proof.
  intros [Hrev [l Hl] _ (c & Hc & Hc') Hcr Hup] HT. unfold scanKV, KV_of.
  rewrite Hl, Hc. cbn. rewrite !tsToRev_id by lia. do 2 f_equal.
  destruct (r_created r).
  - destruct Hcr as (_ & _ & -> & _); done.
  - destruct Hup as (p & c' & -> & Hc0 & ?); [done|]. cbn. apply tsToRev_id.
    assert (c' = c) as -> by congruence. lia.
Qed.

Lemma scanAll_wf T rows :
  (∀ r, r ∈ rows → row_wf T r) → T ≤ 2 ^ 63 → scanAll rows = Ok (KV_of <$> rows).
Proof.
  intros Hwf HT. induction rows as [|r rows IH]; [done|]. cbn.
  rewrite (scanKV_wf T) by (try apply Hwf; set_solver).
  rewrite IH by (intros; apply Hwf; by right). done.
Qed.

(** ** Queries *)

#[export] Instance rev_desc_trans : Transitive rev_desc.
Proof. unfold rev_desc. intros ???. lia. Qed.
#[export] Instance rev_desc_total : Total rev_desc.
Proof. unfold rev_desc. intros ??. lia. Qed.
#[export] Instance rev_asc_trans : Transitive rev_asc.
Proof. unfold rev_asc. intros ???. lia. Qed.
#[export] Instance rev_asc_total : Total rev_asc.
Proof. unfold rev_asc. intros ??. lia. Qed.
#[export] Instance key_asc_trans : Transitive key_asc.
Proof. unfold key_asc. intros ??? H1 H2. by etrans. Qed.
#[export] Instance key_asc_total : Total key_asc.
Proof. unfold key_asc. intros a b. apply (total str_le). Qed.

Lemma head_limit1 {A} (l : list A) : head (sql_limit 1 l) = head l.
Proof. by destruct l. Qed.

Lemma order_by_elem R `{∀ a b, Decision (R a b)} rows r : r ∈ order_by R rows ↔ r ∈ rows.
Proof. unfold order_by. by rewrite merge_sort_Permutation. Qed.

(** The first row in descending order of revision has the maximal one. *)
Lemma head_rev_desc rows r :
  head (order_by rev_desc rows) = Some r → r ∈ rows ∧ ∀ r', r' ∈ rows → r_rev r' ≤ r_rev r.
Proof.
  intros H. split; [by eapply order_by_elem, head_Some_elem|]. intros r' Hr'.
  pose proof (StronglySorted_merge_sort rev_desc rows) as Hs.
  destruct (StronglySorted_head _ _ _ Hs H r') as [->|?]; [|done..].
  by apply order_by_elem.
Qed.

Lemma head_rev_desc_None rows : head (order_by rev_desc rows) = None → rows = [].
Proof.
  intros H%head_None_nil. pose proof (merge_sort_Permutation rev_desc rows) as Hp.
  unfold order_by in H. rewrite H in Hp. by apply Permutation_nil_l in Hp.
Qed.

(** On rows with distinct revisions it is [max_row], in whatever order they come. *)
Lemma head_rev_desc_max rows rows' :
  rows' ≡ₚ rows → (∀ x y, x ∈ rows → y ∈ rows → r_rev x = r_rev y → x = y) →
  head (order_by rev_desc rows') = max_row rows.
Proof.
  intros Hp Hinj. destruct (head _) as [r|] eqn:E; symmetry.
  - apply head_rev_desc in E as [Hr Hmax]. apply max_row_unique; [done|by rewrite <-Hp|].
    intros r' Hr'. apply Hmax. by rewrite Hp.
  - apply head_rev_desc_None in E as ->. apply max_row_None. by apply Permutation_nil_l in Hp.
Qed.

Section queries.
Context (plan : list kv_row → list kv_row) (plan_perm : ∀ rows, plan rows ≡ₚ rows).
Context (T : Z) (db : database) (Hwf : db_wf T db).

Lemma q_latest_eq key : q_latest key plan db = latest (kv db) key.
Proof using All.
  unfold q_latest. rewrite head_limit1. apply head_rev_desc_max.
  - by apply filter_perm.
  - intros x y [? Hx]%list_elem_of_filter [? Hy]%list_elem_of_filter ?.
    eapply key_rev_inj; [apply Hwf|done..|congruence|done].
Qed.

Lemma q_get_eq key cap : q_get key cap plan db = latest_at (kv db) key cap.
Proof using All.
  unfold q_get. rewrite head_limit1. apply head_rev_desc_max.
  - by apply filter_perm.
  - intros x y [[??] Hx]%list_elem_of_filter [[??] Hy]%list_elem_of_filter ?.
    eapply key_rev_inj; [apply Hwf|done..|congruence|done].
Qed.

Lemma q_current_eq : r_rev <$> q_current plan db = r_rev <$> max_row (kv db).
Proof using All.
  unfold q_current. rewrite head_limit1. destruct (head _) as [r|] eqn:E.
  - apply head_rev_desc in E as [Hr Hmax]. rewrite plan_perm in Hr.
    destruct (max_row (kv db)) as [r'|] eqn:E'.
    + apply max_row_Some in E' as [Hr' Hmax']. specialize (Hmax' r Hr). cbn. f_equal.
      specialize (Hmax r'). rewrite plan_perm in Hmax. specialize (Hmax Hr'). lia.
    + apply max_row_None in E'. rewrite E' in Hr. by apply elem_of_nil in Hr.
  - apply head_rev_desc_None in E. pose proof (plan_perm (kv db)) as Hp.
    rewrite E in Hp. apply Permutation_nil_l in Hp. by rewrite <-Hp.
Qed.

Lemma wf_row_bound r : r ∈ kv db → 1 < r_rev r < T.
Proof using Hwf. intros Hr. by destruct (wf_rows _ _ Hwf r Hr). Qed.

Lemma getLatestTxn_eq key :
  T ≤ 2 ^ 63 → getLatestTxn plan db key = Ok (KV_of <$> live (kv db) key).
Proof using All.
  intros HT. unfold getLatestTxn. rewrite q_latest_eq. unfold live, non_deleted.
  destruct (latest (kv db) key) as [r|] eqn:E; [|done].
  apply latest_Some in E as (Hr & _ & _).
  rewrite (scanKV_wf T r (wf_rows _ _ Hwf r Hr) HT). cbn. by destruct (r_deleted r).
Qed.

Lemma keyExistsTxn_eq key : keyExistsTxn plan db key = bool_decide (is_Some (live (kv db) key)).
Proof using All.
  unfold keyExistsTxn. rewrite q_latest_eq. unfold live, non_deleted.
  destruct (latest (kv db) key) as [r|]; [|done]. by destruct (r_deleted r).
Qed.

Lemma current_rev_ge r : r ∈ kv db → r_rev r ≤ current_rev (kv db).
Proof using Hwf.
  intros Hr. unfold current_rev. destruct (max_row (kv db)) as [m|] eqn:E.
  - apply max_row_Some in E as [_ H]. auto.
  - apply max_row_None in E. rewrite E in Hr. by apply elem_of_nil in Hr.
Qed.

Lemma current_rev_lt : 1 < T → 1 ≤ current_rev (kv db) < T.
Proof using Hwf.
  intros HT. unfold current_rev. destruct (max_row (kv db)) as [m|] eqn:E; [|lia].
  apply max_row_elem, wf_row_bound in E. lia.
Qed.

End queries.

(** ** Listing *)

Lemma group_max_lookup rows k : group_max rows !! k = r_rev <$> latest rows k.
Proof.
  unfold latest. induction rows as [|r rows IH]; [done|]. cbn [group_max foldr].
  change (foldr _ ∅ rows) with (group_max rows). rewrite filter_cons, lookup_insert.
  destruct (decide (r_key r = k)) as [Hk|Hk].
  - rewrite Hk, IH. cbn [max_row foldr].
    change (foldr _ None ?l) with (max_row l).
    destruct (max_row _) as [b|]; cbn; [case_bool|]; cbn; f_equal; lia.
  - done.
Qed.

Section listing.
Context (plan : list kv_row → list kv_row) (plan_perm : ∀ rows, plan rows ≡ₚ rows).
Context (T : Z) (db : database) (Hwf : db_wf T db).
Context (prefix startKey : string) (cap : Z).

(** A listed key: it matches the pattern and is not before the start key. *)
Definition in_listing (k : string) : Prop :=
  sql_like (likePrefix prefix) k = true ∧ str_le startKey k.

(** The statement selects exactly the live rows, at [cap], of the listed keys. *)
Lemma q_matching_elem r :
  r ∈ q_matching prefix startKey cap plan db ↔
  live_at (kv db) (r_key r) cap = Some r ∧ in_listing (r_key r).
Proof using All.
  unfold q_matching, join_latest. rewrite !list_elem_of_filter, group_max_lookup.
  set (F := filter _ _). rewrite plan_perm. split.
  - intros (Hd & Hmax & Hr). apply fmap_Some in Hmax as (m & Hm & Hrev).
    apply latest_Some in Hm as (HmF & Hmk & Hmax).
    apply list_elem_of_filter in HmF as ((Hl & Hs & Hc) & HmF). rewrite plan_perm in HmF.
    assert (m = r) as -> by (eapply key_rev_inj; [apply Hwf|done..]).
    split; [|done]. unfold live_at, non_deleted.
    rewrite (latest_at_intro _ _ cap r (wf_keys _ _ Hwf)); [by rewrite Hd|done..|].
    intros r' Hr' Hk' Hc'. apply Hmax; [|done]. apply list_elem_of_filter.
    rewrite plan_perm, Hk'. auto.
  - intros (Hlive & Hl & Hs). unfold live_at, non_deleted in Hlive.
    destruct (latest_at _ _ _) as [m|] eqn:E; [|done].
    destruct (r_deleted m) eqn:Hd; [done|]. injection Hlive as ->.
    apply latest_at_Some in E as (Hr & _ & Hc & Hmax). split_and!; [done| |done].
    rewrite (latest_intro F (r_key r) r); [done|..|done|].
    + apply NoDup_fmap_filter. rewrite (plan_perm (kv db)). apply Hwf.
    + apply list_elem_of_filter. by rewrite plan_perm.
    + intros r' [(_ & _ & ?) Hr']%list_elem_of_filter ?. apply Hmax; [|done..].
      by rewrite plan_perm in Hr'.
Qed.

Lemma q_matching_keys : NoDup (r_key <$> q_matching prefix startKey cap plan db).
Proof using All.
  apply NoDup_fmap_2_strong.
  - intros x y Hx Hy Hk. apply q_matching_elem in Hx as [Hx _], Hy as [Hy _]. congruence.
  - unfold q_matching, join_latest. apply NoDup_filter, NoDup_filter.
    rewrite plan_perm. eapply NoDup_fmap_1, (wf_ids _ _ Hwf).
Qed.

(** Listed rows come in strictly increasing key order. *)
Lemma q_list_sorted limit :
  StronglySorted (λ a b, str_le (r_key a) (r_key b) ∧ r_key a ≠ r_key b)
    (q_list prefix startKey cap limit plan db).
Proof using All.
  assert (StronglySorted (λ a b, str_le (r_key a) (r_key b) ∧ r_key a ≠ r_key b)
            (order_by key_asc (q_matching prefix startKey cap plan db))) as Hs.
  { pose proof (StronglySorted_merge_sort key_asc (q_matching prefix startKey cap plan db)) as Hs.
    pose proof q_matching_keys as Hnd.
    rewrite <-(merge_sort_Permutation key_asc (q_matching _ _ _ _ _)) in Hnd.
    unfold order_by. revert Hs Hnd. generalize (merge_sort key_asc (q_matching prefix startKey cap plan db)).
    intros l. induction 1 as [|x l Hl IH Hall]; cbn; [constructor|].
    rewrite NoDup_cons. intros [Hx Hnd]. constructor; [auto|].
    rewrite Forall_forall in Hall |- *. intros y Hy. split; [by apply Hall|].
    intros E. apply Hx. rewrite E. by apply list_elem_of_fmap_2. }
  unfold q_list, limitClause. case_bool; [done|]. by apply StronglySorted_take.
Qed.

Lemma q_list_elem r :
  r ∈ q_list prefix startKey cap 0 plan db ↔
  live_at (kv db) (r_key r) cap = Some r ∧ in_listing (r_key r).
Proof using All.
  unfold q_list, limitClause. cbn. rewrite order_by_elem. apply q_matching_elem.
Qed.

Lemma q_list_limit limit :
  q_list prefix startKey cap limit plan db =
  limitClause limit (q_list prefix startKey cap 0 plan db).
Proof. done. Qed.

Lemma q_count_eq :
  q_count prefix startKey cap plan db = Z.of_nat (length (q_list prefix startKey cap 0 plan db)).
Proof.
  unfold q_count, q_list, limitClause, order_by. cbn. by rewrite merge_sort_Permutation.
Qed.

Lemma q_list_wf limit r : r ∈ q_list prefix startKey cap limit plan db → row_wf T r.
Proof using All.
  intros Hr. assert (r ∈ q_list prefix startKey cap 0 plan db) as Hr0.
  { rewrite q_list_limit in Hr. unfold limitClause in Hr. case_match; [done|].
    by eapply elem_of_take in Hr as (i & Hi%list_elem_of_lookup_2 & _). }
  apply q_list_elem in Hr0 as [Hl _]. unfold live_at, non_deleted in Hl.
  destruct (latest_at _ _ _) as [m|] eqn:E; [|done].
  apply latest_at_Some in E as (Hm & _). destruct (r_deleted m); [done|].
  injection Hl as ->. by apply (wf_rows _ _ Hwf).
Qed.

End listing.

(** ** Patterns *)

(** [likePrefix] quotes nothing: a prefix is matched literally only when it
    contains none of the three characters LIKE interprets. *)
Fixpoint wildcard_free (p : string) : bool :=
  match p with
  | EmptyString => true
  | String c p' =>
      negb (bool_decide (c = "%"%char) || bool_decide (c = "_"%char) || bool_decide (c = "\"%char))
      && wildcard_free p'
  end.

Lemma sql_like_any p s :
  sql_like (String "%" p) s =
  (at_boundary s && sql_like p s) ||
  match s with EmptyString => false | String _ s' => sql_like (String "%" p) s' end.
Proof. by destruct s. Qed.

Lemma sql_like_percent s : sql_like "%" s = true.
Proof.
  induction s as [|c s IH]; [done|]. rewrite sql_like_any, IH. apply orb_true_r.
Qed.

Lemma sql_like_prefix p s :
  wildcard_free p = true → sql_like (likePrefix p) s = HasPrefix s p.
Proof.
  unfold likePrefix, HasPrefix. revert s. induction p as [|c p IH]; intros s Hp.
  - change (sql_like "%" s = String.prefix "" s). rewrite sql_like_percent. by destruct s.
  - cbn in Hp. bool_prop. change (String c p +:+ "%") with (String c (p +:+ "%")).
    cbn [sql_like]. rewrite !bool_decide_false by done. destruct s as [|d s]; [done|].
    cbn [String.prefix]. destruct (ascii_dec c d) as [->|Hne].
    + rewrite bool_decide_true by done. cbn. auto.
    + by rewrite bool_decide_false by congruence.
Qed.

(** ** Running the reads *)

Section run.
Context `{SP : Spanner} `{!SpannerLaws SP}.

(** The replica's state after one more read. *)
Definition next (w : world) : world := set_db (seen w) w.

(** The next [k] client calls end without error. *)
Definition calls_ok (k : nat) (w : world) : Prop :=
  ∀ i, (i < k)%nat → sp_fate (w_rpc w + i) = FOk.

(** The compact revision a database records. *)
Definition compact_rev (db : database) : Z := default 1 (kv_rev db !! CompactRevRow).

Lemma calls_ok_now k w : calls_ok (S k) w → sp_fate (w_rpc w) = FOk.
Proof. intros H. specialize (H 0%nat ltac:(lia)). by rewrite Nat.add_0_r in H. Qed.

Lemma calls_ok_set_db k w db : calls_ok (S k) w → calls_ok k (set_db db w).
Proof. intros H i Hi. specialize (H (S i) ltac:(lia)). cbn. by rewrite <-Nat.add_succ_r. Qed.

Lemma clock_ok_set_db k w db : clock_ok (S k) w → clock_ok k (set_db db w).
Proof. unfold clock_ok. cbn. by rewrite <-Nat.add_succ_r. Qed.

Lemma next_wf w : world_wf w → world_wf (next w).
Proof using All. intros. by apply world_wf_set_db, seen_snapshot. Qed.

Lemma seen_wf w : world_wf w → db_wf (sp_ts (w_rpc w)) (seen w).
Proof using All. intros. by apply seen_snapshot. Qed.

Lemma single_ok {A} (q : _ → _ → res A) w :
  sp_fate (w_rpc w) = FOk → single q w = (q (sp_plan (w_rpc w)) (seen w), next w).
Proof. intros H. unfold single. by rewrite H. Qed.

Lemma single_err {A} (q : _ → _ → res A) w k a c m :
  sp_fate (w_rpc w) = FErr k a c m → single q w = (Err (SpannerError c m), next w).
Proof. intros H. unfold single. by rewrite H. Qed.

Lemma CurrentRevision_ok k w :
  world_wf w → clock_ok k w → sp_fate (w_rpc w) = FOk →
  CurrentRevision w = (Ok (current_rev (kv (seen w))), next w).
Proof using All.
  intros Hw Hc%clock_ok_now Hf. unfold CurrentRevision, mbind, st_bind.
  rewrite single_ok by done. unfold mret, st_ret. f_equal.
  pose proof (q_current_eq (sp_plan (w_rpc w)) (law_plan _) _ _ (seen_wf _ Hw)) as Hq.
  unfold current_rev. pose proof (seen_wf w Hw) as Hwf.
  destruct (q_current _ _) as [r|], (max_row _) as [r'|] eqn:E; simplify_eq/=; [|done].
  apply max_row_elem, (wf_row_bound _ _ Hwf) in E. rewrite Hq, tsToRev_id by lia.
  case_bool; [lia|done].
Qed.

Lemma compactRevision_ok w :
  world_wf w → sp_fate (w_rpc w) = FOk → compactRevision w = (Ok (compact_rev (seen w)), next w).
Proof using All.
  intros Hw Hf. unfold compactRevision, mbind, st_bind. rewrite single_ok by done.
  unfold read_kv_rev, compact_rev, CompactRevRow. destruct (kv_rev (seen w) !! 1) as [c|] eqn:E; cbn.
  - apply (wf_compact _ _ (seen_wf _ Hw)) in E. unfold mret, st_ret. by rewrite tsToRev_id by lia.
  - done.
Qed.

Lemma compact_rev_range w : world_wf w → 1 ≤ compact_rev (seen w) < 2 ^ 63.
Proof using All.
  intros Hw. unfold compact_rev, CompactRevRow. destruct (kv_rev (seen w) !! 1) as [c|] eqn:E; cbn; [|lia].
  by apply (wf_compact _ _ (seen_wf _ Hw)).
Qed.

Lemma get_at_ok key revision cur w :
  world_wf w → clock_ok 0 w → sp_fate (w_rpc w) = FOk →
  get_at key revision cur w =
    (cur, Ok (KV_of <$> live_at (kv (seen w)) key (revToTS (revCap revision cur))), next w).
Proof using All.
  intros Hw Hc%clock_ok_now Hf. unfold get_at, mbind, st_bind. rewrite single_ok by done.
  rewrite (q_get_eq _ (law_plan _) _ _ (seen_wf _ Hw)). unfold live_at, non_deleted.
  destruct (latest_at _ _ _) as [r|] eqn:E; [|done].
  apply latest_at_Some in E as (Hr & _).
  rewrite (scanKV_wf _ r (wf_rows _ _ (seen_wf _ Hw) r Hr)) by lia.
  cbn. by destruct (r_deleted r).
Qed.

(** [Get] of the present: one read of the current revision, one of the row. *)
Lemma Get_current_ok key w :
  world_wf w → clock_ok 1 w → calls_ok 2 w →
  Get key 0 w =
    (current_rev (kv (seen w)),
     Ok (KV_of <$> live_at (kv (seen (next w))) key (current_rev (kv (seen w)))),
     next (next w)).
Proof using All.
  intros Hw Hc Hf. unfold Get, mbind, st_bind.
  rewrite (CurrentRevision_ok _ _ Hw Hc) by by eapply calls_ok_now. cbn [Z.ltb Z.compare].
  rewrite get_at_ok; [|by apply next_wf|by apply clock_ok_set_db
    |by eapply calls_ok_now, calls_ok_set_db].
  unfold revCap. cbn [Z.ltb Z.compare]. rewrite revToTS_id; [done|].
  pose proof (current_rev_lt _ _ (seen_wf _ Hw)). pose proof (law_ts_pos (w_rpc w)). lia.
Qed.

(** [Get] at a revision. *)
Lemma Get_at_ok key revision w :
  0 < revision → world_wf w → clock_ok 2 w → calls_ok 3 w →
  Get key revision w =
    let cur := current_rev (kv (seen w)) in
    let compactRev := compact_rev (seen (next w)) in
    if (1 <? compactRev) && (revision <=? compactRev)
    then (cur, Err ErrCompacted, next (next w))
    else (cur, Ok (KV_of <$> live_at (kv (seen (next (next w)))) key revision),
          next (next (next w))).
Proof using All.
  intros Hrev Hw Hc Hf. unfold Get, mbind, st_bind.
  rewrite (CurrentRevision_ok _ _ Hw Hc) by by eapply calls_ok_now.
  destruct (0 <? revision) eqn:E; bool_prop; [|lia].
  rewrite compactRevision_ok; [|by apply next_wf|by eapply calls_ok_now, calls_ok_set_db].
  cbn zeta. case_bool; [done|].
  rewrite get_at_ok; [|by apply next_wf, next_wf|by apply clock_ok_set_db, clock_ok_set_db
    |by eapply calls_ok_now, calls_ok_set_db, calls_ok_set_db].
  unfold revCap. destruct (0 <? revision) eqn:E'; bool_prop; [|lia].
  by rewrite revToTS_id by lia.
Qed.

End run.

Section read_properties.
Context `{SP : Spanner} `{!SpannerLaws SP}.

(** This replica is alone and no call fails. *)
Definition quiet (w : world) : Prop :=
  ∀ n, (w_rpc w ≤ n)%nat → (∀ db, sp_env n db = db) ∧ sp_fate n = FOk ∧ sp_aborted n = [].

Lemma quiet_seen w : quiet w → seen w = w_db w.
Proof. intros H. by apply (H (w_rpc w)). Qed.

Lemma quiet_set_db w db : quiet w → quiet (set_db db w).
Proof. intros H n Hn. apply H. cbn in Hn. lia. Qed.

Lemma quiet_seen_next w : quiet w → seen (next w) = w_db w.
Proof.
  intros H. rewrite quiet_seen by by apply quiet_set_db. by apply quiet_seen.
Qed.

Lemma quiet_seen_next2 w : quiet w → seen (next (next w)) = w_db w.
Proof.
  intros H. rewrite quiet_seen_next by by apply quiet_set_db. by apply quiet_seen.
Qed.

Lemma quiet_later w w' : quiet w → (w_rpc w ≤ w_rpc w')%nat → quiet w'.
Proof. intros H Hl n Hn. apply H. lia. Qed.

Lemma quiet_snapshot w db : quiet w → snapshot (w_rpc w) (w_db w) db → db = w_db w.
Proof. intros H Hs. destruct (H (w_rpc w)) as (He & _ & Ha); [lia|]. by apply (snap_alone _ _ _ Hs). Qed.

Lemma clock_ok_later k k' w w' :
  clock_ok k w → (w_rpc w' + k' ≤ w_rpc w + k)%nat → clock_ok k' w'.
Proof using All. unfold clock_ok. intros H Hl. pose proof (sp_ts_mono _ _ Hl). lia. Qed.

Lemma quiet_calls_ok k w : quiet w → calls_ok k w.
Proof. intros H i Hi. apply H. lia. Qed.

Lemma List_ok prefix startKey limit revision w :
  world_wf w → clock_ok 2 w → calls_ok 3 w →
  List prefix startKey limit revision w =
    let cur := current_rev (kv (seen w)) in
    let compactRev := compact_rev (seen (next w)) in
    if (1 <? compactRev) && (0 <? revision) && (revision <=? compactRev)
    then (cur, compactRev, Err ErrCompacted, next (next w))
    else (cur, compactRev,
          Ok (KV_of <$> q_list prefix startKey (revToTS (revCap revision cur)) limit
                          (sp_plan (w_rpc (next (next w)))) (seen (next (next w)))),
          next (next (next w))).
Proof using All.
  intros Hw Hc Hf. unfold List, mbind, st_bind.
  rewrite (CurrentRevision_ok _ _ Hw Hc) by by eapply calls_ok_now.
  rewrite compactRevision_ok; [|by apply next_wf|by eapply calls_ok_now, calls_ok_set_db].
  cbn zeta. case_bool; [done|].
  rewrite single_ok by by eapply calls_ok_now, calls_ok_set_db, calls_ok_set_db.
  rewrite (scanAll_wf (sp_ts (w_rpc (next (next w))))); [done|..].
  - intros r Hr. eapply (q_list_wf _ (law_plan _)); [|exact Hr].
    by apply seen_wf, next_wf, next_wf.
  - unfold clock_ok in Hc. change (w_rpc (next (next w))) with (2 + w_rpc w)%nat.
    rewrite Nat.add_comm. lia.
Qed.

Lemma Count_ok prefix startKey revision w :
  world_wf w → clock_ok 2 w → quiet w →
  (Count prefix startKey revision w).1 =
    let cur := current_rev (kv (w_db w)) in
    let compactRev := compact_rev (w_db w) in
    if (0 <? revision) && (1 <? compactRev) && (revision <=? compactRev)
    then (cur, Err ErrCompacted)
    else (cur, Ok (q_count prefix startKey (revToTS (revCap revision cur))
                     (sp_plan (if 0 <? revision then S (S (w_rpc w)) else S (w_rpc w))) (w_db w))).
Proof using All.
  intros Hw Hc Hq. unfold Count, mbind, st_bind.
  rewrite (CurrentRevision_ok _ _ Hw Hc) by by apply Hq.
  rewrite (quiet_seen w Hq). destruct (0 <? revision) eqn:Hrev; cbn zeta.
  - rewrite compactRevision_ok; [|by apply next_wf|apply Hq; cbn; lia].
    rewrite (quiet_seen_next w Hq). cbn [andb]. case_bool; [done|].
    unfold count_at, mbind, st_bind. rewrite single_ok by (apply Hq; cbn; lia).
    by rewrite (quiet_seen_next2 w Hq).
  - unfold count_at, mbind, st_bind. rewrite single_ok by (apply Hq; cbn; lia).
    by rewrite (quiet_seen_next w Hq).
Qed.

Lemma after_at_ok prefix afterRev limit cur w :
  world_wf w → clock_ok 0 w → sp_fate (w_rpc w) = FOk →
  after_at prefix afterRev limit cur w =
    (cur, Ok (toEvent ∘ KV_of <$> q_after prefix (revToTS afterRev) limit
                                    (sp_plan (w_rpc w)) (seen w)), next w).
Proof using All.
  intros Hw Hc%clock_ok_now Hf. unfold after_at, mbind, st_bind. rewrite single_ok by done.
  rewrite (scanAll_wf (sp_ts (w_rpc w))); [by rewrite <-list_fmap_compose| |lia].
  intros r Hr. apply (wf_rows _ _ (seen_wf _ Hw)). unfold q_after, limitClause in Hr.
  assert (r ∈ order_by rev_asc (filter (λ r0, sql_like (likePrefix prefix) (r_key r0) = true ∧
            revToTS afterRev < r_rev r0) (sp_plan (w_rpc w) (kv (seen w))))) as Hr'.
  { case_match; [done|]. by eapply elem_of_take in Hr as (i & Hi%list_elem_of_lookup_2 & _). }
  apply order_by_elem, list_elem_of_filter in Hr' as [_ Hr']. by rewrite law_plan in Hr'.
Qed.

Lemma After_ok prefix afterRev limit w :
  world_wf w → clock_ok 2 w → calls_ok 3 w →
  After prefix afterRev limit w =
    let cur := current_rev (kv (seen w)) in
    if 0 <? afterRev then
      if afterRev <? compact_rev (seen (next w)) then (cur, Err ErrCompacted, next (next w))
      else after_at prefix afterRev limit cur (next (next w))
    else after_at prefix afterRev limit cur (next w).
Proof using All.
  intros Hw Hc Hf. unfold After, mbind, st_bind.
  rewrite (CurrentRevision_ok _ _ Hw Hc) by by eapply calls_ok_now.
  case_bool; [|done].
  rewrite compactRevision_ok; [|by apply next_wf|by eapply calls_ok_now, calls_ok_set_db].
  cbn zeta. by case_bool.
Qed.

(** The rows of a replay: everything newer that matches, oldest first. *)
Lemma q_after_all prefix afterTS plan db :
  (∀ rows, plan rows ≡ₚ rows) →
  StronglySorted rev_asc (q_after prefix afterTS 0 plan db) ∧
  ∀ r, r ∈ q_after prefix afterTS 0 plan db ↔
    r ∈ kv db ∧ sql_like (likePrefix prefix) (r_key r) = true ∧ afterTS < r_rev r.
Proof.
  intros Hp. unfold q_after, limitClause. cbn. split.
  - apply StronglySorted_merge_sort; apply _.
  - intros r. rewrite order_by_elem, list_elem_of_filter, Hp. naive_solver.
Qed.

Lemma q_after_NoDup T prefix afterTS plan db :
  (∀ rows, plan rows ≡ₚ rows) → db_wf T db → NoDup (q_after prefix afterTS 0 plan db).
Proof.
  intros Hp Hwf. unfold q_after, limitClause, order_by. cbn. rewrite merge_sort_Permutation.
  apply NoDup_filter. rewrite Hp. eapply NoDup_fmap_1, (wf_ids _ _ Hwf).
Qed.

End read_properties.

(** ** The concrete behaviours *)

Lemma sim_calls env k w : calls_ok (SP := sim env (λ _, FOk)) k w.
Proof. by intros i _. Qed.

Lemma solo_quiet w : quiet (SP := solo) w.
Proof. by intros n _. Qed.
