(* ===== verification/StoreWrite.v ===== *)
(** * pkg/store/store.go: single-key writes

    [Create], [Update], [Delete], [DeleteIfLease]: each one read-write
    transaction that checks the latest row of the key and appends one row. *)

From Stdlib Require Import Ascii String.
From S2P Require Import Prelude Go Spanner Rows Invariant Sim StoreRead.

(** [notify]: a non-blocking send on [notifyCh], which buffers 1024 revisions. *)
Definition notifyCh_cap : Z := 1024.

Definition notify (rev : Z) : ST world () := λ w,
  ((), if Z.of_nat (length (w_notify w)) <? notifyCh_cap
       then mk_world (w_db w) (w_rpc w) (w_notify w ++ [rev]) (w_compactions w)
       else w).

(** ** Transaction callbacks *)

Definition create_body (key : string) (value : option string) (leaseID : Z) : txn_body () :=
  λ plan db _,
    (if keyExistsTxn plan db key then Err ErrKeyExists
     else Ok [InsertKV key value None leaseID false true CommitTimestamp NullTime], ()).

(** [prev] is captured: it keeps its value when the callback fails. *)
Definition update_body (key : string) (value : option string) (revision leaseID : Z) :
    txn_body (option KV) :=
  λ plan db prev0,
    match getLatestTxn plan db key with
    | Err e => (Err e, None)
    | Ok None => (Err ErrKeyNotFound, None)
    | Ok (Some prev) =>
        (if negb (Rev prev =? revision) then Err ErrRevisionMismatch
         else Ok [InsertKV key value (Value prev) leaseID false false
                    (Timestamp (revToTS (CreateRevision prev))) (Timestamp (revToTS (Rev prev)))],
         Some prev)
    end.

Definition tombstone (key : string) (prev : KV) : mutation :=
  InsertKV key None (Value prev) 0 true false
    (Timestamp (revToTS (CreateRevision prev))) (Timestamp (revToTS (Rev prev))).

Definition delete_body (key : string) (revision : Z) : txn_body (option KV) :=
  λ plan db prev0,
    match getLatestTxn plan db key with
    | Err e => (Err e, None)
    | Ok None => (Err ErrKeyNotFound, None)
    | Ok (Some prev) =>
        (if negb (revision =? 0) && negb (Rev prev =? revision) then Err ErrRevisionMismatch
         else Ok [tombstone key prev], Some prev)
    end.

(** [deleted] is captured. *)
Definition delete_if_lease_body (key : string) (leaseID : Z) : txn_body bool :=
  λ plan db deleted0,
    match getLatestTxn plan db key with
    | Err e => (Err e, deleted0)
    | Ok None => (Ok [], false)
    | Ok (Some prev) =>
        if negb (LeaseID prev =? leaseID) then (Ok [], false)
        else (Ok [tombstone key prev], true)
    end.

(** ** Operations *)

Section writes.
Context `{SP : Spanner}.

Definition Create (key : string) (value : option string) (leaseID : Z) : ST world (res Z) :=
  r ← read_write_txn (create_body key value leaseID) ();
  match r.1 with
  | Err e => mret (Err e)
  | Ok commitTS =>
      let rev := tsToRev commitTS in
      _ ← notify rev; mret (Ok rev)
  end.

(** What [Update] and [Delete] do with the outcome of their transaction:
    [(rev, prev, ok, err)]. *)
Definition cas_outcome (r : res Z * option KV) : ST world (res (Z * option KV * bool)) :=
  match r with
  | (Err err, prev) =>
      if errors_Is err ErrRevisionMismatch || errors_Is err ErrKeyNotFound then
        curRev ← CurrentRevision; mret (Ok (or_zero curRev, prev, false))
      else mret (Err err)
  | (Ok commitTS, prev) =>
      let rev := tsToRev commitTS in
      _ ← notify rev; mret (Ok (rev, prev, true))
  end.

Definition Update (key : string) (value : option string) (revision leaseID : Z) :
    ST world (res (Z * option KV * bool)) :=
  r ← read_write_txn (update_body key value revision leaseID) None; cas_outcome r.

Definition Delete (key : string) (revision : Z) : ST world (res (Z * option KV * bool)) :=
  r ← read_write_txn (delete_body key revision) None; cas_outcome r.

Definition DeleteIfLease (key : string) (leaseID : Z) : ST world (res bool) :=
  r ← read_write_txn (delete_if_lease_body key leaseID) false;
  mret (match r with
        | (Err err, _) => Err err
        | (Ok _, deleted) => Ok deleted
        end).

End writes.

(** ** Rows the callbacks append *)

Lemma row_of_update T p ts id k v l :
  row_wf T p →
  row_of ts id (InsertKV k v (Value (KV_of p)) l false false
                  (Timestamp (revToTS (CreateRevision (KV_of p))))
                  (Timestamp (revToTS (Rev (KV_of p))))) =
  Some (put_row id ts k v l (Some p)).
Proof.
  intros [Hrev _ _ (c & Hc & Hc') _ _]. unfold put_row. cbn. rewrite Hc. cbn.
  by rewrite !revToTS_id by lia.
Qed.

Lemma row_of_tombstone T p ts id k :
  row_wf T p → row_of ts id (tombstone k (KV_of p)) = Some (del_row id ts k p).
Proof.
  intros [Hrev _ _ (c & Hc & Hc') _ _]. unfold del_row. cbn. rewrite Hc. cbn.
  by rewrite !revToTS_id by lia.
Qed.

(** ** The callbacks on a snapshot *)

Section bodies.
Context `{SP : Spanner} {Laws : SpannerLaws SP}.
Context (n : nat) (Hclock : sp_ts n < 2 ^ 63).

Lemma create_body_eq key value leaseID db u :
  db_wf (sp_ts n) db →
  create_body key value leaseID (sp_plan n) db u =
    (match live (kv db) key with
     | Some _ => Err ErrKeyExists
     | None => Ok [InsertKV key value None leaseID false true CommitTimestamp NullTime]
     end, ()).
Proof using All.
  intros Hwf. unfold create_body. rewrite (keyExistsTxn_eq _ (law_plan _) _ _ Hwf).
  by destruct (live (kv db) key).
Qed.

Lemma update_body_eq key value revision leaseID db c :
  db_wf (sp_ts n) db →
  update_body key value revision leaseID (sp_plan n) db c =
    match live (kv db) key with
    | None => (Err ErrKeyNotFound, None)
    | Some p =>
        (if r_rev p =? revision
         then Ok [InsertKV key value (Value (KV_of p)) leaseID false false
                    (Timestamp (revToTS (CreateRevision (KV_of p))))
                    (Timestamp (revToTS (Rev (KV_of p))))]
         else Err ErrRevisionMismatch, Some (KV_of p))
    end.
Proof using All.
  intros Hwf. unfold update_body. rewrite (getLatestTxn_eq _ (law_plan _) _ _ Hwf) by lia.
  destruct (live (kv db) key) as [p|]; [|done]. cbn [fmap option_fmap option_map].
  change (Rev (KV_of p)) with (r_rev p). by destruct (r_rev p =? revision).
Qed.

Lemma delete_body_eq key revision db c :
  db_wf (sp_ts n) db →
  delete_body key revision (sp_plan n) db c =
    match live (kv db) key with
    | None => (Err ErrKeyNotFound, None)
    | Some p =>
        (if (revision =? 0) || (r_rev p =? revision) then Ok [tombstone key (KV_of p)]
         else Err ErrRevisionMismatch, Some (KV_of p))
    end.
Proof using All.
  intros Hwf. unfold delete_body. rewrite (getLatestTxn_eq _ (law_plan _) _ _ Hwf) by lia.
  destruct (live (kv db) key) as [p|]; [|done]. cbn [fmap option_fmap option_map].
  change (Rev (KV_of p)) with (r_rev p).
  by destruct (revision =? 0), (r_rev p =? revision).
Qed.

Lemma delete_if_lease_body_eq key leaseID db c :
  db_wf (sp_ts n) db →
  delete_if_lease_body key leaseID (sp_plan n) db c =
    match live (kv db) key with
    | None => (Ok [], false)
    | Some p =>
        if bool_decide (r_lease_id p = Some leaseID) then (Ok [tombstone key (KV_of p)], true)
        else (Ok [], false)
    end.
Proof using All.
  intros Hwf. unfold delete_if_lease_body. rewrite (getLatestTxn_eq _ (law_plan _) _ _ Hwf) by lia.
  destruct (live (kv db) key) as [p|] eqn:E; [|done]. cbn [fmap option_fmap option_map].
  apply live_elem in E as (Hin & _). destruct (rw_lease _ _ (wf_rows _ _ Hwf p Hin)) as [l Hl].
  unfold KV_of at 1. cbn [LeaseID]. rewrite Hl. cbn [default from_option id].
  destruct (l =? leaseID) eqn:El; bool_prop.
  - by rewrite El, bool_decide_true.
  - by rewrite bool_decide_false by congruence.
Qed.

Lemma create_retry_safe key value leaseID : retry_safe n (create_body key value leaseID).
Proof. by intros db [] []. Qed.
Lemma update_retry_safe key value revision leaseID :
  retry_safe n (update_body key value revision leaseID).
Proof. done. Qed.
Lemma delete_retry_safe key revision : retry_safe n (delete_body key revision).
Proof. done. Qed.
Lemma delete_if_lease_retry_safe key leaseID : retry_safe n (delete_if_lease_body key leaseID).
Proof using All. intros db c c' Hwf. by rewrite !delete_if_lease_body_eq. Qed.

(** The commit of a callback that appends the row [r]. *)
Lemma commit_write db0 db m r :
  snapshot n db0 db → row_of (sp_ts n) (sp_seq n 0) m = Some r →
  next_row (sp_ts n) (kv db) r →
  apply_mutations (sp_ts n) (sp_seq n) [m] db = Ok (set_kv (kv db ++ [r]) db) ∧
  commit_ok n db (set_kv (kv db ++ [r]) db).
Proof using Laws.
  intros Hs Hr Hn. split; [by apply apply_insert1|].
  eapply commit_ok_write; [done..|]. destruct m; naive_solver.
Qed.

Lemma commit_update db0 db key p value leaseID :
  snapshot n db0 db → live (kv db) key = Some p →
  let r := put_row (sp_seq n 0) (sp_ts n) key value leaseID (Some p) in
  let m := InsertKV key value (Value (KV_of p)) leaseID false false
             (Timestamp (revToTS (CreateRevision (KV_of p))))
             (Timestamp (revToTS (Rev (KV_of p)))) in
  row_of (sp_ts n) (sp_seq n 0) m = Some r ∧ next_row (sp_ts n) (kv db) r.
Proof using Laws.
  intros Hs Hp. pose proof (live_elem _ _ _ Hp) as (Hin & _). split.
  - eapply row_of_update, (wf_rows _ _ (snap_wf _ _ _ Hs)), Hin.
  - rewrite <-Hp. apply next_put.
Qed.

Lemma commit_delete db0 db key p :
  snapshot n db0 db → live (kv db) key = Some p →
  row_of (sp_ts n) (sp_seq n 0) (tombstone key (KV_of p)) =
    Some (del_row (sp_seq n 0) (sp_ts n) key p) ∧
  next_row (sp_ts n) (kv db) (del_row (sp_seq n 0) (sp_ts n) key p).
Proof using Laws.
  intros Hs Hp. pose proof (live_elem _ _ _ Hp) as (Hin & _). split.
  - eapply row_of_tombstone, (wf_rows _ _ (snap_wf _ _ _ Hs)), Hin.
  - by apply next_del.
Qed.

Lemma create_next_row db key value leaseID :
  live (kv db) key = None →
  next_row (sp_ts n) (kv db) (put_row (sp_seq n 0) (sp_ts n) key value leaseID None).
Proof. intros <-. apply next_put. Qed.

End bodies.

Lemma notify_run rev w :
  (notify rev w).1 = () ∧ w_db (notify rev w).2 = w_db w ∧ w_rpc (notify rev w).2 = w_rpc w.
Proof. unfold notify. cbn. by case_bool. Qed.

Lemma notify_db rev w : w_db (notify rev w).2 = w_db w.
Proof. apply notify_run. Qed.

(** ** Correctness of the writes *)

Section correctness.
Context `{SP : Spanner} `{!SpannerLaws SP}.

(** The database of [w'] is [db] with [r] appended; of the current state only
    the key of [r] changed, to [r]. *)
Definition appended (db : database) (r : kv_row) (w' : world) : Prop :=
  w_db w' = set_kv (kv db ++ [r]) db ∧
  live (kv (w_db w')) (r_key r) = non_deleted (Some r) ∧
  ∀ k, k ≠ r_key r → live (kv (w_db w')) k = live (kv db) k.

Lemma commit_appended w db m r :
  snapshot (w_rpc w) (w_db w) db → sp_fate (w_rpc w) = FOk →
  row_of (sp_ts (w_rpc w)) (sp_seq (w_rpc w) 0) m = Some r →
  next_row (sp_ts (w_rpc w)) (kv db) r →
  commit (w_rpc w) [m] db = (Ok (sp_ts (w_rpc w)), set_kv (kv db ++ [r]) db) ∧
  ∀ rev, appended db r (notify rev (set_db (set_kv (kv db ++ [r]) db) w)).2.
Proof using All.
  intros Hs Hf Hr Hn. destruct (commit_write _ _ _ _ _ Hs Hr Hn) as [Ha _]. split.
  - unfold commit. by rewrite Hf, Ha.
  - intros rev. unfold appended. rewrite notify_db. split; [done|].
    by eapply snapshot_live_write.
Qed.

Lemma txn_error_ok w e e' :
  sp_fate (w_rpc w) = FOk →
  (e' = e ∨ ∃ k c m, sp_fate (w_rpc w) = FErr k false c m ∧ e' = SpannerError c m) → e' = e.
Proof. intros Hf [->|(k & c & m & H & _)]; congruence. Qed.

(** The outcome of a compare-and-swap transaction whose callback failed with one
    of the two domain errors. *)
Lemma cas_outcome_mismatch e prev w :
  e = ErrRevisionMismatch ∨ e = ErrKeyNotFound → world_wf w → clock_ok 0 w →
  sp_fate (w_rpc w) = FOk →
  cas_outcome (Err e, prev) w = (Ok (current_rev (kv (seen w)), prev, false), next w).
Proof using All.
  intros He Hw Hc Hf. unfold cas_outcome.
  assert (errors_Is e ErrRevisionMismatch || errors_Is e ErrKeyNotFound = true) as ->
    by by destruct He as [->| ->].
  unfold mbind, st_bind. by rewrite (CurrentRevision_ok 0 w Hw Hc Hf).
Qed.

Lemma cas_outcome_ok ts prev w :
  1 ≤ ts < 2 ^ 63 →
  cas_outcome (Ok ts, prev) w = (Ok (ts, prev, true), (notify ts w).2).
Proof.
  intros Hts. unfold cas_outcome, mbind, st_bind. rewrite tsToRev_id by done.
  by destruct (notify ts w).
Qed.

Lemma ts_bounds k w : clock_ok k w → 1 ≤ sp_ts (w_rpc w) < 2 ^ 63.
Proof using All. intros ?%clock_ok_now. pose proof (law_ts_pos (w_rpc w)). lia. Qed.

(** [Create] takes effect at one point: on the database it then sees, an
    existing key is refused and nothing is written; otherwise it appends exactly
    one live row, whose revision and create revision are the commit timestamp it
    returns, and no other key changes. *)
Lemma Create_run key value leaseID w :
  world_wf w → clock_ok 0 w → sp_fate (w_rpc w) = FOk →
  ∃ db, snapshot (w_rpc w) (w_db w) db ∧
    match live (kv db) key with
    | Some _ => Create key value leaseID w = (Err ErrKeyExists, set_db db w)
    | None =>
        (Create key value leaseID w).1 = Ok (sp_ts (w_rpc w)) ∧
        appended db (put_row (sp_seq (w_rpc w) 0) (sp_ts (w_rpc w)) key value leaseID None)
          (Create key value leaseID w).2
    end.
Proof using All.
  intros Hw Hc Hf. pose proof (ts_bounds _ _ Hc) as Ht. unfold Create, mbind, st_bind.
  destruct (read_write_txn_inv _ () w Hw (create_retry_safe (w_rpc w) key value leaseID))
    as (db & Hs & H). exists db. split; [done|].
  rewrite create_body_eq in H by (lia || apply Hs).
  destruct (live (kv db) key) as [p|] eqn:E.
  - destruct H as (e' & -> & ->%txn_error_ok); done.
  - rewrite H.
    destruct (commit_appended w db
                (InsertKV key value None leaseID false true CommitTimestamp NullTime)
                (put_row (sp_seq (w_rpc w) 0) (sp_ts (w_rpc w)) key value leaseID None)
                Hs Hf eq_refl (create_next_row _ _ _ _ _ E)) as [-> Happ].
    cbn [fst snd]. rewrite tsToRev_id by lia.
    specialize (Happ (sp_ts (w_rpc w))). by destruct (notify _ _).
Qed.

(** [Update] is a compare-and-swap: it writes iff the key exists with exactly
    the expected revision, and then appends one row that keeps the create
    revision, points to the replaced row and records its value; otherwise it
    writes nothing, answers [ok = false] with the current revision and returns
    the row it found. *)
Lemma Update_run key value revision leaseID w :
  world_wf w → clock_ok 1 w → calls_ok 2 w →
  ∃ db, snapshot (w_rpc w) (w_db w) db ∧
    match live (kv db) key with
    | None => Update key value revision leaseID w =
        (Ok (current_rev (kv (seen (set_db db w))), None, false), next (set_db db w))
    | Some p =>
        if r_rev p =? revision then
          (Update key value revision leaseID w).1 =
            Ok (sp_ts (w_rpc w), Some (KV_of p), true) ∧
          appended db
            (put_row (sp_seq (w_rpc w) 0) (sp_ts (w_rpc w)) key value leaseID (Some p))
            (Update key value revision leaseID w).2
        else Update key value revision leaseID w =
          (Ok (current_rev (kv (seen (set_db db w))), Some (KV_of p), false), next (set_db db w))
    end.
Proof using All.
  intros Hw Hc Hcalls. pose proof (calls_ok_now _ _ Hcalls) as Hf. pose proof (ts_bounds _ _ Hc) as Ht.
  unfold Update, mbind, st_bind.
  destruct (read_write_txn_inv _ None w Hw
              (update_retry_safe (w_rpc w) key value revision leaseID)) as (db & Hs & H).
  exists db. split; [done|].
  pose proof (world_wf_set_db w db Hs) as Hw'.
  rewrite update_body_eq in H by (lia || apply Hs).
  destruct (live (kv db) key) as [p|] eqn:E; [destruct (r_rev p =? revision)|].
  - rewrite H. destruct (commit_update _ _ _ _ _ value leaseID Hs E) as [Hr Hn].
    destruct (commit_appended w db _ _ Hs Hf Hr Hn) as [-> Happ]. cbn [fst snd].
    rewrite cas_outcome_ok by lia. split; [done|apply Happ].
  - destruct H as (e' & -> & ->%txn_error_ok); [|done].
    apply cas_outcome_mismatch; [by left|done|by apply clock_ok_set_db
      |by eapply calls_ok_now, calls_ok_set_db].
  - destruct H as (e' & -> & ->%txn_error_ok); [|done].
    apply cas_outcome_mismatch; [by right|done|by apply clock_ok_set_db
      |by eapply calls_ok_now, calls_ok_set_db].
Qed.

(** [Delete] appends one tombstone that points to the deleted row and keeps
    its value and create revision, iff the key exists and the expected revision
    is 0 or matches; the key is then absent.  Otherwise nothing is written. *)
Lemma Delete_run key revision w :
  world_wf w → clock_ok 1 w → calls_ok 2 w →
  ∃ db, snapshot (w_rpc w) (w_db w) db ∧
    match live (kv db) key with
    | None => Delete key revision w =
        (Ok (current_rev (kv (seen (set_db db w))), None, false), next (set_db db w))
    | Some p =>
        if (revision =? 0) || (r_rev p =? revision) then
          (Delete key revision w).1 = Ok (sp_ts (w_rpc w), Some (KV_of p), true) ∧
          appended db (del_row (sp_seq (w_rpc w) 0) (sp_ts (w_rpc w)) key p)
            (Delete key revision w).2
        else Delete key revision w =
          (Ok (current_rev (kv (seen (set_db db w))), Some (KV_of p), false), next (set_db db w))
    end.
Proof using All.
  intros Hw Hc Hcalls. pose proof (calls_ok_now _ _ Hcalls) as Hf. pose proof (ts_bounds _ _ Hc) as Ht.
  unfold Delete, mbind, st_bind.
  destruct (read_write_txn_inv _ None w Hw (delete_retry_safe (w_rpc w) key revision))
    as (db & Hs & H).
  exists db. split; [done|]. pose proof (world_wf_set_db w db Hs) as Hw'.
  rewrite delete_body_eq in H by (lia || apply Hs).
  destruct (live (kv db) key) as [p|] eqn:E; [destruct ((revision =? 0) || _)|].
  - rewrite H. destruct (commit_delete _ _ _ _ _ Hs E) as [Hr Hn].
    destruct (commit_appended w db _ _ Hs Hf Hr Hn) as [-> Happ]. cbn [fst snd].
    rewrite cas_outcome_ok by lia. split; [done|apply Happ].
  - destruct H as (e' & -> & ->%txn_error_ok); [|done].
    apply cas_outcome_mismatch; [by left|done|by apply clock_ok_set_db
      |by eapply calls_ok_now, calls_ok_set_db].
  - destruct H as (e' & -> & ->%txn_error_ok); [|done].
    apply cas_outcome_mismatch; [by right|done|by apply clock_ok_set_db
      |by eapply calls_ok_now, calls_ok_set_db].
Qed.

(** The empty commit of [DeleteIfLease]. *)
Lemma commit_nothing w db :
  sp_fate (w_rpc w) = FOk → commit (w_rpc w) [] db = (Ok (sp_ts (w_rpc w)), db).
Proof. intros Hf. unfold commit. by rewrite Hf. Qed.

(** [DeleteIfLease] writes a tombstone, and answers [true], exactly when the
    key's current row belongs to the lease; check and write see the same
    database, so a key moved to another lease is never deleted. *)
Lemma DeleteIfLease_run key leaseID w :
  world_wf w → clock_ok 0 w → sp_fate (w_rpc w) = FOk →
  ∃ db, snapshot (w_rpc w) (w_db w) db ∧
    match live (kv db) key with
    | Some p =>
        if bool_decide (r_lease_id p = Some leaseID) then
          (DeleteIfLease key leaseID w).1 = Ok true ∧
          appended db (del_row (sp_seq (w_rpc w) 0) (sp_ts (w_rpc w)) key p)
            (DeleteIfLease key leaseID w).2
        else DeleteIfLease key leaseID w = (Ok false, set_db db w)
    | None => DeleteIfLease key leaseID w = (Ok false, set_db db w)
    end.
Proof using All.
  intros Hw Hc Hf. pose proof (ts_bounds _ _ Hc) as Ht. unfold DeleteIfLease, mbind, st_bind.
  destruct (read_write_txn_inv _ false w Hw
              (delete_if_lease_retry_safe (w_rpc w) (proj2 Ht) key leaseID)) as (db & Hs & H).
  exists db. split; [done|].
  rewrite delete_if_lease_body_eq in H by (lia || apply Hs).
  destruct (live (kv db) key) as [p|] eqn:E; [destruct (bool_decide _)|].
  - rewrite H. destruct (commit_delete _ _ _ _ _ Hs E) as [Hr Hn].
    destruct (commit_write _ _ _ _ _ Hs Hr Hn) as [Ha _].
    unfold commit. rewrite Hf, Ha. split; [done|]. split; [done|].
    by eapply snapshot_live_write.
  - rewrite H, commit_nothing by done. done.
  - rewrite H, commit_nothing by done. done.
Qed.

(** ** Guarantee, whatever the calls' fate *)

Lemma single_guarantee {A} (q : _ → _ → res A) w :
  world_wf w → guarantee w (single q w).2.
Proof using All. intros. by apply guarantee_read, seen_snapshot. Qed.

Lemma CurrentRevision_guarantee w : world_wf w → guarantee w (CurrentRevision w).2.
Proof using All.
  intros Hw. unfold CurrentRevision, mbind, st_bind.
  pose proof (single_guarantee (λ plan db, Ok (q_current plan db)) w Hw) as H.
  destruct (single _ w) as [[?|?] ?]; exact H.
Qed.

Lemma compactRevision_guarantee w : world_wf w → guarantee w (compactRevision w).2.
Proof using All.
  intros Hw. unfold compactRevision, mbind, st_bind.
  pose proof (single_guarantee (λ _ db, read_kv_rev CompactRevRow db) w Hw) as H.
  destruct (single _ w) as [[?|?] ?]; exact H.
Qed.

Lemma notify_guarantee rev w w' : guarantee w w' → guarantee w (notify rev w').2.
Proof.
  intros ([Hd Hi] & Hr & Hl). unfold guarantee. rewrite notify_db.
  destruct (notify_run rev w') as (_ & _ & E). rewrite E. split; [|done].
  split; by rewrite ?notify_db, E.
Qed.

Lemma cas_outcome_guarantee w r w' :
  guarantee w w' → guarantee w (cas_outcome r w').2.
Proof using All.
  intros H. unfold cas_outcome. destruct r as [[ts|e] prev].
  - unfold mbind, st_bind. pose proof (notify_guarantee (tsToRev ts) _ _ H) as Hn.
    by destruct (notify _ _).
  - case_bool; [|done]. unfold mbind, st_bind.
    pose proof (CurrentRevision_guarantee w' ltac:(apply H)) as Hc.
    destruct (CurrentRevision w'). by eapply guarantee_trans.
Qed.

Lemma Create_guarantee key value leaseID w :
  world_wf w → clock_ok 0 w → guarantee w (Create key value leaseID w).2.
Proof using All.
  intros Hw Hc. pose proof (ts_bounds _ _ Hc) as Ht. unfold Create, mbind, st_bind.
  assert (guarantee w (read_write_txn (create_body key value leaseID) () w).2) as H.
  { apply read_write_txn_guarantee; [done|apply create_retry_safe|].
    intros db ms c' Hs. rewrite create_body_eq by (lia || apply Hs).
    destruct (live (kv db) key) eqn:E; [done|]. intros [= <- <-].
    eexists. by eapply commit_write, create_next_row. }
  destruct (read_write_txn _ () w) as [[[ts|e] u] w']; cbn [fst snd] in *; [|done].
  pose proof (notify_guarantee (tsToRev ts) _ _ H). by destruct (notify _ _).
Qed.

Lemma Update_guarantee key value revision leaseID w :
  world_wf w → clock_ok 0 w → guarantee w (Update key value revision leaseID w).2.
Proof using All.
  intros Hw Hc. pose proof (ts_bounds _ _ Hc) as Ht. unfold Update, mbind, st_bind.
  assert (guarantee w (read_write_txn (update_body key value revision leaseID) None w).2) as H.
  { apply read_write_txn_guarantee; [done|apply update_retry_safe|].
    intros db ms c' Hs. rewrite update_body_eq by (lia || apply Hs).
    destruct (live (kv db) key) as [p|] eqn:E; [|done]. case_bool; [|done]. intros [= <- <-].
    destruct (commit_update _ _ _ _ _ value leaseID Hs E). eexists. by eapply commit_write. }
  destruct (read_write_txn _ None w). by apply cas_outcome_guarantee.
Qed.

Lemma Delete_guarantee key revision w :
  world_wf w → clock_ok 0 w → guarantee w (Delete key revision w).2.
Proof using All.
  intros Hw Hc. pose proof (ts_bounds _ _ Hc) as Ht. unfold Delete, mbind, st_bind.
  assert (guarantee w (read_write_txn (delete_body key revision) None w).2) as H.
  { apply read_write_txn_guarantee; [done|apply delete_retry_safe|].
    intros db ms c' Hs. rewrite delete_body_eq by (lia || apply Hs).
    destruct (live (kv db) key) as [p|] eqn:E; [|done]. case_bool; [|done]. intros [= <- <-].
    destruct (commit_delete _ _ _ _ _ Hs E). eexists. by eapply commit_write. }
  destruct (read_write_txn _ None w). by apply cas_outcome_guarantee.
Qed.

Lemma DeleteIfLease_guarantee key leaseID w :
  world_wf w → clock_ok 0 w → guarantee w (DeleteIfLease key leaseID w).2.
Proof using All.
  intros Hw Hc. pose proof (ts_bounds _ _ Hc) as Ht. unfold DeleteIfLease, mbind, st_bind.
  assert (guarantee w (read_write_txn (delete_if_lease_body key leaseID) false w).2) as H.
  { apply read_write_txn_guarantee; [done|apply delete_if_lease_retry_safe; lia|].
    intros db ms c' Hs. rewrite delete_if_lease_body_eq by (lia || apply Hs).
    destruct (live (kv db) key) as [p|] eqn:E; [case_bool|]; intros [= <- <-].
    - destruct (commit_delete _ _ _ _ _ Hs E). eexists. by eapply commit_write.
    - exists db. split; [done|by left].
    - exists db. split; [done|by left]. }
  by destruct (read_write_txn _ false w) as [[[]] ?].
Qed.

End correctness.

(** ** Concrete runs *)

(** One key created, then updated, by a replica alone. *)
Definition run1 : world := (Create (SP := solo) "k" (Some "a"%string) 0 (world_of empty_db)).2.
Definition run2 : world := (Update (SP := solo) "k" (Some "b"%string) 100 0 run1).2.

Lemma solo_start : world_wf (SP := solo) (world_of empty_db).
Proof. apply empty_world_wf. Qed.

Lemma run1_wf : world_wf (SP := solo) run1.
Proof. apply (@Create_guarantee solo _); [apply solo_start|by apply sim_clock]. Qed.

Lemma run2_wf : world_wf (SP := solo) run2.
Proof. apply (@Update_guarantee solo _); [apply run1_wf|by apply sim_clock]. Qed.

