(* ===== verification/StoreTxn.v ===== *)
(** * pkg/store/store.go: [AtomicTxn]

    Compares and operations in one read-write transaction.  The callback resets
    the variables it captures, because Spanner may run it again after an abort. *)

From Stdlib Require Import Ascii String.
From S2P Require Import Prelude Go Spanner Rows Invariant Sim StoreRead StoreWrite.

(** ** Data *)

(** [TxnOpType] is an [int]: other values than the three constants exist. *)
Inductive TxnOpType := TxnOpPut | TxnOpDelete | TxnOpGet | TxnOpOther (n : Z).

Record TxnOp := mk_TxnOp {
  op_Type : TxnOpType;
  op_Key : string;
  op_Value : option string;
  op_LeaseID : Z;
}.

Record TxnResult := mk_TxnResult { res_KV : option KV; res_Ok : bool }.

Record TxnCompare := mk_TxnCompare {
  cmp_Key : string;
  cmp_Evaluate : option (option KV → bool);
  cmp_Err : option error;
}.

(** The variables the callback captures. *)
Record txn_vars := mk_txn_vars {
  v_succeeded : bool;
  v_results : list TxnResult;
  v_hasMutations : bool;
  v_commitRev : Z;
  v_snapshotRev : Z;
}.

Definition txn_vars0 : txn_vars := mk_txn_vars false [] false 0 0.

(** ** The callback *)

(** Validation of the compares before the transaction is opened. *)
Fixpoint validateCompares (compares : list TxnCompare) : option error :=
  match compares with
  | [] => None
  | c :: compares =>
      match cmp_Err c, cmp_Evaluate c with
      | Some e, _ => Some e
      | None, None => Some (Errorf "TxnCompare.Evaluate must not be nil for key %q" [ArgS (cmp_Key c)])
      | None, Some _ => validateCompares compares
      end
  end.

Definition evaluate (c : TxnCompare) (kv : option KV) : bool :=
  match cmp_Evaluate c with Some f => f kv | None => false end.

(** The compare loop: stops at the first compare that does not hold. *)
Fixpoint evalCompares (plan : list kv_row → list kv_row) (db : database)
    (compares : list TxnCompare) : res bool :=
  match compares with
  | [] => Ok true
  | c :: compares =>
      match getLatestTxn plan db (cmp_Key c) with
      | Err e => Err e
      | Ok kv => if evaluate c kv then evalCompares plan db compares else Ok false
      end
  end.

Definition is_mutation (op : TxnOp) : bool :=
  match op_Type op with TxnOpPut | TxnOpDelete => true | _ => false end.

(** The first key mutated twice by [ops], given the keys mutated before. *)
Fixpoint duplicateKey (seen : gset string) (ops : list TxnOp) : option string :=
  match ops with
  | [] => None
  | op :: ops =>
      if is_mutation op then
        if bool_decide (op_Key op ∈ seen) then Some (op_Key op)
        else duplicateKey ({[op_Key op]} ∪ seen) ops
      else duplicateKey seen ops
  end.

Definition duplicateMutation (key : string) : error :=
  Errorf "duplicate mutation for key %q in single Txn branch" [ArgS key].

Definition put_mutation (op : TxnOp) (prev : option KV) : mutation :=
  InsertKV (op_Key op) (op_Value op)
    (match prev with Some p => Value p | None => None end)
    (op_LeaseID op) false
    (match prev with Some _ => false | None => true end)
    (match prev with Some p => Timestamp (revToTS (CreateRevision p)) | None => CommitTimestamp end)
    (match prev with Some p => Timestamp (revToTS (Rev p)) | None => NullTime end).

(** One operation: its result and the mutation it buffers. *)
Definition execOp (plan : list kv_row → list kv_row) (db : database) (op : TxnOp) :
    res (TxnResult * option mutation) :=
  match op_Type op with
  | TxnOpGet =>
      match getLatestTxn plan db (op_Key op) with
      | Err e => Err e
      | Ok kv => Ok (mk_TxnResult kv (match kv with Some _ => true | None => false end), None)
      end
  | TxnOpPut =>
      match getLatestTxn plan db (op_Key op) with
      | Err e => Err e
      | Ok prev => Ok (mk_TxnResult prev true, Some (put_mutation op prev))
      end
  | TxnOpDelete =>
      match getLatestTxn plan db (op_Key op) with
      | Err e => Err e
      | Ok None => Ok (mk_TxnResult None false, None)
      | Ok (Some prev) => Ok (mk_TxnResult (Some prev) true, Some (tombstone (op_Key op) prev))
      end
  | TxnOpOther n => Err (Errorf "unknown TxnOpType: %d" [ArgZ n])
  end.

(** The loop over the operations, with the results and mutations so far.  Reads
    inside the transaction do not see the mutations it has buffered. *)
Fixpoint execOps (plan : list kv_row → list kv_row) (db : database) (ops : list TxnOp)
    (results : list TxnResult) (ms : list mutation) : res (list TxnResult * list mutation) :=
  match ops with
  | [] => Ok (results, ms)
  | op :: ops =>
      match execOp plan db op with
      | Err e => Err e
      | Ok (r, m) => execOps plan db ops (results ++ [r]) (ms ++ option_list m)
      end
  end.

(** [SELECT MAX(rev) FROM kv], as the revision it stands for (0 when NULL). *)
Definition q_max_rev (plan : list kv_row → list kv_row) (db : database) : Z :=
  match q_current plan db with
  | None => 0
  | Some r => tsToRev (r_rev r)
  end.

(** The captured variables start from their zero values in every attempt.  The
    values they keep when the callback fails are not read by [AtomicTxn]. *)
Definition atomic_body (compares : list TxnCompare) (successOps failureOps : list TxnOp) :
    txn_body txn_vars :=
  λ plan db _,
    match evalCompares plan db compares with
    | Err e => (Err e, mk_txn_vars true [] false 0 0)
    | Ok succeeded =>
        let ops := if succeeded then successOps else failureOps in
        match duplicateKey ∅ ops with
        | Some k => (Err (duplicateMutation k), mk_txn_vars succeeded [] false 0 0)
        | None =>
            match execOps plan db ops [] [] with
            | Err e => (Err e, mk_txn_vars succeeded [] false 0 0)
            | Ok (results, ms) =>
                let hasMutations := match ms with [] => false | _ => true end in
                (Ok ms, mk_txn_vars succeeded results hasMutations 0
                          (if hasMutations then 0 else q_max_rev plan db))
            end
        end
    end.

(** ** The operation: [(succeeded, results, commitRev)] *)

Section txn.
Context `{SP : Spanner}.

Definition AtomicTxn (compares : list TxnCompare) (successOps failureOps : list TxnOp) :
    ST world (res (bool * list TxnResult * Z)) :=
  match validateCompares compares with
  | Some e => mret (Err e)
  | None =>
      r ← read_write_txn (atomic_body compares successOps failureOps) txn_vars0;
      match r with
      | (Err txnErr, _) => mret (Err txnErr)
      | (Ok commitTs, v) =>
          if v_hasMutations v then
            let commitRev := tsToRev commitTs in
            _ ← (if 0 <? commitRev then notify commitRev else mret ());
            mret (Ok (v_succeeded v, v_results v, commitRev))
          else
            mret (Ok (v_succeeded v, v_results v,
                      if v_snapshotRev v =? 0 then 1 else v_snapshotRev v))
      end
  end.

End txn.

(** ** The transaction as a function of one snapshot *)

(** The value a key has in the log. *)
Definition current (rows : list kv_row) (k : string) : option KV := KV_of <$> live rows k.

Definition compares_hold (rows : list kv_row) (compares : list TxnCompare) : bool :=
  forallb (λ c, evaluate c (current rows (cmp_Key c))) compares.

Definition op_result (rows : list kv_row) (op : TxnOp) : TxnResult :=
  let prev := current rows (op_Key op) in
  match op_Type op with
  | TxnOpPut => mk_TxnResult prev true
  | _ => mk_TxnResult prev (match prev with Some _ => true | None => false end)
  end.

Definition op_mutation (rows : list kv_row) (op : TxnOp) : option mutation :=
  match op_Type op with
  | TxnOpPut => Some (put_mutation op (current rows (op_Key op)))
  | TxnOpDelete => tombstone (op_Key op) <$> current rows (op_Key op)
  | _ => None
  end.

(** The rows the operations append, as call [n]. *)
Definition txn_rows `{SP : Spanner} (n : nat) (rows : list kv_row) (ops : list TxnOp) : list kv_row :=
  rows_of (sp_ts n) (sp_seq n) (omap (op_mutation rows) ops).

Definition known (op : TxnOp) : Prop :=
  match op_Type op with TxnOpOther _ => False | _ => True end.

(** The check passes exactly the branches that mutate no key twice. *)
Lemma duplicateKey_None seen ops :
  duplicateKey seen ops = None ↔
  NoDup (op_Key <$> filter is_mutation ops) ∧
  ∀ k, k ∈ op_Key <$> filter is_mutation ops → k ∉ seen.
Proof.
  revert seen. induction ops as [|op ops IH]; intros seen; cbn [duplicateKey].
  { split; [|done]. intros _. split; [constructor|]. intros k Hk. by apply elem_of_nil in Hk. }
  rewrite filter_cons. destruct (is_mutation op) eqn:Hm; cbn [Is_true].
  - rewrite decide_True by done. cbn [fmap list_fmap]. rewrite NoDup_cons.
    case_bool.
    + split; [done|]. intros [_ H]. destruct (H (op_Key op)); [by left|done].
    + rewrite IH. split.
      * intros [Hnd Hout]. split_and!; [|done|].
        -- intros Hin. apply (Hout _ Hin). set_solver.
        -- intros k [->|Hk]%elem_of_cons; [done|]. specialize (Hout k Hk). set_solver.
      * intros [[Hop Hnd] Hout]. split; [done|]. intros k Hk [->%elem_of_singleton|Hs]%elem_of_union;
          [done|]. apply (Hout k); [by right|done].
  - by rewrite decide_False by (intros []).
Qed.

Section snapshot_semantics.
Context `{SP : Spanner} {Laws : SpannerLaws SP}.
Context (n : nat) (Hclock : sp_ts n < 2 ^ 63).

Section on_db.
Context (db : database) (Hwf : db_wf (sp_ts n) db).

Lemma getLatest_current key : getLatestTxn (sp_plan n) db key = Ok (current (kv db) key).
Proof using All. apply (getLatestTxn_eq _ (law_plan _) _ _ Hwf). lia. Qed.

Lemma evalCompares_eq compares :
  evalCompares (sp_plan n) db compares = Ok (compares_hold (kv db) compares).
Proof using All.
  induction compares as [|c compares IH]; cbn; [done|].
  rewrite getLatest_current. destruct (evaluate c _); [done|]. done.
Qed.

Lemma execOp_eq op :
  known op → execOp (sp_plan n) db op = Ok (op_result (kv db) op, op_mutation (kv db) op).
Proof using All.
  unfold known, execOp, op_result, op_mutation. rewrite getLatest_current.
  destruct (op_Type op); try done. by destruct (current (kv db) (op_Key op)).
Qed.

Lemma execOps_eq ops rs ms :
  Forall known ops →
  execOps (sp_plan n) db ops rs ms =
    Ok (rs ++ (op_result (kv db) <$> ops), ms ++ omap (op_mutation (kv db)) ops).
Proof using All.
  intros H. revert rs ms. induction H as [|op ops Hop _ IH]; intros rs ms; cbn.
  - by rewrite !app_nil_r.
  - rewrite execOp_eq by done. rewrite IH, <-!app_assoc. cbn.
    by destruct (op_mutation _ op).
Qed.

Lemma q_max_rev_eq :
  (if q_max_rev (sp_plan n) db =? 0 then 1 else q_max_rev (sp_plan n) db) = current_rev (kv db).
Proof using All.
  pose proof (q_current_eq (sp_plan n) (law_plan _) _ _ Hwf) as Hq. unfold q_max_rev, current_rev.
  destruct (q_current _ _) as [r|], (max_row _) as [r'|] eqn:E; simplify_eq/=; [|done].
  apply max_row_elem, (wf_row_bound _ _ Hwf) in E. rewrite Hq, tsToRev_id by lia.
  case_bool; [lia|done].
Qed.

Lemma atomic_body_eq compares successOps failureOps c :
  Forall known successOps → Forall known failureOps →
  let ok := compares_hold (kv db) compares in
  let ops := if ok then successOps else failureOps in
  let ms := omap (op_mutation (kv db)) ops in
  atomic_body compares successOps failureOps (sp_plan n) db c =
    match duplicateKey ∅ ops with
    | Some k => (Err (duplicateMutation k), mk_txn_vars ok [] false 0 0)
    | None =>
        (Ok ms, mk_txn_vars ok (op_result (kv db) <$> ops)
                  (match ms with [] => false | _ => true end) 0
                  (match ms with [] => q_max_rev (sp_plan n) db | _ => 0 end))
    end.
Proof using All.
  intros Hs Hf. unfold atomic_body. rewrite evalCompares_eq. cbn zeta.
  set (ok := compares_hold _ _). destruct (duplicateKey _ _); [done|].
  rewrite execOps_eq by by destruct ok. rewrite !app_nil_l. by destruct (omap _ _).
Qed.

(** What an operation appends is a legal next row of its key. *)
Lemma op_mutation_row ts id op m r :
  op_mutation (kv db) op = Some m → row_of ts id m = Some r →
  next_row ts (kv db) r ∧ r_key r = op_Key op ∧ is_mutation op.
Proof using All.
  unfold op_mutation, is_mutation, current.
  destruct (op_Type op); cbn; try done; destruct (live (kv db) (op_Key op)) as [p|] eqn:E;
    cbn; intros [= <-]; pose proof E as E'; try apply live_elem in E' as (Hin & _);
    try apply (wf_rows _ _ Hwf) in Hin.
  - unfold put_mutation. rewrite (row_of_update _ _ _ _ _ _ _ Hin). intros [= <-].
    rewrite <-E. split_and!; [apply next_put|done..].
  - cbn. intros [= <-]. split_and!; [|done..].
    apply (next_put_None ts (kv db) id (op_Key op) (op_Value op) (op_LeaseID op) E).
  - rewrite (row_of_tombstone _ _ _ _ _ Hin). intros [= <-]. split_and!; [by apply next_del|done..].
Qed.

Lemma op_mutation_insert op m : op_mutation (kv db) op = Some m → is_insert m.
Proof.
  unfold op_mutation. destruct (op_Type op); try done; [|destruct (current _ _)]; naive_solver.
Qed.

Lemma txn_mutations_insert ops : Forall is_insert (omap (op_mutation (kv db)) ops).
Proof.
  apply Forall_forall. intros m (op & _ & H)%list_elem_of_omap. by eapply op_mutation_insert.
Qed.

Lemma txn_rows_next ops : Forall (next_row (sp_ts n) (kv db)) (txn_rows n (kv db) ops).
Proof using All.
  apply Forall_forall. intros r (i & m & (op & _ & Hop)%list_elem_of_omap & Hr)%rows_of_elem.
  by eapply op_mutation_row.
Qed.

Lemma txn_rows_keys ops : NoDup (op_Key <$> filter is_mutation ops) → NoDup (r_key <$> txn_rows n (kv db) ops).
Proof using All.
  intros Hnd. eapply sublist_NoDup; [exact Hnd|]. clear Hnd.
  unfold txn_rows. generalize (sp_seq n). induction ops as [|op ops IH]; intros seq; [done|].
  cbn [omap list_omap]. rewrite filter_cons.
  destruct (op_mutation (kv db) op) as [m|] eqn:E; cbn [rows_of].
  - pose proof (op_mutation_insert _ _ E) as Hi. destruct (row_of (sp_ts n) (seq 0%nat) m) as [r|] eqn:Er;
      [|by destruct m].
    destruct (op_mutation_row _ _ _ _ _ E Er) as (_ & Hk & Hm).
    rewrite decide_True by done. cbn. rewrite Hk. by apply sublist_skip.
  - case_decide; [|done]. cbn. by apply sublist_cons.
Qed.

Lemma txn_rows_other ops k :
  (∀ op, op ∈ ops → is_mutation op → op_Key op ≠ k) → k ∉ r_key <$> txn_rows n (kv db) ops.
Proof using All.
  intros H (r & -> & (i & m & (op & Hop & Hm)%list_elem_of_omap & Hr)%rows_of_elem)%list_elem_of_fmap.
  destruct (op_mutation_row _ _ _ _ _ Hm Hr) as (_ & Hk & Hmut). by apply (H op).
Qed.

Lemma txn_rows_put ops op :
  op ∈ ops → op_Type op = TxnOpPut → ∃ id,
    put_row id (sp_ts n) (op_Key op) (op_Value op) (op_LeaseID op) (live (kv db) (op_Key op))
    ∈ txn_rows n (kv db) ops.
Proof using All.
  intros Hop Ht.
  destruct (rows_of_elem_2 (sp_ts n) (sp_seq n) (omap (op_mutation (kv db)) ops)
              (put_mutation op (current (kv db) (op_Key op)))) as (i & r & Hr & Hin); [|done|].
  { apply list_elem_of_omap. exists op. split; [done|]. unfold op_mutation. by rewrite Ht. }
  exists (sp_seq n i). unfold current, put_mutation in Hr.
  destruct (live (kv db) (op_Key op)) as [p|] eqn:E.
  - pose proof (live_elem _ _ _ E) as (Hp & _).
    cbn [fmap option_fmap option_map] in Hr.
    rewrite (row_of_update _ _ _ _ _ _ _ (wf_rows _ _ Hwf p Hp)) in Hr. by injection Hr as <-.
  - cbn in Hr. by injection Hr as <-.
Qed.

Lemma txn_rows_delete ops op p :
  op ∈ ops → op_Type op = TxnOpDelete → live (kv db) (op_Key op) = Some p → ∃ id,
    del_row id (sp_ts n) (op_Key op) p ∈ txn_rows n (kv db) ops.
Proof using All.
  intros Hop Ht E. pose proof (live_elem _ _ _ E) as (Hp & _).
  destruct (rows_of_elem_2 (sp_ts n) (sp_seq n) (omap (op_mutation (kv db)) ops)
              (tombstone (op_Key op) (KV_of p))) as (i & r & Hr & Hin); [|done|].
  { apply list_elem_of_omap. exists op. split; [done|]. unfold op_mutation, current. by rewrite Ht, E. }
  exists (sp_seq n i). rewrite (row_of_tombstone _ _ _ _ _ (wf_rows _ _ Hwf p Hp)) in Hr.
  by injection Hr as <-.
Qed.

End on_db.

Lemma atomic_retry_safe compares successOps failureOps :
  retry_safe n (atomic_body compares successOps failureOps).
Proof. done. Qed.

Lemma txn_commit db0 db ops :
  snapshot n db0 db → duplicateKey ∅ ops = None →
  apply_mutations (sp_ts n) (sp_seq n) (omap (op_mutation (kv db)) ops) db =
    Ok (set_kv (kv db ++ txn_rows n (kv db) ops) db) ∧
  commit_ok n db (set_kv (kv db ++ txn_rows n (kv db) ops) db).
Proof using All.
  intros Hs [Hnd _]%duplicateKey_None. split.
  - apply apply_inserts, txn_mutations_insert.
  - eapply commit_ok_writes; [done|apply txn_rows_next, Hs|apply txn_rows_keys; [apply Hs|done]|..].
    + apply rows_of_NoDup_id. intros i j E. by apply law_seq in E as [_ ?].
    + intros r Hr. by eapply rows_of_id.
Qed.

(** The state after the operations, seen through the current rows. *)
Record txn_effect (db : database) (ops : list TxnOp) (rows' : list kv_row) : Prop := {
  eff_put op : op ∈ ops → op_Type op = TxnOpPut → ∃ id,
    live rows' (op_Key op) =
      Some (put_row id (sp_ts n) (op_Key op) (op_Value op) (op_LeaseID op) (live (kv db) (op_Key op)));
  eff_delete op : op ∈ ops → op_Type op = TxnOpDelete → live rows' (op_Key op) = None;
  eff_other k : (∀ op, op ∈ ops → is_mutation op → op_Key op ≠ k) →
    live rows' k = live (kv db) k;
}.

Lemma txn_rows_effect db0 db ops :
  snapshot n db0 db → duplicateKey ∅ ops = None →
  txn_effect db ops (kv db ++ txn_rows n (kv db) ops).
Proof using All.
  intros Hs [Hnd _]%duplicateKey_None. pose proof (snap_wf _ _ _ Hs) as Hwf.
  destruct (snapshot_live_writes n db0 db (txn_rows n (kv db) ops) Hs
              (txn_rows_next _ Hwf _) (txn_rows_keys _ Hwf _ Hnd)) as [Hnew Hold].
  split.
  - intros op Hop Ht. destruct (txn_rows_put _ Hwf _ _ Hop Ht) as [id Hin].
    exists id. exact (Hnew _ Hin).
  - intros op Hop Ht. destruct (live (kv db) (op_Key op)) as [p|] eqn:E.
    + destruct (txn_rows_delete _ Hwf _ _ _ Hop Ht E) as [id Hin]. exact (Hnew _ Hin).
    + rewrite Hold; [done|]. intros (r & Hk & Hr)%list_elem_of_fmap.
      pose proof Hr as (i & m & (op' & Hop' & Hm)%list_elem_of_omap & Hrow)%rows_of_elem.
      destruct (op_mutation_row _ Hwf _ _ _ _ _ Hm Hrow) as (_ & Hk' & Hmut').
      assert (op' = op) as ->.
      { eapply (NoDup_fmap_inj_on op_Key); [exact Hnd|apply list_elem_of_filter..|congruence].
        - done.
        - split; [|done]. unfold is_mutation. by rewrite Ht. }
      unfold op_mutation, current in Hm. by rewrite Ht, E in Hm.
  - intros k Hk. apply Hold, (txn_rows_other _ Hwf), Hk.
Qed.

End snapshot_semantics.

(** ** Correctness *)

Section correctness.
Context `{SP : Spanner} {Laws : SpannerLaws SP}.

(** [AtomicTxn] is atomic.  There is one state of the database, between its
    call and its return, such that the compares are evaluated on it, the branch
    is chosen by it, every operation reads it, and all writes of the branch are
    appended to it at once under a single revision: each put key gets its new
    value, each deleted key is gone, every other key is untouched.  A branch that
    mutates a key twice is refused and writes nothing.  A branch without
    mutations answers with the revision of the state it read. *)
Lemma AtomicTxn_run compares successOps failureOps w :
  world_wf w → clock_ok 0 w → sp_fate (w_rpc w) = FOk →
  validateCompares compares = None → Forall known successOps → Forall known failureOps →
  ∃ db, snapshot (w_rpc w) (w_db w) db ∧
    let ok := compares_hold (kv db) compares in
    let ops := if ok then successOps else failureOps in
    let r := AtomicTxn compares successOps failureOps w in
    match duplicateKey ∅ ops with
    | Some k => r = (Err (duplicateMutation k), set_db db w)
    | None =>
        let new := txn_rows (w_rpc w) (kv db) ops in
        r.1 = Ok (ok, op_result (kv db) <$> ops,
                  match new with [] => current_rev (kv db) | _ => sp_ts (w_rpc w) end) ∧
        w_db r.2 = set_kv (kv db ++ new) db ∧
        (∀ x, x ∈ new → r_rev x = sp_ts (w_rpc w)) ∧
        txn_effect (w_rpc w) db ops (kv (w_db r.2))
    end.
Proof using All.
  intros Hw Hc Hf Hval Hsk Hfk. pose proof (ts_bounds _ _ Hc) as Ht.
  unfold AtomicTxn. rewrite Hval. unfold mbind, st_bind.
  destruct (read_write_txn_inv _ txn_vars0 w Hw
              (atomic_retry_safe (w_rpc w) compares successOps failureOps)) as (db & Hs & H).
  exists db. split; [done|]. cbn zeta.
  rewrite atomic_body_eq in H by (lia || done || apply Hs). cbn zeta in H.
  set (ok := compares_hold _ _) in *. set (ops := if ok then _ else _) in *.
  destruct (duplicateKey ∅ ops) as [k|] eqn:Hd.
  - destruct H as (e' & -> & ->%txn_error_ok); done.
  - destruct (txn_commit (w_rpc w) (proj2 Ht) _ _ _ Hs Hd) as [Ha _].
    pose proof (txn_rows_effect (w_rpc w) (proj2 Ht) _ _ _ Hs Hd) as Heff.
    pose proof (txn_rows_next (w_rpc w) (proj2 Ht) db ltac:(apply Hs) ops) as Hnext.
    rewrite H. unfold commit. rewrite Hf, Ha. cbn [fst snd v_hasMutations v_succeeded v_results v_snapshotRev].
    assert (∀ x, x ∈ txn_rows (w_rpc w) (kv db) ops → r_rev x = sp_ts (w_rpc w)) as Hrev.
    { intros x Hx. rewrite Forall_forall in Hnext. by eapply next_row_rev, Hnext. }
    unfold txn_rows in *. destruct (omap _ ops) as [|m ms] eqn:Em.
    + cbn [rows_of] in *. unfold mret, st_ret. cbn [fst snd].
      rewrite (q_max_rev_eq (w_rpc w) (proj2 Ht) _ (snap_wf _ _ _ Hs)). done.
    + pose proof (txn_mutations_insert db ops) as Hi. rewrite Em in Hi.
      apply Forall_cons in Hi as [Hi _]. rewrite tsToRev_id by lia.
      destruct (0 <? sp_ts (w_rpc w)) eqn:E0; bool_prop; [|lia].
      pose proof (notify_db (sp_ts (w_rpc w)) (set_db (set_kv (kv db ++ rows_of (sp_ts (w_rpc w))
        (sp_seq (w_rpc w)) (m :: ms)) db) w)) as Hn.
      destruct (notify _ _) as [u w']. cbn [snd] in Hn. unfold mret, st_ret. cbn [fst snd].
      rewrite Hn. split_and!; [|done..]. by destruct m.
Qed.

Lemma AtomicTxn_guarantee compares successOps failureOps w :
  world_wf w → clock_ok 0 w → Forall known successOps → Forall known failureOps →
  guarantee w (AtomicTxn compares successOps failureOps w).2.
Proof using All.
  intros Hw Hc Hsk Hfk. pose proof (ts_bounds _ _ Hc) as Ht. unfold AtomicTxn.
  destruct (validateCompares compares); [by apply guarantee_refl|]. unfold mbind, st_bind.
  assert (guarantee w (read_write_txn (atomic_body compares successOps failureOps) txn_vars0 w).2) as H.
  { apply read_write_txn_guarantee; [done|apply atomic_retry_safe|].
    intros db ms c' Hs. rewrite atomic_body_eq by (lia || done || apply Hs). cbn zeta.
    destruct (duplicateKey _ _) as [k|] eqn:Hd; [done|]. intros [= <- <-].
    eexists. apply (txn_commit (w_rpc w) (proj2 Ht) _ _ _ Hs Hd). }
  destruct (read_write_txn _ _ w) as [[[ts|e] v] w']; cbn [fst snd] in *; [|done].
  destruct (v_hasMutations v); [|done]. case_bool; [|done].
  pose proof (notify_guarantee (tsToRev ts) _ _ H). by destruct (notify _ _).
Qed.

End correctness.
