(* ===== verification/StoreSpec.v ===== *)
(** * The store's contract: a map from keys to their current values

    [view] abstracts the log to the map it stands for; [spec_put], [spec_create],
    [spec_update], [spec_delete], [spec_delete_if_lease] and [spec_txn] are the
    operations on that map.  Each write of the store is shown to perform its
    specification on the map of one state of the database it saw. *)

From Stdlib Require Import Ascii String.
From S2P Require Import Prelude Go Spanner Rows Invariant Sim StoreRead StoreWrite StoreTxn.

(** ** Abstract state *)

Abbreviation kvmap := (gmap string KV).

Definition view (rows : list kv_row) : kvmap :=
  foldr (λ r m, match live rows (r_key r) with
                | Some x => <[r_key r := KV_of x]> m
                | None => m
                end) ∅ rows.

Lemma view_lookup rows k : view rows !! k = KV_of <$> live rows k.
Proof.
  unfold view. destruct (live rows k) as [x|] eqn:E.
  - pose proof (live_elem _ _ _ E) as (Hx & Hk & _). revert Hx. generalize rows at 1 3 as l.
    induction l as [|r l IH]; [by rewrite elem_of_nil|]. intros [->|Hx]%elem_of_cons; cbn.
    + rewrite Hk, E. by rewrite lookup_insert_eq.
    + destruct (decide (r_key r = k)) as [->|Hne].
      * rewrite E. by rewrite lookup_insert_eq.
      * destruct (live rows (r_key r)); [rewrite lookup_insert_ne by done|]; auto.
  - generalize rows at 2 as l. induction l as [|r l IH]; [done|]. cbn.
    destruct (decide (r_key r = k)) as [->|Hne]; [by rewrite E|].
    destruct (live rows (r_key r)); [rewrite lookup_insert_ne by done|]; auto.
Qed.

Lemma view_ext rows rows' : (∀ k, live rows k = live rows' k) → view rows = view rows'.
Proof. intros H. apply map_eq. intros k. by rewrite !view_lookup, H. Qed.

(** ** Abstract operations *)

Section spec.
Context (ts : Z).

Definition spec_put (k : string) (v : option string) (lease : Z) (m : kvmap) : kvmap :=
  <[k := match m !! k with
         | Some p => mk_KV k v (Value p) lease false false ts (CreateRevision p) (Rev p)
         | None => mk_KV k v None lease false true ts ts 0
         end]> m.

Definition spec_create (k : string) (v : option string) (lease : Z) (m : kvmap) : res Z * kvmap :=
  match m !! k with
  | Some _ => (Err ErrKeyExists, m)
  | None => (Ok ts, spec_put k v lease m)
  end.

(** The previous value, whether the write happened, and the new map. *)
Definition spec_update (k : string) (v : option string) (revision lease : Z) (m : kvmap) :
    option KV * bool * kvmap :=
  match m !! k with
  | Some p => if Rev p =? revision then (Some p, true, spec_put k v lease m) else (Some p, false, m)
  | None => (None, false, m)
  end.

Definition spec_delete (k : string) (revision : Z) (m : kvmap) : option KV * bool * kvmap :=
  match m !! k with
  | Some p => if (revision =? 0) || (Rev p =? revision) then (Some p, true, delete k m)
              else (Some p, false, m)
  | None => (None, false, m)
  end.

Definition spec_delete_if_lease (k : string) (lease : Z) (m : kvmap) : bool * kvmap :=
  match m !! k with
  | Some p => if LeaseID p =? lease then (true, delete k m) else (false, m)
  | None => (false, m)
  end.

Definition spec_op (m : kvmap) (op : TxnOp) : kvmap :=
  match op_Type op with
  | TxnOpPut => spec_put (op_Key op) (op_Value op) (op_LeaseID op) m
  | TxnOpDelete => delete (op_Key op) m
  | _ => m
  end.

Definition spec_result (m : kvmap) (op : TxnOp) : TxnResult :=
  let prev := m !! op_Key op in
  mk_TxnResult prev (match op_Type op, prev with TxnOpPut, _ => true | _, Some _ => true | _, None => false end).

(** A transaction: compares and results on the map it starts from, operations
    applied one after the other. *)
Definition spec_txn (compares : list TxnCompare) (successOps failureOps : list TxnOp) (m : kvmap) :
    bool * list TxnResult * kvmap :=
  let ok := forallb (λ c, evaluate c (m !! cmp_Key c)) compares in
  let ops := if ok then successOps else failureOps in
  (ok, spec_result m <$> ops, foldl spec_op m ops).

End spec.

(** ** Rows and the map *)

Lemma KV_of_put id ts k v lease p :
  KV_of (put_row id ts k v lease p) =
  match KV_of <$> p with
  | Some q => mk_KV k v (Value q) lease false false ts (CreateRevision q) (Rev q)
  | None => mk_KV k v None lease false true ts ts 0
  end.
Proof. by destruct p as [q|]. Qed.

Lemma view_put rows rows' id ts k v lease :
  live rows' k = Some (put_row id ts k v lease (live rows k)) →
  (∀ k', k' ≠ k → live rows' k' = live rows k') →
  view rows' = spec_put ts k v lease (view rows).
Proof.
  intros Hk Ho. apply map_eq. intros k'. unfold spec_put. rewrite !view_lookup.
  destruct (decide (k' = k)) as [->|Hne].
  - rewrite Hk, lookup_insert_eq. cbn [fmap option_fmap option_map]. f_equal.
    rewrite KV_of_put. by destruct (live rows k).
  - rewrite lookup_insert_ne by done. by rewrite view_lookup, Ho.
Qed.

Lemma view_delete rows rows' k :
  live rows' k = None → (∀ k', k' ≠ k → live rows' k' = live rows k') →
  view rows' = delete k (view rows).
Proof.
  intros Hk Ho. apply map_eq. intros k'. rewrite view_lookup.
  destruct (decide (k' = k)) as [->|Hne].
  - by rewrite Hk, lookup_delete_eq.
  - by rewrite lookup_delete_ne, view_lookup, Ho.
Qed.

(** Operations on distinct keys commute with looking one of them up. *)
Lemma spec_op_other ts m op k : ¬ (is_mutation op ∧ op_Key op = k) → spec_op ts m op !! k = m !! k.
Proof.
  unfold spec_op, is_mutation, spec_put. intros H.
  destruct (op_Type op); rewrite ?lookup_insert_ne, ?lookup_delete_ne; naive_solver.
Qed.

Lemma spec_op_local ts m m' op :
  m !! op_Key op = m' !! op_Key op → spec_op ts m op !! op_Key op = spec_op ts m' op !! op_Key op.
Proof.
  unfold spec_op, spec_put. intros Hm. rewrite Hm.
  destruct (op_Type op) eqn:E; rewrite ?lookup_insert_eq, ?lookup_delete_eq; done.
Qed.

Lemma foldl_spec_other ts m ops k :
  (∀ op, op ∈ ops → is_mutation op → op_Key op ≠ k) → foldl (spec_op ts) m ops !! k = m !! k.
Proof.
  revert m. induction ops as [|op ops IH]; intros m H; [done|]. cbn.
  rewrite IH by (intros; apply H; [by right|done]).
  apply spec_op_other. intros [Hm Hk]. by apply (H op); [left|..].
Qed.

Lemma foldl_spec_in ts m ops op :
  NoDup (op_Key <$> filter is_mutation ops) → op ∈ ops → is_mutation op →
  foldl (spec_op ts) m ops !! op_Key op = spec_op ts m op !! op_Key op.
Proof.
  revert m. induction ops as [|o ops IH]; intros m Hnd Hin Hm; [by apply elem_of_nil in Hin|].
  cbn. rewrite filter_cons in Hnd. apply elem_of_cons in Hin as [->|Hin].
  - rewrite decide_True in Hnd by done. cbn in Hnd. apply NoDup_cons in Hnd as [Hn _].
    apply foldl_spec_other. intros op' Hop' Hm' E. apply Hn. rewrite <-E.
    apply list_elem_of_fmap_2, list_elem_of_filter. done.
  - assert (NoDup (op_Key <$> filter is_mutation ops)) as Hnd'.
    { case_decide; [|done]. cbn in Hnd. by apply NoDup_cons in Hnd as [_ ?]. }
    rewrite IH by done. apply spec_op_local, spec_op_other. intros [Ho Hk].
    rewrite decide_True in Hnd by done. cbn in Hnd. apply NoDup_cons in Hnd as [Hn _]. apply Hn.
    rewrite Hk. apply list_elem_of_fmap_2, list_elem_of_filter. done.
Qed.

Section refinement.
Context `{SP : Spanner} `{!SpannerLaws SP}.

Lemma appended_put_view db id ts k v lease w' :
  appended db (put_row id ts k v lease (live (kv db) k)) w' →
  view (kv (w_db w')) = spec_put ts k v lease (view (kv db)).
Proof. intros (_ & Hn & Ho). eapply view_put; [exact Hn|exact Ho]. Qed.

Lemma appended_del_view db id ts k p w' :
  appended db (del_row id ts k p) w' → view (kv (w_db w')) = delete k (view (kv db)).
Proof. intros (_ & Hn & Ho). by apply view_delete. Qed.

(** The log of [w'] is that of [db] and one more row. *)
Definition one_row (db : database) (w' : world) : Prop :=
  ∃ r, w_db w' = set_kv (kv db ++ [r]) db.

(** C9: [Create] performs [spec_create] on the map of one state of the database
    it saw: an existing key is refused and nothing is written; otherwise one row
    is appended at the commit timestamp, which is returned as the revision and
    becomes both revisions of the key, and no other key changes. *)
Theorem Create_refines key value leaseID w :
  world_wf w → clock_ok 0 w → sp_fate (w_rpc w) = FOk →
  ∃ db, snapshot (w_rpc w) (w_db w) db ∧
    let '(r, w') := Create key value leaseID w in
    (r, view (kv (w_db w'))) = spec_create (sp_ts (w_rpc w)) key value leaseID (view (kv db)) ∧
    if is_ok r then one_row db w' else w' = set_db db w.
Proof using All.
  intros Hw Hc Hf. destruct (Create_run key value leaseID w Hw Hc Hf) as (db & Hs & H).
  exists db. split; [done|]. unfold spec_create. rewrite view_lookup.
  destruct (live (kv db) key) as [p|] eqn:E; [by rewrite H|].
  destruct (Create _ _ _ w) as [r w']. destruct H as [Hr Ha]. cbn [fst snd] in *. subst r.
  rewrite <-E in Ha. cbn [is_ok]. rewrite (appended_put_view _ _ _ _ _ _ _ Ha).
  split; [done|]. eexists. apply Ha.
Qed.

(** C8: [Update] performs [spec_update], a compare-and-swap: it writes iff the
    key exists at exactly the expected revision, and then appends one row that
    keeps the create revision and records the value and revision it replaced;
    otherwise it writes nothing, answers [ok = false] with the current revision,
    and returns what it found. *)
Theorem Update_refines key value revision leaseID w :
  world_wf w → clock_ok 1 w → calls_ok 2 w →
  ∃ db, snapshot (w_rpc w) (w_db w) db ∧
    let '(prev, ok, m') := spec_update (sp_ts (w_rpc w)) key value revision leaseID (view (kv db)) in
    let '(r, w') := Update key value revision leaseID w in
    if ok then r = Ok (sp_ts (w_rpc w), prev, true) ∧ view (kv (w_db w')) = m' ∧ one_row db w'
    else r = Ok (current_rev (kv (w_db w')), prev, false) ∧ w' = next (set_db db w).
Proof using All.
  intros Hw Hc Hf. destruct (Update_run key value revision leaseID w Hw Hc Hf) as (db & Hs & H).
  exists db. split; [done|]. unfold spec_update. rewrite view_lookup.
  destruct (live (kv db) key) as [p|] eqn:E; cbn [fmap option_fmap option_map]; [|by rewrite H].
  change (Rev (KV_of p)) with (r_rev p). destruct (r_rev p =? revision); [|by rewrite H].
  destruct (Update _ _ _ _ w) as [r w']. destruct H as [Hr Ha]. cbn [fst snd] in *. subst r.
  rewrite <-E in Ha. split_and!; [done|by eapply appended_put_view|]. eexists. apply Ha.
Qed.

(** C10: [Delete] performs [spec_delete]: it removes the key, by appending one
    tombstone, iff the key exists and the expected revision is 0 or matches, and
    returns the removed value; otherwise nothing is written. *)
Theorem Delete_refines key revision w :
  world_wf w → clock_ok 1 w → calls_ok 2 w →
  ∃ db, snapshot (w_rpc w) (w_db w) db ∧
    let '(prev, ok, m') := spec_delete key revision (view (kv db)) in
    let '(r, w') := Delete key revision w in
    if ok then r = Ok (sp_ts (w_rpc w), prev, true) ∧ view (kv (w_db w')) = m' ∧ one_row db w'
    else r = Ok (current_rev (kv (w_db w')), prev, false) ∧ w' = next (set_db db w).
Proof using All.
  intros Hw Hc Hf. destruct (Delete_run key revision w Hw Hc Hf) as (db & Hs & H).
  exists db. split; [done|]. unfold spec_delete. rewrite view_lookup.
  destruct (live (kv db) key) as [p|] eqn:E; cbn [fmap option_fmap option_map]; [|by rewrite H].
  change (Rev (KV_of p)) with (r_rev p). destruct ((revision =? 0) || _); [|by rewrite H].
  destruct (Delete _ _ w) as [r w']. destruct H as [Hr Ha]. cbn [fst snd] in *. subst r.
  split_and!; [done|by eapply appended_del_view|]. eexists. apply Ha.
Qed.

(** [DeleteIfLease] performs [spec_delete_if_lease]: check and tombstone see
    the same state, so a key moved to another lease meanwhile is never deleted. *)
Theorem DeleteIfLease_refines key leaseID w :
  world_wf w → clock_ok 0 w → sp_fate (w_rpc w) = FOk →
  ∃ db, snapshot (w_rpc w) (w_db w) db ∧
    let '(deleted, m') := spec_delete_if_lease key leaseID (view (kv db)) in
    let '(r, w') := DeleteIfLease key leaseID w in
    r = Ok deleted ∧ view (kv (w_db w')) = m' ∧
    if deleted then one_row db w' else w' = set_db db w.
Proof using All.
  intros Hw Hc Hf. destruct (DeleteIfLease_run key leaseID w Hw Hc Hf) as (db & Hs & H).
  exists db. split; [done|]. unfold spec_delete_if_lease. rewrite view_lookup.
  destruct (live (kv db) key) as [p|] eqn:E; cbn [fmap option_fmap option_map]; [|by rewrite H].
  pose proof (live_elem _ _ _ E) as (Hin & _).
  destruct (rw_lease _ _ (wf_rows _ _ (snap_wf _ _ _ Hs) p Hin)) as [l Hl].
  change (LeaseID (KV_of p)) with (default 0 (r_lease_id p)). rewrite Hl in *. cbn [default from_option id].
  destruct (l =? leaseID) eqn:El; bool_prop.
  - rewrite bool_decide_true in H by congruence.
    destruct (DeleteIfLease _ _ w) as [r w']. destruct H as [Hr Ha]. cbn [fst snd] in *. subst r.
    split_and!; [done|by eapply appended_del_view|]. eexists. apply Ha.
  - rewrite bool_decide_false in H by congruence. by rewrite H.
Qed.

Lemma txn_effect_view n db ops rows' :
  NoDup (op_Key <$> filter is_mutation ops) → txn_effect n db ops rows' →
  view rows' = foldl (spec_op (sp_ts n)) (view (kv db)) ops.
Proof.
  intros Hnd [Hput Hdel Hoth]. apply map_eq. intros k. rewrite view_lookup.
  destruct (decide (k ∈ op_Key <$> filter is_mutation ops)) as [Hk|Hk].
  - apply list_elem_of_fmap in Hk as (op & -> & [Hm Hop]%list_elem_of_filter).
    rewrite foldl_spec_in by done. unfold spec_op, spec_put. unfold is_mutation in Hm.
    destruct (op_Type op) eqn:Ht; try done.
    + destruct (Hput op Hop Ht) as [id ->]. rewrite lookup_insert_eq, view_lookup.
      cbn [fmap option_fmap option_map]. f_equal. rewrite KV_of_put. by destruct (live _ _).
    + rewrite (Hdel op Hop Ht). by rewrite lookup_delete_eq.
  - assert (∀ op, op ∈ ops → is_mutation op → op_Key op ≠ k) as H.
    { intros op Hop Hm <-. apply Hk, list_elem_of_fmap_2, list_elem_of_filter. done. }
    rewrite foldl_spec_other by done. by rewrite Hoth, view_lookup.
Qed.

Lemma op_result_view rows op : op_result rows op = spec_result (view rows) op.
Proof.
  unfold op_result, spec_result, current. rewrite view_lookup. by destruct (op_Type op), (live rows _).
Qed.

(** C1: [AtomicTxn] is atomic and serializable: it performs [spec_txn] on the map
    of one single state of the database between its call and its return.  The
    compares, the choice of the branch and every result come from that state, all
    writes of the branch take effect together under one revision, which is
    returned, and a branch without effect returns the revision of the state it
    read and writes nothing.  A branch that mutates a key twice is refused and
    writes nothing; without duplicates the order of the operations does not
    matter. *)
Theorem AtomicTxn_refines compares successOps failureOps w :
  world_wf w → clock_ok 0 w → sp_fate (w_rpc w) = FOk →
  validateCompares compares = None → Forall known successOps → Forall known failureOps →
  ∃ db, snapshot (w_rpc w) (w_db w) db ∧
    let '(ok, results, m') :=
      spec_txn (sp_ts (w_rpc w)) compares successOps failureOps (view (kv db)) in
    let ops := if ok then successOps else failureOps in
    let '(r, w') := AtomicTxn compares successOps failureOps w in
    match duplicateKey ∅ ops with
    | Some k => r = Err (duplicateMutation k) ∧ w' = set_db db w
    | None =>
        view (kv (w_db w')) = m' ∧
        ∃ new, w_db w' = set_kv (kv db ++ new) db ∧
          (∀ x, x ∈ new → r_rev x = sp_ts (w_rpc w)) ∧
          r = Ok (ok, results, match new with [] => current_rev (kv db) | _ => sp_ts (w_rpc w) end)
    end.
Proof using All.
  intros Hw Hc Hf Hv Hs1 Hs2.
  destruct (AtomicTxn_run compares successOps failureOps w Hw Hc Hf Hv Hs1 Hs2) as (db & Hs & H).
  exists db. split; [done|]. unfold spec_txn.
  assert (forallb (λ c, evaluate c (view (kv db) !! cmp_Key c)) compares =
          compares_hold (kv db) compares) as ->.
  { unfold compares_hold, current. clear. induction compares as [|c l IH]; [done|]. cbn.
    by rewrite view_lookup, IH. }
  cbn zeta in H. set (ok := compares_hold _ _) in *. set (ops := if ok then _ else _) in *.
  assert (spec_result (view (kv db)) <$> ops = op_result (kv db) <$> ops) as ->.
  { apply list_fmap_ext. intros. symmetry. apply op_result_view. }
  destruct (AtomicTxn _ _ _ w) as [r w']. cbn [fst snd] in H.
  destruct (duplicateKey ∅ ops) as [k|] eqn:Hd; [by injection H as -> ->|].
  destruct H as (Hr & Hdb & Hrev & Heff). apply duplicateKey_None in Hd as [Hnd _].
  split; [by apply txn_effect_view|]. eauto.
Qed.

End refinement.

(** ** Concrete runs *)

Lemma Create_refines_witness :
  (Create (SP := solo) "k" (Some "c"%string) 0 run1).1 = Err ErrKeyExists ∧
  ∃ db, snapshot (SP := solo) 0 empty_db db ∧
    let '(r, w') := Create (SP := solo) "k" (Some "a"%string) 0 (world_of empty_db) in
    (r, view (kv (w_db w'))) = spec_create 100 "k" (Some "a"%string) 0 (view (kv db)).
Proof.
  split; [vm_compute; reflexivity|].
  destruct (@Create_refines solo solo_laws "k" (Some "a"%string) 0 (world_of empty_db)
              solo_start (sim_clock _ _ 0 (world_of empty_db) eq_refl) eq_refl) as (db & Hs & H).
  exists db. split; [exact Hs|]. destruct (Create _ _ _ _) as [r w']. apply H.
Defined.

(** In the second run another client puts the key right before the [Update]. *)
Lemma Update_refines_witness :
  (Update (SP := solo) "k" (Some "b"%string) 100 0 run1).1 =
    Ok (110, Some (mk_KV "k" (Some "a"%string) None 0 false true 100 100 0), true) ∧
  (Update (SP := rival 1 "k" (Some "x"%string)) "k" (Some "b"%string) 100 0 run1).1 =
    Ok (105, Some (mk_KV "k" (Some "x"%string) (Some "a"%string) 0 false false 105 100 100), false) ∧
  ∃ db, snapshot (SP := solo) 1 (w_db run1) db ∧
    (view (kv db) !! "k"%string = None →
     (Update (SP := solo) "k" (Some "b"%string) 100 0 run1).1 = Ok (current_rev (kv db), None, false)).
Proof.
  split; [vm_compute; reflexivity|]. split; [vm_compute; reflexivity|].
  destruct (@Update_refines solo solo_laws "k" (Some "b"%string) 100 0 run1
              run1_wf (sim_clock _ _ 1 run1 eq_refl) (sim_calls _ 2 run1)) as (db & Hs & H).
  exists db. split; [exact Hs|]. intros E. unfold spec_update in H. rewrite E in H.
  destruct (Update _ _ _ _ _) as [r w']. destruct H as [-> ->]. reflexivity.
Defined.

Lemma Delete_refines_witness :
  (Delete (SP := solo) "k" 0 run2).1 =
    Ok (120, Some (mk_KV "k" (Some "b"%string) (Some "a"%string) 0 false false 110 100 100), true) ∧
  ∃ db, snapshot (SP := solo) 2 (w_db run2) db ∧
    (view (kv db) !! "k"%string = None →
     (Delete (SP := solo) "k" 0 run2).1 = Ok (current_rev (kv db), None, false)).
Proof.
  split; [vm_compute; reflexivity|].
  destruct (@Delete_refines solo solo_laws "k" 0 run2
              run2_wf (sim_clock _ _ 1 run2 eq_refl) (sim_calls _ 2 run2)) as (db & Hs & H).
  exists db. split; [exact Hs|]. intros E. unfold spec_delete in H. rewrite E in H.
  destruct (Delete _ _ _) as [r w']. destruct H as [-> ->]. reflexivity.
Defined.

Lemma DeleteIfLease_refines_witness :
  (DeleteIfLease (SP := solo) "k" 0 run2).1 = Ok true ∧
  (DeleteIfLease (SP := solo) "k" 7 run2).1 = Ok false ∧
  ∃ db, snapshot (SP := solo) 2 (w_db run2) db ∧
    (DeleteIfLease (SP := solo) "k" 7 run2).1 = Ok (spec_delete_if_lease "k" 7 (view (kv db))).1.
Proof.
  split; [vm_compute; reflexivity|]. split; [vm_compute; reflexivity|].
  destruct (@DeleteIfLease_refines solo solo_laws "k" 7 run2
              run2_wf (sim_clock _ _ 0 run2 eq_refl) eq_refl) as (db & Hs & H).
  exists db. split; [exact Hs|]. destruct (spec_delete_if_lease _ _ _) as [d m'].
  destruct (DeleteIfLease _ _ _) as [r w']. destruct H as [-> _]. reflexivity.
Defined.

(** A compare that always holds, and a branch that moves a value. *)
Definition always (key : string) : TxnCompare := mk_TxnCompare key (Some (λ _, true)) None.
Definition move_ops : list TxnOp :=
  [mk_TxnOp TxnOpDelete "k" None 0; mk_TxnOp TxnOpPut "l" (Some "b"%string) 0].

Lemma AtomicTxn_refines_witness :
  (AtomicTxn (SP := solo) [always "k"] move_ops [] run2).1 =
    Ok (true, [mk_TxnResult (Some (mk_KV "k" (Some "b"%string) (Some "a"%string) 0 false false 110 100 100)) true;
               mk_TxnResult None true], 120) ∧
  ∃ db, snapshot (SP := solo) 2 (w_db run2) db ∧
    view (kv (w_db (AtomicTxn (SP := solo) [always "k"] move_ops [] run2).2)) =
      spec_put 120 "l" (Some "b"%string) 0 (delete "k"%string (view (kv db))).
Proof.
  split; [vm_compute; reflexivity|].
  destruct (@AtomicTxn_refines solo solo_laws [always "k"] move_ops [] run2 run2_wf
              (sim_clock _ _ 0 run2 eq_refl) eq_refl eq_refl) as (db & Hs & H).
  { repeat constructor. }
  { constructor. }
  exists db. split; [exact Hs|].
  cbn [spec_txn forallb always cmp_Key] in H. destruct (AtomicTxn _ _ _ _) as [r w'].
  destruct H as [H _]. exact H.
Defined.
