(* ===== verification/Reads.v ===== *)
(** * What the reads of pkg/store/store.go return

    [Get], [List], [Count] and [After] against the reference definitions of
    [Rows], with the interference of other replicas between the statements one
    call makes. *)

From Stdlib Require Import Ascii String.
From S2P Require Import Prelude Go Spanner Rows Invariant Sim StoreRead StoreWrite.

(** ** Commits only add newer rows *)

Lemma current_rev_max rows : current_rev rows = 1 ∨ ∃ r, r ∈ rows ∧ r_rev r = current_rev rows.
Proof.
  unfold current_rev. destruct (max_row rows) as [m|] eqn:E; [|by left].
  right. exists m. split; [by apply max_row_elem|done].
Qed.

Lemma current_rev_upper rows r : r ∈ rows → r_rev r ≤ current_rev rows.
Proof.
  intros Hr. unfold current_rev. destruct (max_row rows) as [m|] eqn:E.
  - apply max_row_Some in E as [_ H]. auto.
  - apply max_row_None in E as ->. by apply elem_of_nil in Hr.
Qed.

(** [db'] has, besides rows of [db], only rows newer than all of [db]. *)
Definition grows (db db' : database) : Prop :=
  current_rev (kv db) ≤ current_rev (kv db') ∧
  ∀ r, r ∈ kv db' → r ∈ kv db ∨ current_rev (kv db) < r_rev r.

Lemma grows_step T ts db db' : db_wf T db → db_step ts db db' → grows db db'.
Proof.
  intros Hwf Hs.
  destruct Hs as [new Hn _ _ Hts Hlt|ids Hdel|c|m|m]; unfold grows; cbn; try (split; [lia|by left]).
  - rewrite Forall_forall in Hn.
    assert (current_rev (kv db) < ts) as Hcur.
    { destruct (current_rev_max (kv db)) as [->|(r & Hr & <-)]; [done|auto]. }
    split.
    + destruct (current_rev_max (kv db)) as [->|(r & Hr & <-)].
      * destruct (current_rev_max (kv db ++ new)) as [->|(r & Hr & <-)]; [done|].
        apply elem_of_app in Hr as [Hr|Hr]; [by apply (wf_rows _ _ Hwf) in Hr as [? _ _ _ _ _]; lia|].
        rewrite (next_row_rev _ _ _ (Hn r Hr)). lia.
      * apply current_rev_upper, elem_of_app. by left.
    + intros r [Hr|Hr]%elem_of_app; [by left|right]. by rewrite (next_row_rev _ _ _ (Hn r Hr)).
  - rewrite (current_rev_delete _ _ Hdel). split; [done|].
    intros r [_ Hr]%list_elem_of_filter. by left.
Qed.

Lemma grows_reach T db db' : db_wf T db → reach T db db' → grows db db'.
Proof.
  intros Hwf H. revert Hwf.
  induction H as [db|a b c (t & Ht & Hs) Hr IH]; intros Hwf; [by split; [|left]|].
  pose proof (grows_step _ _ _ _ Hwf Hs) as [H1 H2].
  destruct (IH (db_step_wf _ _ _ _ Hwf Ht Hs)) as [H3 H4]. split; [lia|].
  intros r Hr'. destruct (H4 r Hr') as [Hb|Hb]; [|right; lia].
  destruct (H2 r Hb) as [|]; [by left|right; lia].
Qed.

(** A read capped at an earlier current revision sees that earlier state, as long
    as no row of the key has been removed. *)
Lemma latest_at_grows T db db' k :
  db_wf T db → db_wf T db' → grows db db' → (∀ r, r ∈ kv db → r_key r = k → r ∈ kv db') →
  latest_at (kv db') k (current_rev (kv db)) = latest (kv db) k.
Proof.
  intros Hwf Hwf' [_ Hg] Hsub. destruct (latest (kv db) k) as [m|] eqn:E.
  - apply latest_Some in E as (Hm & Hk & Hmax). apply latest_at_intro; [apply Hwf'|auto..|].
    + by apply current_rev_upper.
    + intros r' Hr' Hk' Hc. destruct (Hg r' Hr') as [?|?]; [auto|lia].
  - destruct (latest_at _ _ _) as [m|] eqn:E'; [exfalso|done].
    apply latest_at_Some in E' as (Hm & Hk & Hc & _). rewrite latest_None in E.
    destruct (Hg m Hm) as [?|?]; [|lia]. by apply (E m).
Qed.

(** ** Properties *)

Section properties.
Context `{SP : Spanner} `{!SpannerLaws SP}.

Lemma Get_negative key revision w : revision ≤ 0 → Get key revision w = Get key 0 w.
Proof. intros H. unfold Get, get_at, revCap. assert ((0 <? revision) = false) as -> by (apply Z.ltb_ge; lia). done. Qed.

(** The rows of a key a capped read finds after other replicas went on: those of the
    state whose current revision is the cap, unless one of them was compacted away. *)
Lemma live_at_seen key w :
  world_wf w → (∀ r, r ∈ kv (seen w) → r_key r = key → r ∈ kv (seen (next w))) →
  live_at (kv (seen (next w))) key (current_rev (kv (seen w))) = live (kv (seen w)) key.
Proof using All.
  intros Hw Hsub. pose proof (seen_snapshot _ (next_wf w Hw)) as [Hwf' _ Hr].
  assert (db_wf (sp_ts (w_rpc (next w))) (seen w)) as Hwf by apply (ww_db _ (next_wf w Hw)).
  unfold live_at, live. by rewrite (latest_at_grows _ _ _ _ Hwf Hwf' (grows_reach _ _ _ Hwf Hr) Hsub).
Qed.

(** C16: [Get] with other replicas writing between its statements, none of which fails.
    Without a revision it answers with the current revision its first statement sees and
    the row the key has at that revision in the log its second statement sees, which is
    the row it had in the state of the first statement unless a compaction removed a row
    of the key in between (none when the key does not exist or its latest row is a
    tombstone).  With a revision it refuses a compacted one, and answers with the row of
    that revision otherwise. *)
Theorem Get_correct key revision w :
  world_wf w → clock_ok 2 w → calls_ok 3 w →
  let cur := current_rev (kv (seen w)) in
  if 0 <? revision then
    let compactRev := compact_rev (seen (next w)) in
    (Get key revision w).1 =
      (cur, if (1 <? compactRev) && (revision <=? compactRev) then Err ErrCompacted
            else Ok (KV_of <$> live_at (kv (seen (next (next w)))) key revision))
  else
    (Get key revision w).1 = (cur, Ok (KV_of <$> live_at (kv (seen (next w))) key cur)) ∧
    ((∀ r, r ∈ kv (seen w) → r_key r = key → r ∈ kv (seen (next w))) →
     (Get key revision w).1 = (cur, Ok (KV_of <$> live (kv (seen w)) key))).
Proof using All.
  intros Hw Hc Hf. cbn zeta. destruct (0 <? revision) eqn:E; bool_prop.
  - rewrite Get_at_ok by done. cbn zeta. by case_bool.
  - rewrite Get_negative, Get_current_ok by (done || (eapply clock_ok_later; [exact Hc|lia]) || (intros i Hi; apply Hf; lia)).
    split; [done|]. intros Hsub. cbn [fst]. by rewrite live_at_seen.
Qed.

(** Undisturbed, [Get] reads the present. *)
Lemma Get_quiet key w :
  world_wf w → clock_ok 1 w → quiet w →
  Get key 0 w = (current_rev (kv (w_db w)), Ok (KV_of <$> live (kv (w_db w)) key), next (next w)) ∧
  w_db (next (next w)) = w_db w ∧ world_wf (next (next w)).
Proof using All.
  intros Hw Hc Hq. rewrite Get_current_ok by (done || by apply quiet_calls_ok).
  rewrite (quiet_seen _ Hq), (quiet_seen_next _ Hq). split_and!.
  - do 4 f_equal. unfold live_at, live. f_equal. apply latest_at_all. intros. by apply current_rev_upper.
  - change (w_db (next (next w))) with (seen (next w)). by apply quiet_seen_next.
  - by apply next_wf, next_wf.
Qed.

(** C17: [List], with other replicas writing between its statements, none of which fails:
    a compacted revision is refused; otherwise it returns, in strictly increasing key
    order, the first [limit] (all, when 0) of exactly those rows of the log its last
    statement sees that are live at the revision (at the current revision its first
    statement sees, when none is asked for), whose key matches the LIKE pattern of the
    prefix and is not before the start key.  For a prefix without LIKE metacharacters
    these are the keys with the prefix. *)
Theorem List_correct prefix startKey limit revision w :
  world_wf w → clock_ok 2 w → calls_ok 3 w →
  let cur := current_rev (kv (seen w)) in
  let compactRev := compact_rev (seen (next w)) in
  let db := seen (next (next w)) in
  let r := (List prefix startKey limit revision w).1 in
  if (1 <? compactRev) && (0 <? revision) && (revision <=? compactRev)
  then r = (cur, compactRev, Err ErrCompacted)
  else ∃ all, r = (cur, compactRev, Ok (KV_of <$> limitClause limit all)) ∧
    StronglySorted (λ a b, str_le (r_key a) (r_key b) ∧ r_key a ≠ r_key b) all ∧
    (∀ x, x ∈ all ↔ live_at (kv db) (r_key x) (if 0 <? revision then revision else cur) = Some x ∧
                    sql_like (likePrefix prefix) (r_key x) = true ∧ str_le startKey (r_key x)) ∧
    (wildcard_free prefix = true → ∀ k, sql_like (likePrefix prefix) k = HasPrefix k prefix).
Proof using All.
  intros Hw Hc Hcalls. cbn zeta. rewrite List_ok by done. cbn zeta.
  case_bool; [done|]. cbn [fst].
  set (cap := if 0 <? revision then revision else _).
  assert (revToTS (revCap revision (current_rev (kv (seen w)))) = cap) as ->.
  { unfold cap, revCap. case_bool; (apply revToTS_id; try lia).
    pose proof (current_rev_lt _ _ (seen_wf _ Hw) (law_ts_pos _)). lia. }
  set (db := seen (next (next w))). set (plan := sp_plan _).
  assert (db_wf (sp_ts (w_rpc (next (next w)))) db) as Hwf by by apply seen_wf, next_wf, next_wf.
  exists (q_list prefix startKey cap 0 plan db).
  rewrite q_list_limit. split_and!; [done|apply (q_list_sorted _ (law_plan _) _ _ Hwf)| |].
  - intros x. by rewrite (q_list_elem plan (law_plan _) _ _ Hwf).
  - intros Hp k. by apply sql_like_prefix.
Qed.

(** [List] of the present, undisturbed: the live rows with the prefix from the start key on,
    in key order, up to the limit. *)
Lemma List_now prefix startKey limit w :
  world_wf w → clock_ok 2 w → quiet w → wildcard_free prefix = true →
  ∃ all, List prefix startKey limit 0 w =
      (current_rev (kv (w_db w)), compact_rev (w_db w), Ok (KV_of <$> limitClause limit all), next (next (next w))) ∧
    StronglySorted (λ a b, str_le (r_key a) (r_key b) ∧ r_key a ≠ r_key b) all ∧
    ∀ x, x ∈ all ↔ live (kv (w_db w)) (r_key x) = Some x ∧ HasPrefix (r_key x) prefix = true ∧ str_le startKey (r_key x).
Proof using All.
  intros Hw Hc Hq Hp. set (cur := current_rev (kv (w_db w))). set (plan := sp_plan (w_rpc (next (next w)))).
  exists (q_list prefix startKey (revToTS (revCap 0 cur)) 0 plan (w_db w)). split_and!.
  - rewrite List_ok by (done || by apply quiet_calls_ok). cbn zeta.
    rewrite (quiet_seen _ Hq), (quiet_seen_next _ Hq), (quiet_seen_next2 _ Hq). rewrite andb_false_r. cbn [andb].
    done.
  - apply (q_list_sorted plan (law_plan _) _ _ (ww_db _ Hw)).
  - intros x. rewrite (q_list_elem plan (law_plan _) _ _ (ww_db _ Hw)). unfold in_listing. rewrite sql_like_prefix by done.
    assert (live_at (kv (w_db w)) (r_key x) (revToTS (revCap 0 cur)) = live (kv (w_db w)) (r_key x)) as ->; [|done].
    unfold live_at, live. f_equal. apply latest_at_all. intros y Hy. unfold revCap. cbn.
    pose proof (current_rev_upper _ _ Hy). fold cur in H. unfold revToTS. case_bool; [|done].
    destruct (wf_rows _ _ (ww_db _ Hw) y Hy). lia.
Qed.

(** [Count] is the length of the unlimited [List] of the same arguments, and
    is refused for the same revisions. *)
Theorem Count_is_List_length prefix startKey revision w :
  0 ≤ revision → world_wf w → clock_ok 2 w → quiet w →
  match (List prefix startKey 0 revision w).1 with
  | (cur, _, Ok kvs) => (Count prefix startKey revision w).1 = (cur, Ok (Z.of_nat (length kvs)))
  | (cur, _, Err e) => (Count prefix startKey revision w).1 = (cur, Err e)
  end.
Proof using All.
  intros Hrev Hw Hc Hq. rewrite Count_ok, List_ok by (done || by apply quiet_calls_ok). cbn zeta.
  rewrite (quiet_seen _ Hq), (quiet_seen_next _ Hq), (quiet_seen_next2 _ Hq).
  rewrite (andb_comm (1 <? _) (0 <? _)). destruct (_ && _ && _); [done|]. cbn [fst].
  rewrite length_fmap. do 2 f_equal.
  rewrite q_count_eq. f_equal.
  unfold q_list, limitClause. cbn [Z.leb Z.compare]. unfold order_by.
  rewrite !merge_sort_Permutation. apply Permutation_length.
  apply NoDup_Permutation.
  - eapply NoDup_fmap_1, (q_matching_keys _ (law_plan _) _ _ (ww_db _ Hw)).
  - eapply NoDup_fmap_1, (q_matching_keys _ (law_plan _) _ _ (ww_db _ Hw)).
  - intros x. by rewrite !(q_matching_elem _ (law_plan _) _ _ (ww_db _ Hw)).
Qed.

(** The last statement of [After], on the state it sees. *)
Lemma after_at_seen prefix afterRev limit cur w :
  world_wf w → clock_ok 0 w → sp_fate (w_rpc w) = FOk →
  ∃ all, (after_at prefix afterRev limit cur w).1 =
        (cur, Ok ((λ r, mk_Event (KV_of r) (if r_deleted r then EventDelete else EventPut)) <$> limitClause limit all)) ∧
    StronglySorted (λ a b, r_rev a ≤ r_rev b) all ∧ NoDup all ∧
    ∀ x, x ∈ all ↔ x ∈ kv (seen w) ∧ sql_like (likePrefix prefix) (r_key x) = true ∧ afterRev < r_rev x.
Proof using All.
  intros Hw Hc Hf. rewrite after_at_ok by done.
  exists (q_after prefix (revToTS afterRev) 0 (sp_plan (w_rpc w)) (seen w)). split; [done|].
  destruct (q_after_all prefix (revToTS afterRev) _ (seen w) (law_plan (w_rpc w))) as [Hs He].
  split; [done|]. split; [apply (q_after_NoDup _ _ _ _ _ (law_plan _) (seen_wf _ Hw))|].
  intros x. rewrite He.
  assert (x ∈ kv (seen w) → revToTS afterRev < r_rev x ↔ afterRev < r_rev x) as Hx; [|naive_solver].
  intros Hin. apply (wf_rows _ _ (seen_wf _ Hw)) in Hin as [? _ _ _ _ _].
  unfold revToTS. case_bool; lia.
Qed.

Lemma After_seen prefix afterRev limit w :
  world_wf w → clock_ok 2 w → calls_ok 3 w →
  let cur := current_rev (kv (seen w)) in
  let db := if 0 <? afterRev then seen (next (next w)) else seen (next w) in
  if (0 <? afterRev) && (afterRev <? compact_rev (seen (next w)))
  then (After prefix afterRev limit w).1 = (cur, Err ErrCompacted)
  else ∃ all, (After prefix afterRev limit w).1 =
        (cur, Ok ((λ r, mk_Event (KV_of r) (if r_deleted r then EventDelete else EventPut)) <$>
                    limitClause limit all)) ∧
      StronglySorted (λ a b, r_rev a ≤ r_rev b) all ∧ NoDup all ∧
      ∀ x, x ∈ all ↔ x ∈ kv db ∧ sql_like (likePrefix prefix) (r_key x) = true ∧ afterRev < r_rev x.
Proof using All.
  intros Hw Hc Hf. cbn zeta. rewrite After_ok by done. cbn zeta.
  destruct (0 <? afterRev); cbn [andb]; [case_bool; [done|]|]; apply after_at_seen.
  - by apply next_wf, next_wf.
  - eapply clock_ok_later; [exact Hc|cbn; lia].
  - specialize (Hf 2%nat ltac:(lia)). cbn. by replace (S (S (w_rpc w))) with (w_rpc w + 2)%nat by lia.
  - by apply next_wf.
  - eapply clock_ok_later; [exact Hc|cbn; lia].
  - specialize (Hf 1%nat ltac:(lia)). cbn. by replace (S (w_rpc w)) with (w_rpc w + 1)%nat by lia.
Qed.

(** Undisturbed, for a prefix that is matched literally. *)
Lemma After_quiet prefix afterRev limit w :
  world_wf w → clock_ok 2 w → quiet w → wildcard_free prefix = true →
  let db := w_db w in
  let cur := current_rev (kv db) in
  if (0 <? afterRev) && (afterRev <? compact_rev db)
  then (After prefix afterRev limit w).1 = (cur, Err ErrCompacted)
  else ∃ all, (After prefix afterRev limit w).1 =
        (cur, Ok ((λ r, mk_Event (KV_of r) (if r_deleted r then EventDelete else EventPut)) <$>
                    limitClause limit all)) ∧
      StronglySorted (λ a b, r_rev a ≤ r_rev b) all ∧ NoDup all ∧
      ∀ x, x ∈ all ↔ x ∈ kv db ∧ HasPrefix (r_key x) prefix = true ∧ afterRev < r_rev x.
Proof using All.
  intros Hw Hc Hq Hp. cbn zeta. pose proof (After_seen prefix afterRev limit w Hw Hc (quiet_calls_ok _ _ Hq)) as H.
  cbn zeta in H. rewrite (quiet_seen _ Hq), (quiet_seen_next _ Hq), (quiet_seen_next2 _ Hq) in H.
  destruct (_ && _); [done|]. destruct H as (all & H & Hs & Hn & Hall). exists all. split_and!; [done..|].
  intros x. rewrite Hall, sql_like_prefix by done. by destruct (0 <? afterRev).
Qed.

(** C18: [After] replays the log, with other replicas writing between its statements, none of
    which fails: a positive start before the compact revision is refused; otherwise the
    events are exactly the rows of the log its last statement sees that are newer than
    [afterRev] and whose key matches the LIKE pattern of the prefix, each once, oldest
    first, each a PUT or a DELETE as the row says; with a positive limit, the oldest
    [limit] of them.  For a prefix without LIKE metacharacters these are the rows of the
    keys with the prefix. *)
Theorem After_correct prefix afterRev limit w :
  world_wf w → clock_ok 2 w → calls_ok 3 w →
  let cur := current_rev (kv (seen w)) in
  let db := if 0 <? afterRev then seen (next (next w)) else seen (next w) in
  (if (0 <? afterRev) && (afterRev <? compact_rev (seen (next w)))
   then (After prefix afterRev limit w).1 = (cur, Err ErrCompacted)
   else ∃ all, (After prefix afterRev limit w).1 =
         (cur, Ok ((λ r, mk_Event (KV_of r) (if r_deleted r then EventDelete else EventPut)) <$>
                     limitClause limit all)) ∧
       StronglySorted (λ a b, r_rev a ≤ r_rev b) all ∧ NoDup all ∧
       ∀ x, x ∈ all ↔ x ∈ kv db ∧ sql_like (likePrefix prefix) (r_key x) = true ∧ afterRev < r_rev x) ∧
  (wildcard_free prefix = true → ∀ k, sql_like (likePrefix prefix) k = HasPrefix k prefix).
Proof using All.
  intros Hw Hc Hf. split; [by apply After_seen|]. intros Hp k. by apply sql_like_prefix.
Qed.

End properties.

(** [likePrefix] quotes nothing, so a prefix that contains [_] or [%] is not
    matched literally: a list of "a_" returns the key "ab", which does not start
    with "a_". *)
Theorem List_wildcard_overmatches :
  let w := (Create (SP := solo) "ab" (Some "v"%string) 0 (world_of empty_db)).2 in
  HasPrefix "ab" "a_" = false ∧
  (List (SP := solo) "a_" "" 0 0 w).1 =
    (100, 1, Ok [mk_KV "ab" (Some "v"%string) None 0 false true 100 100 0]).
Proof. vm_compute. done. Qed.

(** Revisions and timestamps convert back and forth without loss over the
    whole range of revisions, and out of range values are clamped to the first
    revision. *)
Theorem rev_ts_roundtrip rev :
  int64_range rev → tsToRev (revToTS rev) = Z.max 1 rev ∧ 1 ≤ tsToRev rev < 2 ^ 63.
Proof.
  intros Hr. split; [|apply tsToRev_range]. unfold int64_range in Hr.
  unfold revToTS. case_bool; [|rewrite tsToRev_id by lia; lia].
  rewrite tsToRev_id by lia. lia.
Qed.

(** ** Concrete runs *)

Definition k_row : kv_row :=
  mk_kv_row 1 110 "k" (Some "b"%string) (Some "a"%string) (Some 0) false false (Some 100) (Some 100).

(** The present, and a revision of the past. *)
Lemma Get_correct_witness :
  (Get (SP := solo) "k" 0 run2).1 = (110, Ok (Some (KV_of k_row))) ∧
  (Get (SP := solo) "k" 107 run2).1 =
    (110, Ok (Some (mk_KV "k" (Some "a"%string) None 0 false true 100 100 0))).
Proof.
  split.
  - destruct (@Get_correct solo solo_laws "k" 0 run2 run2_wf (sim_clock _ _ 2 run2 eq_refl) (sim_calls _ 3 run2))
      as [H _]. rewrite H. vm_compute. reflexivity.
  - pose proof (@Get_correct solo solo_laws "k" 107 run2 run2_wf (sim_clock _ _ 2 run2 eq_refl) (sim_calls _ 3 run2)) as H.
    cbn [Z.ltb Z.compare] in H. rewrite H. vm_compute. reflexivity.
Defined.

Lemma List_correct_witness :
  ∃ all, (List (SP := solo) "k" "" 0 0 run2).1 = (110, 1, Ok (KV_of <$> all)) ∧ k_row ∈ all.
Proof.
  destruct (@List_correct solo solo_laws "k" "" 0 0 run2 run2_wf (sim_clock _ _ 2 run2 eq_refl)
             (sim_calls _ 3 run2)) as (all & H & _ & Hin & _).
  exists all. split; [exact H|]. apply Hin. vm_compute. repeat split; reflexivity.
Defined.

Lemma Count_is_List_length_witness :
  (Count (SP := solo) "k" "" 0 run2).1 = (110, Ok 1).
Proof.
  pose proof (@Count_is_List_length solo solo_laws "k" "" 0 run2 ltac:(lia) run2_wf
                (sim_clock _ _ 2 run2 eq_refl) (solo_quiet run2)) as H.
  assert ((List (SP := solo) "k" "" 0 0 run2).1 = (110, 1, Ok [KV_of k_row])) as E
    by (vm_compute; reflexivity).
  rewrite E in H. exact H.
Defined.

Lemma After_correct_witness :
  ∃ all, (After (SP := solo) "k" 100 1 run2).1 =
    (110, Ok ((λ r, mk_Event (KV_of r) (if r_deleted r then EventDelete else EventPut)) <$> take 1 all)) ∧
    k_row ∈ all.
Proof.
  destruct (@After_correct solo solo_laws "k" 100 1 run2 run2_wf (sim_clock _ _ 2 run2 eq_refl)
             (sim_calls _ 3 run2)) as [(all & H & _ & _ & Hin) _].
  exists all. split; [exact H|]. apply Hin. split; [vm_compute; right; left|].
  split; [vm_compute; reflexivity|by vm_compute].
Defined.

Lemma rev_ts_roundtrip_witness : tsToRev (revToTS 1700000000000000000) = 1700000000000000000.
Proof.
  destruct (rev_ts_roundtrip 1700000000000000000) as [H _]; [unfold int64_range; lia|]. exact H.
Defined.
