(* ===== verification/StoreCompact.v ===== *)
(** * pkg/store/store.go: configuration and compaction

    [NewWithConfig]'s normalisation, [Compact], [compactRows], the tick of
    [autoCompactLoop], and [SeedCompactRev] of pkg/schema/schema.go. *)

From Stdlib Require Import Ascii String.
From S2P Require Import Prelude Go Spanner Rows Invariant Sim StoreRead StoreWrite.

(** ** Configuration *)

Definition DefaultAutoCompactInterval : Z := 5 * Minute.
Definition DefaultAutoCompactAge : Z := 5 * Minute.
Definition compactBatchSize : Z := 1000.

Record StoreConfig := mk_StoreConfig { AutoCompactInterval : Z; AutoCompactAge : Z }.

(** The configuration [NewWithConfig] stores. *)
Definition NewWithConfig (cfg : StoreConfig) : res StoreConfig :=
  if AutoCompactAge cfg <? 0 then Err (Errorf "AutoCompactAge must be >= 0, got %v" [ArgZ (AutoCompactAge cfg)])
  else
    let i := if AutoCompactInterval cfg <? 0 then -1 else AutoCompactInterval cfg in
    let i := if i =? 0 then DefaultAutoCompactInterval else i in
    let a := if AutoCompactAge cfg =? 0 then DefaultAutoCompactAge else AutoCompactAge cfg in
    Ok (mk_StoreConfig i a).

(** Whether the background loop is started. *)
Definition autoCompactEnabled (cfg : StoreConfig) : bool := 0 <? AutoCompactInterval cfg.

(** ** Deleting rows *)

(** A row of the same key with a strictly larger revision exists. *)
Definition has_newer (rows : list kv_row) (r : kv_row) : Prop :=
  Exists (λ n, r_key n = r_key r ∧ r_rev r < r_rev n) rows.

#[export] Instance has_newer_dec rows r : Decision (has_newer rows r).
Proof. unfold has_newer. apply _. Defined.

(** [scanCompactBatch]: the ids of at most [compactBatchSize] eligible rows. *)
Definition scanCompactBatch (targetTS : Z) (plan : list kv_row → list kv_row) (db : database) :
    list Z :=
  r_id <$> sql_limit compactBatchSize
    (filter (λ r, r_rev r ≤ targetTS ∧ has_newer (kv db) r) (plan (kv db))).

Section compact.
Context `{SP : Spanner}.

(** The loop of [compactRows]; [None] when the fuel does not suffice. *)
Fixpoint compactRows_loop (fuel : nat) (targetTS total : Z) : ST world (option Z) :=
  match fuel with
  | O => mret None
  | S fuel =>
      try ids := single (λ plan db, Ok (scanCompactBatch targetTS plan db))
        catch e => mret (Some total);
      if Z.of_nat (length ids) =? 0 then mret (Some total)
      else
        try ts := client_apply (DeleteKV <$> ids) catch e => mret (Some total);
        let total := total + Z.of_nat (length ids) in
        if Z.of_nat (length ids) <? compactBatchSize then mret (Some total)
        else compactRows_loop fuel targetTS total
  end.

Definition compactRows (fuel : nat) (targetRev : Z) : ST world (option Z) :=
  compactRows_loop fuel (revToTS targetRev) 0.

(** The transaction that advances the compact revision, never backwards. *)
Definition advance_body (targetTS : Z) : txn_body () :=
  λ plan db _,
    (match read_kv_rev CompactRevRow db with
     | Ok existing =>
         if negb (existing <? targetTS) then Ok []
         else Ok [InsertOrUpdateRev CompactRevRow targetTS]
     | Err e =>
         if bool_decide (ErrCode e = NotFound) then Ok [InsertOrUpdateRev CompactRevRow targetTS]
         else Err e
     end, ()).

(** [go func() { ... s.compactRows(ctx, effectiveRev) ... }()]. *)
Definition spawn_compaction (rev : Z) : ST world () := λ w,
  ((), mk_world (w_db w) (w_rpc w) (w_notify w) (w_compactions w ++ [rev])).

Definition Compact (targetRev : Z) : ST world (res Z) :=
  r ← read_write_txn (advance_body (revToTS targetRev)) ();
  match r.1 with
  | Err e => mret (Err e)
  | Ok _ =>
      stored ← compactRevision;
      let effectiveRev := match stored with
                          | Ok s => if targetRev <? s then s else targetRev
                          | Err _ => targetRev
                          end in
      _ ← spawn_compaction effectiveRev;
      mret (Ok targetRev)
  end.

(** The oldest spawned compaction goroutine runs to its end. *)
Definition run_compaction (fuel : nat) : ST world (option Z) := λ w,
  match w_compactions w with
  | [] => (None, w)
  | rev :: rest => compactRows fuel rev (mk_world (w_db w) (w_rpc w) (w_notify w) rest)
  end.

(** One tick of [autoCompactLoop]: [None] when it ends in [continue]. *)
Definition autoCompact_tick (fuel : nat) (age : Z) : ST world (option Z) :=
  try curRev := CurrentRevision catch e => mret None;
  if curRev <=? 1 then mret None
  else
    let targetRev := tsToRev (revToTS curRev - age) in
    if targetRev <=? 1 then mret None
    else
      existing ← compactRevision;
      let targetRev := match existing with
                       | Ok e => if targetRev <? e then e else targetRev
                       | Err _ => targetRev
                       end in
      r ← read_write_txn (advance_body (revToTS targetRev)) ();
      match r.1 with
      | Err e => mret None
      | Ok _ => compactRows fuel targetRev
      end.

(** pkg/schema/schema.go. *)
Definition seed_body : txn_body () :=
  λ plan db _,
    (match read_kv_rev CompactRevRow db with
     | Ok _ => Ok []
     | Err e => if bool_decide (ErrCode e = NotFound) then Ok [InsertRev CompactRevRow 1] else Err e
     end, ()).

Definition SeedCompactRev : ST world (option error) :=
  r ← read_write_txn seed_body ();
  mret (match r.1 with Ok _ => None | Err e => Some e end).

End compact.

(** ** Eligible rows *)

Lemma has_newer_superseded rows r : has_newer rows r ↔ superseded rows r.
Proof. unfold has_newer, superseded. rewrite Exists_exists. naive_solver. Qed.

Definition eligible (targetTS : Z) (rows : list kv_row) (r : kv_row) : Prop :=
  r_rev r ≤ targetTS ∧ has_newer rows r.

#[export] Instance eligible_dec targetTS rows r : Decision (eligible targetTS rows r).
Proof. unfold eligible. apply _. Defined.

(** The rows compaction up to [targetTS] is to keep. *)
Definition retained (targetTS : Z) (rows : list kv_row) : list kv_row :=
  filter (λ r, ¬ eligible targetTS rows r) rows.

Definition without (ids : list Z) (rows : list kv_row) : list kv_row :=
  filter (λ r, r_id r ∉ ids) rows.

(** [ids] are identifiers of eligible rows only. *)
Definition eligible_ids (targetTS : Z) (rows : list kv_row) (ids : list Z) : Prop :=
  ∀ r, r ∈ rows → r_id r ∈ ids → eligible targetTS rows r.

(** Deleting eligible rows changes the eligibility of no other row. *)
Lemma eligible_without targetTS rows ids r :
  eligible_ids targetTS rows ids →
  eligible targetTS (without ids rows) r ↔ eligible targetTS rows r.
Proof.
  intros Hids. unfold eligible. rewrite !has_newer_superseded. split; intros [Ht Hs]; (split; [done|]).
  - destruct Hs as (n & [_ Hn]%list_elem_of_filter & ?). by exists n.
  - destruct Hs as (n & Hn & Hk & Hlt). destruct (latest_is_Some _ _ Hn) as [m Hm].
    exists m. split.
    + eapply delete_keeps_newest; [|done]. intros x Hx Hi.
      apply has_newer_superseded. by destruct (Hids x Hx Hi).
    + apply latest_Some in Hm as (_ & Hmk & Hmax). specialize (Hmax n Hn eq_refl).
      split; [congruence|lia].
Qed.

Lemma retained_without targetTS rows ids :
  eligible_ids targetTS rows ids →
  retained targetTS (without ids rows) = retained targetTS rows.
Proof.
  intros Hids. unfold retained. trans (filter (λ r, ¬ eligible targetTS rows r) (without ids rows)).
  { apply filter_ext_on. intros r _. by rewrite (eligible_without _ _ _ _ Hids). }
  unfold without. rewrite list_filter_filter. apply filter_ext_on.
  intros r Hr. split; [tauto|]. intros Hne. split; [done|]. intros Hi. by apply Hne, Hids.
Qed.

Lemma batch_length targetTS rows ids :
  NoDup ids → NoDup (r_id <$> rows) → eligible_ids targetTS rows ids →
  (∀ i, i ∈ ids → i ∈ r_id <$> rows) →
  length (filter (eligible targetTS rows) rows) =
  (length ids + length (filter (eligible targetTS (without ids rows)) (without ids rows)))%nat.
Proof.
  intros Hnd Hid Hids Hin.
  assert (r_id <$> filter (λ r, r_id r ∈ ids) rows ≡ₚ ids) as Hp.
  { apply NoDup_Permutation; [by apply NoDup_fmap_filter|done|]. intros i.
    rewrite list_elem_of_fmap. setoid_rewrite list_elem_of_filter. split; [naive_solver|].
    intros Hi. destruct (proj1 (list_elem_of_fmap _ _ _) (Hin i Hi)) as (r & -> & Hr). eauto. }
  rewrite <-(Permutation_length Hp), length_fmap.
  assert (∀ l, (∀ r, r ∈ l → r ∈ rows) →
    length (filter (eligible targetTS rows) l) =
    (length (filter (λ r, r_id r ∈ ids) l) +
     length (filter (eligible targetTS (without ids rows)) (without ids l)))%nat) as H.
  { induction l as [|r l IH]; intros Hl; [done|]. unfold without. rewrite !filter_cons.
    specialize (IH ltac:(intros; apply Hl; by right)). unfold without in IH.
    pose proof (Hids r (Hl r ltac:(by left))) as He.
    pose proof (eligible_without targetTS rows ids r Hids) as Hew. unfold without in Hew.
    destruct (decide (r_id r ∈ ids)) as [Hi|Hi].
    - rewrite decide_True by auto. rewrite (decide_False (P := r_id r ∉ ids)) by auto.
      cbn. lia.
    - rewrite (decide_True (P := r_id r ∉ ids)) by auto. rewrite !filter_cons.
      destruct (decide (eligible targetTS rows r)) as [Hr|Hr].
      + rewrite decide_True by by apply Hew. cbn. lia.
      + rewrite decide_False by (intros ?; by apply Hr, Hew). cbn. lia. }
  by apply H.
Qed.

(** ** One batch *)

Section batch.
Context (plan : list kv_row → list kv_row) (plan_perm : ∀ rows, plan rows ≡ₚ rows).
Context (T targetTS : Z) (db : database) (Hwf : db_wf T db).

Lemma scanCompactBatch_elem i :
  i ∈ scanCompactBatch targetTS plan db →
  ∃ r, r ∈ kv db ∧ r_id r = i ∧ eligible targetTS (kv db) r.
Proof using plan_perm.
  intros (r & -> & Hr)%list_elem_of_fmap. unfold sql_limit in Hr.
  apply elem_of_take in Hr as (j & Hr%list_elem_of_lookup_2 & _).
  apply list_elem_of_filter in Hr as [He Hr]. rewrite plan_perm in Hr. by exists r.
Qed.

Lemma scanCompactBatch_ids : eligible_ids targetTS (kv db) (scanCompactBatch targetTS plan db).
Proof using All.
  intros r Hr (r' & Hr' & Hi & He)%scanCompactBatch_elem.
  by rewrite (NoDup_fmap_inj_on r_id _ _ _ (wf_ids _ _ Hwf) Hr Hr' (eq_sym Hi)).
Qed.

Lemma scanCompactBatch_NoDup : NoDup (scanCompactBatch targetTS plan db).
Proof using All.
  unfold scanCompactBatch, sql_limit. rewrite fmap_take.
  eapply sublist_NoDup; [|apply sublist_take]. apply NoDup_fmap_filter. rewrite plan_perm. apply Hwf.
Qed.

(** A short batch holds every eligible row. *)
Lemma scanCompactBatch_short :
  Z.of_nat (length (scanCompactBatch targetTS plan db)) < compactBatchSize →
  without (scanCompactBatch targetTS plan db) (kv db) = retained targetTS (kv db) ∧
  length (scanCompactBatch targetTS plan db) =
    length (filter (eligible targetTS (kv db)) (kv db)).
Proof using All.
  intros Hlt. unfold scanCompactBatch, sql_limit in Hlt |- *.
  rewrite length_fmap, length_take in Hlt.
  assert (compactBatchSize = Z.of_nat (Z.to_nat compactBatchSize)) as Hb by done.
  rewrite take_ge by lia. split.
  - unfold without, retained. apply filter_ext_on. intros r Hr. split.
    + intros Hni He. apply Hni, list_elem_of_fmap_2, list_elem_of_filter. by rewrite plan_perm.
    + intros Hne (r' & Hi & [He Hr']%list_elem_of_filter)%list_elem_of_fmap.
      rewrite plan_perm in Hr'. apply Hne.
      by rewrite (NoDup_fmap_inj_on r_id _ _ _ (wf_ids _ _ Hwf) Hr Hr' Hi).
  - rewrite length_fmap. apply Permutation_length, filter_perm, plan_perm.
Qed.

End batch.

Lemma apply_deletes ts seq ids db :
  apply_mutations ts seq (DeleteKV <$> ids) db = Ok (set_kv (without ids (kv db)) db).
Proof.
  unfold without. revert seq db. induction ids as [|i ids IH]; intros seq db; cbn.
  - f_equal. rewrite <-(set_kv_kv db) at 1. f_equal. symmetry. apply filter_all.
    intros r _. set_solver.
  - rewrite IH. unfold set_kv at 1 2. cbn. f_equal. unfold set_kv. f_equal. rewrite list_filter_filter. apply filter_ext_on.
    intros r _. rewrite not_elem_of_cons. tauto.
Qed.

(** ** The loop *)

Section loop.
Context `{SP : Spanner} `{!SpannerLaws SP}.

(** One batch of an undisturbed replica. *)
Lemma quiet_batch targetTS ids w :
  world_wf w → quiet w → eligible_ids targetTS (kv (w_db w)) ids →
  client_apply (DeleteKV <$> ids) w =
    (Ok (sp_ts (w_rpc w)), set_db (set_kv (without ids (kv (w_db w))) (w_db w)) w) ∧
  world_wf (set_db (set_kv (without ids (kv (w_db w))) (w_db w)) w).
Proof using All.
  intros Hw Hq Hids. split.
  - unfold client_apply, commit. rewrite (quiet_seen w Hq), apply_deletes.
    by destruct (Hq (w_rpc w) ltac:(lia)) as (_ & -> & _).
  - eapply world_wf_commit; [by apply snapshot_refl|..].
    + apply step_delete_rows. intros r Hr Hi. apply has_newer_superseded, (Hids r Hr Hi).
    + intros r [_ Hr]%list_elem_of_filter. by left.
Qed.

Definition eligible_count (targetTS : Z) (rows : list kv_row) : nat :=
  length (filter (eligible targetTS rows) rows).

(** With fuel for every eligible row the loop ends: it has deleted all of them,
    and nothing else. *)
Lemma compactRows_loop_ok fuel targetTS total w :
  world_wf w → quiet w → (eligible_count targetTS (kv (w_db w)) < fuel)%nat →
  ∃ w', compactRows_loop fuel targetTS total w =
      (Some (total + Z.of_nat (eligible_count targetTS (kv (w_db w)))), w') ∧
    world_wf w' ∧ w_db w' = set_kv (retained targetTS (kv (w_db w))) (w_db w).
Proof using All.
  revert total w. induction fuel as [|fuel IH]; intros total w Hw Hq Hfuel; [lia|].
  cbn [compactRows_loop]. unfold mbind, st_bind.
  rewrite single_ok by (apply Hq; lia). rewrite (quiet_seen w Hq).
  set (ids := scanCompactBatch _ _ _).
  pose proof (scanCompactBatch_ids (sp_plan (w_rpc w)) (law_plan _) _ targetTS _ (ww_db _ Hw)) as Hids.
  pose proof (scanCompactBatch_NoDup (sp_plan (w_rpc w)) (law_plan _) _ targetTS _ (ww_db _ Hw)) as Hnd.
  pose proof (scanCompactBatch_short (sp_plan (w_rpc w)) (law_plan _) _ targetTS _ (ww_db _ Hw)) as Hshort.
  fold ids in Hids, Hnd, Hshort. fold (eligible_count targetTS (kv (w_db w))) in Hshort.
  assert (w_db (next w) = w_db w) as Hdb by by apply quiet_seen.
  destruct (Z.of_nat (length ids) =? 0) eqn:E0; bool_prop.
  { destruct Hshort as [Hwo Hlen]; [rewrite E0; done|]. exists (next w).
    rewrite <-Hlen, E0, Z.add_0_r. split_and!; [done|by apply next_wf|].
    rewrite Hdb, <-Hwo. destruct ids; [|done]. unfold without. rewrite filter_all; [|set_solver].
    by rewrite set_kv_kv. }
  rewrite <-Hdb in Hids.
  destruct (quiet_batch targetTS ids (next w) (next_wf _ Hw) (quiet_set_db _ _ Hq) Hids) as [-> Hw'].
  rewrite Hdb in *. destruct (_ <? compactBatchSize) eqn:El; bool_prop.
  - destruct (Hshort El) as [Hwo Hlen]. rewrite <-Hlen, <-Hwo. eauto.
  - set (w1 := set_db _ (next w)) in *.
    assert (∀ i, i ∈ ids → i ∈ r_id <$> kv (w_db w)) as Hin.
    { intros i (r & Hr & <- & _)%(scanCompactBatch_elem _ (law_plan _)). by apply list_elem_of_fmap_2. }
    pose proof (batch_length targetTS _ _ Hnd (wf_ids _ _ (ww_db _ Hw)) Hids Hin) as Hlen.
    destruct (IH (total + Z.of_nat (length ids)) w1 Hw') as (w' & -> & Hw'' & Hdb').
    + by do 2 apply quiet_set_db.
    + unfold eligible_count in *. cbn. unfold compactBatchSize in El. lia.
    + exists w'. unfold eligible_count in *. cbn in Hdb' |- *. split_and!; [|done|].
      * do 2 f_equal. lia.
      * rewrite Hdb'. unfold set_kv. cbn. f_equal. by apply retained_without.
Qed.

End loop.

(** ** Safety, whatever fails and whoever else writes *)

Section safety.
Context `{SP : Spanner} `{!SpannerLaws SP}.

(** The rows of a batch, found superseded by the scan, still are when they are
    deleted. *)
Lemma batch_still_superseded targetTS w r :
  world_wf w →
  r ∈ kv (seen (next w)) →
  r_id r ∈ scanCompactBatch targetTS (sp_plan (w_rpc w)) (seen w) →
  superseded (kv (seen (next w))) r.
Proof using All.
  intros Hw Hr (r1 & Hr1 & Hi & He)%(scanCompactBatch_elem _ (law_plan _)).
  pose proof (next_wf w Hw) as Hw'.
  assert (r = r1) as -> by (eapply law_env_same; [apply Hw'|exact Hr1|exact Hr|done]).
  eapply superseded_reach; [apply (seen_snapshot _ Hw')|].
  by apply has_newer_superseded, He.
Qed.

(** One round of the loop: a scan and the deletion of what it found. *)
Lemma delete_batch_step targetTS w :
  world_wf w →
  let ids := scanCompactBatch targetTS (sp_plan (w_rpc w)) (seen w) in
  let db := seen (next w) in
  db_step (sp_ts (w_rpc (next w))) db (set_kv (without ids (kv db)) db).
Proof using All.
  intros Hw ids db. apply step_delete_rows. intros r Hr Hi. by eapply batch_still_superseded.
Qed.

Lemma delete_batch_guarantee targetTS w :
  world_wf w →
  guarantee (next w) (client_apply (DeleteKV <$> scanCompactBatch targetTS (sp_plan (w_rpc w)) (seen w)) (next w)).2.
Proof using All.
  intros Hw. unfold client_apply. set (ids := scanCompactBatch _ _ _).
  pose proof (commit_db_or (w_rpc (next w)) _ _ _
    (apply_deletes (sp_ts (w_rpc (next w))) (sp_seq (w_rpc (next w))) ids (seen (next w)))) as Hc.
  destruct (commit _ _ _) as [r d]. cbn in Hc |- *.
  apply guarantee_commit with (seen (next w)); [by apply seen_snapshot, next_wf|].
  destruct Hc as [->| ->]; [|by left]. right. split; [by apply delete_batch_step|].
  intros x [_ Hx]%list_elem_of_filter. by left.
Qed.

Lemma next_guarantee w : world_wf w → guarantee w (next w).
Proof using All. intros. by apply guarantee_read, seen_snapshot. Qed.

Lemma compactRows_loop_guarantee fuel targetTS total w :
  world_wf w → guarantee w (compactRows_loop fuel targetTS total w).2.
Proof using All.
  revert total w. induction fuel as [|fuel IH]; intros total w Hw; [by apply guarantee_refl|].
  cbn [compactRows_loop]. unfold mbind, st_bind.
  pose proof (next_guarantee w Hw) as Hn.
  destruct (sp_fate (w_rpc w)) as [|k a c m] eqn:Hf;
    [rewrite single_ok by done|by rewrite (single_err _ _ _ _ _ _ Hf)].
  case_bool; [done|].
  pose proof (delete_batch_guarantee targetTS w Hw) as Hd.
  destruct (client_apply _ _) as [[ts|e] w']; cbn [snd] in Hd |- *;
    (assert (guarantee w w') as H by by eapply guarantee_trans); [|done].
  case_bool; [done|]. eapply guarantee_trans; [done|]. apply IH, H.
Qed.

(** No other client writes; calls may still fail. *)
Definition alone (w : world) : Prop :=
  ∀ n db, (w_rpc w ≤ n)%nat → sp_env n db = db.

Lemma alone_set_db w db : alone w → alone (set_db db w).
Proof. intros H n d Hn. apply H. cbn in Hn. lia. Qed.

(** What the present looks like: the latest row of every key and the current
    revision. *)
Definition same_present (rows rows' : list kv_row) : Prop :=
  (∀ k, latest rows' k = latest rows k) ∧ current_rev rows' = current_rev rows.

Lemma same_present_delete T db ids :
  db_wf T db → (∀ x, x ∈ kv db → r_id x ∈ ids → superseded (kv db) x) →
  same_present (kv db) (without ids (kv db)).
Proof.
  intros Hwf H. split; [|by apply current_rev_delete].
  intros k. apply latest_delete; [apply Hwf|done].
Qed.

Lemma same_present_trans a b c : same_present a b → same_present b c → same_present a c.
Proof. intros [H1 H2] [H3 H4]. split; [|congruence]. intros k. by rewrite H3. Qed.

Lemma compactRows_loop_present fuel targetTS total w :
  world_wf w → alone w →
  same_present (kv (w_db w)) (kv (w_db (compactRows_loop fuel targetTS total w).2)).
Proof using All.
  revert total w. induction fuel as [|fuel IH]; intros total w Hw Ha; [done|].
  cbn [compactRows_loop]. unfold mbind, st_bind.
  assert (seen w = w_db w) as Hseen by by apply Ha.
  assert (seen (next w) = w_db w) as Hseen'.
  { unfold seen at 1. rewrite (alone_set_db w (seen w) Ha); [exact Hseen|done]. }
  assert (same_present (kv (w_db w)) (kv (w_db (next w)))) as Hn.
  { change (w_db (next w)) with (seen w). by rewrite Hseen. }
  destruct (sp_fate (w_rpc w)) as [|k a c m] eqn:Hf;
    [rewrite single_ok by done|by rewrite (single_err _ _ _ _ _ _ Hf)].
  case_bool; [done|].
  pose proof (delete_batch_guarantee targetTS w Hw) as [Hw' _].
  set (ids := scanCompactBatch _ _ _) in *.
  assert (same_present (kv (w_db w)) (without ids (kv (w_db w)))) as Hp.
  { eapply same_present_delete; [apply Hw|]. rewrite <-Hseen'. intros x Hx Hi.
    by eapply batch_still_superseded. }
  unfold client_apply in *. rewrite Hseen' in *.
  pose proof (commit_db_or (w_rpc (next w)) _ _ _
    (apply_deletes (sp_ts (w_rpc (next w))) (sp_seq (w_rpc (next w))) ids (w_db w))) as Hc.
  destruct (commit _ _ _) as [[ts|e] d]; cbn [fst snd] in *.
  - assert (same_present (kv (w_db w)) (kv d)) as Hp'.
    { destruct Hc as [->| ->]; [done|]. by split. }
    case_bool; [done|]. eapply same_present_trans; [exact Hp'|].
    apply (IH _ (set_db d (next w)) Hw'). by do 2 apply alone_set_db.
  - destruct Hc as [->| ->]; [done|]. by split.
Qed.

End safety.

(** ** The compact revision *)

Section advance.
Context `{SP : Spanner} `{!SpannerLaws SP}.

Lemma advance_retry_safe n targetTS : retry_safe n (advance_body targetTS).
Proof. by intros db [] []. Qed.

Lemma advance_body_eq targetTS plan db u :
  advance_body targetTS plan db u =
    (Ok (match kv_rev db !! CompactRevRow with
         | Some c => if targetTS <=? c then [] else [InsertOrUpdateRev CompactRevRow targetTS]
         | None => [InsertOrUpdateRev CompactRevRow targetTS]
         end), ()).
Proof.
  unfold advance_body, read_kv_rev. destruct (kv_rev db !! CompactRevRow) as [c|]; [|done].
  by rewrite Z.leb_antisym; destruct (c <? targetTS).
Qed.

(** What the transaction leaves: the larger of the two revisions. *)
Definition advanced (targetTS : Z) (db : database) : database :=
  match kv_rev db !! CompactRevRow with
  | Some c => if targetTS <=? c then db else set_kv_rev (<[CompactRevRow := targetTS]> (kv_rev db)) db
  | None => set_kv_rev (<[CompactRevRow := targetTS]> (kv_rev db)) db
  end.

Lemma advanced_kv targetTS db : kv (advanced targetTS db) = kv db.
Proof. unfold advanced. destruct (kv_rev db !! _); [case_bool|]; done. Qed.

Lemma advanced_compact_rev targetTS db :
  1 ≤ targetTS → compact_rev (advanced targetTS db) = Z.max targetTS (compact_rev db).
Proof.
  intros Ht. unfold advanced, compact_rev. destruct (kv_rev db !! CompactRevRow) as [c|] eqn:E;
    [case_bool|]; cbn; rewrite ?lookup_insert_eq, ?E; cbn; lia.
Qed.

Lemma advance_commit n targetTS db u :
  1 ≤ targetTS < 2 ^ 63 →
  ∃ ms, advance_body targetTS (sp_plan n) db u = (Ok ms, ()) ∧
    apply_mutations (sp_ts n) (sp_seq n) ms db = Ok (advanced targetTS db) ∧
    commit_ok n db (advanced targetTS db).
Proof.
  intros Ht. rewrite advance_body_eq. eexists. split; [done|]. unfold advanced.
  assert ((∀ c0, kv_rev db !! 1 = Some c0 → c0 < targetTS) →
    commit_ok n db (set_kv_rev (<[CompactRevRow:=targetTS]> (kv_rev db)) db)) as Hok.
  { intros Hlt. right. split; [by apply step_compact_rev|]. by left. }
  unfold CompactRevRow in *. destruct (kv_rev db !! 1) as [c|] eqn:E; [case_bool|].
  - split; [done|by left].
  - split; [done|]. apply Hok. intros c0 [= <-]. lia.
  - split; [done|]. by apply Hok.
Qed.

Lemma advance_txn targetTS w :
  world_wf w → 1 ≤ targetTS < 2 ^ 63 → sp_fate (w_rpc w) = FOk →
  ∃ db, snapshot (w_rpc w) (w_db w) db ∧
    read_write_txn (advance_body targetTS) () w =
      (Ok (sp_ts (w_rpc w)), (), set_db (advanced targetTS db) w) ∧
    world_wf (set_db (advanced targetTS db) w).
Proof using All.
  intros Hw Ht Hf. destruct (read_write_txn_inv _ () w Hw (advance_retry_safe _ targetTS))
    as (db & Hs & H). exists db. split; [done|].
  destruct (advance_commit (w_rpc w) targetTS db () Ht) as (ms & Hb & Ha & Hok).
  rewrite Hb in H. rewrite H. unfold commit. rewrite Hf, Ha. cbn. split; [done|].
  by eapply (guarantee_commit w db).
Qed.

Lemma advance_guarantee targetTS w :
  world_wf w → 1 ≤ targetTS < 2 ^ 63 → guarantee w (read_write_txn (advance_body targetTS) () w).2.
Proof using All.
  intros Hw Ht. apply read_write_txn_guarantee; [done|apply advance_retry_safe|].
  intros db ms c' Hs Hb. destruct (advance_commit (w_rpc w) targetTS db () Ht) as (ms' & Hb' & Ha & Hok).
  rewrite Hb in Hb'. injection Hb' as -> _. eauto.
Qed.

(** The compact revision never goes back. *)
Lemma compact_rev_step ts db db' :
  db_step ts db db' → compact_rev db ≤ compact_rev db'.
Proof.
  destruct 1 as [new|ids|c Hc Hlt|m|m]; unfold compact_rev, CompactRevRow; cbn; try lia.
  rewrite lookup_insert_eq. cbn. destruct (kv_rev db !! 1) as [c0|] eqn:E; cbn; [|lia].
  specialize (Hlt c0 eq_refl). lia.
Qed.

Lemma compact_rev_reach T db db' : reach T db db' → compact_rev db ≤ compact_rev db'.
Proof.
  induction 1 as [|a b c (t & _ & Hs%compact_rev_step) _ IH]; lia.
Qed.

Lemma revToTS_range r : int64_range r → 1 ≤ revToTS r < 2 ^ 63.
Proof. unfold revToTS, int64_range. intros ?. case_bool; lia. Qed.

Lemma guarantee_ext w w1 w2 :
  w_db w2 = w_db w1 → w_rpc w2 = w_rpc w1 → guarantee w w1 → guarantee w w2.
Proof.
  intros Hd Hr ([Hw Hi] & Hre & Hl). unfold guarantee. rewrite Hd, Hr. split; [|done].
  by split; rewrite ?Hd, ?Hr.
Qed.

Lemma Compact_guarantee targetRev w :
  world_wf w → int64_range targetRev → guarantee w (Compact targetRev w).2.
Proof using All.
  intros Hw Hr. unfold Compact, mbind, st_bind.
  pose proof (advance_guarantee _ w Hw (revToTS_range _ Hr)) as H.
  destruct (read_write_txn _ _ w) as [[[ts|e] u] w1]; cbn [fst snd] in *; [|done].
  pose proof (compactRevision_guarantee w1 ltac:(apply H)) as H'.
  destruct (compactRevision w1) as [s w2]. cbn [fst snd] in *.
  apply (guarantee_ext w w2); [done..|]. by eapply guarantee_trans.
Qed.

Lemma compactRows_guarantee fuel targetRev w :
  world_wf w → guarantee w (compactRows fuel targetRev w).2.
Proof using All. apply compactRows_loop_guarantee. Qed.

Lemma run_compaction_guarantee fuel w :
  world_wf w → guarantee w (run_compaction fuel w).2.
Proof using All.
  intros Hw. unfold run_compaction. destruct (w_compactions w) as [|rev rest]; [by apply guarantee_refl|].
  exact (compactRows_guarantee fuel rev (mk_world (w_db w) (w_rpc w) (w_notify w) rest)
           (mk_world_wf (mk_world (w_db w) (w_rpc w) (w_notify w) rest) (ww_db _ Hw) (ww_ids _ Hw))).
Qed.

Lemma seed_guarantee w : world_wf w → guarantee w (SeedCompactRev w).2.
Proof using All.
  intros Hw. unfold SeedCompactRev, mbind, st_bind.
  assert (guarantee w (read_write_txn seed_body () w).2) as H.
  { apply read_write_txn_guarantee; [done|by intros db [] []|]. intros db ms c' Hs.
    unfold seed_body, read_kv_rev. destruct (kv_rev db !! CompactRevRow) as [c|] eqn:E; cbn;
      intros [= <- <-].
    - exists db. split; [done|by left].
    - cbn. rewrite E. eexists. split; [done|]. right. split; [|by left].
      apply step_compact_rev; [lia|]. unfold CompactRevRow in E. congruence. }
  by destruct (read_write_txn _ _ w).
Qed.

Lemma tsToRev_int64 t : int64_range (tsToRev t).
Proof. pose proof (tsToRev_range t). unfold int64_range. lia. Qed.

Lemma compactRevision_range w r w' :
  compactRevision w = (Ok r, w') → 1 ≤ r < 2 ^ 63.
Proof.
  unfold compactRevision, mbind, st_bind. destruct (single _ w) as [[t|e] w1].
  - intros [= <- <-]. apply tsToRev_range.
  - case_bool; [intros [= <- <-]; lia|done].
Qed.

Lemma autoCompact_tick_guarantee fuel age w :
  world_wf w → guarantee w (autoCompact_tick fuel age w).2.
Proof using All.
  intros Hw. unfold autoCompact_tick, mbind, st_bind.
  pose proof (CurrentRevision_guarantee w Hw) as H1.
  destruct (CurrentRevision w) as [[cur|e] w1]; [|done]. cbn [snd] in H1.
  case_bool; [done|]. case_bool; [done|]. pose proof (tsToRev_range (revToTS cur - age)) as Ht.
  pose proof (compactRevision_guarantee w1 ltac:(apply H1)) as H2.
  destruct (compactRevision w1) as [ex w2] eqn:E2. cbn [snd] in H2.
  set (t := match ex with Ok e => _ | Err _ => _ end).
  assert (int64_range t) as Hr.
  { unfold int64_range, t. destruct ex as [e|e]; [|lia]. apply compactRevision_range in E2. case_bool; lia. }
  pose proof (advance_guarantee _ w2 ltac:(apply H2) (revToTS_range _ Hr)) as H3.
  destruct (read_write_txn _ _ w2) as [[[ts|e] u] w3]; cbn [fst snd] in *;
    (assert (guarantee w w3) as H4 by eauto using guarantee_trans); [|done].
  eapply guarantee_trans; [done|]. apply compactRows_guarantee, H4.
Qed.

End advance.

(** ** Properties *)

Section properties.
Context `{SP : Spanner} `{!SpannerLaws SP}.

(** The rows of a key that a read at [cap] needs survive when the row it finds is
    newer than the target or the latest of its key. *)
Lemma retained_latest_at targetTS T db k cap r :
  db_wf T db → latest_at (kv db) k cap = Some r →
  targetTS < r_rev r ∨ latest (kv db) k = Some r →
  latest_at (retained targetTS (kv db)) k cap = Some r.
Proof.
  intros Hwf Hl Hr. apply latest_at_Some in Hl as (Hin & Hk & Hc & Hmax).
  apply latest_at_intro; auto.
  - apply NoDup_fmap_filter, Hwf.
  - apply list_elem_of_filter. split; [|done]. intros [Ht Hn].
    destruct Hr as [Hr|Hr]; [lia|]. apply has_newer_superseded in Hn as (n & Hin' & Hkn & Hlt).
    apply latest_Some in Hr as (_ & _ & Hmax'). specialize (Hmax' n Hin'). rewrite Hkn in Hmax'.
    specialize (Hmax' Hk). lia.
  - intros r' [_ Hr']%list_elem_of_filter. auto.
Qed.

(** C19: undisturbed, [compactRows] ends, whatever the number of batches: it
    reports how many rows it deleted, deleted exactly the rows at or before the
    target that a newer row of their key supersedes, and every read that finds a
    row newer than the target, or the newest of its key, finds it still. *)
Theorem compactRows_exact fuel targetRev w :
  world_wf w → quiet w → (eligible_count (revToTS targetRev) (kv (w_db w)) < fuel)%nat →
  let rows := kv (w_db w) in
  let r := compactRows fuel targetRev w in
  r.1 = Some (Z.of_nat (eligible_count (revToTS targetRev) rows)) ∧
  w_db r.2 = set_kv (retained (revToTS targetRev) rows) (w_db w) ∧
  (∀ k cap x, latest_at rows k cap = Some x →
    revToTS targetRev < r_rev x ∨ latest rows k = Some x →
    latest_at (kv (w_db r.2)) k cap = Some x).
Proof using All.
  intros Hw Hq Hfuel. cbn zeta.
  destruct (compactRows_loop_ok fuel (revToTS targetRev) 0 w Hw Hq Hfuel) as (w' & H & _ & Hdb).
  unfold compactRows. rewrite H. cbn [fst snd]. rewrite Hdb. split_and!; [done..|].
  intros k cap x. apply (retained_latest_at _ _ _ _ _ _ (ww_db _ Hw)).
Qed.

(** Compaction never touches the present: whichever of its calls fail, with
    however little fuel, the latest row of every key and the current revision
    stay what they were. *)
Theorem compactRows_present fuel targetRev w :
  world_wf w → alone w →
  let w' := (compactRows fuel targetRev w).2 in
  (∀ k, live (kv (w_db w')) k = live (kv (w_db w)) k) ∧
  current_rev (kv (w_db w')) = current_rev (kv (w_db w)).
Proof using All.
  intros Hw Ha. destruct (compactRows_loop_present fuel (revToTS targetRev) 0 w Hw Ha) as [Hl Hc].
  split; [|done]. intros k. unfold live. by rewrite <-(Hl k).
Qed.

Lemma Compact_run targetRev w :
  int64_range targetRev → world_wf w → calls_ok 2 w →
  ∃ db, snapshot (w_rpc w) (w_db w) db ∧
    let w1 := set_db (advanced (revToTS targetRev) db) w in
    world_wf w1 ∧
    Compact targetRev w =
      (Ok targetRev,
       mk_world (seen w1) (S (S (w_rpc w))) (w_notify w)
         (w_compactions w ++ [Z.max targetRev (compact_rev (seen w1))])).
Proof using All.
  intros Hr Hw Hcalls. pose proof (revToTS_range _ Hr) as Ht.
  destruct (advance_txn _ w Hw Ht (calls_ok_now _ _ Hcalls)) as (db & Hs & Htxn & Hw').
  exists db. split_and!; [done..|].
  unfold Compact, mbind, st_bind. rewrite Htxn. cbn [fst snd].
  rewrite compactRevision_ok; [|done|by eapply calls_ok_now, calls_ok_set_db].
  set (c := compact_rev _). assert ((if targetRev <? c then c else targetRev) = Z.max targetRev c) as E
    by (case_bool; lia). unfold spawn_compaction, mret, st_ret. by rewrite E.
Qed.

(** C20: [Compact] records the larger of the requested and the recorded compact
    revision, leaves the log as it is, and starts one deletion up to the compact
    revision it then reads. *)
Theorem Compact_correct targetRev w :
  int64_range targetRev → world_wf w → calls_ok 2 w →
  ∃ db db', snapshot (w_rpc w) (w_db w) db ∧
    kv db' = kv db ∧ compact_rev db' = Z.max (revToTS targetRev) (compact_rev db) ∧
    Compact targetRev w =
      (Ok targetRev,
       mk_world (seen (set_db db' w)) (S (S (w_rpc w))) (w_notify w)
         (w_compactions w ++ [Z.max targetRev (compact_rev (seen (set_db db' w)))])).
Proof using All.
  intros Hr Hw Hcalls. destruct (Compact_run _ _ Hr Hw Hcalls) as (db & Hs & _ & H).
  exists db, (advanced (revToTS targetRev) db). split_and!;
    [done|apply advanced_kv|by apply advanced_compact_rev, revToTS_range|done].
Qed.

(** After [Compact] succeeded, the compact revision every later call reads. *)
Lemma Compact_recorded targetRev w :
  int64_range targetRev → world_wf w → calls_ok 2 w →
  let w' := (Compact targetRev w).2 in
  world_wf w' ∧ w_rpc w' = (2 + w_rpc w)%nat ∧ targetRev ≤ compact_rev (w_db w').
Proof using All.
  intros Hr Hw Hc. pose proof (Compact_guarantee targetRev w Hw Hr) as [Hw' _].
  destruct (Compact_run targetRev w Hr Hw Hc) as (db & Hs & Hw1 & H).
  rewrite H in *. split_and!; [done..|]. cbn [snd w_db].
  pose proof (compact_rev_reach _ _ _ (snap_reach _ _ _ (seen_snapshot _ Hw1))) as Hm. cbn [w_db set_db] in Hm.
  rewrite advanced_compact_rev in Hm by by apply revToTS_range.
  assert (targetRev ≤ revToTS targetRev) by (unfold revToTS; case_bool; lia). lia.
Qed.

Lemma compact_rev_seen w : world_wf w → compact_rev (w_db w) ≤ compact_rev (seen w).
Proof using All. intros Hw. eapply compact_rev_reach, (seen_snapshot _ Hw). Qed.

Lemma compact_rev_seen_next w : world_wf w → compact_rev (w_db w) ≤ compact_rev (seen (next w)).
Proof using All.
  intros Hw. pose proof (compact_rev_seen w Hw). pose proof (compact_rev_seen _ (next_wf w Hw)) as H'.
  cbn [next w_db set_db] in H'. lia.
Qed.

Lemma calls_ok_skip k j w w' :
  w_rpc w' = (j + w_rpc w)%nat → calls_ok (j + k) w → calls_ok k w'.
Proof. intros E H i Hi. rewrite E. specialize (H (j + i)%nat ltac:(lia)). by rewrite <-H; f_equal; lia. Qed.

Lemma clock_ok_skip k j w w' :
  w_rpc w' = (j + w_rpc w)%nat → clock_ok (j + k) w → clock_ok k w'.
Proof. unfold clock_ok. intros E H. rewrite E. by replace (j + w_rpc w + k)%nat with (w_rpc w + (j + k))%nat by lia. Qed.

(** Once [Compact] returned, reads at or before the compacted revision are
    refused with [ErrCompacted], and watches from before it too, whatever other
    replicas do in between. *)
Theorem Compact_refuses_old_reads targetRev w :
  int64_range targetRev → 1 < targetRev → world_wf w → calls_ok 5 w → clock_ok 4 w →
  let w' := (Compact targetRev w).2 in
  (∀ key revision, 0 < revision ≤ targetRev → (Get key revision w').1.2 = Err ErrCompacted) ∧
  (∀ prefix startKey limit revision, 0 < revision ≤ targetRev →
    (List prefix startKey limit revision w').1.2 = Err ErrCompacted) ∧
  (∀ prefix afterRev limit, 0 < afterRev < targetRev →
    (After prefix afterRev limit w').1.2 = Err ErrCompacted).
Proof using All.
  intros Hr H1 Hw Hc Hcl. destruct (Compact_recorded targetRev w Hr Hw) as (Hw' & Hrpc & Hcr).
  { intros i Hi. apply Hc. lia. }
  set (w' := (Compact targetRev w).2) in *.
  pose proof (calls_ok_skip 3 2 w w' Hrpc Hc) as Hc'. pose proof (clock_ok_skip 2 2 w w' Hrpc Hcl) as Hcl'.
  pose proof (compact_rev_seen_next w' Hw') as Hcr'. split_and!.
  - intros key revision Hrev. rewrite Get_at_ok by (done || lia). cbn zeta.
    destruct (_ && _) eqn:E; [done|]. apply andb_false_iff in E as [E|E]; bool_prop; lia.
  - intros prefix startKey limit revision Hrev. rewrite List_ok by (done || lia). cbn zeta.
    destruct (_ && _) eqn:E; [done|]. rewrite !andb_false_iff in E. destruct E as [[E|E]|E]; bool_prop; lia.
  - intros prefix afterRev limit Hrev. rewrite After_ok by (done || lia). cbn zeta.
    destruct (0 <? afterRev) eqn:E; bool_prop; [|lia].
    destruct (afterRev <? _) eqn:E'; bool_prop; [done|lia].
Qed.

End properties.

(** ** Automatic compaction *)

Section auto.
Context `{SP : Spanner} `{!SpannerLaws SP}.

Lemma quiet_advance targetTS w :
  world_wf w → quiet w → 1 ≤ targetTS < 2 ^ 63 →
  let w' := set_db (advanced targetTS (w_db w)) w in
  read_write_txn (advance_body targetTS) () w = (Ok (sp_ts (w_rpc w)), (), w') ∧ world_wf w'.
Proof using All.
  intros Hw Hq Ht. destruct (Hq (w_rpc w) ltac:(lia)) as (He & Hf & Hab).
  destruct (advance_commit (w_rpc w) targetTS (w_db w) () Ht) as (ms & Hb & Ha & Hok). split.
  - unfold read_write_txn. rewrite Hab. cbn [aborted_attempts]. rewrite He, Hb. unfold commit. by rewrite Hf, Ha.
  - by eapply guarantee_commit; [apply snapshot_refl|].
Qed.

Lemma set_kv_advanced rows targetTS db : set_kv rows (advanced targetTS db) = advanced targetTS (set_kv rows db).
Proof. unfold advanced. cbn. destruct (kv_rev db !! _); [case_bool|]; done. Qed.

(** One tick of the background loop with retention [age]: while the history
    is shorter than [age] it does nothing; otherwise the compact revision becomes
    the larger of [current revision - age] and the one recorded, and exactly the
    superseded rows up to it are deleted, so every row newer than both is kept. *)
Theorem autoCompact_tick_correct fuel age w :
  0 ≤ age < 2 ^ 63 → world_wf w → quiet w → clock_ok 0 w → (length (kv (w_db w)) < fuel)%nat →
  let db := w_db w in
  let cur := current_rev (kv db) in
  let target := Z.max (cur - age) (compact_rev db) in
  let r := autoCompact_tick fuel age w in
  if cur - age <=? 1 then r.1 = None ∧ w_db r.2 = db
  else r.1 = Some (Z.of_nat (eligible_count target (kv db))) ∧
       w_db r.2 = set_kv (retained target (kv db)) (advanced target db) ∧
       compact_rev (w_db r.2) = target ∧
       ∀ x, x ∈ kv db → target < r_rev x → x ∈ kv (w_db r.2).
Proof using All.
  intros Hage Hw Hq Hc Hfuel. cbn zeta. unfold autoCompact_tick, mbind, st_bind.
  destruct (Hq (w_rpc w) ltac:(lia)) as (_ & Hf & _).
  rewrite (CurrentRevision_ok _ _ Hw Hc Hf), (quiet_seen w Hq).
  pose proof (current_rev_lt _ _ (ww_db _ Hw) (law_ts_pos _)) as Hcur.
  pose proof (clock_ok_now _ _ Hc) as Hts.
  set (cur := current_rev _) in *. set (db := w_db w) in *.
  assert (w_db (next w) = db) as Hdb by (by apply quiet_seen).
  pose proof (next_wf w Hw) as Hw1. pose proof (quiet_set_db w (seen w) Hq : quiet (next w)) as Hq1.
  destruct (cur <=? 1) eqn:E1; bool_prop.
  { destruct (cur - age <=? 1) eqn:E2; bool_prop; [|lia]. by rewrite <-Hdb. }
  rewrite revToTS_id by lia.
  assert (tsToRev (cur - age) = if cur - age <=? 0 then 1 else cur - age) as ->.
  { unfold tsToRev, UnixNano. by rewrite int64_id by (unfold int64_range; lia). }
  destruct (cur - age <=? 1) eqn:E2; bool_prop.
  { destruct (cur - age <=? 0) eqn:E3; bool_prop; [by rewrite <-Hdb|].
    destruct (cur - age <=? 1) eqn:E4; bool_prop; [|lia]. by rewrite <-Hdb. }
  destruct (cur - age <=? 0) eqn:E3; bool_prop; [lia|].
  destruct (cur - age <=? 1) eqn:E4; bool_prop; [lia|].
  rewrite compactRevision_ok by (done || apply (Hq1 (w_rpc (next w))); lia).
  rewrite (quiet_seen _ Hq1), Hdb.
  pose proof (next_wf _ Hw1) as Hw2.
  pose proof (quiet_set_db _ (seen (next w)) Hq1 : quiet (next (next w))) as Hq2.
  assert (w_db (next (next w)) = db) as Hdb2 by (rewrite <-Hdb; by apply quiet_seen).
  assert (1 ≤ compact_rev db < 2 ^ 63) as Hcr.
  { rewrite <-Hdb. change (w_db (next w)) with (seen w). by apply compact_rev_range. }
  assert ((if cur - age <? compact_rev db then compact_rev db else cur - age) =
          Z.max (cur - age) (compact_rev db)) as -> by (case_bool; lia).
  set (target := Z.max _ _). rewrite revToTS_id by lia.
  destruct (quiet_advance target _ Hw2 Hq2) as [-> Hw3]; [lia|]. rewrite Hdb2 in *. cbn [fst snd].
  destruct (compactRows_loop_ok fuel (revToTS target) 0 _ Hw3) as (w' & H & _ & Hdb').
  { by apply quiet_set_db. }
  { cbn. rewrite advanced_kv. unfold eligible_count.
    pose proof (length_filter (eligible (revToTS target) (kv db)) (kv db)). lia. }
  unfold compactRows. rewrite H. cbn [fst snd w_db set_db] in *. rewrite revToTS_id in * by lia.
  rewrite !advanced_kv in *. split_and!; [done|done|..].
  - rewrite Hdb'. change (compact_rev (set_kv ?a ?b)) with (compact_rev b).
    rewrite advanced_compact_rev by lia. lia.
  - intros x Hx Hlt. rewrite Hdb'. apply list_elem_of_filter. split; [|done]. intros [??]. lia.
Qed.

End auto.

(** A configuration is refused only for a negative retention age; an accepted
    one has a positive age, an interval that is positive or disables the loop,
    and keeps every value the caller chose. *)
Theorem NewWithConfig_normalises cfg :
  match NewWithConfig cfg with
  | Err _ => AutoCompactAge cfg < 0
  | Ok cfg' =>
      0 < AutoCompactAge cfg' ∧
      (0 < AutoCompactAge cfg → AutoCompactAge cfg' = AutoCompactAge cfg) ∧
      (autoCompactEnabled cfg' = false ↔ AutoCompactInterval cfg < 0) ∧
      (0 < AutoCompactInterval cfg → AutoCompactInterval cfg' = AutoCompactInterval cfg)
  end.
Proof.
  destruct cfg as [i a]. unfold NewWithConfig, autoCompactEnabled,
    DefaultAutoCompactInterval, DefaultAutoCompactAge, Minute, Second; cbn.
  destruct (a <? 0) eqn:?, (i <? 0) eqn:?, (i =? 0) eqn:?, (a =? 0) eqn:?; cbn; bool_prop;
    repeat split; intros; bool_prop; try lia; apply Z.ltb_ge; lia.
Qed.

(** ** Concrete runs *)

Lemma compactRows_exact_witness :
  (compactRows (SP := solo) 2 110 run2).1 = Some 1 ∧
  latest_at (kv (w_db (compactRows (SP := solo) 2 110 run2).2)) "k" 200 = latest (kv (w_db run2)) "k".
Proof.
  destruct (@compactRows_exact solo solo_laws 2 110 run2 run2_wf (solo_quiet run2)) as (H1 & _ & H3).
  { vm_compute. lia. }
  split; [rewrite H1; vm_compute; reflexivity|].
  assert (latest (kv (w_db run2)) "k" = latest_at (kv (w_db run2)) "k" 200) as E by (vm_compute; reflexivity).
  rewrite E. destruct (latest_at (kv (w_db run2)) "k" 200) as [x|] eqn:Ex; [|vm_compute in Ex; discriminate].
  apply (H3 _ _ _ Ex). right. by rewrite E.
Defined.

Lemma compactRows_present_witness :
  live (kv (w_db (compactRows (SP := solo) 1 110 run2).2)) "k" = live (kv (w_db run2)) "k".
Proof. apply (@compactRows_present solo solo_laws 1 110 run2 run2_wf ltac:(done)). Defined.

Lemma Compact_correct_witness :
  w_compactions (Compact (SP := solo) 105 run2).2 = [105] ∧
  ∃ db db', snapshot (SP := solo) 2 (w_db run2) db ∧
    kv db' = kv db ∧ compact_rev db' = Z.max 105 (compact_rev db) ∧
    (Compact (SP := solo) 105 run2).1 = Ok 105.
Proof.
  split; [vm_compute; reflexivity|].
  destruct (@Compact_correct solo solo_laws 105 run2 ltac:(unfold int64_range; lia) run2_wf
              (sim_calls _ 2 run2)) as (db & db' & Hs & Hk & Hc & H).
  exists db, db'. split; [exact Hs|]. split; [exact Hk|]. split; [exact Hc|]. by rewrite H.
Defined.

Lemma Compact_refuses_old_reads_witness :
  (Get (SP := solo) "k" 103 (Compact (SP := solo) 105 run2).2).1.2 = Err ErrCompacted.
Proof.
  apply (@Compact_refuses_old_reads solo solo_laws 105 run2 ltac:(unfold int64_range; lia) ltac:(lia)
           run2_wf (sim_calls _ 5 run2) (sim_clock _ _ 4 run2 eq_refl)). lia.
Defined.

Lemma autoCompact_tick_correct_witness :
  (autoCompact_tick (SP := solo) 5 7 run2).1 = Some 1 ∧
  compact_rev (w_db (autoCompact_tick (SP := solo) 5 7 run2).2) = 103.
Proof.
  destruct (@autoCompact_tick_correct solo solo_laws 5 7 run2 ltac:(lia) run2_wf (solo_quiet run2)
              (sim_clock _ _ 0 run2 eq_refl) ltac:(vm_compute; lia)) as (H1 & _ & H3 & _).
  split; [rewrite H1; vm_compute; reflexivity|]. rewrite H3. vm_compute. reflexivity.
Defined.

(** Compaction loses history that the compact revision does not cover: a row
    at or before the target is deleted also when the row that supersedes it is
    newer than the target, so a read at a revision in between, which is not
    refused as compacted, no longer finds the value the key had. *)
Theorem compaction_loses_history :
  let w := (Compact (SP := solo) 105 run2).2 in
  let w' := (run_compaction (SP := solo) 2 w).2 in
  compact_rev (w_db w') = 105 ∧
  (Get (SP := solo) "k" 107 w).1.2 =
    Ok (Some (mk_KV "k" (Some "a"%string) None 0 false true 100 100 0)) ∧
  (Get (SP := solo) "k" 107 w').1.2 = Ok None.
Proof. vm_compute. done. Qed.
