(* ===== verification/StoreInvariant.v ===== *)
(** * The store as a state machine

    [store_step] is one public operation of the store, with any arguments, any
    interference of other replicas and any failure of its calls; [rtc store_step]
    the runs of one replica.  The invariant holds along every run, and what a run
    does to the database is what [SpannerLaws] allows the other replicas to do,
    so replicas running this program are a legal environment for each other. *)

From Stdlib Require Import Ascii String.
From S2P Require Import Prelude Go Spanner Rows Invariant Sim StoreRead StoreWrite Reads StoreTxn StoreCompact.

Section steps.
Context `{SP : Spanner} `{!SpannerLaws SP}.

Inductive store_step (w : world) : world → Prop :=
| step_CurrentRevision : store_step w (CurrentRevision w).2
| step_Get key revision : store_step w (Get key revision w).2
| step_List prefix startKey limit revision : store_step w (List prefix startKey limit revision w).2
| step_Count prefix startKey revision : store_step w (Count prefix startKey revision w).2
| step_After prefix afterRev limit : store_step w (After prefix afterRev limit w).2
| step_Create key value leaseID : store_step w (Create key value leaseID w).2
| step_Update key value revision leaseID : store_step w (Update key value revision leaseID w).2
| step_Delete key revision : store_step w (Delete key revision w).2
| step_DeleteIfLease key leaseID : store_step w (DeleteIfLease key leaseID w).2
| step_AtomicTxn compares successOps failureOps :
    Forall known successOps → Forall known failureOps →
    store_step w (AtomicTxn compares successOps failureOps w).2
| step_Compact targetRev : int64_range targetRev → store_step w (Compact targetRev w).2
| step_run_compaction fuel : store_step w (run_compaction fuel w).2
| step_autoCompact fuel age : store_step w (autoCompact_tick fuel age w).2
| step_SeedCompactRev : store_step w (SeedCompactRev w).2.

(** Steps taken while timestamps fit an [int64]. *)
Definition timely_step (w w' : world) : Prop := clock_ok 0 w ∧ store_step w w'.

(** ** Reads do not write *)

(** One statement, then pure decoding. *)
Ltac one_statement w Hw :=
  unfold mbind, st_bind;
  match goal with |- context [single ?q w] =>
    let H := fresh in
    pose proof (single_guarantee q w Hw) as H; destruct (single q w) as [[?|?] ?]; exact H
  end.

Lemma get_at_guarantee key revision cur w : world_wf w → guarantee w (get_at key revision cur w).2.
Proof using All. intros Hw. unfold get_at. one_statement w Hw. Qed.

Lemma count_at_guarantee prefix startKey revision cur w :
  world_wf w → guarantee w (count_at prefix startKey revision cur w).2.
Proof using All. intros Hw. unfold count_at. one_statement w Hw. Qed.

Lemma after_at_guarantee prefix afterRev limit cur w :
  world_wf w → guarantee w (after_at prefix afterRev limit cur w).2.
Proof using All. intros Hw. unfold after_at. one_statement w Hw. Qed.

(** The current revision, then the compact revision when one is asked for, then
    the statement [lem] is about. *)
Ltac guarded_read w Hw lem :=
  unfold mbind, st_bind;
  let H1 := fresh in let H2 := fresh in let H3 := fresh in let w1 := fresh in let w2 := fresh in
  pose proof (CurrentRevision_guarantee w Hw) as H1;
  destruct (CurrentRevision w) as [[?|?] w1]; [|done]; cbn [snd] in H1;
  case_bool; [|eapply guarantee_trans; [done|apply lem, H1]];
  pose proof (compactRevision_guarantee w1 ltac:(apply H1)) as H2;
  destruct (compactRevision w1) as [[?|?] w2]; cbn [snd] in H2;
  (assert (guarantee w w2) as H3 by by eapply guarantee_trans); [|done];
  case_bool; [done|]; eapply guarantee_trans; [done|apply lem, H3].

Lemma Get_guarantee key revision w : world_wf w → guarantee w (Get key revision w).2.
Proof using All. intros Hw. unfold Get. guarded_read w Hw get_at_guarantee. Qed.

Lemma Count_guarantee prefix startKey revision w :
  world_wf w → guarantee w (Count prefix startKey revision w).2.
Proof using All. intros Hw. unfold Count. guarded_read w Hw count_at_guarantee. Qed.

Lemma After_guarantee prefix afterRev limit w :
  world_wf w → guarantee w (After prefix afterRev limit w).2.
Proof using All. intros Hw. unfold After. guarded_read w Hw after_at_guarantee. Qed.

Lemma List_guarantee prefix startKey limit revision w :
  world_wf w → guarantee w (List prefix startKey limit revision w).2.
Proof using All.
  intros Hw. unfold List, mbind, st_bind. pose proof (CurrentRevision_guarantee w Hw) as H1.
  destruct (CurrentRevision w) as [[cur|e] w1]; [|done]. cbn [snd] in H1.
  pose proof (compactRevision_guarantee w1 ltac:(apply H1)) as H2.
  destruct (compactRevision w1) as [[c|e] w2]; cbn [snd] in H2;
    (assert (guarantee w w2) as H3 by by eapply guarantee_trans); [|done].
  case_bool; [done|].
  match goal with |- context [single ?q w2] =>
    pose proof (single_guarantee q w2 ltac:(apply H3)) as H4; destruct (single q w2) as [[rows|?] w3] end;
    cbn [snd] in H4; by eapply guarantee_trans.
Qed.

Lemma timely_step_guarantee w w' : world_wf w → timely_step w w' → guarantee w w'.
Proof using All.
  intros Hw [Hc Hs]. destruct Hs; eauto using CurrentRevision_guarantee, Get_guarantee,
    List_guarantee, Count_guarantee, After_guarantee, Create_guarantee, Update_guarantee,
    Delete_guarantee, DeleteIfLease_guarantee, AtomicTxn_guarantee, Compact_guarantee,
    run_compaction_guarantee, autoCompact_tick_guarantee, seed_guarantee.
Qed.

Lemma run_guarantee w w' : world_wf w → rtc timely_step w w' → guarantee w w'.
Proof using All.
  intros Hw H. revert Hw. induction H as [w|w1 w2 w3 Hs _ IH]; intros Hw; [by apply guarantee_refl|].
  pose proof (timely_step_guarantee _ _ Hw Hs) as Hg. eapply guarantee_trans; [done|].
  apply IH, Hg.
Qed.

(** C2: every run of a replica, with any interleaving of other replicas and any
    failing calls, keeps the database well-formed and changes it only by the
    commits the other replicas are allowed too; the current revision and the
    compact revision never go back, and rows are only added above the current
    revision. *)
Theorem store_invariant w w' :
  world_wf w → rtc timely_step w w' →
  world_wf w' ∧ reach (sp_ts (w_rpc w')) (w_db w) (w_db w') ∧
  current_rev (kv (w_db w)) ≤ current_rev (kv (w_db w')) ∧
  compact_rev (w_db w) ≤ compact_rev (w_db w') ∧
  ∀ r, r ∈ kv (w_db w') → r ∈ kv (w_db w) ∨ current_rev (kv (w_db w)) < r_rev r.
Proof using All.
  intros Hw Hrun. destruct (run_guarantee _ _ Hw Hrun) as (Hw' & Hr & Hl).
  assert (db_wf (sp_ts (w_rpc w')) (w_db w)) as Hwf.
  { eapply db_wf_mono; [apply Hw|]. by apply sp_ts_mono. }
  destruct (grows_reach _ _ _ Hwf Hr) as [Hc Hg].
  split_and!; [done..|by eapply compact_rev_reach|done].
Qed.

(** C13: in every database a run produces, a row that replaced another records it:
    if the replaced row is still in the log, it was live, its value is the
    recorded old value and its create revision the same, and no row of the key
    lies between the two.  A row without a predecessor starts a new life of the
    key with its own revision. *)
Theorem history_chain w w' r :
  world_wf w → rtc timely_step w w' → r ∈ kv (w_db w') →
  match r_prev_revision r with
  | None => r_created r = true ∧ r_create_revision r = Some (r_rev r) ∧ r_old_value r = None
  | Some p => p < r_rev r ∧ ∀ r', r' ∈ kv (w_db w') → r_key r' = r_key r →
      (r_rev r' = p → r_deleted r' = false ∧ r_value r' = r_old_value r ∧
                      r_create_revision r' = r_create_revision r) ∧
      ¬ (p < r_rev r' < r_rev r)
  end.
Proof using All.
  intros Hw Hrun Hr. destruct (run_guarantee _ _ Hw Hrun) as ([Hwf _] & _ & _).
  destruct (wf_rows _ _ Hwf r Hr) as [Hrev _ _ _ Hcr Hup].
  destruct (r_prev_revision r) as [p|] eqn:Hp.
  - destruct (r_created r); [destruct Hcr as (_ & _ & ? & _); congruence|].
    destruct Hup as (p' & c & [= <-] & _ & Hlt); [done|]. split; [lia|]. intros r' Hr' Hk. split.
    + intros E. destruct (wf_chain _ _ Hwf r p r') as [_ H]; auto. lia.
    + intros [H1 H2]. destruct (wf_chain _ _ Hwf r p r') as [H _]; auto. lia.
  - destruct (r_created r); [naive_solver|]. destruct Hup as (p' & c & ? & _); congruence.
Qed.

End steps.

(** ** Concrete runs *)

Lemma run2_reached : rtc (timely_step (SP := solo)) (world_of empty_db) run2.
Proof.
  eapply rtc_l; [split; [by apply sim_clock|apply (step_Create _ "k" (Some "a"%string) 0)]|].
  eapply rtc_l; [split; [by apply sim_clock|apply (step_Update _ "k" (Some "b"%string) 100 0)]|].
  apply rtc_refl.
Qed.

Lemma store_invariant_witness :
  world_wf (SP := solo) run2 ∧ current_rev (kv (w_db (world_of empty_db))) ≤ current_rev (kv (w_db run2)).
Proof.
  destruct (@store_invariant solo solo_laws (world_of empty_db) run2 solo_start run2_reached)
    as (H1 & _ & H3 & _). split; [exact H1|exact H3].
Defined.

Definition k_row0 : kv_row :=
  mk_kv_row 0 100 "k" (Some "a"%string) None (Some 0) false true (Some 100) None.

Lemma history_chain_witness : r_deleted k_row0 = false ∧ r_value k_row0 = r_old_value k_row.
Proof.
  assert (k_row ∈ kv (w_db run2)) as Hin by (vm_compute; right; left).
  assert (k_row0 ∈ kv (w_db run2)) as Hin0 by (vm_compute; left).
  destruct (@history_chain solo solo_laws (world_of empty_db) run2 k_row solo_start run2_reached Hin)
    as [_ H].
  destruct (H k_row0 Hin0 eq_refl) as [H' _]. destruct (H' eq_refl) as (H1 & H2 & _).
  split; [exact H1|exact H2].
Defined.
