(* ===== verification/Safe.v ===== *)
(** * Interference-safe computations

    [Safe m]: whatever other replicas do and whichever calls fail, [m] keeps the
    invariant of the database and changes it only by commits the other replicas
    expect.  The store's operations are safe, and safety is closed under the
    constructs the handlers are written with, so [safe] proves it for them. *)

From Stdlib Require Import Ascii String.
From S2P Require Import Prelude Go Spanner Rows Invariant StoreRead StoreWrite StoreTxn StoreCompact StoreInvariant.

Section safe.
Context `{SP : Spanner} `{!SpannerLaws SP}.

(** Calls are only added, and when the timestamps up to the end fit an [int64],
    the guarantee holds. *)
Record Safe {A} (m : ST world A) : Prop := mk_Safe {
  safe_rpc w : (w_rpc w ≤ w_rpc (m w).2)%nat;
  safe_guarantee w : world_wf w → sp_ts (w_rpc (m w).2) < 2 ^ 63 → guarantee w (m w).2;
}.

Lemma safe_ret {A} (a : A) : Safe (mret a).
Proof. split; [done|]. intros. by apply guarantee_refl. Qed.

Lemma safe_bind {A B} (m : ST world A) (f : A → ST world B) :
  Safe m → (∀ a, Safe (f a)) → Safe (mbind f m).
Proof using All.
  intros [Hr Hg] Hf. unfold mbind, st_bind. split; intros w.
  - specialize (Hr w). destruct (m w) as [a w1]. cbn [snd] in Hr.
    pose proof (safe_rpc _ (Hf a) w1). lia.
  - intros Hw Ht. specialize (Hr w). specialize (Hg w Hw). destruct (m w) as [a w1]. cbn [snd] in *.
    pose proof (safe_rpc _ (Hf a) w1) as Hr'.
    pose proof (sp_ts_mono _ _ Hr') as Hts.
    assert (guarantee w w1) as H1 by (apply Hg; lia).
    eapply guarantee_trans; [done|]. apply Hf; [apply H1|done].
Qed.

(** ** Calls are only added *)

Definition mono {A} (m : ST world A) : Prop := ∀ w, (w_rpc w ≤ w_rpc (m w).2)%nat.

Lemma mono_ret {A} (a : A) : mono (mret a).
Proof. intros w. done. Qed.

Lemma mono_bind {A B} (m : ST world A) (f : A → ST world B) :
  mono m → (∀ a, mono (f a)) → mono (mbind f m).
Proof.
  intros Hm Hf w. unfold mbind, st_bind. specialize (Hm w). destruct (m w) as [a w1].
  specialize (Hf a w1). cbn [snd] in Hm. lia.
Qed.

Lemma mono_single {A} (q : _ → _ → res A) : mono (single q).
Proof. intros w. unfold single. cbn. lia. Qed.

Lemma mono_txn {C} (body : txn_body C) c : mono (read_write_txn body c).
Proof.
  intros w. unfold read_write_txn.
  destruct (aborted_attempts _ _ _ _ _) as [db [[e|] c']]; [cbn; lia|].
  destruct (body _ _ _) as [[ms|e] c'']; [destruct (commit _ _ _)|]; cbn; lia.
Qed.

Lemma mono_apply ms : mono (client_apply ms).
Proof. intros w. unfold client_apply. destruct (commit _ _ _). cbn. lia. Qed.

Lemma mono_notify rev : mono (notify rev).
Proof. intros w. destruct (notify_run rev w) as (_ & _ & ->). done. Qed.

Lemma mono_spawn rev : mono (spawn_compaction rev).
Proof. intros w. done. Qed.

(** A primitive whose guarantee needs only its own timestamp. *)
Lemma safe_intro {A} (m : ST world A) :
  mono m →
  (∀ w, world_wf w → clock_ok 0 w → guarantee w (m w).2) → Safe m.
Proof using All.
  intros Hr Hg. split; [done|]. intros w Hw Ht. apply Hg; [done|].
  unfold clock_ok. rewrite Nat.add_0_r. pose proof (sp_ts_mono _ _ (Hr w)). lia.
Qed.

End safe.

#[export] Hint Resolve mono_ret mono_single mono_txn mono_apply mono_notify mono_spawn : setcd.
#[export] Hint Resolve safe_ret : setcd.

(** Walk through a computation: binds, then case analyses. *)
Ltac walk bind :=
  cbv zeta;
  repeat first
    [ solve [eauto with setcd]
    | bind ()
    | match goal with
      | |- context [match ?x with _ => _ end] => destruct x
      end ].

Ltac mono := walk ltac:(fun _ => apply mono_bind; [|intros]).
Ltac safe := walk ltac:(fun _ => apply safe_bind; [|intros]).

Section store_safe.
Context `{SP : Spanner} `{!SpannerLaws SP}.

Lemma mono_CurrentRevision : mono CurrentRevision.
Proof. unfold CurrentRevision. mono. Qed.
Lemma mono_compactRevision : mono compactRevision.
Proof. unfold compactRevision. mono. Qed.
Hint Resolve mono_CurrentRevision mono_compactRevision : setcd.

Lemma mono_cas_outcome r : mono (cas_outcome r).
Proof. unfold cas_outcome. mono. Qed.
Hint Resolve mono_cas_outcome : setcd.

Lemma safe_CurrentRevision : Safe CurrentRevision.
Proof using All. apply safe_intro; [auto with setcd|]. intros. by apply CurrentRevision_guarantee. Qed.

Lemma safe_Get key revision : Safe (Get key revision).
Proof using All.
  apply safe_intro; [unfold Get, get_at; mono|]. intros. by apply Get_guarantee.
Qed.

Lemma safe_List prefix startKey limit revision : Safe (List prefix startKey limit revision).
Proof using All. apply safe_intro; [unfold List; mono|]. intros. by apply List_guarantee. Qed.

Lemma safe_Count prefix startKey revision : Safe (Count prefix startKey revision).
Proof using All. apply safe_intro; [unfold Count, count_at; mono|]. intros. by apply Count_guarantee. Qed.

Lemma safe_After prefix afterRev limit : Safe (After prefix afterRev limit).
Proof using All. apply safe_intro; [unfold After, after_at; mono|]. intros. by apply After_guarantee. Qed.

Lemma safe_Create key value leaseID : Safe (Create key value leaseID).
Proof using All. apply safe_intro; [unfold Create; mono|]. intros. by apply Create_guarantee. Qed.

Lemma safe_Update key value revision leaseID : Safe (Update key value revision leaseID).
Proof using All. apply safe_intro; [unfold Update; mono|]. intros. by apply Update_guarantee. Qed.

Lemma safe_Delete key revision : Safe (Delete key revision).
Proof using All. apply safe_intro; [unfold Delete; mono|]. intros. by apply Delete_guarantee. Qed.

Lemma safe_DeleteIfLease key leaseID : Safe (DeleteIfLease key leaseID).
Proof using All.
  apply safe_intro; [unfold DeleteIfLease; mono|]. intros. by apply DeleteIfLease_guarantee.
Qed.

Lemma safe_AtomicTxn compares successOps failureOps :
  Forall known successOps → Forall known failureOps →
  Safe (AtomicTxn compares successOps failureOps).
Proof using All.
  intros. apply safe_intro; [unfold AtomicTxn; mono|]. intros. by apply AtomicTxn_guarantee.
Qed.

Lemma safe_Compact targetRev : int64_range targetRev → Safe (Compact targetRev).
Proof using All.
  intros. apply safe_intro; [unfold Compact; mono|]. intros. by apply Compact_guarantee.
Qed.

Lemma safe_compactRevision : Safe compactRevision.
Proof using All. apply safe_intro; [auto with setcd|]. intros. by apply compactRevision_guarantee. Qed.

Lemma mono_compactRows_loop fuel targetTS total : mono (compactRows_loop fuel targetTS total).
Proof. revert total. induction fuel as [|fuel IH]; intros total; cbn; mono. Qed.
Hint Resolve mono_compactRows_loop : setcd.

Lemma safe_run_compaction fuel : Safe (run_compaction fuel).
Proof using All.
  apply safe_intro; [|intros; by apply run_compaction_guarantee]. intros w. unfold run_compaction.
  destruct (w_compactions w) as [|rev rest]; [done|].
  apply (mono_compactRows_loop fuel (revToTS rev) 0 (mk_world (w_db w) (w_rpc w) (w_notify w) rest)).
Qed.

Lemma safe_autoCompact fuel age : Safe (autoCompact_tick fuel age).
Proof using All.
  apply safe_intro; [unfold autoCompact_tick, compactRows; mono|]. intros. by apply autoCompact_tick_guarantee.
Qed.

(** A streamed query is a read. *)
Lemma safe_stream {A} (q : _ → _ → list A) : Safe (Spanner.stream q).
Proof using All.
  apply safe_intro; [intros w; cbn; lia|]. intros w Hw _. by apply guarantee_read, seen_snapshot.
Qed.

Lemma safe_stream_leases : Safe stream_leases.
Proof using All.
  apply safe_intro; [intros w; cbn; lia|]. intros w Hw _. by apply guarantee_read, seen_snapshot.
Qed.

(** [Apply] of mutations of [kv_lease] only. *)
Lemma safe_apply_lease m :
  match m with InsertLease _ _ | DeleteLease _ => True | _ => False end → Safe (client_apply [m]).
Proof using All.
  intros Hm. apply safe_intro; [apply mono_apply|]. intros w Hw _. apply client_apply_guarantee_or; [done|].
  intros db _. destruct m; try done; cbn.
  - destruct (kv_lease db !! _); [done|]. right. split; [apply step_lease|by left].
  - right. split; [apply step_lease|by left].
Qed.

End store_safe.

#[export] Hint Resolve safe_CurrentRevision safe_Get safe_List safe_Count safe_After safe_Create
  safe_Update safe_Delete safe_DeleteIfLease safe_AtomicTxn safe_Compact safe_compactRevision
  safe_run_compaction safe_autoCompact safe_stream safe_stream_leases : setcd.
