(* ===== verification/KVServer.v ===== *)
(** * pkg/server/kv.go: the etcd KV service

    Requests and responses with the fields the handlers read and set, the
    conversions, and the handlers [Range], [Put], [DeleteRange], [Txn] (with its
    atomic and its non-atomic path) and [Compact] over the store.  Two functions
    of packages outside the repository are parameters, the class [Grpc]. *)

From Stdlib Require Import Ascii String.
From S2P Require Import Prelude Go Spanner Rows Invariant StoreRead StoreWrite StoreTxn StoreCompact.

Open Scope string_scope.
Open Scope list_scope.
Open Scope Z_scope.

(** ** Messages *)

Record ResponseHeader := mk_ResponseHeader {
  ClusterId : Z; MemberId : Z; Revision : Z; RaftTerm : Z;
}.

Record KeyValue := mk_KeyValue {
  pk_Key : string;
  pk_Value : option string;
  pk_ModRevision : Z;
  pk_CreateRevision : Z;
  pk_Version : Z;
  pk_Lease : Z;
}.

Record RangeRequest := mk_RangeRequest {
  rr_Key : string;
  rr_RangeEnd : string;
  rr_Limit : Z;
  rr_Revision : Z;
  rr_KeysOnly : bool;
  rr_CountOnly : bool;
}.

Record RangeResponse := mk_RangeResponse {
  rresp_Header : ResponseHeader; rresp_Kvs : list KeyValue; rresp_Count : Z;
}.

Record PutRequest := mk_PutRequest {
  pr_Key : string;
  pr_Value : option string;
  pr_Lease : Z;
  pr_PrevKv : bool;
  pr_IgnoreValue : bool;
  pr_IgnoreLease : bool;
}.

Record PutResponse := mk_PutResponse {
  presp_Header : ResponseHeader; presp_PrevKv : option KeyValue;
}.

Record DeleteRangeRequest := mk_DeleteRangeRequest {
  dr_Key : string; dr_RangeEnd : string; dr_PrevKv : bool;
}.

Record DeleteRangeResponse := mk_DeleteRangeResponse {
  dresp_Header : ResponseHeader; dresp_Deleted : Z; dresp_PrevKvs : list KeyValue;
}.

(** The targets and results the code names; other numbers exist in the protocol. *)
Inductive CompareTarget :=
| Compare_VERSION | Compare_CREATE | Compare_MOD | Compare_VALUE | Compare_Target (n : Z).

Inductive CompareResult :=
| Compare_EQUAL | Compare_GREATER | Compare_LESS | Compare_NOT_EQUAL | Compare_Result (n : Z).

(** A compare, with what its getters return (zero for the cases of the union it
    does not hold). *)
Record Compare := mk_Compare {
  c_Key : string;
  c_Target : CompareTarget;
  c_Result : CompareResult;
  c_Version : Z;
  c_CreateRevision : Z;
  c_ModRevision : Z;
  c_Value : option string;
}.

Inductive RequestOp :=
| RequestRange (r : RangeRequest)
| RequestPut (r : PutRequest)
| RequestDeleteRange (r : DeleteRangeRequest)
| RequestOther.

Inductive ResponseOp :=
| ResponseRange (r : RangeResponse)
| ResponsePut (r : PutResponse)
| ResponseDeleteRange (r : DeleteRangeResponse).

Record TxnRequest := mk_TxnRequest {
  t_Compare : list Compare; t_Success : list RequestOp; t_Failure : list RequestOp;
}.

Record TxnResponse := mk_TxnResponse {
  tresp_Header : ResponseHeader; tresp_Succeeded : bool; tresp_Responses : list ResponseOp;
}.

(** ** Helpers *)

Definition header (rev : Z) : ResponseHeader := mk_ResponseHeader 1 1 rev 1.

Definition toProtoKV (kv : KV) : KeyValue :=
  mk_KeyValue (Key kv) (Value kv) (Rev kv) (CreateRevision kv)
    (int64 (Rev kv - CreateRevision kv + 1)) (LeaseID kv).

(** The string "\x00". *)
Definition nul : string := String (ascii_of_N 0) EmptyString.

Definition rangeToPrefix (key end_ : string) : string :=
  if bool_decide (end_ = nul) then ""
  else if (0 <? Z.of_nat (String.length end_)) && (0 <? Z.of_nat (String.length key))
          && HasPrefix end_ (str_init key)
       then str_init key
       else key.

Definition compareInt (actual expected : Z) (op : CompareResult) : bool :=
  match op with
  | Compare_EQUAL => actual =? expected
  | Compare_NOT_EQUAL => negb (actual =? expected)
  | Compare_GREATER => expected <? actual
  | Compare_LESS => actual <? expected
  | Compare_Result _ => false
  end.

(** [string(b)] of a byte slice, nil included. *)
Definition bytes_string (b : option string) : string := default "" b.

Definition compareBytes (actual expected : option string) (op : CompareResult) : bool :=
  match op with
  | Compare_EQUAL => bool_decide (bytes_string actual = bytes_string expected)
  | Compare_NOT_EQUAL => bool_decide (bytes_string actual ≠ bytes_string expected)
  | _ => false
  end.

Definition boolToInt (b : bool) : Z := if b then 1 else 0.

Definition unsupportedTarget (n : Z) : error :=
  StatusError InvalidArgument "unsupported compare target: %v" [ArgZ n].

(** The comparison both Txn paths make, [None] for a target they do not support. *)
Definition evalCompare (c : Compare) (kv : option KV) : option bool :=
  match c_Target c with
  | Compare_VERSION =>
      let version := match kv with Some kv => int64 (Rev kv - CreateRevision kv + 1) | None => 0 end in
      Some (compareInt version (c_Version c) (c_Result c))
  | Compare_CREATE =>
      let createRev := match kv with Some kv => CreateRevision kv | None => 0 end in
      Some (compareInt createRev (c_CreateRevision c) (c_Result c))
  | Compare_MOD =>
      let modRev := match kv with Some kv => Rev kv | None => 0 end in
      Some (compareInt modRev (c_ModRevision c) (c_Result c))
  | Compare_VALUE =>
      let val := match kv with Some kv => Value kv | None => None end in
      Some (compareBytes val (c_Value c) (c_Result c))
  | Compare_Target _ => None
  end.

Definition toTxnCompare (c : Compare) : TxnCompare :=
  match c_Target c with
  | Compare_Target n => mk_TxnCompare (c_Key c) None (Some (unsupportedTarget n))
  | _ => mk_TxnCompare (c_Key c) (Some (λ kv, default false (evalCompare c kv))) None
  end.

Fixpoint toStoreOps (ops : list RequestOp) : res (list TxnOp) :=
  match ops with
  | [] => Ok []
  | op :: ops =>
      match
        (match op with
         | RequestRange r => Ok (mk_TxnOp TxnOpGet (rr_Key r) None 0)
         | RequestPut r => Ok (mk_TxnOp TxnOpPut (pr_Key r) (pr_Value r) (pr_Lease r))
         | RequestDeleteRange r => Ok (mk_TxnOp TxnOpDelete (dr_Key r) None 0)
         | RequestOther => Err (StatusError InvalidArgument "unsupported Txn op type" [])
         end : res TxnOp)
      with
      | Err e => Err e
      | Ok o => match toStoreOps ops with Ok os => Ok (o :: os) | Err e => Err e end
      end
  end.

Definition duplicateKeyErr (key : string) : error :=
  StatusError InvalidArgument "duplicate mutation for key %q in single Txn branch" [ArgS key].

(** An operation AtomicTxn cannot express. *)
Definition complexOp (op : RequestOp) : bool :=
  match op with
  | RequestRange rr =>
      (0 <? Z.of_nat (String.length (rr_RangeEnd rr))) || negb (rr_Revision rr =? 0)
      || rr_CountOnly rr || rr_KeysOnly rr || negb (rr_Limit rr =? 0)
  | RequestPut pr => pr_IgnoreValue pr || pr_IgnoreLease pr
  | RequestDeleteRange dr => 0 <? Z.of_nat (String.length (dr_RangeEnd dr))
  | RequestOther => false
  end.

Definition txnNeedsNonAtomicFallback (r : TxnRequest) : bool :=
  existsb complexOp (t_Success r) || existsb complexOp (t_Failure r).

(** The response of one operation of the atomic path. *)
Definition txnResponse (commitRev : Z) (op : RequestOp) (r : TxnResult) : list ResponseOp :=
  match op with
  | RequestRange _ =>
      [ResponseRange
         (match res_KV r with
          | Some kv => mk_RangeResponse (header commitRev) [toProtoKV kv] 1
          | None => mk_RangeResponse (header commitRev) [] 0
          end)]
  | RequestPut pr =>
      [ResponsePut (mk_PutResponse (header commitRev)
                      (if pr_PrevKv pr then toProtoKV <$> res_KV r else None))]
  | RequestDeleteRange dr =>
      [ResponseDeleteRange (mk_DeleteRangeResponse (header commitRev) (boolToInt (res_Ok r))
                              (if dr_PrevKv dr then option_list (toProtoKV <$> res_KV r) else []))]
  | RequestOther => []
  end.

(** The loop over the executed branch; a missing result reads as the zero one. *)
Fixpoint txnResponses (commitRev : Z) (ops : list RequestOp) (results : list TxnResult) :
    list ResponseOp :=
  match ops with
  | [] => []
  | op :: ops =>
      match results with
      | [] => txnResponse commitRev op (mk_TxnResult None false) ++ txnResponses commitRev ops []
      | r :: results => txnResponse commitRev op r ++ txnResponses commitRev ops results
      end
  end.

(** The key the duplicate check of the non-atomic path looks at, "" for none. *)
Definition mutatedKey (op : RequestOp) : string :=
  match op with
  | RequestPut pr => pr_Key pr
  | RequestDeleteRange dr => if bool_decide (dr_RangeEnd dr = "") then dr_Key dr else ""
  | _ => ""
  end.

Fixpoint duplicateRequestKey (seen : gset string) (ops : list RequestOp) : option string :=
  match ops with
  | [] => None
  | op :: ops =>
      let key := mutatedKey op in
      if bool_decide (key = "") then duplicateRequestKey seen ops
      else if bool_decide (key ∈ seen) then Some key
      else duplicateRequestKey ({[key]} ∪ seen) ops
  end.

(** ** Functions of other packages *)

(** [status.FromError(err)], whether the error carries a gRPC status, and
    [err.Error()]. *)
Class Grpc := { status_FromError : error → bool; error_Error : error → string }.

(** A status error carries a status; the store's sentinels, made with
    [errors.New], and what [fmt.Errorf] makes without [%w], do not. *)
Class GrpcLaws (G : Grpc) : Prop := {
  FromError_status c f a : status_FromError (StatusError c f a) = true;
  FromError_sentinel e :
    e ∈ [ErrKeyNotFound; ErrKeyExists; ErrRevisionMismatch; ErrCompacted] → status_FromError e = false;
  FromError_Errorf f a : status_FromError (Errorf f a) = false;
}.

Definition toGRPCErr `{Grpc} (err : error) : error :=
  match err with
  | ErrKeyExists => StatusError AlreadyExists "key already exists" []
  | ErrKeyNotFound => StatusError NotFound "key not found" []
  | ErrRevisionMismatch => StatusError FailedPrecondition "revision mismatch" []
  | ErrCompacted => StatusError OutOfRange "requested revision has been compacted" []
  | _ => StatusError Internal (error_Error err) []
  end.

(** What the Txn paths do with a store error. *)
Definition txnErr `{Grpc} (err : error) : error :=
  if status_FromError err then err else toGRPCErr err.

(** ** Handlers *)

Section handlers.
Context `{SP : Spanner} `{G : Grpc}.

Definition Range (r : RangeRequest) : ST world (res RangeResponse) :=
  let key := rr_Key r in
  let end_ := rr_RangeEnd r in
  if bool_decide (end_ = "") then
    g ← Get key (rr_Revision r);
    mret (match g with
          | (_, Err err) => Err (toGRPCErr err)
          | (curRev, Ok kv) =>
              Ok (match kv with
                  | Some kv => if negb (Deleted kv)
                               then mk_RangeResponse (header curRev) [toProtoKV kv] 1
                               else mk_RangeResponse (header curRev) [] 0
                  | None => mk_RangeResponse (header curRev) [] 0
                  end)
          end)
  else
    let prefix := rangeToPrefix key end_ in
    let startKey := key in
    if rr_CountOnly r then
      c ← Count prefix startKey (rr_Revision r);
      mret (match c with
            | (_, Err err) => Err (toGRPCErr err)
            | (curRev, Ok count) => Ok (mk_RangeResponse (header curRev) [] count)
            end)
    else
      l ← List prefix startKey (rr_Limit r) (rr_Revision r);
      mret (match l with
            | (_, _, Err err) => Err (toGRPCErr err)
            | (curRev, _, Ok kvs) =>
                Ok (mk_RangeResponse (header curRev)
                      (if negb (rr_KeysOnly r) then toProtoKV <$> kvs
                       else (λ kv, mk_KeyValue (Key kv) None 0 0 0 0) <$> kvs)
                      (Z.of_nat (length kvs)))
            end).

Definition Put (r : PutRequest) : ST world (res PutResponse) :=
  let key := pr_Key r in
  c ← Create key (pr_Value r) (pr_Lease r);
  match c with
  | Err err =>
      if bool_decide (err = ErrKeyExists) then
        g ← Get key 0;
        match g.2 with
        | Err gerr => mret (Err (toGRPCErr gerr))
        | Ok kv =>
            let prevModRev := match kv with Some kv => Rev kv | None => 0 end in
            try u := Update key (pr_Value r) prevModRev (pr_Lease r)
              catch err => mret (Err (toGRPCErr err));
            let '(rev, kv, _) := u in
            mret (Ok (mk_PutResponse (header rev) (if pr_PrevKv r then toProtoKV <$> kv else None)))
        end
      else mret (Err (toGRPCErr err))
  | Ok rev => mret (Ok (mk_PutResponse (header rev) None))
  end.

(** The loop of [DeleteRange]: deleted, previous values and last revision so far. *)
Fixpoint deleteKeys (prevKv : bool) (kvs : list KV) (acc : Z * list KeyValue * Z) :
    ST world (Z * list KeyValue * Z) :=
  match kvs with
  | [] => mret acc
  | kv :: kvs =>
      d ← Delete (Key kv) 0;
      let '(deleted, prevKvs, lastRev) := acc in
      match (d : res (Z * option KV * bool)) with
      | Err _ => deleteKeys prevKv kvs acc
      | Ok (rev, prev, ok) =>
          deleteKeys prevKv kvs
            (if ok then (deleted + 1,
                         if prevKv then prevKvs ++ option_list (toProtoKV <$> prev) else prevKvs,
                         rev)
             else acc)
      end
  end.

(** [if lastRev == 0 { lastRev, _ = CurrentRevision() }]. *)
Definition revisionOr (lastRev : Z) : ST world Z :=
  if lastRev =? 0 then (cur ← CurrentRevision; mret (or_zero cur)) else mret lastRev.

Definition DeleteRange (r : DeleteRangeRequest) : ST world (res DeleteRangeResponse) :=
  let key := dr_Key r in
  let end_ := dr_RangeEnd r in
  if bool_decide (end_ = "") then
    try d := Delete key 0 catch err => mret (Err (toGRPCErr err));
    let '(rev, prev, ok) := d in
    mret (Ok (mk_DeleteRangeResponse (header rev) (boolToInt ok)
                (if dr_PrevKv r then option_list (toProtoKV <$> prev) else [])))
  else
    let prefix := rangeToPrefix key end_ in
    l ← List prefix key 0 0;
    match l.2 with
    | Err err => mret (Err (toGRPCErr err))
    | Ok kvs =>
        acc ← deleteKeys (dr_PrevKv r) kvs (0, [], 0);
        let '(deleted, prevKvs, lastRev) := acc in
        lastRev ← revisionOr lastRev;
        mret (Ok (mk_DeleteRangeResponse (header lastRev) deleted prevKvs))
    end.

(** *** The atomic path of Txn *)

Definition txnAtomic (r : TxnRequest) : ST world (res TxnResponse) :=
  let compares := toTxnCompare <$> t_Compare r in
  match toStoreOps (t_Success r), toStoreOps (t_Failure r) with
  | Err err, _ => mret (Err err)
  | Ok _, Err err => mret (Err err)
  | Ok successOps, Ok failureOps =>
      match duplicateKey ∅ successOps, duplicateKey ∅ failureOps with
      | Some key, _ => mret (Err (duplicateKeyErr key))
      | None, Some key => mret (Err (duplicateKeyErr key))
      | None, None =>
          try out := AtomicTxn compares successOps failureOps catch err => mret (Err (txnErr err));
          let '(succeeded, results, commitRev) := (out : bool * list TxnResult * Z) in
          try commitRev := (if commitRev =? 0 then CurrentRevision else mret (Ok commitRev))
            catch cerr => mret (Err (toGRPCErr cerr));
          let ops := if succeeded then t_Success r else t_Failure r in
          mret (Ok (mk_TxnResponse (header commitRev) succeeded (txnResponses commitRev ops results)))
      end
  end.

(** *** The non-atomic path of Txn *)

Fixpoint evaluateCompare (compares : list Compare) : ST world (res bool) :=
  match compares with
  | [] => mret (Ok true)
  | c :: compares =>
      g ← Get (c_Key c) 0;
      match g.2 with
      | Err err => mret (Err err)
      | Ok kv =>
          match evalCompare c kv with
          | None => mret (Err (unsupportedTarget
                                 (match c_Target c with Compare_Target n => n | _ => 0 end)))
          | Some result => if result then evaluateCompare compares else mret (Ok false)
          end
      end
  end.

(** The Range operation of a Txn: [RangeEnd] is enforced on the keys returned. *)
Definition filterRange (rr : RangeRequest) (resp : RangeResponse) : RangeResponse :=
  let rEnd := rr_RangeEnd rr in
  if negb (bool_decide (rEnd = "")) && negb (bool_decide (rEnd = nul)) && negb (rr_CountOnly rr) then
    let filtered := filter (λ kv, String.ltb (pk_Key kv) rEnd = true) (rresp_Kvs resp) in
    mk_RangeResponse (rresp_Header resp) filtered (Z.of_nat (length filtered))
  else resp.

(** The Put operation of a Txn with [IgnoreValue] or [IgnoreLease]: a
    compare-and-swap on the revision it read. *)
Definition putIgnoring (pr : PutRequest) : ST world (res PutResponse) :=
  g ← Get (pr_Key pr) 0;
  match g.2 with
  | Err err => mret (Err err)
  | Ok None => mret (Err (StatusError NotFound "key not found" []))
  | Ok (Some cur) =>
      let value := if pr_IgnoreValue pr then Value cur else pr_Value pr in
      let leaseID := if pr_IgnoreLease pr then LeaseID cur else pr_Lease pr in
      try u := Update (pr_Key pr) value (Rev cur) leaseID catch err => mret (Err (toGRPCErr err));
      let '(newRev, prev, ok) := (u : Z * option KV * bool) in
      mret (if negb ok then
              Err (StatusError FailedPrecondition
                     "revision mismatch: concurrent update during IgnoreValue/IgnoreLease" [])
            else Ok (mk_PutResponse (header newRev)
                       (if pr_PrevKv pr then toProtoKV <$> prev else None)))
  end.

(** The loop of a range delete in a Txn: it stops at the first key outside the
    range and at the first error. *)
Fixpoint deleteKeysUntil (rangeEnd : string) (prevKv : bool) (kvs : list KV)
    (acc : Z * list KeyValue * Z) : ST world (res (Z * list KeyValue * Z)) :=
  match kvs with
  | [] => mret (Ok acc)
  | kv :: kvs =>
      if negb (bool_decide (rangeEnd = nul)) && negb (bool_decide (rangeEnd = ""))
         && negb (String.ltb (Key kv) rangeEnd)
      then mret (Ok acc)
      else
        try d := Delete (Key kv) 0 catch err => mret (Err (toGRPCErr err));
        let '(deleted, prevKvs, rev) := acc in
        let '(r, prev, ok) := (d : Z * option KV * bool) in
        deleteKeysUntil rangeEnd prevKv kvs
          (if ok then (deleted + 1,
                       if prevKv then prevKvs ++ option_list (toProtoKV <$> prev) else prevKvs, r)
           else acc)
  end.

Definition deleteRangeTxn (dr : DeleteRangeRequest) : ST world (res DeleteRangeResponse) :=
  let prefix := rangeToPrefix (dr_Key dr) (dr_RangeEnd dr) in
  l ← List prefix (dr_Key dr) 0 0;
  match l.2 with
  | Err err => mret (Err (toGRPCErr err))
  | Ok kvs =>
      try acc := deleteKeysUntil (dr_RangeEnd dr) (dr_PrevKv dr) kvs (0, [], 0) catch err => mret (Err err);
      let '(deleted, prevKvs, rev) := acc in
      try rev := (if rev =? 0 then CurrentRevision else mret (Ok rev))
        catch err => mret (Err (toGRPCErr err));
      mret (Ok (mk_DeleteRangeResponse (header rev) deleted prevKvs))
  end.

(** One operation: its response and the revision it reports. *)
Definition executeOp (op : RequestOp) : ST world (res (ResponseOp * Z)) :=
  match op with
  | RequestRange rr =>
      try resp := Range rr catch err => mret (Err err);
      mret (Ok (ResponseRange (filterRange rr resp), Revision (rresp_Header resp)))
  | RequestPut pr =>
      try resp := (if pr_IgnoreValue pr || pr_IgnoreLease pr then putIgnoring pr else Put pr)
        catch err => mret (Err err);
      mret (Ok (ResponsePut resp, Revision (presp_Header resp)))
  | RequestDeleteRange dr =>
      try resp := (if 0 <? Z.of_nat (String.length (dr_RangeEnd dr)) then deleteRangeTxn dr
                   else DeleteRange dr)
        catch err => mret (Err err);
      mret (Ok (ResponseDeleteRange resp, Revision (dresp_Header resp)))
  | RequestOther =>
      mret (Err (StatusError InvalidArgument "unsupported Txn op type in non-atomic path" []))
  end.

Fixpoint executeOps_loop (ops : list RequestOp) (responses : list ResponseOp) (lastRev : Z) :
    ST world (res (list ResponseOp * Z)) :=
  match ops with
  | [] => mret (Ok (responses, lastRev))
  | op :: ops =>
      try out := executeOp op catch err => mret (Err err);
      executeOps_loop ops (responses ++ [out.1]) out.2
  end.

Definition executeOps (ops : list RequestOp) : ST world (res (list ResponseOp * Z)) :=
  try out := executeOps_loop ops [] 0 catch err => mret (Err err);
  let '(responses, lastRev) := out in
  try lastRev := (if lastRev =? 0 then CurrentRevision else mret (Ok lastRev))
    catch err => mret (Err err);
  mret (Ok (responses, lastRev)).

Definition txnNonAtomic (r : TxnRequest) : ST world (res TxnResponse) :=
  match duplicateRequestKey ∅ (t_Success r), duplicateRequestKey ∅ (t_Failure r) with
  | Some key, _ => mret (Err (duplicateKeyErr key))
  | None, Some key => mret (Err (duplicateKeyErr key))
  | None, None =>
      try succeeded := evaluateCompare (t_Compare r) catch err => mret (Err (txnErr err));
      let ops := if (succeeded : bool) then t_Success r else t_Failure r in
      try out := executeOps ops catch err => mret (Err (txnErr err));
      let '(responses, rev) := out in
      mret (Ok (mk_TxnResponse (header rev) succeeded responses))
  end.

Definition Txn (r : TxnRequest) : ST world (res TxnResponse) :=
  if negb (txnNeedsNonAtomicFallback r) then txnAtomic r else txnNonAtomic r.

(** [KVServer.Compact]. *)
Definition CompactRPC (revision : Z) : ST world (res ResponseHeader) :=
  try rev := Compact revision catch err => mret (Err (toGRPCErr err));
  mret (Ok (header rev)).

End handlers.
