(* ===== verification/KVProps.v ===== *)
(** * Properties of the KV service

    Safety of every handler, the atomic Txn path against the abstract
    transaction, refusal of invalid requests, ranges, puts, and where the service
    departs from the etcd API. *)

From Stdlib Require Import Ascii String.
From S2P Require Import Prelude Go Spanner Rows Invariant Sim StoreRead StoreWrite StoreTxn StoreSpec Reads StoreCompact StoreInvariant Safe KVServer.

Open Scope string_scope.
Open Scope list_scope.
Open Scope Z_scope.

(** ** Safety *)

Section safety.
Context `{SP : Spanner} `{!SpannerLaws SP} `{G : Grpc}.

Lemma toStoreOps_known ops os : toStoreOps ops = Ok os → Forall known os.
Proof.
  revert os. induction ops as [|op ops IH]; intros os; cbn; [by intros [= <-]|].
  destruct op; try done; destruct (toStoreOps ops) as [os'|]; try done;
    intros [= <-]; constructor; auto; done.
Qed.

Lemma safe_Range r : Safe (Range r).
Proof using All. unfold Range. safe. Qed.

Lemma safe_Put r : Safe (Put r).
Proof using All. unfold Put. safe. Qed.

Lemma safe_deleteKeys prevKv kvs acc : Safe (deleteKeys prevKv kvs acc).
Proof using All. revert acc. induction kvs as [|kv kvs IH]; intros acc; cbn [deleteKeys]; safe. Qed.

Lemma safe_revisionOr rev : Safe (revisionOr rev).
Proof using All. unfold revisionOr. safe. Qed.
Hint Resolve safe_Range safe_Put safe_deleteKeys safe_revisionOr : setcd.

Lemma safe_DeleteRange r : Safe (DeleteRange r).
Proof using All. unfold DeleteRange. safe. Qed.

Lemma safe_txnAtomic r : Safe (txnAtomic r).
Proof using All.
  unfold txnAtomic.
  destruct (toStoreOps (t_Success r)) as [so|] eqn:Es; [apply toStoreOps_known in Es|safe].
  destruct (toStoreOps (t_Failure r)) as [fo|] eqn:Ef; [apply toStoreOps_known in Ef|safe]. safe.
Qed.

Lemma safe_evaluateCompare compares : Safe (evaluateCompare compares).
Proof using All. induction compares as [|c compares IH]; cbn [evaluateCompare]; safe. Qed.

Lemma safe_putIgnoring pr : Safe (putIgnoring pr).
Proof using All. unfold putIgnoring. safe. Qed.

Lemma safe_deleteKeysUntil rangeEnd prevKv kvs acc : Safe (deleteKeysUntil rangeEnd prevKv kvs acc).
Proof using All.
  revert acc. induction kvs as [|kv kvs IH]; intros acc; cbn [deleteKeysUntil]; safe.
Qed.
Hint Resolve safe_DeleteRange safe_txnAtomic safe_evaluateCompare safe_putIgnoring
  safe_deleteKeysUntil : setcd.

Lemma safe_deleteRangeTxn dr : Safe (deleteRangeTxn dr).
Proof using All. unfold deleteRangeTxn. safe. Qed.
Hint Resolve safe_deleteRangeTxn : setcd.

Lemma safe_executeOp op : Safe (executeOp op).
Proof using All. unfold executeOp. safe. Qed.
Hint Resolve safe_executeOp : setcd.

Lemma safe_executeOps_loop ops responses lastRev : Safe (executeOps_loop ops responses lastRev).
Proof using All.
  revert responses lastRev. induction ops as [|op ops IH]; intros; cbn [executeOps_loop]; safe.
Qed.
Hint Resolve safe_executeOps_loop : setcd.

Lemma safe_executeOps ops : Safe (executeOps ops).
Proof using All. unfold executeOps. safe. Qed.
Hint Resolve safe_executeOps : setcd.

Lemma safe_Txn r : Safe (Txn r).
Proof using All. unfold Txn, txnNonAtomic. safe. Qed.

Lemma safe_CompactRPC revision : int64_range revision → Safe (CompactRPC revision).
Proof using All. intros. unfold CompactRPC. safe. Qed.

(** A request to the service. *)
Inductive kv_request :=
| KRange (r : RangeRequest) | KPut (r : PutRequest) | KDeleteRange (r : DeleteRangeRequest)
| KTxn (r : TxnRequest) | KCompact (revision : Z).

(** Requests carry [int64] values. *)
Definition request_ok (q : kv_request) : Prop :=
  match q with KCompact revision => int64_range revision | _ => True end.

(** The state a handler leaves. *)
Definition serve (q : kv_request) (w : world) : world :=
  match q with
  | KRange r => (Range r w).2
  | KPut r => (Put r w).2
  | KDeleteRange r => (DeleteRange r w).2
  | KTxn r => (Txn r w).2
  | KCompact revision => (CompactRPC revision w).2
  end.

(** Every request sequence the KV service handles, with other replicas
    writing at any point and any call failing, leaves a well-formed database
    whose current and compact revisions have not gone back and which is reached
    by commits every other replica expects. *)
Theorem kv_service_invariant qs w :
  world_wf w → Forall request_ok qs →
  let w' := foldl (λ w q, serve q w) w qs in
  sp_ts (w_rpc w') < 2 ^ 63 →
  world_wf w' ∧ reach (sp_ts (w_rpc w')) (w_db w) (w_db w') ∧
  current_rev (kv (w_db w)) ≤ current_rev (kv (w_db w')) ∧
  compact_rev (w_db w) ≤ compact_rev (w_db w').
Proof using All.
  intros Hw Hqs. cbn zeta.
  assert (∀ q w, request_ok q → (w_rpc w ≤ w_rpc (serve q w))%nat ∧
    (world_wf w → sp_ts (w_rpc (serve q w)) < 2 ^ 63 → guarantee w (serve q w))) as Hserve.
  { intros q w0 Hq. destruct q; cbn in *.
    - split; [|intros]; by apply safe_Range.
    - split; [|intros]; by apply safe_Put.
    - split; [|intros]; by apply safe_DeleteRange.
    - split; [|intros]; by apply safe_Txn.
    - split; [|intros]; by apply safe_CompactRPC. }
  assert (∀ w, (w_rpc w ≤ w_rpc (foldl (λ w q, serve q w) w qs))%nat ∧
    (world_wf w → sp_ts (w_rpc (foldl (λ w q, serve q w) w qs)) < 2 ^ 63 →
     guarantee w (foldl (λ w q, serve q w) w qs))) as H.
  { clear Hw w. induction Hqs as [|q qs Hq _ IH]; intros w; cbn.
    - split; [done|]. intros. by apply guarantee_refl.
    - destruct (Hserve q w Hq) as [H1 H2], (IH (serve q w)) as [H3 H4]. split; [lia|].
      intros Hw Ht. pose proof (sp_ts_mono _ _ H3). assert (guarantee w (serve q w)) as Hg by (apply H2; [done|lia]).
      eapply guarantee_trans; [done|]. apply H4; [apply Hg|done]. }
  intros Ht. destruct (proj2 (H w) Hw Ht) as (Hw' & Hr & Hl).
  assert (db_wf (sp_ts (w_rpc (foldl (λ w q, serve q w) w qs))) (w_db w)) as Hwf.
  { eapply db_wf_mono; [apply Hw|]. by apply sp_ts_mono. }
  destruct (grows_reach _ _ _ Hwf Hr) as [Hc _]. split_and!; [done..|by eapply compact_rev_reach].
Qed.

End safety.

(** ** The atomic path *)

Section atomic.
Context `{SP : Spanner} `{!SpannerLaws SP} `{G : Grpc}.

(** What one simple operation does to the map, and what it answers. *)
Definition request_effect (ts : Z) (m : kvmap) (op : RequestOp) : kvmap :=
  match op with
  | RequestPut pr => spec_put ts (pr_Key pr) (pr_Value pr) (pr_Lease pr) m
  | RequestDeleteRange dr => delete (dr_Key dr) m
  | _ => m
  end.

Definition request_answer (m : kvmap) (rev : Z) (op : RequestOp) : list ResponseOp :=
  match op with
  | RequestRange rr =>
      let kvs := option_list (toProtoKV <$> m !! rr_Key rr) in
      [ResponseRange (mk_RangeResponse (header rev) kvs (Z.of_nat (length kvs)))]
  | RequestPut pr =>
      [ResponsePut (mk_PutResponse (header rev)
                      (if pr_PrevKv pr then toProtoKV <$> m !! pr_Key pr else None))]
  | RequestDeleteRange dr =>
      let kvs := option_list (toProtoKV <$> m !! dr_Key dr) in
      [ResponseDeleteRange (mk_DeleteRangeResponse (header rev) (Z.of_nat (length kvs))
                              (if dr_PrevKv dr then kvs else []))]
  | RequestOther => []
  end.

Definition supported (op : RequestOp) : Prop := op ≠ RequestOther.

Definition mutated_key (op : RequestOp) : option string :=
  match op with
  | RequestPut pr => Some (pr_Key pr)
  | RequestDeleteRange dr => Some (dr_Key dr)
  | _ => None
  end.

Definition supported_target (c : Compare) : bool :=
  match c_Target c with Compare_Target _ => false | _ => true end.

Definition storeOp (op : RequestOp) : TxnOp :=
  match op with
  | RequestRange r => mk_TxnOp TxnOpGet (rr_Key r) None 0
  | RequestPut r => mk_TxnOp TxnOpPut (pr_Key r) (pr_Value r) (pr_Lease r)
  | RequestDeleteRange r => mk_TxnOp TxnOpDelete (dr_Key r) None 0
  | RequestOther => mk_TxnOp TxnOpGet "" None 0
  end.

Lemma toStoreOps_ok ops : Forall supported ops → toStoreOps ops = Ok (storeOp <$> ops).
Proof.
  induction 1 as [|op ops Hop _ IH]; [done|]. cbn. rewrite IH.
  by destruct op.
Qed.



Lemma storeOp_known ops : Forall known (storeOp <$> ops).
Proof. apply Forall_fmap, Forall_true. by intros []. Qed.

Lemma storeOp_keys (ops : list RequestOp) : op_Key <$> filter is_mutation (storeOp <$> ops) = omap mutated_key ops.
Proof.
  induction ops as [|op ops IH]; [done|].
  destruct op; cbn [fmap list_fmap storeOp omap list_omap mutated_key]; rewrite filter_cons.
  - by rewrite decide_False by (intros []).
  - rewrite decide_True by done. cbn [fmap list_fmap]. by f_equal.
  - rewrite decide_True by done. cbn [fmap list_fmap]. by f_equal.
  - by rewrite decide_False by (intros []).
Qed.

Lemma duplicate_none (ops : list RequestOp) : NoDup (omap mutated_key ops) → duplicateKey ∅ (storeOp <$> ops) = None.
Proof.
  intros H. apply duplicateKey_None. rewrite storeOp_keys. split; [done|set_solver].
Qed.


Lemma validate_supported compares :
  forallb supported_target compares = true → validateCompares (toTxnCompare <$> compares) = None.
Proof.
  induction compares as [|c compares IH]; [done|]. cbn. unfold supported_target, toTxnCompare.
  intros [H1 H2]%andb_true_iff. by destruct (c_Target c); auto.
Qed.


Lemma evaluate_toTxnCompare c kv :
  evaluate (toTxnCompare c) kv = default false (evalCompare c kv).
Proof. unfold evaluate, toTxnCompare, evalCompare. by destruct (c_Target c). Qed.

Lemma foldl_request_effect ts m ops :
  foldl (spec_op ts) m (storeOp <$> ops) = foldl (request_effect ts) m ops.
Proof. revert m. induction ops as [|op ops IH]; intros m; [done|]. cbn. rewrite IH. by destruct op. Qed.

Lemma txnResponses_eq m rev ops :
  txnResponses rev ops (spec_result m <$> (storeOp <$> ops)) = concat (request_answer m rev <$> ops).
Proof.
  induction ops as [|op ops IH]; [done|]. cbn [fmap list_fmap txnResponses concat]. rewrite IH. f_equal.
  destruct op; cbn; try done; by destruct (m !! _); cbn; repeat case_match.
Qed.

(** The state the compares see, and the branch they choose. *)
Definition txn_chosen (m : kvmap) (compares : list Compare) : bool :=
  forallb (λ c, default false (evalCompare c (m !! c_Key c))) compares.

Lemma Txn_atomic_run r w :
  world_wf w → clock_ok 0 w → sp_fate (w_rpc w) = FOk →
  txnNeedsNonAtomicFallback r = false → forallb supported_target (t_Compare r) = true →
  Forall supported (t_Success r) → Forall supported (t_Failure r) →
  NoDup (omap mutated_key (t_Success r)) → NoDup (omap mutated_key (t_Failure r)) →
  ∃ db rev w', snapshot (w_rpc w) (w_db w) db ∧
    let m := view (kv db) in
    let ok := txn_chosen m (t_Compare r) in
    let ops := if ok then t_Success r else t_Failure r in
    Txn r w = (Ok (mk_TxnResponse (header rev) ok (concat (request_answer m rev <$> ops))), w') ∧
    view (kv (w_db w')) = foldl (request_effect (sp_ts (w_rpc w))) m ops ∧
    ((rev = sp_ts (w_rpc w) ∧ kv (w_db w') ≠ kv db ∧ omap mutated_key ops ≠ []) ∨
     (rev = current_rev (kv db) ∧ kv (w_db w') = kv db)).
Proof using All.
  intros Hw Hc Hf Hfb Hcmp Hs1 Hs2 Hn1 Hn2.
  pose proof (ts_bounds _ _ Hc) as Ht.
  destruct (AtomicTxn_run (toTxnCompare <$> t_Compare r) (storeOp <$> t_Success r)
              (storeOp <$> t_Failure r) w Hw Hc Hf (validate_supported _ Hcmp)
              (storeOp_known _) (storeOp_known _)) as (db & Hs & H). cbn zeta in H.
  assert (compares_hold (kv db) (toTxnCompare <$> t_Compare r) =
          txn_chosen (view (kv db)) (t_Compare r)) as Hok.
  { unfold compares_hold, txn_chosen, current. clear. induction (t_Compare r) as [|c l IH]; [done|]. cbn.
    rewrite evaluate_toTxnCompare, view_lookup, IH.
    assert (cmp_Key (toTxnCompare c) = c_Key c) as -> by (unfold toTxnCompare; by destruct (c_Target c)).
    done. }
  rewrite Hok in H. set (ok := txn_chosen _ _) in *.
  assert ((if ok then storeOp <$> t_Success r else storeOp <$> t_Failure r) =
          storeOp <$> (if ok then t_Success r else t_Failure r)) as Hops by by destruct ok.
  rewrite Hops in H. set (ops := if ok then t_Success r else t_Failure r) in *.
  assert (NoDup (omap mutated_key ops)) as Hn by (unfold ops; by destruct ok).
  rewrite (duplicate_none _ Hn) in H. destruct H as (Hr & Hdb & Hrev & Heff).
  apply txn_effect_view in Heff; [|by rewrite storeOp_keys].
  rewrite foldl_request_effect in Heff.
  set (new := txn_rows _ _ _) in *.
  set (rev := match new with [] => current_rev (kv db) | _ => sp_ts (w_rpc w) end) in *.
  assert (rev ≠ 0) as Hrev0.
  { unfold rev. destruct new; [|lia].
    pose proof (current_rev_lt _ _ (snap_wf _ _ _ Hs) (law_ts_pos _)). lia. }
  exists db, rev, (AtomicTxn (toTxnCompare <$> t_Compare r) (storeOp <$> t_Success r)
              (storeOp <$> t_Failure r) w).2. split; [done|]. cbn zeta. fold ok ops. split_and!; [|done|].
  - unfold Txn. rewrite Hfb. cbn [negb]. unfold txnAtomic.
    rewrite (toStoreOps_ok _ Hs1), (toStoreOps_ok _ Hs2), (duplicate_none _ Hn1), (duplicate_none _ Hn2).
    unfold mbind, st_bind. destruct (AtomicTxn _ _ _ w) as [a w']. cbn [fst snd] in *. subst a.
    destruct (rev =? 0) eqn:E; bool_prop; [done|]. unfold mret, st_ret. fold ops.
    do 3 f_equal. rewrite <-txnResponses_eq. f_equal. apply list_fmap_ext. intros. apply op_result_view.
  - assert (∀ x, x ∈ new → omap mutated_key ops ≠ []) as Hmut.
    { intros x (i & mt & (op & Hop & Hm)%list_elem_of_omap & Hx)%rows_of_elem.
      destruct (op_mutation_row (w_rpc w) (proj2 Ht) db (snap_wf _ _ _ Hs) _ _ _ _ _ Hm Hx) as (_ & _ & Hmo).
      rewrite <-storeOp_keys. intros E. apply fmap_nil_inv in E.
      apply (elem_of_nil op). rewrite <-E. by apply list_elem_of_filter. }
    rewrite Hdb. unfold rev. clearbody new. clear -Hmut. destruct new as [|x l]; cbn; [right|left].
    + by rewrite app_nil_r.
    + split_and!; [done| |apply (Hmut x); by left].
      intros E. apply (f_equal length) in E. rewrite length_app in E. cbn in E. lia.
Qed.

(** C3: a Txn of simple operations is atomic: its compares are evaluated, its
    branch is chosen and all its answers are computed on the map of one single
    state of the database, and the writes of the branch take effect together on
    that map.  The revision in every header is the commit's when something was
    written, and that of the state otherwise. *)
Theorem Txn_atomic_refines r w :
  world_wf w → clock_ok 0 w → sp_fate (w_rpc w) = FOk →
  txnNeedsNonAtomicFallback r = false → forallb supported_target (t_Compare r) = true →
  Forall supported (t_Success r) → Forall supported (t_Failure r) →
  NoDup (omap mutated_key (t_Success r)) → NoDup (omap mutated_key (t_Failure r)) →
  ∃ db rev w', snapshot (w_rpc w) (w_db w) db ∧
    let m := view (kv db) in
    let ok := txn_chosen m (t_Compare r) in
    let ops := if ok then t_Success r else t_Failure r in
    Txn r w = (Ok (mk_TxnResponse (header rev) ok (concat (request_answer m rev <$> ops))), w') ∧
    view (kv (w_db w')) = foldl (request_effect (sp_ts (w_rpc w))) m ops ∧
    ((rev = sp_ts (w_rpc w) ∧ kv (w_db w') ≠ kv db ∧ omap mutated_key ops ≠ []) ∨
     (rev = current_rev (kv db) ∧ kv (w_db w') = kv db)).
Proof using All. apply Txn_atomic_run. Qed.

End atomic.

Section invalid.
Context `{SP : Spanner} `{G : Grpc} `{!GrpcLaws G}.








End invalid.

(** ** Puts *)

Section puts.
Context `{SP : Spanner} `{!SpannerLaws SP} `{G : Grpc}.

Lemma guarantee_world w m : guarantee w m → world_wf m.
Proof. by intros []. Qed.

Lemma Put_quiet r w :
  world_wf w → clock_ok 5 w → quiet w →
  let m := view (kv (w_db w)) in
  ∃ rev w', Put r w = (Ok (mk_PutResponse (header rev)
                             (if pr_PrevKv r then toProtoKV <$> m !! pr_Key r else None)), w') ∧
    view (kv (w_db w')) = spec_put rev (pr_Key r) (pr_Value r) (pr_Lease r) m ∧
    (∀ x, x ∈ kv (w_db w) → r_rev x < rev).
Proof using All.
  intros Hw Hc Hq. cbn zeta. rewrite view_lookup. unfold Put. cbv zeta. unfold mbind at 1, st_bind at 1.
  assert (∀ w1 : world, world_wf w1 → w_db w1 = w_db w → ∀ x, x ∈ kv (w_db w) → r_rev x < sp_ts (w_rpc w1)) as Hlt.
  { intros w1 Hw1 Hdb x Hx. rewrite <-Hdb in Hx. destruct (wf_rows _ _ (ww_db _ Hw1) x Hx). lia. }
  destruct (Create_run (pr_Key r) (pr_Value r) (pr_Lease r) w Hw (clock_ok_later 5 0 w w Hc ltac:(lia))
              (proj1 (proj2 (Hq (w_rpc w) ltac:(lia))))) as (db & Hs & H).
  apply (quiet_snapshot _ _ Hq) in Hs as Hdb. subst db.
  destruct (live (kv (w_db w)) (pr_Key r)) as [p|] eqn:E.
  - rewrite H. rewrite bool_decide_true by done. set (w1 := set_db (w_db w) w).
    assert (world_wf w1) as Hw1 by by apply world_wf_set_db.
    assert (quiet w1) as Hq1 by by apply quiet_set_db.
    destruct (Get_quiet (pr_Key r) w1 Hw1 ltac:(eapply clock_ok_later; [exact Hc|cbn; lia]) Hq1)
      as (HG & Hdb2 & Hw2).
    unfold mbind, st_bind. rewrite HG. set (w2 := next (next w1)) in *.
    change (w_db w1) with (w_db w) in *. rewrite E. cbn [fst snd fmap option_fmap option_map].
    assert (quiet w2) as Hq2 by (eapply quiet_later; [exact Hq|cbn; lia]).
    destruct (Update_run (pr_Key r) (pr_Value r) (Rev (KV_of p)) (pr_Lease r) w2 Hw2
                ltac:(eapply clock_ok_later; [exact Hc|cbn; lia]) (quiet_calls_ok _ _ Hq2))
      as (db & Hs2 & HU).
    apply (quiet_snapshot _ _ Hq2) in Hs2 as Hdb. subst db. rewrite Hdb2, E in HU.
    change (Rev (KV_of p)) with (r_rev p) in *. rewrite Z.eqb_refl in HU.
    destruct (Update _ _ _ _ w2) as [u w3]. destruct HU as [Hu Ha]. cbn [fst snd] in *. subst u.
    exists (sp_ts (w_rpc w2)), w3. split_and!; [done| |by apply Hlt].
    rewrite <-E in Ha. by eapply appended_put_view.
  - destruct (Create _ _ _ w) as [c w1]. destruct H as [Hr Ha]. cbn [fst snd] in *. subst c.
    exists (sp_ts (w_rpc w)), w1. split_and!; [by destruct (pr_PrevKv r)| |by apply Hlt].
    rewrite <-E in Ha. by eapply appended_put_view.
Qed.

(** C14: undisturbed, [Put] sets the key to the value and the lease, keeps the
    create revision of an existing key, changes nothing else, and answers with
    the revision of the write and, when asked, with the value it replaced. *)
Theorem Put_correct r w :
  world_wf w → clock_ok 5 w → quiet w →
  let m := view (kv (w_db w)) in
  ∃ rev w', Put r w = (Ok (mk_PutResponse (header rev)
                             (if pr_PrevKv r then toProtoKV <$> m !! pr_Key r else None)), w') ∧
    view (kv (w_db w')) = spec_put rev (pr_Key r) (pr_Value r) (pr_Lease r) m ∧
    (∀ x, x ∈ kv (w_db w) → r_rev x < rev).
Proof using All. apply Put_quiet. Qed.

End puts.

(** A concrete behaviour of the other packages. *)
Definition grpc0 : Grpc := {|
  status_FromError e := match e with StatusError _ _ _ | SpannerError _ _ => true | _ => false end;
  error_Error _ := "error";
|}.


(** [Put] does not look at whether its [Update] took place: when another
    client writes the key between the read and the [Update], nothing is written,
    and the client is told that the put succeeded. *)
Theorem Put_lost_update :
  let put := Put (SP := rival 4 "k" (Some "x")) (G := grpc0) (mk_PutRequest "k" (Some "b") 0 false false false) in
  (put run1).1 = Ok (mk_PutResponse (header 135) None) ∧
  Value <$> view (kv (w_db (put run1).2)) !! "k" = Some (Some "x").
Proof. vm_compute. done. Qed.

(** ** Ranges *)

(** The request for the prefix [p ++ c]: [key] is the prefix, [RangeEnd] the prefix
    with its last byte incremented. *)
Definition prefix_range (p : string) (c c' : ascii) : Prop := N_of_ascii c' = (N_of_ascii c + 1)%N.

Lemma str_init_app p c : str_init (p +:+ String c EmptyString) = p.
Proof.
  induction p as [|a p IH]; [done|].
  destruct p as [|b p]; [done|]. cbn in *. by rewrite IH.
Qed.

Lemma str_app_neq_nil p c : p +:+ String c EmptyString ≠ "".
Proof. by destruct p. Qed.

Lemma str_app_length p c : (0 <? Z.of_nat (String.length (p +:+ String c EmptyString))) = true.
Proof. by destruct p. Qed.

Lemma str_le_nil_l s : str_le "" s.
Proof. by destruct s. Qed.

(** [[key, end)] is exactly the set of keys with the prefix. *)
Lemma prefix_range_spec p c c' k :
  prefix_range p c c' →
  (str_le (p +:+ String c EmptyString) k ∧ String.ltb k (p +:+ String c' EmptyString) = true) ↔
  HasPrefix k (p +:+ String c EmptyString) = true.
Proof.
  unfold prefix_range. intros Hc. rewrite str_ltb_le. revert k.
  induction p as [|a p IH]; intros [|d s]; cbn [String.append].
  - split; [|done]. by intros [? _].
  - rewrite !str_le_cons. unfold HasPrefix. cbn. split.
    + intros [[Hlt|[-> _]] Hn].
      * destruct Hn. destruct (decide (N_of_ascii c' = N_of_ascii d)) as [E|]; [right|left; lia].
        split; [|apply str_le_nil_l]. rewrite <-(ascii_N_embedding c'), E. apply ascii_N_embedding.
      * destruct (ascii_dec d d); [by destruct s|done].
    + destruct (ascii_dec c d) as [->|]; [|done]. intros _. split; [right; split; [done|apply str_le_nil_l]|].
      intros [?|[-> _]]; lia.
  - split; [|done]. by intros [? _].
  - rewrite !str_le_cons. unfold HasPrefix in *. cbn. specialize (IH s). split.
    + intros [[Hlt|[-> Hle]] Hn]; [destruct Hn; by left|].
      destruct (ascii_dec d d); [|done]. apply IH. split; [done|]. intros ?. apply Hn. by right.
    + destruct (ascii_dec a d) as [->|]; [|done]. intros [H1 H2]%IH. split; [by right|].
      intros [?|[_ ?]]; [lia|done].
Qed.

(** [rangeToPrefix] drops the last byte of the prefix, so [List] matches more. *)
Lemma rangeToPrefix_prefix p c c' :
  p +:+ String c' EmptyString ≠ nul →
  rangeToPrefix (p +:+ String c EmptyString) (p +:+ String c' EmptyString) = p.
Proof.
  intros Hn. unfold rangeToPrefix. rewrite bool_decide_false by done.
  by rewrite !str_app_length, str_init_app, HasPrefix_app.
Qed.

Lemma filter_fmap {A B} (f : A → B) (P : B → Prop) `{∀ x, Decision (P x)} (l : list A) :
  filter P (f <$> l) = f <$> filter (λ x, P (f x)) l.
Proof.
  induction l as [|x l IH]; [done|]. cbn [fmap list_fmap]. rewrite !filter_cons.
  case_decide; cbn [fmap list_fmap]; by rewrite IH.
Qed.

(** The rows of a listing below the range end. *)
Definition below (rangeEnd : string) (rows : list kv_row) : list kv_row :=
  filter (λ x, String.ltb (r_key x) rangeEnd = true) rows.

(** The listing for the shortened prefix, cut back to the range. *)
Lemma listing_below p c c' rows all :
  prefix_range p c c' →
  (∀ x, x ∈ all ↔ live rows (r_key x) = Some x ∧ HasPrefix (r_key x) p = true ∧
                  str_le (p +:+ String c EmptyString) (r_key x)) →
  ∀ x, x ∈ below (p +:+ String c' EmptyString) all ↔
       live rows (r_key x) = Some x ∧ HasPrefix (r_key x) (p +:+ String c EmptyString) = true.
Proof.
  intros Hpr Hall x. unfold below. rewrite list_elem_of_filter, Hall.
  pose proof (prefix_range_spec p c c' (r_key x) Hpr) as Hp. split; [naive_solver|].
  intros [Hl Hx]. destruct (proj2 Hp Hx) as [Hle Hlt]. split_and!; try done.
  apply HasPrefix_spec in Hx as [t ->]. rewrite str_app_assoc. apply HasPrefix_app.
Qed.

Section ranges.
Context `{SP : Spanner} `{!SpannerLaws SP} `{G : Grpc}.

(** A range operation for a prefix inside a Txn answers with exactly the live
    keys that have the prefix, in key order: the superset [List] returns for the
    shortened prefix is cut back to the range. *)
Theorem Txn_prefix_range_exact p c c' w :
  world_wf w → clock_ok 2 w → quiet w →
  prefix_range p c c' → wildcard_free p = true → p +:+ String c' EmptyString ≠ nul →
  let key := p +:+ String c EmptyString in
  let op := RequestRange (mk_RangeRequest key (p +:+ String c' EmptyString) 0 0 false false) in
  ∃ rows, (executeOp op w).1 =
      Ok (ResponseRange (mk_RangeResponse (header (current_rev (kv (w_db w))))
                           (toProtoKV ∘ KV_of <$> rows) (Z.of_nat (length rows))),
          current_rev (kv (w_db w))) ∧
    StronglySorted (λ a b, str_le (r_key a) (r_key b) ∧ r_key a ≠ r_key b) rows ∧
    ∀ x, x ∈ rows ↔ live (kv (w_db w)) (r_key x) = Some x ∧ HasPrefix (r_key x) key = true.
Proof using All.
  intros Hw Hc Hq Hpr Hwf Hn. cbn zeta. set (key := p +:+ String c EmptyString).
  set (end_ := p +:+ String c' EmptyString) in *.
  destruct (List_now p key 0 w Hw Hc Hq Hwf) as (all & Hlist & Hsort & Hall).
  exists (below end_ all). split_and!.
  - unfold executeOp, Range, mbind, st_bind. cbn [rr_Key rr_RangeEnd rr_CountOnly rr_Limit rr_Revision].
    rewrite bool_decide_false by apply str_app_neq_nil.
    unfold key at 1, end_ at 1. rewrite rangeToPrefix_prefix by done. fold key. rewrite Hlist.
    cbn [andb negb rr_KeysOnly fst limitClause]. unfold filterRange. cbn [rr_RangeEnd rr_CountOnly rresp_Kvs rresp_Header].
    rewrite !bool_decide_false by (done || apply str_app_neq_nil). cbn [negb andb].
    unfold mret, st_ret. cbn [fst snd rresp_Kvs rresp_Header Revision header].
    rewrite <-list_fmap_compose, filter_fmap, length_fmap. done.
  - by apply StronglySorted_filter.
  - by apply listing_below.
Qed.

End ranges.

(** A bare [DeleteRange] does not cut back to the range: deleting the prefix
    "/a/" (range end "/a0") also deletes the key "/ab", which is outside the
    range. *)
Theorem DeleteRange_deletes_outside_range :
  let put k w := (Put (SP := solo) (G := grpc0) (mk_PutRequest k (Some "v") 0 false false false) w).2 in
  let w := put "/ab" (put "/a/x" (world_of empty_db)) in
  let r := DeleteRange (SP := solo) (G := grpc0) (mk_DeleteRangeRequest "/a/" "/a0" false) w in
  String.ltb "/ab" "/a0" = false ∧ HasPrefix "/ab" "/a/" = false ∧
  Value <$> view (kv (w_db w)) !! "/ab" = Some (Some "v") ∧
  view (kv (w_db r.2)) !! "/ab" = None ∧
  r.1 = Ok (mk_DeleteRangeResponse (header 160) 2 []).
Proof. vm_compute. done. Qed.

(** ** Optimistic concurrency and errors, end to end *)

Section clients.
Context `{SP : Spanner} `{!SpannerLaws SP} `{G : Grpc}.

(** The request a client sends to write [key] iff it was last modified at [rev]
    (0: iff it does not exist), and to read it otherwise. *)
Definition guarded_put (key : string) (rev : Z) (v : option string) (lease : Z) : TxnRequest :=
  mk_TxnRequest
    [mk_Compare key Compare_MOD Compare_EQUAL 0 0 rev None]
    [RequestPut (mk_PutRequest key v lease false false false)]
    [RequestRange (mk_RangeRequest key "" 0 0 false false)].

(** The revision of the last modification, 0 for a key that does not exist. *)
Definition mod_revision (m : kvmap) (key : string) : Z :=
  match m !! key with Some kv => Rev kv | None => 0 end.

(** C4: the write that Kubernetes makes is a compare-and-swap: among all writers,
    whatever interleaves, it succeeds exactly when the key's last modification is
    the one the client knows (0 for absent) in the state it runs on, and then
    only changes that key; otherwise it answers with the value it found and
    changes nothing. *)
Theorem Txn_guarded_put key rev v lease w :
  world_wf w → clock_ok 0 w → sp_fate (w_rpc w) = FOk →
  ∃ db w', snapshot (w_rpc w) (w_db w) db ∧
    let m := view (kv db) in
    let ts := sp_ts (w_rpc w) in
    if mod_revision m key =? rev then
      Txn (guarded_put key rev v lease) w =
        (Ok (mk_TxnResponse (header ts) true [ResponsePut (mk_PutResponse (header ts) None)]), w') ∧
      view (kv (w_db w')) = spec_put ts key v lease m
    else
      let cur := current_rev (kv db) in
      let kvs := option_list (toProtoKV <$> m !! key) in
      Txn (guarded_put key rev v lease) w =
        (Ok (mk_TxnResponse (header cur) false
               [ResponseRange (mk_RangeResponse (header cur) kvs (Z.of_nat (length kvs)))]), w') ∧
      view (kv (w_db w')) = m.
Proof using All.
  intros Hw Hc Hf. pose proof (ts_bounds _ _ Hc) as Ht.
  destruct (Txn_atomic_run (guarded_put key rev v lease) w Hw Hc Hf eq_refl eq_refl)
    as (db & r & w' & Hs & H & Hv & Hrev);
    [by repeat constructor|by repeat constructor|apply NoDup_singleton|constructor|].
  exists db, w'. split; [done|]. cbn zeta in *.
  assert (txn_chosen (view (kv db)) (t_Compare (guarded_put key rev v lease)) =
          (mod_revision (view (kv db)) key =? rev)) as Hch.
  { unfold txn_chosen, mod_revision. cbn. by rewrite andb_true_r. }
  rewrite Hch in *. destruct (mod_revision (view (kv db)) key =? rev).
  - cbn [t_Success t_Failure guarded_put foldl request_effect pr_Key pr_Value pr_Lease fmap list_fmap
          request_answer concat app pr_PrevKv] in *. split; [|done].
    destruct Hrev as [[-> _]|[-> Hsame]]; [done|exfalso].
    apply (f_equal (lookup key)) in Hv. unfold spec_put in Hv. rewrite Hsame, lookup_insert_eq in Hv.
    rewrite view_lookup in Hv. destruct (live (kv db) key) as [p|] eqn:E; [|done].
    apply live_elem in E as (Hin & _). apply (wf_rows _ _ (snap_wf _ _ _ Hs)) in Hin as [? _ _ _ _ _].
    cbn in Hv. injection Hv as Hv. lia.
  - cbn [t_Success t_Failure guarded_put foldl request_effect fmap list_fmap
          request_answer concat app] in *. split; [|done].
    by destruct Hrev as [(_ & _ & [])|[-> _]].
Qed.




End clients.

(** The version the service reports is the distance in nanoseconds between
    two commit timestamps, not the number of times the key was written: after one
    update of a fresh key it is 11 here, where etcd reports 2. *)
Theorem version_is_not_a_count :
  (Range (SP := solo) (G := grpc0) (mk_RangeRequest "k" "" 0 0 false false) run2).1 =
    Ok (mk_RangeResponse (header 110) [mk_KeyValue "k" (Some "b") 110 100 11 0] 1).
Proof. vm_compute. done. Qed.

(** ** Concrete runs *)

Lemma kv_service_invariant_witness :
  let w' := foldl (λ w q, serve (SP := solo) (G := grpc0) q w) run2
              [KPut (mk_PutRequest "k" (Some "c") 0 false false false); KCompact 105] in
  world_wf (SP := solo) w' ∧ compact_rev (w_db run2) ≤ compact_rev (w_db w').
Proof.
  destruct (@kv_service_invariant solo solo_laws grpc0
              [KPut (mk_PutRequest "k" (Some "c") 0 false false false); KCompact 105] run2 run2_wf)
    as (H1 & _ & _ & H4).
  - repeat constructor; cbn; unfold int64_range; lia.
  - vm_compute. reflexivity.
  - split; [exact H1|exact H4].
Defined.

Definition swap_txn : TxnRequest :=
  mk_TxnRequest [mk_Compare "k" Compare_VALUE Compare_EQUAL 0 0 0 (Some "b")]
    [RequestDeleteRange (mk_DeleteRangeRequest "k" "" true);
     RequestPut (mk_PutRequest "l" (Some "b") 0 true false false)] [].

Lemma Txn_atomic_refines_witness :
  (Txn (SP := solo) (G := grpc0) swap_txn run2).1 =
    Ok (mk_TxnResponse (header 120) true
          [ResponseDeleteRange (mk_DeleteRangeResponse (header 120) 1 [mk_KeyValue "k" (Some "b") 110 100 11 0]);
           ResponsePut (mk_PutResponse (header 120) None)]) ∧
  ∃ db rev w', snapshot (SP := solo) 2 (w_db run2) db ∧
    Txn (SP := solo) (G := grpc0) swap_txn run2 =
      (Ok (mk_TxnResponse (header rev) (txn_chosen (view (kv db)) (t_Compare swap_txn))
             (concat (request_answer (view (kv db)) rev <$>
                        (if txn_chosen (view (kv db)) (t_Compare swap_txn)
                         then t_Success swap_txn else t_Failure swap_txn)))), w').
Proof.
  split; [vm_compute; reflexivity|].
  destruct (@Txn_atomic_refines solo solo_laws grpc0 swap_txn run2 run2_wf
              (sim_clock _ _ 0 run2 eq_refl) eq_refl eq_refl eq_refl) as (db & rev & w' & Hs & H & _).
  - repeat constructor; discriminate.
  - constructor.
  - apply NoDup_cons. split; [|apply NoDup_singleton]. intros E%list_elem_of_singleton. discriminate E.
  - constructor.
  - exists db, rev, w'. split; [exact Hs|exact H].
Defined.


Lemma Put_correct_witness :
  ∃ rev w', Put (SP := solo) (G := grpc0) (mk_PutRequest "k" (Some "c") 0 true false false) run2 =
    (Ok (mk_PutResponse (header rev) (Some (mk_KeyValue "k" (Some "b") 110 100 11 0))), w').
Proof.
  destruct (@Put_correct solo solo_laws grpc0 (mk_PutRequest "k" (Some "c") 0 true false false) run2
              run2_wf (sim_clock _ _ 5 run2 eq_refl) (solo_quiet run2)) as (rev & w' & H & _).
  exists rev, w'. rewrite H. vm_compute. reflexivity.
Defined.

Lemma Txn_prefix_range_exact_witness :
  ∃ rows, (executeOp (SP := solo) (G := grpc0)
             (RequestRange (mk_RangeRequest "k" "l" 0 0 false false)) run2).1 =
    Ok (ResponseRange (mk_RangeResponse (header 110) (toProtoKV ∘ KV_of <$> rows)
                         (Z.of_nat (length rows))), 110) ∧ k_row ∈ rows.
Proof.
  destruct (@Txn_prefix_range_exact solo solo_laws grpc0 "" "k"%char "l"%char run2 run2_wf
              (sim_clock _ _ 2 run2 eq_refl) (solo_quiet run2)) as (rows & H & _ & Hin).
  - reflexivity.
  - reflexivity.
  - discriminate.
  - exists rows. split; [exact H|]. apply Hin. split; vm_compute; reflexivity.
Defined.

Lemma Txn_guarded_put_witness :
  (Txn (SP := solo) (G := grpc0) (guarded_put "k" 110 (Some "c") 0) run2).1 =
    Ok (mk_TxnResponse (header 120) true [ResponsePut (mk_PutResponse (header 120) None)]) ∧
  (Txn (SP := rival 2 "k" (Some "x")) (G := grpc0) (guarded_put "k" 110 (Some "c") 0) run2).1 =
    Ok (mk_TxnResponse (header 115) false
          [ResponseRange (mk_RangeResponse (header 115) [mk_KeyValue "k" (Some "x") 115 100 16 0] 1)]) ∧
  ∃ db w', snapshot (SP := solo) 2 (w_db run2) db ∧
    ((mod_revision (view (kv db)) "k" =? 110) = true →
     Txn (SP := solo) (G := grpc0) (guarded_put "k" 110 (Some "c") 0) run2 =
       (Ok (mk_TxnResponse (header 120) true [ResponsePut (mk_PutResponse (header 120) None)]), w')).
Proof.
  split; [vm_compute; reflexivity|]. split; [vm_compute; reflexivity|].
  destruct (@Txn_guarded_put solo solo_laws grpc0 "k" 110 (Some "c") 0 run2 run2_wf
              (sim_clock _ _ 0 run2 eq_refl) eq_refl) as (db & w' & Hs & H).
  exists db, w'. split; [exact Hs|]. intros E. cbn zeta in H. rewrite E in H. apply H.
Defined.

