(* ===== verification/KVRanges.v ===== *)
(** * Range deletions

    Undisturbed, a Txn with a range delete deletes exactly the keys of its prefix range, reports
    them and their number, and leaves every other key alone: the listing for the shortened
    prefix is a superset of the range in key order, and the loop stops at the range end.
    And what the handlers do with ranges that are no prefixes. *)

From Stdlib Require Import Ascii String Sorted.
From S2P Require Import Prelude Go Spanner Rows Invariant Sim StoreRead StoreWrite StoreTxn StoreSpec Reads StoreCompact StoreInvariant Safe KVServer KVProps.

Open Scope string_scope.
Open Scope list_scope.
Open Scope Z_scope.

Section deletes.
Context `{SP : Spanner} `{!SpannerLaws SP} `{G : Grpc}.

Lemma current_rev_last rows r : (∀ x, x ∈ rows → r_rev x < r_rev r) → 1 ≤ r_rev r → current_rev (rows ++ [r]) = r_rev r.
Proof.
  intros Hlt H1. pose proof (current_rev_upper (rows ++ [r]) r ltac:(set_solver)).
  destruct (current_rev_max (rows ++ [r])) as [E|(x & Hx & E)]; [lia|].
  apply elem_of_app in Hx as [Hx|Hx%list_elem_of_singleton]; [|by subst]. specialize (Hlt x Hx). lia.
Qed.

Lemma read_write_txn_rpc {C} (body : txn_body C) c w : w_rpc (read_write_txn body c w).2 = S (w_rpc w).
Proof. unfold read_write_txn. repeat case_match; simplify_eq/=; done. Qed.

(** An undisturbed unconditional delete of a live key. *)
Lemma Delete_live key p w :
  world_wf w → quiet w → clock_ok 1 w → live (kv (w_db w)) key = Some p →
  ∃ w', Delete key 0 w = (Ok (sp_ts (w_rpc w), Some (KV_of p), true), w') ∧ world_wf w' ∧
    w_rpc w' = S (w_rpc w) ∧ current_rev (kv (w_db w')) = sp_ts (w_rpc w) ∧
    view (kv (w_db w')) = delete key (view (kv (w_db w))) ∧
    ∀ k, k ≠ key → live (kv (w_db w')) k = live (kv (w_db w)) k.
Proof using All.
  intros Hw Hq Hc Hl. destruct (Delete_run key 0 w Hw Hc (quiet_calls_ok _ _ Hq)) as (db & Hs & H).
  pose proof (quiet_snapshot _ _ Hq Hs) as ->. rewrite Hl in H. destruct H as [Hr Ha].
  pose proof (Delete_guarantee key 0 w Hw ltac:(eapply clock_ok_later; [exact Hc|lia])) as [Hw' _].
  assert (w_rpc (Delete key 0 w).2 = S (w_rpc w)) as Hrpc.
  { revert Hr. unfold Delete, mbind, st_bind. pose proof (read_write_txn_rpc (delete_body key 0) None w) as E.
    destruct (read_write_txn _ _ w) as [[[ts|e] prev] w1]; cbn in E |- *.
    - intros _. etrans; [apply (proj2 (proj2 (notify_run (tsToRev ts) w1)))|done].
    - case_bool; [|done]. unfold mbind, st_bind. destruct (CurrentRevision w1) as [cur w2]. cbn. congruence. }
  pose proof (appended_del_view _ _ _ _ _ _ Ha) as Hv. destruct Ha as (Hdb & _ & Ho).
  destruct (Delete key 0 w) as [r w']. cbn [fst snd] in *. subst r. exists w'. split_and!; try done.
  rewrite Hdb. cbn [kv set_kv]. change (sp_ts (w_rpc w)) with (r_rev (del_row (sp_seq (w_rpc w) 0) (sp_ts (w_rpc w)) key p)).
  apply current_rev_last; cbn [r_rev del_row].
  - intros x Hx. by destruct (wf_row_bound _ _ (ww_db _ Hw) x Hx).
  - pose proof (law_ts_pos (w_rpc w)). lia.
Qed.

Lemma below_stop rangeEnd x rows :
  StronglySorted (λ a b, str_le (r_key a) (r_key b) ∧ r_key a ≠ r_key b) (x :: rows) →
  String.ltb (r_key x) rangeEnd = false → below rangeEnd rows = [].
Proof.
  intros Hs Hx. apply StronglySorted_inv in Hs as [_ Hs]. unfold below.
  induction Hs as [|y rows [Hy _] _ IH]; [done|]. rewrite filter_cons, decide_False; [done|].
  rewrite str_ltb_le. intros Hn. apply Hn. clear Hn.
  destruct (decide (str_le rangeEnd (r_key x))) as [Hle|Hle].
  - by etrans.
  - apply str_ltb_le in Hle. congruence.
Qed.

(** What is left of a map when the keys of some rows are deleted. *)
Definition without_keys (rows : list kv_row) (m : kvmap) : kvmap := filter (λ kv : string * KV, kv.1 ∉ r_key <$> rows) m.

Lemma without_keys_cons x rows m : without_keys rows (delete (r_key x) m) = without_keys (x :: rows) m.
Proof.
  apply map_eq. intros k. apply option_eq. intros v. unfold without_keys. rewrite !map_lookup_filter_Some. cbn.
  rewrite lookup_delete_Some, not_elem_of_cons. naive_solver.
Qed.

Lemma without_keys_nil m : without_keys [] m = m.
Proof. apply map_filter_id. intros. apply not_elem_of_nil. Qed.

(** Deleting every live row with a prefix leaves the keys without it. *)
Lemma without_prefix rows hit key :
  (∀ x, x ∈ hit ↔ live rows (r_key x) = Some x ∧ HasPrefix (r_key x) key = true) →
  without_keys hit (view rows) = filter (λ kv : string * KV, HasPrefix kv.1 key = false) (view rows).
Proof.
  intros Hhit. apply map_filter_ext. intros k v Hk. cbn [fst]. rewrite view_lookup in Hk.
  apply fmap_Some in Hk as (x & Hx & _). pose proof (live_elem _ _ _ Hx) as (_ & Hkx & _). split; intros Hnot.
  - destruct (HasPrefix k key) eqn:E; [|done]. destruct Hnot. apply list_elem_of_fmap. exists x. split; [done|].
    apply Hhit. by rewrite Hkx.
  - intros (y & Ey & Hy)%list_elem_of_fmap. apply Hhit in Hy as [_ Hy]. rewrite <-Ey in Hy. by rewrite Hy in Hnot.
Qed.

Lemma nothing_deleted (prevKv : bool) n pk (rev : Z) w :
  world_wf w →
  ∃ w', (Ok (n, pk, rev) : res _, w) =
      (Ok (n + Z.of_nat (length (@nil kv_row)), pk ++ (if prevKv then toProtoKV ∘ KV_of <$> [] else []), rev), w') ∧
    world_wf w' ∧ w_rpc w' = (w_rpc w + length (@nil kv_row))%nat ∧ (@nil kv_row = [] → w' = w) ∧
    view (kv (w_db w')) = without_keys [] (view (kv (w_db w))).
Proof.
  intros Hw. exists w. cbn [length fmap list_fmap]. rewrite Z.add_0_r, Nat.add_0_r.
  destruct prevKv; rewrite app_nil_r; split_and!; try done; by rewrite without_keys_nil.
Qed.

Lemma deleteKeysUntil_quiet rangeEnd prevKv rows n pk rev w :
  rangeEnd ≠ "" → rangeEnd ≠ nul → world_wf w → quiet w → clock_ok (length rows) w →
  StronglySorted (λ a b, str_le (r_key a) (r_key b) ∧ r_key a ≠ r_key b) rows →
  (∀ x, x ∈ rows → live (kv (w_db w)) (r_key x) = Some x) →
  let hit := below rangeEnd rows in
  ∃ w', deleteKeysUntil rangeEnd prevKv (KV_of <$> rows) (n, pk, rev) w =
      (Ok (n + Z.of_nat (length hit), pk ++ (if prevKv then toProtoKV ∘ KV_of <$> hit else []),
           match hit with [] => rev | _ => current_rev (kv (w_db w')) end), w') ∧
    world_wf w' ∧ w_rpc w' = (w_rpc w + length hit)%nat ∧ (hit = [] → w' = w) ∧
    view (kv (w_db w')) = without_keys hit (view (kv (w_db w))).
Proof using All.
  intros He Hn. revert n pk rev w. induction rows as [|x rows IH]; intros n pk rev w Hw Hq Hc Hs Hl; cbn zeta.
  { exact (nothing_deleted prevKv n pk rev w Hw). }
  cbn [fmap list_fmap deleteKeysUntil]. rewrite !bool_decide_false by done. cbn [negb andb]. change (Key (KV_of x)) with (r_key x).
  destruct (String.ltb (r_key x) rangeEnd) eqn:Hx; cbn [negb].
  2: { assert (below rangeEnd (x :: rows) = []) as ->.
       { unfold below. rewrite filter_cons, decide_False by congruence. by eapply below_stop. }
       exact (nothing_deleted prevKv n pk rev w Hw). }
  assert (below rangeEnd (x :: rows) = x :: below rangeEnd rows) as -> by (unfold below; by rewrite filter_cons, decide_True).
  destruct (Delete_live (r_key x) x w Hw Hq) as (w1 & Hd & Hw1 & Hrpc & Hcur & Hv & Ho).
  { eapply clock_ok_later; [exact Hc|cbn; lia]. }
  { by apply Hl; left. }
  unfold mbind, st_bind. rewrite Hd. cbn [fst snd].
  apply StronglySorted_inv in Hs as [Hs Hx']. rewrite Forall_forall in Hx'.
  destruct (IH (n + 1) (if prevKv then pk ++ option_list (toProtoKV <$> Some (KV_of x)) else pk) (sp_ts (w_rpc w)) w1)
    as (w' & -> & Hw' & Hrpc' & Hsame & Hv').
  - done.
  - eapply quiet_later; [exact Hq|lia].
  - eapply clock_ok_later; [exact Hc|cbn; lia].
  - done.
  - intros y Hy. rewrite Ho by (intros E; by destruct (Hx' y Hy)). by apply Hl; right.
  - exists w'. split_and!.
    + f_equal. f_equal. f_equal; [f_equal|].
      * cbn [length]. lia.
      * destruct prevKv; [|done]. cbn. by rewrite <-app_assoc.
      * destruct (below rangeEnd rows); [|done]. by rewrite Hsame.
    + done.
    + cbn [length]. lia.
    + done.
    + rewrite Hv', Hv. apply without_keys_cons.
Qed.

Lemma sorted_keys_NoDup (rows : list kv_row) :
  StronglySorted (λ a b, str_le (r_key a) (r_key b) ∧ r_key a ≠ r_key b) rows → NoDup rows.
Proof.
  induction 1 as [|x rows _ IH Hx]; constructor; [|done]. intros Hin. rewrite Forall_forall in Hx.
  by destruct (Hx x Hin).
Qed.

(** The operation alone: the superset [List] returns for the shortened prefix is cut back to
    the range. *)
Lemma executeOp_prefix_delete p c c' prevKv w :
  world_wf w → quiet w → clock_ok (3 + length (kv (w_db w))) w →
  prefix_range p c c' → wildcard_free p = true → p +:+ String c' EmptyString ≠ nul →
  let key := p +:+ String c EmptyString in
  let op := RequestDeleteRange (mk_DeleteRangeRequest key (p +:+ String c' EmptyString) prevKv) in
  ∃ rows w', executeOp op w =
      (Ok (ResponseDeleteRange (mk_DeleteRangeResponse (header (current_rev (kv (w_db w')))) (Z.of_nat (length rows))
                                  (if prevKv then toProtoKV ∘ KV_of <$> rows else [])),
           current_rev (kv (w_db w'))), w') ∧ world_wf w' ∧
    StronglySorted (λ a b, str_le (r_key a) (r_key b) ∧ r_key a ≠ r_key b) rows ∧
    (∀ x, x ∈ rows ↔ live (kv (w_db w)) (r_key x) = Some x ∧ HasPrefix (r_key x) key = true) ∧
    view (kv (w_db w')) = filter (λ kv : string * KV, HasPrefix kv.1 key = false) (view (kv (w_db w))).
Proof using All.
  intros Hw Hq Hc Hpr Hwf Hn. cbn zeta. set (key := p +:+ String c EmptyString).
  set (end_ := p +:+ String c' EmptyString) in *.
  assert (clock_ok 2 w) as Hc2 by (eapply clock_ok_later; [exact Hc|lia]).
  destruct (List_now p key 0 w Hw Hc2 Hq Hwf) as (all & Hlist & Hsort & Hall).
  assert (length all ≤ length (kv (w_db w)))%nat as Hlen.
  { apply submseteq_length, NoDup_submseteq; [by apply sorted_keys_NoDup|].
    intros x Hx. apply Hall in Hx as [Hx _]. by apply live_elem in Hx as [? _]. }
  pose proof (listing_below p c c' _ _ Hpr Hall) as Hhit. fold key end_ in Hhit.
  set (w3 := next (next (next w))) in *.
  assert (w_db w3 = w_db w) as Hdb
    by (unfold w3; cbn; rewrite (quiet_seen_next2 _ Hq); done).
  assert (world_wf w3) as Hw3 by by do 3 apply next_wf.
  assert (quiet w3) as Hq3 by (eapply quiet_later; [exact Hq|cbn; lia]).
  destruct (deleteKeysUntil_quiet end_ prevKv all 0 [] 0 w3) as (w4 & Hd & Hw4 & Hrpc & Hsame & Hv).
  { apply str_app_neq_nil. }
  { done. }
  { done. }
  { done. }
  { eapply clock_ok_later; [exact Hc|cbn; lia]. }
  { done. }
  { intros x Hx. rewrite Hdb. by apply Hall. }
  pose proof (without_prefix _ _ _ Hhit) as Hview.
  assert (executeOp (RequestDeleteRange (mk_DeleteRangeRequest key end_ prevKv)) w =
    let w' := match below end_ all with [] => next w4 | _ => w4 end in
    (Ok (ResponseDeleteRange (mk_DeleteRangeResponse (header (current_rev (kv (w_db w4)))) (Z.of_nat (length (below end_ all)))
                                (if prevKv then toProtoKV ∘ KV_of <$> below end_ all else [])),
         current_rev (kv (w_db w4))), w')) as ->.
  { unfold executeOp, deleteRangeTxn, mbind, st_bind. cbn [dr_Key dr_RangeEnd dr_PrevKv]. unfold end_ at 1.
    rewrite str_app_length. unfold key at 1, end_ at 1. rewrite rangeToPrefix_prefix by done. fold key. rewrite Hlist.
    change (limitClause 0 all) with all. cbn [snd fst]. fold end_. rewrite Hd. cbn [fst snd]. rewrite Z.add_0_l. cbn [app].
    destruct (below end_ all) as [|x hit] eqn:E.
    - rewrite Hsame by done. cbn [Z.eqb]. rewrite (CurrentRevision_ok 0 w3 Hw3); [|by eapply clock_ok_later; [exact Hc|cbn; lia]|by apply Hq3].
      by rewrite (quiet_seen _ Hq3).
    - pose proof (current_rev_lt _ _ (ww_db _ Hw4) (law_ts_pos _)) as Hpos.
      rewrite (proj2 (Z.eqb_neq (current_rev (kv (w_db w4))) 0)) by lia. done. }
  exists (below end_ all), (match below end_ all with [] => next w4 | _ => w4 end). cbn zeta.
  assert (quiet w4) as Hq4 by (eapply quiet_later; [exact Hq3|lia]).
  assert (w_db (match below end_ all with [] => next w4 | _ => w4 end) = w_db w4) as ->
    by (destruct (below end_ all); [apply (quiet_seen _ Hq4)|done]).
  split_and!; [done|by destruct (below end_ all); [apply next_wf|]|by apply StronglySorted_filter|done|].
  by rewrite Hv, Hdb.
Qed.

(** C15: undisturbed (no other client, no failing call), a Txn without compares whose success
    branch is a range delete for a prefix answers that it succeeded, deletes exactly the
    keys that have the prefix, one transaction each, in key order, reports how many they
    were and, when asked, what they held, and leaves every other key alone.  The prefix
    without its last byte, which [List] is asked for, has no LIKE metacharacter. *)
Theorem Txn_prefix_delete_exact p c c' prevKv w :
  world_wf w → quiet w → clock_ok (3 + length (kv (w_db w))) w →
  prefix_range p c c' → wildcard_free p = true → p +:+ String c' EmptyString ≠ nul →
  let key := p +:+ String c EmptyString in
  let op := RequestDeleteRange (mk_DeleteRangeRequest key (p +:+ String c' EmptyString) prevKv) in
  ∃ rows w', Txn (mk_TxnRequest [] [op] []) w =
      (let h := header (current_rev (kv (w_db w'))) in
       Ok (mk_TxnResponse h true
             [ResponseDeleteRange (mk_DeleteRangeResponse h (Z.of_nat (length rows))
                                     (if prevKv then toProtoKV ∘ KV_of <$> rows else []))]), w') ∧ world_wf w' ∧
    StronglySorted (λ a b, str_le (r_key a) (r_key b) ∧ r_key a ≠ r_key b) rows ∧
    (∀ x, x ∈ rows ↔ live (kv (w_db w)) (r_key x) = Some x ∧ HasPrefix (r_key x) key = true) ∧
    view (kv (w_db w')) = filter (λ kv : string * KV, HasPrefix kv.1 key = false) (view (kv (w_db w))).
Proof using All.
  intros Hw Hq Hc Hpr Hwf Hn. cbn zeta.
  destruct (executeOp_prefix_delete p c c' prevKv w Hw Hq Hc Hpr Hwf Hn) as (rows & w' & He & Hw' & H).
  exists rows, w'. split; [|done]. set (op := RequestDeleteRange _) in *.
  assert (txnNeedsNonAtomicFallback (mk_TxnRequest [] [op] []) = true) as Hfb
    by (unfold txnNeedsNonAtomicFallback, op; cbn [t_Success existsb complexOp dr_RangeEnd]; by rewrite str_app_length).
  assert (duplicateRequestKey ∅ [op] = None) as Hd.
  { unfold op. cbn [duplicateRequestKey mutatedKey dr_RangeEnd].
    by rewrite (bool_decide_false (p +:+ String c' EmptyString = "")) by apply str_app_neq_nil. }
  unfold Txn. rewrite Hfb. cbn [negb]. unfold txnNonAtomic. cbn [t_Success t_Failure t_Compare]. rewrite Hd.
  cbn [duplicateRequestKey evaluateCompare]. unfold executeOps, mbind, st_bind, mret, st_ret.
  cbv beta iota. cbn [executeOps_loop]. unfold mbind, st_bind, mret, st_ret. rewrite He. cbn [fst snd app].
  pose proof (current_rev_lt _ _ (ww_db _ Hw') (law_ts_pos _)) as Hpos.
  by rewrite (proj2 (Z.eqb_neq (current_rev (kv (w_db w'))) 0)) by lia.
Qed.

End deletes.

(** ** Ranges that are no prefixes *)

(** A range whose end does not extend the key's prefix is answered as if it were the prefix
    of its first key: "b" is between "ab" and "cd", and neither a Range nor a range of a
    Txn finds it. *)
Theorem Range_misses_keys :
  let w := (Put (SP := solo) (G := grpc0) (mk_PutRequest "b" (Some "v") 0 false false false) (world_of empty_db)).2 in
  let rr := mk_RangeRequest "ab" "cd" 0 0 false false in
  String.ltb "ab" "b" = true ∧ String.ltb "b" "cd" = true ∧ Value <$> view (kv (w_db w)) !! "b" = Some (Some "v") ∧
  (∃ h, (Range (SP := solo) (G := grpc0) rr w).1 = Ok (mk_RangeResponse h [] 0)) ∧
  (∃ h rev, (executeOp (SP := solo) (G := grpc0) (RequestRange rr) w).1 = Ok (ResponseRange (mk_RangeResponse h [] 0), rev)).
Proof.
  split_and!; [vm_compute; reflexivity..| |]; repeat eexists; vm_compute; reflexivity.
Qed.

(** ** Witness *)

(** Two keys with the prefix "k" and one without. *)
Definition three_keys : world :=
  let put k w := (Put (SP := solo) (G := grpc0) (mk_PutRequest k (Some "v") 0 false false false) w).2 in
  put "l" (put "kk" run2).

Lemma three_keys_wf : world_wf (SP := solo) three_keys.
Proof.
  unfold three_keys. do 2 (eapply guarantee_world, (safe_Put (SP := solo) (G := grpc0)); [|vm_compute; reflexivity]).
  exact run2_wf.
Qed.

Lemma Txn_prefix_delete_exact_witness :
  ∃ rows w', Txn (SP := solo) (G := grpc0)
      (mk_TxnRequest [] [RequestDeleteRange (mk_DeleteRangeRequest "k" "l" false)] []) three_keys =
      (Ok (mk_TxnResponse (header (current_rev (kv (w_db w')))) true
             [ResponseDeleteRange (mk_DeleteRangeResponse (header (current_rev (kv (w_db w')))) (Z.of_nat (length rows)) [])]),
       w') ∧
    (∃ x, x ∈ rows ∧ r_key x = "k") ∧
    Value <$> view (kv (w_db three_keys)) !! "kk" = Some (Some "v") ∧
    view (kv (w_db w')) !! "k" = None ∧ view (kv (w_db w')) !! "kk" = None ∧
    Value <$> view (kv (w_db w')) !! "l" = Some (Some "v").
Proof.
  destruct (@Txn_prefix_delete_exact solo solo_laws grpc0 "" "k" "l" false three_keys three_keys_wf (solo_quiet three_keys)
              (sim_clock _ _ (3 + length (kv (w_db three_keys))) three_keys eq_refl) eq_refl eq_refl ltac:(discriminate))
    as (rows & w' & H1 & _ & _ & H2 & H3).
  exists rows, w'. split; [exact H1|]. split; [|rewrite H3; vm_compute; repeat split].
  exists k_row. split; [|reflexivity]. apply H2. vm_compute. repeat split; reflexivity.
Defined.
