(* ===== verification/Leases.v ===== *)
(** * pkg/store/lease.go and pkg/server/lease.go: leases

    The lease manager of one replica: its map of leases, which holds pointers, is
    a map to addresses of lease objects, because [Keepalive] changes an object the
    expiry goroutines share.  An expiry goroutine is a value of [expiry] that says
    where it stands; its steps are [expiry_start], [expiry_fire] and
    [expiry_retry].  Instants are arguments: each operation is given what
    [time.Now()] returns. *)

From Stdlib Require Import Ascii String.
From S2P Require Import Prelude Go Spanner Rows Invariant StoreRead StoreWrite KVServer.

Open Scope string_scope.
Open Scope list_scope.
Open Scope Z_scope.

(** ** State *)

Record Lease := mk_Lease { L_ID : Z; L_TTL : Z; L_GrantedAt : Z; L_ExpiresAt : Z }.

Record LeaseSnapshot := mk_LeaseSnapshot { S_ID : Z; S_TTL : Z; S_Remaining : Z }.

(** A goroutine of [scheduleExpiry]: started for the object at [a]; waiting for
    its timer; expiring the lease, before attempt [n]. *)
Inductive expiry :=
| Starting (a : nat)
| Waiting (a : nat) (deadline : Z)
| Expiring (id attempt : Z).

(** [lm_stuck] are the leases given up on after the last attempt. *)
Record LeaseManager := mk_LeaseManager {
  lm_nextID : Z;
  lm_objs : list Lease;
  lm_leases : gmap Z nat;
  lm_goroutines : list expiry;
  lm_stuck : list Z;
}.

Record lworld := mk_lworld { lw_store : world; lw_lm : LeaseManager }.

Definition set_lm (lm : LeaseManager) (s : lworld) : lworld := mk_lworld (lw_store s) lm.

(** A call of the store from the lease manager. *)
Definition call {A} (m : ST world A) : ST lworld A :=
  λ s, let (a, w) := m (lw_store s) in (a, mk_lworld w (lw_lm s)).

Definition get_lm : ST lworld LeaseManager := λ s, (lw_lm s, s).
Definition put_lm (lm : LeaseManager) : ST lworld () := λ s, ((), set_lm lm s).

(** ** The map of leases *)

Definition newLeaseManager (now : Z) : LeaseManager :=
  mk_LeaseManager (UnixNano now) [] ∅ [] [].

(** [leases[id]]: the object. *)
Definition lookup_lease (lm : LeaseManager) (id : Z) : option (nat * Lease) :=
  match lm_leases lm !! id with
  | Some a => match lm_objs lm !! a with Some l => Some (a, l) | None => None end
  | None => None
  end.

(** [leases[id] = lease; go scheduleExpiry(lease)]. *)
Definition add_lease (l : Lease) (lm : LeaseManager) : LeaseManager :=
  let a := length (lm_objs lm) in
  mk_LeaseManager (lm_nextID lm) (lm_objs lm ++ [l]) (<[L_ID l := a]> (lm_leases lm))
    (lm_goroutines lm ++ [Starting a]) (lm_stuck lm).

(** [delete(leases, id)]. *)
Definition drop_lease (id : Z) (lm : LeaseManager) : LeaseManager :=
  mk_LeaseManager (lm_nextID lm) (lm_objs lm) (delete id (lm_leases lm)) (lm_goroutines lm) (lm_stuck lm).

Definition set_nextID (id : Z) (lm : LeaseManager) : LeaseManager :=
  mk_LeaseManager id (lm_objs lm) (lm_leases lm) (lm_goroutines lm) (lm_stuck lm).

Definition set_objs (objs : list Lease) (lm : LeaseManager) : LeaseManager :=
  mk_LeaseManager (lm_nextID lm) objs (lm_leases lm) (lm_goroutines lm) (lm_stuck lm).

Definition set_goroutines (gs : list expiry) (lm : LeaseManager) : LeaseManager :=
  mk_LeaseManager (lm_nextID lm) (lm_objs lm) (lm_leases lm) gs (lm_stuck lm).

Definition abandon (id : Z) (lm : LeaseManager) : LeaseManager :=
  mk_LeaseManager (lm_nextID lm) (lm_objs lm) (lm_leases lm) (lm_goroutines lm) (lm_stuck lm ++ [id]).

(** ** Deleting the keys of a lease *)

(** The statement of [expireLeaseKeys]: rows that are the newest among the rows
    of their key with this lease, and not deleted. *)
Definition q_lease_keys (leaseID : Z) (plan : list kv_row → list kv_row) (db : database) : list kv_row :=
  let latest := group_max (filter (λ r, r_lease_id r = Some leaseID) (plan (kv db))) in
  filter (λ r, r_deleted r = false ∧ r_lease_id r = Some leaseID) (join_latest (plan (kv db)) latest).

Section leases.
Context `{SP : Spanner}.

(** The loop over the keys found: how many deletions failed. *)
Fixpoint deleteLeaseKeys (leaseID : Z) (keys : list string) (deleteErrs : Z) : ST world Z :=
  match keys with
  | [] => mret deleteErrs
  | key :: keys =>
      r ← DeleteIfLease key leaseID;
      deleteLeaseKeys leaseID keys (if is_ok r then deleteErrs else deleteErrs + 1)
  end.

(** The error returned, if any. *)
Definition expireLeaseKeys (leaseID : Z) : ST world (option error) :=
  out ← stream (λ plan db, r_key <$> q_lease_keys leaseID plan db);
  let '(keys, scanErr) := out in
  deleteErrs ← deleteLeaseKeys leaseID keys 0;
  match scanErr with
  | Some e => mret (Some e)
  | None =>
      if 0 <? deleteErrs then
        mret (Some (Errorf "expireLeaseKeys: %d key delete(s) failed for lease %d"
                      [ArgZ deleteErrs; ArgZ leaseID]))
      else
        try ts := client_apply [DeleteLease leaseID] catch e => mret (Some e);
        mret None
  end.

(** ** Operations of the manager *)

Definition Grant (now ttl : Z) : ST lworld (res Lease) :=
  lm ← get_lm;
  let id := int64 (lm_nextID lm + 1) in
  _ ← put_lm (set_nextID id lm);
  let lease := mk_Lease id ttl now (Time_Add now (seconds ttl)) in
  try ts := call (client_apply [InsertLease id ttl]) catch e => mret (Err e);
  lm ← get_lm;
  _ ← put_lm (add_lease lease lm);
  mret (Ok lease).

Definition Revoke (id : Z) : ST lworld (option error) :=
  r ← call (expireLeaseKeys id);
  match r with
  | Some e => mret (Some e)
  | None => lm ← get_lm; _ ← put_lm (drop_lease id lm); mret None
  end.

Definition GetTTL (now id : Z) (lm : LeaseManager) : option LeaseSnapshot :=
  match lookup_lease lm id with
  | None => None
  | Some (_, lease) =>
      let remaining := int64_of_float (Duration_Seconds (Until (L_ExpiresAt lease) now)) in
      Some (mk_LeaseSnapshot (L_ID lease) (L_TTL lease) (if remaining <? 0 then 0 else remaining))
  end.

(** The TTL, and the manager with the object's expiry reset. *)
Definition Keepalive (now id : Z) (lm : LeaseManager) : Z * LeaseManager :=
  match lookup_lease lm id with
  | None => (0, lm)
  | Some (a, lease) =>
      (L_TTL lease,
       set_objs (<[a := mk_Lease (L_ID lease) (L_TTL lease) (L_GrantedAt lease)
                          (Time_Add now (seconds (L_TTL lease)))]> (lm_objs lm)) lm)
  end.

(** The rows of [loadLeases]: a lease the manager already has is kept. *)
Definition load_row (lm : LeaseManager) (row : Z * lease_row) : LeaseManager :=
  let '(id, r) := row in
  match lm_leases lm !! id with
  | Some _ => lm
  | None => add_lease (mk_Lease id (l_ttl_sec r) (l_granted_at r)
                         (Time_Add (l_granted_at r) (seconds (l_ttl_sec r)))) lm
  end.

Definition loadLeases : ST lworld (bool * option error) :=
  out ← call stream_leases;
  let '(rows, err) := out in
  lm ← get_lm;
  _ ← put_lm (foldl load_row lm rows);
  mret (match err with None => (true, None) | Some e => (false, Some e) end).

(** [gcLoop] while nobody stops it: at most [attempts] scans, the waits between them left
    out; whether one came to its end. *)
Fixpoint gcLoop (attempts : nat) : ST lworld bool :=
  match attempts with
  | O => mret false
  | S attempts =>
      r ← loadLeases;
      match (r : bool * option error) with
      | (true, _) => mret true
      | (false, _) => gcLoop attempts
      end
  end.

(** *** The goroutine of [scheduleExpiry] *)

(** It reads the expiry of its object and sets the timer. *)
Definition expiry_start (i : nat) : ST lworld () := λ s,
  let lm := lw_lm s in
  match lm_goroutines lm !! i with
  | Some (Starting a) =>
      match lm_objs lm !! a with
      | Some l => ((), set_lm (set_goroutines (<[i := Waiting a (L_ExpiresAt l)]> (lm_goroutines lm)) lm) s)
      | None => ((), s)
      end
  | _ => ((), s)
  end.

(** The timer fires at [now]: nothing for a revoked lease; a new goroutine for an
    extended one; otherwise the lease has expired. *)
Definition expiry_fire (now : Z) (i : nat) : ST lworld () := λ s,
  let lm := lw_lm s in
  match lm_goroutines lm !! i with
  | Some (Waiting a deadline) =>
      if now <? deadline then ((), s)
      else
        let rest := delete i (lm_goroutines lm) in
        match lm_objs lm !! a with
        | None => ((), s)
        | Some lease =>
            ((), set_lm (set_goroutines
              match lookup_lease lm (L_ID lease) with
              | None => rest
              | Some (a', current) =>
                  if Second <? Until (L_ExpiresAt current) now then rest ++ [Starting a']
                  else rest ++ [Expiring (L_ID lease) 1]
              end lm) s)
        end
  | _ => ((), s)
  end.

(** One attempt to revoke: the goroutine ends, waits for the next attempt, or
    gives up after the fifth. *)
Definition expiry_retry (i : nat) : ST lworld () := λ s,
  let lm := lw_lm s in
  match lm_goroutines lm !! i with
  | Some (Expiring id attempt) =>
      let (r, s') := Revoke id s in
      let rest := delete i (lm_goroutines (lw_lm s')) in
      ((), set_lm
        (match r with
         | None => set_goroutines rest (lw_lm s')
         | Some _ => if attempt <? 5 then set_goroutines (rest ++ [Expiring id (attempt + 1)]) (lw_lm s')
                     else abandon id (set_goroutines rest (lw_lm s'))
         end) s')
  | _ => ((), s)
  end.

(** ** The lease service *)

Record LeaseGrantResponse := mk_LeaseGrantResponse {
  lg_Header : ResponseHeader; lg_ID : Z; lg_TTL : Z;
}.

Record LeaseKeepAliveResponse := mk_LeaseKeepAliveResponse {
  lk_Header : ResponseHeader; lk_ID : Z; lk_TTL : Z;
}.

Record LeaseTimeToLiveResponse := mk_LeaseTimeToLiveResponse {
  lt_Header : ResponseHeader; lt_ID : Z; lt_TTL : Z; lt_GrantedTTL : Z;
}.

Context `{G : Grpc}.

Definition LeaseGrant (now TTL : Z) : ST lworld (res LeaseGrantResponse) :=
  let ttl := if TTL <=? 0 then 15 else TTL in
  try lease := Grant now ttl
    catch err => mret (Err (StatusError Internal "grant lease: %v" [ArgS (error_Error err)]));
  mret (Ok (mk_LeaseGrantResponse (header 0) (L_ID lease) (L_TTL lease))).

Definition LeaseRevoke (id : Z) : ST lworld (res ResponseHeader) :=
  r ← Revoke id;
  mret (match r with
        | Some err => Err (StatusError Internal "revoke lease: %v" [ArgS (error_Error err)])
        | None => Ok (header 0)
        end).

(** The response to one message of the keep-alive stream. *)
Definition LeaseKeepAlive (now id : Z) : ST lworld LeaseKeepAliveResponse :=
  lm ← get_lm;
  let (ttl, lm') := Keepalive now id lm in
  _ ← put_lm lm';
  mret (mk_LeaseKeepAliveResponse (header 0) id ttl).

Definition LeaseTimeToLive (now id : Z) (lm : LeaseManager) : res LeaseTimeToLiveResponse :=
  match GetTTL now id lm with
  | None => Err (StatusError NotFound "lease not found: %d" [ArgZ id])
  | Some snap => Ok (mk_LeaseTimeToLiveResponse (header 0) (S_ID snap) (S_Remaining snap) (S_TTL snap))
  end.

End leases.
