(* ===== verification/LeaseProps.v ===== *)
(** * Properties of leases

    Undisturbed revocation deletes exactly the keys of the lease; the invariant of the
    manager, by which a lease of the map has a goroutine that will expire it or was given
    up, and that every operation keeps it; the reload after a restart; and where expiry
    departs from what the lease promised. *)

From Stdlib Require Import Ascii String.
From S2P Require Import Prelude Go Spanner Rows Invariant Sim StoreRead StoreWrite StoreTxn StoreSpec Reads StoreCompact StoreInvariant Safe KVServer KVProps Leases.

Open Scope string_scope.
Open Scope list_scope.
Open Scope Z_scope.

(** ** The keys of a lease *)

Section statement.
Context (plan : list kv_row → list kv_row) (plan_perm : ∀ rows, plan rows ≡ₚ rows).
Context (T : Z) (db : database) (Hwf : db_wf T db).

(** Every key whose current row belongs to the lease is found. *)
Lemma q_lease_keys_complete leaseID k p :
  live (kv db) k = Some p → r_lease_id p = Some leaseID →
  k ∈ r_key <$> q_lease_keys leaseID plan db.
Proof using All.
  intros Hp Hl. apply live_elem in Hp as (Hin & Hk & Hd & Hmax). subst k.
  apply list_elem_of_fmap_2. unfold q_lease_keys, join_latest.
  rewrite !list_elem_of_filter, group_max_lookup. split_and!; [done|done| |by rewrite plan_perm].
  rewrite (latest_intro _ _ p); [done|..].
  - apply NoDup_fmap_filter. rewrite (plan_perm (kv db)). apply Hwf.
  - apply list_elem_of_filter. by rewrite plan_perm.
  - done.
  - intros r' [_ Hr']%list_elem_of_filter Hk'. rewrite plan_perm in Hr'. auto.
Qed.

End statement.

(** The abstract effect of revoking a lease. *)
Definition spec_expire (leaseID : Z) (m : kvmap) : kvmap := filter (λ '(_, v), LeaseID v ≠ leaseID) m.

Lemma foldl_delete_if_lease leaseID ks m :
  (∀ k v, m !! k = Some v → LeaseID v = leaseID → k ∈ ks) →
  foldl (λ m k, (spec_delete_if_lease k leaseID m).2) m ks = spec_expire leaseID m.
Proof.
  revert m. induction ks as [|k ks IH]; intros m Hks; cbn.
  - unfold spec_expire. symmetry. apply map_filter_id. intros k v Hk Hl.
    specialize (Hks k v Hk Hl). by apply elem_of_nil in Hks.
  - assert (∀ k' v, (spec_delete_if_lease k leaseID m).2 !! k' = Some v → LeaseID v = leaseID →
      k' ∈ ks ∧ m !! k' = Some v) as Hsub.
    { intros k' v. unfold spec_delete_if_lease. destruct (m !! k) as [p|] eqn:E; [destruct (_ =? _) eqn:El|];
        bool_prop; cbn; intros Hk' Hl.
      - apply lookup_delete_Some in Hk' as [Hne Hk']. destruct (proj1 (elem_of_cons _ _ _) (Hks k' v Hk' Hl)); naive_solver.
      - destruct (proj1 (elem_of_cons _ _ _) (Hks k' v Hk' Hl)); naive_solver.
      - destruct (proj1 (elem_of_cons _ _ _) (Hks k' v Hk' Hl)); naive_solver. }
    rewrite IH by naive_solver. apply map_eq. intros k'. unfold spec_expire, spec_delete_if_lease.
    destruct (m !! k) as [p|] eqn:E; [destruct (_ =? _) eqn:El|]; bool_prop; cbn; [|done..].
    apply option_eq. intros v. rewrite !map_lookup_filter_Some, lookup_delete_Some. naive_solver.
Qed.

Section revoke.
Context `{SP : Spanner} `{!SpannerLaws SP}.

(** ** Undisturbed revocation *)

Lemma deleteLeaseKeys_quiet leaseID keys n w :
  world_wf w → quiet w → clock_ok (length keys) w →
  ∃ w', deleteLeaseKeys leaseID keys n w = (n, w') ∧ world_wf w' ∧
    w_rpc w' = (w_rpc w + length keys)%nat ∧ kv_lease (w_db w') = kv_lease (w_db w) ∧
    view (kv (w_db w')) = foldl (λ m k, (spec_delete_if_lease k leaseID m).2) (view (kv (w_db w))) keys.
Proof using All.
  revert w. induction keys as [|k keys IH]; intros w Hw Hq Hc.
  { exists w. split_and!; try done. }
  cbn [deleteLeaseKeys foldl]. unfold mbind, st_bind.
  assert (clock_ok 0 w) as Hc0 by (eapply clock_ok_later; [exact Hc|lia]).
  destruct (DeleteIfLease_run k leaseID w Hw Hc0 (proj1 (proj2 (Hq _ (le_n _))))) as (db & Hs & H).
  pose proof (quiet_snapshot _ _ Hq Hs) as ->.
  pose proof (DeleteIfLease_guarantee k leaseID w Hw Hc0) as [Hw1 _].
  assert (∃ b, (DeleteIfLease k leaseID w).1 = Ok b ∧
    w_rpc (DeleteIfLease k leaseID w).2 = S (w_rpc w) ∧
    kv_lease (w_db (DeleteIfLease k leaseID w).2) = kv_lease (w_db w) ∧
    view (kv (w_db (DeleteIfLease k leaseID w).2)) =
      (spec_delete_if_lease k leaseID (view (kv (w_db w)))).2) as (b & Hb & Hrpc & Hl & Hv).
  { assert (w_rpc (DeleteIfLease k leaseID w).2 = S (w_rpc w)) as Hrpc.
    { unfold DeleteIfLease, mbind, st_bind, read_write_txn.
      repeat case_match; simplify_eq/=; done. }
    unfold spec_delete_if_lease. rewrite view_lookup.
    destruct (live (kv (w_db w)) k) as [p|] eqn:E; cbn [fmap option_fmap option_map]; [|by rewrite H; eauto].
    pose proof (live_elem _ _ _ E) as (Hin & _).
    destruct (rw_lease _ _ (wf_rows _ _ (ww_db _ Hw) p Hin)) as [l Hl].
    change (LeaseID (KV_of p)) with (default 0 (r_lease_id p)). rewrite Hl in *. cbn [default from_option id].
    destruct (l =? leaseID) eqn:El; bool_prop.
    - rewrite bool_decide_true in H by congruence. destruct H as [Hr Ha].
      exists true. split_and!; [done|done| |by eapply appended_del_view].
      by destruct Ha as (-> & _).
    - rewrite bool_decide_false in H by congruence. rewrite H. eauto. }
  destruct (DeleteIfLease k leaseID w) as [r w1]. cbn [fst snd] in *. subst r. cbn [is_ok].
  destruct (IH w1 Hw1) as (w' & -> & Hw' & Hrpc' & Hl' & Hv').
  { eapply quiet_later; [exact Hq|lia]. }
  { eapply clock_ok_later; [exact Hc|cbn; lia]. }
  exists w'. rewrite <-Hv, <-Hv', <-Hl, Hl'. split_and!; try done. cbn. lia.
Qed.

(** C30: undisturbed, revoking a lease succeeds: it deletes every key that
    currently belongs to the lease and no other key, removes the lease's record,
    and forgets the lease. *)
Theorem Revoke_correct id s :
  let w := lw_store s in
  world_wf w → quiet w → clock_ok (S (length (kv (w_db w)))) w →
  ∃ w', Revoke id s = (None, mk_lworld w' (drop_lease id (lw_lm s))) ∧ world_wf w' ∧
    view (kv (w_db w')) = spec_expire id (view (kv (w_db w))) ∧
    kv_lease (w_db w') = delete id (kv_lease (w_db w)).
Proof using All.
  intros w Hw Hq Hc. unfold Revoke, expireLeaseKeys, call, mbind, st_bind, stream.
  fold w. destruct (Hq (w_rpc w) (le_n _)) as (_ & Hf & _). rewrite Hf, (quiet_seen _ Hq).
  set (keys := r_key <$> q_lease_keys id (sp_plan (w_rpc w)) (w_db w)).
  assert (world_wf (set_db (w_db w) w)) as Hw1 by by apply world_wf_set_db, snapshot_refl.
  assert (length keys ≤ length (kv (w_db w)))%nat as Hlen.
  { unfold keys, q_lease_keys, join_latest. rewrite length_fmap.
    etrans; [apply length_filter|]. etrans; [apply length_filter|]. by rewrite law_plan. }
  destruct (deleteLeaseKeys_quiet id keys 0 (set_db (w_db w) w) Hw1) as (w2 & H & Hw2 & Hrpc & Hl & Hv).
  { by apply quiet_set_db. }
  { eapply clock_ok_later; [exact Hc|cbn; lia]. }
  rewrite H. cbn [Z.ltb Z.compare].
  assert (quiet w2) as Hq2 by (eapply quiet_later; [exact Hq|rewrite Hrpc; cbn; lia]).
  destruct (Hq2 (w_rpc w2) (le_n _)) as (_ & Hf2 & _).
  unfold client_apply, commit. rewrite Hf2, (quiet_seen _ Hq2). cbn [apply_mutations apply_mutation].
  eexists. split_and!; [done|..].
  - eapply world_wf_commit; [by apply snapshot_refl|apply step_lease|]. by left.
  - change (view (kv (w_db w2)) = spec_expire id (view (kv (w_db w)))). rewrite Hv.
    apply foldl_delete_if_lease. intros k v Hk Hlv. rewrite view_lookup in Hk.
    apply fmap_Some in Hk as (p & Hp & ->). eapply (q_lease_keys_complete _ (law_plan _)); [apply Hw|done|].
    pose proof (live_elem _ _ _ Hp) as (Hin & _).
    destruct (rw_lease _ _ (wf_rows _ _ (ww_db _ Hw) p Hin)) as [l Hpl].
    cbn in Hlv. rewrite Hpl in *. cbn in Hlv. congruence.
  - cbn. by rewrite Hl.
Qed.

End revoke.

(** ** No lease is forgotten *)

(** The goroutine is about the lease. *)
Definition concerns (objs : list Lease) (g : expiry) (id : Z) : Prop :=
  match g with
  | Starting a | Waiting a _ => ∃ l, objs !! a = Some l ∧ L_ID l = id
  | Expiring i _ => i = id
  end.

(** Every lease of the map is an object with its ID, and a goroutine will expire
    it unless all attempts failed. *)
Record lm_ok (lm : LeaseManager) : Prop := mk_lm_ok {
  ok_objs id a : lm_leases lm !! id = Some a → ∃ l, lm_objs lm !! a = Some l ∧ L_ID l = id;
  ok_covered id : is_Some (lm_leases lm !! id) →
    id ∈ lm_stuck lm ∨ ∃ g, g ∈ lm_goroutines lm ∧ concerns (lm_objs lm) g id;
}.

(** Objects keep their ID. *)
Definition same_ids (objs objs' : list Lease) : Prop :=
  ∀ a l, objs !! a = Some l → ∃ l', objs' !! a = Some l' ∧ L_ID l' = L_ID l.

Lemma concerns_mono objs objs' g id : same_ids objs objs' → concerns objs g id → concerns objs' g id.
Proof.
  intros H. destruct g as [a|a d|i n]; cbn; [..|done]; intros (l & Hl & <-);
    destruct (H a l Hl) as (l' & ? & ?); eauto.
Qed.

Lemma add_lease_ok l lm : lm_ok lm → lm_ok (add_lease l lm).
Proof.
  intros [Ho Hc].
  assert (same_ids (lm_objs lm) (lm_objs lm ++ [l])) as Hs.
  { intros a x Hx. exists x. split; [|done]. by apply lookup_app_l_Some. }
  assert ((lm_objs lm ++ [l]) !! length (lm_objs lm) = Some l) as Hl by by apply list_lookup_middle.
  split; cbn.
  - intros id a [[<- <-]|[_ Ha]]%lookup_insert_Some; [eauto|].
    destruct (Ho id a Ha) as (x & Hx & Hid). apply Hs in Hx as (y & ? & ?). exists y. split; congruence.
  - intros id Hid. destruct (decide (id = L_ID l)) as [->|Hne].
    + right. exists (Starting (length (lm_objs lm))). split; [set_solver|]. cbn. eauto.
    + rewrite lookup_insert_ne in Hid by done. destruct (Hc id Hid) as [?|(g & Hg & Hgc)]; [by left|right].
      exists g. split; [set_solver|]. by eapply concerns_mono.
Qed.

Lemma drop_lease_ok id lm : lm_ok lm → lm_ok (drop_lease id lm).
Proof.
  intros [Ho Hc]. split; cbn.
  - intros i a [_ Ha]%lookup_delete_Some. eauto.
  - intros i [a [_ Ha]%lookup_delete_Some]. eauto.
Qed.

Lemma Keepalive_ok now id lm : lm_ok lm → lm_ok (Keepalive now id lm).2.
Proof.
  intros [Ho Hc]. unfold Keepalive, lookup_lease. destruct (lm_leases lm !! id) as [a|] eqn:Ea; [|by split].
  destruct (lm_objs lm !! a) as [l|] eqn:El; [|by split]. cbn.
  set (l' := mk_Lease _ _ _ _).
  assert (same_ids (lm_objs lm) (<[a := l']> (lm_objs lm))) as Hs.
  { intros b x Hx. destruct (decide (b = a)) as [->|Hne].
    - exists l'. split; [by apply list_lookup_insert_eq; eapply lookup_lt_Some|]. by simplify_eq/=.
    - exists x. by rewrite list_lookup_insert_ne. }
  split; cbn.
  - intros i b Hb. destruct (Ho i b Hb) as (x & Hx & Hid). apply Hs in Hx as (y & ? & ?).
    exists y. split; congruence.
  - intros i Hi. destruct (Hc i Hi) as [?|(g & Hg & Hgc)]; [by left|right].
    exists g. split; [done|]. by eapply concerns_mono.
Qed.

Lemma load_rows_ok rows lm : lm_ok lm → lm_ok (foldl load_row lm rows).
Proof.
  revert lm. induction rows as [|[id r] rows IH]; intros lm H; [done|]. cbn. apply IH.
  destruct (lm_leases lm !! id); [done|by apply add_lease_ok].
Qed.

(** Replacing a goroutine by others that cover its lease. *)
Lemma set_goroutines_ok lm i g0 gs :
  lm_ok lm → lm_goroutines lm !! i = Some g0 →
  (∀ g, g ∈ delete i (lm_goroutines lm) → g ∈ gs) →
  (∀ id, concerns (lm_objs lm) g0 id → is_Some (lm_leases lm !! id) →
     ∃ g, g ∈ gs ∧ concerns (lm_objs lm) g id) →
  lm_ok (set_goroutines gs lm).
Proof.
  intros [Ho Hc] Hi Hsub Hcov. split; cbn; [done|]. intros id Hid.
  destruct (Hc id Hid) as [?|(g & Hg & Hgc)]; [by left|right].
  rewrite <-(take_drop_middle _ _ _ Hi) in Hg. rewrite delete_take_drop in Hsub. set_unfold.
  destruct Hg as [Hg|[->|Hg]]; [exists g; split; [apply Hsub; by left|done]|auto|].
  exists g. split; [apply Hsub; by right|done].
Qed.

Section steps.
Context `{SP : Spanner}.

(** What [Revoke] does to the manager. *)
Lemma Revoke_lm id s :
  lw_lm (Revoke id s).2 = match (Revoke id s).1 with None => drop_lease id (lw_lm s) | Some _ => lw_lm s end.
Proof.
  unfold Revoke, call, mbind, st_bind. by destruct (expireLeaseKeys id (lw_store s)) as [[e|] w].
Qed.

Lemma Grant_ok now ttl s : lm_ok (lw_lm s) → lm_ok (lw_lm (Grant now ttl s).2).
Proof.
  intros H. unfold Grant, call, get_lm, put_lm, mbind, st_bind. cbn.
  assert (lm_ok (set_nextID (int64 (lm_nextID (lw_lm s) + 1)) (lw_lm s))) as H' by (by destruct H; split).
  destruct (client_apply _ _) as [[ts|e] w]; [|done]. by apply add_lease_ok.
Qed.

Lemma expiry_start_ok i s : lm_ok (lw_lm s) → lm_ok (lw_lm (expiry_start i s).2).
Proof.
  intros H. unfold expiry_start. destruct (lm_goroutines (lw_lm s) !! i) as [[a| |]|] eqn:E; try done.
  destruct (lm_objs (lw_lm s) !! a) as [l|] eqn:El; [|done]. cbn.
  apply (set_goroutines_ok _ i (Starting a)); [done|done|..].
  - intros g Hg. rewrite insert_take_drop by by eapply lookup_lt_Some.
    rewrite delete_take_drop in Hg. set_solver.
  - intros id (l' & Hl' & Hid) _. exists (Waiting a (L_ExpiresAt l)). split; [|by exists l'].
    eapply list_elem_of_lookup_2, list_lookup_insert_eq. by eapply lookup_lt_Some.
Qed.

Lemma expiry_fire_ok now i s : lm_ok (lw_lm s) → lm_ok (lw_lm (expiry_fire now i s).2).
Proof.
  intros H. unfold expiry_fire. destruct (lm_goroutines (lw_lm s) !! i) as [[|a d|]|] eqn:E; try done.
  case_bool; [done|]. destruct (lm_objs (lw_lm s) !! a) as [l|] eqn:El; [|done]. cbn.
  apply (set_goroutines_ok _ i (Waiting a d)); [done|done|..].
  - intros g Hg. repeat case_match; set_solver.
  - intros id (l' & Hl' & Hid) Hm. assert (l' = l) as -> by congruence. subst id.
    unfold lookup_lease. destruct (lm_leases (lw_lm s) !! L_ID l) as [a'|] eqn:Ea; [|by destruct Hm].
    destruct (ok_objs _ H _ _ Ea) as (cur & Hcur & Hid'). rewrite Hcur.
    case_bool; eexists; (split; [apply elem_of_app; right; by left|]); cbn; eauto.
Qed.

Lemma expiry_retry_ok i s : lm_ok (lw_lm s) → lm_ok (lw_lm (expiry_retry i s).2).
Proof.
  intros H. unfold expiry_retry. destruct (lm_goroutines (lw_lm s) !! i) as [[| |id n]|] eqn:E; try done.
  pose proof (Revoke_lm id s) as Hr. destruct (Revoke id s) as [r s']. cbn [fst snd] in Hr.
  destruct r as [e|]; rewrite Hr.
  - case_bool; cbn.
    + apply (set_goroutines_ok _ i (Expiring id n)); [done|done|set_solver|].
      intros id' <- _. exists (Expiring id (n + 1)). split; [|done]. set_solver.
    + destruct H as [Ho Hc]. split; cbn; [done|]. intros id' Hid'.
      destruct (Hc id' Hid') as [?|(g & Hg & Hgc)]; [left; set_solver|].
      rewrite <-(take_drop_middle _ _ _ E) in Hg. rewrite delete_take_drop. set_unfold.
      destruct Hg as [Hg|[->|Hg]]; [right; eauto|left; cbn in Hgc; auto|right; eauto].
  - apply (drop_lease_ok id) in H. cbn.
    apply (set_goroutines_ok (drop_lease id (lw_lm s)) i (Expiring id n)); [done|done|done|].
    intros id' <- [a Ha]. cbn in Ha. by rewrite lookup_delete_eq in Ha.
Qed.

Lemma loadLeases_ok s : lm_ok (lw_lm s) → lm_ok (lw_lm (loadLeases s).2).
Proof.
  intros H. unfold loadLeases, call, get_lm, put_lm, mbind, st_bind. destruct (stream_leases _) as [[rows e] w'].
  cbn. by apply load_rows_ok.
Qed.

Lemma Revoke_ok id s : lm_ok (lw_lm s) → lm_ok (lw_lm (Revoke id s).2).
Proof. intros H. rewrite Revoke_lm. destruct (Revoke id s) as [[e|] ?]; cbn; [done|by apply drop_lease_ok]. Qed.

Lemma newLeaseManager_ok now : lm_ok (newLeaseManager now).
Proof. split; cbn; [intros ? ? E|intros ? [? E]]; by rewrite lookup_empty in E. Qed.

End steps.

(** ** Granting *)

Section grant.
Context `{SP : Spanner}.

(** [Grant] hands out the next ID: unless a lease with that ID is recorded,
    it records the lease with its TTL in the database, remembers it with the
    expiry [now + TTL] and starts its expiry goroutine; a failed grant leaves no
    lease behind in memory. *)
Theorem Grant_correct now ttl s :
  sp_fate (w_rpc (lw_store s)) = FOk →
  let id := int64 (lm_nextID (lw_lm s) + 1) in
  let db := seen (lw_store s) in
  let lm := set_nextID id (lw_lm s) in
  let lease := mk_Lease id ttl now (now + int64 (ttl * Second)) in
  match kv_lease db !! id with
  | Some _ => Grant now ttl s = (Err row_exists, mk_lworld (set_db db (lw_store s)) lm)
  | None =>
      let row := mk_lease_row ttl (sp_ts (w_rpc (lw_store s))) in
      Grant now ttl s =
        (Ok lease,
         mk_lworld (set_db (set_kv_lease (<[id := row]> (kv_lease db)) db) (lw_store s)) (add_lease lease lm)) ∧
      lookup_lease (add_lease lease lm) id = Some (length (lm_objs lm), lease) ∧
      Starting (length (lm_objs lm)) ∈ lm_goroutines (add_lease lease lm)
  end.
Proof.
  intros Hf. cbn zeta. unfold Grant, call, get_lm, put_lm, mbind, st_bind, client_apply, commit. cbn.
  rewrite Hf. destruct (kv_lease _ !! _) as [r|] eqn:E; [done|]. split_and!; [done|..].
  - unfold lookup_lease. cbn. rewrite lookup_insert_eq. by rewrite list_lookup_middle.
  - apply elem_of_app. right. by left.
Qed.

End grant.

(** ** Where expiry departs from the lease *)

Definition lease_at (s : lworld) (id : Z) : option Lease := snd <$> lookup_lease (lw_lm s) id.

(** Revoking lease 0, which is no lease but the mark of a key without one,
    is not refused and deletes every key that has no lease. *)
Theorem revoke_zero_deletes_unleased :
  let s := mk_lworld run2 (newLeaseManager 0) in
  Value <$> view (kv (w_db (lw_store s))) !! "k" = Some (Some "b") ∧
  (LeaseRevoke (SP := solo) (G := grpc0) 0 s).1 = Ok (header 0) ∧
  view (kv (w_db (lw_store (LeaseRevoke (SP := solo) (G := grpc0) 0 s).2))) !! "k" = None.
Proof. vm_compute. done. Qed.

(** A lease can be revoked a second before it expires: granted at 0 with a
    TTL of 10 s and kept alive at 1 s it is valid until 11 s, but the timer of the
    grant, firing at 10 s, finds one second left, which it does not wait for. *)
Theorem lease_revoked_early :
  let s0 := mk_lworld run2 (newLeaseManager 0) in
  let s1 := (expiry_start 0 (Grant (SP := solo) 0 10 s0).2).2 in
  let s2 := set_lm (Keepalive (1 * Second) 1 (lw_lm s1)).2 s1 in
  let s3 := (expiry_fire (10 * Second) 0 s2).2 in
  let s4 := (expiry_retry (SP := solo) 0 s3).2 in
  L_ExpiresAt <$> lease_at s3 1 = Some (11 * Second) ∧
  lease_at s4 1 = None ∧ kv_lease (w_db (lw_store s4)) !! 1 = None.
Proof. vm_compute. done. Qed.

(** A keep-alive is known only to the replica that received it: a second
    replica that loaded the lease counts from the grant and revokes the lease, and
    its keys, at the first deadline, although the first replica has promised the
    client a later one. *)
Theorem keepalive_is_not_shared :
  let sA0 := mk_lworld run2 (newLeaseManager 0) in
  let sA := (Grant (SP := solo) 110 10 sA0).2 in
  let w1 := (Put (SP := solo) (G := grpc0) (mk_PutRequest "lk" (Some "v") 1 false false false) (lw_store sA)).2 in
  let sB := (expiry_start 0 (loadLeases (SP := solo) (mk_lworld w1 (newLeaseManager 500))).2).2 in
  let lmA := (Keepalive (9 * Second) 1 (lw_lm sA)).2 in
  let t := 11 * Second in
  let sB' := (expiry_retry (SP := solo) 0 (expiry_fire t 0 sB).2).2 in
  S_Remaining <$> GetTTL t 1 lmA = Some 8 ∧
  Value <$> view (kv (w_db (lw_store sB))) !! "lk" = Some (Some "v") ∧
  view (kv (w_db (lw_store sB'))) !! "lk" = None ∧
  kv_lease (w_db (lw_store sB')) !! 1 = None.
Proof. vm_compute. done. Qed.

(** ** Concrete runs *)

Definition lrun0 : lworld := mk_lworld run2 (newLeaseManager 0).
Definition lrun1 : lworld := (Grant (SP := solo) 0 10 lrun0).2.

(** The key "lk" is put with the lease. *)
Definition lrun_key : lworld :=
  mk_lworld (Put (SP := solo) (G := grpc0) (mk_PutRequest "lk" (Some "v") 1 false false false) (lw_store lrun1)).2 (lw_lm lrun1).

Lemma lrun_key_wf : world_wf (SP := solo) (lw_store lrun_key).
Proof.
  apply (guarantee_world (lw_store lrun1)), (safe_Put (SP := solo) (G := grpc0)); [|vm_compute; reflexivity].
  unfold lrun1, Grant, call, client_apply, commit, mbind, st_bind. cbn.
  eapply world_wf_commit; [by apply snapshot_refl, run2_wf|apply step_lease|]. by left.
Qed.

(** The lease, its record and its key are there before and gone after; the other key stays. *)
Lemma Revoke_correct_witness :
  (is_Some (lm_leases (lw_lm lrun_key) !! 1) ∧ is_Some (kv_lease (w_db (lw_store lrun_key)) !! 1) ∧
   LeaseID <$> view (kv (w_db (lw_store lrun_key))) !! "lk" = Some 1) ∧
  ∃ w', Revoke (SP := solo) 1 lrun_key = (None, mk_lworld w' (drop_lease 1 (lw_lm lrun_key))) ∧
    lm_leases (drop_lease 1 (lw_lm lrun_key)) !! 1 = None ∧ kv_lease (w_db w') !! 1 = None ∧
    view (kv (w_db w')) !! "lk" = None ∧ Value <$> view (kv (w_db w')) !! "k" = Some (Some "b").
Proof.
  split; [vm_compute; split; [by eexists|split; [by eexists|reflexivity]]|].
  destruct (@Revoke_correct solo solo_laws 1 lrun_key lrun_key_wf (solo_quiet _)
              (sim_clock _ _ (S (length (kv (w_db (lw_store lrun_key))))) (lw_store lrun_key) eq_refl))
    as (w' & H1 & _ & H3 & H4).
  exists w'. split; [exact H1|]. split; [reflexivity|]. rewrite H3, H4. vm_compute. repeat split.
Defined.

Lemma Grant_correct_witness :
  (Grant (SP := solo) 0 10 lrun0).1 = Ok (mk_Lease 1 10 0 10000000000).
Proof.
  destruct (@Grant_correct solo 0 10 lrun0 eq_refl) as [H _]. rewrite H. vm_compute. reflexivity.
Defined.

(** ** Reloading after a restart *)

Section reload.
Context `{SP : Spanner} `{!SpannerLaws SP}.

Lemma load_row_keeps lm row id : is_Some (lm_leases lm !! id) → is_Some (lm_leases (load_row lm row) !! id).
Proof.
  destruct row as [i r]. unfold load_row. destruct (lm_leases lm !! i) eqn:E; [done|]. intros H. cbn.
  apply lookup_insert_is_Some. destruct (decide (i = id)); auto.
Qed.

Lemma load_rows rows lm id :
  is_Some (lm_leases lm !! id) ∨ id ∈ rows.*1 → is_Some (lm_leases (foldl load_row lm rows) !! id).
Proof.
  revert lm. induction rows as [|[i r] rows IH]; intros lm; cbn.
  - by intros [?|?%elem_of_nil].
  - intros [H|[->|H]%elem_of_cons]; apply IH; [left; by apply (load_row_keeps lm (i, r))| |by right].
    left. unfold load_row. destruct (lm_leases lm !! i) eqn:E; [done|]. cbn. by rewrite lookup_insert_eq.
Qed.

(** A scan that comes to its end leaves every lease of the database in memory. *)
Lemma loadLeases_complete s :
  sp_fate (w_rpc (lw_store s)) = FOk →
  (loadLeases s).1 = (true, None) ∧
  ∀ id, is_Some (kv_lease (w_db (lw_store (loadLeases s).2)) !! id) → is_Some (lm_leases (lw_lm (loadLeases s).2) !! id).
Proof using All.
  intros Hf. unfold loadLeases, call, get_lm, put_lm, mbind, st_bind, stream_leases. rewrite Hf. cbn. split; [done|].
  intros id [r Hr]. apply load_rows. right. apply list_elem_of_fmap. exists (id, r). split; [done|].
  by rewrite law_lease_plan, elem_of_map_to_list.
Qed.

Lemma loadLeases_failed s :
  sp_fate (w_rpc (lw_store s)) ≠ FOk →
  (∃ e, (loadLeases s).1 = (false, Some e)) ∧ w_rpc (lw_store (loadLeases s).2) = S (w_rpc (lw_store s)).
Proof.
  intros Hf. unfold loadLeases, call, get_lm, put_lm, mbind, st_bind, stream_leases.
  destruct (sp_fate _); [done|]. cbn. eauto.
Qed.

(** A scan that comes to its end leaves every lease of the database in memory, however many
    failed before it, in the middle of their rows or not. *)
Lemma gcLoop_complete n attempts s :
  (n < attempts)%nat → sp_fate (w_rpc (lw_store s) + n) = FOk →
  (∀ i, (i < n)%nat → sp_fate (w_rpc (lw_store s) + i) ≠ FOk) →
  (gcLoop attempts s).1 = true ∧
  ∀ id, is_Some (kv_lease (w_db (lw_store (gcLoop attempts s).2)) !! id) →
        is_Some (lm_leases (lw_lm (gcLoop attempts s).2) !! id).
Proof using All.
  revert attempts s. induction n as [|n IH]; intros [|attempts] s Hlt Hok Hfail; try lia; cbn [gcLoop]; unfold mbind, st_bind.
  - rewrite Nat.add_0_r in Hok. destruct (loadLeases_complete s Hok) as [H1 H2].
    destruct (loadLeases s) as [r s']. cbn [fst snd] in *. by rewrite H1.
  - destruct (loadLeases_failed s) as [[e H1] H2]; [rewrite <-(Nat.add_0_r (w_rpc _)); apply Hfail; lia|].
    destruct (loadLeases s) as [r s']. cbn [fst snd] in *. rewrite H1. apply IH; [lia| |].
    + by rewrite H2, Nat.add_succ_comm.
    + intros i Hi. rewrite H2, Nat.add_succ_comm. apply Hfail. lia.
Qed.

End reload.
