(* ===== verification/LeaseRuns.v ===== *)
(** * Runs of the lease manager

    The manager of one replica, until it is stopped, as a machine: its state is the manager
    with the store and the grants that have written their record and not yet entered their
    lease; an action is a call of a client, the end of a grant, a reload, a step of an
    expiry goroutine, or anything at the store.  Any sequence of actions is a run, and the
    attempts the expiry goroutines make during it are its trace.  No lease is forgotten,
    a keep-alive keeps its lease until a second before the expiry it set, and a restarted
    manager finds its leases again. *)

From Stdlib Require Import Ascii String.
From S2P Require Import Prelude Go Spanner Rows Invariant Sim StoreRead StoreWrite StoreTxn StoreSpec Reads StoreCompact StoreInvariant Safe KVServer KVProps Leases LeaseProps.

Open Scope string_scope.
Open Scope list_scope.
Open Scope Z_scope.

(** ** The machine *)

(** [lr_granting] are the leases whose [Grant] has written the record and has not yet taken
    the lock of the map. *)
Record lrun := mk_lrun { lr_s : lworld; lr_granting : list Lease }.

Definition lr_lm (x : lrun) : LeaseManager := lw_lm (lr_s x).

Definition lrun_init (w : world) (now : Z) : lrun := mk_lrun (mk_lworld w (newLeaseManager now)) [].

Inductive lease_action :=
| AGrantApply (now ttl : Z)
| AGrantInsert (k : nat)
| ARevoke (id : Z)
| AKeepalive (now id : Z)
| ALoad
| AStart (i : nat)
| AFire (now : Z) (i : nat)
| ARetry (i : nat)
| AStore (w : world).

(** An attempt of an expiry goroutine to revoke its lease, with its number and its error. *)
Record attempt := mk_attempt { at_id : Z; at_number : Z; at_err : option error }.

Section runs.
Context `{SP : Spanner}.

(** [Grant] up to the result of [Apply]. *)
Definition Grant_apply (now ttl : Z) : ST lworld (res Lease) :=
  lm ← get_lm;
  let id := int64 (lm_nextID lm + 1) in
  _ ← put_lm (set_nextID id lm);
  try ts := call (client_apply [InsertLease id ttl]) catch e => mret (Err e);
  mret (Ok (mk_Lease id ttl now (Time_Add now (seconds ttl)))).

(** The rest of it: the lease enters the map and its expiry goroutine starts. *)
Definition Grant_insert (lease : Lease) : ST lworld () :=
  lm ← get_lm; put_lm (add_lease lease lm).

Lemma Grant_split now ttl s :
  Grant now ttl s =
    (try lease := Grant_apply now ttl catch e => mret (Err e); _ ← Grant_insert lease; mret (Ok lease)) s.
Proof.
  unfold Grant, Grant_apply, Grant_insert, call, get_lm, put_lm, mbind, st_bind. cbn.
  by destruct (client_apply _ _) as [[ts|e] w].
Qed.

Definition act (a : lease_action) (x : lrun) : lrun :=
  let s := lr_s x in
  match a with
  | AGrantApply now ttl =>
      let (r, s') := Grant_apply now ttl s in
      mk_lrun s' (lr_granting x ++ match r with Ok lease => [lease] | Err _ => [] end)
  | AGrantInsert k =>
      match lr_granting x !! k with
      | Some lease => mk_lrun (Grant_insert lease s).2 (delete k (lr_granting x))
      | None => x
      end
  | ARevoke id => mk_lrun (Revoke id s).2 (lr_granting x)
  | AKeepalive now id => mk_lrun (set_lm (Keepalive now id (lw_lm s)).2 s) (lr_granting x)
  | ALoad => mk_lrun (loadLeases s).2 (lr_granting x)
  | AStart i => mk_lrun (expiry_start i s).2 (lr_granting x)
  | AFire now i => mk_lrun (expiry_fire now i s).2 (lr_granting x)
  | ARetry i => mk_lrun (expiry_retry i s).2 (lr_granting x)
  | AStore w => mk_lrun (mk_lworld w (lw_lm s)) (lr_granting x)
  end.

Definition attempts_of (a : lease_action) (x : lrun) : list attempt :=
  match a with
  | ARetry i =>
      match lm_goroutines (lr_lm x) !! i with
      | Some (Expiring id n) => [mk_attempt id n (Revoke id (lr_s x)).1]
      | _ => []
      end
  | _ => []
  end.

Definition run_leases (acts : list lease_action) (x : lrun) : lrun := foldl (λ x a, act a x) x acts.

Fixpoint attempts (acts : list lease_action) (x : lrun) : list attempt :=
  match acts with [] => [] | a :: acts => attempts_of a x ++ attempts acts (act a x) end.

(** ** The manager's invariant along a run *)

Lemma Grant_apply_lm now ttl s : ∃ n, lw_lm (Grant_apply now ttl s).2 = set_nextID n (lw_lm s).
Proof.
  unfold Grant_apply, call, get_lm, put_lm, mbind, st_bind. cbn.
  destruct (client_apply _ _) as [[ts|e] w]; by eexists.
Qed.

Lemma act_ok a x : lm_ok (lr_lm x) → lm_ok (lr_lm (act a x)).
Proof.
  unfold lr_lm. intros H. destruct a; cbn [act lr_s].
  - destruct (Grant_apply_lm now ttl (lr_s x)) as [n E]. destruct (Grant_apply now ttl (lr_s x)) as [r s'].
    cbn in *. rewrite E. by destruct H.
  - destruct (_ !! k); [by apply add_lease_ok|done].
  - by apply Revoke_ok.
  - by apply Keepalive_ok.
  - by apply loadLeases_ok.
  - by apply expiry_start_ok.
  - by apply expiry_fire_ok.
  - by apply expiry_retry_ok.
  - done.
Qed.

Lemma run_ok acts x : lm_ok (lr_lm x) → lm_ok (lr_lm (run_leases acts x)).
Proof. revert x. induction acts as [|a acts IH]; intros x H; [done|]. apply IH. by apply act_ok. Qed.

(** *** What the actions do to the goroutines and the leases given up *)

(** [gs] are goroutines of [gs0], their expiry set, and new ones that expire nothing yet but
    for a first attempt. *)
Definition calmer (gs0 gs : list expiry) : Prop :=
  ∀ id n, Expiring id n ∈ gs → Expiring id n ∈ gs0 ∨ n = 1.

Lemma load_rows_calm rows lm :
  lm_stuck (foldl load_row lm rows) = lm_stuck lm ∧
  ∀ id n, Expiring id n ∈ lm_goroutines (foldl load_row lm rows) → Expiring id n ∈ lm_goroutines lm.
Proof.
  revert lm. induction rows as [|[i r] rows IH]; intros lm; [done|]. cbn [foldl]. destruct (IH (load_row lm (i, r))) as [-> H].
  unfold load_row in *. destruct (lm_leases lm !! i); [done|]. split; [done|]. intros id n Hin%H. cbn in Hin.
  by apply elem_of_app in Hin as [?|?%list_elem_of_singleton].
Qed.

Lemma Keepalive_goroutines now id lm :
  lm_goroutines (Keepalive now id lm).2 = lm_goroutines lm ∧ lm_stuck (Keepalive now id lm).2 = lm_stuck lm.
Proof. unfold Keepalive. by destruct (lookup_lease lm id) as [[a l]|]. Qed.

Lemma Revoke_goroutines id s :
  lm_goroutines (lw_lm (Revoke id s).2) = lm_goroutines (lw_lm s) ∧ lm_stuck (lw_lm (Revoke id s).2) = lm_stuck (lw_lm s).
Proof. rewrite Revoke_lm. by destruct (Revoke id s).1. Qed.

(** Every action but an attempt. *)
Lemma act_calm a x :
  (∀ i, a ≠ ARetry i) →
  lm_stuck (lr_lm (act a x)) = lm_stuck (lr_lm x) ∧ calmer (lm_goroutines (lr_lm x)) (lm_goroutines (lr_lm (act a x))).
Proof.
  unfold lr_lm, calmer. intros Ha. destruct a; cbn [act lr_s]; [..|by destruct (Ha i)|split; [done|by left]].
  - destruct (Grant_apply_lm now ttl (lr_s x)) as [n E]. destruct (Grant_apply now ttl (lr_s x)) as [r s'].
    cbn in *. rewrite E. split; [done|by left].
  - destruct (_ !! k); [|split; [done|by left]]. split; [done|]. cbn.
    intros id n [?|?%list_elem_of_singleton]%elem_of_app; [by left|done].
  - destruct (Revoke_goroutines id (lr_s x)) as [-> ->]. split; [done|by left].
  - destruct (Keepalive_goroutines now id (lw_lm (lr_s x))) as [E1 E2]. cbn. rewrite E1, E2. split; [done|by left].
  - unfold loadLeases, call, get_lm, put_lm, mbind, st_bind. destruct (stream_leases _) as [[rows e] w']. cbn.
    destruct (load_rows_calm rows (lw_lm (lr_s x))) as [H1 H2]. split; [done|]. left. by apply H2.
  - unfold expiry_start. repeat case_match; (split; [done|]); try by left. cbn. intros id n Hin. left.
    apply list_elem_of_lookup in Hin as [j Hj]. apply list_lookup_insert_Some in Hj as [(_ & ? & _)|(_ & Hj)]; [done|].
    by eapply list_elem_of_lookup_2.
  - unfold expiry_fire. repeat case_match; (split; [done|]); try (by left); cbn; intros id' n' Hin;
      [apply elem_of_app in Hin as [Hin|?%list_elem_of_singleton]; [|simplify_eq; by (done || right)]..|];
      left; by eapply elem_of_sublist, sublist_delete.
Qed.

(** ** No lease is forgotten *)

(** Attempts 1 to [n] for the lease were made and failed. *)
Definition failed (tr : list attempt) (id n : Z) : Prop :=
  ∀ m, 1 ≤ m ≤ n → ∃ e, mk_attempt id m (Some e) ∈ tr.

(** The attempts made are those the state of the goroutines tells. *)
Record tried (tr : list attempt) (lm : LeaseManager) : Prop := mk_tried {
  tr_range a : a ∈ tr → 1 ≤ at_number a ≤ 5;
  tr_stuck id : id ∈ lm_stuck lm → failed tr id 5;
  tr_expiring id n : Expiring id n ∈ lm_goroutines lm → 1 ≤ n ≤ 5 ∧ failed tr id (n - 1);
}.

Lemma failed_app tr tr' id n : failed tr id n → failed (tr ++ tr') id n.
Proof. intros H m Hm. destruct (H m Hm) as [e He]. exists e. apply elem_of_app. by left. Qed.

Lemma failed_next tr id n e : failed tr id (n - 1) → failed (tr ++ [mk_attempt id n (Some e)]) id n.
Proof.
  intros H m Hm. destruct (decide (m = n)) as [->|Hne].
  - exists e. apply elem_of_app. right. by apply list_elem_of_singleton.
  - destruct (H m) as [e' He]; [lia|]. exists e'. apply elem_of_app. by left.
Qed.

Lemma tried_calm tr lm lm' :
  lm_stuck lm' = lm_stuck lm → calmer (lm_goroutines lm) (lm_goroutines lm') → tried tr lm → tried tr lm'.
Proof.
  intros Hs Hc [Hr Hst He]. split; [done|by rewrite Hs|]. intros id n [?|Hn]%Hc; [auto|].
  split; [lia|]. intros m Hm. lia.
Qed.

(** An attempt. *)
Lemma tried_retry i x tr :
  tried tr (lr_lm x) → tried (tr ++ attempts_of (ARetry i) x) (lr_lm (act (ARetry i) x)).
Proof.
  unfold lr_lm. intros [Hr Hst He]. cbn [act attempts_of lr_s]. unfold expiry_retry, lr_lm.
  destruct (lm_goroutines (lw_lm (lr_s x)) !! i) as [[| |id n]|] eqn:E; try by rewrite app_nil_r.
  destruct (He id n (list_elem_of_lookup_2 _ _ _ E)) as [Hn Hf].
  destruct (Revoke_goroutines id (lr_s x)) as [Hg Hs]. destruct (Revoke id (lr_s x)) as [r s']. cbn [fst snd] in *.
  assert (∀ a, a ∈ tr ++ [mk_attempt id n r] → 1 ≤ at_number a ≤ 5) as Hr'
    by (intros a [?| ->%list_elem_of_singleton]%elem_of_app; auto).
  assert (∀ id' n', Expiring id' n' ∈ delete i (lm_goroutines (lw_lm s')) →
    1 ≤ n' ≤ 5 ∧ failed (tr ++ [mk_attempt id n r]) id' (n' - 1)) as He'.
  { intros id' n' Hin. rewrite Hg in Hin. apply elem_of_sublist with (l2 := lm_goroutines (lw_lm (lr_s x))) in Hin;
      [|apply sublist_delete]. destruct (He _ _ Hin). split; [done|]. by apply failed_app. }
  assert (∀ id', id' ∈ lm_stuck (lw_lm s') → failed (tr ++ [mk_attempt id n r]) id' 5) as Hst'
    by (rewrite Hs; intros id' ?; apply failed_app; auto).
  destruct r as [e|]; [destruct (n <? 5) eqn:E5; bool_prop|]; split; cbn; try done.
  - intros id' n' [?|?%list_elem_of_singleton]%elem_of_app; [auto|]. simplify_eq. split; [lia|].
    replace (n + 1 - 1) with n by lia. by apply failed_next.
  - intros id' [?| ->%list_elem_of_singleton]%elem_of_app; [auto|]. replace 5 with n by lia. by apply failed_next.
Qed.

Lemma tried_act a x tr : tried tr (lr_lm x) → tried (tr ++ attempts_of a x) (lr_lm (act a x)).
Proof.
  intros H. assert ((∃ i, a = ARetry i) ∨ ∀ i, a ≠ ARetry i) as [[i ->]|Ha] by (destruct a; naive_solver).
  - by apply tried_retry.
  - destruct (act_calm a x Ha) as [H1 H2]. assert (attempts_of a x = []) as -> by (destruct a; naive_solver).
    rewrite app_nil_r. by eapply tried_calm.
Qed.

Lemma tried_run acts x tr : tried tr (lr_lm x) → tried (tr ++ attempts acts x) (lr_lm (run_leases acts x)).
Proof.
  revert x tr. induction acts as [|a acts IH]; intros x tr H; cbn [attempts]; [by rewrite app_nil_r|].
  rewrite app_assoc. apply IH. by apply tried_act.
Qed.

(** C31: no lease is forgotten: from a fresh lease manager that is not stopped, through any
    interleaving of grants, revocations, keep-alives, reloads, steps of the expiry
    goroutines and whatever happens at the store, a lease in the map has a goroutine that
    is about it, or each of the attempts number one to five to expire it was made and
    failed; and no goroutine makes a sixth. *)
Theorem no_lease_forgotten now w acts id :
  let x := run_leases acts (lrun_init w now) in
  let tr := attempts acts (lrun_init w now) in
  (is_Some (lm_leases (lr_lm x) !! id) →
   (∃ g, g ∈ lm_goroutines (lr_lm x) ∧ concerns (lm_objs (lr_lm x)) g id) ∨
   ∀ n, 1 ≤ n ≤ 5 → ∃ e, mk_attempt id n (Some e) ∈ tr) ∧
  ∀ a, a ∈ tr → 1 ≤ at_number a ≤ 5.
Proof.
  cbn zeta. assert (tried [] (lr_lm (lrun_init w now))) as H by (split; cbn; by intros ? ?%elem_of_nil || intros ? ? ?%elem_of_nil).
  apply (tried_run acts) in H as [Hr Hst _]. cbn [app] in *. split; [|done]. intros Hid.
  destruct (ok_covered _ (run_ok acts (lrun_init w now) (newLeaseManager_ok now)) id Hid) as [?|?]; [right|by left].
  by apply Hst.
Qed.

(** ** Keep-alives *)

(** When an action happens, for those that read the clock. *)
Definition action_time (a : lease_action) : option Z :=
  match a with
  | AGrantApply now _ | AKeepalive now _ | AFire now _ => Some now
  | _ => None
  end.

(** Whether an action revokes the lease on behalf of a client, or enters another one with
    its ID. *)
Definition replaces (id : Z) (a : lease_action) (x : lrun) : bool :=
  match a with
  | ARevoke i => i =? id
  | AGrantInsert k => match lr_granting x !! k with Some l => L_ID l =? id | None => false end
  | _ => false
  end.

(** Any action from [now] on and more than a second before [until] that does not replace the
    lease. *)
Inductive kept_step (id now until : Z) (x : lrun) : lrun → Prop :=
| kept_act a :
    (∀ t, action_time a = Some t → now ≤ t ∧ t + Second < until) → replaces id a x = false →
    kept_step id now until x (act a x).

(** The lease is the object at [a], expires at [until] or later, and no goroutine expires it. *)
Record kept (id ttl until : Z) (a : nat) (lm : LeaseManager) : Prop := mk_kept {
  kp_map : lm_leases lm !! id = Some a;
  kp_obj : ∃ l, lm_objs lm !! a = Some l ∧ L_ID l = id ∧ L_TTL l = ttl ∧ until ≤ L_ExpiresAt l;
  kp_calm n : Expiring id n ∉ lm_goroutines lm;
}.

Lemma kept_goroutines id ttl until a lm gs :
  kept id ttl until a lm → (∀ n, Expiring id n ∈ gs → Expiring id n ∈ lm_goroutines lm) →
  kept id ttl until a (set_goroutines gs lm).
Proof. intros [H1 H2 H3] Hgs. split; [done|done|]. intros n Hin%Hgs. by apply (H3 n). Qed.

Lemma kept_add id ttl until a lm l : kept id ttl until a lm → L_ID l ≠ id → kept id ttl until a (add_lease l lm).
Proof.
  intros [H1 (l0 & H2 & H3) H4] Hne. split; cbn.
  - by rewrite lookup_insert_ne.
  - exists l0. split; [by apply lookup_app_l_Some|done].
  - intros n [?|?%list_elem_of_singleton]%elem_of_app; [by apply (H4 n)|done].
Qed.

Lemma kept_load id ttl until a rows lm : kept id ttl until a lm → kept id ttl until a (foldl load_row lm rows).
Proof.
  revert lm. induction rows as [|[i r] rows IH]; intros lm H; [done|]. cbn [foldl]. apply IH. unfold load_row.
  destruct (lm_leases lm !! i) eqn:E; [done|]. apply kept_add; [done|]. cbn. intros ->. by rewrite (kp_map _ _ _ _ _ H) in E.
Qed.

Lemma kept_drop id ttl until a lm i : kept id ttl until a lm → i ≠ id → kept id ttl until a (drop_lease i lm).
Proof. intros [H1 H2 H3] Hne. split; [|done|done]. cbn. by rewrite lookup_delete_ne. Qed.

Lemma kept_Revoke id ttl until a s i :
  kept id ttl until a (lw_lm s) → i ≠ id → kept id ttl until a (lw_lm (Revoke i s).2).
Proof. intros H Hne. rewrite Revoke_lm. destruct (Revoke i s).1; [done|by apply kept_drop]. Qed.

Lemma kept_Keepalive id ttl until a lm now t i :
  lm_ok lm → kept id ttl until a lm → until = Time_Add now (seconds ttl) → now ≤ t →
  kept id ttl until a (Keepalive t i lm).2.
Proof.
  intros Hok [H1 (l & H2 & Hid & Httl & Hexp) H3] -> Ht. unfold Keepalive, lookup_lease.
  destruct (lm_leases lm !! i) as [b|] eqn:Eb; [|by split; eauto].
  destruct (lm_objs lm !! b) as [lb|] eqn:El; [|by split; eauto].
  split; [done| |done]. cbn. destruct (decide (b = a)) as [->|Hne].
  - assert (lb = l) as -> by congruence. eexists. split; [by apply list_lookup_insert_eq; eapply lookup_lt_Some|].
    cbn. rewrite Httl. split_and!; [done|done|]. unfold Time_Add in *. lia.
  - exists l. by rewrite list_lookup_insert_ne.
Qed.

(** A timer that fires finds more than a second left. *)
Lemma kept_fire id ttl until a s t i :
  kept id ttl until a (lw_lm s) → t + Second < until → kept id ttl until a (lw_lm (expiry_fire t i s).2).
Proof.
  intros H Ht. pose proof H as [H1 (l & H2 & Hid & _ & Hexp) _]. unfold expiry_fire.
  destruct (lm_goroutines (lw_lm s) !! i) as [[|b d|]|] eqn:Eg; try done.
  case_bool; [done|]. destruct (lm_objs (lw_lm s) !! b) as [lb|] eqn:Eb; [|done]. cbn [snd set_lm lw_lm].
  apply kept_goroutines; [done|]. intros n.
  assert (∀ g, g ∈ delete i (lm_goroutines (lw_lm s)) → g ∈ lm_goroutines (lw_lm s)) as Hsub
    by (intros g Hg; by eapply elem_of_sublist, sublist_delete).
  destruct (decide (L_ID lb = id)) as [->|Hne].
  - unfold lookup_lease. rewrite H1, H2. destruct (Second <? _) eqn:Et; bool_prop.
    + intros [Hg|Hg%list_elem_of_singleton]%elem_of_app; [auto|done].
    + unfold Until in Et. unfold Second in *. lia.
  - destruct (lookup_lease _ _) as [[a' cur]|]; [|auto].
    destruct (Second <? _); intros [Hg|Hg%list_elem_of_singleton]%elem_of_app; auto; congruence.
Qed.

Lemma kept_retry id ttl until a s i :
  kept id ttl until a (lw_lm s) → kept id ttl until a (lw_lm (expiry_retry i s).2).
Proof.
  intros H. unfold expiry_retry. destruct (lm_goroutines (lw_lm s) !! i) as [[| |j n]|] eqn:Eg; try done.
  assert (j ≠ id) as Hne by (intros ->; by apply (kp_calm _ _ _ _ _ H n), (list_elem_of_lookup_2 _ i)).
  pose proof (kept_Revoke _ _ _ _ _ j H Hne) as H'. destruct (Revoke j s) as [r s']. cbn [snd] in *.
  assert (∀ g, g ∈ delete i (lm_goroutines (lw_lm s')) → g ∈ lm_goroutines (lw_lm s')) as Hsub
    by (intros g Hg; by eapply elem_of_sublist, sublist_delete).
  destruct r as [e|]; [destruct (n <? 5)|]; cbn [set_lm lw_lm].
  - apply kept_goroutines; [done|]. intros m [Hg|Hg%list_elem_of_singleton]%elem_of_app; [auto|congruence].
  - assert (kept id ttl until a (set_goroutines (delete i (lm_goroutines (lw_lm s'))) (lw_lm s'))) as [? ? ?]
      by (apply kept_goroutines; auto). by split.
  - apply kept_goroutines; auto.
Qed.

Lemma kept_start id ttl until a s i :
  kept id ttl until a (lw_lm s) → kept id ttl until a (lw_lm (expiry_start i s).2).
Proof.
  intros H. unfold expiry_start. repeat case_match; try done. cbn [snd set_lm lw_lm]. apply kept_goroutines; [done|].
  intros n [j Hj]%list_elem_of_lookup. apply list_lookup_insert_Some in Hj as [(_ & ? & _)|(_ & Hj)]; [done|].
  by eapply list_elem_of_lookup_2.
Qed.

Lemma kept_act_step id ttl until now a x b :
  lm_ok (lr_lm x) → kept id ttl until a (lr_lm x) → until = Time_Add now (seconds ttl) →
  (∀ t, action_time b = Some t → now ≤ t ∧ t + Second < until) → replaces id b x = false →
  kept id ttl until a (lr_lm (act b x)).
Proof.
  unfold lr_lm. intros Hok H Hu Ht Hrep. destruct b; cbn [act lr_s] in *.
  - destruct (Grant_apply_lm now0 ttl0 (lr_s x)) as [n E]. destruct (Grant_apply now0 ttl0 (lr_s x)) as [r s'].
    cbn in *. rewrite E. by destruct H.
  - cbn in Hrep. destruct (_ !! k) as [l|]; [|done]. bool_prop. by apply kept_add.
  - cbn in Hrep. bool_prop. by apply kept_Revoke.
  - destruct (Ht _ eq_refl). by eapply kept_Keepalive.
  - unfold loadLeases, call, get_lm, put_lm, mbind, st_bind. destruct (stream_leases _) as [[rows e] w']. cbn.
    by apply kept_load.
  - by apply kept_start.
  - destruct (Ht _ eq_refl). by apply kept_fire.
  - by apply kept_retry.
  - done.
Qed.

Lemma kept_run id ttl until now a x x' :
  lm_ok (lr_lm x) → kept id ttl until a (lr_lm x) → until = Time_Add now (seconds ttl) →
  rtc (kept_step id now until) x x' → kept id ttl until a (lr_lm x').
Proof.
  intros Hok H Hu Hrun. induction Hrun as [|x y z [b Ht Hrep] _ IH]; [done|].
  apply IH; [by apply act_ok|]. by eapply kept_act_step.
Qed.

(** C32: a keep-alive keeps its lease at the replica that received it: from any state of a run
    in which the lease is in the map and no goroutine is expiring it, after [Keepalive] at
    [now] and any further actions from then on and more than a second before [now + TTL] -
    timers set before the keep-alive, reloads, attempts for other leases, failures and
    other replicas at the store included; a revocation of this lease by a client and a
    grant of its ID apart - the lease is still in the map, expires no earlier than
    [now + TTL], and no goroutine of this replica is expiring it. *)
Theorem keepalive_postpones_expiry w t0 acts now id a l x' :
  let x := run_leases acts (lrun_init w t0) in
  let until := Time_Add now (seconds (L_TTL l)) in
  lookup_lease (lr_lm x) id = Some (a, l) → (∀ n, Expiring id n ∉ lm_goroutines (lr_lm x)) →
  rtc (kept_step id now until) (act (AKeepalive now id) x) x' →
  (∃ l', lookup_lease (lr_lm x') id = Some (a, l') ∧ L_TTL l' = L_TTL l ∧ until ≤ L_ExpiresAt l') ∧
  ∀ n, Expiring id n ∉ lm_goroutines (lr_lm x').
Proof.
  cbn zeta. set (x := run_leases _ _). intros Hl Hcalm Hrun.
  assert (lm_ok (lr_lm x)) as Hok by apply run_ok, newLeaseManager_ok.
  assert (kept id (L_TTL l) (Time_Add now (seconds (L_TTL l))) a (lr_lm (act (AKeepalive now id) x))) as Hk.
  { unfold lr_lm in *. cbn [act lr_s set_lm lw_lm]. unfold Keepalive. rewrite Hl. unfold lookup_lease in Hl.
    destruct (lm_leases (lw_lm (lr_s x)) !! id) as [b|] eqn:Eb; [|done].
    destruct (lm_objs (lw_lm (lr_s x)) !! b) as [lb|] eqn:El; [|done]. injection Hl as -> ->.
    destruct (ok_objs _ Hok _ _ Eb) as (l1 & Hl1 & Hid). assert (l1 = l) as -> by congruence.
    split; [done| |done]. eexists. split; [cbn; by apply list_lookup_insert_eq; eapply lookup_lt_Some|done]. }
  destruct (kept_run _ _ _ _ _ _ _ (act_ok _ _ Hok) Hk eq_refl Hrun) as [H1 (l' & H2 & _ & H3 & H4) H5].
  split; [|done]. exists l'. unfold lookup_lease. by rewrite H1, H2.
Qed.

End runs.

(** ** Reloading after a restart *)

Section restart.
Context `{SP : Spanner} `{!SpannerLaws SP}.

Lemma loadLeases_stuck s : lm_stuck (lw_lm (loadLeases s).2) = lm_stuck (lw_lm s).
Proof.
  unfold loadLeases, call, get_lm, put_lm, mbind, st_bind. destruct (stream_leases _) as [[rows e] w']. cbn.
  apply load_rows_calm.
Qed.

Lemma gcLoop_ok attempts s :
  lm_ok (lw_lm s) → lm_ok (lw_lm (gcLoop attempts s).2) ∧ lm_stuck (lw_lm (gcLoop attempts s).2) = lm_stuck (lw_lm s).
Proof.
  revert s. induction attempts as [|n IH]; intros s H; [done|]. cbn [gcLoop]. unfold mbind, st_bind.
  pose proof (loadLeases_ok s H) as Hok. pose proof (loadLeases_stuck s) as Hst.
  destruct (loadLeases s) as [[[] e] s']; [done|]. cbn [snd] in *. rewrite <-Hst. by apply IH.
Qed.

(** C40: after a restart [gcLoop] of the new manager brings every lease of the database back,
    with a goroutine that will expire it, as soon as one scan comes to its end, however
    many failed before it, in the middle of their rows or not, and whatever other replicas
    wrote meanwhile. *)
Theorem gcLoop_reloads n attempts now w :
  (n < attempts)%nat → sp_fate (w_rpc w + n) = FOk → (∀ i, (i < n)%nat → sp_fate (w_rpc w + i) ≠ FOk) →
  let '(ended, s) := gcLoop attempts (mk_lworld w (newLeaseManager now)) in
  ended = true ∧
  ∀ id, is_Some (kv_lease (w_db (lw_store s)) !! id) →
    is_Some (lm_leases (lw_lm s) !! id) ∧ ∃ g, g ∈ lm_goroutines (lw_lm s) ∧ concerns (lm_objs (lw_lm s)) g id.
Proof using All.
  intros Hlt Hok Hfail. set (s0 := mk_lworld w (newLeaseManager now)).
  destruct (gcLoop_complete n attempts s0 Hlt Hok Hfail) as [H1 H2].
  destruct (gcLoop_ok attempts s0 (newLeaseManager_ok now)) as [H3 H4].
  destruct (gcLoop attempts s0) as [ended s]. cbn [fst snd] in *. split; [done|]. intros id Hid%H2. split; [done|].
  destruct (ok_covered _ H3 id Hid) as [Hst|?]; [|done]. rewrite H4 in Hst. by apply elem_of_nil in Hst.
Qed.

End restart.

(** ** Witnesses *)

(** Every call from the fourth on fails. *)
Definition outage : Spanner := sim (λ _ db, db) (λ n, if (n <? 3)%nat then FOk else FErr 0 false Unavailable "unavailable").

(** A lease is granted, its timer fires, and five attempts fail. *)
Definition given_up : list lease_action :=
  [AGrantApply 0 10; AGrantInsert 0; AStart 0; AFire (10 * Second) 0; ARetry 0; ARetry 0; ARetry 0; ARetry 0; ARetry 0].

Lemma no_lease_forgotten_witness :
  (∃ g, g ∈ lm_goroutines (lr_lm (run_leases (SP := solo) (take 4 given_up) (lrun_init run2 0))) ∧
        concerns (lm_objs (lr_lm (run_leases (SP := solo) (take 4 given_up) (lrun_init run2 0)))) g 1) ∧
  (∀ n, 1 ≤ n ≤ 5 → ∃ e, mk_attempt 1 n (Some e) ∈ attempts (SP := outage) given_up (lrun_init run2 0)).
Proof.
  split.
  - destruct (@no_lease_forgotten solo 0 run2 (take 4 given_up) 1) as [[H|H] _].
    + vm_compute. by eexists.
    + exact H.
    + destruct (H 1 ltac:(lia)) as [e He]. vm_compute in He. by apply elem_of_nil in He.
  - destruct (@no_lease_forgotten outage 0 run2 given_up 1) as [[(g & Hg & _)|H] _].
    + vm_compute. by eexists.
    + vm_compute in Hg. by apply elem_of_nil in Hg.
    + exact H.
Defined.

(** Granted at 0 with a TTL of 10 s and kept alive at 5 s; the timer of the grant fires, and a
    reload finds the record. *)
Definition granted : list lease_action := take 3 given_up.

Lemma keepalive_postpones_expiry_witness :
  let x := run_leases (SP := solo) granted (lrun_init run2 0) in
  let x' := act (SP := solo) ALoad (act (SP := solo) (AFire (10 * Second) 0) (act (SP := solo) (AKeepalive (5 * Second) 1) x)) in
  (∃ l', lookup_lease (lr_lm x') 1 = Some (0%nat, l') ∧ L_TTL l' = 10 ∧ 15 * Second ≤ L_ExpiresAt l') ∧
  ∀ n, Expiring 1 n ∉ lm_goroutines (lr_lm x').
Proof.
  cbv zeta.
  apply (@keepalive_postpones_expiry solo run2 0 granted (5 * Second) 1 0 (mk_Lease 1 10 0 (10 * Second))).
  - vm_compute. reflexivity.
  - intros n H. vm_compute in H. apply list_elem_of_singleton in H. discriminate H.
  - apply (rtc_l _ _ (act (SP := solo) (AFire (10 * Second) 0)
                        (act (SP := solo) (AKeepalive (5 * Second) 1) (run_leases (SP := solo) granted (lrun_init run2 0))))).
    + apply kept_act; [|reflexivity]. intros t [= <-]. vm_compute. split; [discriminate|reflexivity].
    + eapply rtc_l; [apply (kept_act (SP := solo) 1 _ _ _ ALoad); [discriminate|reflexivity]|apply rtc_refl].
Defined.

(** The first two scans fail. *)
Definition flaky : Spanner := sim (λ _ db, db) (λ n, if (n <? 2)%nat then FErr 0 false Unavailable "unavailable" else FOk).

Lemma flaky_laws : SpannerLaws flaky.
Proof.
  destruct solo_laws. split; try assumption.
Qed.

Definition one_lease : lworld :=
  mk_lworld (world_of (mk_database [] ∅ {[7 := mk_lease_row 60 100]} ∅)) (newLeaseManager 500).

Lemma gcLoop_reloads_witness :
  ∃ s g, gcLoop (SP := flaky) 3 one_lease = (true, s) ∧ g ∈ lm_goroutines (lw_lm s) ∧ concerns (lm_objs (lw_lm s)) g 7.
Proof.
  pose proof (@gcLoop_reloads flaky flaky_laws 2 3 500 (lw_store one_lease) ltac:(lia) eq_refl) as H.
  change (mk_lworld (lw_store one_lease) (newLeaseManager 500)) with one_lease in H.
  destruct (gcLoop (SP := flaky) 3 one_lease) as [ended s] eqn:E.
  destruct H as [-> H]; [intros i Hi; destruct i as [|[|i]]; [discriminate|discriminate|lia]|].
  destruct (H 7) as [_ (g & Hg & Hc)]; [vm_compute in E; injection E as <-; vm_compute; by eexists|].
  exists s, g. split; [reflexivity|]. split; [exact Hg|exact Hc].
Defined.
