(* ===== verification/Auth.v ===== *)
(** * pkg/server/auth.go: authentication

    Users from the [--auth-users] flag, tokens with an expiry, the interceptors
    that guard every RPC.  Instants and random bytes are arguments; the metadata
    of a request is its [Get] function. *)

From Stdlib Require Import Ascii String.
From S2P Require Import Prelude Go GoText KVServer.

Open Scope string_scope.
Open Scope list_scope.
Open Scope Z_scope.

(** ** Package hex *)

(** [hex.EncodeToString(b)]. *)
Definition hex_digit (n : N) : ascii := ascii_of_N (if (n <? 10)%N then 48 + n else 87 + n)%N.

Fixpoint EncodeToString (b : list ascii) : string :=
  match b with
  | [] => EmptyString
  | c :: b =>
      let n := N_of_ascii c in
      String (hex_digit (N.div n 16)) (String (hex_digit (N.modulo n 16)) (EncodeToString b))
  end.

(** ** State *)

Definition DefaultTokenTTL : Z := 5 * Minute.
Definition tokenHeader : string := "token".
Definition authHeaderKey : string := "authorization".

Record tokenInfo := mk_tokenInfo { ti_username : string; ti_expiresAt : Z }.

Record AuthServer := mk_AuthServer {
  a_users : gmap string string;
  a_tokens : gmap string tokenInfo;
  a_enabled : bool;
  a_ttl : Z;
}.

Definition newAuthServer (users : gmap string string) (ttl : Z) : AuthServer :=
  mk_AuthServer users ∅ (negb (bool_decide (users = ∅))) (if ttl <=? 0 then DefaultTokenTTL else ttl).

Definition set_tokens (tokens : gmap string tokenInfo) (a : AuthServer) : AuthServer :=
  mk_AuthServer (a_users a) tokens (a_enabled a) (a_ttl a).

(** ** Operations *)

(** One tick of [gcLoop]. *)
Definition auth_gc (now : Z) (a : AuthServer) : AuthServer :=
  set_tokens (filter (λ '(_, info), ¬ (ti_expiresAt info < now)) (a_tokens a)) a.

(** The sixteen random bytes are [b]. *)
Definition generateToken (b : list ascii) : string := EncodeToString b.

Definition Authenticate (now : Z) (b : list ascii) (name password : string) (a : AuthServer) :
    res string * AuthServer :=
  if negb (a_enabled a) then (Ok "no-auth", a)
  else
    let refused := (Err (StatusError Unauthenticated "authentication failed" []), a) in
    match a_users a !! name with
    | None => refused
    | Some pass =>
        if negb (bool_decide (pass = password)) then refused
        else
          let tok := generateToken b in
          (Ok tok, set_tokens (<[tok := mk_tokenInfo name (Time_Add now (a_ttl a))]> (a_tokens a)) a)
    end.

(** The other RPCs change nothing. *)
Definition AuthEnable (a : AuthServer) : AuthServer := a.
Definition AuthDisable (a : AuthServer) : AuthServer := a.
Definition AuthStatus (a : AuthServer) : bool := a_enabled a.

(** The token a request presents, "" for none. *)
Definition requestToken (get : string → list string) : string :=
  match get tokenHeader with
  | v :: _ => v
  | [] => match get authHeaderKey with
          | v :: _ => TrimPrefix v "Bearer "
          | [] => ""
          end
  end.

Definition validate (now : Z) (md : option (string → list string)) (a : AuthServer) : bool :=
  if negb (a_enabled a) then true
  else
    match md with
    | None => false
    | Some get =>
        let tok := requestToken get in
        if bool_decide (tok = "") then false
        else match a_tokens a !! tok with
             | None => false
             | Some info => negb (ti_expiresAt info <? now)
             end
    end.

Definition isPublicMethod (method : string) : bool :=
  Contains method "Auth/Authenticate" || Contains method "Auth/AuthEnable"
  || Contains method "Auth/AuthDisable" || Contains method "Auth/AuthStatus"
  || Contains method "Health/Check" || Contains method "grpc.health".

Definition invalidAuthTokenErr : error :=
  StatusError Unauthenticated "etcdserver: invalid auth token" [].

(** Both interceptors: the handler runs, or the request is refused. *)
Definition authInterceptor {A} (now : Z) (method : string) (md : option (string → list string))
    (a : AuthServer) (handler : res A) : res A :=
  if isPublicMethod method || validate now md a then handler else Err invalidAuthTokenErr.

Definition parsePair (users : gmap string string) (pair : string) : gmap string string :=
  match Cut (TrimSpace pair) ":" with
  | Some (user, pass) => if negb (bool_decide (user = "")) then <[user := pass]> users else users
  | None => users
  end.

Definition parseUsers (s : string) : gmap string string :=
  if bool_decide (s = "") then ∅ else foldl parsePair ∅ (Split s ",").

(** ** Runs *)

(** What happens to the server: a login attempt, or a tick of the collector. *)
Inductive auth_event :=
| Login (now : Z) (b : list ascii) (name password : string)
| Gc (now : Z).

Definition auth_apply (a : AuthServer) (e : auth_event) : AuthServer :=
  match e with
  | Login now b name password => (Authenticate now b name password a).2
  | Gc now => auth_gc now a
  end.

Definition auth_run (a : AuthServer) (es : list auth_event) : AuthServer := foldl auth_apply a es.

Lemma auth_run_static users ttl es :
  let a := auth_run (newAuthServer users ttl) es in
  a_users a = users ∧ a_enabled a = negb (bool_decide (users = ∅)) ∧
  a_ttl a = (if ttl <=? 0 then DefaultTokenTTL else ttl).
Proof.
  induction es as [|e es IH] using rev_ind; [done|].
  unfold auth_run in *. rewrite foldl_app. cbn. set (a := foldl auth_apply _ es) in *.
  destruct e as [now b name password|now]; [|done]. unfold auth_apply, Authenticate.
  repeat case_match; done.
Qed.

(** The token [tok], expiring at [expires], was issued by a login of the events
    with the right password. *)
Definition issued (users : gmap string string) (ttl : Z) (es : list auth_event) (tok : string)
    (info : tokenInfo) : Prop :=
  ∃ t b password, Login t b (ti_username info) password ∈ es ∧ tok = generateToken b ∧
    users !! ti_username info = Some password ∧ ti_expiresAt info = t + ttl.

Lemma tokens_issued users ttl es tok info :
  let a := auth_run (newAuthServer users ttl) es in
  a_tokens a !! tok = Some info → issued users (a_ttl a) es tok info.
Proof.
  cbn zeta. revert tok info. induction es as [|e es IH] using rev_ind; intros tok info.
  { cbn. by rewrite lookup_empty. }
  destruct (auth_run_static users ttl es) as (Hu & He & Ht).
  unfold auth_run in *. rewrite foldl_app. cbn [foldl]. set (a := foldl auth_apply _ es) in *.
  assert (∀ i, issued users (a_ttl a) es tok i → issued users (a_ttl a) (es ++ [e]) tok i) as Hmono.
  { intros i (t & b & p & Hin & H). exists t, b, p. split; [set_solver|done]. }
  destruct e as [now b name password|now]; cbn [auth_apply].
  - unfold Authenticate. destruct (a_enabled a); cbn [negb]; [|by intros ?%IH%Hmono].
    destruct (a_users a !! name) as [pass|] eqn:Ep; [|by intros ?%IH%Hmono].
    destruct (bool_decide (pass = password)) eqn:Hpw; bool_prop; cbn [negb]; [|by intros ?%IH%Hmono].
    cbn [snd set_tokens a_tokens a_ttl].
    intros [[<- <-]|[_ Hi]]%lookup_insert_Some; [|by apply Hmono, IH]. subst pass.
    exists now, b, password. rewrite <-Hu. split; [set_solver|done].
  - cbn. intros [Hi _]%map_lookup_filter_Some. by apply Hmono, IH.
Qed.

Lemma validate_sound users ttl es now md :
  users ≠ ∅ → validate now md (auth_run (newAuthServer users ttl) es) = true →
  ∃ get name password t b,
    md = Some get ∧ Login t b name password ∈ es ∧ users !! name = Some password ∧
    requestToken get = generateToken b ∧ now ≤ t + (if ttl <=? 0 then DefaultTokenTTL else ttl).
Proof.
  intros Hne. destruct (auth_run_static users ttl es) as (_ & He & Ht).
  unfold validate. rewrite He, bool_decide_false by done. cbn [negb].
  destruct md as [get|]; [|done]. destruct (bool_decide (requestToken get = "")) eqn:Htok; [done|]. cbn zeta.
  destruct (a_tokens _ !! requestToken get) as [info|] eqn:Hi; [|done].
  destruct (ti_expiresAt info <? now) eqn:Ex; [done|]. intros _. bool_prop.
  apply tokens_issued in Hi as (t & b & p & Hin & Hg & Hu & Hexp). rewrite Ht in Hexp.
  exists get, (ti_username info), p, t, b. split_and!; try done. lia.
Qed.

(** Authentication is sound: with users configured, a request to a method
    that is not public reaches its handler only if it presents a token that some
    earlier login issued to a configured user who gave the right password, no
    longer ago than the token lifetime. *)
Theorem auth_sound {A} users ttl es now method md (handler : res A) :
  users ≠ ∅ → isPublicMethod method = false →
  authInterceptor now method md (auth_run (newAuthServer users ttl) es) handler ≠ Err invalidAuthTokenErr →
  ∃ get name password t b,
    md = Some get ∧ Login t b name password ∈ es ∧ users !! name = Some password ∧
    requestToken get = generateToken b ∧ now ≤ t + (if ttl <=? 0 then DefaultTokenTTL else ttl).
Proof.
  intros Hne Hpub. unfold authInterceptor. rewrite Hpub. cbn [orb].
  destruct (validate _ _ _) eqn:Hv; [|done]. intros _. by apply validate_sound.
Qed.

(** C33: authentication is complete: the token a login returns is accepted until
    its lifetime is over, whatever logins and collections happen in between (as
    long as the random token is not drawn again and time does not go back). *)
Theorem auth_complete users ttl es es' t b name password get now :
  users !! name = Some password → generateToken b ≠ "" →
  requestToken get = generateToken b →
  (∀ t' b' n p, Login t' b' n p ∈ es' → generateToken b' ≠ generateToken b) →
  (∀ t', Gc t' ∈ es' → t' ≤ now) →
  now ≤ t + (if ttl <=? 0 then DefaultTokenTTL else ttl) →
  validate now (Some get) (auth_run (newAuthServer users ttl) (es ++ Login t b name password :: es')) = true.
Proof.
  intros Hu Hb Hget Hfresh Hgc Hnow.
  set (ttl' := if ttl <=? 0 then DefaultTokenTTL else ttl) in *.
  assert (a_tokens (auth_run (newAuthServer users ttl) (es ++ Login t b name password :: es')) !! generateToken b
          = Some (mk_tokenInfo name (t + ttl'))) as Htok.
  { induction es' as [|e es' IH] using rev_ind.
    - destruct (auth_run_static users ttl es) as (Hus & He & Ht).
      unfold auth_run in *. rewrite foldl_app. cbn. set (a := foldl auth_apply _ es) in *.
      unfold Authenticate. rewrite He, bool_decide_false by (intros ->; by rewrite lookup_empty in Hu).
      rewrite Hus, Hu. cbn [negb]. rewrite bool_decide_true by done. cbn. by rewrite lookup_insert_eq, Ht.
    - unfold auth_run in *. rewrite app_comm_cons, app_assoc, foldl_app. cbn [foldl].
      set (a := foldl auth_apply _ _) in *.
      assert (a_tokens a !! generateToken b = Some (mk_tokenInfo name (t + ttl'))) as Ha.
      { apply IH.
        - intros t' b' n p Hin. apply (Hfresh t' b' n p), elem_of_app. by left.
        - intros t' Hin. apply Hgc, elem_of_app. by left. }
      destruct e as [t' b' n p|t']; cbn [auth_apply].
      + unfold Authenticate. repeat case_match; try done. cbn.
        rewrite lookup_insert_ne; [done|]. apply (Hfresh t' b' n p), elem_of_app. right. by left.
      + cbn. apply map_lookup_filter_Some. split; [done|]. cbn.
        assert (t' ≤ now) by (apply Hgc, elem_of_app; right; by left). lia. }
  destruct (auth_run_static users ttl (es ++ Login t b name password :: es')) as (_ & He & _).
  unfold validate. rewrite He, bool_decide_false by (intros ->; by rewrite lookup_empty in Hu). cbn [negb].
  rewrite Hget, bool_decide_false by done. rewrite Htok. cbn. apply negb_true_iff, Z.ltb_ge. lia.
Qed.

(** ** The users flag *)

Fixpoint has_byte (c : ascii) (s : string) : bool :=
  match s with EmptyString => false | String d s' => bool_decide (d = c) || has_byte c s' end.

Fixpoint join (sep : ascii) (ps : list string) : string :=
  match ps with
  | [] => ""
  | [p] => p
  | p :: ps => p +:+ String sep (join sep ps)
  end.

Lemma Split_nonempty s sep : Split s sep ≠ [].
Proof. destruct s; cbn; [done|]. case_bool; [done|]. by destruct (Split s sep). Qed.

Lemma Split_single p sep : has_byte sep p = false → Split p sep = [p].
Proof.
  induction p as [|c p IH]; cbn; [done|]. intros [Hc Hp]%orb_false_iff.
  rewrite Hc, IH by done. done.
Qed.

Lemma Split_app p s sep : has_byte sep p = false → Split (p +:+ String sep s) sep = p :: Split s sep.
Proof.
  induction p as [|c p IH]; cbn; [by rewrite bool_decide_true by done|].
  intros [Hc Hp]%orb_false_iff. by rewrite Hc, IH by done.
Qed.

Lemma Split_join ps sep :
  ps ≠ [] → Forall (λ p, has_byte sep p = false) ps → Split (join sep ps) sep = ps.
Proof.
  intros Hne H. induction H as [|p ps Hp Hps IH]; [done|]. destruct ps as [|q ps].
  - by apply Split_single.
  - change (join sep (p :: q :: ps)) with (p +:+ String sep (join sep (q :: ps))).
    by rewrite Split_app, IH by done.
Qed.

Lemma Cut_app u p sep : has_byte sep u = false → Cut (u +:+ String sep p) sep = Some (u, p).
Proof.
  induction u as [|c u IH]; cbn; [by rewrite bool_decide_true by done|].
  intros [Hc Hu]%orb_false_iff. by rewrite Hc, IH by done.
Qed.

(** How a list of users is written in the flag. *)
Definition user_pair (u : string * string) : string := u.1 +:+ String ":" u.2.

(** A pair the flag can express: a name without separator, no comma, and nothing
    that is trimmed away. *)
Definition expressible (u : string * string) : bool :=
  negb (bool_decide (u.1 = "")) && negb (has_byte ":" u.1) && negb (has_byte "," (user_pair u))
  && bool_decide (TrimSpace (user_pair u) = user_pair u).

Lemma foldl_parsePair us m :
  Forall (λ u, expressible u = true) us →
  foldl parsePair m (user_pair <$> us) = foldl (λ m u, <[u.1 := u.2]> m) m us.
Proof.
  intros H. revert m. induction H as [|u us Hu _ IH]; intros m; [done|]. cbn. rewrite IH. f_equal.
  unfold expressible in Hu. bool_prop. unfold parsePair, user_pair in *.
  rewrite H0, Cut_app by done. by rewrite bool_decide_false by done.
Qed.

(** The [--auth-users] flag round-trips: users written as "name:password"
    joined by commas are read back exactly, the last one winning for a name that
    occurs twice. *)
Theorem parseUsers_roundtrip us :
  us ≠ [] → Forall (λ u, expressible u = true) us →
  parseUsers (join "," (user_pair <$> us)) = foldl (λ m u, <[u.1 := u.2]> m) ∅ us.
Proof.
  intros Hne H. unfold parseUsers. rewrite bool_decide_false.
  - rewrite Split_join; [by apply foldl_parsePair|by destruct us|].
    apply Forall_fmap. eapply Forall_impl; [exact H|]. intros u Hu. unfold expressible in Hu.
    by bool_prop.
  - destruct us as [|[u p] us]; [done|]. apply Forall_cons in H as [Hu _]. unfold expressible in Hu.
    bool_prop. cbn in *. destruct u; [done|]. by destruct us.
Qed.

(** ** Concrete runs *)

Definition users0 : gmap string string := {["root" := "pw"]}.
Definition bytes0 : list ascii := ["a"; "b"]%char.
Definition with_token (tok : string) : string → list string :=
  λ h, if bool_decide (h = tokenHeader) then [tok] else [].

Lemma auth_sound_witness :
  ∃ get name password t b,
    Some (with_token "6162") = Some get ∧ Login t b name password ∈ [Login 5 bytes0 "root" "pw"] ∧
    users0 !! name = Some password ∧ requestToken get = generateToken b ∧ 100 ≤ t + DefaultTokenTTL.
Proof.
  apply (auth_sound users0 0 [Login 5 bytes0 "root" "pw"] 100 "/etcdserverpb.KV/Range"
           (Some (with_token "6162")) (Ok tt : res ())).
  - discriminate.
  - vm_compute. reflexivity.
  - vm_compute. discriminate.
Defined.

Lemma auth_complete_witness :
  validate 100 (Some (with_token "6162"))
    (auth_run (newAuthServer users0 0) ([] ++ [Login 5 bytes0 "root" "pw"; Gc 50])) = true.
Proof.
  apply (auth_complete users0 0 [] [Gc 50] 5 bytes0 "root" "pw").
  - vm_compute. reflexivity.
  - vm_compute. discriminate.
  - vm_compute. reflexivity.
  - intros t' b' n p H%list_elem_of_singleton. discriminate H.
  - intros t' H%list_elem_of_singleton. injection H as ->. lia.
  - vm_compute. discriminate.
Defined.

Lemma parseUsers_roundtrip_witness :
  parseUsers "root:pw,eve:x:y" = {["eve" := "x:y"; "root" := "pw"]}.
Proof.
  pose proof (parseUsers_roundtrip [("root", "pw"); ("eve", "x:y")] ltac:(discriminate)) as H.
  etrans; [apply H; repeat constructor; vm_compute; reflexivity|]. vm_compute. reflexivity.
Defined.
