(* ===== verification/Watcher.v ===== *)
(** * pkg/store/watch.go: delivering events to watches

    A subscriber is an object with a bounded channel, shared by the goroutine
    that replays history to it, the dispatcher and the consumer: it lives at an
    address of [wt_objs], and [wt_subscribers] is the list of registered
    addresses.  The goroutine of a subscription is the [phase] of the object, and
    [replay_step] its next atomic action: a query, a channel operation, an access
    to the closed flag, a critical section.  [dispatchEvents] and [doPoll] are the
    dispatcher and the poll as they run undisturbed; [dispatch_micro] is the next
    atomic action of a dispatcher, for the interleavings. *)

From Stdlib Require Import Ascii String.
From S2P Require Import Prelude Go Spanner Rows Invariant Sim StoreRead StoreWrite.

Open Scope string_scope.
Open Scope list_scope.
Open Scope Z_scope.

Definition pollBatchSize : Z := 500.
Definition subChannelDepth : Z := 100.

(** ** State *)

(** Where the goroutine of [subscribe] stands: before the compaction check; about
    to query after a revision; blocked on sending a batch, and whether another
    batch follows; waiting for its context; in the deferred function, about to set
    the closed flag, to remove the subscriber, to drain the channel, to send the
    sentinel; ended. *)
Inductive phase :=
| PStart (afterRev : Z)
| PReplay (replayRev : Z)
| PSend (events : list Event) (replayRev : Z) (more : bool)
| PWait
| PClose
| PRemove
| PDrain
| PSentinel
| PDone.

Record subscriber := mk_subscriber {
  sub_prefix : string;
  sub_ch : list (list Event);
  sub_cancelled : bool;
  sub_closed : bool;
  sub_phase : phase;
}.

(** [wt_lastRev] is the variable of the poll loop. *)
Record Watcher := mk_Watcher {
  wt_objs : list subscriber;
  wt_subscribers : list nat;
  wt_lastRev : Z;
}.

Record wworld := mk_wworld { vs_store : world; vs_watcher : Watcher }.

Definition set_sub (i : nat) (s : subscriber) (wt : Watcher) : Watcher :=
  mk_Watcher (<[i := s]> (wt_objs wt)) (wt_subscribers wt) (wt_lastRev wt).

Definition closedSentinel : list Event := [].

Definition room (s : subscriber) : bool := Z.of_nat (length (sub_ch s)) <? subChannelDepth.

Definition enqueue (batch : list Event) (s : subscriber) : subscriber :=
  mk_subscriber (sub_prefix s) (sub_ch s ++ [batch]) (sub_cancelled s) (sub_closed s) (sub_phase s).

Definition set_phase (p : phase) (s : subscriber) : subscriber :=
  mk_subscriber (sub_prefix s) (sub_ch s) (sub_cancelled s) (sub_closed s) p.

Definition cancel (s : subscriber) : subscriber :=
  mk_subscriber (sub_prefix s) (sub_ch s) true (sub_closed s) (sub_phase s).

(** ** Dispatch *)

(** [prefix == "" || strings.HasPrefix(key, prefix)], the suffix [%] trimmed. *)
Definition sub_matches (s : subscriber) (ev : Event) : bool :=
  let prefix := TrimSuffixByte (sub_prefix s) "%" in
  bool_decide (prefix = "") || HasPrefix (Key (EvKV ev)) prefix.

Definition matching (events : list Event) (s : subscriber) : list Event :=
  filter (λ ev, sub_matches s ev = true) events.

(** [select { case sub.ch <- matching: default: sub.cancel() }] *)
Definition offer (batch : list Event) (s : subscriber) : subscriber :=
  if room s then enqueue batch s else cancel s.

Definition dispatch_one (events : list Event) (s : subscriber) : subscriber :=
  match matching events s with
  | [] => s
  | batch => if sub_closed s then s else offer batch s
  end.

(** The loop over the registered subscribers. *)
Definition dispatchEvents (events : list Event) (wt : Watcher) : Watcher :=
  match events with
  | [] => wt
  | _ => foldl (λ wt i, match wt_objs wt !! i with
                        | Some s => set_sub i (dispatch_one events s) wt
                        | None => wt
                        end) wt (wt_subscribers wt)
  end.

(** A dispatcher under way: the subscribers left of the copy it took, and the
    subscriber whose closed flag it has found unset and to which it is about to
    send. *)
Record dispatcher := mk_dispatcher {
  d_events : list Event;
  d_todo : list nat;
  d_send : option nat;
}.

Definition dispatch_start (events : list Event) (wt : Watcher) : dispatcher :=
  mk_dispatcher events (match events with [] => [] | _ => wt_subscribers wt end) None.

Definition dispatch_micro (p : dispatcher * Watcher) : dispatcher * Watcher :=
  let '(mk_dispatcher events todo send, wt) := p in
  match send with
  | Some i =>
      (mk_dispatcher events todo None,
       match wt_objs wt !! i with
       | Some s => set_sub i (offer (matching events s) s) wt
       | None => wt
       end)
  | None =>
      match todo with
      | [] => p
      | i :: todo =>
          (mk_dispatcher events todo
             (match wt_objs wt !! i with
              | Some s => match matching events s with
                          | [] => None
                          | _ => if sub_closed s then None else Some i
                          end
              | None => None
              end), wt)
      end
  end.

(** ** Subscriptions *)

Definition subscribe (prefix : string) (afterRev : Z) (wt : Watcher) : nat * Watcher :=
  let i := length (wt_objs wt) in
  (i, mk_Watcher (wt_objs wt ++ [mk_subscriber prefix [] false false (PStart afterRev)])
        (wt_subscribers wt ++ [i]) (wt_lastRev wt)).

Definition removeSub (i : nat) (wt : Watcher) : Watcher :=
  mk_Watcher (wt_objs wt) (filter (λ j, j ≠ i) (wt_subscribers wt)) (wt_lastRev wt).

(** The consumer takes the next batch. *)
Definition receive (i : nat) (wt : Watcher) : option (list Event) * Watcher :=
  match wt_objs wt !! i with
  | Some s =>
      match sub_ch s with
      | [] => (None, wt)
      | b :: ch => (Some b, set_sub i (mk_subscriber (sub_prefix s) ch (sub_cancelled s)
                                         (sub_closed s) (sub_phase s)) wt)
      end
  | None => (None, wt)
  end.

Definition last_rev (events : list Event) (rev : Z) : Z :=
  match last events with Some ev => Rev (EvKV ev) | None => rev end.

Section watcher.
Context `{SP : Spanner}.

(** The next action of the goroutine of subscriber [i]; it blocks on a full channel
    and, in [PWait], on its context. *)
Definition replay_step (i : nat) (v : wworld) : wworld :=
  let '(mk_wworld w wt) := v in
  match wt_objs wt !! i with
  | None => v
  | Some s =>
      let goto w p := mk_wworld w (set_sub i (set_phase p s) wt) in
      match sub_phase s with
      | PStart afterRev =>
          if afterRev =? 0 then goto w PWait
          else
            let (r, w') := compactRevision w in
            match r with
            | Err _ => goto w' PClose
            | Ok compactRev =>
                if (1 <? compactRev) && (afterRev <=? compactRev) then goto w' PClose
                else goto w' (PReplay (afterRev - 1))
            end
      | PReplay replayRev =>
          let (r, w') := After (sub_prefix s) replayRev pollBatchSize w in
          match r.2 with
          | Err _ => goto w' PClose
          | Ok events =>
              let more := negb (Z.of_nat (length events) <? pollBatchSize) in
              match events with
              | [] => goto w' PWait
              | _ => goto w' (PSend events (last_rev events replayRev) more)
              end
          end
      | PSend events rev more =>
          if room s then
            mk_wworld w (set_sub i (set_phase (if more then PReplay rev else PWait) (enqueue events s)) wt)
          else v
      | PClose =>
          mk_wworld w (set_sub i (mk_subscriber (sub_prefix s) (sub_ch s) (sub_cancelled s) true PRemove) wt)
      | PRemove =>
          mk_wworld w (set_sub i (set_phase PDrain (cancel s)) (removeSub i wt))
      | PDrain =>
          match sub_ch s with
          | [] => goto w PSentinel
          | _ :: ch => mk_wworld w (set_sub i (mk_subscriber (sub_prefix s) ch (sub_cancelled s)
                                                 (sub_closed s) PDrain) wt)
          end
      | PSentinel =>
          if room s then mk_wworld w (set_sub i (set_phase PDone (enqueue closedSentinel s)) wt) else v
      | PWait | PDone => v
      end
  end.

(** The goroutine sees, while it sends or waits, that its context is done. *)
Definition replay_done (i : nat) (wt : Watcher) : Watcher :=
  match wt_objs wt !! i with
  | Some s =>
      if sub_cancelled s then
        match sub_phase s with PSend _ _ _ | PWait => set_sub i (set_phase PClose s) wt | _ => wt end
      else wt
  | None => wt
  end.

(** The 100 ms for the sentinel pass with the channel full. *)
Definition sentinel_timeout (i : nat) (wt : Watcher) : Watcher :=
  match wt_objs wt !! i with
  | Some s =>
      match sub_phase s with
      | PSentinel => if room s then wt else set_sub i (set_phase PDone s) wt
      | _ => wt
      end
  | None => wt
  end.

(** The context of the watch is cancelled by its client. *)
Definition cancel_sub (i : nat) (wt : Watcher) : Watcher :=
  match wt_objs wt !! i with Some s => set_sub i (cancel s) wt | None => wt end.

(** ** The poll loop *)

Definition doPoll (v : wworld) : wworld :=
  let '(mk_wworld w wt) := v in
  let (r, w') := After "" (wt_lastRev wt) pollBatchSize w in
  let set_rev rev wt := mk_Watcher (wt_objs wt) (wt_subscribers wt) rev in
  match r with
  | (curRev, Err err) =>
      mk_wworld w' (if bool_decide (err = ErrCompacted) then set_rev curRev wt else wt)
  | (curRev, Ok events) => mk_wworld w' (set_rev curRev (dispatchEvents events wt))
  end.

(** The poll loop starts from the current revision. *)
Definition poll_init (v : wworld) : wworld :=
  let '(mk_wworld w wt) := v in
  let (r, w') := CurrentRevision w in
  mk_wworld w' (mk_Watcher (wt_objs wt) (wt_subscribers wt) (or_zero r)).

(** A hint arrives on [notifyCh]. *)
Definition poll_notified (v : wworld) : wworld :=
  let '(mk_wworld w wt) := v in
  match w_notify w with
  | [] => v
  | hint :: rest =>
      let v' := mk_wworld (mk_world (w_db w) (w_rpc w) rest (w_compactions w)) wt in
      if wt_lastRev wt <? hint then doPoll v' else v'
  end.

End watcher.

(** ** What a dispatch does to each subscriber *)

Lemma dispatch_loop_spec events subs wt i :
  NoDup subs →
  wt_objs (foldl (λ wt i, match wt_objs wt !! i with
                          | Some s => set_sub i (dispatch_one events s) wt
                          | None => wt
                          end) wt subs) !! i =
  (if bool_decide (i ∈ subs) then dispatch_one events <$> wt_objs wt !! i else wt_objs wt !! i).
Proof.
  intros Hnd. revert wt. induction Hnd as [|j subs Hj _ IH]; intros wt; [done|]. cbn. rewrite IH.
  assert (wt_objs (match wt_objs wt !! j with
                   | Some s => set_sub j (dispatch_one events s) wt
                   | None => wt end) !! i =
          if bool_decide (i = j) then dispatch_one events <$> wt_objs wt !! i else wt_objs wt !! i) as E.
  { destruct (decide (i = j)) as [->|Hij].
    - rewrite bool_decide_true by done. destruct (wt_objs wt !! j) as [s|] eqn:Es; [|done]. cbn.
      apply list_lookup_insert_eq. by eapply lookup_lt_Some.
    - rewrite bool_decide_false by done. destruct (wt_objs wt !! j); [|done]. cbn.
      by rewrite list_lookup_insert_ne. }
  rewrite E. destruct (decide (i = j)) as [->|Hne].
  - rewrite (bool_decide_false (j ∈ subs)) by done. by rewrite !bool_decide_true by (done || by left).
  - rewrite (bool_decide_false (i = j)) by done.
    destruct (decide (i ∈ subs)); [rewrite !bool_decide_true by (done || by right)|
      rewrite !bool_decide_false by (set_solver || done)]; done.
Qed.

Lemma dispatch_spec events wt i :
  NoDup (wt_subscribers wt) →
  wt_objs (dispatchEvents events wt) !! i =
  (if bool_decide (i ∈ wt_subscribers wt) then dispatch_one events <$> wt_objs wt !! i
   else wt_objs wt !! i).
Proof.
  intros Hnd. unfold dispatchEvents. destruct events as [|e es]; [|by apply dispatch_loop_spec].
  case_bool_decide; [|done]. by destruct (wt_objs wt !! i).
Qed.

Lemma dispatch_subscribers events wt : wt_subscribers (dispatchEvents events wt) = wt_subscribers wt.
Proof.
  unfold dispatchEvents. destruct events as [|e es]; [done|].
  generalize (wt_subscribers wt) at 1 as l. intros l. revert wt. induction l as [|j l IH]; intros wt; [done|].
  cbn. rewrite IH. by destruct (wt_objs wt !! j).
Qed.

(** A dispatcher that runs undisturbed does what [dispatchEvents] says. *)
Lemma dispatch_micro_loop events todo wt :
  ∃ n, Nat.iter n dispatch_micro (mk_dispatcher events todo None, wt) =
       (mk_dispatcher events [] None,
        foldl (λ wt i, match wt_objs wt !! i with
                       | Some s => set_sub i (dispatch_one events s) wt
                       | None => wt
                       end) wt todo).
Proof.
  revert wt. induction todo as [|i todo IH]; intros wt; [by exists 0%nat|].
  cbn [foldl]. destruct (wt_objs wt !! i) as [s|] eqn:Hi.
  2: { destruct (IH wt) as [n <-]. exists (S n). rewrite Nat.iter_succ_r. cbn [dispatch_micro]. by rewrite Hi. }
  destruct (IH (set_sub i (dispatch_one events s) wt)) as [n <-]. unfold dispatch_one.
  assert (wt = set_sub i s wt) as Hsame.
  { destruct wt as [objs subs rev]. unfold set_sub. cbn. by rewrite list_insert_id. }
  destruct (matching events s) as [|e m] eqn:Hm; [|destruct (sub_closed s) eqn:Hc].
  1,2: exists (S n); rewrite Nat.iter_succ_r; cbn [dispatch_micro]; rewrite Hi, Hm, ?Hc; by rewrite <-Hsame.
  exists (S (S n)). rewrite !Nat.iter_succ_r. cbn [dispatch_micro]. by rewrite Hi, Hm, Hc, Hi, Hm.
Qed.

Lemma dispatch_micro_run events wt :
  ∃ n, Nat.iter n dispatch_micro (dispatch_start events wt, wt) =
       (mk_dispatcher events [] None, dispatchEvents events wt).
Proof.
  unfold dispatch_start, dispatchEvents. destruct events as [|e es]; [by exists 0%nat|].
  apply dispatch_micro_loop.
Qed.
