(* ===== verification/WatchProps.v ===== *)
(** * Properties of event delivery

    What one poll delivers, what it loses, and the protocol of a subscription's
    channel. *)

From Stdlib Require Import Ascii String.
From S2P Require Import Prelude Go Spanner Rows Invariant Sim StoreRead StoreWrite Reads StoreCompact Watcher.

Open Scope string_scope.
Open Scope list_scope.
Open Scope Z_scope.

(** ** Polling *)

Definition event_of (r : kv_row) : Event := toEvent (KV_of r).

Lemma event_of_eq : (λ r, mk_Event (KV_of r) (if r_deleted r then EventDelete else EventPut)) = event_of.
Proof. done. Qed.

(** Whether a subscriber is to see a row. *)
Definition sub_wants (s : subscriber) (r : kv_row) : bool := sub_matches s (event_of r).

Lemma filter_fmap_ev (f : kv_row → Event) (P : Event → Prop) `{∀ x, Decision (P x)} (l : list kv_row) :
  filter P (f <$> l) = f <$> filter (λ x, P (f x)) l.
Proof.
  induction l as [|x l IH]; [done|]. cbn [fmap list_fmap]. rewrite !filter_cons.
  case_decide; cbn [fmap list_fmap]; by rewrite IH.
Qed.

Section polling.
Context `{SP : Spanner} `{!SpannerLaws SP}.

(** The rows a poll is to deliver. *)
Definition newer (rev : Z) (db : database) : list kv_row := filter (λ r, rev < r_rev r) (kv db).

Lemma doPoll_quiet w wt :
  world_wf w → clock_ok 2 w → quiet w → compact_rev (w_db w) ≤ wt_lastRev wt →
  ∃ all w', StronglySorted (λ a b, r_rev a ≤ r_rev b) all ∧ all ≡ₚ newer (wt_lastRev wt) (w_db w) ∧
    let wt' := dispatchEvents (event_of <$> limitClause pollBatchSize all) wt in
    doPoll (mk_wworld w wt) =
      mk_wworld w' (mk_Watcher (wt_objs wt') (wt_subscribers wt') (current_rev (kv (w_db w)))).
Proof using All.
  intros Hw Hc Hq Hcr. unfold doPoll.
  pose proof (After_quiet "" (wt_lastRev wt) pollBatchSize w Hw Hc Hq eq_refl) as H. cbn zeta in H.
  assert ((0 <? wt_lastRev wt) && (wt_lastRev wt <? compact_rev (w_db w)) = false) as E.
  { apply andb_false_iff. right. apply Z.ltb_ge. lia. }
  rewrite E in H. destruct H as (all & Hr & Hs & Hnd & Hin). rewrite event_of_eq in Hr.
  destruct (After _ _ _ w) as [r w']. cbn [fst] in Hr. subst r.
  exists all, w'. split_and!; [done| |done].
  apply NoDup_Permutation; [done|apply NoDup_filter; eapply NoDup_fmap_1, (wf_ids _ _ (ww_db _ Hw))|].
  intros x. rewrite Hin. unfold newer. rewrite list_elem_of_filter.
  assert (HasPrefix (r_key x) "" = true) by by destruct (r_key x). naive_solver.
Qed.

(** Undisturbed, one poll delivers to every open subscriber with room in its
    channel exactly the rows newer than the last poll that its prefix selects,
    each once and in the order of their revisions, as one batch (none when there
    is nothing to deliver), and advances to the current revision, provided at
    most 500 rows are new. *)
Theorem poll_delivers w wt i s :
  world_wf w → clock_ok 2 w → quiet w → compact_rev (w_db w) ≤ wt_lastRev wt →
  Z.of_nat (length (newer (wt_lastRev wt) (w_db w))) ≤ pollBatchSize →
  NoDup (wt_subscribers wt) → i ∈ wt_subscribers wt → wt_objs wt !! i = Some s →
  sub_closed s = false → room s = true →
  let v := doPoll (mk_wworld w wt) in
  ∃ rows, StronglySorted (λ a b, r_rev a ≤ r_rev b) rows ∧ NoDup rows ∧
    (∀ x, x ∈ rows ↔ x ∈ kv (w_db w) ∧ wt_lastRev wt < r_rev x ∧ sub_wants s x = true) ∧
    wt_lastRev (vs_watcher v) = current_rev (kv (w_db w)) ∧
    wt_objs (vs_watcher v) !! i =
      Some (match rows with [] => s | _ => enqueue (event_of <$> rows) s end).
Proof using All.
  intros Hw Hc Hq Hcr Hlen Hnd Hi Hs Hcl Hroom. cbn zeta.
  destruct (doPoll_quiet w wt Hw Hc Hq Hcr) as (all & w' & Hsort & Hp & H). cbn zeta in H. rewrite H.
  assert (limitClause pollBatchSize all = all) as Hlim.
  { unfold limitClause, sql_limit. case_bool; [done|]. apply take_ge. rewrite Hp. lia. }
  rewrite Hlim. cbn [vs_watcher wt_lastRev wt_objs].
  exists (filter (λ r, sub_wants s r = true) all). split_and!.
  - by apply StronglySorted_filter.
  - apply NoDup_filter. rewrite Hp. apply NoDup_filter. eapply NoDup_fmap_1, (wf_ids _ _ (ww_db _ Hw)).
  - intros x. rewrite list_elem_of_filter, Hp. unfold newer. rewrite list_elem_of_filter. naive_solver.
  - done.
  - rewrite dispatch_spec by done. rewrite bool_decide_true by done. rewrite Hs. cbn [fmap option_fmap option_map].
    f_equal. unfold dispatch_one, matching, offer. rewrite filter_fmap_ev, Hcl, Hroom. unfold sub_wants.
    by destruct (filter _ all).
Qed.

(** A poll that finds more than 500 new rows loses events: it delivers the
    oldest 500 and still advances to the current revision, so a row it left out
    is at or before the revision the next poll starts after. *)
Theorem poll_skips_events w wt :
  world_wf w → clock_ok 2 w → quiet w → compact_rev (w_db w) ≤ wt_lastRev wt →
  pollBatchSize < Z.of_nat (length (newer (wt_lastRev wt) (w_db w))) →
  let v := doPoll (mk_wworld w wt) in
  ∃ rows r, r ∈ newer (wt_lastRev wt) (w_db w) ∧ (r ∉ rows) ∧ r_rev r ≤ wt_lastRev (vs_watcher v) ∧
    wt_objs (vs_watcher v) = wt_objs (dispatchEvents (event_of <$> rows) wt) ∧
    length rows = 500%nat.
Proof using All.
  intros Hw Hc Hq Hcr Hlen. cbn zeta.
  destruct (doPoll_quiet w wt Hw Hc Hq Hcr) as (all & w' & _ & Hp & H). cbn zeta in H. rewrite H. clear H.
  assert (NoDup all) as Hnd.
  { rewrite Hp. apply NoDup_filter. eapply NoDup_fmap_1, (wf_ids _ _ (ww_db _ Hw)). }
  unfold pollBatchSize in *. assert (500 < length all)%nat as Hl by (rewrite Hp; lia).
  destruct (lookup_lt_is_Some_2 all 500 Hl) as [r Hr].
  assert (r ∈ newer (wt_lastRev wt) (w_db w)) as Hnew by (rewrite <-Hp; by eapply list_elem_of_lookup_2).
  exists (take 500 all), r. split_and!; [done|..|done|rewrite length_take; lia].
  - intros (j & Hj & Hlt)%elem_of_take. pose proof (NoDup_lookup _ _ _ _ Hnd Hr Hj). lia.
  - apply current_rev_upper. by apply list_elem_of_filter in Hnew as [_ ?].
Qed.

End polling.

(** ** The protocol of a subscription *)

(** The watcher with the dispatchers under way: the poll loop's and those of the
    change stream. *)
Record wsystem := mk_wsystem { sy_v : wworld; sy_disp : list dispatcher }.

Definition sy_wt (y : wsystem) : Watcher := vs_watcher (sy_v y).

Definition with_wt (wt : Watcher) (y : wsystem) : wsystem :=
  mk_wsystem (mk_wworld (vs_store (sy_v y)) wt) (sy_disp y).

(** One atomic action of any goroutine: the caller of [subscribe], the goroutine of
    a subscription, the client that cancels or receives, a dispatcher.  The store
    may change at any moment, and any batch of events may be dispatched. *)
Inductive watch_step `{SP : Spanner} (y : wsystem) : wsystem → Prop :=
| step_subscribe prefix afterRev : watch_step y (with_wt (subscribe prefix afterRev (sy_wt y)).2 y)
| step_replay i : watch_step y (mk_wsystem (replay_step i (sy_v y)) (sy_disp y))
| step_done i : watch_step y (with_wt (replay_done i (sy_wt y)) y)
| step_timeout i : watch_step y (with_wt (sentinel_timeout i (sy_wt y)) y)
| step_cancel i : watch_step y (with_wt (cancel_sub i (sy_wt y)) y)
| step_receive i : watch_step y (with_wt (receive i (sy_wt y)).2 y)
| step_start events : watch_step y (mk_wsystem (sy_v y) (sy_disp y ++ [dispatch_start events (sy_wt y)]))
| step_dispatch k d : sy_disp y !! k = Some d →
    watch_step y (mk_wsystem (mk_wworld (vs_store (sy_v y)) (dispatch_micro (d, sy_wt y)).2)
                             (<[k := (dispatch_micro (d, sy_wt y)).1]> (sy_disp y)))
| step_world w : watch_step y (mk_wsystem (mk_wworld w (sy_wt y)) (sy_disp y)).

Definition watch_init (w : world) : wsystem := mk_wsystem (mk_wworld w (mk_Watcher [] [] 0)) [].

(** *** The invariant *)

(** A batch of events, as opposed to the sentinel. *)
Definition batch_ok (b : list Event) : Prop := b ≠ closedSentinel.

#[global] Instance batch_ok_dec b : Decision (batch_ok b).
Proof. unfold batch_ok, closedSentinel. destruct b; [right|left]; naive_solver. Defined.

Definition sentinels (s : subscriber) : nat := length (filter (λ b, ¬ batch_ok b) (sub_ch s)).

(** The subscriber is in the list of its watcher. *)
Definition registered (p : phase) : bool :=
  match p with PDrain | PSentinel | PDone => false | _ => true end.

(** The closed flag is set. *)
Definition past_close (p : phase) : bool :=
  match p with PRemove | PDrain | PSentinel | PDone => true | _ => false end.

Record sub_ok (s : subscriber) : Prop := mk_sub_ok {
  so_len : Z.of_nat (length (sub_ch s)) ≤ subChannelDepth;
  so_closed : sub_closed s = past_close (sub_phase s);
  so_sent : (sentinels s ≤ if sub_phase s is PDone then 1 else 0)%nat;
  so_send : if sub_phase s is PSend events _ _ then batch_ok events else True;
}.

Record watcher_ok (wt : Watcher) (ds : list dispatcher) : Prop := mk_watcher_ok {
  wo_nodup : NoDup (wt_subscribers wt);
  wo_reg i : i ∈ wt_subscribers wt ↔ ∃ s, wt_objs wt !! i = Some s ∧ registered (sub_phase s) = true;
  wo_objs i s : wt_objs wt !! i = Some s → sub_ok s;
  wo_send d i : d ∈ ds → d_send d = Some i →
    ∃ s, wt_objs wt !! i = Some s ∧ batch_ok (matching (d_events d) s);
}.

Lemma list_elem_of_insert_or {A} (l : list A) k x y : y ∈ <[k := x]> l → y ∈ l ∨ y = x.
Proof.
  intros (j & Hj)%list_elem_of_lookup. destruct (decide (j = k)) as [->|Hne].
  - apply list_lookup_insert_Some in Hj. destruct Hj as [(_ & -> & _)|[? ?]]; [by right|done].
  - rewrite list_lookup_insert_ne in Hj by done. left. by eapply list_elem_of_lookup_2.
Qed.

Lemma room_lt s : room s = true → Z.of_nat (length (sub_ch s)) < subChannelDepth.
Proof. unfold room. intros H. by bool_prop. Qed.

Lemma sentinels_app b s p :
  sentinels (set_phase p (enqueue b s)) = (sentinels s + if decide (batch_ok b) then 0 else 1)%nat.
Proof.
  unfold sentinels. cbn. rewrite filter_app, length_app. f_equal. rewrite filter_cons, filter_nil.
  repeat case_decide; done.
Qed.

Lemma sentinels_tail b ch s :
  sub_ch s = b :: ch → (length (filter (λ b, ¬ batch_ok b) ch) ≤ sentinels s)%nat.
Proof. unfold sentinels. intros ->. rewrite filter_cons. case_decide; cbn; lia. Qed.

(** Sending a batch keeps a subscriber well formed. *)
Lemma enqueue_ok b s p :
  sub_ok s → room s = true → past_close p = past_close (sub_phase s) →
  (if p is PSend events _ _ then batch_ok events else True) →
  (batch_ok b ∧ (sub_phase s = PDone → p = PDone) ∨ p = PDone ∧ sub_phase s = PSentinel) →
  sub_ok (set_phase p (enqueue b s)).
Proof.
  intros [Hl Hc Hs _] Hr%room_lt Hp Hsend Hb. split.
  - cbn. rewrite length_app. cbn. lia.
  - cbn. by rewrite Hp.
  - rewrite sentinels_app. cbn [set_phase sub_phase]. destruct Hb as [[Hb Hd]|[-> Hd]].
    + rewrite decide_True by done. destruct (sub_phase s), p; try lia; naive_solver.
    + rewrite Hd in Hs. case_decide; lia.
  - done.
Qed.

Lemma set_phase_ok p s :
  sub_ok s → past_close p = past_close (sub_phase s) → (sub_phase s = PDone → p = PDone) →
  (if p is PSend events _ _ then batch_ok events else True) →
  sub_ok (set_phase p s).
Proof.
  intros [Hl Hc Hs _] Hp Hd Hsend. split; cbn; [done|by rewrite Hp| |done].
  unfold sentinels in *. cbn. destruct (sub_phase s), p; try lia; naive_solver.
Qed.

(** Changing one object that keeps its prefix and its registration. *)
Lemma set_sub_ok i s s' wt ds :
  watcher_ok wt ds → wt_objs wt !! i = Some s → sub_prefix s' = sub_prefix s →
  registered (sub_phase s') = registered (sub_phase s) → sub_ok s' →
  watcher_ok (set_sub i s' wt) ds.
Proof.
  intros [Hn Hr Ho Hd] Hi Hp Hreg Hok. pose proof (lookup_lt_Some _ _ _ Hi) as Hlt. split; cbn; [done|..].
  - intros j. rewrite Hr. destruct (decide (j = i)) as [->|Hne].
    + rewrite list_lookup_insert_eq, Hi by done. split; intros (x & [= <-] & Hx); eexists; split; try done; congruence.
    + by rewrite list_lookup_insert_ne.
  - intros j x. destruct (decide (j = i)) as [->|Hne].
    + rewrite list_lookup_insert_eq by done. by intros [= <-].
    + rewrite list_lookup_insert_ne by done. apply Ho.
  - intros d j Hin Hsend. destruct (Hd d j Hin Hsend) as (x & Hx & Hb). destruct (decide (j = i)) as [->|Hne].
    + exists s'. rewrite list_lookup_insert_eq by done. split; [done|]. simplify_eq.
      unfold matching, sub_matches in *. by rewrite Hp.
    + exists x. by rewrite list_lookup_insert_ne.
Qed.

Lemma offer_ok b s : sub_ok s → batch_ok b → sub_ok (offer b s).
Proof.
  intros H Hb. unfold offer. case_bool.
  - change (enqueue b s) with (set_phase (sub_phase s) (enqueue b s)). apply enqueue_ok; [done|done|done|apply H|by left].
  - by destruct H.
Qed.

Lemma offer_phase b s : sub_phase (offer b s) = sub_phase s.
Proof. unfold offer. by case_bool. Qed.

Lemma offer_prefix b s : sub_prefix (offer b s) = sub_prefix s.
Proof. unfold offer. by case_bool. Qed.

Lemma subscribe_ok prefix afterRev wt ds :
  watcher_ok wt ds → watcher_ok (subscribe prefix afterRev wt).2 ds.
Proof.
  intros [Hn Hr Ho Hd].
  assert (∀ j, j ∈ wt_subscribers wt → (j < length (wt_objs wt))%nat) as Hlt.
  { intros j (s & Hl%lookup_lt_Some & _)%Hr. done. }
  split; cbn.
  - apply NoDup_app. split_and!; [done| |apply NoDup_singleton].
    intros i Hi E%list_elem_of_singleton. specialize (Hlt i Hi). lia.
  - intros i. rewrite elem_of_app, list_elem_of_singleton, Hr. split.
    + intros [(s & Hl & ?)| ->]; [exists s; split; [by apply lookup_app_l_Some|done]|].
      eexists. split; [by apply list_lookup_middle|done].
    + intros (s & [Hl|[Hle Hl]]%lookup_app_Some & Hp); [by left; exists s|].
      apply list_lookup_singleton_Some in Hl as [? _]. right. lia.
  - intros i s [Hl|[Hle Hl]]%lookup_app_Some; [by eapply Ho|].
    apply list_lookup_singleton_Some in Hl as [_ <-]. split; cbn; unfold subChannelDepth; try done; lia.
  - intros d i Hin Hs. destruct (Hd d i Hin Hs) as (s & Hl & ?). exists s. split; [by apply lookup_app_l_Some|done].
Qed.

(** [removeSub] and the phase that follows it. *)
Lemma remove_ok i s wt ds :
  watcher_ok wt ds → wt_objs wt !! i = Some s → sub_phase s = PRemove →
  watcher_ok (set_sub i (set_phase PDrain (cancel s)) (removeSub i wt)) ds.
Proof.
  intros [Hn Hr Ho Hd] Hi Hp. pose proof (lookup_lt_Some _ _ _ Hi) as Hlt. split; cbn.
  - by apply NoDup_filter.
  - intros j. rewrite list_elem_of_filter, Hr. destruct (decide (j = i)) as [->|Hne].
    + rewrite list_lookup_insert_eq by done. split; [by intros []|]. by intros (x & [= <-] & ?).
    + rewrite list_lookup_insert_ne by done. naive_solver.
  - intros j x. destruct (decide (j = i)) as [->|Hne].
    + rewrite list_lookup_insert_eq by done. intros [= <-]. destruct (Ho _ _ Hi) as [Hl Hc Hs _]. rewrite Hp in *.
      by split.
    + rewrite list_lookup_insert_ne by done. apply Ho.
  - intros d j Hin Hs. destruct (Hd d j Hin Hs) as (x & Hx & Hb). destruct (decide (j = i)) as [->|Hne].
    + rewrite list_lookup_insert_eq by done. eexists. split; [done|]. by simplify_eq.
    + exists x. by rewrite list_lookup_insert_ne.
Qed.

Lemma dispatch_micro_ok d k wt ds :
  watcher_ok wt ds → ds !! k = Some d →
  watcher_ok (dispatch_micro (d, wt)).2 (<[k := (dispatch_micro (d, wt)).1]> ds).
Proof.
  intros H Hk. pose proof (list_elem_of_lookup_2 _ _ _ Hk) as Hin.
  destruct d as [events todo [i|]]; cbn [dispatch_micro fst snd].
  - destruct (wo_send _ _ H _ i Hin eq_refl) as (s & Hi & Hb). rewrite Hi. cbn in Hb.
    assert (watcher_ok (set_sub i (offer (matching events s) s) wt) ds) as [Hn Hr Ho Hd].
    { eapply set_sub_ok; [done|done|apply offer_prefix|by rewrite offer_phase|].
      apply offer_ok; [by eapply wo_objs|done]. }
    split; [done|done|done|]. intros d j [Hd'| ->]%list_elem_of_insert_or; [by eapply Hd|done].
  - destruct H as [Hn Hr Ho Hd]. destruct todo as [|i todo]; cbn [fst snd].
    { by rewrite list_insert_id. }
    split; [done|done|done|]. intros d j [Hd'| ->]%list_elem_of_insert_or; [by eapply Hd|].
    cbn. destruct (wt_objs wt !! i) as [s|] eqn:Hi; [|done].
    destruct (matching events s) eqn:Hm; [done|]. case_bool; [done|]. intros [= <-].
    exists s. split; [done|]. change (batch_ok (matching events s)). by rewrite Hm.
Qed.

Section protocol.
Context `{SP : Spanner}.

Lemma replay_step_ok i v ds :
  watcher_ok (vs_watcher v) ds → watcher_ok (vs_watcher (replay_step i v)) ds.
Proof.
  intros H. destruct v as [w wt]. unfold replay_step. cbn [vs_watcher] in *.
  destruct (wt_objs wt !! i) as [s|] eqn:Hi; [|done]. pose proof (wo_objs _ _ H _ _ Hi) as Hs.
  assert (∀ p, past_close p = past_close (sub_phase s) → registered p = registered (sub_phase s) →
    (sub_phase s = PDone → p = PDone) → (if p is PSend events _ _ then batch_ok events else True) →
    watcher_ok (set_sub i (set_phase p s) wt) ds) as Hphase.
  { intros p Hp Hreg Hd Hsend. eapply set_sub_ok; [done..|]. by apply set_phase_ok. }
  destruct (sub_phase s) as [afterRev|rev|events rev more| | | | | |] eqn:Hp; try done.
  - case_bool; [by apply Hphase|]. destruct (compactRevision w) as [[c|e] w']; cbn; [|by apply Hphase].
    case_bool; cbn; by apply Hphase.
  - destruct (After _ _ _ w) as [[cur [events|e]] w']; cbn; [|by apply Hphase].
    destruct events as [|e es]; cbn; by apply Hphase.
  - case_bool; [|done]. pose proof (so_send _ Hs) as Hb. rewrite Hp in Hb.
    eapply set_sub_ok; [done|done|done|by rewrite Hp; destruct more|].
    apply enqueue_ok; [done|done|by rewrite Hp; destruct more|by destruct more|]. left. by rewrite Hp.
  - eapply set_sub_ok; [done|done|done|by rewrite Hp|]. destruct Hs as [Hl _ Hn _]. rewrite Hp in Hn. by split.
  - by apply remove_ok.
  - destruct (sub_ch s) as [|b ch] eqn:Hch; [by apply Hphase|].
    eapply set_sub_ok; [done|done|done|by rewrite Hp|]. destruct Hs as [Hl Hc Hn _]. rewrite Hp in *.
    pose proof (sentinels_tail _ _ _ Hch). rewrite Hch in Hl. cbn in Hl. split; [cbn; lia|done| |done].
    unfold sentinels at 1. cbn. lia.
  - case_bool; [|done]. eapply set_sub_ok; [done|done|done|by rewrite Hp|].
    apply enqueue_ok; [done|done|by rewrite Hp|done|by right].
Qed.

Lemma receive_ok i wt ds : watcher_ok wt ds → watcher_ok (receive i wt).2 ds.
Proof.
  intros H. unfold receive. destruct (wt_objs wt !! i) as [s|] eqn:Hi; [|done].
  destruct (sub_ch s) as [|b ch] eqn:Hch; [done|]. cbn [snd]. eapply set_sub_ok; [done|done|done|done|].
  destruct (wo_objs _ _ H _ _ Hi) as [Hl Hc Hn Hs]. pose proof (sentinels_tail _ _ _ Hch).
  rewrite Hch in Hl. cbn in Hl. split; [cbn; lia|done| |done]. unfold sentinels at 1. cbn. lia.
Qed.

Lemma watch_step_ok y y' :
  watcher_ok (sy_wt y) (sy_disp y) → watch_step y y' → watcher_ok (sy_wt y') (sy_disp y').
Proof.
  intros H Hs. unfold sy_wt in *. destruct Hs; cbn [with_wt sy_v sy_disp vs_watcher].
  - by apply subscribe_ok.
  - by apply replay_step_ok.
  - unfold replay_done. destruct (wt_objs _ !! i) as [s|] eqn:Hi; [|done]. case_bool; [|done].
    destruct (sub_phase s) eqn:Hp; try done; (eapply set_sub_ok; [done|done|done|by rewrite Hp|]);
      (apply set_phase_ok; [by eapply wo_objs|by rewrite Hp|by rewrite Hp|done]).
  - unfold sentinel_timeout. destruct (wt_objs _ !! i) as [s|] eqn:Hi; [|done].
    destruct (sub_phase s) eqn:Hp; try done. case_bool; [done|]. eapply set_sub_ok; [done|done|done|by rewrite Hp|].
    apply set_phase_ok; [by eapply wo_objs|by rewrite Hp|done|done].
  - unfold cancel_sub. destruct (wt_objs _ !! i) as [s|] eqn:Hi; [|done].
    eapply set_sub_ok; [done|done|done|done|]. by destruct (wo_objs _ _ H _ _ Hi).
  - by apply receive_ok.
  - destruct H as [Hn Hr Ho Hd]. split; [done|done|done|].
    intros d j [Hin| ->%list_elem_of_singleton]%elem_of_app; [by eapply Hd|done].
  - by apply dispatch_micro_ok.
  - done.
Qed.

Lemma watch_run_ok w y : rtc watch_step (watch_init w) y → watcher_ok (sy_wt y) (sy_disp y).
Proof.
  intros Hrun.
  assert (watcher_ok (sy_wt (watch_init w)) (sy_disp (watch_init w))) as H0.
  { split; cbn; [constructor| |done|by intros d j ?%elem_of_nil].
    intros j. split; [by intros ?%elem_of_nil|]. by intros (s & ? & _). }
  induction Hrun as [|y1 y2 y3 Hs _ IH]; [done|]. apply IH. by eapply watch_step_ok.
Qed.

(** In every interleaving of the goroutines of the watcher, the channel of a
    subscription never holds more than its capacity; an empty batch, which the
    consumer takes for the end, is only ever in the channel once the goroutine of
    the subscription has ended, and then at most once; the subscription is
    registered, once, exactly until its goroutine has removed it, after setting
    the closed flag. *)
Theorem subscription_protocol w y i s :
  rtc watch_step (watch_init w) y → wt_objs (sy_wt y) !! i = Some s →
  Z.of_nat (length (sub_ch s)) ≤ subChannelDepth ∧
  (closedSentinel ∈ sub_ch s → sub_phase s = PDone ∧ sentinels s = 1%nat) ∧
  NoDup (wt_subscribers (sy_wt y)) ∧
  (i ∈ wt_subscribers (sy_wt y) ↔ registered (sub_phase s) = true) ∧
  sub_closed s = past_close (sub_phase s).
Proof.
  intros [Hn Hr Ho _]%watch_run_ok Hi. destruct (Ho _ _ Hi) as [Hl Hc Hs _]. split_and!; try done.
  - intros Hin.
    assert (closedSentinel ∈ filter (λ b, ¬ batch_ok b) (sub_ch s)) as Hf.
    { apply list_elem_of_filter. split; [|done]. unfold batch_ok. naive_solver. }
    assert (0 < sentinels s)%nat by (unfold sentinels; destruct (filter _ _); [by apply elem_of_nil in Hf|cbn; lia]).
    destruct (sub_phase s); try lia. split; [done|lia].
  - rewrite Hr. split; [|by exists s]. intros (x & Hx & ?). congruence.
Qed.

(** *** After the end *)

(** Subscription [i] has ended, [c] was left in its channel, and no dispatcher is
    about to send to it. *)
Definition ended (i : nat) (c : list (list Event)) (y : wsystem) : Prop :=
  (∃ s, wt_objs (sy_wt y) !! i = Some s ∧ sub_closed s = true ∧ sub_phase s = PDone ∧
        sub_ch s `suffix_of` c) ∧
  ∀ d, d ∈ sy_disp y → d_send d ≠ Some i.

(** Only the object of [j] changes. *)
Lemma set_sub_other i j s wt : i ≠ j → wt_objs (set_sub j s wt) !! i = wt_objs wt !! i.
Proof. intros. cbn. by rewrite list_lookup_insert_ne. Qed.

Lemma ended_intro i c w wt ds s :
  wt_objs wt !! i = Some s → sub_closed s = true → sub_phase s = PDone → sub_ch s `suffix_of` c →
  (∀ d, d ∈ ds → d_send d ≠ Some i) → ended i c (mk_wsystem (mk_wworld w wt) ds).
Proof. intros. split; [by exists s|done]. Qed.

Lemma replay_step_other i j v :
  i ≠ j → wt_objs (vs_watcher (replay_step j v)) !! i = wt_objs (vs_watcher v) !! i.
Proof.
  intros Hne. destruct v as [w wt]. unfold replay_step. cbn [vs_watcher].
  destruct (wt_objs wt !! j) as [s|]; [|done].
  destruct (sub_phase s) as [afterRev|rev|events rev more| | | | | |]; try done.
  - case_bool; [by apply set_sub_other|]. destruct (compactRevision w) as [[?|?] ?]; [case_bool|];
      cbn [vs_watcher]; by apply set_sub_other.
  - destruct (After _ _ _ w) as [[? [[|? ?]|?]] ?]; cbn [vs_watcher snd]; by apply set_sub_other.
  - case_bool; [by apply set_sub_other|done].
  - by apply set_sub_other.
  - cbn. by rewrite list_lookup_insert_ne.
  - destruct (sub_ch s); by apply set_sub_other.
  - case_bool; [by apply set_sub_other|done].
Qed.

Lemma dispatch_micro_other i d wt :
  d_send d ≠ Some i →
  wt_objs (dispatch_micro (d, wt)).2 !! i = wt_objs wt !! i ∧
  ∀ s, wt_objs wt !! i = Some s → sub_closed s = true → d_send (dispatch_micro (d, wt)).1 ≠ Some i.
Proof.
  destruct d as [events todo [j|]]; cbn [d_send dispatch_micro fst snd]; intros Hne.
  - split; [|done]. destruct (wt_objs wt !! j); [|done]. apply set_sub_other. congruence.
  - destruct todo as [|j todo]; [done|]. cbn [fst snd d_send]. split; [done|]. intros s Hs Hc.
    destruct (decide (j = i)) as [->|Hji].
    + rewrite Hs, Hc. by case_match.
    + repeat case_match; congruence.
Qed.

Lemma ended_step i c y y' : ended i c y → watch_step y y' → ended i c y'.
Proof.
  destruct y as [[w wt] ds]. intros [(s & Hi & Hc & Hp & Hsuf) Hd] Hs. unfold sy_wt in *. cbn in *.
  destruct Hs as [prefix afterRev|j|j|j|j|j|events|k d Hk|w']; unfold with_wt, sy_wt in *; cbn [sy_v sy_disp vs_watcher vs_store] in *.
  - eapply ended_intro; [by apply lookup_app_l_Some|done..].
  - destruct (replay_step j _) as [w2 wt2] eqn:E. eapply ended_intro; [|done..].
    change wt2 with (vs_watcher (mk_wworld w2 wt2)). rewrite <-E. destruct (decide (j = i)) as [->|Hne].
    + unfold replay_step. rewrite Hi, Hp. done.
    + by rewrite replay_step_other.
  - eapply ended_intro; [|done..]. unfold replay_done. destruct (wt_objs wt !! j) as [x|] eqn:Hj; [|done].
    destruct (decide (j = i)) as [->|Hne]; [simplify_eq; rewrite Hp; by case_bool|].
    repeat case_match; try done; by rewrite set_sub_other.
  - eapply ended_intro; [|done..]. unfold sentinel_timeout. destruct (wt_objs wt !! j) as [x|] eqn:Hj; [|done].
    destruct (decide (j = i)) as [->|Hne]; [simplify_eq; by rewrite Hp|].
    repeat case_match; try done; by rewrite set_sub_other.
  - unfold cancel_sub. destruct (wt_objs wt !! j) as [x|] eqn:Hj; [|by eapply ended_intro].
    destruct (decide (j = i)) as [->|Hne].
    + simplify_eq. eapply (ended_intro _ _ _ _ _ (cancel s)); [|done..].
      cbn. apply list_lookup_insert_eq. by eapply lookup_lt_Some.
    + eapply ended_intro; [by rewrite set_sub_other|done..].
  - unfold receive. destruct (wt_objs wt !! j) as [x|] eqn:Hj; [|by eapply ended_intro].
    destruct (sub_ch x) as [|b ch] eqn:Hch; [by eapply ended_intro|]. cbn [snd]. destruct (decide (j = i)) as [->|Hne].
    + simplify_eq. eapply ended_intro; [cbn; apply list_lookup_insert_eq; by eapply lookup_lt_Some|done|done| |done].
      cbn. etrans; [|done]. rewrite Hch. by apply suffix_cons_r.
    + eapply ended_intro; [by rewrite set_sub_other|done..].
  - eapply ended_intro; [done..|]. intros d [Hin| ->%list_elem_of_singleton]%elem_of_app; [by apply Hd|done].
  - destruct (dispatch_micro_other i d wt) as [Ho Hsend]; [by eapply Hd, list_elem_of_lookup_2|].
    eapply ended_intro; [by rewrite Ho|done..|].
    intros d' [Hin| ->]%list_elem_of_insert_or; [by apply Hd|by eapply Hsend].
  - by eapply ended_intro.
Qed.

(** Once a subscription has ended and every dispatcher that had found it open
    is done with it, nothing is ever sent on its channel again: whatever happens,
    what the consumer can still receive is what it has not received yet. *)
Theorem ended_subscription_is_silent y y' i s :
  rtc watch_step y y' →
  wt_objs (sy_wt y) !! i = Some s → sub_closed s = true → sub_phase s = PDone →
  (∀ d, d ∈ sy_disp y → d_send d ≠ Some i) →
  ∃ s', wt_objs (sy_wt y') !! i = Some s' ∧ sub_phase s' = PDone ∧ sub_ch s' `suffix_of` sub_ch s.
Proof.
  intros Hrun Hi Hc Hp Hd. assert (ended i (sub_ch s) y) as H by (split; [by exists s|done]).
  clear Hi Hd. induction Hrun as [|y1 y2 y3 Hs _ IH]; [|apply IH; by eapply ended_step].
  destruct H as [(s' & ? & ? & ? & ?) _]. by exists s'.
Qed.

Lemma drain_run i w wt s :
  wt_objs wt !! i = Some s → sub_phase s = PDrain →
  Nat.iter (length (sub_ch s)) (replay_step i) (mk_wworld w wt) =
  mk_wworld w (set_sub i (mk_subscriber (sub_prefix s) [] (sub_cancelled s) (sub_closed s) PDrain) wt).
Proof.
  remember (length (sub_ch s)) as n eqn:Hn. revert wt s Hn. induction n as [|n IH]; intros wt s Hn Hi Hp.
  - destruct s as [pre ch ca cl ph], wt as [objs subs rev]. destruct ch; [|done]. cbn in Hp. subst ph.
    cbn in *. unfold set_sub. cbn. by rewrite list_insert_id.
  - rewrite Nat.iter_succ_r. unfold replay_step at 2. rewrite Hi, Hp.
    destruct (sub_ch s) as [|b ch] eqn:Hch; [done|]. cbn in Hn. simplify_eq.
    erewrite IH; [| |cbn; apply list_lookup_insert_eq; by eapply lookup_lt_Some|done]; [|done].
    unfold set_sub. cbn. by rewrite list_insert_insert_eq.
Qed.

(** The teardown of a subscription terminates and leaves the sentinel alone in
    the channel: from the moment the goroutine returns, its own actions, as many
    as there are batches to drain and four more, set the closed flag, cancel and
    unregister the subscription, and discard what was not received. *)
Theorem teardown_sends_sentinel i w wt s :
  wt_objs wt !! i = Some s → sub_phase s = PClose →
  Nat.iter (length (sub_ch s) + 4) (replay_step i) (mk_wworld w wt) =
  mk_wworld w (set_sub i (mk_subscriber (sub_prefix s) [closedSentinel] true true PDone) (removeSub i wt)).
Proof.
  intros Hi Hp. pose proof (lookup_lt_Some _ _ _ Hi) as Hlt.
  replace (length (sub_ch s) + 4)%nat with (S (S (2 + length (sub_ch s))))%nat by lia.
  rewrite 2!Nat.iter_succ_r, Nat.iter_add.
  set (s2 := mk_subscriber (sub_prefix s) (sub_ch s) true true PDrain).
  assert (replay_step i (replay_step i (mk_wworld w wt)) = mk_wworld w (set_sub i s2 (removeSub i wt))) as ->.
  { unfold replay_step at 2. rewrite Hi, Hp. unfold replay_step. cbn. rewrite list_lookup_insert_eq by done. cbn.
    unfold set_sub, set_phase, cancel. cbn. by rewrite list_insert_insert_eq. }
  change (length (sub_ch s)) with (length (sub_ch s2)).
  rewrite drain_run; [|cbn; by apply list_lookup_insert_eq|done].
  unfold set_sub. cbn. rewrite list_insert_insert_eq.
  rewrite list_lookup_insert_eq by done. cbn. rewrite list_lookup_insert_eq by (by rewrite length_insert). cbn.
  unfold set_sub. cbn. by rewrite !list_insert_insert_eq.
Qed.

End protocol.

(** ** Witnesses *)

(** One open subscriber to everything under ["k"]. *)
Definition k_sub : subscriber := mk_subscriber "k" [] false false PWait.

Definition k_watcher (rev : Z) : Watcher := mk_Watcher [k_sub] [0%nat] rev.

Lemma poll_delivers_witness :
  ∃ rows, wt_objs (vs_watcher (doPoll (SP := solo) (mk_wworld run2 (k_watcher 100)))) !! 0%nat =
    Some (enqueue (event_of <$> rows) k_sub) ∧ k_row ∈ rows.
Proof.
  destruct (@poll_delivers solo solo_laws run2 (k_watcher 100) 0 k_sub run2_wf (sim_clock _ _ 2 run2 eq_refl)
              (solo_quiet run2)) as (rows & _ & _ & Hin & _ & H).
  { vm_compute. discriminate. }
  { vm_compute. discriminate. }
  { apply NoDup_singleton. }
  { by apply list_elem_of_singleton. }
  { reflexivity. }
  { reflexivity. }
  { reflexivity. }
  assert (k_row ∈ rows) as Hk by (apply Hin; split; [vm_compute; right; left|by vm_compute]).
  exists rows. split; [|exact Hk]. destruct rows; [by apply elem_of_nil in Hk|exact H].
Defined.

(** A log of [n] rows, written one nanosecond apart. *)
Fixpoint fill (n : nat) : database :=
  match n with
  | O => empty_db
  | S n => put_by_other (- 1 - Z.of_nat n) (101 + Z.of_nat n) "k" None 0 (fill n)
  end.

Definition full_world (n : nat) : world := mk_world (fill n) 1000 [] [].

Lemma fill_ok n :
  db_wf (101 + Z.of_nat n) (fill n) ∧ length (kv (fill n)) = n ∧ kv_rev (fill n) = ∅ ∧
  ∀ r, r ∈ kv (fill n) → r_rev r < 101 + Z.of_nat n ∧ - 1 - Z.of_nat n < r_id r < 0.
Proof.
  induction n as [|n (Hwf & Hlen & Hrev & Hids)].
  { split_and!; [apply db_wf_empty|done|done|by intros r ?%elem_of_nil]. }
  cbn [fill]. unfold put_by_other.
  assert (Forall (λ r, r_rev r < 101 + Z.of_nat n ∧ r_id r ≠ - 1 - Z.of_nat n) (kv (fill n))) as Hall.
  { apply Forall_forall. intros r [? ?]%Hids. lia. }
  rewrite bool_decide_true by done.
  destruct (put_by_other_step (- 1 - Z.of_nat n) (101 + Z.of_nat n) "k" None 0 (fill n)) as [H|H];
    [lia|apply Hwf|..]; unfold put_by_other in H; rewrite bool_decide_true in H by done.
  { apply (f_equal (λ db, length (kv db))) in H. cbn in H. rewrite length_app in H. cbn in H. lia. }
  split_and!; [|cbn; rewrite length_app; cbn; lia|done|].
  - eapply db_step_wf; [by eapply db_wf_mono; [|]; [exact Hwf|lia]| |exact H]. lia.
  - cbn. intros r [[? ?]%Hids| ->%list_elem_of_singleton]%elem_of_app; [lia|]. cbn. lia.
Qed.

Lemma full_world_wf n : (n < 1000)%nat → world_wf (SP := solo) (full_world n).
Proof.
  intros Hn. destruct (fill_ok n) as (Hwf & _ & _ & Hids). split; cbn.
  - eapply db_wf_mono; [exact Hwf|]. unfold sim_ts. lia.
  - intros r m i [_ ?]%Hids _. pose proof (sim_seq_nonneg m i). cbn. lia.
Qed.

(** Every row is newer than revision 1. *)
Lemma newer_all T db : db_wf T db → newer 1 db = kv db.
Proof.
  intros Hwf. apply filter_all. intros r Hr.
  by destruct (rw_rev _ _ (wf_rows _ _ Hwf r Hr)).
Qed.

Lemma poll_skips_events_witness :
  ∃ n r, (n < 1000)%nat ∧ r ∈ newer 1 (fill n) ∧
    r_rev r ≤ wt_lastRev (vs_watcher (doPoll (SP := solo) (mk_wworld (full_world n) (k_watcher 1)))).
Proof.
  assert (∃ n : nat, (500 < n < 1000)%nat) as [n Hn] by (exists 600%nat; lia). exists n.
  destruct (fill_ok n) as (Hwf & Hlen & Hrev & _).
  destruct (@poll_skips_events solo solo_laws (full_world n) (k_watcher 1)
              (full_world_wf n (proj2 Hn)) (sim_clock _ _ 2 (full_world n) eq_refl)
              (solo_quiet (full_world n))) as (rows & r & Hr & _ & Hle & _).
  { unfold compact_rev. cbn [full_world w_db]. rewrite Hrev, lookup_empty. cbn. lia. }
  { cbn [full_world w_db k_watcher wt_lastRev]. rewrite (newer_all _ _ Hwf), Hlen. unfold pollBatchSize. lia. }
  exists r. split; [apply Hn|]. split; [exact Hr|exact Hle].
Defined.

(** *** A cancelled subscription and a dispatcher that had found it open *)

Section race.
Context `{SP : Spanner} (w : world).

Definition y_open : wsystem :=
  mk_wsystem (replay_step 0 (mk_wworld w (subscribe "k" 0 (mk_Watcher [] [] 0)).2)) [].

(** A dispatcher has checked the closed flag, the client cancels, the goroutine
    has returned. *)
Definition y_raced : wsystem :=
  mk_wsystem (mk_wworld w (replay_done 0 (cancel_sub 0 (sy_wt y_open))))
             [mk_dispatcher [event_of k_row] [] (Some 0%nat)].

Lemma y_raced_run : rtc watch_step (watch_init w) y_raced.
Proof.
  eapply rtc_l; [exact (step_subscribe _ "k" 0)|]. eapply rtc_l; [exact (step_replay _ 0)|].
  eapply rtc_l; [exact (step_start _ [event_of k_row])|].
  eapply rtc_l; [by apply (step_dispatch _ 0)|].
  eapply rtc_l; [exact (step_cancel _ 0)|]. eapply rtc_l; [exact (step_done _ 0)|].
  apply rtc_refl.
Qed.

Lemma replay_iter y n :
  rtc watch_step y (mk_wsystem (Nat.iter n (replay_step 0) (sy_v y)) (sy_disp y)).
Proof.
  induction n as [|n IH]; [by destruct y|]. eapply rtc_r; [exact IH|].
  exact (step_replay (mk_wsystem (Nat.iter n (replay_step 0) (sy_v y)) (sy_disp y)) 0).
Qed.

(** The closed flag does not close the window its comment speaks of: a dispatcher
    that read it before it was set sends after the channel was drained, and the
    consumer finds a batch before the sentinel. *)
Theorem stale_batch_before_sentinel :
  ∃ y s, rtc watch_step (watch_init w) y ∧ wt_objs (sy_wt y) !! 0%nat = Some s ∧
    sub_ch s = [[event_of k_row]; closedSentinel].
Proof.
  eexists _, _. split; [|split].
  - etrans; [exact y_raced_run|]. etrans; [exact (replay_iter y_raced 3)|].
    eapply rtc_l; [by apply (step_dispatch _ 0)|].
    eapply rtc_l; [exact (step_replay _ 0)|]. apply rtc_refl.
  - reflexivity.
  - reflexivity.
Qed.

End race.

Lemma subscription_protocol_witness :
  ∃ s, wt_objs (sy_wt (y_raced run2 (SP := solo))) !! 0%nat = Some s ∧
    (0%nat ∈ wt_subscribers (sy_wt (y_raced run2 (SP := solo))) ↔ registered (sub_phase s) = true).
Proof.
  exists (mk_subscriber "k" [] true false PClose). split; [reflexivity|].
  destruct (@subscription_protocol solo run2 (y_raced run2) 0 (mk_subscriber "k" [] true false PClose)
              (y_raced_run run2) eq_refl) as (_ & _ & _ & H & _).
  exact H.
Defined.

(** The same subscription torn down, the dispatcher gone. *)
Definition y_ended : wsystem :=
  mk_wsystem (Nat.iter 4 (replay_step (SP := solo) 0) (sy_v (y_raced run2 (SP := solo)))) [].

Lemma ended_subscription_is_silent_witness :
  ∃ s', wt_objs (sy_wt (with_wt (receive 0 (sy_wt y_ended)).2 y_ended)) !! 0%nat = Some s' ∧
    sub_phase s' = PDone ∧ sub_ch s' `suffix_of` [closedSentinel].
Proof.
  apply (@ended_subscription_is_silent solo y_ended (with_wt (receive 0 (sy_wt y_ended)).2 y_ended) 0
           (mk_subscriber "k" [closedSentinel] true true PDone)).
  - eapply rtc_l; [exact (@step_receive solo y_ended 0)|apply rtc_refl].
  - reflexivity.
  - reflexivity.
  - reflexivity.
  - intros d Hd. by apply elem_of_nil in Hd.
Defined.

Lemma teardown_sends_sentinel_witness :
  wt_objs (vs_watcher (Nat.iter 5 (replay_step (SP := solo) 0)
    (mk_wworld run2 (mk_Watcher [mk_subscriber "k" [[event_of k_row]] true false PClose] [0%nat] 100)))) =
  [mk_subscriber "k" [closedSentinel] true true PDone].
Proof.
  pose proof (@teardown_sends_sentinel solo 0 run2
    (mk_Watcher [mk_subscriber "k" [[event_of k_row]] true false PClose] [0%nat] 100)
    (mk_subscriber "k" [[event_of k_row]] true false PClose) eq_refl eq_refl) as H.
  cbn [length sub_ch Nat.add] in H. rewrite H. reflexivity.
Defined.
