(* ===== verification/WatchServer.v ===== *)
(** * pkg/server/watch.go: the etcd Watch service

    One [Watch] stream of a client: the main loop, the goroutine that sends
    responses, the goroutine that receives requests, and one [watchLoop] per
    watch, over the subscriptions of [Watcher].  Each goroutine is a value that
    says where it stands; each function below is one of its atomic actions, named
    after the branch of the [select] it takes.  [contextWithCancel] and
    [streamContextWithCancel] of helpers.go forward a cancellation with a
    goroutine of their own, so contexts are flags and forwarding is an action. *)

From Stdlib Require Import Ascii String.
From S2P Require Import Prelude Go Spanner Rows Invariant StoreRead StoreWrite KVServer Watcher WatchProps.

Open Scope string_scope.
Open Scope list_scope.
Open Scope Z_scope.

(** ** Messages *)

Inductive mvcc_EventType := PUT | DELETE.

Record mvcc_Event := mk_mvcc_Event {
  me_Type : mvcc_EventType;
  me_Kv : KeyValue;
  me_PrevKv : option KeyValue;
}.

Record WatchResponse := mk_WatchResponse {
  wr_Header : ResponseHeader;
  wr_WatchId : Z;
  wr_Created : bool;
  wr_Canceled : bool;
  wr_CompactRevision : Z;
  wr_Events : list mvcc_Event;
}.

(** The requests the handler distinguishes, with the fields it reads. *)
Inductive WatchRequest :=
| CreateRequest (key rangeEnd : string) (startRevision : Z)
| CancelRequest (watchId : Z)
| OtherRequest.

(** What [stream.Recv] returned. *)
Inductive recvResult := RecvReq (r : WatchRequest) | RecvEOF | RecvErr (e : error).

(** ** Conversions *)

Definition toWatchEvent (ev : Event) : mvcc_Event :=
  let kv := EvKV ev in
  mk_mvcc_Event
    (match EvType ev with EventDelete => DELETE | EventPut => PUT end)
    (toProtoKV kv)
    (match OldValue kv with
     | Some _ => if 0 <? PrevRevision kv
                 then Some (mk_KeyValue (Key kv) (OldValue kv) (PrevRevision kv) (CreateRevision kv) 0 0)
                 else None
     | None => None
     end).

Definition watchPrefix (key rangeEnd : string) : string :=
  if bool_decide (rangeEnd = "") then key
  else if bool_decide (rangeEnd = nul) then ""
  else if (0 <? Z.of_nat (String.length key)) && (String.length rangeEnd =? String.length key)%nat
       then str_init key
       else key.

(** [maxRev] of a batch. *)
Definition max_rev (events : list Event) : Z :=
  foldl (λ m ev, if m <? Rev (EvKV ev) then Rev (EvKV ev) else m) 0 events.

Definition events_response (id : Z) (events : list Event) : WatchResponse :=
  mk_WatchResponse (header (max_rev events)) id false false 0 (toWatchEvent <$> events).

Definition progress_response (id curRev : Z) : WatchResponse :=
  mk_WatchResponse (header curRev) id false false 0 [].

Definition created_response (id : Z) : WatchResponse :=
  mk_WatchResponse (header 0) id true false 0 [].

Definition canceled_response (id compactRev : Z) : WatchResponse :=
  mk_WatchResponse (header 0) id false true compactRev [].

(** ** State *)

(** Where [watchLoop] stands: not started; about to subscribe; in its [select];
    blocked on a response, and whether it is the one after the sentinel; about to
    report the end on [cancelledCh]; returned. *)
Inductive loop_phase :=
| LIdle | LNew | LSelect | LSend (resp : WatchResponse) (last : bool) | LNotify | LDone.

(** [lp_sub] is its subscription, [lp_watchCtx] and [lp_ctx] say that [watchCtx] and
    [stdCtx] are done. *)
Record loop := mk_loop {
  lp_id : Z;
  lp_prefix : string;
  lp_startRev : Z;
  lp_sub : option nat;
  lp_watchCtx : bool;
  lp_ctx : bool;
  lp_phase : loop_phase;
}.

(** Where the handler stands: in its [select]; blocked on a response, with the
    loop to start once it is queued; returned. *)
Inductive main_phase :=
| MLoop | MSend (resp : WatchResponse) (start : option nat) | MReturned (err : option error).

(** [st_sent] is what the client was sent; [st_watches] maps a watch to its loop,
    whose context the entry cancels. *)
Record stream := mk_stream {
  st_ctx : bool;
  st_next : Z;
  st_watches : gmap Z nat;
  st_loops : list loop;
  st_main : main_phase;
  st_respCh : list WatchResponse;
  st_cancelledCh : list Z;
  st_reqCh : list recvResult;
  st_sendErrCh : option error;
  st_sender : bool;
  st_receiver : bool;
  st_sent : list WatchResponse;
}.

Definition respCh_cap : Z := 64.
Definition cancelledCh_cap : Z := 64.

Definition resp_room (s : stream) : bool := Z.of_nat (length (st_respCh s)) <? respCh_cap.

Definition upd_loops (f : list loop → list loop) (s : stream) : stream :=
  mk_stream (st_ctx s) (st_next s) (st_watches s) (f (st_loops s)) (st_main s) (st_respCh s)
    (st_cancelledCh s) (st_reqCh s) (st_sendErrCh s) (st_sender s) (st_receiver s) (st_sent s).

Definition upd_loop (i : nat) (f : loop → loop) : stream → stream := upd_loops (alter f i).

Definition set_main (m : main_phase) (s : stream) : stream :=
  mk_stream (st_ctx s) (st_next s) (st_watches s) (st_loops s) m (st_respCh s)
    (st_cancelledCh s) (st_reqCh s) (st_sendErrCh s) (st_sender s) (st_receiver s) (st_sent s).

Definition set_watches (m : gmap Z nat) (s : stream) : stream :=
  mk_stream (st_ctx s) (st_next s) m (st_loops s) (st_main s) (st_respCh s)
    (st_cancelledCh s) (st_reqCh s) (st_sendErrCh s) (st_sender s) (st_receiver s) (st_sent s).

Definition set_cancelledCh (c : list Z) (s : stream) : stream :=
  mk_stream (st_ctx s) (st_next s) (st_watches s) (st_loops s) (st_main s) (st_respCh s)
    c (st_reqCh s) (st_sendErrCh s) (st_sender s) (st_receiver s) (st_sent s).

Definition set_reqCh (c : list recvResult) (s : stream) : stream :=
  mk_stream (st_ctx s) (st_next s) (st_watches s) (st_loops s) (st_main s) (st_respCh s)
    (st_cancelledCh s) c (st_sendErrCh s) (st_sender s) (st_receiver s) (st_sent s).

Definition set_sendErrCh (e : option error) (s : stream) : stream :=
  mk_stream (st_ctx s) (st_next s) (st_watches s) (st_loops s) (st_main s) (st_respCh s)
    (st_cancelledCh s) (st_reqCh s) e (st_sender s) (st_receiver s) (st_sent s).

(** [respCh <- r]. *)
Definition push_resp (r : WatchResponse) (s : stream) : stream :=
  mk_stream (st_ctx s) (st_next s) (st_watches s) (st_loops s) (st_main s) (st_respCh s ++ [r])
    (st_cancelledCh s) (st_reqCh s) (st_sendErrCh s) (st_sender s) (st_receiver s) (st_sent s).

Definition lp_set_phase (p : loop_phase) (l : loop) : loop :=
  mk_loop (lp_id l) (lp_prefix l) (lp_startRev l) (lp_sub l) (lp_watchCtx l) (lp_ctx l) p.

Definition lp_cancel_watch (l : loop) : loop :=
  mk_loop (lp_id l) (lp_prefix l) (lp_startRev l) (lp_sub l) true (lp_ctx l) (lp_phase l).

Definition lp_cancel (l : loop) : loop :=
  mk_loop (lp_id l) (lp_prefix l) (lp_startRev l) (lp_sub l) (lp_watchCtx l) true (lp_phase l).

Definition lp_subscribed (i : nat) (l : loop) : loop :=
  mk_loop (lp_id l) (lp_prefix l) (lp_startRev l) (Some i) (lp_watchCtx l) (lp_ctx l) LSelect.

Definition stream_init : stream :=
  mk_stream false 0 ∅ [] MLoop [] [] [] None true true [].

(** ** The handler *)

(** [if cancel, ok := watches[id]; ok { cancel(); delete(watches, id) }]. *)
Definition close_watch (s : stream) (id : Z) : stream :=
  match st_watches s !! id with
  | Some i => set_watches (delete id (st_watches s)) (upd_loop i lp_cancel_watch s)
  | None => s
  end.

Definition drainCancelled (s : stream) : stream :=
  set_cancelledCh [] (foldl close_watch s (st_cancelledCh s)).

(** [for _, cancel := range watches { cancel() }]. *)
Definition cancel_all (s : stream) : stream :=
  foldr (λ i s, upd_loop i lp_cancel_watch s) s (map_to_list (st_watches s)).*2.

Section service.
Context `{SP : Spanner} (status_Code : error → code).

(** After [break loop]. *)
Definition main_finish (sendErr : option error) (s : stream) : stream :=
  set_main (MReturned (match sendErr with
                       | Some e => if bool_decide (status_Code e = Canceled) then None else Some e
                       | None => None
                       end)) (cancel_all s).

Definition main_ctx_done (s : stream) : stream :=
  if st_ctx s then
    match st_main s with MLoop | MSend _ _ => main_finish None s | MReturned _ => s end
  else s.

Definition main_send_error (s : stream) : stream :=
  match st_sendErrCh s with
  | Some e =>
      match st_main s with
      | MLoop | MSend _ _ => main_finish (Some e) (set_sendErrCh None s)
      | MReturned _ => s
      end
  | None => s
  end.

Definition main_cancelled (s : stream) : stream :=
  match st_main s, st_cancelledCh s with
  | MLoop, id :: rest => close_watch (set_cancelledCh rest s) id
  | _, _ => s
  end.

Definition main_create (key rangeEnd : string) (startRev : Z) (s : stream) : stream :=
  let id := st_next s in
  let i := length (st_loops s) in
  let l := mk_loop id (watchPrefix key rangeEnd) startRev None false false LIdle in
  mk_stream (st_ctx s) (int64 (st_next s + 1)) (<[id := i]> (st_watches s)) (st_loops s ++ [l])
    (MSend (created_response id) (Some i)) (st_respCh s) (st_cancelledCh s) (st_reqCh s)
    (st_sendErrCh s) (st_sender s) (st_receiver s) (st_sent s).

Definition main_cancel (id : Z) (s : stream) : stream :=
  set_main (MSend (canceled_response id 0) None) (close_watch s id).

(** A receive error other than a cancellation returns at once. *)
Definition main_request (s : stream) : stream :=
  match st_main s, st_reqCh s with
  | MLoop, rr :: rest =>
      let s := set_reqCh rest s in
      match rr with
      | RecvEOF => main_finish None s
      | RecvErr e =>
          if bool_decide (status_Code e = Canceled) then main_finish None s
          else set_main (MReturned (Some e)) s
      | RecvReq req =>
          let s := drainCancelled s in
          match req with
          | CreateRequest key rangeEnd startRev => main_create key rangeEnd startRev s
          | CancelRequest id => main_cancel id s
          | OtherRequest => s
          end
      end
  | _, _ => s
  end.

(** The response is queued; [go w.watchLoop(...)]. *)
Definition main_send (s : stream) : stream :=
  match st_main s with
  | MSend r start =>
      if resp_room s then
        let s := set_main MLoop (push_resp r s) in
        match start with Some i => upd_loop i (lp_set_phase LNew) s | None => s end
      else s
  | _ => s
  end.

(** ** The sending and the receiving goroutine *)

(** [stream.Send] of the next response, with the error it returns. *)
Definition sender_send (err : option error) (s : stream) : stream :=
  match st_sender s, st_respCh s with
  | true, r :: rest =>
      match err with
      | None =>
          mk_stream (st_ctx s) (st_next s) (st_watches s) (st_loops s) (st_main s) rest
            (st_cancelledCh s) (st_reqCh s) (st_sendErrCh s) true (st_receiver s) (st_sent s ++ [r])
      | Some e =>
          mk_stream (st_ctx s) (st_next s) (st_watches s) (st_loops s) (st_main s) rest
            (st_cancelledCh s) (st_reqCh s) (match st_sendErrCh s with Some e0 => Some e0 | None => Some e end)
            false (st_receiver s) (st_sent s)
      end
  | _, _ => s
  end.

Definition sender_done (s : stream) : stream :=
  mk_stream (st_ctx s) (st_next s) (st_watches s) (st_loops s) (st_main s) (st_respCh s)
    (st_cancelledCh s) (st_reqCh s) (st_sendErrCh s) (st_sender s && negb (st_ctx s)) (st_receiver s) (st_sent s).

Definition receiver_recv (rr : recvResult) (s : stream) : stream :=
  match st_receiver s, st_reqCh s with
  | true, [] =>
      mk_stream (st_ctx s) (st_next s) (st_watches s) (st_loops s) (st_main s) (st_respCh s)
        (st_cancelledCh s) [rr] (st_sendErrCh s) (st_sender s)
        (match rr with RecvReq _ => true | _ => false end) (st_sent s)
  | _, _ => s
  end.

(** The context of the stream ends. *)
Definition ctx_done (s : stream) : stream :=
  mk_stream true (st_next s) (st_watches s) (st_loops s) (st_main s) (st_respCh s)
    (st_cancelledCh s) (st_reqCh s) (st_sendErrCh s) (st_sender s) (st_receiver s) (st_sent s).

(** ** [watchLoop] *)

(** The stream and the store it shares with the rest of the server. *)
Record server := mk_server { sv_st : stream; sv_y : wsystem }.

Definition sv_map (f : stream → stream) (v : server) : server := mk_server (f (sv_st v)) (sv_y v).

Definition set_store (w : world) (y : wsystem) : wsystem :=
  mk_wsystem (mk_wworld w (vs_watcher (sy_v y))) (sy_disp y).

(** [stdCtx] is done, and with it the context of the subscription. *)
Definition loop_cancel (i : nat) (l : loop) (v : server) : server :=
  mk_server (upd_loop i lp_cancel (sv_st v))
    (match lp_sub l with
     | Some sub => with_wt (cancel_sub sub (sy_wt (sv_y v))) (sv_y v)
     | None => sv_y v
     end).

(** The loop returns: [defer cancel()]. *)
Definition loop_return (i : nat) (l : loop) (v : server) : server :=
  sv_map (upd_loop i (lp_set_phase LDone)) (loop_cancel i l v).

(** [w.store.Watch(stdCtx, prefix, startRev)]. *)
Definition loop_start (i : nat) (v : server) : server :=
  match st_loops (sv_st v) !! i with
  | Some l =>
      match lp_phase l with
      | LNew =>
          let (sub, wt) := subscribe (lp_prefix l) (lp_startRev l) (sy_wt (sv_y v)) in
          mk_server (upd_loop i (lp_subscribed sub) (sv_st v))
            (with_wt (if lp_ctx l then cancel_sub sub wt else wt) (sv_y v))
      | _ => v
      end
  | None => v
  end.

(** [events := <-eventCh]. *)
Definition loop_event (i : nat) (v : server) : server :=
  match st_loops (sv_st v) !! i with
  | Some l =>
      match lp_phase l, lp_sub l with
      | LSelect, Some sub =>
          match receive sub (sy_wt (sv_y v)) with
          | (None, _) => v
          | (Some events, wt) =>
              let y := with_wt wt (sv_y v) in
              match events with
              | [] =>
                  let (r, w) := compactRevision (vs_store (sy_v y)) in
                  mk_server (upd_loop i (lp_set_phase (LSend (canceled_response (lp_id l) (or_zero r)) true)) (sv_st v))
                    (set_store w y)
              | _ =>
                  mk_server (upd_loop i (lp_set_phase (LSend (events_response (lp_id l) events) false)) (sv_st v)) y
              end
          end
      | _, _ => v
      end
  | None => v
  end.

(** [<-progressTicker.C]. *)
Definition loop_tick (i : nat) (v : server) : server :=
  match st_loops (sv_st v) !! i with
  | Some l =>
      match lp_phase l with
      | LSelect =>
          let (r, w) := CurrentRevision (vs_store (sy_v (sv_y v))) in
          mk_server (upd_loop i (lp_set_phase (LSend (progress_response (lp_id l) (or_zero r)) false)) (sv_st v))
            (set_store w (sv_y v))
      | _ => v
      end
  | None => v
  end.

(** [respCh <- ...] in the loop. *)
Definition loop_send (i : nat) (v : server) : server :=
  match st_loops (sv_st v) !! i with
  | Some l =>
      match lp_phase l with
      | LSend r last =>
          if resp_room (sv_st v) then
            sv_map (λ s, upd_loop i (lp_set_phase (if last then LNotify else LSelect)) (push_resp r s)) v
          else v
      | _ => v
      end
  | None => v
  end.

(** [<-stdCtx.Done()]. *)
Definition loop_ctx_done (i : nat) (v : server) : server :=
  match st_loops (sv_st v) !! i with
  | Some l =>
      if lp_ctx l then
        match lp_phase l with
        | LSelect => loop_return i l v
        | LSend _ last => if last then sv_map (upd_loop i (lp_set_phase LNotify)) v else loop_return i l v
        | _ => v
        end
      else v
  | None => v
  end.

(** [select { case cancelledCh <- watchID: default: }; return]. *)
Definition loop_notify (i : nat) (v : server) : server :=
  match st_loops (sv_st v) !! i with
  | Some l =>
      match lp_phase l with
      | LNotify =>
          loop_return i l
            (sv_map (λ s, if Z.of_nat (length (st_cancelledCh s)) <? cancelledCh_cap
                          then set_cancelledCh (st_cancelledCh s ++ [lp_id l]) s else s) v)
      | _ => v
      end
  | None => v
  end.

(** The goroutines of [contextWithCancel] and [streamContextWithCancel]. *)
Definition forward_watchCtx (i : nat) (v : server) : server :=
  sv_map (λ s, if st_ctx s then upd_loop i lp_cancel_watch s else s) v.

Definition forward_ctx (i : nat) (v : server) : server :=
  match st_loops (sv_st v) !! i with
  | Some l => if lp_watchCtx l then loop_cancel i l v else v
  | None => v
  end.

(** One action of a goroutine of the stream. *)
Inductive stream_step (v : server) : server → Prop :=
| serve_main_ctx : stream_step v (sv_map main_ctx_done v)
| serve_main_send_error : stream_step v (sv_map main_send_error v)
| serve_main_cancelled : stream_step v (sv_map main_cancelled v)
| serve_main_request : stream_step v (sv_map main_request v)
| serve_main_send : stream_step v (sv_map main_send v)
| serve_sender err : stream_step v (sv_map (sender_send err) v)
| serve_sender_done : stream_step v (sv_map sender_done v)
| serve_receiver rr : stream_step v (sv_map (receiver_recv rr) v)
| serve_ctx : stream_step v (sv_map ctx_done v)
| serve_loop_start i : stream_step v (loop_start i v)
| serve_loop_event i : stream_step v (loop_event i v)
| serve_loop_tick i : stream_step v (loop_tick i v)
| serve_loop_send i : stream_step v (loop_send i v)
| serve_loop_ctx i : stream_step v (loop_ctx_done i v)
| serve_loop_notify i : stream_step v (loop_notify i v)
| serve_forward_watchCtx i : stream_step v (forward_watchCtx i v)
| serve_forward_ctx i : stream_step v (forward_ctx i v).

(** One action of any goroutine of the stream or of the store's watcher. *)
Inductive serve_step (v : server) : server → Prop :=
| serve_own v' : stream_step v v' → serve_step v v'
| serve_store y : watch_step (sv_y v) y → serve_step v (mk_server (sv_st v) y).

End service.
