(* ===== verification/WatchServerProps.v ===== *)
(** * Properties of the Watch service

    Which keys a watch receives, the previous value its events carry, and the
    order of the responses of a stream in every interleaving of its goroutines
    with the store's watcher. *)

From Stdlib Require Import Ascii String.
From S2P Require Import Prelude Go Spanner Rows Invariant Sim StoreRead StoreWrite Reads StoreCompact StoreInvariant KVServer KVProps Watcher WatchProps WatchServer.

Open Scope string_scope.
Open Scope list_scope.
Open Scope Z_scope.

(** ** Ranges *)

(** The keys of the range [[key, rangeEnd)] of the API. *)
Definition in_range (key rangeEnd k : string) : Prop :=
  if bool_decide (rangeEnd = "") then k = key
  else if bool_decide (rangeEnd = nul) then str_le key k
  else str_le key k ∧ ¬ str_le rangeEnd k.

(** The string of [n] bytes 0xff. *)
Fixpoint ffs (n : nat) : string :=
  match n with O => EmptyString | S n => String (ascii_of_N 255) (ffs n) end.

(** [rangeEnd] selects the keys that start with [key]: the last byte of [key] that
    is not 0xff is incremented, the bytes after it dropped. *)
Definition prefix_end (key rangeEnd : string) : Prop :=
  ∃ p c c' n, key = p +:+ String c (ffs n) ∧ rangeEnd = p +:+ String c' EmptyString ∧
              N_of_ascii c' = (N_of_ascii c + 1)%N.

(** The keys a subscription to [prefix] is sent by a dispatcher. *)
Definition prefix_matches (prefix : string) (ev : Event) : bool :=
  sub_matches (mk_subscriber prefix [] false false PWait) ev.

Lemma sub_matches_prefix s ev : sub_matches s ev = prefix_matches (sub_prefix s) ev.
Proof. done. Qed.

Lemma HasPrefix_trans k p q : HasPrefix k p = true → HasPrefix p q = true → HasPrefix k q = true.
Proof.
  rewrite !HasPrefix_spec. intros [t ->] [u ->]. exists (u +:+ t). by rewrite str_app_assoc.
Qed.

Lemma HasPrefix_refl k : HasPrefix k k = true.
Proof. rewrite <-(str_app_nil_r k) at 1. apply HasPrefix_app. Qed.

Lemma TrimSuffixByte_prefix p c : HasPrefix p (TrimSuffixByte p c) = true.
Proof.
  unfold TrimSuffixByte. destruct p as [|a p]; [done|].
  destruct (str_init_last (String a p)) as (d & E & ->); [done|]. case_bool_decide.
  - rewrite E at 1. apply HasPrefix_app.
  - apply HasPrefix_refl.
Qed.

(** A key that starts with the prefix is matched, whatever the prefix ends with. *)
Lemma prefix_matches_key p ev : HasPrefix (Key (EvKV ev)) p = true → prefix_matches p ev = true.
Proof.
  intros H. unfold prefix_matches, sub_matches. cbn. apply orb_true_iff. right.
  eapply HasPrefix_trans; [done|apply TrimSuffixByte_prefix].
Qed.

Lemma N_of_ascii_bound c : (N_of_ascii c < 256)%N.
Proof. apply N_ascii_bounded. Qed.

Lemma ffs_le n s : str_le (ffs n) s → HasPrefix s (ffs n) = true.
Proof.
  revert s. induction n as [|n IH]; intros s; [by destruct s|].
  destruct s as [|d s]; [done|]. cbn [ffs]. rewrite str_le_cons.
  pose proof (N_of_ascii_bound d) as Hd. rewrite (N_ascii_embedding 255) by lia.
  intros [?|[<- Hp%IH]]; [lia|]. unfold HasPrefix in *. cbn [String.prefix].
  by destruct (ascii_dec _ _).
Qed.

(** In the range of a prefix are exactly the keys with the prefix. *)
Lemma prefix_end_spec p c c' n k :
  N_of_ascii c' = (N_of_ascii c + 1)%N →
  str_le (p +:+ String c (ffs n)) k → ¬ str_le (p +:+ String c' EmptyString) k →
  HasPrefix k (p +:+ String c (ffs n)) = true.
Proof.
  intros Hc. revert k. induction p as [|a p IH]; intros [|d s]; cbn [String.append]; try done.
  - rewrite !str_le_cons. intros [Hlt|[-> Hff]] Hn.
    + destruct Hn. destruct (decide (N_of_ascii c' = N_of_ascii d)) as [E|]; [right|left; lia].
      split; [|apply str_le_nil_l]. rewrite <-(ascii_N_embedding c'), E. apply ascii_N_embedding.
    + unfold HasPrefix in *. cbn. destruct (ascii_dec d d); [|done]. by apply ffs_le.
  - rewrite !str_le_cons. intros [Hlt|[-> Hle]] Hn; [destruct Hn; by left|].
    unfold HasPrefix in *. cbn. destruct (ascii_dec d d); [|done]. apply IH; [done|].
    intros ?. apply Hn. by right.
Qed.

Lemma str_length_app s t : String.length (s +:+ t) = (String.length s + String.length t)%nat.
Proof. induction s as [|a s IH]; cbn; [done|by rewrite IH]. Qed.

(** The store prefix of a prefix range: the prefix without its last byte, or, when
    it ends in bytes 0xff, the prefix itself. *)
Lemma watchPrefix_range p c c' n :
  N_of_ascii c' = (N_of_ascii c + 1)%N →
  HasPrefix (p +:+ String c (ffs n)) (watchPrefix (p +:+ String c (ffs n)) (p +:+ String c' EmptyString)) = true.
Proof.
  intros Hc. unfold watchPrefix. rewrite bool_decide_false by (by destruct p).
  case_bool_decide; [by destruct p|]. case_bool; [|apply HasPrefix_refl].
  destruct (str_init_last (p +:+ String c (ffs n))) as (d & E & _); [by destruct p|].
  rewrite E at 1. apply HasPrefix_app.
Qed.

(** C23: no key of the watched range is missed by the live feed: for a single key,
    for "from key on" and for a prefix range, every event whose key is in the
    range matches the prefix the handler subscribes to. *)
Theorem watch_range_covered key rangeEnd ev :
  (rangeEnd = "" ∨ rangeEnd = nul ∨ prefix_end key rangeEnd) →
  in_range key rangeEnd (Key (EvKV ev)) →
  prefix_matches (watchPrefix key rangeEnd) ev = true.
Proof.
  intros [->|[->|(p & c & c' & n & -> & -> & Hc)]] Hin.
  - unfold in_range in Hin. rewrite bool_decide_true in Hin by done. subst.
    apply prefix_matches_key. unfold watchPrefix. rewrite bool_decide_true by done. apply HasPrefix_refl.
  - done.
  - apply prefix_matches_key. eapply HasPrefix_trans; [|by apply watchPrefix_range].
    unfold in_range in Hin. rewrite bool_decide_false in Hin by (by destruct p).
    case_bool_decide as E.
    + destruct p as [|a p]; [|by destruct p]. cbn in E. injection E as ->.
      change (0 = N_of_ascii c + 1)%N in Hc. lia.
    + destruct Hin. by eapply prefix_end_spec.
Qed.

(** A watch receives events of keys outside its range: the watch of the single
    key "/a" is sent the events of "/ab", and the watch of the prefix "/a/" those
    of "/ab". *)
Theorem watch_delivers_outside_range :
  let ev := mk_Event (mk_KV "/ab" None None 0 false true 100 100 0) EventPut in
  prefix_matches (watchPrefix "/a" "") ev = true ∧ ¬ in_range "/a" "" "/ab" ∧
  prefix_matches (watchPrefix "/a/" "/a0") ev = true ∧ ¬ in_range "/a/" "/a0" "/ab".
Proof.
  cbn zeta. split_and!; [done| |done|]; intros H; unfold in_range in H.
  - by rewrite bool_decide_true in H.
  - rewrite !bool_decide_false in H by done. destruct H as [_ H]. by apply H.
Qed.

(** A range that is not a prefix range is watched as the prefix [key], so the
    watch of "a" up to "bcd" misses the key "b". *)
Theorem watch_range_missed :
  let ev := mk_Event (mk_KV "b" None None 0 false true 100 100 0) EventPut in
  in_range "a" "bcd" "b" ∧ prefix_matches (watchPrefix "a" "bcd") ev = false.
Proof. cbn zeta. split; [|done]. unfold in_range. rewrite !bool_decide_false by done. done. Qed.

(** ** Previous values *)

(** The previous value an event carries is right: when the row it reports
    replaced a row with a value that is still in the log, [PrevKv] is that row's
    key, value, revision and create revision. *)
Theorem watch_prev_kv T db r r' v :
  db_wf T db → r ∈ kv db → r' ∈ kv db → r_key r' = r_key r →
  r_prev_revision r = Some (r_rev r') → r_value r' = Some v →
  me_PrevKv (toWatchEvent (event_of r)) =
    Some (mk_KeyValue (r_key r') (Some v) (r_rev r') (default 0 (r_create_revision r')) 0 0).
Proof.
  intros Hwf Hr Hr' Hk Hp Hv. pose proof (wf_rows _ _ Hwf r Hr) as Hrw. pose proof (wf_rows _ _ Hwf r' Hr') as Hrw'.
  assert (r_rev r' < r_rev r) as Hlt.
  { destruct (r_created r) eqn:Hc; [destruct (rw_created _ _ Hrw Hc); naive_solver|].
    destruct (rw_updated _ _ Hrw Hc) as (p & c & ? & ? & ?). naive_solver lia. }
  destruct (wf_chain _ _ Hwf r _ r' Hr Hp Hr' Hk Hlt) as [_ Hch]. destruct Hch as (_ & Hval & Hcr); [done|].
  unfold toWatchEvent, event_of, toEvent. cbn. rewrite <-Hval, Hv, Hp. cbn.
  pose proof (rw_rev _ _ Hrw'). destruct (0 <? r_rev r') eqn:E; bool_prop; [|lia].
  by rewrite Hk, Hcr.
Qed.

(** The event of an update of a key whose value was empty carries no previous
    value, although the comment of [toWatchEvent] says it always does: an empty
    value of a request is a nil slice, which is stored as NULL. *)
Theorem prev_kv_of_empty_value :
  let put v := Put (SP := solo) (G := grpc0) (mk_PutRequest "k" v 0 false false false) in
  let w := (put (Some "b") (put None (world_of empty_db)).2).2 in
  ∃ r, last (kv (w_db w)) = Some r ∧ r_value r = Some "b" ∧ r_prev_revision r = Some 100 ∧
    me_PrevKv (toWatchEvent (event_of r)) = None.
Proof. vm_compute. eexists. split; [reflexivity|]. done. Qed.

(** ** The order of responses *)

Definition created_ids (T : list WatchResponse) : list Z :=
  omap (λ r, if wr_Created r then Some (wr_WatchId r) else None) T.

(** A response that carries events or reports progress. *)
Definition is_body (r : WatchResponse) : Prop := wr_Created r = false ∧ wr_Canceled r = false.

(** Events and progress of a watch come after its creation. *)
Definition ordered (T : list WatchResponse) : Prop :=
  ∀ T1 r T2, T = T1 ++ r :: T2 → is_body r → wr_WatchId r ∈ created_ids T1.

Lemma created_ids_app T T' : created_ids (T ++ T') = created_ids T ++ created_ids T'.
Proof. apply omap_app. Qed.

Lemma ordered_app_l T T' : ordered (T ++ T') → ordered T.
Proof. intros H T1 r T2 -> Hb. apply (H T1 r (T2 ++ T')); [|done]. by rewrite <-app_assoc. Qed.

Lemma ordered_snoc T r : ordered T → (is_body r → wr_WatchId r ∈ created_ids T) → ordered (T ++ [r]).
Proof.
  intros H Hr T1 x T2 E Hb. destruct T2 as [|y T2 _] using rev_ind.
  - apply app_inj_tail in E as [-> ->]. auto.
  - rewrite app_comm_cons, app_assoc in E. apply app_inj_tail in E as [-> _]. eauto.
Qed.

Definition started (l : loop) : bool := match lp_phase l with LIdle => false | _ => true end.

(** A response a loop is about to queue is its own and no creation. *)
Definition send_ok (l : loop) : Prop :=
  match lp_phase l with LSend r _ => wr_WatchId r = lp_id l ∧ wr_Created r = false | _ => True end.

Definition started_ids (s : stream) : list Z := lp_id <$> filter (λ l, started l = true) (st_loops s).

(** Everything queued so far: sent, lost with a send error, still in the channel. *)
Record trace_ok (s : stream) (lost : list WatchResponse) : Prop := mk_trace_ok {
  to_order : ordered (st_sent s ++ lost ++ st_respCh s);
  to_created : created_ids (st_sent s ++ lost ++ st_respCh s) = started_ids s;
  to_lost : st_sender s = true → lost = [];
}.

Record stream_ok (s : stream) : Prop := mk_stream_ok {
  so_resp : Z.of_nat (length (st_respCh s)) ≤ respCh_cap;
  so_cancelled : Z.of_nat (length (st_cancelledCh s)) ≤ cancelledCh_cap;
  so_next : st_next s = int64 (Z.of_nat (length (st_loops s)));
  so_ids i l : st_loops s !! i = Some l → lp_id l = int64 (Z.of_nat i);
  so_idle i l : st_loops s !! i = Some l → started l = false →
    S i = length (st_loops s) ∧ st_main s ≠ MLoop ∧ (∀ r, st_main s ≠ MSend r None);
  so_main : match st_main s with
            | MSend r (Some i) => ∃ l, st_loops s !! i = Some l ∧ started l = false ∧ r = created_response (lp_id l)
            | MSend r None => ¬ is_body r ∧ wr_Created r = false
            | _ => True
            end;
  so_send i l : st_loops s !! i = Some l → send_ok l;
  so_trace : ∃ lost, trace_ok s lost;
}.

(** *** Changing one loop *)

Lemma filter_alter_ids f i (L : list loop) :
  (∀ l, L !! i = Some l → lp_id (f l) = lp_id l ∧ started (f l) = started l) →
  lp_id <$> filter (λ l, started l = true) (alter f i L) = lp_id <$> filter (λ l, started l = true) L.
Proof.
  revert i. induction L as [|l L IH]; intros [|i] H; try done.
  - destruct (H l eq_refl) as [Hid Hst]. change (alter f 0%nat (l :: L)) with (f l :: L).
    rewrite !filter_cons, Hst. case_decide; cbn [fmap list_fmap]; by rewrite ?Hid.
  - change (alter f (S i) (l :: L)) with (l :: alter f i L). rewrite !filter_cons.
    case_decide; cbn [fmap list_fmap]; by rewrite IH.
Qed.

Lemma lookup_alter_inv f i j (L : list loop) l :
  alter f i L !! j = Some l → (j = i ∧ ∃ l0, L !! i = Some l0 ∧ l = f l0) ∨ (j ≠ i ∧ L !! j = Some l).
Proof.
  destruct (decide (j = i)) as [->|Hne].
  - rewrite list_lookup_alter_eq. intros (l0 & H & ->)%fmap_Some. left. eauto.
  - rewrite list_lookup_alter_ne by done. eauto.
Qed.

Lemma trace_ok_loops s s' lost :
  trace_ok s lost → st_sent s' = st_sent s → st_respCh s' = st_respCh s → st_sender s' = st_sender s →
  started_ids s' = started_ids s → trace_ok s' lost.
Proof. intros [Ho Hc Hl] E1 E2 E3 E4. split; rewrite ?E1, ?E2, ?E3, ?E4; done. Qed.

Lemma upd_loop_ok i f s :
  stream_ok s →
  (∀ l, st_loops s !! i = Some l → lp_id (f l) = lp_id l ∧ started (f l) = started l ∧ send_ok (f l)) →
  stream_ok (upd_loop i f s).
Proof.
  intros [H1 H2 H3 H4 H5 H6 H7 (lost & H8)] Hf.
  assert (∀ j l, alter f i (st_loops s) !! j = Some l → ∃ l0, st_loops s !! j = Some l0 ∧
            lp_id l = lp_id l0 ∧ started l = started l0 ∧ send_ok l) as Hl.
  { intros j l [(-> & l0 & Hl0 & ->)|[Hne Hj]]%lookup_alter_inv; [destruct (Hf _ Hl0) as (? & ? & ?)|]; eauto 10. }
  split; cbn; try done.
  - by rewrite length_alter.
  - intros j l (l0 & Hj & -> & _)%Hl. eauto.
  - intros j l (l0 & Hj & _ & -> & _)%Hl. rewrite length_alter. eauto.
  - destruct (st_main s) as [|r [k|]|]; try done. destruct H6 as (l & Hk & Hst & ->).
    destruct (decide (k = i)) as [->|Hne].
    + exists (f l). rewrite list_lookup_alter_eq, Hk. destruct (Hf _ Hk) as (-> & -> & _). done.
    + exists l. by rewrite list_lookup_alter_ne.
  - by intros j l (l0 & _ & _ & _ & ?)%Hl.
  - exists lost. eapply trace_ok_loops; [exact H8|done..|]. apply filter_alter_ids.
    intros l Hl0. by destruct (Hf l Hl0) as (? & ? & _).
Qed.

(** *** The handler *)

Lemma close_watch_ok s id : stream_ok s → stream_ok (close_watch s id).
Proof.
  intros H. unfold close_watch. destruct (st_watches s !! id) as [i|]; [|done].
  assert (stream_ok (upd_loop i lp_cancel_watch s)) as Hok.
  { apply upd_loop_ok; [done|]. intros l Hl. split_and!; [done|done|]. exact (so_send _ H _ _ Hl). }
  by destruct Hok as [H1 H2 H3 H4 H5 H6 H7 (lost & [? ? ?])]; split; [..|exists lost; split].
Qed.

Lemma close_watch_main s id : st_main (close_watch s id) = st_main s.
Proof. unfold close_watch. by destruct (st_watches s !! id). Qed.

Lemma set_cancelledCh_ok c s :
  stream_ok s → Z.of_nat (length c) ≤ cancelledCh_cap → stream_ok (set_cancelledCh c s).
Proof. by intros [H1 H2 H3 H4 H5 H6 H7 (lost & [? ? ?])] Hc; split; [..|exists lost; split]. Qed.

Lemma set_reqCh_ok c s : stream_ok s → stream_ok (set_reqCh c s).
Proof. by intros [H1 H2 H3 H4 H5 H6 H7 (lost & [? ? ?])]; split; [..|exists lost; split]. Qed.

Lemma set_sendErrCh_ok e s : stream_ok s → stream_ok (set_sendErrCh e s).
Proof. by intros [H1 H2 H3 H4 H5 H6 H7 (lost & [? ? ?])]; split; [..|exists lost; split]. Qed.

Lemma drainCancelled_ok s : stream_ok s → stream_ok (drainCancelled s) ∧ st_main (drainCancelled s) = st_main s.
Proof.
  intros H. unfold drainCancelled.
  assert (∀ ids s, stream_ok s → stream_ok (foldl close_watch s ids) ∧ st_main (foldl close_watch s ids) = st_main s) as Hf.
  { intros ids. induction ids as [|id ids IH]; intros s0 H0; [done|]. cbn.
    destruct (IH _ (close_watch_ok s0 id H0)) as [? ->]. split; [done|apply close_watch_main]. }
  destruct (Hf (st_cancelledCh s) s H) as [Hok Hm]. split; [|done].
  apply set_cancelledCh_ok; [done|]. done.
Qed.

Lemma cancel_all_ok s : stream_ok s → stream_ok (cancel_all s).
Proof.
  intros H. unfold cancel_all. induction (map_to_list (st_watches s)).*2 as [|i idxs IH]; [done|]. cbn.
  apply upd_loop_ok; [done|]. intros l Hl. split_and!; [done|done|]. exact (so_send _ IH _ _ Hl).
Qed.

(** The handler returns. *)
Lemma return_ok e s : stream_ok s → stream_ok (set_main (MReturned e) s).
Proof.
  intros [H1 H2 H3 H4 H5 H6 H7 (lost & [? ? ?])]. split; [done|done|done|done| |done|done|by exists lost; split].
  intros i l Hl Hst. destruct (H5 i l Hl Hst) as [? _]. done.
Qed.

Lemma main_finish_ok code e s : stream_ok s → stream_ok (main_finish code e s).
Proof. intros H. by apply return_ok, cancel_all_ok. Qed.

(** No loop waits to be started while the handler is in its [select]. *)
Lemma main_loop_started s i l : stream_ok s → st_main s = MLoop → st_loops s !! i = Some l → started l = true.
Proof.
  intros H Hm Hl. destruct (started l) eqn:E; [done|]. by destruct (so_idle _ H _ _ Hl E) as (_ & ? & _).
Qed.

Lemma int64_succ n : int64 (int64 (Z.of_nat n) + 1) = int64 (Z.of_nat (S n)).
Proof.
  unfold int64. f_equal. replace ((Z.of_nat n + 2 ^ 63) `mod` 2 ^ 64 - 2 ^ 63 + 1 + 2 ^ 63)
    with ((Z.of_nat n + 2 ^ 63) `mod` 2 ^ 64 + 1) by lia.
  rewrite Zplus_mod_idemp_l. f_equal. lia.
Qed.

Lemma main_create_ok key rangeEnd startRev s :
  stream_ok s → st_main s = MLoop → stream_ok (main_create key rangeEnd startRev s).
Proof.
  intros H Hm. pose proof (main_loop_started s) as Hst0. destruct H as [H1 H2 H3 H4 H5 H6 H7 (lost & [Ho Hc Hl])].
  assert (∀ i l, st_loops s !! i = Some l → started l = true) as Hst
    by (intros i l Hi; eapply Hst0; [by split; [..|exists lost; split]|done|done]).
  split; cbn; try done.
  - rewrite length_app, H3, int64_succ. cbn. do 2 f_equal. lia.
  - intros i l [Hi|[Hle Hi]]%lookup_app_Some; [eauto|].
    apply list_lookup_singleton_Some in Hi as [Hi <-]. cbn. rewrite H3. do 2 f_equal. lia.
  - intros i l [Hi|[Hle Hi]]%lookup_app_Some E; [by rewrite (Hst _ _ Hi) in E|].
    apply list_lookup_singleton_Some in Hi as [Hi <-]. rewrite length_app. cbn. split; [lia|done].
  - eexists. split; [by apply list_lookup_middle|done].
  - intros i l [Hi|[Hle Hi]]%lookup_app_Some; [eauto|]. by apply list_lookup_singleton_Some in Hi as [_ <-].
  - exists lost. split; [done| |done]. etrans; [exact Hc|]. unfold started_ids. cbn [main_create st_loops].
    rewrite filter_app. cbn. by rewrite app_nil_r.
Qed.

Lemma main_cancel_ok id s : stream_ok s → st_main s = MLoop → stream_ok (main_cancel id s).
Proof.
  intros H Hm. unfold main_cancel. pose proof (close_watch_ok s id H) as Hok.
  pose proof (λ i l, main_loop_started _ i l Hok (eq_trans (close_watch_main s id) Hm)) as Hst.
  destruct Hok as [H1 H2 H3 H4 H5 H6 H7 (lost & [? ? ?])].
  split; cbn; [done|done|done|done| |split; [by intros []|done]|done|by exists lost; split].
  intros i l Hl E. by rewrite (Hst _ _ Hl) in E.
Qed.

Lemma main_request_ok code s : stream_ok s → stream_ok (main_request code s).
Proof.
  intros H. unfold main_request. destruct (st_main s) eqn:Hm; try done.
  destruct (st_reqCh s) as [|rr rest]; [done|]. apply (set_reqCh_ok rest) in H as H'.
  destruct rr as [req| |e]; [|by apply main_finish_ok|].
  - destruct (drainCancelled_ok _ H') as [Hok Hm'].
    assert (st_main (drainCancelled (set_reqCh rest s)) = MLoop) as Hm'' by (etrans; [exact Hm'|exact Hm]).
    destruct req; [by apply main_create_ok|by apply main_cancel_ok|done].
  - case_bool; [by apply main_finish_ok|by apply return_ok].
Qed.

(** *** Queueing and sending *)

Lemma resp_room_lt s : resp_room s = true → Z.of_nat (length (st_respCh s)) < respCh_cap.
Proof. unfold resp_room. intros H. by bool_prop. Qed.

(** A response that is neither a creation nor out of order is queued. *)
Lemma push_resp_ok r s :
  stream_ok s → resp_room s = true → wr_Created r = false → (is_body r → wr_WatchId r ∈ started_ids s) →
  stream_ok (push_resp r s).
Proof.
  intros [H1 H2 H3 H4 H5 H6 H7 (lost & [Ho Hc Hl])] Hr%resp_room_lt Hnc Hb. split; try done.
  - cbn. rewrite length_app. cbn. lia.
  - exists lost. split; cbn; [|rewrite !app_assoc, created_ids_app, <-app_assoc; cbn; rewrite Hnc, app_nil_r; exact Hc|done].
    rewrite !app_assoc. apply ordered_snoc; rewrite <-app_assoc; [done|]. by rewrite Hc.
Qed.

Lemma started_ids_elem s i l : st_loops s !! i = Some l → started l = true → lp_id l ∈ started_ids s.
Proof.
  intros Hl Hs. apply list_elem_of_fmap_2, list_elem_of_filter. split; [done|]. by eapply list_elem_of_lookup_2.
Qed.

(** The creation is queued and the last loop started. *)
Lemma start_loop_ok i l s :
  stream_ok s → resp_room s = true → st_main s = MSend (created_response (lp_id l)) (Some i) →
  st_loops s !! i = Some l → started l = false →
  stream_ok (upd_loop i (lp_set_phase LNew) (set_main MLoop (push_resp (created_response (lp_id l)) s))).
Proof.
  intros [H1 H2 H3 H4 H5 H6 H7 (lost & [Ho Hc Hl])] Hr%resp_room_lt Hm Hi Hst.
  destruct (H5 _ _ Hi Hst) as [Hlast _].
  assert (∃ L, st_loops s = L ++ [l] ∧ length L = i) as (L & HL & Hlen).
  { destruct (st_loops s) as [|x L _] using rev_ind; [done|]. rewrite length_app in Hlast. cbn in Hlast.
    assert (i = length L) as -> by lia. rewrite list_lookup_middle in Hi by done. simplify_eq. eauto. }
  assert (alter (lp_set_phase LNew) i (L ++ [l]) = L ++ [lp_set_phase LNew l]) as Halt.
  { rewrite alter_app_r_alt by lia. by replace (i - length L)%nat with 0%nat by lia. }
  assert (∀ j x, L !! j = Some x → started x = true) as HLst.
  { intros j x Hj. destruct (started x) eqn:E; [done|].
    destruct (H5 j x) as [Hn _]; [rewrite HL; by apply lookup_app_l_Some|done|].
    apply lookup_lt_Some in Hj. lia. }
  split; cbn; rewrite ?HL, ?Halt; try done.
  - rewrite length_app. cbn. lia.
  - rewrite H3, HL, !length_app. done.
  - intros j x [Hj|[Hle Hj]]%lookup_app_Some; [apply H4; rewrite HL; by apply lookup_app_l_Some|].
    apply list_lookup_singleton_Some in Hj as [Hj <-]. cbn. rewrite (H4 _ _ Hi). do 2 f_equal. lia.
  - intros j x [Hj|[Hle Hj]]%lookup_app_Some E; [by rewrite (HLst _ _ Hj) in E|].
    by apply list_lookup_singleton_Some in Hj as [_ <-].
  - intros j x [Hj|[Hle Hj]]%lookup_app_Some; [eapply H7; rewrite HL; by apply lookup_app_l_Some|].
    by apply list_lookup_singleton_Some in Hj as [_ <-].
  - exists lost. split; cbn; [| |done].
    + rewrite !app_assoc. apply ordered_snoc; rewrite <-app_assoc; [done|]. by intros [].
    + rewrite !app_assoc, created_ids_app, <-app_assoc, Hc. unfold started_ids. cbn. rewrite HL, Halt, !filter_app.
      cbn. rewrite !fmap_app. unfold started in Hst. rewrite decide_False by (unfold started; by destruct (lp_phase l)).
      cbn. by rewrite app_nil_r.
Qed.

Lemma main_send_ok s : stream_ok s → stream_ok (main_send s).
Proof.
  intros H. unfold main_send. destruct (st_main s) as [|r [i|]|] eqn:Hm; try done;
    case_bool; try done; pose proof (so_main _ H) as Hmain; rewrite Hm in Hmain.
  - destruct Hmain as (l & Hl & Hst & ->). by apply start_loop_ok.
  - destruct Hmain as [Hb Hc]. apply (push_resp_ok r) in H as Hok; [|done|done|done].
    pose proof (so_idle _ H) as Hidle. rewrite Hm in Hidle.
    destruct Hok as [H1 H2 H3 H4 H5 H6 H7 (lost & [? ? ?])].
    split; [done|done|done|done| |done|done|by exists lost; split].
    intros j l Hj Hst. destruct (Hidle j l Hj Hst) as (_ & _ & ?). naive_solver.
Qed.

Lemma sender_send_ok e s : stream_ok s → stream_ok (sender_send e s).
Proof.
  intros H. unfold sender_send. destruct (st_sender s) eqn:Hs; [|done].
  destruct (st_respCh s) as [|r rest] eqn:Hr; [done|].
  destruct H as [H1 H2 H3 H4 H5 H6 H7 (lost & [Ho Hc Hl])]. rewrite Hr in *. rewrite (Hl Hs) in *. cbn in H1.
  destruct e as [e|]; (split; cbn; [lia|done..|]).
  - exists [r]. by split.
  - exists []. split; cbn; rewrite <-?app_assoc; done.
Qed.

(** *** The loops *)

Lemma lp_cancel_ok i s : stream_ok s → stream_ok (upd_loop i lp_cancel s).
Proof.
  intros H. apply upd_loop_ok; [done|]. intros l Hl. split_and!; [done|done|]. exact (so_send _ H _ _ Hl).
Qed.

(** A started loop moves to a phase that is no start and sends only its own. *)
Lemma loop_phase_ok i l p s :
  stream_ok s → st_loops s !! i = Some l → started l = true → started (lp_set_phase p l) = true →
  send_ok (lp_set_phase p l) → stream_ok (upd_loop i (lp_set_phase p) s).
Proof.
  intros H Hl Hs Hp Hok. apply upd_loop_ok; [done|]. intros l' Hl'. simplify_eq. split_and!; [done| |done].
  by rewrite Hs, Hp.
Qed.

Lemma loop_return_ok i l v :
  stream_ok (sv_st v) → st_loops (sv_st v) !! i = Some l → started l = true → stream_ok (sv_st (loop_return i l v)).
Proof.
  intros H Hl Hs. cbn. eapply (loop_phase_ok i (lp_cancel l)); [by apply lp_cancel_ok| |done|done|done].
  cbn. rewrite list_lookup_alter_eq, Hl. done.
Qed.

Section protocol.
Context `{SP : Spanner} (status_Code : error → code).

Lemma loop_event_ok i v : stream_ok (sv_st v) → stream_ok (sv_st (loop_event i v)).
Proof.
  intros H. unfold loop_event. destruct (st_loops (sv_st v) !! i) as [l|] eqn:Hl; [|done].
  destruct (lp_phase l) eqn:Hp; try done. destruct (lp_sub l) as [sub|]; [|done].
  destruct (receive _ _) as [[[|e es]|] wt]; [destruct (compactRevision _)| |done];
    (eapply loop_phase_ok; [done|done|unfold started; by rewrite Hp|done|done]).
Qed.

Lemma loop_tick_ok i v : stream_ok (sv_st v) → stream_ok (sv_st (loop_tick i v)).
Proof.
  intros H. unfold loop_tick. destruct (st_loops (sv_st v) !! i) as [l|] eqn:Hl; [|done].
  destruct (lp_phase l) eqn:Hp; try done. destruct (CurrentRevision _).
  eapply loop_phase_ok; [done|done|unfold started; by rewrite Hp|done|done].
Qed.

Lemma loop_send_ok i v : stream_ok (sv_st v) → stream_ok (sv_st (loop_send i v)).
Proof.
  intros H. unfold loop_send. destruct (st_loops (sv_st v) !! i) as [l|] eqn:Hl; [|done].
  destruct (lp_phase l) as [| | |r last| |] eqn:Hp; try done. case_bool; [|done].
  pose proof (so_send _ H _ _ Hl) as Hs. unfold send_ok in Hs. rewrite Hp in Hs. destruct Hs as [Hid Hc].
  assert (started l = true) as Hst by (unfold started; by rewrite Hp).
  assert (stream_ok (push_resp r (sv_st v))) as Hok.
  { apply push_resp_ok; [done|done|done|]. intros _. rewrite Hid. by eapply started_ids_elem. }
  cbn. eapply (loop_phase_ok i l); [done|done|done|by destruct last|by destruct last].
Qed.

Lemma loop_ctx_done_ok i v : stream_ok (sv_st v) → stream_ok (sv_st (loop_ctx_done i v)).
Proof.
  intros H. unfold loop_ctx_done. destruct (st_loops (sv_st v) !! i) as [l|] eqn:Hl; [|done].
  case_bool; [|done]. destruct (lp_phase l) as [| | |r [|]| |] eqn:Hp; try done;
    assert (started l = true) as Hst by (unfold started; by rewrite Hp).
  - by apply loop_return_ok.
  - by eapply (loop_phase_ok i l).
  - by apply loop_return_ok.
Qed.

Lemma loop_notify_ok i v : stream_ok (sv_st v) → stream_ok (sv_st (loop_notify i v)).
Proof.
  intros H. unfold loop_notify. destruct (st_loops (sv_st v) !! i) as [l|] eqn:Hl; [|done].
  destruct (lp_phase l) eqn:Hp; try done. apply loop_return_ok; cbn; [|by case_bool|unfold started; by rewrite Hp].
  case_bool; [|done]. apply set_cancelledCh_ok; [done|]. rewrite length_app. cbn. lia.
Qed.

Lemma loop_start_ok i v : stream_ok (sv_st v) → stream_ok (sv_st (loop_start i v)).
Proof.
  intros H. unfold loop_start. destruct (st_loops (sv_st v) !! i) as [l|] eqn:Hl; [|done].
  destruct (lp_phase l) eqn:Hp; try done. destruct (subscribe _ _ _) as [sub wt]. cbn.
  apply upd_loop_ok; [done|]. intros l' Hl'. simplify_eq. unfold started. by rewrite Hp.
Qed.

Lemma serve_step_ok v v' : stream_ok (sv_st v) → serve_step status_Code v v' → stream_ok (sv_st v').
Proof.
  intros H [v1 Hs|y _]; [|done]. destruct Hs; cbn [sv_map sv_st].
  - unfold main_ctx_done. case_bool; [|done]. destruct (st_main _); try done; by apply main_finish_ok.
  - unfold main_send_error. destruct (st_sendErrCh _); [|done].
    destruct (st_main _); try done; by apply main_finish_ok, set_sendErrCh_ok.
  - unfold main_cancelled. destruct (st_main _); try done. pose proof (so_cancelled _ H) as Hc.
    destruct (st_cancelledCh _); [done|]. apply close_watch_ok, set_cancelledCh_ok; [done|]. cbn in Hc. lia.
  - by apply main_request_ok.
  - by apply main_send_ok.
  - by apply sender_send_ok.
  - destruct H as [H1 H2 H3 H4 H5 H6 H7 (lost & [? ? Hl])]. split; [done..|exists lost; split; [done|done|]].
    cbn. intros [? _]%andb_true_iff. auto.
  - unfold receiver_recv. destruct (st_receiver _); [|done]. destruct (st_reqCh _); [|done].
    by destruct H as [H1 H2 H3 H4 H5 H6 H7 (lost & [? ? ?])]; split; [..|exists lost; split].
  - by destruct H as [H1 H2 H3 H4 H5 H6 H7 (lost & [? ? ?])]; split; [..|exists lost; split].
  - by apply loop_start_ok.
  - by apply loop_event_ok.
  - by apply loop_tick_ok.
  - by apply loop_send_ok.
  - by apply loop_ctx_done_ok.
  - by apply loop_notify_ok.
  - unfold forward_watchCtx. cbn [sv_map sv_st]. case_bool; [|done]. apply upd_loop_ok; [done|]. intros l Hl. split_and!; [done|done|]. exact (so_send _ H _ _ Hl).
  - unfold forward_ctx. destruct (st_loops _ !! i) as [l|] eqn:Hl; [|done]. case_bool; [|done]. by apply lp_cancel_ok.
Qed.

Definition serve_init (y : wsystem) : server := mk_server stream_init y.

Lemma serve_run_ok y v : rtc (serve_step status_Code) (serve_init y) v → stream_ok (sv_st v).
Proof.
  intros Hrun. assert (stream_ok (sv_st (serve_init y))) as H0.
  { split; cbn; try done. exists []. split; [|done|done]. intros [|? ?] ? ? ?; done. }
  induction Hrun as [|v1 v2 v3 Hs _ IH]; [done|]. apply IH. by eapply serve_step_ok.
Qed.

End protocol.

Lemma ids_seq (f : nat → Z) (L : list loop) :
  (∀ i l, L !! i = Some l → lp_id l = f i) → lp_id <$> L = f <$> seq 0 (length L).
Proof.
  intros Hid. apply list_eq. intros i. rewrite !list_lookup_fmap. destruct (L !! i) as [l|] eqn:Hl; cbn.
  - rewrite lookup_seq_lt by (by eapply lookup_lt_Some). cbn. by rewrite (Hid _ _ Hl).
  - apply lookup_ge_None in Hl. by rewrite lookup_seq_ge.
Qed.

(** The ids handed out are 0, 1, 2, ..., as [int64]s. *)
Lemma started_ids_seq s :
  stream_ok s → ∃ n, (n ≤ length (st_loops s))%nat ∧ started_ids s = (λ i, int64 (Z.of_nat i)) <$> seq 0 n.
Proof.
  intros [_ _ _ Hid Hidle _ _ _]. unfold started_ids.
  destruct (st_loops s) as [|l L _] using rev_ind; [by exists 0%nat|].
  assert (filter (λ l, started l = true) L = L) as HL.
  { apply filter_all. intros x (i & Hi)%list_elem_of_lookup. destruct (started x) eqn:E; [done|].
    destruct (Hidle i x) as [Hn _]; [by apply lookup_app_l_Some|done|].
    apply lookup_lt_Some in Hi. rewrite length_app in Hn. cbn in Hn. lia. }
  rewrite filter_app, HL, length_app. cbn. case_decide.
  - exists (length L + 1)%nat. split; [done|]. rewrite <-length_app with (l' := [l]). by apply ids_seq.
  - exists (length L). split; [lia|]. rewrite app_nil_r. apply ids_seq.
    intros i x Hi. apply Hid. by apply lookup_app_l_Some.
Qed.

(** C11: the responses a client receives on a stream are in order, whatever the
    interleaving of the handler, the sending goroutine, the watch loops, the
    client and the store: the queues keep within their capacities; the creations
    announce the ids 0, 1, 2, ... in this order, each once; and events or
    progress of a watch come only after its creation. *)
Theorem watch_stream_protocol `{SP : Spanner} status_Code y v :
  rtc (serve_step status_Code) (serve_init y) v →
  Z.of_nat (length (st_loops (sv_st v))) < 2 ^ 63 →
  let s := sv_st v in
  Z.of_nat (length (st_respCh s)) ≤ 64 ∧ Z.of_nat (length (st_cancelledCh s)) ≤ 64 ∧
  (∃ n, created_ids (st_sent s) = Z.of_nat <$> seq 0 n) ∧
  (∀ T1 r T2, st_sent s = T1 ++ r :: T2 → is_body r → wr_WatchId r ∈ created_ids T1).
Proof.
  intros H%serve_run_ok Hn. cbn zeta. split_and!; [apply H|apply H| |].
  - destruct (started_ids_seq _ H) as (n & Hle & Hids). destruct (so_trace _ H) as (lost & [_ Hc _]).
    rewrite created_ids_app, Hids in Hc.
    assert ((λ i, int64 (Z.of_nat i)) <$> seq 0 n = Z.of_nat <$> seq 0 n) as E.
    { apply list_fmap_ext. intros _ i Hi%list_elem_of_lookup_2. apply elem_of_seq in Hi.
      apply int64_id. unfold int64_range. lia. }
    rewrite E in Hc. exists (length (created_ids (st_sent (sv_st v)))).
    apply (f_equal (take (length (created_ids (st_sent (sv_st v)))))) in Hc. rewrite take_app_length in Hc.
    rewrite Hc at 1. rewrite <-fmap_take. f_equal. rewrite take_seq. f_equal.
    apply (f_equal length) in Hc. rewrite length_take, length_fmap, length_seq in Hc. lia.
  - destruct (so_trace _ H) as (lost & [Ho _ _]). by apply ordered_app_l in Ho.
Qed.

(** ** Witnesses *)

Lemma watch_range_covered_witness :
  prefix_matches (watchPrefix "/a/" "/a0") (mk_Event (mk_KV "/a/b" None None 0 false true 100 100 0) EventPut) = true.
Proof.
  apply watch_range_covered.
  - right. right. exists "/a", "/"%char, "0"%char, 0%nat. split_and!; reflexivity.
  - unfold in_range. rewrite !bool_decide_false by done. split; [reflexivity|]. by intros ?.
Defined.

Lemma watch_prev_kv_witness :
  me_PrevKv (toWatchEvent (event_of k_row)) = Some (mk_KeyValue "k" (Some "a") 100 100 0 0).
Proof.
  apply (watch_prev_kv (sim_ts 2) (w_db run2) k_row k_row0 "a").
  - exact (ww_db _ run2_wf).
  - vm_compute. right. left.
  - vm_compute. left.
  - reflexivity.
  - reflexivity.
  - reflexivity.
Defined.
