(* ===== verification/WatchDelivery.v ===== *)
(** * What reaches the client of a watch

    The contents of the channels between the store and the client: every event a
    client is sent belongs to the prefix its watch subscribed to; a replay
    delivers the whole history it was asked for; and a stream that is open can
    always deliver the next batch of a subscription. *)

From Stdlib Require Import Ascii String.
From S2P Require Import Prelude Go Spanner Rows Invariant Sim StoreRead StoreWrite Reads StoreCompact KVServer Watcher WatchProps WatchServer WatchServerProps.

Open Scope string_scope.
Open Scope list_scope.
Open Scope Z_scope.

(** ** The contents of a subscription's channel *)

(** An event a subscription to [p] is sent: by a dispatcher, which compares
    prefixes, or by a replay, which asks the database for [LIKE p%]. *)
Definition ev_for (p : string) (ev : Event) : Prop :=
  prefix_matches p ev = true ∨ sql_like (likePrefix p) (Key (EvKV ev)) = true.

Definition sub_content (s : subscriber) : Prop :=
  Forall (Forall (ev_for (sub_prefix s))) (sub_ch s) ∧
  match sub_phase s with PSend events _ _ => Forall (ev_for (sub_prefix s)) events | _ => True end.

Definition content_ok (wt : Watcher) : Prop := ∀ i s, wt_objs wt !! i = Some s → sub_content s.

(** Subscribers stay where they are and keep their prefix. *)
Definition keeps (wt wt' : Watcher) : Prop :=
  ∀ i s, wt_objs wt !! i = Some s → ∃ s', wt_objs wt' !! i = Some s' ∧ sub_prefix s' = sub_prefix s.

Lemma keeps_refl wt : keeps wt wt.
Proof. intros i s Hs. eauto. Qed.

Lemma keeps_objs wt wt' : wt_objs wt' = wt_objs wt → keeps wt wt'.
Proof. intros E i s Hs. rewrite E. eauto. Qed.

Lemma keeps_trans wt1 wt2 wt3 : keeps wt1 wt2 → keeps wt2 wt3 → keeps wt1 wt3.
Proof. intros H1 H2 i s (s' & Hs' & E)%H1. destruct (H2 _ _ Hs') as (s'' & ? & ?). exists s''. split; congruence. Qed.

Lemma set_sub_keeps i s s' wt :
  wt_objs wt !! i = Some s → sub_prefix s' = sub_prefix s → keeps wt (set_sub i s' wt).
Proof.
  intros Hi Hp j x Hx. destruct (decide (j = i)) as [->|Hne].
  - exists s'. cbn. rewrite list_lookup_insert_eq by (by eapply lookup_lt_Some). naive_solver.
  - exists x. by rewrite set_sub_other.
Qed.

Lemma set_sub_content i s' wt : content_ok wt → sub_content s' → content_ok (set_sub i s' wt).
Proof.
  intros H Hs j x. cbn. intros [(-> & <- & _)|[_ ?]]%list_lookup_insert_Some; [done|eauto].
Qed.

(** Both at once, for a change of one registered object. *)
Lemma set_sub_good i s s' wt :
  content_ok wt → wt_objs wt !! i = Some s → sub_prefix s' = sub_prefix s →
  (sub_content s → sub_content s') → content_ok (set_sub i s' wt) ∧ keeps wt (set_sub i s' wt).
Proof.
  intros H Hi Hp Hc. split; [|by eapply set_sub_keeps]. apply set_sub_content; [done|]. eauto.
Qed.

Lemma matching_for events s : Forall (ev_for (sub_prefix s)) (matching events s).
Proof. apply Forall_forall. intros ev [H _]%list_elem_of_filter. left. by rewrite <-sub_matches_prefix. Qed.

Lemma enqueue_content b s p :
  sub_content s → Forall (ev_for (sub_prefix s)) b →
  match p with PSend events _ _ => Forall (ev_for (sub_prefix s)) events | _ => True end →
  sub_content (set_phase p (enqueue b s)).
Proof. intros [Hc _] Hb Hp. split; [|done]. apply Forall_app. split; [done|]. by apply Forall_singleton. Qed.

Lemma offer_content b s : sub_content s → Forall (ev_for (sub_prefix s)) b → sub_content (offer b s).
Proof.
  intros H Hb. unfold offer. case_bool; [|done].
  change (enqueue b s) with (set_phase (sub_phase s) (enqueue b s)). apply enqueue_content; [done..|apply H].
Qed.

Lemma tail_content b ch s p :
  sub_content s → sub_ch s = b :: ch → (p = sub_phase s ∨ p = PDrain) → sub_content
    (mk_subscriber (sub_prefix s) ch (sub_cancelled s) (sub_closed s) p).
Proof.
  intros [Hc Hp] Hch Hph. rewrite Hch in Hc. apply Forall_cons in Hc as [_ ?]. split; [done|].
  by destruct Hph as [->| ->].
Qed.

Section content.
Context `{SP : Spanner}.

Lemma scanAll_key rows kvs : scanAll rows = Ok kvs → ∀ kv, kv ∈ kvs → ∃ r, r ∈ rows ∧ Key kv = r_key r.
Proof.
  revert kvs. induction rows as [|r rows IH]; cbn; intros kvs H kv Hkv.
  { injection H as <-. by apply elem_of_nil in Hkv. }
  destruct (scanKV r) as [k|e] eqn:Hr; [|done]. destruct (scanAll rows) as [ks|e]; [|done]. injection H as <-.
  apply elem_of_cons in Hkv as [->|Hkv].
  - exists r. split; [by left|]. unfold scanKV in Hr. destruct (r_lease_id r); [|done]. by injection Hr as <-.
  - destruct (IH ks eq_refl kv Hkv) as (x & ? & ?). exists x. split; [by right|done].
Qed.

Lemma after_at_like p rev limit cur w events :
  (after_at p rev limit cur w).1.2 = Ok events →
  Forall (λ ev, sql_like (likePrefix p) (Key (EvKV ev)) = true) events.
Proof.
  unfold after_at, mbind, st_bind, single. destruct (sp_fate (w_rpc w)); [|done]. cbn.
  destruct (scanAll _) as [kvs|e] eqn:Hs; [|done]. cbn. intros [= <-].
  apply Forall_forall. intros ev (k & -> & Hkv)%list_elem_of_fmap.
  destruct (scanAll_key _ _ Hs k Hkv) as (r & Hr & Hk). cbn. rewrite Hk.
  unfold q_after, limitClause, sql_limit in Hr.
  assert (r ∈ order_by rev_asc (filter (λ r0, sql_like (likePrefix p) (r_key r0) = true ∧
            revToTS rev < r_rev r0) (sp_plan (w_rpc w) (kv (seen w))))) as Hr'.
  { case_match; [done|]. by eapply elem_of_take in Hr as (j & Hj%list_elem_of_lookup_2 & _). }
  by apply order_by_elem, list_elem_of_filter in Hr' as [[? _] _].
Qed.

(** A replay only finds keys that match the pattern. *)
Lemma After_like p rev limit w events :
  (After p rev limit w).1.2 = Ok events →
  Forall (λ ev, sql_like (likePrefix p) (Key (EvKV ev)) = true) events.
Proof.
  unfold After, mbind, st_bind. destruct (CurrentRevision w) as [[cur|e] w1]; [|done].
  case_bool; [|by apply after_at_like].
  destruct (compactRevision w1) as [[c|e] w2]; [|done]. case_bool; [done|by apply after_at_like].
Qed.

Lemma replay_step_content i v :
  content_ok (vs_watcher v) →
  content_ok (vs_watcher (replay_step i v)) ∧ keeps (vs_watcher v) (vs_watcher (replay_step i v)).
Proof.
  intros H. destruct v as [w wt]. unfold replay_step. cbn [vs_watcher] in *.
  destruct (wt_objs wt !! i) as [s|] eqn:Hi; [|by split; [|apply keeps_refl]].
  assert (content_ok wt ∧ keeps wt wt) as Hsame by (split; [done|apply keeps_refl]).
  assert (∀ p, match p with PSend events _ _ => Forall (ev_for (sub_prefix s)) events | _ => True end →
    content_ok (set_sub i (set_phase p s) wt) ∧ keeps wt (set_sub i (set_phase p s) wt)) as Hphase.
  { intros p Hp. eapply set_sub_good; [done|done|done|]. intros [? _]. by split. }
  destruct (sub_phase s) as [afterRev|rev|events rev more| | | | | |] eqn:Hp; try done.
  - case_bool; [by apply Hphase|]. destruct (compactRevision w) as [[c|e] w']; [case_bool|]; by apply Hphase.
  - destruct (After _ _ _ w) as [[cur r] w'] eqn:E. cbn [snd]. destruct r as [[|ev evs]|e]; [by apply Hphase| |by apply Hphase].
    apply Hphase. eapply Forall_impl; [eapply After_like; by rewrite E|]. by right.
  - case_bool; [|done]. eapply set_sub_good; [done|done|done|]. intros Hs. pose proof (proj2 Hs) as Hev. rewrite Hp in Hev.
    apply enqueue_content; [done|done|]. by destruct more.
  - eapply set_sub_good; [done|done|done|]. by intros [? _].
  - cbn [vs_watcher]. destruct (set_sub_good i s (set_phase PDrain (cancel s)) wt) as [Hc Hk]; [done|done|done|by intros [? _]|].
    split; [exact Hc|exact Hk].
  - destruct (sub_ch s) as [|b ch] eqn:Hch; [by apply Hphase|]. eapply set_sub_good; [done|done|done|].
    intros Hs. eapply tail_content; [done|done|by right].
  - case_bool; [|done]. eapply set_sub_good; [done|done|done|]. intros Hs. apply enqueue_content; [done|constructor|done].
Qed.

Lemma dispatch_micro_content d wt :
  content_ok wt → content_ok (dispatch_micro (d, wt)).2 ∧ keeps wt (dispatch_micro (d, wt)).2.
Proof.
  intros H. assert (content_ok wt ∧ keeps wt wt) as Hsame by (split; [done|apply keeps_refl]).
  destruct d as [events todo [i|]]; cbn [dispatch_micro snd]; [|by destruct todo].
  destruct (wt_objs wt !! i) as [s|] eqn:Hi; [|done].
  eapply set_sub_good; [done|done|apply offer_prefix|]. intros Hs. apply offer_content; [done|apply matching_for].
Qed.

Lemma receive_content i wt : content_ok wt → content_ok (receive i wt).2 ∧ keeps wt (receive i wt).2.
Proof.
  intros H. unfold receive. destruct (wt_objs wt !! i) as [s|] eqn:Hi; [|by split; [|apply keeps_refl]].
  destruct (sub_ch s) as [|b ch] eqn:Hch; [by split; [|apply keeps_refl]|]. cbn [snd].
  eapply set_sub_good; [done|done|done|]. intros Hs. eapply tail_content; [done|done|by left].
Qed.

Lemma cancel_sub_content i wt : content_ok wt → content_ok (cancel_sub i wt) ∧ keeps wt (cancel_sub i wt).
Proof.
  intros H. unfold cancel_sub. destruct (wt_objs wt !! i) as [s|] eqn:Hi; [|by split; [|apply keeps_refl]].
  by eapply set_sub_good.
Qed.

Lemma subscribe_content p rev wt :
  content_ok wt → content_ok (subscribe p rev wt).2 ∧ keeps wt (subscribe p rev wt).2.
Proof.
  intros H. split.
  - intros i s [Hi|[_ Hi]]%lookup_app_Some; [eauto|]. apply list_lookup_singleton_Some in Hi as [_ <-]. by split.
  - intros i s Hi. exists s. split; [by apply lookup_app_l_Some|done].
Qed.

Lemma watch_step_content y y' :
  content_ok (sy_wt y) → watch_step y y' → content_ok (sy_wt y') ∧ keeps (sy_wt y) (sy_wt y').
Proof.
  intros H Hs. assert (content_ok (sy_wt y) ∧ keeps (sy_wt y) (sy_wt y)) as Hsame by (split; [done|apply keeps_refl]).
  destruct Hs.
  - by apply subscribe_content.
  - by apply replay_step_content.
  - unfold replay_done, sy_wt in *. cbn. destruct (wt_objs _ !! i) as [s|] eqn:Hi; [|done]. case_bool; [|done].
    destruct (sub_phase s) eqn:Hp; try done; (eapply set_sub_good; [done|done|done|by intros [? _]]).
  - unfold sentinel_timeout, sy_wt in *. cbn. destruct (wt_objs _ !! i) as [s|] eqn:Hi; [|done].
    destruct (sub_phase s) eqn:Hp; try done. case_bool; [done|].
    eapply set_sub_good; [done|done|done|by intros [? _]].
  - by apply cancel_sub_content.
  - by apply receive_content.
  - done.
  - by apply dispatch_micro_content.
  - done.
Qed.

End content.

(** ** What a stream sends *)

Definition resp_for (p : string) (r : WatchResponse) : Prop :=
  ∀ me, me ∈ wr_Events r → ∃ ev, me = toWatchEvent ev ∧ ev_for p ev.

(** A response carries no events, or events for the prefix of its watch. *)
Definition owned (s : stream) (r : WatchResponse) : Prop :=
  wr_Events r = [] ∨
  ∃ i l, st_loops s !! i = Some l ∧ lp_id l = wr_WatchId r ∧ resp_for (lp_prefix l) r.

(** A loop is subscribed to its own prefix and about to send its own events. *)
Definition loop_good (wt : Watcher) (l : loop) : Prop :=
  (∀ sub, lp_sub l = Some sub → ∃ s, wt_objs wt !! sub = Some s ∧ sub_prefix s = lp_prefix l) ∧
  match lp_phase l with
  | LSend r _ => wr_WatchId r = lp_id l ∧ resp_for (lp_prefix l) r
  | _ => True
  end.

Definition same_loop (l l' : loop) : Prop := lp_id l' = lp_id l ∧ lp_prefix l' = lp_prefix l.

Record deliver_ok (v : server) : Prop := mk_deliver_ok {
  do_content : content_ok (sy_wt (sv_y v));
  do_loops i l : st_loops (sv_st v) !! i = Some l → loop_good (sy_wt (sv_y v)) l;
  do_main : match st_main (sv_st v) with MSend r _ => wr_Events r = [] | _ => True end;
  do_out r : r ∈ st_sent (sv_st v) ++ st_respCh (sv_st v) → owned (sv_st v) r;
}.

Lemma loop_good_keeps wt wt' l : keeps wt wt' → loop_good wt l → loop_good wt' l.
Proof.
  intros Hk [Hs Hp]. split; [|done]. intros sub Hsub. destruct (Hs sub Hsub) as (s & Hl & E).
  destruct (Hk _ _ Hl) as (s' & ? & ?). exists s'. split; congruence.
Qed.

(** The loops of [s] are still there in [s']. *)
Definition loops_kept (s s' : stream) : Prop :=
  ∀ i l, st_loops s !! i = Some l → ∃ l', st_loops s' !! i = Some l' ∧ same_loop l l'.

Lemma owned_kept s s' r : loops_kept s s' → owned s r → owned s' r.
Proof.
  intros Hk [H|(i & l & Hl & Hid & Hr)]; [by left|]. destruct (Hk _ _ Hl) as (l' & Hl' & Hid' & Hp).
  right. exists i, l'. by rewrite Hid', Hp.
Qed.

Lemma deliver_frame v s' y' :
  deliver_ok v → content_ok (sy_wt y') → loops_kept (sv_st v) s' →
  (∀ i l, st_loops s' !! i = Some l → loop_good (sy_wt y') l) →
  match st_main s' with MSend r _ => wr_Events r = [] | _ => True end →
  (∀ r, r ∈ st_sent s' ++ st_respCh s' → r ∈ st_sent (sv_st v) ++ st_respCh (sv_st v) ∨ owned s' r) →
  deliver_ok (mk_server s' y').
Proof.
  intros [_ _ _ Ho] Hc Hk Hl Hm Hout. split; [done..|]. intros r [Hr|Hr]%Hout; [|done].
  eapply owned_kept; [done|]. by apply Ho.
Qed.

Lemma alter_kept i f s :
  (∀ l, st_loops s !! i = Some l → same_loop l (f l)) → loops_kept s (upd_loop i f s).
Proof.
  intros Hf j l Hl. cbn. destruct (decide (j = i)) as [->|Hne].
  - exists (f l). rewrite list_lookup_alter_eq, Hl. auto.
  - exists l. by rewrite list_lookup_alter_ne.
Qed.

Lemma deliver_upd i f v y' :
  deliver_ok v → content_ok (sy_wt y') → keeps (sy_wt (sv_y v)) (sy_wt y') →
  (∀ l, st_loops (sv_st v) !! i = Some l → same_loop l (f l) ∧ loop_good (sy_wt y') (f l)) →
  deliver_ok (mk_server (upd_loop i f (sv_st v)) y').
Proof.
  intros H Hc Hk Hf. eapply deliver_frame; [done|done| | |apply H|by left].
  - apply alter_kept. intros l Hl. by apply Hf.
  - cbn. intros j l [(-> & l0 & Hl0 & ->)|[_ Hj]]%lookup_alter_inv; [by apply Hf|].
    eapply loop_good_keeps; [done|]. by eapply do_loops.
Qed.

(** The loops and the store stay, or only flags of the loops change. *)
Lemma deliver_same v s' :
  deliver_ok v → st_loops s' = st_loops (sv_st v) →
  match st_main s' with MSend r _ => wr_Events r = [] | _ => True end →
  (∀ r, r ∈ st_sent s' ++ st_respCh s' → r ∈ st_sent (sv_st v) ++ st_respCh (sv_st v) ∨ owned s' r) →
  deliver_ok (mk_server s' (sv_y v)).
Proof.
  intros H E Hm Hout. eapply deliver_frame; [done|apply H| | |done|done]; rewrite ?E.
  - intros i l Hl. exists l. by rewrite E.
  - apply H.
Qed.

Lemma deliver_cancel_watch i v :
  deliver_ok v → deliver_ok (mk_server (upd_loop i lp_cancel_watch (sv_st v)) (sv_y v)).
Proof.
  intros H. apply deliver_upd; [done|apply H|apply keeps_refl|]. intros l Hl. split; [done|].
  exact (do_loops _ H _ _ Hl).
Qed.

Lemma deliver_close_watch id v : deliver_ok v → deliver_ok (mk_server (close_watch (sv_st v) id) (sv_y v)).
Proof.
  intros H. unfold close_watch. destruct (st_watches _ !! id) as [i|]; [|by destruct v].
  apply (deliver_cancel_watch i) in H as Hc. eapply (deliver_same _ _ Hc); [done|apply Hc|by left].
Qed.

Lemma deliver_drain v : deliver_ok v → deliver_ok (mk_server (drainCancelled (sv_st v)) (sv_y v)).
Proof.
  intros H. unfold drainCancelled.
  assert (deliver_ok (mk_server (foldl close_watch (sv_st v) (st_cancelledCh (sv_st v))) (sv_y v))) as Hf.
  { generalize (st_cancelledCh (sv_st v)) as ids. intros ids. revert v H. induction ids as [|id ids IH]; intros v H; [by destruct v|].
    apply (deliver_close_watch id) in H. by apply (IH (mk_server _ _)) in H. }
  eapply (deliver_same _ _ Hf); [done|apply Hf|by left].
Qed.

Lemma deliver_finish code e v : deliver_ok v → deliver_ok (mk_server (main_finish code e (sv_st v)) (sv_y v)).
Proof.
  intros H. unfold main_finish.
  assert (deliver_ok (mk_server (cancel_all (sv_st v)) (sv_y v))) as Hc.
  { unfold cancel_all. induction (map_to_list (st_watches (sv_st v))).*2 as [|i idxs IH]; [by destruct v|].
    cbn. by apply (deliver_cancel_watch i) in IH. }
  eapply (deliver_same _ _ Hc); [done|done|by left].
Qed.

Lemma deliver_push r v :
  deliver_ok v → owned (sv_st v) r → deliver_ok (mk_server (push_resp r (sv_st v)) (sv_y v)).
Proof.
  intros H Hr. eapply deliver_same; [done|done|apply H|]. cbn. intros x. rewrite app_assoc.
  intros [?|Hx%list_elem_of_singleton]%elem_of_app; [by left|right]. by subst.
Qed.

(** A context is cancelled: only flags change. *)
Lemma deliver_loop_cancel i l v :
  deliver_ok v → deliver_ok (loop_cancel i l v).
Proof.
  intros H. unfold loop_cancel.
  assert (∀ y', content_ok (sy_wt y') → keeps (sy_wt (sv_y v)) (sy_wt y') →
    deliver_ok (mk_server (upd_loop i lp_cancel (sv_st v)) y')) as Hy.
  { intros y' Hc Hk. apply deliver_upd; [done..|]. intros l' Hl. split; [done|].
    eapply (loop_good_keeps _ _ l'); [done|]. by eapply do_loops. }
  destruct (lp_sub l) as [sub|]; apply Hy; try apply H; [..|apply keeps_refl];
    destruct (cancel_sub_content sub (sy_wt (sv_y v)) (do_content _ H)); done.
Qed.

Lemma deliver_phase i p v :
  deliver_ok v → (∀ l, st_loops (sv_st v) !! i = Some l → loop_good (sy_wt (sv_y v)) (lp_set_phase p l)) →
  deliver_ok (mk_server (upd_loop i (lp_set_phase p) (sv_st v)) (sv_y v)).
Proof. intros H Hp. apply deliver_upd; [done|apply H|apply keeps_refl|]. intros l Hl. split; [done|auto]. Qed.

Lemma loop_good_phase wt l p :
  loop_good wt l → match p with LSend _ _ => False | _ => True end → loop_good wt (lp_set_phase p l).
Proof. intros [Hs _] Hp. split; [done|]. by destruct p. Qed.

Lemma deliver_return i l v : deliver_ok v → deliver_ok (loop_return i l v).
Proof.
  intros H. apply (deliver_loop_cancel i l) in H. unfold loop_return, sv_map. apply deliver_phase; [done|].
  intros l' Hl'. apply loop_good_phase; [|done]. by eapply do_loops.
Qed.

Lemma deliver_create key rangeEnd startRev v :
  deliver_ok v → deliver_ok (mk_server (main_create key rangeEnd startRev (sv_st v)) (sv_y v)).
Proof.
  intros H. eapply deliver_frame; [done|apply H| | |done|by left]; cbn.
  - intros i l Hl. exists l. split; [by apply lookup_app_l_Some|done].
  - intros i l [Hl|[_ Hl]]%lookup_app_Some; [by eapply do_loops|].
    by apply list_lookup_singleton_Some in Hl as [_ <-].
Qed.

Lemma resp_for_events id p events : Forall (ev_for p) events → resp_for p (events_response id events).
Proof.
  intros H me Hme. cbn in Hme. apply list_elem_of_fmap in Hme as (ev & -> & Hev).
  exists ev. split; [done|]. rewrite Forall_forall in H. auto.
Qed.

(** What a consumer receives is what the channel held. *)
Lemma receive_head i wt s events wt' :
  receive i wt = (Some events, wt') → wt_objs wt !! i = Some s → ∃ ch, sub_ch s = events :: ch.
Proof.
  unfold receive. intros H Hs. rewrite Hs in H. destruct (sub_ch s) as [|b ch]; [done|]. injection H as <- _. eauto.
Qed.

Section delivery.
Context `{SP : Spanner} (status_Code : error → code).

Lemma deliver_request v : deliver_ok v → deliver_ok (sv_map (main_request status_Code) v).
Proof.
  intros H. unfold sv_map, main_request. destruct (st_main (sv_st v)) eqn:Hm; try (by destruct v).
  destruct (st_reqCh (sv_st v)) as [|rr rest]; [by destruct v|].
  assert (deliver_ok (mk_server (set_reqCh rest (sv_st v)) (sv_y v))) as Hr
    by (apply deliver_same; [done|done|apply H|by left]).
  destruct rr as [req| |e].
  - apply deliver_drain in Hr. destruct req as [key rangeEnd startRev|id|]; [by apply (deliver_create key rangeEnd startRev) in Hr| |done].
    apply (deliver_close_watch id) in Hr. eapply (deliver_same _ _ Hr); [done|done|by left].
  - by apply (deliver_finish status_Code None) in Hr.
  - case_bool; [by apply (deliver_finish status_Code None) in Hr|].
    eapply (deliver_same _ _ Hr); [done|done|by left].
Qed.

Lemma deliver_main_send v : deliver_ok v → deliver_ok (sv_map main_send v).
Proof.
  intros H. unfold sv_map, main_send. destruct (st_main (sv_st v)) as [|r start|] eqn:Hm; try (by destruct v).
  case_bool; [|by destruct v]. pose proof (do_main _ H) as Hr. rewrite Hm in Hr.
  assert (deliver_ok (mk_server (set_main MLoop (push_resp r (sv_st v))) (sv_y v))) as Hok.
  { apply (deliver_push r) in H; [|by left]. eapply (deliver_same _ _ H); [done|done|by left]. }
  destruct start as [i|]; [|done]. apply (deliver_phase i LNew) in Hok; [done|].
  intros l Hl. apply loop_good_phase; [|done]. exact (do_loops _ Hok _ _ Hl).
Qed.

Lemma deliver_sender e v : deliver_ok v → deliver_ok (sv_map (sender_send e) v).
Proof.
  intros H. unfold sv_map, sender_send. destruct (st_sender _); [|by destruct v].
  destruct (st_respCh (sv_st v)) as [|r rest] eqn:Hr; [by destruct v|].
  destruct e; apply deliver_same; try done; try apply H; cbn; rewrite Hr; intros x Hx; left.
  - apply elem_of_app in Hx as [?|?]; apply elem_of_app; [by left|right; by right].
  - by rewrite <-app_assoc in Hx.
Qed.

Lemma deliver_start i v : deliver_ok v → deliver_ok (loop_start i v).
Proof.
  intros H. unfold loop_start. destruct (st_loops (sv_st v) !! i) as [l|] eqn:Hl; [|done].
  destruct (lp_phase l) eqn:Hp; try done.
  destruct (subscribe_content (lp_prefix l) (lp_startRev l) _ (do_content _ H)) as [Hc Hk].
  pose proof (subscribe_content (lp_prefix l) (lp_startRev l)) as _.
  set (wt := (subscribe (lp_prefix l) (lp_startRev l) (sy_wt (sv_y v))).2) in *.
  change (subscribe (lp_prefix l) (lp_startRev l) (sy_wt (sv_y v))) with (length (wt_objs (sy_wt (sv_y v))), wt).
  cbn zeta. set (sub := length (wt_objs (sy_wt (sv_y v)))).
  assert (wt_objs wt !! sub = Some (mk_subscriber (lp_prefix l) [] false false (PStart (lp_startRev l)))) as Hsub
    by (by apply list_lookup_middle).
  destruct (cancel_sub_content sub wt Hc) as [Hc' Hk'].
  apply deliver_upd; [done|..].
  - unfold with_wt, sy_wt. cbn. by case_bool.
  - unfold with_wt, sy_wt. cbn. case_bool; [by eapply keeps_trans|done].
  - intros l' Hl'. simplify_eq. split; [done|]. split; [|done]. cbn. intros sub' [= <-]. unfold with_wt, sy_wt. cbn.
    case_bool; [|by eexists]. by destruct (Hk' _ _ Hsub) as (s' & ? & ?); exists s'.
Qed.

Lemma deliver_event i v : deliver_ok v → deliver_ok (loop_event i v).
Proof.
  intros H. unfold loop_event. destruct (st_loops (sv_st v) !! i) as [l|] eqn:Hl; [|done].
  destruct (lp_phase l) eqn:Hp; try done. destruct (lp_sub l) as [sub|] eqn:Hsub; [|done].
  destruct (receive _ _) as [[events|] wt] eqn:Hr; [|done].
  destruct (receive_content sub _ (do_content _ H)) as [Hc Hk]. rewrite Hr in Hc, Hk. cbn [snd] in Hc, Hk.
  pose proof (do_loops _ H _ _ Hl) as Hg.
  destruct events as [|e es].
  - destruct (compactRevision _). apply deliver_upd; [done..|]. intros l' Hl'. simplify_eq. split; [done|].
    split; [apply (loop_good_keeps _ _ _ Hk Hg)|]. split; [done|]. intros me Hme. by apply elem_of_nil in Hme.
  - apply deliver_upd; [done..|]. intros l' Hl'. simplify_eq. split; [done|].
    split; [apply (loop_good_keeps _ _ _ Hk Hg)|]. split; [done|]. apply resp_for_events.
    destruct Hg as [Hg _]. destruct (Hg _ Hsub) as (s & Hs & E).
    destruct (receive_head _ _ _ _ _ Hr Hs) as (ch & Hch).
    destruct (do_content _ H _ _ Hs) as [Hf _]. rewrite Hch, E in Hf. by apply Forall_cons in Hf as [? _].
Qed.

Lemma deliver_tick i v : deliver_ok v → deliver_ok (loop_tick i v).
Proof.
  intros H. unfold loop_tick. destruct (st_loops (sv_st v) !! i) as [l|] eqn:Hl; [|done].
  destruct (lp_phase l) eqn:Hp; try done. destruct (CurrentRevision _).
  apply deliver_upd; [done|apply H|apply keeps_refl|]. intros l' Hl'. simplify_eq. split; [done|].
  split; [apply (do_loops _ H _ _ Hl)|]. split; [done|]. intros me Hme. by apply elem_of_nil in Hme.
Qed.

Lemma deliver_loop_send i v : deliver_ok v → deliver_ok (loop_send i v).
Proof.
  intros H. unfold loop_send. destruct (st_loops (sv_st v) !! i) as [l|] eqn:Hl; [|done].
  destruct (lp_phase l) as [| | |r last| |] eqn:Hp; try done. case_bool; [|done]. unfold sv_map.
  pose proof (do_loops _ H _ _ Hl) as Hg. pose proof (proj2 Hg) as Hr. rewrite Hp in Hr. destruct Hr as [Hid Hr].
  apply (deliver_push r) in H as Hok; [|right; by exists i, l].
  apply (deliver_phase i (if last then LNotify else LSelect)) in Hok; [done|].
  intros l' Hl'. cbn in Hl'. simplify_eq. apply loop_good_phase; [done|]. by destruct last.
Qed.

Lemma deliver_step v v' : deliver_ok v → serve_step status_Code v v' → deliver_ok v'.
Proof.
  intros H [v1 Hs|y Hy]; [destruct Hs|].
  - unfold sv_map, main_ctx_done. case_bool; [|by destruct v].
    destruct (st_main _); try (by destruct v); by apply deliver_finish.
  - unfold sv_map, main_send_error. destruct (st_sendErrCh _) as [e|]; [|by destruct v].
    assert (deliver_ok (mk_server (set_sendErrCh None (sv_st v)) (sv_y v))) as Hs
      by (apply deliver_same; [done|done|apply H|by left]).
    apply (deliver_finish status_Code (Some e)) in Hs. destruct (st_main _); [done..|by destruct v].
  - unfold sv_map, main_cancelled. destruct (st_main _) eqn:Hm; try (by destruct v).
    destruct (st_cancelledCh _) as [|id rest]; [by destruct v|].
    assert (deliver_ok (mk_server (set_cancelledCh rest (sv_st v)) (sv_y v))) as Hs
      by (apply deliver_same; [done|done|apply H|by left]).
    by apply (deliver_close_watch id) in Hs.
  - by apply deliver_request.
  - by apply deliver_main_send.
  - by apply deliver_sender.
  - apply deliver_same; [done|done|apply H|by left].
  - unfold sv_map, receiver_recv. destruct (st_receiver _); [|by destruct v]. destruct (st_reqCh _); [|by destruct v].
    apply deliver_same; [done|done|apply H|by left].
  - apply deliver_same; [done|done|apply H|by left].
  - by apply deliver_start.
  - by apply deliver_event.
  - by apply deliver_tick.
  - by apply deliver_loop_send.
  - unfold loop_ctx_done. destruct (st_loops _ !! i) as [l|] eqn:Hl; [|done]. case_bool; [|done].
    destruct (lp_phase l) as [| | |r [|]| |]; try done; try (by apply deliver_return).
    unfold sv_map. apply deliver_phase; [done|]. intros l' Hl'. apply loop_good_phase; [|done]. by eapply do_loops.
  - unfold loop_notify. destruct (st_loops _ !! i) as [l|] eqn:Hl; [|done]. destruct (lp_phase l); try done.
    apply deliver_return. unfold sv_map. case_bool; [|by destruct v]. apply deliver_same; [done|done|apply H|by left].
  - unfold forward_watchCtx, sv_map. case_bool; [|by destruct v]. by apply deliver_cancel_watch.
  - unfold forward_ctx. destruct (st_loops _ !! i) as [l|]; [|done]. case_bool; [|done]. by apply deliver_loop_cancel.
  - destruct (watch_step_content _ _ (do_content _ H) Hy) as [Hc Hk].
    eapply deliver_frame; [done|done|..|apply H|by left].
    + intros i l Hl. by exists l.
    + intros i l Hl. eapply loop_good_keeps; [done|]. by eapply do_loops.
Qed.

(** C12: every event a client is sent on a watch belongs to it: in every
    interleaving, the events of a response are events of the store whose key
    matches the prefix that the watch of that id subscribed to. *)
Theorem watch_events_belong y v r me :
  content_ok (sy_wt y) → rtc (serve_step status_Code) (serve_init y) v →
  r ∈ st_sent (sv_st v) → me ∈ wr_Events r →
  ∃ i l ev, st_loops (sv_st v) !! i = Some l ∧ lp_id l = wr_WatchId r ∧
            me = toWatchEvent ev ∧ ev_for (lp_prefix l) ev.
Proof.
  intros Hc Hrun Hr Hme.
  assert (deliver_ok v) as Hd.
  { assert (deliver_ok (serve_init y)) as H0
      by (split; [done|by intros i l ?|done|by intros x ?%elem_of_nil]).
    clear Hr Hme. induction Hrun as [|v1 v2 v3 Hs _ IH]; [done|]. apply IH. by eapply deliver_step. }
  destruct (do_out _ Hd r) as [E|(i & l & Hl & Hid & Hf)]; [apply elem_of_app; by left| |].
  - rewrite E in Hme. by apply elem_of_nil in Hme.
  - destruct (Hf me Hme) as (ev & -> & Hev). by exists i, l, ev.
Qed.

End delivery.

(** ** Progress *)

Section progress.
Context `{SP : Spanner} (status_Code : error → code).

(** The sending goroutine empties the channel. *)
Lemma sender_drains v :
  st_sender (sv_st v) = true →
  ∃ s', rtc (serve_step status_Code) v (mk_server s' (sv_y v)) ∧
    st_sender s' = true ∧ st_respCh s' = [] ∧ st_loops s' = st_loops (sv_st v) ∧
    st_sent s' = st_sent (sv_st v) ++ st_respCh (sv_st v).
Proof.
  remember (st_respCh (sv_st v)) as q eqn:Hq. revert v Hq. induction q as [|r q IH]; intros v Hq Hs.
  - exists (sv_st v). destruct v. rewrite app_nil_r. by split_and!; [apply rtc_refl|..].
  - set (v1 := sv_map (sender_send None) v).
    assert (st_sent (sv_st v1) = st_sent (sv_st v) ++ [r] ∧ q = st_respCh (sv_st v1) ∧ st_sender (sv_st v1) = true ∧
            st_loops (sv_st v1) = st_loops (sv_st v)) as (E1 & E2 & E3 & E4).
    { unfold v1, sv_map, sender_send. cbn. by rewrite Hs, <-Hq. }
    destruct (IH v1 E2 E3) as (s' & Hrun & H1 & H2 & H3 & H4). exists s'. split_and!; [|done|done|congruence|].
    + eapply rtc_l; [apply serve_own, (serve_sender status_Code v None)|exact Hrun].
    + by rewrite H4, E1, <-app_assoc.
Qed.

(** C22: the goroutines of a stream never block each other: whatever the handler and
    the other watches are waiting for, as long as the sending goroutine runs, a
    batch in the channel of a subscribed watch can be delivered: some finite
    sequence of actions sends the client everything that was queued and then the
    events of the batch. *)
Theorem watch_can_deliver v i l sub s b ch :
  st_sender (sv_st v) = true → st_loops (sv_st v) !! i = Some l →
  lp_phase l = LSelect → lp_sub l = Some sub →
  wt_objs (sy_wt (sv_y v)) !! sub = Some s → sub_ch s = b :: ch → b ≠ [] →
  ∃ v', rtc (serve_step status_Code) v v' ∧
    st_sent (sv_st v') = st_sent (sv_st v) ++ st_respCh (sv_st v) ++ [events_response (lp_id l) b].
Proof.
  intros Hs Hl Hp Hsub Ho Hch Hb. destruct (sender_drains v Hs) as (s1 & Hrun & E1 & E2 & E3 & E4).
  set (v1 := mk_server s1 (sv_y v)) in *. rewrite <-E3 in Hl.
  assert (∃ y2, loop_event i v1 = mk_server (upd_loop i (lp_set_phase (LSend (events_response (lp_id l) b) false)) s1) y2)
    as (y2 & H2).
  { unfold loop_event. cbn [v1 sv_st sv_y]. rewrite Hl, Hp, Hsub. unfold receive. rewrite Ho, Hch. destruct b; [done|]. eauto. }
  set (s2 := upd_loop _ _ s1) in *. set (l2 := lp_set_phase (LSend (events_response (lp_id l) b) false) l).
  assert (st_loops s2 !! i = Some l2) as Hl2 by (cbn; by rewrite list_lookup_alter_eq, Hl).
  set (s3 := upd_loop i (lp_set_phase LSelect) (push_resp (events_response (lp_id l) b) s2)).
  assert (loop_send i (mk_server s2 y2) = mk_server s3 y2) as H3.
  { unfold loop_send. cbn [sv_st]. rewrite Hl2. cbn [l2 lp_set_phase lp_phase].
    assert (resp_room s2 = true) as -> by (unfold resp_room; cbn; by rewrite E2). done. }
  exists (sv_map (sender_send None) (mk_server s3 y2)). split.
  - etrans; [exact Hrun|]. eapply rtc_l; [apply serve_own, (serve_loop_event status_Code v1 i)|]. rewrite H2.
    eapply rtc_l; [apply serve_own, (serve_loop_send status_Code _ i)|]. rewrite H3.
    eapply rtc_l; [apply serve_own, (serve_sender status_Code _ None)|]. apply rtc_refl.
  - unfold sv_map, sender_send. cbn. rewrite E1, E2. cbn. by rewrite E4, app_assoc.
Qed.

End progress.

(** ** A concrete stream *)

Definition code0 (e : error) : code := Unknown.

(** A client creates a watch of "k"; its loop subscribes. *)
Definition ws_open : server :=
  let v := serve_init (watch_init run2) in
  let v := sv_map (receiver_recv (RecvReq (CreateRequest "k" "" 0))) v in
  let v := sv_map (main_request code0) v in
  let v := sv_map main_send v in
  loop_start 0 v.

(** An event of "k" is dispatched to it. *)
Definition ws_ready : server :=
  mk_server (sv_st ws_open)
    (mk_wsystem (mk_wworld run2 (dispatchEvents [event_of k_row] (sy_wt (sv_y ws_open))))
                [mk_dispatcher [event_of k_row] [] None]).

Definition ws_sent : server :=
  let v := loop_send 0 (loop_event (SP := solo) 0 ws_ready) in
  sv_map (sender_send None) (sv_map (sender_send None) v).

Lemma ws_open_run : rtc (serve_step (SP := solo) code0) (serve_init (watch_init run2)) ws_open.
Proof.
  unfold ws_open. cbv zeta. eapply rtc_r; [|apply serve_own, serve_loop_start]. eapply rtc_r; [|apply serve_own, serve_main_send].
  eapply rtc_r; [|apply serve_own, serve_main_request]. eapply rtc_r; [|apply serve_own, serve_receiver]. apply rtc_refl.
Qed.

Lemma ws_ready_run : rtc (serve_step (SP := solo) code0) ws_open ws_ready.
Proof.
  eapply rtc_l; [exact (serve_store code0 _ _ (step_start _ [event_of k_row]))|].
  eapply rtc_l; [apply (serve_store code0), (step_dispatch _ 0); reflexivity|].
  eapply rtc_l; [apply (serve_store code0), (step_dispatch _ 0); reflexivity|].
  apply rtc_refl.
Qed.

Lemma ws_sent_run : rtc (serve_step (SP := solo) code0) (serve_init (watch_init run2)) ws_sent.
Proof.
  transitivity ws_open; [exact ws_open_run|]. transitivity ws_ready; [exact ws_ready_run|].
  unfold ws_sent. cbv zeta. do 2 (eapply rtc_r; [|apply serve_own, serve_sender]). eapply rtc_r; [|apply serve_own, serve_loop_send].
  eapply rtc_r; [|apply serve_own, serve_loop_event]. apply rtc_refl.
Qed.

Lemma watch_stream_protocol_witness :
  st_sent (sv_st ws_sent) = [created_response 0; events_response 0 [event_of k_row]] ∧
  wr_WatchId (events_response 0 [event_of k_row]) ∈ created_ids [created_response 0].
Proof.
  assert (st_sent (sv_st ws_sent) = [created_response 0; events_response 0 [event_of k_row]]) as E
    by (vm_compute; reflexivity).
  split; [exact E|].
  destruct (@watch_stream_protocol solo code0 (watch_init run2) ws_sent ws_sent_run) as (_ & _ & _ & H).
  { reflexivity. }
  apply (H [created_response 0] (events_response 0 [event_of k_row]) []); [exact E|]. split; reflexivity.
Defined.

Lemma watch_events_belong_witness :
  ∃ i l ev, st_loops (sv_st ws_sent) !! i = Some l ∧ lp_id l = 0 ∧
    toWatchEvent (event_of k_row) = toWatchEvent ev ∧ ev_for (lp_prefix l) ev.
Proof.
  assert (st_sent (sv_st ws_sent) = [created_response 0; events_response 0 [event_of k_row]]) as E
    by (vm_compute; reflexivity).
  apply (@watch_events_belong solo code0 (watch_init run2) ws_sent (events_response 0 [event_of k_row])
           (toWatchEvent (event_of k_row))).
  - intros i s Hs. discriminate Hs.
  - exact ws_sent_run.
  - rewrite E. right. left.
  - left.
Defined.

Lemma watch_can_deliver_witness :
  ∃ v', rtc (serve_step (SP := solo) code0) ws_ready v' ∧
    st_sent (sv_st v') = [] ++ [created_response 0] ++ [events_response 0 [event_of k_row]].
Proof.
  apply (@watch_can_deliver solo code0 ws_ready 0 (mk_loop 0 "k" 0 (Some 0%nat) false false LSelect) 0
           (mk_subscriber "k" [[event_of k_row]] false false (PStart 0)) [event_of k_row] []);
    try reflexivity.
  discriminate.
Defined.

(** ** Cancelling *)

(** A client that cancels a watch can still be sent events of it after the response
    that says it is cancelled: the loop had received a batch before its context
    was cancelled. *)
Theorem events_after_cancel :
  ∃ v, rtc (serve_step (SP := solo) code0) (serve_init (watch_init run2)) v ∧
    st_sent (sv_st v) = [created_response 0; canceled_response 0 0; events_response 0 [event_of k_row]].
Proof.
  eexists. split.
  - transitivity ws_open; [exact ws_open_run|]. transitivity ws_ready; [exact ws_ready_run|].
    eapply rtc_l; [exact (serve_own code0 _ _ (serve_loop_event code0 _ 0))|].
    eapply rtc_l; [exact (serve_own code0 _ _ (serve_receiver code0 _ (RecvReq (CancelRequest 0))))|].
    eapply rtc_l; [exact (serve_own code0 _ _ (serve_main_request code0 _))|].
    eapply rtc_l; [exact (serve_own code0 _ _ (serve_main_send code0 _))|].
    eapply rtc_l; [exact (serve_own code0 _ _ (serve_loop_send code0 _ 0))|].
    do 3 (eapply rtc_l; [exact (serve_own code0 _ _ (serve_sender code0 _ None))|]). apply rtc_refl.
  - vm_compute. reflexivity.
Qed.
