(* ===== verification/WatchReplay.v ===== *)
(** * Replaying history to a watch

    [feed] alternates the goroutine of a subscription with its consumer.  In a
    store nobody writes to, it ends with the whole history delivered, page by
    page, provided the start is not compacted and no two rows of the prefix share a
    revision; when rows of one
    transaction straddle a page boundary, the rest of them is skipped. *)

From Stdlib Require Import Ascii String.
From S2P Require Import Prelude Go Spanner Rows Invariant Sim StoreRead StoreWrite Reads StoreCompact StoreInvariant Watcher WatchProps.

Open Scope string_scope.
Open Scope list_scope.
Open Scope Z_scope.

(** The rows a replay from after [rev] is to deliver. *)
Definition wanted (p : string) (rev : Z) (db : database) : list kv_row :=
  filter (λ r, HasPrefix (r_key r) p = true ∧ rev < r_rev r) (kv db).

(** No two rows of the prefix have the same revision. *)
Definition distinct_revs (p : string) (db : database) : Prop :=
  ∀ x y, x ∈ kv db → y ∈ kv db → HasPrefix (r_key x) p = true → HasPrefix (r_key y) p = true →
    r_rev x = r_rev y → x = y.

Section replay.
Context `{SP : Spanner} `{!SpannerLaws SP}.

(** One action of the goroutine of subscriber [i], then the consumer takes a batch
    if there is one. *)
Definition feed (i : nat) (p : list Event * wworld) : list Event * wworld :=
  let v := replay_step i p.2 in
  match receive i (vs_watcher v) with
  | (Some b, wt) => (p.1 ++ b, mk_wworld (vs_store v) wt)
  | (None, _) => (p.1, v)
  end.

(** *** The store during a replay *)

Lemma After_world p rev limit w :
  world_wf w → clock_ok 2 w → quiet w →
  let w' := (After p rev limit w).2 in
  w_db w' = w_db w ∧ world_wf w' ∧ quiet w' ∧ (w_rpc w' ≤ w_rpc w + 3)%nat.
Proof using All.
  intros Hw Hc Hq. cbn zeta. pose proof (quiet_seen _ Hq) as E0. pose proof (quiet_seen_next _ Hq) as E1.
  pose proof (quiet_seen_next2 _ Hq) as E2. rewrite After_ok by (done || by apply quiet_calls_ok). cbn zeta.
  assert (clock_ok 0 (next w)) as Hc1 by (eapply clock_ok_later; [exact Hc|cbn; lia]).
  assert (clock_ok 0 (next (next w))) as Hc2 by (eapply clock_ok_later; [exact Hc|cbn; lia]).
  assert (∀ k, sp_fate (w_rpc w + k) = FOk) as Hf by (intros k; apply Hq; lia).
  case_bool; [case_bool|]; rewrite ?after_at_ok; cbn [snd]; try (by apply next_wf); try (by apply next_wf, next_wf);
    try done; try (cbn; rewrite ?E0, ?E1, ?E2).
  - split_and!; [by rewrite <-E1|by apply next_wf, next_wf|by do 2 apply quiet_set_db|cbn; lia].
  - split_and!; [by rewrite <-E2|by do 3 apply next_wf|by do 3 apply quiet_set_db|cbn; lia].
  - specialize (Hf 2%nat). by replace (w_rpc w + 2)%nat with (S (S (w_rpc w))) in Hf by lia.
  - split_and!; [by rewrite <-E1|by apply next_wf, next_wf|by do 2 apply quiet_set_db|cbn; lia].
  - specialize (Hf 1%nat). by replace (w_rpc w + 1)%nat with (S (w_rpc w)) in Hf by lia.
Qed.

(** *** Pages *)

Lemma wanted_elem p rev db r :
  r ∈ wanted p rev db ↔ r ∈ kv db ∧ HasPrefix (r_key r) p = true ∧ rev < r_rev r.
Proof. unfold wanted. rewrite list_elem_of_filter. naive_solver. Qed.

Lemma wanted_NoDup T p rev db : db_wf T db → NoDup (wanted p rev db).
Proof. intros Hwf. apply NoDup_filter. eapply NoDup_fmap_1, (wf_ids _ _ Hwf). Qed.

Lemma wanted_shorter T p rev rev' db r :
  db_wf T db → r ∈ wanted p rev db → rev < rev' → r_rev r ≤ rev' →
  (length (wanted p rev' db) < length (wanted p rev db))%nat.
Proof.
  intros Hwf Hr Hlt Hle.
  assert (r :: wanted p rev' db ⊆+ wanted p rev db) as Hs%submseteq_length; [|cbn in Hs; lia].
  apply NoDup_submseteq.
  - apply NoDup_cons. split; [|by eapply wanted_NoDup]. rewrite wanted_elem. lia.
  - intros x [->|Hx]%elem_of_cons; [done|]. apply wanted_elem in Hx as (? & ? & ?). apply wanted_elem. split_and!; [done|done|lia].
Qed.

(** What the query of the replay goroutine finds. *)
Lemma replay_query p rev w :
  world_wf w → clock_ok 2 w → quiet w → wildcard_free p = true → compact_rev (w_db w) ≤ Z.max 1 rev →
  ∃ cur all, (After p rev pollBatchSize w).1 = (cur, Ok (event_of <$> take 500 all)) ∧
    StronglySorted (λ a b, r_rev a ≤ r_rev b) all ∧ NoDup all ∧ ∀ x, x ∈ all ↔ x ∈ wanted p rev (w_db w).
Proof using All.
  intros Hw Hc Hq Hp Hcr. pose proof (After_quiet p rev pollBatchSize w Hw Hc Hq Hp) as H. cbn zeta in H.
  assert ((0 <? rev) && (rev <? compact_rev (w_db w)) = false) as E.
  { apply andb_false_iff. rewrite !Z.ltb_ge. lia. }
  rewrite E in H. destruct H as (all & HA & Hs & Hnd & Hin). rewrite event_of_eq in HA.
  exists (current_rev (kv (w_db w))), all. split_and!; [exact HA|done|done|].
  intros x. by rewrite Hin, wanted_elem.
Qed.

Lemma sorted_last (all : list kv_row) n r :
  StronglySorted (λ a b, r_rev a ≤ r_rev b) all → last (take n all) = Some r →
  (∀ x, x ∈ take n all → r_rev x ≤ r_rev r) ∧ (∀ x, x ∈ drop n all → r_rev r ≤ r_rev x).
Proof.
  intros Hs Hl. rewrite <-(take_drop n all) in Hs. apply StronglySorted_app in Hs as (Hx & Ht & _).
  apply last_Some in Hl as (l' & E). rewrite E in *. split.
  - intros x [Hin| ->%list_elem_of_singleton]%elem_of_app; [|done].
    apply StronglySorted_app in Ht as (Hy & _ & _). apply Hy; [done|by apply list_elem_of_singleton].
  - intros x Hin. apply Hx; [|done]. apply elem_of_app. right. by apply list_elem_of_singleton.
Qed.

(** The rows of one page and of the pages after it are the rows wanted. *)
Lemma page_complete p rev db all r rows :
  distinct_revs p db → StronglySorted (λ a b, r_rev a ≤ r_rev b) all →
  (∀ x, x ∈ all ↔ x ∈ wanted p rev db) → last (take 500 all) = Some r →
  NoDup all → NoDup rows →
  StronglySorted (λ a b, r_rev a ≤ r_rev b) rows → (∀ x, x ∈ rows ↔ x ∈ wanted p (r_rev r) db) →
  StronglySorted (λ a b, r_rev a ≤ r_rev b) (take 500 all ++ rows) ∧ NoDup (take 500 all ++ rows) ∧
  ∀ x, x ∈ take 500 all ++ rows ↔ x ∈ wanted p rev db.
Proof.
  intros Hd Hs Hin Hl Hnd Hrnd Hrs Hrin. destruct (sorted_last _ _ _ Hs Hl) as [Hle Hge].
  assert (r ∈ take 500 all) as Hr by (apply last_Some in Hl as (l' & ->); apply elem_of_app; right; by apply list_elem_of_singleton).
  assert (∀ x, x ∈ take 500 all → x ∈ all) as Htake by (intros x; rewrite <-(take_drop 500 all) at 2; rewrite elem_of_app; auto).
  split_and!.
  - apply StronglySorted_app. split_and!; [|by apply StronglySorted_take|done].
    intros x y Hx%Hle (_ & _ & ?)%Hrin%wanted_elem. lia.
  - apply NoDup_app. split_and!; [by apply (sublist_NoDup _ all); [|apply sublist_take]| |done].
    intros x Hx%Hle (_ & _ & ?)%Hrin%wanted_elem. lia.
  - intros x. rewrite elem_of_app. split.
    + intros [Hx%Htake%Hin|Hx]; [done|]. apply Hrin, wanted_elem in Hx as (? & ? & ?).
      apply Htake, Hin, wanted_elem in Hr as (_ & _ & ?). apply wanted_elem. split_and!; [done|done|lia].
    + intros Hx. apply Hin in Hx as Hall. rewrite <-(take_drop 500 all), elem_of_app in Hall.
      destruct Hall as [?|Hdrop]; [by left|]. destruct (decide (r_rev r < r_rev x)) as [?|Hn].
      * right. apply Hrin, wanted_elem. by apply wanted_elem in Hx as (? & ? & _).
      * left. apply Hge in Hdrop. apply wanted_elem in Hx as (Hx1 & Hx2 & _).
        pose proof (proj1 (wanted_elem _ _ _ _) (proj1 (Hin _) (Htake _ Hr))) as (Hr1 & Hr2 & _).
        assert (x = r) as E by (apply Hd; [done|done|done|done|lia]). by rewrite E.
Qed.

(** *** The goroutine and its consumer *)

(** Subscriber [i] with an empty channel in phase [ph]. *)
Definition idle_sub (i : nat) (p : string) (ph : phase) (wt : Watcher) : Prop :=
  ∃ s, wt_objs wt !! i = Some s ∧ sub_prefix s = p ∧ sub_ch s = [] ∧ sub_phase s = ph.

Lemma feed_phase i p ph ph' w w' wt acc :
  idle_sub i p ph wt →
  (∀ s, wt_objs wt !! i = Some s → sub_phase s = ph →
    replay_step i (mk_wworld w wt) = mk_wworld w' (set_sub i (set_phase ph' s) wt)) →
  ∃ wt', feed i (acc, mk_wworld w wt) = (acc, mk_wworld w' wt') ∧ idle_sub i p ph' wt'.
Proof.
  intros (s & Hi & Hp & Hch & Hph) H. specialize (H s Hi Hph).
  exists (set_sub i (set_phase ph' s) wt). unfold feed. cbn [snd fst]. rewrite H. cbn [vs_watcher].
  assert (wt_objs (set_sub i (set_phase ph' s) wt) !! i = Some (set_phase ph' s)) as Hi'
    by (cbn; apply list_lookup_insert_eq; by eapply lookup_lt_Some).
  unfold receive. rewrite Hi'. cbn [set_phase sub_ch]. rewrite Hch. split; [done|]. by exists (set_phase ph' s).
Qed.

(** A page is queued and received. *)
Lemma feed_send i p events rev more w wt acc :
  idle_sub i p (PSend events rev more) wt →
  ∃ wt', feed i (acc, mk_wworld w wt) = (acc ++ events, mk_wworld w wt') ∧
         idle_sub i p (if more then PReplay rev else PWait) wt'.
Proof.
  intros (s & Hi & Hp & Hch & Hph). unfold feed. cbn [snd fst]. unfold replay_step. rewrite Hi, Hph.
  assert (room s = true) as -> by (unfold room; by rewrite Hch). cbn [vs_watcher].
  set (s' := set_phase _ _).
  assert (wt_objs (set_sub i s' wt) !! i = Some s') as Hi'
    by (cbn; apply list_lookup_insert_eq; by eapply lookup_lt_Some).
  unfold receive. rewrite Hi'. subst s'. cbn [set_phase enqueue sub_ch]. rewrite Hch. cbn [app vs_store].
  eexists. split; [done|]. eexists. split; [cbn; apply list_lookup_insert_eq; rewrite length_insert; by eapply lookup_lt_Some|].
  done.
Qed.

Lemma feed_query i p rev w wt acc cur events :
  idle_sub i p (PReplay rev) wt → (After p rev pollBatchSize w).1 = (cur, Ok events) →
  ∃ wt', feed i (acc, mk_wworld w wt) = (acc, mk_wworld (After p rev pollBatchSize w).2 wt') ∧
         idle_sub i p (match events with
                       | [] => PWait
                       | _ => PSend events (last_rev events rev) (negb (Z.of_nat (length events) <? pollBatchSize))
                       end) wt'.
Proof.
  intros Hs HA. apply (feed_phase i p (PReplay rev)); [done|]. intros s Hi Hph.
  destruct Hs as (s0 & Hs0 & Hp & _). rewrite Hi in Hs0. injection Hs0 as <-.
  unfold replay_step. rewrite Hi, Hph, Hp.
  destruct (After _ _ _ w) as [r w']. cbn [fst snd] in *. subst r. by destruct events.
Qed.

Lemma last_rev_event rows r rev : last rows = Some r → last_rev (event_of <$> rows) rev = r_rev r.
Proof. intros H. unfold last_rev. by rewrite fmap_last, H. Qed.

(** All pages from [PReplay rev] on. *)
Lemma replay_pages i p m rev w wt acc :
  world_wf w → quiet w → wildcard_free p = true → distinct_revs p (w_db w) →
  compact_rev (w_db w) ≤ Z.max 1 rev → (length (wanted p rev (w_db w)) ≤ m)%nat → clock_ok (3 * m + 2) w →
  idle_sub i p (PReplay rev) wt →
  ∃ n rows w' wt', Nat.iter n (feed i) (acc, mk_wworld w wt) = (acc ++ (event_of <$> rows), mk_wworld w' wt') ∧
    StronglySorted (λ a b, r_rev a ≤ r_rev b) rows ∧ NoDup rows ∧ (∀ x, x ∈ rows ↔ x ∈ wanted p rev (w_db w)) ∧
    w_db w' = w_db w ∧ idle_sub i p PWait wt'.
Proof using All.
  revert rev w wt acc. induction m as [m IH] using lt_wf_ind. intros rev w wt acc Hw Hq Hp Hd Hcr Hm Hc Hs.
  assert (clock_ok 2 w) as Hc2 by (eapply clock_ok_later; [exact Hc|lia]).
  destruct (replay_query p rev w Hw Hc2 Hq Hp Hcr) as (cur & all & HA & Hsort & Hnd & Hin).
  destruct (After_world p rev pollBatchSize w Hw Hc2 Hq) as (Hdb & Hw' & Hq' & Hrpc).
  destruct (feed_query i p rev w wt acc _ _ Hs HA) as (wt1 & Hf1 & Hs1). set (w1 := (After p rev pollBatchSize w).2) in *.
  destruct (last (take 500 all)) as [r|] eqn:Hlast.
  2: { apply last_None in Hlast. rewrite Hlast in Hs1. exists 1%nat, [], w1, wt1.
    destruct all as [|a all]; [|done]. split_and!; [by rewrite app_nil_r|constructor|constructor|done|done|done]. }
  assert (take 500 all ≠ []) as Hne by (intros E; by rewrite E in Hlast).
  set (more := negb (Z.of_nat (length (event_of <$> take 500 all)) <? pollBatchSize)) in *.
  assert (idle_sub i p (PSend (event_of <$> take 500 all) (r_rev r) more) wt1) as Hs1'.
  { rewrite <-(last_rev_event _ _ rev Hlast). by destruct (take 500 all). }
  destruct (feed_send i p _ _ _ w1 wt1 acc Hs1') as (wt2 & Hf2 & Hs2).
  assert (Nat.iter 2 (feed i) (acc, mk_wworld w wt) = (acc ++ (event_of <$> take 500 all), mk_wworld w1 wt2)) as Hf
    by (etrans; [exact (f_equal (feed i) Hf1)|exact Hf2]).
  assert (r ∈ take 500 all) as Hr by (apply last_Some in Hlast as (l' & ->); apply elem_of_app; right; by apply list_elem_of_singleton).
  assert (r ∈ all) as Hrall by (rewrite <-(take_drop 500 all); apply elem_of_app; by left).
  pose proof (proj1 (wanted_elem _ _ _ _) (proj1 (Hin _) Hrall)) as (Hrk & Hrp & Hrr).
  destruct more eqn:Hmore.
  - assert (length (wanted p (r_rev r) (w_db w)) < length (wanted p rev (w_db w)))%nat as Hsh.
    { eapply (wanted_shorter _ _ _ _ _ r (ww_db _ Hw)); [by apply Hin|lia|lia]. }
    destruct (IH (length (wanted p (r_rev r) (w_db w))) ltac:(lia) (r_rev r) w1 wt2 (acc ++ (event_of <$> take 500 all)))
      as (n & rows & w2 & wt3 & Hn & Hrs & Hrnd & Hrin & Hdb2 & Hs3); try done; rewrite ?Hdb; try done; try lia.
    { eapply clock_ok_later; [exact Hc|lia]. }
    rewrite Hdb in Hrin. destruct (page_complete _ _ _ _ _ _ Hd Hsort Hin Hlast Hnd Hrnd Hrs Hrin) as (Hs' & Hnd' & Hin').
    exists (n + 2)%nat, (take 500 all ++ rows), w2, wt3. rewrite Nat.iter_add, Hf, Hn. split_and!; [|done|done|done|congruence|done].
    by rewrite fmap_app, app_assoc.
  - exists 2%nat, (take 500 all), w1, wt2. rewrite Hf.
    assert (take 500 all = all) as Hall.
    { apply take_ge. unfold more, pollBatchSize in Hmore. rewrite length_fmap, length_take in Hmore. bool_prop. lia. }
    rewrite Hall. by split_and!.
Qed.

(** A step of the goroutine that leaves the channel empty. *)
Lemma feed_to i p ph w wt w' wt' acc :
  replay_step i (mk_wworld w wt) = mk_wworld w' wt' → idle_sub i p ph wt' → feed i (acc, mk_wworld w wt) = (acc, mk_wworld w' wt').
Proof.
  intros H (s & Hi & _ & Hch & _). unfold feed. cbn [fst snd]. rewrite H. cbn [vs_watcher vs_store].
  unfold receive. by rewrite Hi, Hch.
Qed.

(** The deferred function: the subscription is closed and removed, and the consumer gets the
    sentinel, which holds no event. *)
Lemma feed_close i p w wt acc :
  idle_sub i p PClose wt →
  ∃ wt' s, Nat.iter 4 (feed i) (acc, mk_wworld w wt) = (acc, mk_wworld w wt') ∧
    wt_objs wt' !! i = Some s ∧ sub_phase s = PDone ∧ sub_closed s = true ∧ sub_cancelled s = true ∧ sub_ch s = [] ∧
    i ∉ wt_subscribers wt'.
Proof.
  intros (s & Hi & Hp & Hch & Hph). pose proof (lookup_lt_Some _ _ _ Hi) as Hlt.
  set (s1 := mk_subscriber p [] (sub_cancelled s) true PRemove).
  set (s2 := mk_subscriber p [] true true PDrain). set (s3 := mk_subscriber p [] true true PSentinel).
  set (at_ s' wt := set_sub i s' wt).
  assert (∀ s' wt1, length (wt_objs wt1) = length (wt_objs wt) → wt_objs (at_ s' wt1) !! i = Some s') as Hat
    by (intros s' wt1 E; cbn; apply list_lookup_insert_eq; lia).
  assert (∀ s' wt1, length (wt_objs wt1) = length (wt_objs wt) → length (wt_objs (at_ s' wt1)) = length (wt_objs wt)) as Hlen
    by (intros s' wt1 E; cbn; by rewrite length_insert).
  assert (feed i (acc, mk_wworld w wt) = (acc, mk_wworld w (at_ s1 wt))) as F1.
  { apply (feed_to i p PRemove); [unfold replay_step; by rewrite Hi, Hph, Hp, Hch|]. exists s1. by rewrite Hat. }
  set (wt2 := at_ s2 (removeSub i (at_ s1 wt))).
  assert (feed i (acc, mk_wworld w (at_ s1 wt)) = (acc, mk_wworld w wt2)) as F2.
  { apply (feed_to i p PDrain); [unfold replay_step; by rewrite Hat|]. exists s2. unfold wt2. rewrite Hat; [done|by apply Hlen]. }
  assert (wt_objs wt2 !! i = Some s2) as H2 by (unfold wt2; apply Hat; by apply Hlen).
  assert (length (wt_objs wt2) = length (wt_objs wt)) as Hl2 by (unfold wt2; apply Hlen; by apply Hlen).
  assert (feed i (acc, mk_wworld w wt2) = (acc, mk_wworld w (at_ s3 wt2))) as F3.
  { apply (feed_to i p PSentinel); [unfold replay_step; by rewrite H2|]. exists s3. by rewrite Hat. }
  set (s4 := mk_subscriber p [closedSentinel] true true PDone). set (s5 := mk_subscriber p [] true true PDone).
  assert (feed i (acc, mk_wworld w (at_ s3 wt2)) = (acc, mk_wworld w (at_ s5 (at_ s4 (at_ s3 wt2))))) as F4.
  { assert (replay_step i (mk_wworld w (at_ s3 wt2)) = mk_wworld w (at_ s4 (at_ s3 wt2))) as E
      by (unfold replay_step; by rewrite Hat).
    unfold feed. cbn [fst snd]. rewrite E. cbn [vs_watcher vs_store]. unfold receive. rewrite Hat by by apply Hlen.
    cbn [sub_ch s4]. unfold closedSentinel. by rewrite app_nil_r. }
  exists (at_ s5 (at_ s4 (at_ s3 wt2))), s5. split_and!; try done.
  - cbn [Nat.iter nat_rect]. by rewrite F1, F2, F3, F4.
  - apply Hat. apply Hlen. by apply Hlen.
  - cbn. intros [H _]%list_elem_of_filter. done.
Qed.

(** C21: a watch with a start revision, in a store nobody writes to and no call of which
    fails, with a consumer that keeps receiving and a prefix without LIKE metacharacters
    no two rows of which share a revision.  A start that is not compacted is replayed in
    full: the goroutine of the subscription ends up waiting for live events after
    delivering, page by page, exactly the rows of the prefix from the start revision on,
    each once, in the order of their revisions.  From a compacted start nothing is
    delivered: the subscription is closed, cancelled and removed. *)
Theorem replay_complete p afterRev w wt :
  world_wf w → quiet w → clock_ok (3 * length (kv (w_db w)) + 3) w → wildcard_free p = true →
  distinct_revs p (w_db w) → 0 < afterRev →
  let '(i, wt0) := subscribe p afterRev wt in
  if (1 <? compact_rev (w_db w)) && (afterRev <=? compact_rev (w_db w)) then
    ∃ n w' wt' s, Nat.iter n (feed i) ([], mk_wworld w wt0) = ([], mk_wworld w' wt') ∧
      wt_objs wt' !! i = Some s ∧ sub_phase s = PDone ∧ sub_closed s = true ∧ sub_cancelled s = true ∧ sub_ch s = [] ∧
      i ∉ wt_subscribers wt'
  else
    ∃ n rows w' wt', Nat.iter n (feed i) ([], mk_wworld w wt0) = (event_of <$> rows, mk_wworld w' wt') ∧
      StronglySorted (λ a b, r_rev a ≤ r_rev b) rows ∧ NoDup rows ∧
      (∀ x, x ∈ rows ↔ x ∈ kv (w_db w) ∧ HasPrefix (r_key x) p = true ∧ afterRev ≤ r_rev x) ∧
      idle_sub i p PWait wt'.
Proof using All.
  intros Hw Hq Hc Hp Hd Ha. cbn [subscribe].
  set (i := length (wt_objs wt)). set (wt0 := mk_Watcher _ _ _).
  assert (idle_sub i p (PStart afterRev) wt0) as Hs0.
  { eexists. split; [by apply list_lookup_middle|done]. }
  assert (w_db (next w) = w_db w) as Hdb by (by apply quiet_seen).
  destruct (feed_phase i p (PStart afterRev)
    (if (1 <? compact_rev (w_db w)) && (afterRev <=? compact_rev (w_db w)) then PClose else PReplay (afterRev - 1))
    w (next w) wt0 [] Hs0) as (wt1 & Hf & Hs1).
  { intros s Hi Hph. unfold replay_step. rewrite Hi, Hph. destruct (afterRev =? 0) eqn:E; bool_prop; [lia|].
    rewrite compactRevision_ok; [|done|apply Hq; lia]. rewrite (quiet_seen _ Hq). by case_bool. }
  destruct (_ && _) eqn:Hcr.
  { destruct (feed_close i p (next w) wt1 [] Hs1) as (wt' & s & Hn & H). exists (4 + 1)%nat, (next w), wt', s.
    split; [|done]. rewrite Nat.iter_add. etrans; [|exact Hn]. f_equal. exact Hf. }
  destruct (replay_pages i p (length (kv (w_db w))) (afterRev - 1) (next w) wt1 [])
    as (n & rows & w' & wt' & Hn & Hsort & Hnd & Hin & _ & Hs'); rewrite ?Hdb; try done.
  - by apply next_wf.
  - by apply quiet_set_db.
  - apply andb_false_iff in Hcr as [?|?]; bool_prop; lia.
  - apply length_filter.
  - eapply clock_ok_later; [exact Hc|cbn; lia].
  - exists (n + 1)%nat, rows, w', wt'. rewrite Nat.iter_add. split_and!; [|done|done| |done].
    + etrans; [|exact Hn]. f_equal. exact Hf.
    + intros x. rewrite Hin, Hdb, wanted_elem. split; intros (? & ? & ?); split_and!; try done; lia.
Qed.

(** A replay loses rows of a transaction that is cut by a page: when the rows on
    both sides of the boundary have the same revision, the next page starts after
    that revision, so the rows of it that the first page left out are never
    delivered. *)
Theorem replay_splits_transaction i p rev w wt acc :
  world_wf w → quiet w → clock_ok 2 w → wildcard_free p = true → compact_rev (w_db w) ≤ Z.max 1 rev →
  idle_sub i p (PReplay rev) wt →
  (∀ x y, x ∈ wanted p rev (w_db w) → y ∈ wanted p rev (w_db w) → r_rev x = r_rev y) →
  (500 < length (wanted p rev (w_db w)))%nat →
  ∃ rows w' wt' rev' r, Nat.iter 2 (feed i) (acc, mk_wworld w wt) =
      (acc ++ (event_of <$> rows), mk_wworld w' wt') ∧
    idle_sub i p (PReplay rev') wt' ∧
    r ∈ wanted p rev (w_db w) ∧ (r ∉ rows) ∧ ¬ rev' < r_rev r.
Proof using All.
  intros Hw Hq Hc Hp Hcr Hs Hsame Hlen.
  destruct (replay_query p rev w Hw Hc Hq Hp Hcr) as (cur & all & HA & _ & Hnd & Hin).
  assert (all ≡ₚ wanted p rev (w_db w)) as Hperm by (apply NoDup_Permutation; [done|by eapply wanted_NoDup, Hw|done]).
  assert (500 < length all)%nat as Hl by (by rewrite Hperm).
  destruct (feed_query i p rev w wt acc _ _ Hs HA) as (wt1 & Hf1 & Hs1). set (w1 := (After p rev pollBatchSize w).2) in *.
  assert (length (take 500 all) = 500%nat) as Hl500 by (rewrite length_take; lia).
  destruct (last (take 500 all)) as [q|] eqn:Hlast; [|apply last_None in Hlast; by rewrite Hlast in Hl500].
  assert (idle_sub i p (PSend (event_of <$> take 500 all) (r_rev q) true) wt1) as Hs1'.
  { rewrite <-(last_rev_event _ _ rev Hlast). rewrite length_fmap, Hl500 in Hs1. by destruct (take 500 all). }
  destruct (feed_send i p _ _ _ w1 wt1 acc Hs1') as (wt2 & Hf2 & Hs2).
  destruct (lookup_lt_is_Some_2 all 500 Hl) as [r Hr]. apply list_elem_of_lookup_2 in Hr as Hrin.
  exists (take 500 all), w1, wt2, (r_rev q), r. split_and!.
  - etrans; [exact (f_equal (feed i) Hf1)|exact Hf2].
  - done.
  - by apply Hin.
  - intros (j & Hj & Hlt)%elem_of_take. pose proof (NoDup_lookup _ _ _ _ Hnd Hr Hj). lia.
  - assert (q ∈ all) as Hq'.
    { apply last_Some in Hlast as (l' & E). rewrite <-(take_drop 500 all), E. apply elem_of_app. left.
      apply elem_of_app. right. by apply list_elem_of_singleton. }
    rewrite (Hsame r q) by (by apply Hin). lia.
Qed.

End replay.

(** ** Witnesses *)

Lemma run2_distinct : distinct_revs "k" (w_db run2).
Proof.
  intros x y Hx Hy _ _.
  assert (Forall (λ x, Forall (λ y, r_rev x = r_rev y → x = y) (kv (w_db run2))) (kv (w_db run2))) as H.
  { vm_compute. repeat constructor; done. }
  rewrite Forall_forall in H. specialize (H x Hx). rewrite Forall_forall in H. by apply H.
Qed.

Lemma replay_complete_witness :
  ∃ n rows w' wt', Nat.iter n (feed (SP := solo) 0) ([], mk_wworld run2 (subscribe "k" 105 (mk_Watcher [] [] 0)).2) =
      (event_of <$> rows, mk_wworld w' wt') ∧ k_row ∈ rows.
Proof.
  assert (length (kv (w_db run2)) = 2%nat) as Hlen by reflexivity.
  assert (compact_rev (w_db run2) = 1) as Hcr by reflexivity.
  assert (k_row ∈ kv (w_db run2)) as Hk by (vm_compute; right; left).
  pose proof (@replay_complete solo solo_laws "k" 105 run2 (mk_Watcher [] [] 0) run2_wf (solo_quiet run2)) as H.
  rewrite Hlen, Hcr in H.
  destruct (H (sim_clock _ _ 9 run2 eq_refl) eq_refl run2_distinct) as (n & rows & w' & wt' & Hn & _ & _ & Hin & _).
  { lia. }
  exists n, rows, w', wt'. split; [exact Hn|]. apply Hin. split; [exact Hk|]. split; [reflexivity|by cbn].
Defined.

(** A transaction that wrote [n] keys. *)
Fixpoint key_of (n : nat) : string := match n with O => "k" | S n => String "k" (key_of n) end.

Definition txn_row (n : nat) : kv_row := put_row (- 1 - Z.of_nat n) 101 (key_of n) None 0 None.

Definition txn_db (n : nat) : database := set_kv (txn_row <$> seq 0 n) empty_db.

Definition txn_world (n : nat) : world := mk_world (txn_db n) 1 [] [].

Lemma key_of_inj m n : key_of m = key_of n → m = n.
Proof.
  revert n. induction m as [|m IH]; intros [|n] H; cbn in H; [done|..].
  - injection H as H. by destruct n.
  - injection H as H. by destruct m.
  - injection H as H. by rewrite (IH _ H).
Qed.

Lemma key_of_prefix n : HasPrefix (key_of n) "k" = true.
Proof. by destruct n as [|[|n]]. Qed.

Lemma txn_world_wf n : world_wf (SP := solo) (txn_world n).
Proof.
  assert (∀ r, r ∈ txn_row <$> seq 0 n → ∃ m, r = txn_row m) as Hr by (intros r (m & -> & _)%list_elem_of_fmap; eauto).
  split; cbn [txn_world w_rpc w_db].
  - eapply (db_step_wf 101 _ empty_db); [apply db_wf_empty|done|].
    change (txn_db n) with (set_kv (kv empty_db ++ (txn_row <$> seq 0 n)) empty_db). apply step_write; [..|done|].
    + apply Forall_forall. intros r (m & ->)%Hr. apply (next_put 101 [] (- 1 - Z.of_nat m) (key_of m) None 0).
    + rewrite <-list_fmap_compose. apply NoDup_fmap_2_strong; [|apply NoDup_seq].
      intros x y _ _ E. by apply key_of_inj.
    + cbn [kv empty_db app]. rewrite <-list_fmap_compose. apply NoDup_fmap_2_strong; [|apply NoDup_seq].
      intros x y _ _ E. cbn in E. lia.
    + by intros r ?%elem_of_nil.
  - intros r m i (k & ->)%Hr _. pose proof (sim_seq_nonneg m i). cbn. lia.
Qed.

Lemma txn_wanted n : wanted "k" 1 (txn_db n) = txn_row <$> seq 0 n.
Proof.
  unfold wanted. apply filter_all. intros r (m & -> & _)%list_elem_of_fmap. split; [apply key_of_prefix|done].
Qed.

Lemma replay_splits_transaction_witness :
  ∃ n rows w' wt' rev' r, Nat.iter 2 (feed (SP := solo) 0)
      ([], mk_wworld (txn_world n) (mk_Watcher [mk_subscriber "k" [] false false (PReplay 1)] [0%nat] 1)) =
      ([] ++ (event_of <$> rows), mk_wworld w' wt') ∧
    idle_sub 0 "k" (PReplay rev') wt' ∧ r ∈ wanted "k" 1 (txn_db n) ∧ ¬ rev' < r_rev r.
Proof.
  assert (∃ n : nat, (500 < n)%nat) as [n Hn] by (exists 501%nat; lia). exists n.
  destruct (@replay_splits_transaction solo solo_laws 0 "k" 1 (txn_world n)
              (mk_Watcher [mk_subscriber "k" [] false false (PReplay 1)] [0%nat] 1) []
              (txn_world_wf n) (solo_quiet _) (sim_clock _ _ 2 (txn_world n) eq_refl) eq_refl)
    as (rows & w' & wt' & rev' & r & H1 & H2 & H3 & _ & H5).
  - change (1 ≤ Z.max 1 1). lia.
  - exists (mk_subscriber "k" [] false false (PReplay 1)). done.
  - cbn [txn_world w_db]. rewrite txn_wanted. intros x y (? & -> & _)%list_elem_of_fmap (? & -> & _)%list_elem_of_fmap.
    reflexivity.
  - cbn [txn_world w_db]. rewrite txn_wanted, length_fmap, length_seq. exact Hn.
  - exists rows, w', wt', rev', r. split; [exact H1|]. split; [exact H2|]. split; [exact H3|exact H5].
Defined.
