(* ===== verification/ChangeStream.v ===== *)
(** * pkg/store/changestream.go: decoding change records

    A row of the change stream is a protobuf [Value] tree that the reader
    navigates by hand.  [structpb] is a parameter, the class [Structpb]: parsing
    the JSON text of a modification and converting a value to a Go interface. *)

From Stdlib Require Import Ascii String SpecFloat.
From S2P Require Import Prelude Go GoText Spanner StoreRead.

Open Scope string_scope.
Open Scope list_scope.
Open Scope Z_scope.

(** ** Protobuf values *)

Inductive pbvalue :=
| NullValue
| NumberValue (f : spec_float)
| StringValue (s : string)
| BoolValue (b : bool)
| StructValue (fields : list (string * pbvalue))
| ListValue (values : list pbvalue).

Definition GetListValue (v : pbvalue) : option (list pbvalue) :=
  match v with ListValue l => Some l | _ => None end.

Definition GetStringValue (v : pbvalue) : string :=
  match v with StringValue s => s | _ => "" end.

(** [fields.Values[k]], for an index the caller has compared with the length. *)
Definition value_at (k : nat) (fields : list pbvalue) : pbvalue := nth k fields NullValue.

(** A value of type [interface{}] as the program's type switches see it: a string, a
    [float64], a [bool] or anything else. *)
Inductive iface := IString (s : string) | IFloat64 (f : spec_float) | IBool (b : bool) | IOther.

Class Structpb := {
  (** [(&structpb.Struct{}).UnmarshalJSON]: the fields, or an error *)
  UnmarshalJSON : string → option (gmap string pbvalue);
  AsInterface : pbvalue → iface;
}.

(** ** Fields of a modification *)

(** A [map[string]interface{}], [None] when it is nil. *)
Definition json_map : Type := option (gmap string iface).

Definition map_get (m : json_map) (k : string) : option iface := m ≫= λ m, m !! k.

Definition tsField (m : json_map) (k : string) : Z :=
  match map_get m k with
  | Some (IString s) =>
      if bool_decide (s = "") then 0
      else match time_Parse s with Some t => tsToRev t | None => 0 end
  | _ => 0
  end.

Definition strField (m : json_map) (k : string) : string :=
  match map_get m k with Some (IString s) => s | _ => "" end.

Definition i64Field (m : json_map) (k : string) : Z :=
  match map_get m k with
  | Some (IString t) => Sscan_int64 t
  | Some (IFloat64 t) => int64_of_float t
  | _ => 0
  end.

Definition bytesField (m : json_map) (k : string) : option string :=
  match map_get m k with
  | Some (IString s) => if bool_decide (s = "") then None else Some (b64_decode s)
  | _ => None
  end.

Definition boolField (m : json_map) (k : string) : bool :=
  match map_get m k with Some (IBool b) => b | _ => false end.

Definition extractKV (newV oldV : json_map) (commitTS : Z) : option KV :=
  let src := match newV with Some _ => newV | None => oldV end in
  match src with
  | None => None
  | Some _ =>
      let key := strField src "key" in
      if bool_decide (key = "") then None
      else Some {|
        Key := key;
        Value := bytesField src "value";
        OldValue := bytesField oldV "value";
        LeaseID := i64Field src "lease_id";
        Deleted := boolField src "deleted";
        Created := boolField src "created";
        Rev := tsField src "rev";
        CreateRevision := tsField src "create_revision";
        PrevRevision := tsField src "prev_revision";
      |}
  end.

(** ** Records *)

Record partitionState := mk_partitionState {
  token : string;
  startTimestamp : Z;
  resumeTimestamp : Z;
}.

(** [ts, _ := time.Parse(...)]. *)
Definition parse_or_zero (s : string) : Z := default zero_time (time_Parse s).

Definition decodeHeartbeat (v : pbvalue) : Z :=
  match GetListValue v with
  | Some fields => if (length fields <? 1)%nat then zero_time
                   else parse_or_zero (GetStringValue (value_at 0 fields))
  | None => zero_time
  end.

(** One element of [child_partitions]. *)
Definition decodeChild (startTS : Z) (childVal : pbvalue) : option partitionState :=
  match GetListValue childVal with
  | Some childFields =>
      if (length childFields <? 1)%nat then None
      else
        let token := GetStringValue (value_at 0 childFields) in
        if bool_decide (token = "") then None
        else Some (mk_partitionState token startTS startTS)
  | None => None
  end.

Definition decodeChildPartitions (v : pbvalue) : list partitionState :=
  match GetListValue v with
  | Some fields =>
      if (length fields <? 3)%nat then []
      else
        let startTS := parse_or_zero (GetStringValue (value_at 0 fields)) in
        match GetListValue (value_at 2 fields) with
        | Some children => omap (decodeChild startTS) children
        | None => []
        end
  | None => []
  end.

(** [if ts.After(maxTS) { maxTS = ts }]. *)
Definition later (maxTS ts : Z) : Z := if maxTS <? ts then ts else maxTS.

Section decode.
Context `{PB : Structpb}.

Definition parseJSONMap (s : string) : json_map :=
  if bool_decide (s = "") || bool_decide (s = "null") then None
  else match UnmarshalJSON s with
       | Some fields => Some (AsInterface <$> fields)
       | None => None
       end.

(** One element of [mods]. *)
Definition decodeMod (modType : string) (commitTS : Z) (modVal : pbvalue) : option Event :=
  match GetListValue modVal with
  | Some modFields =>
      if (length modFields <? 3)%nat then None
      else
        let newVals := parseJSONMap (GetStringValue (value_at 1 modFields)) in
        let oldVals := parseJSONMap (GetStringValue (value_at 2 modFields)) in
        match extractKV newVals oldVals commitTS with
        | Some kv =>
            Some (mk_Event kv (if bool_decide (modType = "DELETE") || Deleted kv
                               then EventDelete else EventPut))
        | None => None
        end
  | None => None
  end.

Definition decodeDataChangeRecord (v : pbvalue) : list Event * Z :=
  match GetListValue v with
  | Some fields =>
      if (length fields <? 8)%nat then ([], zero_time)
      else
        match time_Parse (GetStringValue (value_at 0 fields)) with
        | None => ([], zero_time)
        | Some commitTS =>
            if negb (bool_decide (GetStringValue (value_at 4 fields) = "kv")) then ([], commitTS)
            else
              let modType := GetStringValue (value_at 7 fields) in
              match GetListValue (value_at 6 fields) with
              | None => ([], commitTS)
              | Some mods => (omap (decodeMod modType commitTS) mods, commitTS)
              end
        end
  | None => ([], zero_time)
  end.

(** What [decodeRecord] returns. *)
Record decoded := mk_decoded {
  dr_done : bool;
  dr_maxTS : Z;
  dr_events : list Event;
  dr_children : list partitionState;
}.

(** One element of the outer array. *)
Definition decodeChange (acc : decoded) (outerVal : pbvalue) : decoded :=
  match GetListValue outerVal with
  | Some fields =>
      if (length fields <? 3)%nat then acc
      else
        let dcrs := decodeDataChangeRecord <$> default [] (GetListValue (value_at 0 fields)) in
        let hbs := decodeHeartbeat <$> default [] (GetListValue (value_at 1 fields)) in
        let cprs := default [] (GetListValue (value_at 2 fields)) in
        mk_decoded
          (match cprs with [] => dr_done acc | _ => true end)
          (foldl later (foldl later (dr_maxTS acc) (dcrs.*2)) hbs)
          (dr_events acc ++ concat (dcrs.*1))
          (dr_children acc ++ concat (decodeChildPartitions <$> cprs))
  | None => acc
  end.

Definition decodeRecord (gcv : pbvalue) : decoded :=
  let zero := mk_decoded false zero_time [] [] in
  match GetListValue gcv with
  | Some outer => foldl decodeChange zero outer
  | None => zero
  end.

(** ** The discovery query *)

(** A stream of rows: for each one its column, [None] when decoding it failed, and the
    error that ended the stream. *)
Definition row_stream : Type := list (option pbvalue) * option error.

Fixpoint initial_loop (rows : list (option pbvalue)) (err : option error)
    (partitions : list partitionState) : res (list partitionState) :=
  match rows with
  | [] =>
      match err with
      | Some e => Err (Wrapf "initial partition query: %w" [] e)
      | None => Ok partitions
      end
  | None :: rows => initial_loop rows err partitions
  | Some gcv :: rows =>
      let d := decodeRecord gcv in
      let partitions := partitions ++ dr_children d in
      if dr_done d then Ok partitions else initial_loop rows err partitions
  end.

Definition queryInitialPartitions (s : row_stream) : res (list partitionState) :=
  match initial_loop s.1 s.2 [] with
  | Err e => Err e
  | Ok [] => Err (Errorf "no partitions returned — Change Streams may not be available" [])
  | Ok partitions => Ok partitions
  end.

End decode.
