(* ===== verification/ChangeStreamProps.v ===== *)
(** * The change stream and the poll report the same events

    The records Spanner writes for the table [kv] with the capture type [NEW_ROW]
    that schema.go declares, as protobuf values; what the reader decodes them to,
    compared with what a poll of the same rows delivers. *)

From Stdlib Require Import Ascii String SpecFloat.
From S2P Require Import Prelude Go GoText GoTextProps Spanner Rows Invariant Sim StoreRead StoreWrite KVServer Watcher WatchProps WatchServer ChangeStream.

Open Scope string_scope.
Open Scope list_scope.
Open Scope Z_scope.

(** ** What Spanner writes *)

Definition pb_opt {A} (f : A → string) (o : option A) : pbvalue :=
  match o with Some a => StringValue (f a) | None => NullValue end.

(** The new values of a row: INT64 as a decimal string, BYTES in base64, TIMESTAMP in
    RFC 3339, NULL as null.  [id] is the primary key and is not among them. *)
Definition new_row_fields (r : kv_row) : gmap string pbvalue :=
  <["rev" := StringValue (format_ts (r_rev r))]>
  (<["key" := StringValue (r_key r)]>
  (<["value" := pb_opt b64_encode (r_value r)]>
  (<["old_value" := pb_opt b64_encode (r_old_value r)]>
  (<["lease_id" := pb_opt dec_int (r_lease_id r)]>
  (<["deleted" := BoolValue (r_deleted r)]>
  (<["created" := BoolValue (r_created r)]>
  (<["create_revision" := pb_opt format_ts (r_create_revision r)]>
  (<["prev_revision" := pb_opt format_ts (r_prev_revision r)]> ∅)))))))).

(** A modification: keys, new values, old values. *)
Definition mod_of (keys news olds : string) : pbvalue :=
  ListValue [StringValue keys; StringValue news; StringValue olds].

(** A data change record, whose other fields may be anything. *)
Definition data_record (f1 f2 f3 f5 : pbvalue) (rest : list pbvalue) (ts : Z) (table modType : string)
    (mods : list pbvalue) : pbvalue :=
  ListValue (StringValue (format_ts ts) :: f1 :: f2 :: f3 :: StringValue table :: f5 ::
             ListValue mods :: StringValue modType :: rest).

Definition heartbeat_record (ts : Z) : pbvalue := ListValue [StringValue (format_ts ts)].

Definition child_record (ts : Z) (f1 : pbvalue) (tokens : list string) : pbvalue :=
  ListValue [StringValue (format_ts ts); f1; ListValue ((λ t, ListValue [StringValue t]) <$> tokens)].

(** What is relied on of [structpb]. *)
Class StructpbLaws (PB : Structpb) : Prop := {
  AsInterface_String s : AsInterface (StringValue s) = IString s;
  AsInterface_Bool b : AsInterface (BoolValue b) = IBool b;
  AsInterface_Null : AsInterface NullValue = IOther;
}.

(** [nil] for an empty byte slice. *)
Definition nonempty (v : option string) : option string :=
  match v with Some "" => None | v => v end.

(** What the reader makes of a row: the previous value is missing and an empty value
    is nil. *)
Definition stream_KV (r : kv_row) : KV :=
  let kv := KV_of r in
  mk_KV (Key kv) (nonempty (Value kv)) None (LeaseID kv) (Deleted kv)
    (Created kv) (Rev kv) (CreateRevision kv) (PrevRevision kv).

(** ** Fields *)

Lemma str_digits_cons ds c rest : ∃ c' s, str_digits ds (String c rest) = String c' s.
Proof. destruct ds; cbn; eauto. Qed.

Lemma format_ts_cons t : ∃ c s, format_ts t = String c s.
Proof.
  unfold format_ts. destruct (date_of_days _) as [[y m] d]. cbv zeta. cbn [String.append]. apply str_digits_cons.
Qed.

Lemma tsToRev_format t : 1 ≤ t < 2 ^ 63 →
  format_ts t ≠ "" ∧ time_Parse (format_ts t) = Some t ∧ tsToRev t = t.
Proof.
  intros Ht. split_and!.
  - destruct (format_ts_cons t) as (c & s & ->). done.
  - apply time_Parse_format, int64_year. unfold int64_range. lia.
  - by apply tsToRev_id.
Qed.

Section decode.
Context `{PB : Structpb} `{!StructpbLaws PB}.

Lemma map_get_fields fields k :
  map_get (Some (AsInterface <$> fields)) k = AsInterface <$> fields !! k.
Proof. cbn. by rewrite lookup_fmap. Qed.

Lemma strField_get fields k s :
  fields !! k = Some (StringValue s) → strField (Some (AsInterface <$> fields)) k = s.
Proof using All. unfold strField. rewrite map_get_fields. intros ->. cbn. by rewrite AsInterface_String. Qed.

Lemma boolField_get fields k b :
  fields !! k = Some (BoolValue b) → boolField (Some (AsInterface <$> fields)) k = b.
Proof using All. unfold boolField. rewrite map_get_fields. intros ->. cbn. by rewrite AsInterface_Bool. Qed.

Lemma tsField_get fields k t :
  fields !! k = Some (pb_opt format_ts t) → (∀ t', t = Some t' → 1 ≤ t' < 2 ^ 63) →
  tsField (Some (AsInterface <$> fields)) k = default 0 t.
Proof using All.
  unfold tsField. rewrite map_get_fields. intros -> Ht. cbn. destruct t as [t|]; cbn.
  - destruct (tsToRev_format t) as (Hne & Hp & Hr); [by apply Ht|].
    rewrite AsInterface_String. rewrite bool_decide_false by done. by rewrite Hp.
  - by rewrite AsInterface_Null.
Qed.

Lemma i64Field_get fields k n :
  fields !! k = Some (pb_opt dec_int n) → (∀ n', n = Some n' → int64_range n') →
  i64Field (Some (AsInterface <$> fields)) k = default 0 n.
Proof using All.
  unfold i64Field. rewrite map_get_fields. intros -> Hn. cbn. destruct n as [n|]; cbn.
  - rewrite AsInterface_String. by apply Sscan_dec, Hn.
  - by rewrite AsInterface_Null.
Qed.

Lemma b64_encode_nil s : b64_encode s = "" → s = "".
Proof. by destruct s as [|? [|? [|? ?]]]. Qed.

Lemma bytesField_get fields k v :
  fields !! k = Some (pb_opt b64_encode v) →
  bytesField (Some (AsInterface <$> fields)) k = nonempty v.
Proof using All.
  unfold bytesField. rewrite map_get_fields. intros ->. cbn. destruct v as [v|]; cbn.
  - rewrite AsInterface_String. case_bool_decide as E.
    + by rewrite (b64_encode_nil v E).
    + rewrite b64_roundtrip. by destruct v.
  - by rewrite AsInterface_Null.
Qed.

Lemma bytesField_absent m k : m = None ∨ (∃ f, m = Some f ∧ f !! k = None) → bytesField m k = None.
Proof. unfold bytesField. intros [->|(f & -> & Hf)]; [done|]. cbn. by rewrite Hf. Qed.

(** ** One row *)

(** A row the store can write, with a key and a lease of the API. *)
Definition stream_row_ok (r : kv_row) : Prop :=
  row_wf (2 ^ 63) r ∧ r_key r ≠ "" ∧ ∀ l, r_lease_id r = Some l → int64_range l.

Lemma extractKV_row r olds commitTS :
  stream_row_ok r → olds = None ∨ (∃ f, olds = Some f ∧ f !! "value" = None) →
  extractKV (Some (AsInterface <$> new_row_fields r)) olds commitTS = Some (stream_KV r).
Proof using All.
  intros (Hwf & Hk & Hl) Ho. unfold extractKV, new_row_fields.
  rewrite (strField_get _ _ (r_key r)) by by simplify_map_eq. rewrite bool_decide_false by done.
  destruct Hwf as [Hrev _ _ (c & Hc & Hc') Hcr Hup].
  rewrite (bytesField_get _ _ (r_value r)), (i64Field_get _ _ (r_lease_id r)),
    (boolField_get _ "deleted" (r_deleted r)), (boolField_get _ "created" (r_created r)),
    (tsField_get _ "rev" (Some (r_rev r))), (tsField_get _ "create_revision" (r_create_revision r)),
    (tsField_get _ "prev_revision" (r_prev_revision r)), bytesField_absent;
    try (by simplify_map_eq || assumption || (intros ? [= <-]; lia)).
  { done. }
  - intros p Hp. destruct (r_created r); [destruct Hcr as (_ & _ & E & _); congruence|].
    destruct Hup as (p' & c' & E & E' & ?); [done|]. simplify_eq. lia.
  - intros t Ht. simplify_eq. lia.
Qed.

(** ** Records *)

(** The changes Spanner reports for this schema: rows inserted into [kv], with the JSON
    text of the keys and of the new values; rows deleted from [kv], by a compaction; the
    end of a partition, with its children; a heartbeat; rows of another table. *)
Inductive change :=
| Inserted (ts : Z) (rows : list (string * string * kv_row))
| Compacted (ts : Z) (keys : list string)
| Heartbeat (ts : Z)
| Children (ts : Z) (tokens : list string)
| OtherTable (ts : Z) (table modType : string) (mods : list pbvalue).

Definition change_ok (c : change) : Prop :=
  match c with
  | Inserted ts rows => int64_range ts ∧
      Forall (λ '(_, json, r), stream_row_ok r ∧ json ≠ "" ∧ json ≠ "null" ∧
                               UnmarshalJSON json = Some (new_row_fields r)) rows
  | Compacted ts _ | Heartbeat ts => int64_range ts
  | Children ts tokens => int64_range ts ∧ Forall (λ t, t ≠ "") tokens
  | OtherTable ts table _ _ => int64_range ts ∧ table ≠ "kv"
  end.

(** The structure of the column: three arrays, one of them with the record. *)
Definition render (c : change) : pbvalue :=
  let record ts table modType mods :=
    data_record (StringValue "00000000") (StringValue "txn") (BoolValue true) (ListValue [])
      [StringValue "NEW_ROW"] ts table modType mods in
  let '(data, heartbeats, children) :=
    match c with
    | Inserted ts rows => ([record ts "kv" "INSERT" ((λ '(keys, json, _), mod_of keys json "{}") <$> rows)], [], [])
    | Compacted ts keys => ([record ts "kv" "DELETE" ((λ keys, mod_of keys "{}" "{}") <$> keys)], [], [])
    | Heartbeat ts => ([], [heartbeat_record ts], [])
    | Children ts tokens => ([], [], [child_record ts (StringValue "00000001") tokens])
    | OtherTable ts table modType mods => ([record ts table modType mods], [], [])
    end in
  ListValue [ListValue data; ListValue heartbeats; ListValue children].

(** What a change means. *)
Definition change_events (c : change) : list Event :=
  match c with Inserted _ rows => (λ '(_, _, r), toEvent (stream_KV r)) <$> rows | _ => [] end.

Definition change_ts (c : change) : list Z :=
  match c with
  | Inserted ts _ | Compacted ts _ | Heartbeat ts | OtherTable ts _ _ _ => [ts]
  | Children _ _ => []
  end.

Definition change_children (c : change) : list partitionState :=
  match c with Children ts tokens => (λ t, mk_partitionState t ts ts) <$> tokens | _ => [] end.

Definition ends_partition (c : change) : bool := match c with Children _ _ => true | _ => false end.

Hypothesis empty_object : UnmarshalJSON "{}" = Some ∅.

Lemma parseJSONMap_empty : parseJSONMap "{}" = Some ∅.
Proof using All. unfold parseJSONMap. cbn. by rewrite empty_object, fmap_empty. Qed.

Lemma decodeMod_insert ts keys json r :
  stream_row_ok r → json ≠ "" → json ≠ "null" → UnmarshalJSON json = Some (new_row_fields r) →
  decodeMod "INSERT" ts (mod_of keys json "{}") = Some (toEvent (stream_KV r)).
Proof using All.
  intros Hr H1 H2 Hj. unfold decodeMod. cbn. rewrite parseJSONMap_empty.
  assert (parseJSONMap json = Some (AsInterface <$> new_row_fields r)) as ->.
  { unfold parseJSONMap. rewrite !bool_decide_false by done. cbn. by rewrite Hj. }
  by rewrite extractKV_row by (done || right; eauto).
Qed.

Lemma decodeMod_delete ts keys : decodeMod "DELETE" ts (mod_of keys "{}" "{}") = None.
Proof using All. unfold decodeMod. cbn. by rewrite parseJSONMap_empty. Qed.

Lemma format_parse ts : int64_range ts → time_Parse (format_ts ts) = Some ts.
Proof. intros. by apply time_Parse_format, int64_year. Qed.

Lemma decodeChildPartitions_render ts f tokens :
  int64_range ts → Forall (λ t, t ≠ "") tokens →
  decodeChildPartitions (child_record ts f tokens) = (λ t, mk_partitionState t ts ts) <$> tokens.
Proof.
  intros Hts Ht. unfold decodeChildPartitions, child_record. cbn. unfold parse_or_zero. rewrite format_parse by done.
  cbn. induction Ht as [|t tokens Hne _ IH]; [done|]. cbn. rewrite bool_decide_false by done. by rewrite <-IH.
Qed.

(** A change decodes to its meaning. *)
Lemma decodeChange_render acc c :
  change_ok c →
  decodeChange acc (render c) =
  mk_decoded (dr_done acc || ends_partition c) (foldl later (dr_maxTS acc) (change_ts c))
    (dr_events acc ++ change_events c) (dr_children acc ++ change_children c).
Proof using All.
  destruct c as [ts rows|ts keys|ts|ts tokens|ts table modType mods]; cbn -[decodeDataChangeRecord decodeChildPartitions child_record later].
  - intros [Hts Hrows]. unfold decodeDataChangeRecord. cbn -[later]. rewrite format_parse by done.
    change (bool_decide ("kv" = "kv")) with true. cbn -[later].
    rewrite orb_false_r, !app_nil_r. f_equal. f_equal.
    induction Hrows as [|[[keys json] r] rows (Hr & H1 & H2 & Hj) _ IH]; [done|].
    cbn [fmap list_fmap omap list_omap]. by rewrite (decodeMod_insert _ _ _ r), IH.
  - intros Hts. unfold decodeDataChangeRecord. cbn -[later]. rewrite format_parse by done.
    change (bool_decide ("kv" = "kv")) with true. cbn -[later].
    rewrite orb_false_r, !app_nil_r. f_equal.
    assert (omap (decodeMod "DELETE" ts) ((λ keys, mod_of keys "{}" "{}") <$> keys) = []) as ->; [|by rewrite app_nil_r].
    induction keys as [|k keys IH]; [done|]. cbn [fmap list_fmap omap list_omap]. by rewrite decodeMod_delete.
  - intros Hts. unfold decodeHeartbeat. cbn -[later]. unfold parse_or_zero. rewrite format_parse by done. cbn -[later].
    by rewrite orb_false_r, !app_nil_r.
  - intros [Hts Ht]. rewrite decodeChildPartitions_render by done. by rewrite orb_true_r, !app_nil_r.
  - intros [Hts Ht]. unfold decodeDataChangeRecord. cbn -[later]. rewrite format_parse by done. cbn -[later].
    rewrite bool_decide_false by done. cbn -[later]. by rewrite orb_false_r, !app_nil_r.
Qed.

Lemma decodeChanges_render acc cs :
  Forall change_ok cs →
  foldl decodeChange acc (render <$> cs) =
  mk_decoded (dr_done acc || existsb ends_partition cs) (foldl later (dr_maxTS acc) (concat (change_ts <$> cs)))
    (dr_events acc ++ concat (change_events <$> cs)) (dr_children acc ++ concat (change_children <$> cs)).
Proof using All.
  intros Hcs. revert acc. induction Hcs as [|c cs Hc _ IH]; intros acc; cbn [fmap list_fmap foldl].
  - cbn. rewrite orb_false_r, !app_nil_r. by destruct acc.
  - rewrite decodeChange_render, IH by done. cbn. by rewrite orb_assoc, foldl_app, !app_assoc.
Qed.

Lemma decodeRecord_render cs :
  Forall change_ok cs →
  decodeRecord (ListValue (render <$> cs)) =
  mk_decoded (existsb ends_partition cs) (foldl later zero_time (concat (change_ts <$> cs)))
    (concat (change_events <$> cs)) (concat (change_children <$> cs)).
Proof using All. intros Hcs. unfold decodeRecord. cbn. by rewrite decodeChanges_render. Qed.

Lemma decodeRecord_one c :
  change_ok c → dr_events (decodeRecord (ListValue [render c])) = change_events c.
Proof using All.
  intros Hc. change [render c] with (render <$> [c]). rewrite decodeRecord_render by (by constructor).
  cbn. by rewrite app_nil_r.
Qed.

(** ** Theorems *)

(** C24: A row of the change stream decodes to its meaning: the events of the rows that were
    inserted into [kv], in order; nothing for rows a compaction deleted, for other tables
    and for heartbeats; the largest timestamp of the data and heartbeat records; the child
    partitions, each starting where its record says; and the partition is over exactly when
    children were reported. *)
Theorem decodeRecord_correct cs :
  Forall change_ok cs →
  decodeRecord (ListValue (render <$> cs)) =
  mk_decoded (existsb ends_partition cs) (foldl later zero_time (concat (change_ts <$> cs)))
    (concat (change_events <$> cs)) (concat (change_children <$> cs)).
Proof using All. apply decodeRecord_render. Qed.

(** On the wire an empty value and a missing one are the same. *)
Definition wire (ev : mvcc_Event) : mvcc_Event :=
  let kv := me_Kv ev in
  mk_mvcc_Event (me_Type ev)
    (mk_KeyValue (pk_Key kv) (nonempty (pk_Value kv)) (pk_ModRevision kv) (pk_CreateRevision kv) (pk_Version kv)
       (pk_Lease kv)) (me_PrevKv ev).

Definition without_prev (ev : mvcc_Event) : mvcc_Event := mk_mvcc_Event (me_Type ev) (me_Kv ev) None.

Lemma nonempty_idem v : nonempty (nonempty v) = nonempty v.
Proof. by destruct v as [[]|]. Qed.

Lemma stream_KV_wire r :
  wire (toWatchEvent (toEvent (stream_KV r))) = without_prev (wire (toWatchEvent (toEvent (KV_of r)))).
Proof.
  unfold wire, without_prev, toWatchEvent, toProtoKV, stream_KV. cbn. by rewrite nonempty_idem.
Qed.

(** C25: The change stream reports to a watch what a poll of the same rows reports, row for
    row, except that the previous value is missing. *)
Theorem stream_agrees_with_poll ts rows :
  change_ok (Inserted ts rows) →
  ∃ kvs, scanAll (rows.*2) = Ok kvs ∧
    Forall2 (λ kv ev, wire (toWatchEvent ev) = without_prev (wire (toWatchEvent (toEvent kv))))
      kvs (dr_events (decodeRecord (ListValue [render (Inserted ts rows)]))).
Proof using All.
  intros Hok. exists (KV_of <$> rows.*2). split.
  - eapply scanAll_wf; [|done]. destruct Hok as [_ Hrows]. intros r ([[keys json] r'] & -> & Hin)%list_elem_of_fmap.
    rewrite Forall_forall in Hrows. by destruct (Hrows _ Hin) as ([Hwf _] & _).
  - rewrite decodeRecord_one by done. cbn. clear Hok. induction rows as [|[[keys json] r] rows IH]; [constructor|].
    cbn. constructor; [apply stream_KV_wire|done].
Qed.

(** The previous value is never reported for an event of the change stream, although the
    row has it in the column [old_value] and a poll reports it: the reader looks for it
    in the old values, which the capture type [NEW_ROW] leaves empty. *)
Theorem stream_drops_prev_kv ts keys json r v :
  change_ok (Inserted ts [(keys, json, r)]) → r_created r = false → r_old_value r = Some v →
  is_Some (me_PrevKv (toWatchEvent (toEvent (KV_of r)))) ∧
  me_PrevKv <$> (toWatchEvent <$> dr_events (decodeRecord (ListValue [render (Inserted ts [(keys, json, r)])]))) = [None].
Proof using All.
  intros Hok Hc Hv. split.
  - destruct Hok as [_ [([Hwf _] & _) _]%Forall_cons].
    destruct Hwf as [_ _ _ (c & Hcr & ?) _ Hup]. destruct (Hup Hc) as (p & c' & Hp & Hc' & ?). simplify_eq.
    unfold toWatchEvent. cbn. rewrite Hv, Hp. cbn. destruct (0 <? p) eqn:E; bool_prop; [by eexists|lia].
  - by rewrite decodeRecord_one.
Qed.

End decode.

(** ** Concrete records *)

Definition row1 : kv_row :=
  mk_kv_row 7 1700000001123456789 "/registry/pods/a" (Some "new") (Some "old") (Some 42) false false
    (Some 1700000000000000000) (Some 1700000000000000000).

(** JSON texts, written with single quotes. *)
Fixpoint json (s : string) : string :=
  match s with
  | String c s' => String (if bool_decide (c = "'"%char) then "034"%char else c) (json s')
  | EmptyString => EmptyString
  end.

Definition row1_json : string := Eval vm_compute in json
  "{'rev':'2023-11-14T22:13:21.123456789Z','key':'/registry/pods/a','value':'bmV3','old_value':'b2xk','lease_id':'42','deleted':false,'created':false,'create_revision':'2023-11-14T22:13:20.000000000Z','prev_revision':'2023-11-14T22:13:20.000000000Z'}".

(** A [structpb] that knows the empty object and the text of one row. *)
Definition texts (text : string) (r : kv_row) : Structpb := {|
  UnmarshalJSON s :=
    if bool_decide (s = "{}") then Some ∅ else if bool_decide (s = text) then Some (new_row_fields r) else None;
  AsInterface v :=
    match v with
    | StringValue s => IString s
    | BoolValue b => IBool b
    | NumberValue f => IFloat64 f
    | _ => IOther
    end;
|}.

#[export] Instance texts_laws text r : StructpbLaws (texts text r).
Proof. by split. Qed.

Definition two_texts : Structpb := texts row1_json row1.

#[export] Instance two_texts_laws : StructpbLaws two_texts.
Proof. apply texts_laws. Qed.

Lemma row1_ok : stream_row_ok row1.
Proof.
  split_and!; [|done|intros l [= <-]; unfold int64_range; lia].
  split; cbn; [lia|eauto|done|eexists; split; [done|lia]|done|].
  intros _. eexists _, _. split_and!; [done..| |]; lia.
Qed.

Definition row1_inserted : change := Inserted 1700000001123456789 [(json "{'id':'7'}", row1_json, row1)].

Lemma row1_change_ok : change_ok (PB := two_texts) row1_inserted.
Proof.
  split; [unfold int64_range; lia|]. apply Forall_singleton. split_and!; [apply row1_ok|done|done|done].
Qed.

Example row1_decodes :
  dr_events (decodeRecord (PB := two_texts) (ListValue [render row1_inserted])) =
  [mk_Event (mk_KV "/registry/pods/a" (Some "new") None 42 false false 1700000001123456789 1700000000000000000
               1700000000000000000) EventPut].
Proof. vm_compute. reflexivity. Qed.

Lemma decodeRecord_correct_witness :
  decodeRecord (PB := two_texts) (ListValue (render <$> [row1_inserted; Heartbeat 1700000002000000000; Children 1700000003000000000 ["x"]])) =
  mk_decoded true 1700000002000000000 [toEvent (stream_KV row1)]
    [mk_partitionState "x" 1700000003000000000 1700000003000000000].
Proof.
  rewrite (@decodeRecord_correct two_texts two_texts_laws eq_refl
    [row1_inserted; Heartbeat 1700000002000000000; Children 1700000003000000000 ["x"]]).
  - reflexivity.
  - constructor; [apply row1_change_ok|]. constructor; [by split|]. constructor; [|done].
    split; [by split|]. by apply Forall_singleton.
Defined.

Lemma stream_agrees_with_poll_witness :
  ∃ kvs, scanAll [row1] = Ok kvs ∧
    Forall2 (λ kv ev, wire (toWatchEvent ev) = without_prev (wire (toWatchEvent (toEvent kv))))
      kvs (dr_events (decodeRecord (PB := two_texts) (ListValue [render row1_inserted]))).
Proof. exact (@stream_agrees_with_poll two_texts two_texts_laws eq_refl _ _ row1_change_ok). Defined.

Lemma stream_drops_prev_kv_witness :
  is_Some (me_PrevKv (toWatchEvent (toEvent (KV_of row1)))) ∧
  me_PrevKv <$> (toWatchEvent <$> dr_events (decodeRecord (PB := two_texts) (ListValue [render row1_inserted]))) = [None].
Proof. exact (@stream_drops_prev_kv two_texts two_texts_laws eq_refl _ _ _ _ _ row1_change_ok eq_refl eq_refl). Defined.
