(* ===== verification/Partitions.v ===== *)
(** * pkg/store/changestream.go: reading the partitions

    [Start] with the goroutine that queues the initial partitions, its main loop, and
    one goroutine per partition.  A goroutine is a value that says where it stands, and
    each function below one of its actions; what the clock shows and what the streaming
    queries return are arguments.  A [partitionState] is handed over with its pointer:
    after a send the sender does not touch it, and the values of the map [active] are
    never read, so the map is the set of its keys. *)

From Stdlib Require Import Ascii String.
From S2P Require Import Prelude Go GoText Spanner StoreRead ChangeStream.

Open Scope string_scope.
Open Scope list_scope.
Open Scope Z_scope.

Definition heartbeatInterval : Z := 2000.
Definition cursorFlushInterval : Z := 5 * Second.
Definition partitionWorkersBuf : Z := 64.

(** ** One partition *)

(** The parameters of the statement [READ_kv_changes]. *)
Record partition_query := mk_partition_query {
  pq_start_time : Z;
  pq_partition_token : option string;
  pq_heartbeat_millis : Z;
}.

Definition partitionQuery (p : partitionState) : partition_query :=
  mk_partition_query (resumeTimestamp p)
    (if bool_decide (token p = "") then None else Some (token p)) heartbeatInterval.

(** [if ts.After(p.resumeTimestamp) { p.resumeTimestamp = ts }]. *)
Definition advance (ts : Z) (p : partitionState) : partitionState :=
  if resumeTimestamp p <? ts then mk_partitionState (token p) (startTimestamp p) ts else p.

(** [if len(events) > 0 { r.dispatch(events) }]: the batches handed to the callback. *)
Definition dispatch_batch (events : list Event) : list (list Event) :=
  match events with [] => [] | _ => [events] end.

Definition shortToken (t : string) : string :=
  if 12 <? Z.of_nat (String.length t) then String.substring 0 12 t +:+ "…" else t.

Section sequential.
Context `{PB : Structpb}.

(** [streamPartition] when nobody stops the reader: the rows its query delivers, up to
    the first error or the end.  Returns [done], the partition, the batches dispatched
    and the partitions queued. *)
Fixpoint streamPartition (rows : list (option pbvalue)) (p : partitionState) :
    bool * partitionState * list (list Event) * list partitionState :=
  match rows with
  | [] => (false, p, [], [])
  | None :: rows => streamPartition rows p
  | Some gcv :: rows =>
      let d := decodeRecord gcv in
      let p := advance (dr_maxTS d) p in
      if dr_done d then (true, p, dispatch_batch (dr_events d), dr_children d)
      else
        let '(done, p, batches, queued) := streamPartition rows p in
        (done, p, dispatch_batch (dr_events d) ++ batches, dr_children d ++ queued)
  end.

(** [readPartition] over the results of successive queries, each asked for with the
    partition as the one before left it. *)
Fixpoint readPartition (answers : list (partition_query → list (option pbvalue))) (p : partitionState) :
    bool * partitionState * list (list Event) * list partitionState :=
  match answers with
  | [] => (false, p, [], [])
  | answer :: answers =>
      let '(done, p, batches, queued) := streamPartition (answer (partitionQuery p)) p in
      if (done : bool) then (true, p, batches, queued)
      else
        let '(done, p, batches', queued') := readPartition answers p in
        (done, p, batches ++ batches', queued ++ queued')
  end.

End sequential.

(** ** State *)

(** Where the goroutine of a partition stands: at the top of the loop of
    [readPartition]; in [iter.Next]; queueing child partitions; after a row; waiting two
    seconds after an error; in the deferred function; ended. *)
Inductive rphase :=
| RTop
| RNext
| RSend (children : list partitionState) (done : bool)
| RAfter (done : bool)
| RRetry
| RExit
| REnded.

Record preader := mk_preader { rd_p : partitionState; rd_lastFlush : Z; rd_phase : rphase }.

(** Where [Start] stands: not called; in its loop; waiting for the goroutines; returned. *)
Inductive start_phase := SInit | SLoop | SWait | SReturned (err : option error).

(** [cr_initial] is what the goroutine that queues the initial partitions has left, with
    the variables it captures; [cr_dispatched] the batches handed to the callback. *)
Record ChangeStreamReader := mk_ChangeStreamReader {
  cr_replicaID : string;
  cr_active : gset string;
  cr_pending : list partitionState;
  cr_stopCh : bool;
  cr_ctx : bool;
  cr_start : start_phase;
  cr_cursors : gmap string Z;
  cr_startTime : Z;
  cr_initial : list partitionState;
  cr_readers : list preader;
  cr_dispatched : list (list Event);
}.

Record csworld := mk_csworld { cs_store : world; cs_reader : ChangeStreamReader }.

Definition NewChangeStreamReader (replicaID : string) : ChangeStreamReader :=
  mk_ChangeStreamReader replicaID ∅ [] false false SInit ∅ 0 [] [] [].

(** Updates of one field. *)
Definition set_active s (r : ChangeStreamReader) :=
  mk_ChangeStreamReader (cr_replicaID r) s (cr_pending r) (cr_stopCh r) (cr_ctx r) (cr_start r) (cr_cursors r)
    (cr_startTime r) (cr_initial r) (cr_readers r) (cr_dispatched r).
Definition set_pending l (r : ChangeStreamReader) :=
  mk_ChangeStreamReader (cr_replicaID r) (cr_active r) l (cr_stopCh r) (cr_ctx r) (cr_start r) (cr_cursors r)
    (cr_startTime r) (cr_initial r) (cr_readers r) (cr_dispatched r).
Definition set_start s (r : ChangeStreamReader) :=
  mk_ChangeStreamReader (cr_replicaID r) (cr_active r) (cr_pending r) (cr_stopCh r) (cr_ctx r) s (cr_cursors r)
    (cr_startTime r) (cr_initial r) (cr_readers r) (cr_dispatched r).
Definition set_initial l (r : ChangeStreamReader) :=
  mk_ChangeStreamReader (cr_replicaID r) (cr_active r) (cr_pending r) (cr_stopCh r) (cr_ctx r) (cr_start r)
    (cr_cursors r) (cr_startTime r) l (cr_readers r) (cr_dispatched r).
Definition set_readers l (r : ChangeStreamReader) :=
  mk_ChangeStreamReader (cr_replicaID r) (cr_active r) (cr_pending r) (cr_stopCh r) (cr_ctx r) (cr_start r)
    (cr_cursors r) (cr_startTime r) (cr_initial r) l (cr_dispatched r).
Definition add_dispatched b (r : ChangeStreamReader) :=
  mk_ChangeStreamReader (cr_replicaID r) (cr_active r) (cr_pending r) (cr_stopCh r) (cr_ctx r) (cr_start r)
    (cr_cursors r) (cr_startTime r) (cr_initial r) (cr_readers r) (cr_dispatched r ++ b).

Definition set_rphase (ph : rphase) (g : preader) : preader := mk_preader (rd_p g) (rd_lastFlush g) ph.

Definition set_reader (j : nat) (g : preader) (r : ChangeStreamReader) : ChangeStreamReader :=
  set_readers (<[j := g]> (cr_readers r)) r.

Definition pending_room (r : ChangeStreamReader) : bool := Z.of_nat (length (cr_pending r)) <? partitionWorkersBuf.

(** [ctx.Done()] or [stopCh] is ready. *)
Definition stopping (r : ChangeStreamReader) : bool := cr_ctx r || cr_stopCh r.

Definition is_REnded (ph : rphase) : bool := match ph with REnded => true | _ => false end.

(** ** Stopping *)

Definition Stop (r : ChangeStreamReader) : ChangeStreamReader :=
  mk_ChangeStreamReader (cr_replicaID r) (cr_active r) (cr_pending r) true (cr_ctx r) (cr_start r) (cr_cursors r)
    (cr_startTime r) (cr_initial r) (cr_readers r) (cr_dispatched r).

Definition ctx_cancel (r : ChangeStreamReader) : ChangeStreamReader :=
  mk_ChangeStreamReader (cr_replicaID r) (cr_active r) (cr_pending r) (cr_stopCh r) true (cr_start r) (cr_cursors r)
    (cr_startTime r) (cr_initial r) (cr_readers r) (cr_dispatched r).

(** ** The goroutines *)

(** The goroutine that queues the initial partitions. *)
Definition initial_send (r : ChangeStreamReader) : ChangeStreamReader :=
  match cr_initial r with
  | [] => r
  | p :: rest =>
      if pending_room r then
        let p := mk_partitionState (token p) (startTimestamp p)
                   (default (cr_startTime r) (cr_cursors r !! token p)) in
        set_initial rest (set_pending (cr_pending r ++ [p]) r)
      else r
  end.

Definition initial_stop (r : ChangeStreamReader) : ChangeStreamReader :=
  if stopping r then set_initial [] r else r.

(** The main loop takes a partition: it starts a goroutine unless one reads it. *)
Definition start_receive (now : Z) (r : ChangeStreamReader) : ChangeStreamReader :=
  match cr_start r, cr_pending r with
  | SLoop, p :: pending =>
      let r := set_pending pending r in
      if decide (token p ∈ cr_active r) then r
      else set_active ({[token p]} ∪ cr_active r) (set_readers (cr_readers r ++ [mk_preader p now RTop]) r)
  | _, _ => r
  end.

Definition start_stop (r : ChangeStreamReader) : ChangeStreamReader :=
  match cr_start r with SLoop => if stopping r then set_start SWait r else r | _ => r end.

(** [wg.Wait(); return nil]. *)
Definition start_return (r : ChangeStreamReader) : ChangeStreamReader :=
  match cr_start r with
  | SWait => if forallb (λ g, is_REnded (rd_phase g)) (cr_readers r) then set_start (SReturned None) r else r
  | _ => r
  end.

(** What [iter.Next] and the decoding of the column give: a row; a row that cannot be
    decoded; the end; an error, and whether it is a cancelled or expired context. *)
Inductive next_result := NextRow (col : option pbvalue) | NextDone | NextErr (cancelled : bool).

(** The top of the loop of [readPartition]. *)
Definition reader_top (j : nat) (r : ChangeStreamReader) : ChangeStreamReader :=
  match cr_readers r !! j with
  | Some g => match rd_phase g with
              | RTop => set_reader j (set_rphase (if stopping r then RExit else RNext) g) r
              | _ => r
              end
  | None => r
  end.

Section steps.
Context `{SP : Spanner} `{PB : Structpb}.

Definition reader_next (j : nat) (res : next_result) (r : ChangeStreamReader) : ChangeStreamReader :=
  match cr_readers r !! j with
  | Some g =>
      match rd_phase g with
      | RNext =>
          match res with
          | NextDone => set_reader j (set_rphase RTop g) r
          | NextErr cancelled => set_reader j (set_rphase (if cancelled then RExit else RRetry) g) r
          | NextRow None => r
          | NextRow (Some gcv) =>
              let d := decodeRecord gcv in
              let g := mk_preader (advance (dr_maxTS d) (rd_p g)) (rd_lastFlush g) (RSend (dr_children d) (dr_done d)) in
              set_reader j g (add_dispatched (dispatch_batch (dr_events d)) r)
          end
      | _ => r
      end
  | None => r
  end.

(** The loop over the child partitions. *)
Definition reader_send (j : nat) (r : ChangeStreamReader) : ChangeStreamReader :=
  match cr_readers r !! j with
  | Some g =>
      match rd_phase g with
      | RSend [] done => set_reader j (set_rphase (RAfter done) g) r
      | RSend (child :: children) done =>
          if pending_room r then
            set_reader j (set_rphase (RSend children done) g) (set_pending (cr_pending r ++ [child]) r)
          else r
      | _ => r
      end
  | None => r
  end.

(** Stopped while a child waits, or while waiting after an error. *)
Definition reader_stop (j : nat) (r : ChangeStreamReader) : ChangeStreamReader :=
  match cr_readers r !! j with
  | Some g =>
      match rd_phase g with
      | RSend (_ :: _) _ | RRetry => if stopping r then set_reader j (set_rphase RExit g) r else r
      | _ => r
      end
  | None => r
  end.

Definition flushCursor (replicaID : string) (p : partitionState) : ST world (res Z) :=
  client_apply [InsertOrUpdateCursor replicaID (token p) (resumeTimestamp p)].

(** After a row: the cursor is flushed when the partition is over, or five seconds after
    the last time. *)
Definition reader_after (j : nat) (now now' : Z) (c : csworld) : csworld :=
  let '(mk_csworld w r) := c in
  match cr_readers r !! j with
  | Some g =>
      match rd_phase g with
      | RAfter true =>
          let (_, w') := flushCursor (cr_replicaID r) (rd_p g) w in
          mk_csworld w' (set_reader j (set_rphase RExit g) r)
      | RAfter false =>
          if cursorFlushInterval <? now - rd_lastFlush g then
            let (_, w') := flushCursor (cr_replicaID r) (rd_p g) w in
            mk_csworld w' (set_reader j (mk_preader (rd_p g) now' RNext) r)
          else mk_csworld w (set_reader j (set_rphase RNext g) r)
      | _ => c
      end
  | None => c
  end.

(** Two seconds have passed. *)
Definition reader_retry (j : nat) (r : ChangeStreamReader) : ChangeStreamReader :=
  match cr_readers r !! j with
  | Some g => match rd_phase g with RRetry => set_reader j (set_rphase RTop g) r | _ => r end
  | None => r
  end.

(** The deferred function. *)
Definition reader_exit (j : nat) (r : ChangeStreamReader) : ChangeStreamReader :=
  match cr_readers r !! j with
  | Some g =>
      match rd_phase g with
      | RExit => set_reader j (set_rphase REnded g) (set_active (cr_active r ∖ {[token (rd_p g)]}) r)
      | _ => r
      end
  | None => r
  end.

(** ** [Start] *)

(** The cursors of one replica. *)
Definition cursors_of (replicaID : string) (m : gmap (string * string) cursor_row) : gmap string Z :=
  map_fold (λ k c cursors, if bool_decide (k.1 = replicaID) then <[k.2 := c_resume_timestamp c]> cursors else cursors)
    ∅ m.

Definition loadCursors (replicaID : string) : ST world (res (gmap string Z)) :=
  single (λ _ db, Ok (cursors_of replicaID (kv_cs_cursors db))).

(** The earliest cursor, or a second ago. *)
Definition start_time (now : Z) (cursors : gmap string Z) : Z :=
  foldl (λ s t, if t <? s then t else s) (Time_Add now (- Second)) ((map_to_list cursors).*2).

(** [Start] up to its loop; [discovery] is what the discovery query returns for a start
    time. *)
Definition Start (now : Z) (discovery : Z → row_stream) (c : csworld) : csworld :=
  let '(mk_csworld w r) := c in
  let (res, w') := loadCursors (cr_replicaID r) w in
  let cursors := match res with Ok m => m | Err _ => ∅ end in
  let startTime := start_time now cursors in
  let r := mk_ChangeStreamReader (cr_replicaID r) (cr_active r) (cr_pending r) (cr_stopCh r) (cr_ctx r)
             (cr_start r) cursors startTime (cr_initial r) (cr_readers r) (cr_dispatched r) in
  mk_csworld w'
    match queryInitialPartitions (discovery startTime) with
    | Err e => set_start (SReturned (Some (Wrapf "query initial partitions: %w" [] e))) r
    | Ok initial => set_initial initial (set_start SLoop r)
    end.

(** ** Interleavings *)

(** A step of the reader itself. *)
Inductive reader_step (r : ChangeStreamReader) : ChangeStreamReader → Prop :=
| rs_initial_send : reader_step r (initial_send r)
| rs_initial_stop : reader_step r (initial_stop r)
| rs_start_receive now : reader_step r (start_receive now r)
| rs_start_stop : reader_step r (start_stop r)
| rs_start_return : reader_step r (start_return r)
| rs_reader_top j : reader_step r (reader_top j r)
| rs_reader_next j res : reader_step r (reader_next j res r)
| rs_reader_send j : reader_step r (reader_send j r)
| rs_reader_stop j : reader_step r (reader_stop j r)
| rs_reader_retry j : reader_step r (reader_retry j r)
| rs_reader_exit j : reader_step r (reader_exit j r)
| rs_Stop : reader_step r (Stop r)
| rs_ctx_cancel : reader_step r (ctx_cancel r).

Inductive cs_step : csworld → csworld → Prop :=
| cs_Start now discovery c : cr_start (cs_reader c) = SInit → cs_step c (Start now discovery c)
| cs_local w r r' : reader_step r r' → cs_step (mk_csworld w r) (mk_csworld w r')
| cs_after j now now' c : cs_step c (reader_after j now now' c).

End steps.
