(* ===== verification/PartitionProps.v ===== *)
(** * The partitions of the change stream are read once at a time, and to their end

    Invariant of the reader in every interleaving; progress of its resume timestamps;
    and that a partition whose query fails and is repeated any number of times is
    delivered completely, at least once. *)

From Stdlib Require Import Ascii String.
From S2P Require Import Prelude Go GoText GoTextProps Spanner Rows Invariant Sim StoreRead ChangeStream ChangeStreamProps Partitions.

Open Scope string_scope.
Open Scope list_scope.
Open Scope Z_scope.

(** ** The readers *)

Definition live_reader (g : preader) : Prop := is_REnded (rd_phase g) = false.

#[export] Instance live_reader_dec g : Decision (live_reader g).
Proof. unfold live_reader. apply _. Defined.

(** The partitions that are being read. *)
Definition live_tokens (l : list preader) : list string := (λ g, token (rd_p g)) <$> filter live_reader l.

Record reader_ok (r : ChangeStreamReader) : Prop := mk_reader_ok {
  ro_active : cr_active r = list_to_set (live_tokens (cr_readers r));
  ro_once : NoDup (live_tokens (cr_readers r));
  ro_pending : Z.of_nat (length (cr_pending r)) ≤ partitionWorkersBuf;
  ro_init : cr_start r = SInit → cr_readers r = [] ∧ cr_initial r = [];
  ro_returned : ∀ e, cr_start r = SReturned e → live_tokens (cr_readers r) = [];
}.

Lemma live_tokens_app l l' : live_tokens (l ++ l') = live_tokens l ++ live_tokens l'.
Proof. unfold live_tokens. by rewrite filter_app, fmap_app. Qed.

Lemma live_tokens_split (l : list preader) j g g' :
  l !! j = Some g →
  ∃ l1 l2, l = l1 ++ g :: l2 ∧ <[j := g']> l = l1 ++ g' :: l2.
Proof.
  intros Hj. exists (take j l), (drop (S j) l). split.
  - by rewrite take_drop_middle.
  - apply insert_take_drop. by eapply lookup_lt_Some.
Qed.

Lemma live_tokens_one g : live_tokens [g] = if is_REnded (rd_phase g) then [] else [token (rd_p g)].
Proof.
  unfold live_tokens. rewrite filter_cons.
  destruct (is_REnded (rd_phase g)) eqn:E; [rewrite decide_False|rewrite decide_True]; unfold live_reader; congruence || done.
Qed.

(** A reader goes on with its partition. *)
Lemma live_tokens_update l j g g' :
  l !! j = Some g → token (rd_p g') = token (rd_p g) →
  is_REnded (rd_phase g') = is_REnded (rd_phase g) → live_tokens (<[j := g']> l) = live_tokens l.
Proof.
  intros Hj Ht Hp. destruct (live_tokens_split l j g g' Hj) as (l1 & l2 & -> & ->).
  change (g' :: l2) with ([g'] ++ l2). change (g :: l2) with ([g] ++ l2).
  by rewrite !live_tokens_app, !live_tokens_one, Hp, Ht.
Qed.

(** A reader ends. *)
Lemma live_tokens_end l j g g' :
  l !! j = Some g → is_REnded (rd_phase g) = false → is_REnded (rd_phase g') = true →
  live_tokens l ≡ₚ token (rd_p g) :: live_tokens (<[j := g']> l).
Proof.
  intros Hj H1 H2. destruct (live_tokens_split l j g g' Hj) as (l1 & l2 & -> & ->).
  change (g' :: l2) with ([g'] ++ l2). change (g :: l2) with ([g] ++ l2).
  rewrite !live_tokens_app, !live_tokens_one, H1, H2. cbn. by rewrite Permutation_middle.
Qed.

Lemma token_advance ts p : token (advance ts p) = token p.
Proof. unfold advance. by case_bool. Qed.

(** The tokens a state is about, and the rest of the invariant, under a step of one
    reader that does not end it. *)
Lemma reader_ok_update r r' j g g' :
  reader_ok r → cr_readers r !! j = Some g → cr_readers r' = <[j := g']> (cr_readers r) →
  token (rd_p g') = token (rd_p g) → is_REnded (rd_phase g') = is_REnded (rd_phase g) →
  cr_active r' = cr_active r → cr_start r' = cr_start r →
  Z.of_nat (length (cr_pending r')) ≤ partitionWorkersBuf → reader_ok r'.
Proof.
  intros [Ha Ho Hp Hi Hr] Hj Er Ht He Ea Es Hp'.
  assert (live_tokens (cr_readers r') = live_tokens (cr_readers r)) as El by (rewrite Er; by eapply live_tokens_update).
  split; rewrite ?El, ?Ea, ?Es; try done.
  intros Hinit. destruct (Hi Hinit) as [E _]. rewrite E in Hj. done.
Qed.

(** A step of the reader of [Hj], which was in the phase of [Hph] and goes on. *)
Ltac goes_on Hok Hj Hph :=
  eapply reader_ok_update; [exact Hok|exact Hj|reflexivity|..]; cbn; rewrite ?Hph, ?token_advance;
  try reflexivity; try apply Hok.

Section invariant.
Context `{SP : Spanner} `{PB : Structpb}.

Lemma initial_send_ok r : reader_ok r → reader_ok (initial_send r).
Proof.
  intros Hok. pose proof Hok as [Ha Ho Hp Hi Hr]. unfold initial_send. destruct (cr_initial r) as [|p rest] eqn:Ei; [done|].
  destruct (pending_room r) eqn:E; [|done]. unfold pending_room in E. bool_prop.
  split; cbn; try done.
  - rewrite length_app. cbn. lia.
  - intros Hs. by destruct (Hi Hs) as [_ ?].
Qed.

Lemma start_receive_ok now r : reader_ok r → reader_ok (start_receive now r).
Proof.
  intros Hok. pose proof Hok as [Ha Ho Hp Hi Hr]. unfold start_receive.
  destruct (cr_start r) eqn:Es; try done. destruct (cr_pending r) as [|p pending] eqn:Ep; [done|].
  cbn in Hp. cbn [set_pending cr_active]. case_decide as Hact.
  - split; cbn; rewrite ?Es; try done. lia.
  - assert (live_tokens (cr_readers r ++ [mk_preader p now RTop]) = live_tokens (cr_readers r) ++ [token p]) as El
      by by rewrite live_tokens_app, live_tokens_one.
    split; cbn [set_active set_readers set_pending cr_active cr_readers cr_pending cr_start cr_initial];
      rewrite ?Es, ?El; try done.
    + rewrite Ha. rewrite list_to_set_app_L. cbn. set_solver.
    + rewrite Ha, elem_of_list_to_set in Hact. apply NoDup_app. split_and!; [done| |apply NoDup_singleton].
      intros x Hx ->%list_elem_of_singleton. done.
    + lia.
Qed.

Lemma start_phase_ok r s :
  reader_ok r → (s = SLoop ∨ s = SWait ∨ ∃ e, s = SReturned e ∧ live_tokens (cr_readers r) = []) →
  reader_ok (set_start s r).
Proof. intros [Ha Ho Hp Hi Hr] Hs. split; cbn; try done; intros; naive_solver. Qed.

Lemma all_ended l : forallb (λ g, is_REnded (rd_phase g)) l = true → live_tokens l = [].
Proof.
  intros H. unfold live_tokens. rewrite filter_none; [done|]. intros g Hg.
  rewrite List.forallb_forall in H. specialize (H g ltac:(by apply list_elem_of_In)). unfold live_reader. congruence.
Qed.

Lemma reader_exit_ok j r : reader_ok r → reader_ok (reader_exit j r).
Proof.
  intros Hok. unfold reader_exit. destruct (cr_readers r !! j) as [g|] eqn:Hj; [|done].
  destruct (rd_phase g) eqn:Hph; try done. destruct Hok as [Ha Ho Hp Hi Hr].
  pose proof (live_tokens_end _ j g (set_rphase REnded g) Hj ltac:(by rewrite Hph) eq_refl) as Hperm.
  assert (NoDup (token (rd_p g) :: live_tokens (<[j := set_rphase REnded g]> (cr_readers r)))) as Hnd
    by by rewrite <-Hperm.
  apply NoDup_cons in Hnd as [Hnin Hnd].
  split; cbn [set_reader set_readers set_active cr_active cr_readers cr_pending cr_start cr_initial]; try done.
  - rewrite Ha, (list_to_set_perm_L _ _ Hperm). cbn. rewrite <-(elem_of_list_to_set (C := gset string)) in Hnin. set_solver.
  - intros Hs. destruct (Hi Hs) as [E _]. by rewrite E in Hj.
  - intros e He. rewrite (Hr e He) in Hperm. by apply Permutation_nil_cons in Hperm.
Qed.

Lemma reader_next_ok j res r : reader_ok r → reader_ok (reader_next j res r).
Proof.
  intros Hok. unfold reader_next. destruct (cr_readers r !! j) as [g|] eqn:Hj; [|done].
  destruct (rd_phase g) eqn:Hph; try done. destruct res as [[gcv|]| |cancelled]; try done.
  all: goes_on Hok Hj Hph.
  by destruct cancelled.
Qed.

Lemma reader_send_ok j r : reader_ok r → reader_ok (reader_send j r).
Proof.
  intros Hok. unfold reader_send. destruct (cr_readers r !! j) as [g|] eqn:Hj; [|done].
  destruct (rd_phase g) as [| |[|child children] fin| | | |] eqn:Hph; try exact Hok.
  2: destruct (pending_room r) eqn:E; [|done]; unfold pending_room in E; bool_prop.
  all: goes_on Hok Hj Hph.
  rewrite length_app. cbn. lia.
Qed.

Lemma reader_after_ok j now now' c : reader_ok (cs_reader c) → reader_ok (cs_reader (reader_after j now now' c)).
Proof.
  destruct c as [w r]. cbn [cs_reader]. intros Hok. unfold reader_after.
  destruct (cr_readers r !! j) as [g|] eqn:Hj; [|done].
  destruct (rd_phase g) as [| | |[]| | |] eqn:Hph; try done;
    repeat case_bool; try destruct (flushCursor _ _ _); cbn [cs_reader];
    (goes_on Hok Hj Hph).
Qed.

Lemma reader_step_ok r r' : reader_step r r' → reader_ok r → reader_ok r'.
Proof.
  destruct 1; intros Hok.
  - by apply initial_send_ok.
  - unfold initial_stop. case_bool; [|done]. destruct Hok as [Ha Ho Hp Hi Hr].
    split; cbn; try done. intros Hs. by destruct (Hi Hs).
  - by apply start_receive_ok.
  - unfold start_stop. destruct (cr_start r); try done. case_bool; [|done]. apply start_phase_ok; auto.
  - unfold start_return. destruct (cr_start r); try done. case_bool; [|done]. apply start_phase_ok; [done|].
    right. right. eexists. split; [done|]. by apply all_ended.
  - unfold reader_top. destruct (cr_readers r !! j) as [g|] eqn:Hj; [|done]. destruct (rd_phase g) eqn:Hph; try done.
    goes_on Hok Hj Hph. by case_bool.
  - by apply reader_next_ok.
  - by apply reader_send_ok.
  - unfold reader_stop. destruct (cr_readers r !! j) as [g|] eqn:Hj; [|done].
    destruct (rd_phase g) as [| |[|? ?] ?| | | |] eqn:Hph; try done; (case_bool; [|done]);
      (goes_on Hok Hj Hph).
  - unfold reader_retry. destruct (cr_readers r !! j) as [g|] eqn:Hj; [|done]. destruct (rd_phase g) eqn:Hph; try done.
    goes_on Hok Hj Hph.
  - by apply reader_exit_ok.
  - by destruct Hok; split.
  - by destruct Hok; split.
Qed.

Lemma Start_ok now discovery c :
  reader_ok (cs_reader c) → cr_start (cs_reader c) = SInit → reader_ok (cs_reader (Start now discovery c)).
Proof.
  destruct c as [w r]. cbn [cs_reader]. intros [Ha Ho Hp Hi Hr] Hs. destruct (Hi Hs) as [Er Ei]. unfold Start.
  destruct (loadCursors _ w) as [res w']. cbn [cs_reader].
  destruct (queryInitialPartitions _) as [initial|e]; split; cbn; rewrite ?Er; try done;
    try (by rewrite Er in Ha); constructor.
Qed.

Lemma cs_step_ok c c' : cs_step c c' → reader_ok (cs_reader c) → reader_ok (cs_reader c').
Proof.
  destruct 1 as [now discovery c Hs|w r r' Hs|j now now' c]; intros Hok.
  - by apply Start_ok.
  - by eapply reader_step_ok.
  - by apply reader_after_ok.
Qed.

Lemma new_reader_ok replicaID : reader_ok (NewChangeStreamReader replicaID).
Proof. split; cbn; try done. constructor. Qed.

(** C26: In every interleaving of the reader's goroutines a partition has at most one reader,
    the map of active partitions holds exactly the partitions being read, the queue stays
    within its capacity, and [Start] returns from its loop only when no partition is being
    read. *)
Theorem one_reader_per_partition replicaID w c :
  rtc cs_step (mk_csworld w (NewChangeStreamReader replicaID)) c →
  let r := cs_reader c in
  NoDup (live_tokens (cr_readers r)) ∧
  (∀ t, t ∈ cr_active r ↔ t ∈ live_tokens (cr_readers r)) ∧
  Z.of_nat (length (cr_pending r)) ≤ partitionWorkersBuf ∧
  (∀ e, cr_start r = SReturned e → live_tokens (cr_readers r) = []).
Proof.
  intros Hrun. assert (reader_ok (cs_reader c)) as [Ha Ho Hp _ Hr].
  { remember (mk_csworld w (NewChangeStreamReader replicaID)) as c0 eqn:E.
    assert (reader_ok (cs_reader c0)) as H0 by (subst c0; apply new_reader_ok). clear E.
    induction Hrun as [|c0 c1 c2 Hs _ IH]; [done|]. apply IH. by eapply cs_step_ok. }
  cbn. split_and!; try done. intros t. by rewrite Ha, elem_of_list_to_set.
Qed.

End invariant.

(** ** A partition is delivered completely *)

Section complete.
Context `{PB : Structpb}.

(** Spanner's records of a partition: each with its timestamp, and its row. *)
Abbreviation log := (list (Z * pbvalue)).

Definition row_of (e : Z * pbvalue) : decoded := decodeRecord e.2.

(** What the query returns before it breaks off after [n] rows: the records from its
    start time on. *)
Definition answer (l : log) (n : nat) (q : partition_query) : list (option pbvalue) :=
  Some <$> (take n (filter (λ e : Z * pbvalue, pq_start_time q ≤ e.1) l)).*2.

(** Records come in the order of their timestamps, which are those of the rows, and the
    last one, no other, reports the child partitions. *)
Definition log_ok (l : log) (last : Z * pbvalue) : Prop :=
  StronglySorted (λ a b : Z * pbvalue, a.1 ≤ b.1) (l ++ [last]) ∧
  (∀ e, e ∈ l ++ [last] → dr_maxTS (row_of e) ≤ e.1) ∧
  (∀ e, e ∈ l → dr_done (row_of e) = false) ∧ dr_done (row_of last) = true.

Definition advance_all (es : log) (p : partitionState) : partitionState :=
  foldl (λ p e, advance (dr_maxTS (row_of e)) p) p es.

Definition batches_of (es : log) : list (list Event) := concat ((λ e, dispatch_batch (dr_events (row_of e))) <$> es).
Definition children_of (es : log) : list partitionState := concat ((λ e, dr_children (row_of e)) <$> es).

Lemma stream_rows es last p :
  (∀ e, e ∈ es → dr_done (row_of e) = false) → dr_done (row_of last) = true →
  streamPartition (Some <$> es.*2) p = (false, advance_all es p, batches_of es, children_of es) ∧
  streamPartition (Some <$> (es ++ [last]).*2) p =
    (true, advance_all (es ++ [last]) p, batches_of (es ++ [last]), children_of (es ++ [last])).
Proof.
  intros Hes Hlast. revert p. induction es as [|e es IH]; intros p.
  - split; [done|]. cbn. fold (row_of last). rewrite Hlast. unfold batches_of, children_of. cbn. by rewrite !app_nil_r.
  - destruct (IH ltac:(intros; apply Hes; by right) (advance (dr_maxTS (row_of e)) p)) as [E1 E2].
    cbn [fmap list_fmap app streamPartition]. fold (row_of e). rewrite (Hes e) by by left.
    split; [by rewrite E1|by rewrite E2].
Qed.

Lemma advance_ge ts p : resumeTimestamp p ≤ resumeTimestamp (advance ts p).
Proof. unfold advance. case_bool; cbn; lia. Qed.

(** The resume timestamp is the old one or that of a row that was read. *)
Lemma advance_all_spec es p :
  resumeTimestamp p ≤ resumeTimestamp (advance_all es p) ∧
  (resumeTimestamp (advance_all es p) = resumeTimestamp p ∨
   ∃ e, e ∈ es ∧ resumeTimestamp (advance_all es p) = dr_maxTS (row_of e)).
Proof.
  revert p. induction es as [|e es IH]; intros p; [split; [done|by left]|].
  destruct (IH (advance (dr_maxTS (row_of e)) p)) as [H1 H2]. pose proof (advance_ge (dr_maxTS (row_of e)) p).
  cbn. fold (advance_all es (advance (dr_maxTS (row_of e)) p)). split; [lia|].
  destruct H2 as [->|(e' & He' & ->)]; [|right; exists e'; split; [by right|done]].
  unfold advance. case_bool; [right; exists e; split; [by left|done]|by left].
Qed.

(** In a sorted list what is smaller than an element of a prefix is in the prefix. *)
Lemma sorted_take (es : log) k e e' :
  StronglySorted (λ a b : Z * pbvalue, a.1 ≤ b.1) es → e' ∈ take k es → e ∈ es → e.1 < e'.1 → e ∈ take k es.
Proof.
  intros Hs He' He Hlt. rewrite <-(take_drop k es) in He. apply elem_of_app in He as [He|He]; [done|].
  rewrite <-(take_drop k es) in Hs. apply StronglySorted_app in Hs as (Hs & _ & _).
  specialize (Hs e' e He' He). lia.
Qed.

Definition delivered (batches : list (list Event)) (e : Z * pbvalue) : Prop :=
  dr_events (row_of e) = [] ∨ dr_events (row_of e) ∈ batches.

Lemma delivered_batches es e : e ∈ es → delivered (batches_of es) e.
Proof.
  intros He. unfold delivered, batches_of. destruct (dr_events (row_of e)) as [|ev evs] eqn:E; [by left|right].
  apply list_elem_of_In, List.in_concat. exists [ev :: evs]. split; [|by left].
  apply list_elem_of_In, list_elem_of_fmap. exists e. by rewrite E.
Qed.

Lemma delivered_app b b' e : delivered b e ∨ delivered b' e → delivered (b ++ b') e.
Proof. unfold delivered. rewrite elem_of_app. tauto. Qed.

Lemma children_of_last es last c : c ∈ dr_children (row_of last) → c ∈ children_of (es ++ [last]).
Proof.
  intros Hc. unfold children_of. rewrite fmap_app, concat_app. apply elem_of_app. right. cbn. by rewrite app_nil_r.
Qed.

(** One query: it ends the partition, with everything from the resume timestamp on
    delivered, or it advances the resume timestamp over what it delivered. *)
Lemma one_query l last k p :
  log_ok l last → resumeTimestamp p ≤ last.1 →
  let '(fin, p', b, q) := streamPartition (answer (l ++ [last]) k (partitionQuery p)) p in
  (∀ e, e ∈ l ++ [last] → resumeTimestamp p ≤ e.1 → e.1 < resumeTimestamp p' ∨ fin = true → delivered b e) ∧
  (fin = true → ∀ c, c ∈ dr_children (row_of last) → c ∈ q) ∧
  resumeTimestamp p ≤ resumeTimestamp p' ≤ last.1 ∧
  ((length (l ++ [last]) ≤ k)%nat → fin = true).
Proof.
  intros (Hs & Hts & Hnd & Hd) Hp. unfold answer. cbn [partitionQuery pq_start_time].
  rewrite filter_app. rewrite (filter_all _ [last]) by (by intros e ->%list_elem_of_singleton).
  set (F := filter (λ e : Z * pbvalue, resumeTimestamp p ≤ e.1) l).
  assert (∀ e, e ∈ F ++ [last] ↔ e ∈ l ++ [last] ∧ resumeTimestamp p ≤ e.1) as HF.
  { intros e. subst F. rewrite !elem_of_app, list_elem_of_filter, list_elem_of_singleton. naive_solver. }
  assert (StronglySorted (λ a b : Z * pbvalue, a.1 ≤ b.1) (F ++ [last])) as HsF.
  { apply (StronglySorted_filter _ (λ e : Z * pbvalue, resumeTimestamp p ≤ e.1)) in Hs.
    rewrite filter_app, (filter_all _ [last]) in Hs by (by intros e ->%list_elem_of_singleton). done. }
  assert (∀ e, e ∈ l ++ [last] → e.1 ≤ last.1) as Hlast.
  { intros e [He| ->%list_elem_of_singleton]%elem_of_app; [|done].
    apply StronglySorted_app in Hs as (Hs & _ & _). apply Hs; [done|by apply list_elem_of_singleton]. }
  assert (∀ es, (∀ e, e ∈ es → e ∈ F ++ [last]) →
          resumeTimestamp p ≤ resumeTimestamp (advance_all es p) ≤ last.1 ∧
          (resumeTimestamp (advance_all es p) = resumeTimestamp p ∨
           ∃ e, e ∈ es ∧ resumeTimestamp (advance_all es p) ≤ e.1)) as Hadv.
  { intros es Hes. destruct (advance_all_spec es p) as [H1 H2]. destruct H2 as [E|(e & He & E)].
    - rewrite E. split; [done|by left].
    - destruct (proj1 (HF e) (Hes e He)) as [Hl _]. specialize (Hts e Hl). specialize (Hlast e Hl).
      rewrite E. split; [lia|]. right. exists e. split; [done|lia]. }
  destruct (decide (k ≤ length F)%nat) as [Hk|Hk].
  - rewrite take_app_le by done.
    destruct (stream_rows (take k F) last p) as [-> _]; [|done|].
    { intros e He. apply Hnd. apply elem_of_take in He as (i & He & _). apply list_elem_of_lookup_2 in He.
      by apply list_elem_of_filter in He as [_ ?]. }
    destruct (Hadv (take k F)) as [Hb Hmax].
    { intros e He. apply elem_of_app. left. apply elem_of_take in He as (i & He & _). by eapply list_elem_of_lookup_2. }
    split_and!; try lia; try done.
    + intros e He Hge [Hlt|]; [|done]. apply delivered_batches. destruct Hmax as [E|(e' & He' & Hle)]; [lia|].
      rewrite <-(take_app_le F [last]) by done. eapply sorted_take; [done|by rewrite take_app_le|by apply HF|lia].
    + rewrite length_app. cbn. intros. exfalso.
      assert (length F ≤ length l)%nat by apply length_filter. lia.
  - rewrite take_ge by (rewrite length_app; cbn; lia).
    destruct (stream_rows F last p) as [_ ->]; [|done|].
    { intros e He. apply Hnd. by apply list_elem_of_filter in He as [_ ?]. }
    destruct (Hadv (F ++ [last])) as [Hb _]; [done|]. split_and!; try lia; try done.
    + intros e He Hge _. apply delivered_batches. by apply HF.
    + intros _. apply children_of_last.
Qed.

(** C27: A partition whose query breaks off after any numbers of rows, and is repeated from the
    resume timestamp until it comes to its end, is delivered completely: every record from
    the start on was dispatched at least once, and the child partitions are queued. *)
Theorem partition_delivered l last cuts n p :
  log_ok l last → resumeTimestamp p ≤ last.1 → (length (l ++ [last]) ≤ n)%nat →
  let '(fin, p', b, q) := readPartition (answer (l ++ [last]) <$> cuts ++ [n]) p in
  fin = true ∧
  (∀ e, e ∈ l ++ [last] → resumeTimestamp p ≤ e.1 → dr_events (row_of e) = [] ∨ dr_events (row_of e) ∈ b) ∧
  (∀ c, c ∈ dr_children (row_of last) → c ∈ q).
Proof.
  intros Hok Hp Hn. revert p Hp. induction cuts as [|k cuts IH]; intros p Hp; cbn [app fmap list_fmap readPartition].
  - pose proof (one_query l last n p Hok Hp) as H. destruct (streamPartition _ p) as [[[fin p'] b] q].
    destruct H as (H1 & H2 & _ & H4). rewrite (H4 Hn) in *. split_and!; [done| |by apply H2].
    intros e He Hge. apply H1; auto.
  - pose proof (one_query l last k p Hok Hp) as H. destruct (streamPartition _ p) as [[[fin p'] b] q].
    destruct H as (H1 & H2 & H3 & _). destruct fin.
    + split_and!; [done| |by apply H2]. intros e He Hge. apply H1; auto.
    + specialize (IH p' ltac:(lia)). cbn in IH. destruct (readPartition _ p') as [[[fin' p''] b'] q'].
      destruct IH as (-> & I1 & I2). split_and!; [done| |].
      * intros e He Hge. apply delivered_app. destruct (decide (e.1 < resumeTimestamp p')); [left; apply H1; auto|].
        right. apply I1; [done|lia].
      * intros c Hc. apply elem_of_app. right. by apply I2.
Qed.

End complete.

(** ** Cursors *)

Lemma cursors_of_lookup replicaID m t :
  cursors_of replicaID m !! t = c_resume_timestamp <$> m !! (replicaID, t).
Proof.
  unfold cursors_of.
  apply (map_fold_weak_ind (λ cs m, cs !! t = c_resume_timestamp <$> m !! (replicaID, t))); [done|].
  intros [rid t'] c m' cs Hm IH. cbn. case_bool_decide as E.
  - subst rid. destruct (decide (t' = t)) as [->|Hne]; [by rewrite !lookup_insert_eq|].
    rewrite !lookup_insert_ne by congruence. done.
  - by rewrite lookup_insert_ne by congruence.
Qed.

Section cursors.
Context `{SP : Spanner}.

(** A cursor that was flushed is the one the replica loads, next to the other cursors it
    has; a replica with another identifier loads its own cursors only. *)
Theorem cursor_roundtrip replicaID replicaID' p w :
  quiet w →
  ∃ cursors,
    (loadCursors replicaID' w).1 = Ok cursors ∧
    (loadCursors replicaID' (flushCursor replicaID p w).2).1 =
      Ok (if bool_decide (replicaID' = replicaID) then <[token p := resumeTimestamp p]> cursors else cursors).
Proof.
  intros Hq. exists (cursors_of replicaID' (kv_cs_cursors (w_db w))).
  assert (quiet (flushCursor replicaID p w).2) as Hq'.
  { eapply quiet_later; [done|]. unfold flushCursor, client_apply. destruct (commit _ _ _). cbn. lia. }
  pose proof (quiet_calls_ok 1 w Hq) as Hc%calls_ok_now. pose proof (quiet_calls_ok 1 _ Hq') as Hc'%calls_ok_now.
  unfold loadCursors, single. rewrite Hc, Hc', !quiet_seen by done. split; [done|]. cbn [fst]. f_equal.
  unfold flushCursor, client_apply, commit. rewrite Hc, quiet_seen by done. cbn.
  apply map_eq. intros t. rewrite cursors_of_lookup. case_bool_decide as E.
  - subst replicaID'. destruct (decide (token p = t)) as [<-|Hne]; [by rewrite !lookup_insert_eq|].
    rewrite !lookup_insert_ne by congruence. by rewrite cursors_of_lookup.
  - rewrite lookup_insert_ne by congruence. by rewrite cursors_of_lookup.
Qed.

End cursors.

Lemma cursor_roundtrip_witness :
  (loadCursors (SP := solo) "r" (flushCursor (SP := solo) "r" (mk_partitionState "t" 5 9) (world_of empty_db)).2).1 =
    Ok {["t" := 9]} ∧
  (loadCursors (SP := solo) "s" (flushCursor (SP := solo) "r" (mk_partitionState "t" 5 9) (world_of empty_db)).2).1 = Ok ∅.
Proof.
  split.
  - destruct (@cursor_roundtrip solo "r" "r" (mk_partitionState "t" 5 9) (world_of empty_db) (solo_quiet _))
      as (cursors & E & ->). cbn in E. injection E as <-. reflexivity.
  - destruct (@cursor_roundtrip solo "r" "s" (mk_partitionState "t" 5 9) (world_of empty_db) (solo_quiet _))
      as (cursors & E & ->). cbn in E. injection E as <-. reflexivity.
Defined.

(** ** Concrete partitions *)

(** A partition with a put and then its end. *)
Definition log1 : list (Z * pbvalue) := [(1700000001123456789, ListValue [render row1_inserted])].
Definition end1 : Z * pbvalue :=
  (1700000003000000000, ListValue [render (Children 1700000003000000000 ["x"])]).

Lemma partition_delivered_witness :
  let '(fin, p', b, q) :=
    readPartition (PB := two_texts) (answer (log1 ++ [end1]) <$> [0; 1]%nat ++ [2]%nat) (mk_partitionState "p" 1 1) in
  fin = true ∧ [toEvent (stream_KV row1)] ∈ b ∧ mk_partitionState "x" 1700000003000000000 1700000003000000000 ∈ q.
Proof.
  assert (log_ok (PB := two_texts) log1 end1) as Hok.
  { split_and!.
    - constructor; [constructor; constructor|]. by apply Forall_singleton.
    - intros e [->|[->|[]%elem_of_nil]%elem_of_cons]%elem_of_cons; by vm_compute.
    - intros e ->%list_elem_of_singleton. by vm_compute.
    - by vm_compute. }
  pose proof (@partition_delivered two_texts log1 end1 [0; 1]%nat 2 (mk_partitionState "p" 1 1) Hok ltac:(by vm_compute)
                ltac:(cbn; lia)) as H.
  destruct (readPartition _ _) as [[[fin p'] b] q]. destruct H as (H1 & H2 & H3). split_and!; [done| |].
  - destruct (H2 (1700000001123456789, ListValue [render row1_inserted])) as [E|E]; [by left|by vm_compute| |].
    + exfalso. vm_compute in E. done.
    + assert (dr_events (row_of (PB := two_texts) (1700000001123456789, ListValue [render row1_inserted])) =
              [toEvent (stream_KV row1)]) as E' by (vm_compute; reflexivity).
      by rewrite E' in E.
  - apply H3. vm_compute. left.
Defined.

(** A row that ends its partition with the child [t]. *)
Definition ended_by (t : string) : next_result :=
  NextRow (Some (ListValue [render (Children 1700000003000000000 [t])])).

(** The discovery query finds two partitions. *)
Definition two_partitions (_ : Z) : row_stream :=
  ([Some (ListValue [render (Children 1700000000000000000 ["a"; "b"])])], None).

(** "a" and "b" were merged into "c".  "a" ends first, "c" is read to its end, and then
    "b" ends. *)
Definition merge_run : list (ChangeStreamReader → ChangeStreamReader) :=
  [initial_send; initial_send; start_receive 0; start_receive 0;
   reader_top 0; reader_next (PB := two_texts) 0 (ended_by "c"); reader_send 0; start_receive 0;
   reader_top 2; reader_next (PB := two_texts) 2 (ended_by "d"); reader_send 2; reader_send 2].

Definition merge_run' : list (ChangeStreamReader → ChangeStreamReader) :=
  [reader_exit 2; reader_top 1; reader_next (PB := two_texts) 1 (ended_by "c"); reader_send 1;
   start_receive 0; start_receive 0].

Definition run_local (fs : list (ChangeStreamReader → ChangeStreamReader)) (c : csworld) : csworld :=
  mk_csworld (cs_store c) (foldl (λ r f, f r) (cs_reader c) fs).

Definition merged : csworld :=
  run_local merge_run'
    (reader_after (SP := solo) 2 0 0
       (run_local merge_run
          (Start (SP := solo) (PB := two_texts) 1700000001000000000 two_partitions
             (mk_csworld (world_of empty_db) (NewChangeStreamReader "r"))))).

Lemma run_local_steps `{SP : Spanner} `{PB : Structpb} fs c :
  Forall (λ f, ∀ r, reader_step r (f r)) fs → rtc cs_step c (run_local fs c).
Proof.
  destruct c as [w r]. unfold run_local. cbn. intros Hfs. revert r. induction Hfs as [|f fs Hf _ IH]; intros r; [done|].
  cbn. eapply rtc_l; [|apply IH]. by apply cs_local.
Qed.

Lemma merged_reachable :
  rtc (cs_step (SP := solo) (PB := two_texts)) (mk_csworld (world_of empty_db) (NewChangeStreamReader "r")) merged.
Proof.
  unfold merged. eapply rtc_l; [by apply cs_Start|].
  etransitivity; [apply (run_local_steps merge_run); repeat constructor; intros; constructor|].
  eapply rtc_l; [apply cs_after|].
  apply run_local_steps. repeat constructor; intros; constructor.
Qed.

(** A child of two partitions is read a second time, from its start, when its first reader
    has finished before the other parent reports it: only readers under way are
    remembered. *)
Theorem child_partition_read_twice :
  ∃ c, rtc (cs_step (SP := solo) (PB := two_texts))
         (mk_csworld (world_of empty_db) (NewChangeStreamReader "r")) c ∧
    (λ g, (token (rd_p g), is_REnded (rd_phase g))) <$> cr_readers (cs_reader c) =
    [("a", false); ("b", false); ("c", true); ("d", false); ("c", false)].
Proof. exists merged. split; [apply merged_reachable|]. vm_compute. reflexivity. Qed.

Lemma one_reader_per_partition_witness :
  NoDup (live_tokens (cr_readers (cs_reader merged))) ∧ "c" ∈ cr_active (cs_reader merged).
Proof.
  destruct (@one_reader_per_partition solo two_texts "r" (world_of empty_db) merged merged_reachable) as (H1 & H2 & _).
  split; [exact H1|]. apply H2. vm_compute. right. right. right. left.
Defined.
