(* ===== verification/PollLoop.v ===== *)
(** * pkg/store/watch.go: the poll loop next to the change stream

    [newWatcher] starts the poll loop and [startChangeStream], which starts the reader of
    [Partitions] and a goroutine that marks it healthy after ten seconds.  The actions of
    these goroutines over the subscriptions of [Watcher], and what follows for the two
    sources of events taken together. *)

From Stdlib Require Import Ascii String.
From S2P Require Import Prelude Go GoText GoTextProps Spanner Rows Invariant Sim StoreRead StoreWrite Reads Watcher WatchProps ChangeStream ChangeStreamProps Partitions.

Open Scope string_scope.
Open Scope list_scope.
Open Scope Z_scope.

Definition pollInterval : Z := Second.
Definition pollSlowInterval : Z := 30 * Second.
Definition csHealthyDuration : Z := 10 * Second.

(** Where the poll loop stands: before it reads the current revision; in its [select];
    returned.  Where [startChangeStream] stands: in [reader.Start]; returned. *)
Inductive poll_phase := PollInit | PollLoop | PollReturned.
Inductive monitor_phase := Waiting | Fired | Left.

(** [fs_ticker] is the interval of the ticker, [fs_csDone] says that [startChangeStream]
    has seen [Start] return. *)
Record feeds := mk_feeds {
  fs_v : wworld;
  fs_stopCh : bool;
  fs_ctx : bool;
  fs_csHealthy : bool;
  fs_ticker : Z;
  fs_poll : poll_phase;
  fs_monitor : monitor_phase;
  fs_reader : ChangeStreamReader;
  fs_csDone : bool;
}.

(** [replicaID] is the store's address, printed. *)
Definition newWatcher (w : world) (replicaID : string) : feeds :=
  mk_feeds (mk_wworld w (mk_Watcher [] [] 0)) false false false pollInterval PollInit Waiting
    (NewChangeStreamReader replicaID) false.

Definition watcher_close (f : feeds) : feeds :=
  mk_feeds (fs_v f) true (fs_ctx f) (fs_csHealthy f) (fs_ticker f) (fs_poll f) (fs_monitor f) (fs_reader f) (fs_csDone f).

(** The context of the store is shared with the reader. *)
Definition watcher_cancel (f : feeds) : feeds :=
  mk_feeds (fs_v f) (fs_stopCh f) true (fs_csHealthy f) (fs_ticker f) (fs_poll f) (fs_monitor f)
    (ctx_cancel (fs_reader f)) (fs_csDone f).

Definition set_v (v : wworld) (f : feeds) : feeds :=
  mk_feeds v (fs_stopCh f) (fs_ctx f) (fs_csHealthy f) (fs_ticker f) (fs_poll f) (fs_monitor f) (fs_reader f) (fs_csDone f).

Definition set_poll (p : poll_phase) (f : feeds) : feeds :=
  mk_feeds (fs_v f) (fs_stopCh f) (fs_ctx f) (fs_csHealthy f) (fs_ticker f) p (fs_monitor f) (fs_reader f) (fs_csDone f).

Definition set_ticker (t : Z) (f : feeds) : feeds :=
  mk_feeds (fs_v f) (fs_stopCh f) (fs_ctx f) (fs_csHealthy f) t (fs_poll f) (fs_monitor f) (fs_reader f) (fs_csDone f).

Definition set_health (h : bool) (m : monitor_phase) (f : feeds) : feeds :=
  mk_feeds (fs_v f) (fs_stopCh f) (fs_ctx f) h (fs_ticker f) (fs_poll f) m (fs_reader f) (fs_csDone f).

Definition dispatchFromCS (events : list Event) (v : wworld) : wworld :=
  mk_wworld (vs_store v) (dispatchEvents events (vs_watcher v)).

Section feeds.
Context `{SP : Spanner} `{PB : Structpb}.

(** *** [pollLoop] *)

Definition poll_enter (f : feeds) : feeds :=
  match fs_poll f with PollInit => set_poll PollLoop (set_v (poll_init (fs_v f)) f) | _ => f end.

Definition poll_leave (f : feeds) : feeds :=
  match fs_poll f with
  | PollLoop => if fs_stopCh f || fs_ctx f then set_poll PollReturned f else f
  | _ => f
  end.

Definition poll_hint (f : feeds) : feeds :=
  match fs_poll f with PollLoop => set_v (poll_notified (fs_v f)) f | _ => f end.

Definition poll_tick (f : feeds) : feeds :=
  match fs_poll f with
  | PollLoop =>
      let f := set_ticker (if fs_csHealthy f then pollSlowInterval else pollInterval) f in
      set_v (doPoll (fs_v f)) f
  | _ => f
  end.

(** *** [startChangeStream] *)

(** The reader makes a step; the batches it hands to its callback are dispatched. *)
Definition cs_progress (w' : world) (r' : ChangeStreamReader) (f : feeds) : feeds :=
  let new := drop (length (cr_dispatched (fs_reader f))) (cr_dispatched r') in
  let v := foldl (λ v events, dispatchFromCS events v) (mk_wworld w' (vs_watcher (fs_v f))) new in
  mk_feeds v (fs_stopCh f) (fs_ctx f) (fs_csHealthy f) (fs_ticker f) (fs_poll f) (fs_monitor f) r' (fs_csDone f).

(** [Start] has returned: with an error the flag is cleared. *)
Definition cs_returned (f : feeds) : feeds :=
  match cr_start (fs_reader f) with
  | SReturned err =>
      if fs_csDone f then f
      else mk_feeds (fs_v f) (fs_stopCh f) (fs_ctx f) (match err with Some _ => false | None => fs_csHealthy f end)
             (fs_ticker f) (fs_poll f) (fs_monitor f) (fs_reader f) true
  | _ => f
  end.

(** Ten seconds after the start. *)
Definition monitor_fire (f : feeds) : feeds :=
  match fs_monitor f with Waiting => set_health true Fired f | _ => f end.

Definition monitor_leave (f : feeds) : feeds :=
  match fs_monitor f with
  | Waiting => if fs_stopCh f || fs_ctx f then set_health (fs_csHealthy f) Left f else f
  | _ => f
  end.

(** *** Interleavings *)

Inductive feeds_step (f : feeds) : feeds → Prop :=
| fs_subscribe prefix afterRev :
    feeds_step f (set_v (mk_wworld (vs_store (fs_v f)) (subscribe prefix afterRev (vs_watcher (fs_v f))).2) f)
| fs_store w' : feeds_step f (set_v (mk_wworld w' (vs_watcher (fs_v f))) f)
| fs_poll_enter : feeds_step f (poll_enter f)
| fs_poll_leave : feeds_step f (poll_leave f)
| fs_poll_hint : feeds_step f (poll_hint f)
| fs_poll_tick : feeds_step f (poll_tick f)
| fs_reader_step c' :
    cs_step (mk_csworld (vs_store (fs_v f)) (fs_reader f)) c' →
    feeds_step f (cs_progress (cs_store c') (cs_reader c') f)
| fs_cs_returned : feeds_step f (cs_returned f)
| fs_monitor_fire : feeds_step f (monitor_fire f)
| fs_monitor_leave : feeds_step f (monitor_leave f)
| fs_close : feeds_step f (watcher_close f)
| fs_cancel : feeds_step f (watcher_cancel f).

End feeds.

(** ** Lemmas *)

Section lemmas.
Context `{SP : Spanner} `{PB : Structpb}.

(** The interval of the ticker is one of the two, and the slow one was chosen only after
    the ten seconds. *)
Definition pace_ok (f : feeds) : Prop :=
  (fs_ticker f = pollInterval ∨ fs_ticker f = pollSlowInterval ∧ fs_monitor f = Fired) ∧
  (fs_csHealthy f = true → fs_monitor f = Fired).

Lemma pace_step f f' : feeds_step f f' → pace_ok f → pace_ok f'.
Proof.
  unfold pace_ok. destruct 1; intros [Ht Hh]; cbn; try done.
  - unfold poll_enter. by destruct (fs_poll f).
  - unfold poll_leave. destruct (fs_poll f); try done. by case_bool.
  - unfold poll_hint. by destruct (fs_poll f).
  - unfold poll_tick. destruct (fs_poll f); try done. cbn. case_bool; auto.
  - unfold cs_returned. destruct (cr_start _) as [| | |[e|]]; try done; by case_bool.
  - unfold monitor_fire. destruct (fs_monitor f) eqn:E; rewrite ?E; cbn; naive_solver.
  - unfold monitor_leave. destruct (fs_monitor f) eqn:E; rewrite ?E; [case_bool; cbn|..]; naive_solver.
Qed.

(** Until ten seconds after the start the poll loop, however often it was woken, polls
    every second: its interval is a second or thirty seconds, and thirty only once the
    change stream was marked healthy. *)
Theorem poll_pace replicaID w f :
  rtc feeds_step (newWatcher w replicaID) f →
  (fs_ticker f = pollInterval ∨ fs_ticker f = pollSlowInterval) ∧
  (fs_monitor f = Waiting → fs_ticker f = pollInterval ∧ fs_csHealthy f = false).
Proof.
  intros Hrun. assert (pace_ok f) as [Ht Hh].
  { assert (pace_ok (newWatcher w replicaID)) as H0 by (split; [by left|done]).
    revert H0. induction Hrun as [|f0 f1 f2 Hs _ IH]; [done|]. intros H. by apply IH, (pace_step _ _ Hs). }
  split; [naive_solver|]. intros Hw. destruct (fs_csHealthy f) eqn:E; [specialize (Hh eq_refl); congruence|].
  split; [|done]. destruct Ht as [|[_ Hf]]; [done|]. congruence.
Qed.

End lemmas.

(** ** The flag after a failure *)

(** The discovery query fails, as it does on the emulator. *)
Definition no_streams (_ : Z) : row_stream := ([], Some (SpannerError Unimplemented "change streams")).

Section failure.
Context (w : world).

Definition f_failed : feeds :=
  let c' := Start (SP := solo) (PB := two_texts) 0 no_streams (mk_csworld w (NewChangeStreamReader "r")) in
  cs_returned (cs_progress (cs_store c') (cs_reader c') (newWatcher w "r")).

Lemma f_failed_run : rtc (feeds_step (SP := solo) (PB := two_texts)) (newWatcher w "r") f_failed.
Proof.
  unfold f_failed. cbv zeta. eapply rtc_r; [|apply fs_cs_returned].
  eapply rtc_r; [reflexivity|]. apply fs_reader_step. by apply cs_Start.
Qed.

End failure.

(** When the change stream fails to start, the goroutine that waits ten seconds still marks
    it healthy, and the poll loop, now the only source of events, polls every thirty
    seconds instead of every second. *)
Theorem failed_stream_slows_polls :
  ∃ f, rtc (feeds_step (SP := solo) (PB := two_texts)) (newWatcher (world_of empty_db) "r") f ∧
    (∃ e, cr_start (fs_reader f) = SReturned (Some e)) ∧ fs_csDone f = true ∧
    fs_csHealthy f = true ∧ fs_ticker f = pollSlowInterval.
Proof.
  exists (poll_tick (SP := solo) (monitor_fire (poll_enter (SP := solo) (f_failed (world_of empty_db))))). split.
  - eapply rtc_r; [|apply fs_poll_tick]. eapply rtc_r; [|apply fs_monitor_fire]. eapply rtc_r; [|apply fs_poll_enter].
    apply f_failed_run.
  - split_and!; [eexists; vm_compute; reflexivity|vm_compute; reflexivity..].
Qed.

(** ** Both sources *)

Section twice.
Context `{SP : Spanner} `{!SpannerLaws SP} `{PB : Structpb} `{!StructpbLaws PB}.

(** A row that the poll loop has delivered is delivered again when the change stream reports
    it: nothing compares the two sources, so an open subscription whose prefix selects the
    row gets two batches for one write. *)
Theorem write_delivered_twice w wt i s r ts keys json :
  world_wf w → clock_ok 2 w → quiet w → compact_rev (w_db w) ≤ wt_lastRev wt →
  newer (wt_lastRev wt) (w_db w) = [r] → NoDup (wt_subscribers wt) → i ∈ wt_subscribers wt →
  wt_objs wt !! i = Some s → sub_closed s = false → sub_ch s = [] → sub_matches s (toEvent (KV_of r)) = true →
  UnmarshalJSON "{}" = Some ∅ → change_ok (Inserted ts [(keys, json, r)]) →
  let polled := doPoll (mk_wworld w wt) in
  let streamed := dispatchFromCS (dr_events (decodeRecord (ListValue [render (Inserted ts [(keys, json, r)])]))) polled in
  sub_ch <$> wt_objs (vs_watcher streamed) !! i = Some [[toEvent (KV_of r)]; [toEvent (stream_KV r)]].
Proof using All.
  intros Hw Hc Hq Hcr Hnew Hnd Hi Hs Hcl Hch Hm He Hok. cbv zeta. rewrite decodeRecord_one by done.
  destruct (doPoll_quiet w wt Hw Hc Hq Hcr) as (all & w' & _ & Hp & ->).
  rewrite Hnew in Hp. apply Permutation_singleton_r in Hp as ->.
  cbn [change_events fmap list_fmap]. unfold dispatchFromCS. cbn [vs_watcher limitClause].
  change (limitClause pollBatchSize [r]) with [r]. cbn [fmap list_fmap].
  rewrite dispatch_spec; cbn [wt_subscribers]; rewrite dispatch_subscribers; [|done].
  rewrite bool_decide_true by done. cbn [wt_objs]. rewrite dispatch_spec, bool_decide_true, Hs by done.
  cbn [fmap option_fmap option_map]. f_equal.
  assert (sub_matches s (toEvent (stream_KV r)) = true) as Hm' by done.
  assert (dispatch_one [event_of r] s = enqueue [event_of r] s) as ->.
  { unfold dispatch_one, matching, offer, room. rewrite filter_cons, decide_True by done. by rewrite Hcl, Hch. }
  unfold dispatch_one, matching. rewrite filter_cons, decide_True by done.
  destruct s as [prefix ch ca cl ph]. cbn in Hcl, Hch. by subst.
Qed.

End twice.

(** ** Witnesses *)

Lemma poll_pace_witness : fs_ticker (f_failed (world_of empty_db)) = pollInterval.
Proof.
  exact (proj1 (proj2 (@poll_pace solo two_texts "r" (world_of empty_db) _ (f_failed_run (world_of empty_db))) eq_refl)).
Defined.

Definition k_json : string := Eval vm_compute in json
  "{'rev':'1970-01-01T00:00:00.000000110Z','key':'k','value':'Yg==','old_value':'YQ==','lease_id':'0','deleted':false,'created':false,'create_revision':'1970-01-01T00:00:00.000000100Z','prev_revision':'1970-01-01T00:00:00.000000100Z'}".

Lemma k_row_stream_ok : stream_row_ok k_row.
Proof.
  split_and!; [|done|intros l [= <-]; unfold int64_range; lia].
  split; cbn; [lia|eauto|done|eexists; split; [done|lia]|done|].
  intros _. eexists _, _. split_and!; [done..| |]; lia.
Qed.

Lemma write_delivered_twice_witness :
  let PB := texts k_json k_row in
  sub_ch <$> wt_objs (vs_watcher (dispatchFromCS
    (dr_events (decodeRecord (PB := PB) (ListValue [render (Inserted 110 [("", k_json, k_row)])])))
    (doPoll (SP := solo) (mk_wworld run2 (k_watcher 100))))) !! 0%nat =
  Some [[toEvent (KV_of k_row)]; [toEvent (stream_KV k_row)]].
Proof.
  cbv zeta.
  apply (@write_delivered_twice solo solo_laws (texts k_json k_row) (texts_laws _ _) run2 (k_watcher 100) 0 k_sub k_row
           110 "" k_json run2_wf (sim_clock _ _ 2 run2 eq_refl) (solo_quiet run2)).
  - vm_compute. discriminate.
  - vm_compute. reflexivity.
  - apply NoDup_singleton.
  - by apply list_elem_of_singleton.
  - reflexivity.
  - reflexivity.
  - reflexivity.
  - vm_compute. reflexivity.
  - reflexivity.
  - split; [unfold int64_range; lia|]. apply Forall_singleton. split_and!; [apply k_row_stream_ok|done|done|reflexivity].
Defined.
