(* ===== verification/Migrate.v ===== *)
(** * cmd/migrate: copying an etcd into spanner-etcd

    The migration tool reads pages of keys from a source and puts them into a
    destination.  The two servers are reached through the etcd client, the class [Etcd];
    files, key pairs and the construction of a client are parameters. *)

From Stdlib Require Import Ascii String.
From S2P Require Import Prelude Go GoText Spanner StoreRead KVServer.

Open Scope string_scope.
Open Scope list_scope.
Open Scope Z_scope.

(** ** Flags *)

Record config := mk_config {
  cfg_src : string;
  cfg_srcUser : string;
  cfg_srcPassword : string;
  cfg_dst : string;
  cfg_dstCACert : string;
  cfg_dstCert : string;
  cfg_dstKey : string;
  cfg_batchSize : Z;
  cfg_verify : bool;
  cfg_dryRun : bool;
  cfg_logLevel : string;
}.

(** [getenv] is the environment, [""] for a variable that is not set. *)
Definition envOr (getenv : string → string) (key def : string) : string :=
  let v := getenv key in if bool_decide (v = "") then def else v.

(** One argument. *)
Definition parseFlag (c : config) (arg : string) : config :=
  let '(mk_config src user pw dst ca cert key batch verify dry level) := c in
  if HasPrefix arg "--src=" then mk_config (TrimPrefix arg "--src=") user pw dst ca cert key batch verify dry level
  else if HasPrefix arg "--src-user=" then
    mk_config src (TrimPrefix arg "--src-user=") pw dst ca cert key batch verify dry level
  else if HasPrefix arg "--src-password=" then
    mk_config src user (TrimPrefix arg "--src-password=") dst ca cert key batch verify dry level
  else if HasPrefix arg "--dst=" then mk_config src user pw (TrimPrefix arg "--dst=") ca cert key batch verify dry level
  else if HasPrefix arg "--dst-cacert=" then
    mk_config src user pw dst (TrimPrefix arg "--dst-cacert=") cert key batch verify dry level
  else if HasPrefix arg "--dst-cert=" then
    mk_config src user pw dst ca (TrimPrefix arg "--dst-cert=") key batch verify dry level
  else if HasPrefix arg "--dst-key=" then
    mk_config src user pw dst ca cert (TrimPrefix arg "--dst-key=") batch verify dry level
  else if bool_decide (arg = "--verify") then mk_config src user pw dst ca cert key batch true dry level
  else if bool_decide (arg = "--no-verify") then mk_config src user pw dst ca cert key batch false dry level
  else if bool_decide (arg = "--dry-run") then mk_config src user pw dst ca cert key batch verify true level
  else c.

Definition parseFlags (getenv : string → string) (args : list string) : config :=
  foldl parseFlag
    (mk_config (envOr getenv "SRC_ENDPOINT" "http://localhost:2379") "" ""
       (envOr getenv "DST_ENDPOINT" "http://localhost:12379") "" "" "" 500 true false "info") args.

(** ** Logging *)

Inductive zap_level := DebugLevel | InfoLevel | WarnLevel | ErrorLevel | OtherLevel.

Definition gcpLevelEncoder (l : zap_level) : string :=
  match l with
  | DebugLevel => "DEBUG"
  | InfoLevel => "INFO"
  | WarnLevel => "WARNING"
  | ErrorLevel => "ERROR"
  | OtherLevel => "CRITICAL"
  end.

(** A logger: its level, the names of its fields, and how it writes a level. *)
Record logger := mk_logger {
  zl_level : zap_level;
  zl_TimeKey : string;
  zl_MessageKey : string;
  zl_LevelKey : string;
  zl_CallerKey : string;
  zl_EncodeLevel : zap_level → string;
}.

(** The level and the caller's field are those of zap's production configuration. *)
Definition buildLogger (level : string) : logger :=
  mk_logger InfoLevel "time" "message" "severity" "caller" gcpLevelEncoder.

(** Keys and values as the client returns them. *)
Abbreviation entry := (string * string)%type.

(** [printSample]: the key, the size and the preview of each entry that is logged. *)
Definition printSample (kvs : list entry) (n : nat) : list (string * Z * string) :=
  let n := if (length kvs <? n)%nat then length kvs else n in
  (λ '(k, v), (k, Z.of_nat (String.length v),
               if 80 <? Z.of_nat (String.length v) then String.substring 0 80 v +:+ "..." else v)) <$> take n kvs.

(** ** Clients *)

Record tls_config := mk_tls_config { tls_RootCAs : option string; tls_Certificate : option (string * string) }.

Record client_config := mk_client_config {
  cc_Endpoint : string;
  cc_TLS : option tls_config;
  cc_Username : string;
  cc_Password : string;
}.

Section newClient.
(** [os.ReadFile], [tls.LoadX509KeyPair] and [clientv3.New]. *)
Context (ReadFile : string → res string) (LoadX509KeyPair : string → string → option error)
  {client : Type} (New : client_config → res client).

Definition newClient (endpoint user password cacert cert key : string) : res client :=
  let connect tls :=
    let cfg := mk_client_config endpoint tls in
    if bool_decide (user = "") then New (cfg "" "") else New (cfg user password) in
  if bool_decide (cacert = "") && bool_decide (cert = "") then connect None
  else
    match (if bool_decide (cacert = "") then Ok None
           else match ReadFile cacert with Ok pem => Ok (Some pem) | Err e => Err (Wrapf "read ca: %w" [] e) end) with
    | Err e => Err e
    | Ok ca =>
        if negb (bool_decide (cert = "")) && negb (bool_decide (key = "")) then
          match LoadX509KeyPair cert key with
          | Some e => Err (Wrapf "load keypair: %w" [] e)
          | None => connect (Some (mk_tls_config ca (Some (cert, key))))
          end
        else connect (Some (mk_tls_config ca None))
    end.

End newClient.

(** The calls of the etcd client the tool makes: [Get(key)], [Get(key, WithFromKey,
    WithLimit)], [Put]. *)
Class Etcd (W : Type) := {
  etcd_Get : string → ST W (res (list entry));
  etcd_GetFrom : string → Z → ST W (res (list entry));
  etcd_Put : string → string → ST W (res unit);
}.

Section run.
Context {Ws Wd : Type} `{ES : Etcd Ws} `{ED : Etcd Wd}.

Definition on_src {A} (m : ST Ws A) : ST (Ws * Wd) A :=
  λ w, let (a, s) := m w.1 in (a, (s, w.2)).
Definition on_dst {A} (m : ST Wd A) : ST (Ws * Wd) A :=
  λ w, let (a, d) := m w.2 in (a, (w.1, d)).

(** The loop over a page: how many keys were put and how many failed so far. *)
Fixpoint put_page (kvs : list entry) (acc : Z * Z) : ST (Ws * Wd) (Z * Z) :=
  match kvs with
  | [] => mret acc
  | (key, value) :: kvs =>
      r ← on_dst (etcd_Put key value);
      let (migrated, failed) := (acc : Z * Z) in
      put_page kvs (match (r : res unit) with Ok _ => (migrated + 1, failed) | Err _ => (migrated, failed + 1) end)
  end.

(** The loop over the pages ends with a read error, with the sample of a dry run, or with
    the counts; [None] when the fuel is used up. *)
Inductive copied := ReadError (e : error) | Sampled (sample : list (string * Z * string)) | Copied (migrated failed : Z).

Fixpoint copy_pages (fuel : nat) (dryRun : bool) (pageSize : Z) (lastKey : string) (acc : Z * Z) :
    ST (Ws * Wd) (option copied) :=
  match fuel with
  | O => mret None
  | S fuel =>
      let fromKey := if bool_decide (lastKey = "") then nul else lastKey in
      resp ← on_src (etcd_GetFrom fromKey pageSize);
      match (resp : res (list entry)) with
      | Err e => mret (Some (ReadError (Wrapf "read source page: %w" [] e)))
      | Ok [] => mret (Some (Copied acc.1 acc.2))
      | Ok kvs =>
          if dryRun && (acc.1 =? 0) then
            let n := if (length kvs <? 10)%nat then length kvs else 10%nat in
            mret (Some (Sampled (printSample (take n kvs) n)))
          else
            acc ← put_page kvs acc;
            if Z.of_nat (length kvs) <? pageSize then mret (Some (Copied acc.1 acc.2))
            else copy_pages fuel dryRun pageSize (default "" (fst <$> last kvs) +:+ nul) acc
      end
  end.

(** The loop of [verify]: how many keys are right, missing and wrong so far. *)
Fixpoint verify_keys (kvs : list entry) (acc : Z * Z * Z) : ST (Ws * Wd) (Z * Z * Z) :=
  match kvs with
  | [] => mret acc
  | (key, value) :: kvs =>
      r ← on_dst (etcd_Get key);
      let '(ok, missing, wrong) := (acc : Z * Z * Z) in
      verify_keys kvs
        match (r : res (list entry)) with
        | Err _ | Ok [] => (ok, missing + 1, wrong)
        | Ok ((_, v) :: _) => if bool_decide (v = value) then (ok + 1, missing, wrong) else (ok, missing, wrong + 1)
        end
  end.

Definition verify : ST (Ws * Wd) (res unit) :=
  resp ← on_src (etcd_GetFrom "" 0);
  match (resp : res (list entry)) with
  | Err e => mret (Err (Wrapf "verify read source: %w" [] e))
  | Ok kvs =>
      acc ← verify_keys kvs (0, 0, 0);
      let '(ok, missing, wrong) := (acc : Z * Z * Z) in
      mret (if (0 <? missing) || (0 <? wrong)
            then Err (Errorf "verification failed: %d missing, %d wrong value" [ArgZ missing; ArgZ wrong])
            else Ok ())
  end.

(** [run] once the clients are connected. *)
Definition migrate (fuel : nat) (cfg : config) : ST (Ws * Wd) (option (res unit)) :=
  c ← copy_pages fuel (cfg_dryRun cfg) (cfg_batchSize cfg) "" (0, 0);
  match c with
  | None => mret None
  | Some (ReadError e) => mret (Some (Err e))
  | Some (Sampled _) => mret (Some (Ok ()))
  | Some (Copied _ failed) =>
      if 0 <? failed then mret (Some (Err (Errorf "%d keys failed to migrate" [ArgZ failed])))
      else if cfg_verify cfg then r ← verify; mret (Some r)
      else mret (Some (Ok ()))
  end.

(** [run]: [connect] is [newClient]. *)
Definition run (connect : string → string → string → string → string → string → res unit) (fuel : nat) (cfg : config) :
    ST (Ws * Wd) (option (res unit)) :=
  match connect (cfg_src cfg) (cfg_srcUser cfg) (cfg_srcPassword cfg) "" "" "" with
  | Err e => mret (Some (Err (Wrapf "source client: %w" [] e)))
  | Ok _ =>
      match connect (cfg_dst cfg) "" "" (cfg_dstCACert cfg) (cfg_dstCert cfg) (cfg_dstKey cfg) with
      | Err e => mret (Some (Err (Wrapf "destination client: %w" [] e)))
      | Ok _ => migrate fuel cfg
      end
  end.

End run.
