(* ===== verification/MigrateProps.v ===== *)
(** * What a migration achieves

    The contract of the servers as the tool uses them ([SourceLaws], [SinkLaws]: an abstract
    content, and an invariant with a budget of calls), the correctness of the tool against it, and
    that the KV service of this program meets it, so that a migration into spanner-etcd
    copies the source. *)

From Stdlib Require Import Ascii String.
From S2P Require Import Prelude Go GoText Spanner Rows Invariant Sim StoreRead StoreWrite Reads StoreTxn StoreCompact StoreSpec StoreInvariant Safe KVServer KVProps Migrate.

Open Scope string_scope.
Open Scope list_scope.
Open Scope Z_scope.

(** ** Pages *)

Definition entry_le (a b : entry) : Prop := str_le a.1 b.1.

#[export] Instance entry_le_dec a b : Decision (entry_le a b).
Proof. unfold entry_le. apply _. Defined.
#[export] Instance entry_le_trans : Transitive entry_le.
Proof. intros a b c. unfold entry_le. apply str_le_trans. Qed.
#[export] Instance entry_le_total : Total entry_le.
Proof. intros a b. apply str_le_total. Qed.

(** The entries of a map in the order of the keys. *)
Definition entries (m : gmap string string) : list entry := merge_sort entry_le (map_to_list m).

(** The entries from a key on, at most [limit] of them when it is positive. *)
Definition page (m : gmap string string) (from : string) (limit : Z) : list entry :=
  limitClause limit (filter (λ e : entry, str_le from e.1) (entries m)).

Lemma entries_perm m : entries m ≡ₚ map_to_list m.
Proof. apply merge_sort_Permutation. Qed.

Lemma entries_elem m k v : (k, v) ∈ entries m ↔ m !! k = Some v.
Proof. by rewrite entries_perm, elem_of_map_to_list. Qed.

Lemma entries_keys m : NoDup (entries m).*1.
Proof. rewrite entries_perm. apply NoDup_fst_map_to_list. Qed.

Lemma entries_sorted m : StronglySorted entry_le (entries m).
Proof. apply Sorted_StronglySorted; [apply _|]. apply Sorted_merge_sort, _. Qed.

Lemma entries_length m : length (entries m) = size m.
Proof. by rewrite entries_perm, length_map_to_list. Qed.

(** The successor of a key in the order of byte strings. *)
Lemma str_le_succ k x : str_le (k +:+ nul) x ↔ str_le k x ∧ x ≠ k.
Proof.
  revert x. induction k as [|a k IH]; intros x.
  - destruct x as [|b x]; [by split; [intros H; done|intros [_ ?]]|]. split; [done|]. intros _.
    change ("" +:+ nul) with (String (ascii_of_N 0) ""). apply str_le_cons.
    destruct (decide (b = ascii_of_N 0)) as [->|Hb]; [right; by destruct x|left].
    destruct (N.eq_dec (N_of_ascii b) 0%N) as [E|E]; [|cbn; lia].
    destruct Hb. by rewrite <-(ascii_N_embedding b), E.
  - destruct x as [|b x]; [by split; [intros H|intros [H _]]|].
    change (String a k +:+ nul) with (String a (k +:+ nul)). rewrite !str_le_cons, IH. split.
    + intros [H|(-> & H & Hne)]; [split; [by left|intros [= ->]; lia]|]. split; [by right|congruence].
    + intros [[H|[-> H]] Hne]; [by left|]. right. split_and!; congruence || done.
Qed.

Lemma str_le_nul x : x ≠ "" → str_le nul x.
Proof. intros Hx. apply (str_le_succ "" x). split; [by destruct x|done]. Qed.

(** The page after the one that ends in [k]. *)
Lemma next_page m from P k v Q :
  filter (λ e : entry, str_le from e.1) (entries m) = (P ++ [(k, v)]) ++ Q →
  filter (λ e : entry, str_le (k +:+ nul) e.1) (entries m) = Q.
Proof.
  intros E.
  assert (str_le from k) as Hk.
  { assert ((k, v) ∈ filter (λ e : entry, str_le from e.1) (entries m)) as H by (rewrite E; set_solver).
    by apply list_elem_of_filter in H as [? _]. }
  assert (StronglySorted entry_le ((P ++ [(k, v)]) ++ Q)) as Hs by (rewrite <-E; apply StronglySorted_filter, entries_sorted).
  assert (NoDup ((P ++ [(k, v)]) ++ Q).*1) as Hnd by (rewrite <-E; apply NoDup_fmap_filter, entries_keys).
  rewrite (filter_ext_on _ (λ e : entry, str_le (k +:+ nul) e.1 ∧ str_le from e.1)).
  2: { intros x _. split; [|tauto]. intros Hx. split; [done|]. etrans; [exact Hk|]. by apply str_le_succ in Hx as [? _]. }
  rewrite <-list_filter_filter, E, filter_app.
  apply StronglySorted_app in Hs as (Hpq & Hp & _). apply StronglySorted_app in Hp as (Hp & _ & _).
  rewrite filter_none, filter_all; [done| |].
  - intros x Hx. apply str_le_succ. split; [apply (Hpq (k, v) x); set_solver|]. intros Ex.
    rewrite fmap_app in Hnd. apply NoDup_app in Hnd as (_ & Hdis & _). apply (Hdis k).
    + rewrite fmap_app. apply elem_of_app. right. by left.
    + apply list_elem_of_fmap. by exists x.
  - intros x [Hx| ->%list_elem_of_singleton]%elem_of_app [Hle Hne]%str_le_succ; [|done].
    apply Hne. apply (anti_symm str_le); [apply (Hp x (k, v)); [done|by left]|done].
Qed.

(** ** The contract of a server *)

(** [I n w]: the server can take [n] more calls. *)
Class Budget {W} (I : nat → W → Prop) : Prop := budget_le n n' w : (n ≤ n')%nat → I n' w → I n w.

(** A source: a call may fail; nobody changes the content. *)
Class SourceLaws {W} (E : Etcd W) (I : nat → W → Prop) (content : W → gmap string string) : Prop := {
  source_budget :: Budget I;
  el_GetFrom n k limit w : I (S n) w →
    let (r, w') := etcd_GetFrom k limit w in
    I n w' ∧ content w' = content w ∧ ∀ kvs, r = Ok kvs → kvs = page (content w) k limit;
}.

(** A destination: a call may fail; a failed put may or may not have been performed; nobody
    else changes the content. *)
Class SinkLaws {W} (E : Etcd W) (I : nat → W → Prop) (content : W → gmap string string) : Prop := {
  sink_budget :: Budget I;
  el_Get n k w : I (S n) w →
    let (r, w') := etcd_Get k w in
    I n w' ∧ content w' = content w ∧
    ∀ kvs, r = Ok kvs → kvs = match content w !! k with Some v => [(k, v)] | None => [] end;
  el_Put n k v w : I (S n) w →
    let (r, w') := etcd_Put k v w in
    I n w' ∧ (content w' = <[k := v]> (content w) ∨ is_ok r = false ∧ content w' = content w);
}.

(** No call fails. *)
Class SourceReliable {W} (E : Etcd W) (I : nat → W → Prop) : Prop :=
  er_GetFrom n k limit w : I (S n) w → is_ok (etcd_GetFrom k limit w).1 = true.
Class SinkReliable {W} (E : Etcd W) (I : nat → W → Prop) : Prop := {
  er_Get n k w : I (S n) w → is_ok (etcd_Get k w).1 = true;
  er_Put n k v w : I (S n) w → is_ok (etcd_Put k v w).1 = true;
}.

(** Putting entries one after the other. *)
Definition puts (kvs : list entry) (m : gmap string string) : gmap string string :=
  foldl (λ m e, <[e.1 := e.2]> m) m kvs.

Lemma puts_app kvs kvs' m : puts (kvs ++ kvs') m = puts kvs' (puts kvs m).
Proof. apply foldl_app. Qed.

Lemma puts_lookup kvs m k :
  NoDup kvs.*1 → puts kvs m !! k = match list_to_map (M := gmap string string) kvs !! k with Some v => Some v | None => m !! k end.
Proof.
  revert m. induction kvs as [|[k' v] kvs IH]; intros m; cbn [fmap list_fmap].
  { intros _. cbn. by rewrite lookup_empty. }
  intros [Hk Hnd]%NoDup_cons. change (puts ((k', v) :: kvs) m) with (puts kvs (<[k' := v]> m)). rewrite IH by done.
  destruct (decide (k' = k)) as [->|Hne].
  - cbn. rewrite lookup_insert_eq. assert (list_to_map (M := gmap string string) kvs !! k = None) as ->
      by by apply not_elem_of_list_to_map_1. by rewrite lookup_insert_eq.
  - cbn. by rewrite !lookup_insert_ne by done.
Qed.

Lemma puts_entries m m' : puts (entries m) m' = m ∪ m'.
Proof.
  apply map_eq. intros k. rewrite puts_lookup by apply entries_keys.
  assert (list_to_map (entries m) = m) as ->.
  { rewrite <-(list_to_map_to_list m) at 2. apply list_to_map_proper; [apply entries_keys|apply entries_perm]. }
  rewrite lookup_union. by destruct (m !! k), (m' !! k).
Qed.

Section tool.
Context {Ws Wd : Type} `{ES : Etcd Ws} `{ED : Etcd Wd}.
Context (Is : nat → Ws → Prop) (Id : nat → Wd → Prop).
Context (src : Ws → gmap string string) (dst : Wd → gmap string string).
Context `{!SourceLaws ES Is src} `{!SinkLaws ED Id dst}.

Lemma put_page_spec kvs n m f (ws : Ws) (wd : Wd) :
  Id (n + length kvs) wd →
  ∃ m' f' wd', put_page kvs (m, f) (ws, wd) = ((m', f'), (ws, wd')) ∧ Id n wd' ∧ f ≤ f' ∧
    (f' = f → dst wd' = puts kvs (dst wd)) ∧ (SinkReliable ED Id → f' = f).
Proof using All.
  revert m f wd. induction kvs as [|[k v] kvs IH]; intros m f wd HI.
  - exists m, f, wd. cbn in HI. rewrite Nat.add_0_r in HI. done.
  - cbn [length] in HI. rewrite Nat.add_succ_r in HI.
    cbn [put_page]. unfold mbind, st_bind, on_dst. cbn [snd fst].
    pose proof (el_Put _ k v _ HI) as HP.
    assert (SinkReliable ED Id → is_ok (etcd_Put k v wd).1 = true) as Hrel by (intros HR; by eapply er_Put).
    destruct (etcd_Put k v wd) as [[[]|e] wd1]; cbn [fst snd is_ok] in *; destruct HP as [HI1 Hc].
    + destruct (IH (m + 1) f wd1 HI1) as (m' & f' & wd' & H & HI' & Hle & Hput & HR).
      exists m', f', wd'. split_and!; [exact H|done|done| |done]. intros E. rewrite (Hput E).
      cbn [puts foldl fst snd]. destruct Hc as [->|[? _]]; done.
    + destruct (IH m (f + 1) wd1 HI1) as (m' & f' & wd' & H & HI' & Hle & Hput & HR).
      exists m', f', wd'. split_and!; [exact H|done|lia|lia|]. intros HE. by specialize (Hrel HE).
Qed.

Definition remaining (from : string) (ws : Ws) : list entry := filter (λ e : entry, str_le from e.1) (entries (src ws)).

Lemma remaining_eq from ws ws' : src ws' = src ws → remaining from ws' = remaining from ws.
Proof. unfold remaining. by intros ->. Qed.

(** The copy from a key on: it ends, and without failures the rest of the source has been
    put. *)
Lemma copy_pages_spec fuel pageSize lastKey n m f (ws : Ws) (wd : Wd) :
  let R := remaining (if bool_decide (lastKey = "") then nul else lastKey) ws in
  0 < pageSize → (length R < fuel)%nat → Is (n + S (length R)) ws → Id (n + length R) wd →
  ∃ c ws' wd', copy_pages fuel false pageSize lastKey (m, f) (ws, wd) = (Some c, (ws', wd')) ∧
    src ws' = src ws ∧ Is n ws' ∧ Id n wd' ∧
    match c with
    | ReadError _ => ¬ SourceReliable ES Is
    | Sampled _ => False
    | Copied _ f' => f ≤ f' ∧ (f' = f → dst wd' = puts R (dst wd)) ∧ (SinkReliable ED Id → f' = f)
    end.
Proof using All.
  cbv zeta. intros Hps. revert lastKey m f ws wd. induction fuel as [|fuel IH]; intros lastKey m f ws wd; [lia|].
  set (from := if bool_decide (lastKey = "") then nul else lastKey). intros Hlen HIs HId.
  rewrite Nat.add_succ_r in HIs. cbn [copy_pages]. fold from. unfold mbind, st_bind, on_src. cbn [fst snd].
  pose proof (el_GetFrom _ from pageSize _ HIs) as HG.
  assert (SourceReliable ES Is → is_ok (etcd_GetFrom from pageSize ws).1 = true) as Hrel by (intros HR; by eapply er_GetFrom).
  destruct (etcd_GetFrom from pageSize ws) as [[kvs|e] ws1]; cbn [fst snd is_ok] in *; destruct HG as (HI1 & Hsrc & Hkvs).
  2: { eexists _, _, _. split; [reflexivity|]. split_and!; [done|eapply budget_le; [|exact HI1]; lia|
       eapply budget_le; [|exact HId]; lia|]. intros HR. by specialize (Hrel HR). }
  specialize (Hkvs _ eq_refl). unfold page, limitClause in Hkvs. rewrite (proj2 (Z.leb_gt pageSize 0) Hps) in Hkvs.
  unfold sql_limit in Hkvs. fold (remaining from ws) in Hkvs. set (R := remaining from ws) in *.
  assert (kvs ++ drop (length kvs) R = R) as Hsplit.
  { rewrite Hkvs at 1. rewrite <-(take_drop (Z.to_nat pageSize) R) at 3. f_equal. rewrite Hkvs, length_take.
    destruct (decide (Z.to_nat pageSize ≤ length R)%nat); [by rewrite Nat.min_l|].
    rewrite Nat.min_r, !drop_ge by lia. done. }
  destruct kvs as [|e0 kvs0].
  { eexists _, _, _. split; [reflexivity|].
    assert (R = []) as -> by (destruct R; [done|]; by replace (Z.to_nat pageSize) with (S (Z.to_nat pageSize - 1)) in Hkvs by lia).
    split_and!; [done|eapply budget_le; [|exact HI1]; lia|eapply budget_le; [|exact HId]; lia|lia|done|done]. }
  cbv iota beta. cbn [andb]. set (kvs := e0 :: kvs0) in *. assert (0 < length kvs)%nat as Hpos by (cbn; lia).
  assert (length R = length kvs + length (drop (length kvs) R))%nat as HlenR by (rewrite <-Hsplit at 1; apply length_app).
  rewrite HlenR, (Nat.add_comm (length kvs)), Nat.add_assoc in HId.
  destruct (put_page_spec kvs _ m f ws1 wd HId) as (m1 & f1 & wd1 & HP & HI2 & Hle & Hput & HR). rewrite HP.
  cbn [fst snd]. case_bool.
  - eexists _, _, _. split; [reflexivity|].
    assert (drop (length kvs) R = []) as Hnil.
    { apply drop_ge. rewrite Hkvs, length_take. rewrite Hkvs, length_take in Heqb. lia. }
    rewrite Hnil, app_nil_r in Hsplit. rewrite Hsplit in Hput.
    split_and!; [done|eapply budget_le; [|exact HI1]; lia|eapply budget_le; [|exact HI2]; lia|done|done|done].
  - destruct (last kvs) as [[k v]|] eqn:El; [|by apply last_None in El]. cbn [fmap option_fmap option_map default fst].
    apply last_Some in El as [P El].
    assert (k +:+ nul ≠ "") as Hne by by destruct k.
    specialize (IH (k +:+ nul) m1 f1 ws1 wd1). rewrite bool_decide_false in IH by done.
    assert (remaining (k +:+ nul) ws1 = drop (length kvs) R) as Hrem.
    { rewrite (remaining_eq _ ws) by done. apply (next_page _ from P k v). rewrite <-El. by rewrite Hsplit. }
    rewrite Hrem in IH. destruct IH as (c & ws' & wd' & H & Hs' & HI1' & HI2' & Hc);
      [lia|eapply budget_le; [|exact HI1]; lia|done|].
    exists c, ws', wd'. split_and!; [exact H|by rewrite Hs'|done|done|].
    destruct c as [e|?|m' f']; [done|done|]. destruct Hc as (Hle' & Hput' & HR'). split_and!; [lia| |].
    + intros Ef. rewrite Hput', Hput by lia. by rewrite <-puts_app, Hsplit.
    + intros Hrely. rewrite HR', HR; done.
Qed.

Lemma verify_keys_spec kvs n ok missing wrong (ws : Ws) (wd : Wd) :
  Id (n + length kvs) wd → 0 ≤ missing → 0 ≤ wrong →
  ∃ ok' missing' wrong' wd', verify_keys kvs (ok, missing, wrong) (ws, wd) = ((ok', missing', wrong'), (ws, wd')) ∧
    Id n wd' ∧ dst wd' = dst wd ∧ missing ≤ missing' ∧ wrong ≤ wrong' ∧
    (missing' = missing → wrong' = wrong → ∀ k v, (k, v) ∈ kvs → dst wd !! k = Some v) ∧
    (SinkReliable ED Id → (∀ k v, (k, v) ∈ kvs → dst wd !! k = Some v) → missing' = missing ∧ wrong' = wrong).
Proof using All.
  revert ok missing wrong wd. induction kvs as [|[k v] kvs IH]; intros ok missing wrong wd HI Hm Hw.
  - exists ok, missing, wrong, wd. cbn in HI. rewrite Nat.add_0_r in HI. split_and!; try done.
    by intros _ _ k v ?%elem_of_nil.
  - cbn [length] in HI. rewrite Nat.add_succ_r in HI.
    cbn [verify_keys]. unfold mbind, st_bind, on_dst. cbn [snd fst].
    pose proof (el_Get _ k _ HI) as HG.
    assert (SinkReliable ED Id → is_ok (etcd_Get k wd).1 = true) as Hrel by (intros HR; by eapply er_Get).
    destruct (etcd_Get k wd) as [r wd1]. cbn [fst snd] in *. destruct HG as (HI1 & Hd1 & Hr).
    set (acc := match r with
                | Err _ | Ok [] => (ok, missing + 1, wrong)
                | Ok ((_, v') :: _) => if bool_decide (v' = v) then (ok + 1, missing, wrong) else (ok, missing, wrong + 1)
                end).
    assert (acc = (ok + 1, missing, wrong) ∧ dst wd !! k = Some v ∨
            (acc = (ok, missing + 1, wrong) ∨ acc = (ok, missing, wrong + 1)) ∧
            ¬ (is_ok r = true ∧ dst wd !! k = Some v)) as Hacc.
    { subst acc. destruct r as [kvs'|e]; [|right; split; [by left|by intros [? _]]]. specialize (Hr _ eq_refl).
      destruct (dst wd !! k) as [v'|] eqn:Ev; subst kvs'; [|right; split; [by left|by intros [_ ?]]].
      case_bool_decide; [left; by subst|right; split; [by right|]]. intros [_ [= ->]]. done. }
    clearbody acc. destruct Hacc as [[-> Hk]|[Hacc Hk]].
    + destruct (IH (ok + 1) missing wrong wd1 HI1 Hm Hw) as (ok' & m' & w' & wd' & H & HI' & Hd & Hle & Hle' & Hok & HR).
      exists ok', m', w', wd'. rewrite Hd1 in *. split_and!; try done.
      * intros E1 E2 k' v' [[= -> ->]|Hin]%elem_of_cons; [done|]. by apply Hok.
      * intros Hrely Hall. apply HR; [done|]. intros k' v' Hin. apply Hall. by right.
    + assert (∃ m1 w1, acc = (ok, m1, w1) ∧ missing ≤ m1 ∧ wrong ≤ w1 ∧ missing + wrong < m1 + w1) as (m1 & w1 & -> & ? & ? & ?)
        by (destruct Hacc as [->| ->]; [exists (missing + 1), wrong|exists missing, (wrong + 1)]; split_and!; done || lia).
      destruct (IH ok m1 w1 wd1 HI1) as (ok' & m' & w' & wd' & H' & HI' & Hd & Hle & Hle' & Hok & HR); [lia..|].
      exists ok', m', w', wd'. rewrite Hd1 in *. split_and!; try done; try lia.
      intros Hrely Hall. exfalso. apply Hk. split; [by apply Hrel|]. apply Hall. by left.
Qed.

Lemma page_all m : page m "" 0 = entries m.
Proof. unfold page, limitClause. cbn. apply filter_all. intros [k v] _. by destruct k. Qed.

Lemma verify_spec n (ws : Ws) (wd : Wd) :
  Is (S n) ws → Id (n + size (src ws)) wd →
  ∃ r ws' wd', verify (ws, wd) = (r, (ws', wd')) ∧ src ws' = src ws ∧ dst wd' = dst wd ∧
    (r = Ok () → src ws ⊆ dst wd) ∧
    (SourceReliable ES Is → SinkReliable ED Id → src ws ⊆ dst wd → r = Ok ()).
Proof using All.
  intros HIs HId. unfold verify, mbind, st_bind, on_src. cbn [fst snd].
  pose proof (el_GetFrom _ "" 0 _ HIs) as HG.
  assert (SourceReliable ES Is → is_ok (etcd_GetFrom "" 0 ws).1 = true) as Hrel by (intros HR; by eapply er_GetFrom).
  destruct (etcd_GetFrom "" 0 ws) as [[kvs|e] ws1]; cbn [fst snd is_ok] in *; destruct HG as (HI1 & Hsrc & Hkvs).
  2: { eexists _, _, _. split; [reflexivity|]. split_and!; [done|done|done|]. intros HR. by specialize (Hrel HR). }
  specialize (Hkvs _ eq_refl). rewrite page_all in Hkvs. subst kvs. rewrite <-entries_length in HId.
  destruct (verify_keys_spec (entries (src ws)) n 0 0 0 ws1 wd HId) as
    (ok & missing & wrong & wd' & -> & _ & Hd & Hle & Hle' & Hok & HR); [lia..|].
  eexists _, _, _. split; [reflexivity|]. split_and!; [done|done| |].
  - intros E. destruct ((0 <? missing) || (0 <? wrong)) eqn:Heqb; [done|]. apply orb_false_iff in Heqb as [??]. bool_prop.
    apply map_subseteq_spec. intros k v Hk. apply Hok; [lia|lia|]. by apply entries_elem.
  - intros Hs Hd' Hsub. destruct HR as [-> ->]; [done| |done]. intros k v Hk. apply entries_elem in Hk.
    by eapply lookup_weaken.
Qed.

Lemma from_start (ws : Ws) : src ws !! "" = None → remaining nul ws = entries (src ws).
Proof.
  intros He. apply filter_all. intros [k v] Hk. apply entries_elem in Hk. apply str_le_nul. cbn. intros ->. congruence.
Qed.

(** Everything [migrate] does, for both theorems below. *)
Lemma migrate_spec fuel cfg (ws : Ws) (wd : Wd) :
  src ws !! "" = None → 0 < cfg_batchSize cfg → cfg_dryRun cfg = false →
  (size (src ws) < fuel)%nat → Is (2 + 2 * size (src ws)) ws → Id (1 + 2 * size (src ws)) wd →
  ∃ r ws' wd', migrate fuel cfg (ws, wd) = (Some r, (ws', wd')) ∧ src ws' = src ws ∧
    (r = Ok () → dst wd' = src ws ∪ dst wd) ∧
    (SourceReliable ES Is → SinkReliable ED Id → r = Ok ()).
Proof using All.
  intros He Hb Hdry Hf HIs HId. unfold migrate, mbind, st_bind. rewrite Hdry.
  destruct (copy_pages_spec fuel (cfg_batchSize cfg) "" (1 + size (src ws)) 0 0 ws wd)
    as (c & ws1 & wd1 & H & Hs & HI1 & HI2 & Hc);
    change (bool_decide ("" = "")) with true; cbv iota; rewrite ?from_start, ?entries_length by done; try done;
    try (eapply budget_le; [|done]; lia).
  rewrite H. cbn in Hc. rewrite from_start in Hc by done. rewrite puts_entries in Hc.
  destruct c as [e|sample|m f].
  - eexists _, _, _. split; [reflexivity|]. split_and!; [done|done|]. by intros HR.
  - done.
  - destruct Hc as (Hf0 & Hput & HR). destruct (0 <? f) eqn:Ef; bool_prop.
    + eexists _, _, _. split; [reflexivity|]. split_and!; [done|done|]. intros _ Hd. specialize (HR Hd). lia.
    + specialize (Hput ltac:(lia)). destruct (cfg_verify cfg).
      2: { eexists _, _, _. split; [reflexivity|]. by split_and!. }
      rewrite <-Hs in HI1, HI2.
      destruct (verify_spec 0 ws1 wd1) as (r & ws' & wd' & -> & Hs' & Hd' & Hok & Hrel);
        [eapply budget_le; [|exact HI1]; lia|eapply budget_le; [|exact HI2]; lia|].
      eexists _, _, _. split; [reflexivity|]. split_and!; [congruence|by rewrite Hd'|].
      intros Hr1 Hr2. apply Hrel; [done|done|]. rewrite Hs, Hput. apply map_union_subseteq_l.
Qed.

(** C28: A migration ends, and when it reports success the destination holds every key of the
    source with its value, and besides them what it held before; the source is unchanged.
    Puts may fail, with or without effect, and reads may fail: then an error is reported.
    The page loop needs one round more than there are keys. *)
Theorem migration_complete connect fuel cfg (ws : Ws) (wd : Wd) :
  src ws !! "" = None → 0 < cfg_batchSize cfg → cfg_dryRun cfg = false →
  (size (src ws) < fuel)%nat → Is (2 + 2 * size (src ws)) ws → Id (1 + 2 * size (src ws)) wd →
  ∃ r ws' wd', run connect fuel cfg (ws, wd) = (Some r, (ws', wd')) ∧ src ws' = src ws ∧
    (r = Ok () → dst wd' = src ws ∪ dst wd).
Proof using All.
  intros He Hb Hdry Hf HIs HId.
  destruct (migrate_spec fuel cfg ws wd He Hb Hdry Hf HIs HId) as (r & ws' & wd' & H & Hs & Hd & _).
  unfold run. destruct (connect (cfg_src cfg) _ _ _ _ _); [destruct (connect (cfg_dst cfg) _ _ _ _ _)|];
    [by exists r, ws', wd'|by eexists _, _, _..].
Qed.

End tool.

(** ** spanner-etcd as the destination *)

Section spanner.
Context `{SP : Spanner} `{!SpannerLaws SP} `{G : Grpc}.

Definition entry_of (kv : KeyValue) : entry := (pk_Key kv, default "" (pk_Value kv)).

Definition entries_of (r : res RangeResponse) : res (list entry) :=
  match r with Ok resp => Ok (entry_of <$> rresp_Kvs resp) | Err e => Err e end.

(** The requests the client sends for the calls of the tool; [WithFromKey] turns an empty key
    into the first key that is not empty. *)
#[export] Instance spanner_etcd : Etcd world := {|
  etcd_Get k w := let (r, w') := Range (mk_RangeRequest k "" 0 0 false false) w in (entries_of r, w');
  etcd_GetFrom k limit w :=
    let (r, w') := Range (mk_RangeRequest (if bool_decide (k = "") then nul else k) nul limit 0 false false) w in
    (entries_of r, w');
  etcd_Put k v w :=
    let (r, w') := Put (mk_PutRequest k (Some v) 0 false false false) w in
    (match r with Ok _ => Ok () | Err e => Err e end, w');
|}.

(** This replica alone with its database, and the timestamps of the next calls in range: a
    put makes at most five. *)
Definition can_serve (n : nat) (w : world) : Prop := world_wf w ∧ quiet w ∧ clock_ok (5 * n) w.

Definition stored (w : world) : gmap string string := (λ kv, default "" (Value kv)) <$> view (kv (w_db w)).

(** How many calls a computation makes at most. *)
Definition spends {A} (n : nat) (m : ST world A) : Prop := ∀ w, (w_rpc (m w).2 ≤ w_rpc w + n)%nat.

Lemma spends_ret {A} n (a : A) : spends n (mret a).
Proof. intros w. cbn. lia. Qed.

Lemma spends_bind {A B} n k (m : ST world A) (f : A → ST world B) :
  spends n m → (∀ a, spends k (f a)) → spends (n + k) (mbind f m).
Proof.
  intros Hm Hf w. unfold mbind, st_bind. specialize (Hm w). destruct (m w) as [a w1].
  specialize (Hf a w1). cbn [snd] in Hm. lia.
Qed.

Lemma spends_le {A} n k (m : ST world A) : spends n m → (n ≤ k)%nat → spends k m.
Proof. intros H Hle w. specialize (H w). lia. Qed.

Lemma spends_single {A} (q : _ → _ → res A) : spends 1 (single q).
Proof. intros w. unfold single. cbn. lia. Qed.

Lemma spends_txn {C} (body : txn_body C) c : spends 1 (read_write_txn body c).
Proof.
  intros w. unfold read_write_txn.
  destruct (aborted_attempts _ _ _ _ _) as [db [[e|] c']]; [cbn; lia|].
  destruct (body _ _ _) as [[ms|e] c'']; [destruct (commit _ _ _)|]; cbn; lia.
Qed.

Lemma spends_notify rev : spends 0 (notify rev).
Proof. intros w. destruct (notify_run rev w) as (_ & _ & ->). lia. Qed.

Lemma spends_CurrentRevision : spends 1 CurrentRevision.
Proof. apply (spends_bind 1 0); [apply spends_single|]. intros []; apply spends_ret. Qed.

Lemma spends_Create key value leaseID : spends 1 (Create key value leaseID).
Proof.
  apply (spends_bind 1 0); [apply spends_txn|]. intros [[ts|e] []]; cbn [fst]; [|apply spends_ret].
  apply (spends_bind 0 0); [apply spends_notify|]. intros []. apply spends_ret.
Qed.

Lemma spends_Get key : spends 2 (Get key 0).
Proof.
  apply (spends_bind 1 1); [apply spends_CurrentRevision|]. intros [cur|e]; [|apply spends_ret]. cbn.
  apply (spends_bind 1 0); [apply spends_single|]. intros [[row|]|e]; cbn; [destruct (scanKV row)|..]; apply spends_ret.
Qed.

Lemma spends_Update key value revision leaseID : spends 2 (Update key value revision leaseID).
Proof.
  apply (spends_bind 1 1); [apply spends_txn|]. intros [[ts|e] prev]; cbn [cas_outcome].
  - apply (spends_bind 0 1); [apply spends_notify|]. intros []. apply spends_ret.
  - case_match; [|apply spends_ret]. apply (spends_bind 1 0); [apply spends_CurrentRevision|]. intros. apply spends_ret.
Qed.

Lemma spends_Put r : spends 5 (Put r).
Proof.
  apply (spends_bind 1 4); [apply spends_Create|]. intros [rev|e]; [apply spends_ret|]. case_match; [|apply spends_ret].
  apply (spends_bind 2 2); [apply spends_Get|]. intros [cur [kv|e']]; [|apply spends_ret].
  apply (spends_bind 2 0); [apply spends_Update|]. intros [[[u p] ok]|e']; apply spends_ret.
Qed.

Lemma can_serve_later n k w w' :
  can_serve n w → (5 * k + w_rpc w' ≤ 5 * n + w_rpc w)%nat → (w_rpc w ≤ w_rpc w')%nat → world_wf w' → can_serve k w'.
Proof using All.
  intros (_ & Hq & Hc) Hk Hle Hw'. split_and!; [done|by eapply quiet_later|eapply clock_ok_later; [exact Hc|lia]].
Qed.

Lemma stored_lookup w k : stored w !! k = (λ r, default "" (r_value r)) <$> live (kv (w_db w)) k.
Proof. unfold stored. rewrite lookup_fmap, view_lookup. by destruct (live _ k). Qed.

Lemma live_not_deleted rows k r : live rows k = Some r → r_deleted r = false ∧ r_key r = k.
Proof.
  intros [H Hd]%live_Some. split; [done|]. apply latest_Some in H. naive_solver.
Qed.

(** The KV service is a destination no call of which fails. *)
#[export] Instance spanner_etcd_sink : SinkLaws spanner_etcd can_serve stored.
Proof using All.
  split.
  - intros n n' w Hle (Hw & Hq & Hc). split_and!; [done|done|]. eapply clock_ok_later; [exact Hc|lia].
  - intros n k w (Hw & Hq & Hc). cbn [etcd_Get spanner_etcd]. unfold Range. cbn [rr_Key rr_RangeEnd rr_Revision].
    rewrite bool_decide_true by done. unfold mbind, st_bind.
    destruct (Get_quiet k w Hw ltac:(eapply clock_ok_later; [exact Hc|lia]) Hq) as (-> & Hdb & Hw').
    split_and!.
    + eapply can_serve_later; [split_and!; [exact Hw|exact Hq|exact Hc]|cbn; lia|cbn; lia|done].
    + unfold stored. by rewrite Hdb.
    + intros kvs. rewrite stored_lookup. destruct (live (kv (w_db w)) k) as [r|] eqn:E; cbn; [|by intros [= <-]].
      destruct (live_not_deleted _ _ _ E) as [-> Hk]. cbn. intros [= <-]. unfold entry_of. cbn. by rewrite Hk.
  - intros n k v w (Hw & Hq & Hc). cbn [etcd_Put spanner_etcd].
    set (q := mk_PutRequest k (Some v) 0 false false false).
    destruct (Put_quiet q w Hw ltac:(eapply clock_ok_later; [exact Hc|lia]) Hq) as (rev & w' & H & Hv & _).
    pose proof (spends_Put q w) as Hsp. pose proof (safe_rpc _ (safe_Put q) w) as Hmono.
    pose proof (safe_guarantee _ (safe_Put q) w Hw) as Hg. rewrite H in *. cbn [snd fst] in *.
    assert (world_wf w') as Hw'.
    { apply Hg. unfold clock_ok in Hc. pose proof (sp_ts_mono (w_rpc w') (w_rpc w + 5 * S n) ltac:(lia)). lia. }
    split.
    + eapply can_serve_later; [split_and!; [exact Hw|exact Hq|exact Hc]|lia|lia|done].
    + left. unfold stored. rewrite Hv. unfold spec_put. rewrite fmap_insert. subst q. cbn [pr_Key pr_Value pr_Lease].
      by destruct (view _ !! k).
Qed.

#[export] Instance spanner_etcd_reliable : SinkReliable spanner_etcd can_serve.
Proof using All.
  split.
  - intros n k w (Hw & Hq & Hc). cbn [etcd_Get spanner_etcd]. unfold Range.
    cbn [rr_Key rr_RangeEnd rr_Revision]. rewrite bool_decide_true by done. unfold mbind, st_bind.
    destruct (Get_quiet k w Hw ltac:(eapply clock_ok_later; [exact Hc|lia]) Hq) as (-> & _). done.
  - intros n k v w (Hw & Hq & Hc). cbn [etcd_Put spanner_etcd].
    destruct (Put_quiet (mk_PutRequest k (Some v) 0 false false false) w Hw
                ltac:(eapply clock_ok_later; [exact Hc|lia]) Hq) as (rev & w' & -> & _). done.
Qed.

(** A migration from a source that answers into a replica of spanner-etcd that is alone with
    its database succeeds, also in its verification, and the keys the service then stores
    are those of the source and the ones it stored before that the source does not have. *)
Theorem migration_into_spanner_etcd {Ws} `{ES : Etcd Ws} (Is : nat → Ws → Prop) (src : Ws → gmap string string)
    `{!SourceLaws ES Is src} `{!SourceReliable ES Is}
    (connect : string → string → string → string → string → string → res unit) fuel cfg ws w :
  (∀ a b c d e f, connect a b c d e f = Ok ()) →
  src ws !! "" = None → 0 < cfg_batchSize cfg → cfg_dryRun cfg = false → (size (src ws) < fuel)%nat →
  Is (2 + 2 * size (src ws))%nat ws → world_wf w → quiet w → clock_ok (5 + 10 * size (src ws)) w →
  ∃ ws' w', run connect fuel cfg (ws, w) = (Some (Ok ()), (ws', w')) ∧ src ws' = src ws ∧
    stored w' = src ws ∪ stored w.
Proof using All.
  intros Hcon He Hb Hdry Hf HIs Hw Hq Hc.
  destruct (migrate_spec Is can_serve src stored fuel cfg ws w He Hb Hdry Hf HIs) as (r & ws' & w' & H & Hs & Hd & Hr).
  { split_and!; [done|done|]. eapply clock_ok_later; [exact Hc|lia]. }
  rewrite (Hr _ _) in *. exists ws', w'. unfold run. rewrite !Hcon. auto.
Qed.

End spanner.

(** ** A source *)

(** A server with the given content, all of whose calls succeed. *)
#[export] Instance plain_etcd : Etcd (gmap string string) := {|
  etcd_Get k m := (Ok (match m !! k with Some v => [(k, v)] | None => [] end), m);
  etcd_GetFrom k limit m := (Ok (page m k limit), m);
  etcd_Put k v m := (Ok (), <[k := v]> m);
|}.

Definition always (n : nat) (m : gmap string string) : Prop := True.

#[export] Instance plain_source : SourceLaws plain_etcd always id.
Proof. split; [done|]. intros n k limit m _. cbn. split_and!; [done|done|]. by intros kvs [= <-]. Qed.

#[export] Instance plain_source_reliable : SourceReliable plain_etcd always.
Proof. done. Qed.

#[export] Instance plain_sink : SinkLaws plain_etcd always id.
Proof.
  split; [done|..].
  - intros n k m _. cbn. split_and!; [done|done|]. by intros kvs [= <-].
  - intros n k v m _. cbn. split; [done|by left].
Qed.

Definition two_keys : gmap string string := {["/a" := "1"; "/b" := "2"]}.

Definition default_config : config := parseFlags (λ _, "") [].

Lemma migration_complete_witness :
  ∃ r ws' wd', run (λ _ _ _ _ _ _, Ok ()) 3 default_config (two_keys, {["/b" := "x"; "/c" := "3"]} : gmap string string) =
    (Some r, (ws', wd')) ∧ ws' = two_keys ∧ (r = Ok () → wd' = two_keys ∪ {["/b" := "x"; "/c" := "3"]}).
Proof.
  apply (@migration_complete _ _ plain_etcd plain_etcd always always id id plain_source plain_sink).
  - reflexivity.
  - reflexivity.
  - reflexivity.
  - vm_compute. lia.
  - done.
  - done.
Defined.

Lemma migration_into_spanner_etcd_witness :
  ∃ ws' w', run (ED := spanner_etcd (SP := solo) (G := grpc0)) (λ _ _ _ _ _ _, Ok ()) 3 default_config (two_keys, run2) =
    (Some (Ok ()), (ws', w')) ∧ ws' = two_keys ∧ stored w' = two_keys ∪ stored run2.
Proof.
  apply (@migration_into_spanner_etcd solo solo_laws grpc0 _ plain_etcd always id plain_source plain_source_reliable).
  - reflexivity.
  - reflexivity.
  - reflexivity.
  - reflexivity.
  - vm_compute. lia.
  - done.
  - apply run2_wf.
  - apply solo_quiet.
  - apply sim_clock. vm_compute. reflexivity.
Defined.

Example migrated_keys :
  stored (run (ES := plain_etcd) (ED := spanner_etcd (SP := solo) (G := grpc0)) (λ _ _ _ _ _ _, Ok ()) 3 default_config
            (two_keys, run2)).2.2 = {["/a" := "1"; "/b" := "2"; "k" := "b"]}.
Proof. vm_compute. reflexivity. Qed.

(** The usage of the tool documents [--batch]; the parser does not know it, and the page
    size stays at 500 whatever the arguments. *)
Theorem batch_flag_ignored getenv args : cfg_batchSize (parseFlags getenv args) = 500.
Proof.
  unfold parseFlags. generalize (envOr getenv "SRC_ENDPOINT" "http://localhost:2379") as s.
  generalize (envOr getenv "DST_ENDPOINT" "http://localhost:12379") as d. intros d s.
  set (c := mk_config _ _ _ _ _ _ _ 500 _ _ _). assert (cfg_batchSize c = 500) as Hc by done. clearbody c.
  revert c Hc. induction args as [|a args IH]; intros c Hc; [done|]. cbn. apply IH.
  destruct c. cbn in Hc. subst. unfold parseFlag. repeat case_match; done.
Qed.
