(* ===== verification/MigrateSource.v ===== *)
(** * spanner-etcd as the source of a migration

    The KV service satisfies the interface [SourceLaws] of [MigrateProps]: a range from a
    key on is a page of what the database stores.  With the instance for the destination,
    a migration between two replicas on different databases copies the one into the
    other. *)

From Stdlib Require Import Ascii String Sorted.
From S2P Require Import Prelude Go GoText Spanner Rows Invariant Sim StoreRead StoreWrite StoreTxn StoreSpec Reads StoreCompact StoreInvariant Safe KVServer KVProps Migrate MigrateProps.

Open Scope string_scope.
Open Scope list_scope.
Open Scope Z_scope.

Section source.
Context `{SP : Spanner} `{!SpannerLaws SP} `{G : Grpc}.

(** Strictly increasing keys. *)
Definition entry_lt (a b : entry) : Prop := str_le a.1 b.1 ∧ a.1 ≠ b.1.

#[local] Instance entry_lt_antisymm : AntiSymm (=) entry_lt.
Proof. intros a b [H1 Hne] [H2 _]. by destruct Hne; apply (anti_symm str_le). Qed.

Lemma entries_strict m : StronglySorted entry_lt (entries m).
Proof.
  pose proof (entries_sorted m) as Hs. pose proof (entries_keys m) as Hnd.
  induction Hs as [|e l _ IH He]; [constructor|]. cbn in Hnd. apply NoDup_cons in Hnd as [Hn Hnd].
  constructor; [by apply IH|]. rewrite Forall_forall in He |- *. intros e' He'. split; [by apply He|].
  intros E. apply Hn. rewrite E. by apply list_elem_of_fmap_2.
Qed.

Lemma strict_NoDup l : StronglySorted entry_lt l → NoDup l.
Proof.
  induction 1 as [|e l _ IH He]; constructor; [|done]. intros Hin. rewrite Forall_forall in He. by destruct (He e Hin).
Qed.

(** What a row becomes on its way to the client. *)
Definition client_entry (r : kv_row) : entry := entry_of (toProtoKV (KV_of r)).

(** The live rows of a listing from a key on are the page of the stored map. *)
Lemma listing_is_page w from limit all :
  StronglySorted (λ a b, str_le (r_key a) (r_key b) ∧ r_key a ≠ r_key b) all →
  (∀ x, x ∈ all ↔ live (kv (w_db w)) (r_key x) = Some x ∧ HasPrefix (r_key x) "" = true ∧ str_le from (r_key x)) →
  client_entry <$> limitClause limit all = page (stored w) from limit.
Proof.
  intros Hs Hall. unfold page.
  assert (∀ l : list kv_row, client_entry <$> limitClause limit l = limitClause limit (client_entry <$> l)) as ->.
  { intros l. unfold limitClause, sql_limit. case_bool; [done|]. apply fmap_take. }
  assert (StronglySorted entry_lt (client_entry <$> all)) as Hs'
    by (eapply (StronglySorted_fmap client_entry); [|exact Hs]; done).
  assert (StronglySorted entry_lt (filter (λ e : entry, str_le from e.1) (entries (stored w)))) as Hp
    by apply StronglySorted_filter, entries_strict.
  f_equal. apply (StronglySorted_unique entry_lt); [done|done|].
  apply NoDup_Permutation; [by apply strict_NoDup..|].
  intros [k v]. rewrite list_elem_of_fmap, list_elem_of_filter, entries_elem, stored_lookup. cbn. split.
  - intros (x & [= -> ->] & Hx). apply Hall in Hx as (Hl & _ & Hle). by rewrite Hl.
  - intros [Hle Hk]. apply fmap_Some in Hk as (x & Hx & ->). destruct (live_not_deleted _ _ _ Hx) as [_ <-].
    exists x. split; [done|]. apply Hall. split_and!; [done| |done]. by destruct (r_key x).
Qed.

(** What the source needs: the clock for the calls, and no empty key, which a range from a
    key on cannot ask for. *)
Definition can_read (n : nat) (w : world) : Prop := can_serve n w ∧ stored w !! "" = None.

(** A range from a key on. *)
Lemma GetFrom_quiet n k limit w :
  can_read (S n) w →
  ∃ w', etcd_GetFrom k limit w = (Ok (page (stored w) k limit), w') ∧ can_read n w' ∧ stored w' = stored w.
Proof using All.
  intros [(Hw & Hq & Hc) He]. cbn [etcd_GetFrom spanner_etcd]. set (from := if bool_decide (k = "") then nul else k).
  assert (clock_ok 2 w) as Hc2 by (eapply clock_ok_later; [exact Hc|lia]).
  destruct (List_now "" from limit w Hw Hc2 Hq eq_refl) as (all & Hlist & Hs & Hall).
  unfold Range, mbind, st_bind. cbn [rr_Key rr_RangeEnd rr_CountOnly rr_Limit rr_Revision rr_KeysOnly].
  rewrite bool_decide_false by done. change (rangeToPrefix from nul) with "". rewrite Hlist. cbn.
  assert (w_db (next (next (next w))) = w_db w) as Hdb by (cbn; by rewrite (quiet_seen_next2 _ Hq)).
  eexists. split_and!.
  - rewrite <-!list_fmap_compose. f_equal. f_equal. etrans; [exact (listing_is_page w from limit all Hs Hall)|].
    unfold from. case_bool_decide as E; [|done]. subst k. unfold page. f_equal.
    rewrite !filter_all; [done|by intros [[|] v] _|].
    intros [k v] Hk%entries_elem. apply str_le_nul. cbn. intros ->. congruence.
  - split.
    + eapply can_serve_later; [split_and!; [exact Hw|exact Hq|exact Hc]|cbn; lia|cbn; lia|by do 3 apply next_wf].
    + unfold stored. by rewrite Hdb.
  - unfold stored. by rewrite Hdb.
Qed.

#[export] Instance spanner_etcd_source : SourceLaws spanner_etcd can_read stored.
Proof using All.
  split.
  - intros n n' w Hle [(Hw & Hq & Hc) He]. split; [|done]. split_and!; [done|done|]. eapply clock_ok_later; [exact Hc|lia].
  - intros n k limit w Hw. destruct (GetFrom_quiet n k limit w Hw) as (w' & -> & Hw' & Hst). split_and!; [done|done|].
    by intros kvs [= <-].
Qed.

#[export] Instance spanner_etcd_source_reliable : SourceReliable spanner_etcd can_read.
Proof using All. intros n k limit w Hw. by destruct (GetFrom_quiet n k limit w Hw) as (w' & -> & _). Qed.

End source.

(** ** Between two replicas *)

Section between.
Context (SPs SPd : Spanner) `{!SpannerLaws SPs} `{!SpannerLaws SPd} (Gs Gd : Grpc).


End between.

(** ** Witness *)

