(* ===== verification/ServerMain.v ===== *)
(** * cmd/server and pkg/server/server.go: configuration and assembly

    The flags of the server, the start-up sequence of [main.run], [schema.Ensure],
    [server.New] with its TLS credentials, [Serve], the logging interceptors, and the
    cluster and maintenance services.  What these call outside the repository (the file
    system, TLS, the listener, the Spanner clients) is a parameter: its result. *)

From Stdlib Require Import Ascii String.
From S2P Require Import Prelude Go GoText Spanner Rows Invariant StoreRead StoreWrite StoreCompact KVServer Auth.

Open Scope string_scope.
Open Scope list_scope.
Open Scope Z_scope.

(** ** Flags *)

Record appConfig := mk_appConfig {
  listenAddr : string;
  metricsAddr : string;
  spannerDatabase : string;
  spannerChannels : Z;
  spannerMinSessions : Z;
  spannerMaxSessions : Z;
  spannerNativeMetrics : bool;
  spannerReadLocation : string;
  tlsCert : string;
  tlsKey : string;
  tlsCA : string;
  authUsers : string;
  authTokenTTL : Z;
  peerURLs : list string;
  logLevel : string;
  autoCompactInterval : Z;
  autoCompactAge : Z;
}.

Definition envOr (getenv : string → string) (key def : string) : string :=
  let v := getenv key in if bool_decide (v = "") then def else v.

Definition splitCSV (s : string) : list string := if bool_decide (s = "") then [] else Split s ",".

(** The value of [--auto-compact-interval]; [None] exits. *)
Definition parseInterval (val : string) : option Z :=
  if bool_decide (val = "0") || bool_decide (val = "off") || bool_decide (val = "disable") then Some (-1)
  else
    match ParseDuration val with
    | None => None
    | Some d => if d =? 0 then Some (-1) else Some d
    end.

(** One argument; [None]: a message and [os.Exit(1)]. *)
Definition parseFlag (c : appConfig) (arg : string) : option appConfig :=
  let '(mk_appConfig listen metrics db ch mins maxs native loc cert key ca users ttl peers level interval age) := c in
  let after p := TrimPrefix arg p in
  if HasPrefix arg "--listen-address=" then
    Some (mk_appConfig (after "--listen-address=") metrics db ch mins maxs native loc cert key ca users ttl peers level
            interval age)
  else if HasPrefix arg "--metrics-addr=" then
    Some (mk_appConfig listen (after "--metrics-addr=") db ch mins maxs native loc cert key ca users ttl peers level
            interval age)
  else if bool_decide (arg = "--spanner-native-metrics") then
    Some (mk_appConfig listen metrics db ch mins maxs true loc cert key ca users ttl peers level interval age)
  else if HasPrefix arg "--spanner-read-location=" then
    let val := TrimSpace (after "--spanner-read-location=") in
    if bool_decide (val = "") then None
    else Some (mk_appConfig listen metrics db ch mins maxs native val cert key ca users ttl peers level interval age)
  else if HasPrefix arg "--spanner-database=" then
    Some (mk_appConfig listen metrics (after "--spanner-database=") ch mins maxs native loc cert key ca users ttl peers
            level interval age)
  else if HasPrefix arg "--tls-cert=" then
    Some (mk_appConfig listen metrics db ch mins maxs native loc (after "--tls-cert=") key ca users ttl peers level
            interval age)
  else if HasPrefix arg "--tls-key=" then
    Some (mk_appConfig listen metrics db ch mins maxs native loc cert (after "--tls-key=") ca users ttl peers level
            interval age)
  else if HasPrefix arg "--tls-ca=" then
    Some (mk_appConfig listen metrics db ch mins maxs native loc cert key (after "--tls-ca=") users ttl peers level
            interval age)
  else if HasPrefix arg "--auth-users=" then
    Some (mk_appConfig listen metrics db ch mins maxs native loc cert key ca (after "--auth-users=") ttl peers level
            interval age)
  else if HasPrefix arg "--auth-token-ttl=" then
    let ttl := default ttl (ParseDuration (after "--auth-token-ttl=")) in
    Some (mk_appConfig listen metrics db ch mins maxs native loc cert key ca users ttl peers level interval age)
  else if HasPrefix arg "--log-level=" then
    Some (mk_appConfig listen metrics db ch mins maxs native loc cert key ca users ttl peers (after "--log-level=")
            interval age)
  else if HasPrefix arg "--peer-urls=" then
    Some (mk_appConfig listen metrics db ch mins maxs native loc cert key ca users ttl (splitCSV (after "--peer-urls="))
            level interval age)
  else if HasPrefix arg "--auto-compact-interval=" then
    interval ← parseInterval (after "--auto-compact-interval=");
    Some (mk_appConfig listen metrics db ch mins maxs native loc cert key ca users ttl peers level interval age)
  else if HasPrefix arg "--auto-compact-age=" then
    age ← ParseDuration (after "--auto-compact-age=");
    Some (mk_appConfig listen metrics db ch mins maxs native loc cert key ca users ttl peers level interval age)
  else Some c.

Fixpoint parseArgs (c : appConfig) (args : list string) : option appConfig :=
  match args with [] => Some c | a :: args => c ← parseFlag c a; parseArgs c args end.

Definition parseFlags (getenv : string → string) (args : list string) : option appConfig :=
  cfg ← parseArgs
    (mk_appConfig (envOr getenv "LISTEN_ADDR" "0.0.0.0:2379") (envOr getenv "METRICS_ADDR" "0.0.0.0:2381")
       (envOr getenv "SPANNER_DATABASE" "") 4 10 100 false "" (envOr getenv "TLS_CERT" "") (envOr getenv "TLS_KEY" "")
       (envOr getenv "TLS_CA" "") (envOr getenv "ETCD_AUTH_USERS" "") 0 (splitCSV (envOr getenv "PEER_URLS" ""))
       (envOr getenv "LOG_LEVEL" "info") 0 0) args;
  if bool_decide (spannerDatabase cfg = "") then None else Some cfg.

(** ** Logging *)

Inductive zap_level :=
  DebugLevel | InfoLevel | WarnLevel | ErrorLevel | DPanicLevel | PanicLevel | FatalLevel | OtherLevel.

Definition gcpLevelEncoder (l : zap_level) : string :=
  match l with
  | DebugLevel => "DEBUG"
  | InfoLevel => "INFO"
  | WarnLevel => "WARNING"
  | ErrorLevel => "ERROR"
  | DPanicLevel | PanicLevel => "CRITICAL"
  | FatalLevel => "CRITICAL"
  | OtherLevel => "DEFAULT"
  end.

(** [buildLogger]'s level, from what [UnmarshalText] makes of the flag. *)
Definition loggerLevel (unmarshalText : string → option zap_level) (level : string) : zap_level :=
  default InfoLevel (unmarshalText level).

(** A logger: its level, the names of its fields, and how it writes a level. *)
Record logger := mk_logger {
  zl_level : zap_level;
  zl_TimeKey : string;
  zl_MessageKey : string;
  zl_LevelKey : string;
  zl_CallerKey : string;
  zl_EncodeLevel : zap_level → string;
}.

Definition buildLogger (unmarshalText : string → option zap_level) (level : string) : logger :=
  mk_logger (loggerLevel unmarshalText level) "time" "message" "severity" "caller" gcpLevelEncoder.

(** What follows the last period, [None] without one. *)
Fixpoint after_last_dot (s : string) : option string :=
  match s with
  | EmptyString => None
  | String c s' =>
      match after_last_dot s' with
      | Some r => Some r
      | None => if bool_decide (c = "."%char) then Some s' else None
      end
  end.

Definition shortMethod (full : string) : string :=
  match after_last_dot full with Some r => r | None => TrimPrefix full "/" end.

(** What [loggingUnary] does with a call that took [elapsed]: the response it returns, the
    labels of the metric, and whether a line is logged. *)
Definition loggingUnary {A} (fullMethod : string) (elapsed : Z) (handler : res A) : res A * (string * string) * bool :=
  (handler, (shortMethod fullMethod, if is_ok handler then "ok" else "error"),
   (500000000 <? elapsed) || negb (is_ok handler)).

Definition loggingStream (fullMethod : string) (err : option error) : option error * (string * string) :=
  (err, (shortMethod fullMethod, match err with None => "ok" | Some _ => "error" end)).

(** ** [server.New] *)

Definition defaultVersion : string := "3.5.13".
Definition defaultClusterID : Z := 0x1234567890abcdef.
Definition defaultMemberID : Z := 0xfedcba9876543210.

Record Config := mk_Config {
  ListenAddr : string;
  TLSCert : string;
  TLSKey : string;
  TLSCAFile : string;
  MetricsAddr : string;
  AuthUsers : string;
  AuthTokenTTL : Z;
  PeerURLs : list string;
  Version : string;
  MemberID : Z;
  ClusterID : Z;
}.

(** The defaults. *)
Definition withDefaults (c : Config) : Config :=
  mk_Config (ListenAddr c) (TLSCert c) (TLSKey c) (TLSCAFile c) (MetricsAddr c) (AuthUsers c) (AuthTokenTTL c) (PeerURLs c)
    (if bool_decide (Version c = "") then defaultVersion else Version c)
    (if MemberID c =? 0 then defaultMemberID else MemberID c)
    (if ClusterID c =? 0 then defaultClusterID else ClusterID c).

(** Credentials: the key pair, and the file of the CA whose certificates clients must
    present. *)
Record server_creds := mk_server_creds { sc_pair : string * string; sc_clientCA : option string }.

Record ClusterServer := mk_ClusterServer { cl_memberID : Z; cl_clusterID : Z; cl_peerURLs : list string }.

Record MaintenanceServer := mk_MaintenanceServer { ma_memberID : Z; ma_clusterID : Z; ma_version : string }.

Record Server := mk_Server {
  s_config : Config;
  s_auth : AuthServer;
  s_creds : option server_creds;
  s_cluster : ClusterServer;
  s_maintenance : MaintenanceServer;
}.

Section new.
(** [tls.LoadX509KeyPair], [os.ReadFile] and whether [AppendCertsFromPEM] accepts a text. *)
Context (LoadX509KeyPair : string → string → option error) (ReadFile : string → res string)
  (AppendCertsFromPEM : string → bool).

Definition buildServerCreds (certFile keyFile caFile : string) : res server_creds :=
  match LoadX509KeyPair certFile keyFile with
  | Some err => Err err
  | None =>
      if bool_decide (caFile = "") then Ok (mk_server_creds (certFile, keyFile) None)
      else
        match ReadFile caFile with
        | Err err => Err (Wrapf "read CA file: %w" [] err)
        | Ok caBytes =>
            if negb (AppendCertsFromPEM caBytes) then Err (Errorf "failed to parse CA cert" [])
            else Ok (mk_server_creds (certFile, keyFile) (Some caFile))
        end
  end.

Definition New (cfg : Config) : res Server :=
  let cfg := withDefaults cfg in
  let auth := newAuthServer (parseUsers (AuthUsers cfg)) (AuthTokenTTL cfg) in
  let serve creds :=
    mk_Server cfg auth creds (mk_ClusterServer (MemberID cfg) (ClusterID cfg) (PeerURLs cfg))
      (mk_MaintenanceServer (MemberID cfg) (ClusterID cfg) (Version cfg)) in
  if negb (bool_decide (TLSCert cfg = "")) && negb (bool_decide (TLSKey cfg = "")) then
    match buildServerCreds (TLSCert cfg) (TLSKey cfg) (TLSCAFile cfg) with
    | Err err => Err (Wrapf "load TLS creds: %w" [] err)
    | Ok creds => Ok (serve (Some creds))
    end
  else Ok (serve None).

End new.

(** How [Serve] ends: its context is done, and the connections drain within ten seconds or
    are cut; or the gRPC server returns. *)
Inductive serve_end := CtxDone (drained : bool) | GrpcReturned (err : option error).

(** [Serve] for the outcome of [net.Listen]. *)
Definition Serve (listen : option error) (ending : serve_end) (s : Server) : option error :=
  match listen with
  | Some err => Some (Wrapf "listen %s: %w" [ArgS (ListenAddr (s_config s))] err)
  | None => match ending with CtxDone _ => None | GrpcReturned err => err end
  end.

Definition Addr (listening : option string) (s : Server) : string :=
  match listening with Some a => a | None => ListenAddr (s_config s) end.

(** ** The cluster and maintenance services *)

Record Member := mk_Member { m_ID : Z; m_Name : string; m_PeerURLs : list string }.

Definition MemberList (c : ClusterServer) : ResponseHeader * list Member :=
  (mk_ResponseHeader (cl_clusterID c) (cl_memberID c) 0 1,
   [mk_Member (cl_memberID c) "spanner-etcd" (cl_peerURLs c)]).

Record StatusResponse := mk_StatusResponse { sr_Header : ResponseHeader; sr_Version : string; sr_Leader : Z; sr_RaftTerm : Z }.

(** ** Start-up *)

(** [schema.Ensure], from the results of [UpdateDatabaseDdl] and [op.Wait]. *)
Definition isPermissionDenied `{Grpc} (err : error) : bool :=
  status_FromError err && bool_decide (ErrCode err = PermissionDenied).

Definition Ensure `{Grpc} (update wait : option error) : option error :=
  match update with
  | Some err => if isPermissionDenied err then None else Some (Wrapf "update DDL: %w" [] err)
  | None =>
      match wait with
      | Some err => if isPermissionDenied err then None else Some (Wrapf "wait DDL: %w" [] err)
      | None => None
      end
  end.

(** What start-up gets from the outside. *)
Record outside := mk_outside {
  o_adminClient : option error;
  o_updateDDL : option error;
  o_waitDDL : option error;
  o_client : option error;
  o_loadPair : string → string → option error;
  o_readFile : string → res string;
  o_appendCerts : string → bool;
  o_listen : option error;
  o_end : serve_end;
}.

(** The directed reads [run] asks the client for. *)
Definition readReplicas (cfg : appConfig) : option string :=
  if bool_decide (spannerReadLocation cfg = "") then None else Some (spannerReadLocation cfg).

Definition serverConfig (cfg : appConfig) : Config :=
  mk_Config (listenAddr cfg) (tlsCert cfg) (tlsKey cfg) (tlsCA cfg) (metricsAddr cfg) (authUsers cfg) (authTokenTTL cfg)
    (peerURLs cfg) "" 0 0.

Section run.
Context `{SP : Spanner} `{G : Grpc}.

Definition Status (m : MaintenanceServer) : ST world StatusResponse :=
  r ← CurrentRevision;
  mret (mk_StatusResponse (mk_ResponseHeader (ma_clusterID m) (ma_memberID m) (or_zero r) 1) (ma_version m) (ma_memberID m) 1).

(** [run]: the error it returns, and, when it came to serve, the server and the
    configuration of the store. *)
Definition run (o : outside) (cfg : appConfig) : ST world (option error * option (Server * StoreConfig)) :=
  match o_adminClient o with
  | Some err => mret (Some (Wrapf "create spanner admin client: %w" [] err), None)
  | None =>
      match Ensure (o_updateDDL o) (o_waitDDL o) with
      | Some err => mret (Some (Wrapf "schema: %w" [] err), None)
      | None =>
          match o_client o with
          | Some err => mret (Some (Wrapf "create spanner client: %w" [] err), None)
          | None =>
              seeded ← SeedCompactRev;
              match seeded with
              | Some err => mret (Some (Wrapf "seed revision counter: %w" [] err), None)
              | None =>
                  match NewWithConfig (mk_StoreConfig (autoCompactInterval cfg) (autoCompactAge cfg)) with
                  | Err err => mret (Some (Wrapf "create store: %w" [] err), None)
                  | Ok store =>
                      match New (o_loadPair o) (o_readFile o) (o_appendCerts o) (serverConfig cfg) with
                      | Err err => mret (Some (Wrapf "create server: %w" [] err), None)
                      | Ok srv => mret (Serve (o_listen o) (o_end o) srv, Some (srv, store))
                      end
                  end
              end
          end
      end
  end.

End run.
