(* ===== verification/ServerMainProps.v ===== *)
(** * What the flags and the start-up of the server amount to

    From a flag to the component it configures: the interval of the automatic
    compaction, the users and the lifetime of tokens; what holds when the server comes to
    serve; and where a flag that is set has no effect. *)

From Stdlib Require Import Ascii String.
From S2P Require Import Prelude Go GoText GoTextProps Spanner Rows Invariant Sim StoreRead StoreWrite StoreCompact KVServer KVProps Auth ServerMain.

Open Scope string_scope.
Open Scope list_scope.
Open Scope Z_scope.

(** ** Start-up *)

Section startup.
Context `{SP : Spanner} `{!SpannerLaws SP} `{G : Grpc}.

Lemma seeded w w' : SeedCompactRev w = (None, w') → is_Some (kv_rev (w_db w') !! CompactRevRow).
Proof.
  unfold SeedCompactRev, mbind, st_bind, read_write_txn.
  destruct (aborted_attempts _ _ _ _ _) as [db [[e|] []]]; [done|].
  unfold seed_body, read_kv_rev. destruct (kv_rev (sp_env (w_rpc w) db) !! CompactRevRow) as [c|] eqn:E.
  - cbn. unfold commit. destruct (sp_fate (w_rpc w)); cbn; [|by destruct applied]. intros [= <-]. cbn. by rewrite E.
  - cbn [ErrCode]. rewrite bool_decide_true by done. unfold commit.
    destruct (sp_fate (w_rpc w)) as [|? []]; cbn; rewrite ?E; [|done|done].
    intros [= <-]. cbn. by rewrite lookup_insert_eq.
Qed.

(** C35: When [run] comes to serve, the schema was ensured or is managed elsewhere, the row of the
    compact revision is in the database, the invariant of the database holds, the store has
    a positive age of compaction, and the server authenticates exactly the users of the
    flag, with a positive lifetime of tokens; in every other case [run] returns an error. *)
Theorem startup_ready o cfg w :
  world_wf w →
  let '(err, served, w') := run o cfg w in
  world_wf w' ∧
  match served with
  | None => is_Some err
  | Some (srv, store) =>
      Ensure (o_updateDDL o) (o_waitDDL o) = None ∧ is_Some (kv_rev (w_db w') !! CompactRevRow) ∧
      0 < AutoCompactAge store ∧ a_users (s_auth srv) = parseUsers (authUsers cfg) ∧
      (a_enabled (s_auth srv) = true ↔ parseUsers (authUsers cfg) ≠ ∅) ∧ 0 < a_ttl (s_auth srv) ∧
      a_tokens (s_auth srv) = ∅
  end.
Proof using All.
  intros Hw. unfold run. destruct (o_adminClient o); [by split|]. destruct (Ensure _ _) eqn:Een; [by split|].
  destruct (o_client o); [by split|]. unfold mbind, st_bind.
  pose proof (seed_guarantee w Hw) as [Hw' _]. pose proof (seeded w) as Hseed.
  destruct (SeedCompactRev w) as [[e|] w']; cbn [snd] in Hw'; [by split|]. specialize (Hseed _ eq_refl).
  destruct (NewWithConfig _) as [store|e] eqn:Est; [|by split].
  assert (0 < AutoCompactAge store) as Hage.
  { unfold NewWithConfig in Est. destruct (_ <? 0) eqn:E in Est; [done|]. injection Est as <-. cbn in *. bool_prop.
    case_bool; [done|lia]. }
  destruct (New _ _ _ _) as [srv|e] eqn:Esrv; [|by split]. split; [done|].
  assert (s_auth srv = newAuthServer (parseUsers (authUsers cfg)) (authTokenTTL cfg)) as ->.
  { unfold New in Esrv. cbn in Esrv. repeat case_match; by simplify_eq. }
  unfold newAuthServer. cbn. split_and!; try done.
  - rewrite negb_true_iff, bool_decide_eq_false. done.
  - case_bool; [done|lia].
Qed.

End startup.

(** ** From the command line to the authentication server *)

Lemma substring_all s : String.substring 0 (String.length s) s = s.
Proof. induction s; cbn; congruence. Qed.

Lemma TrimPrefix_app p t : TrimPrefix (p +:+ t) p = t.
Proof.
  unfold TrimPrefix. rewrite HasPrefix_app.
  assert (String.length (p +:+ t) - String.length p = String.length t)%nat as ->.
  { induction p; cbn; [lia|done]. }
  induction p as [|a p IH]; cbn; [apply substring_all|done].
Qed.

(** Case on which flag an argument is. *)
Ltac find_flag :=
  repeat match goal with
  | |- context [HasPrefix ?a ?p] => first [change (HasPrefix a p) with false | change (HasPrefix a p) with true | rewrite (HasPrefix_app p)]
  | |- context [bool_decide (?a = ?b)] => change (bool_decide (a = b)) with false
  end.

Lemma flag_database c db :
  ∃ c', parseFlag c ("--spanner-database=" +:+ db) = Some c' ∧ spannerDatabase c' = db ∧
    authUsers c' = authUsers c ∧ authTokenTTL c' = authTokenTTL c ∧ tlsCert c' = tlsCert c.
Proof.
  destruct c. eexists. split; [unfold parseFlag; cbv zeta; find_flag; reflexivity|].
  split_and!; [exact (TrimPrefix_app "--spanner-database=" db)|done..].
Qed.

Lemma flag_users c users :
  ∃ c', parseFlag c ("--auth-users=" +:+ users) = Some c' ∧ authUsers c' = users ∧
    spannerDatabase c' = spannerDatabase c ∧ authTokenTTL c' = authTokenTTL c ∧ tlsCert c' = tlsCert c.
Proof.
  destruct c. eexists. split; [unfold parseFlag; cbv zeta; find_flag; reflexivity|].
  split_and!; [exact (TrimPrefix_app "--auth-users=" users)|done..].
Qed.

Lemma flag_ttl c ttl d :
  ParseDuration ttl = Some d →
  ∃ c', parseFlag c ("--auth-token-ttl=" +:+ ttl) = Some c' ∧ authTokenTTL c' = d ∧
    spannerDatabase c' = spannerDatabase c ∧ authUsers c' = authUsers c ∧ tlsCert c' = tlsCert c.
Proof.
  intros Hd. destruct c. eexists. split; [unfold parseFlag; cbv zeta; find_flag; reflexivity|].
  cbn -[ParseDuration TrimPrefix]. split_and!; [|done..].
  pose proof (TrimPrefix_app "--auth-token-ttl=" ttl) as E. cbn [String.append] in E. by rewrite E, Hd.
Qed.

(** ** Automatic compaction *)

(** The words that turn it off. *)
Definition off_words : list string := ["0"; "off"; "disable"].

Lemma flag_interval c val :
  match parseInterval val with
  | None => parseFlag c ("--auto-compact-interval=" +:+ val) = None
  | Some interval =>
      ∃ c', parseFlag c ("--auto-compact-interval=" +:+ val) = Some c' ∧ autoCompactInterval c' = interval ∧
        autoCompactAge c' = autoCompactAge c
  end.
Proof.
  assert (TrimPrefix ("--auto-compact-interval=" +:+ val) "--auto-compact-interval=" = val) as E by apply TrimPrefix_app.
  destruct c. unfold parseFlag. cbv zeta. find_flag. rewrite E. destruct (parseInterval val) as [i|]; cbn; [|done].
  eexists. by split_and!.
Qed.

Lemma parseInterval_None val : parseInterval val = None ↔ ParseDuration val = None ∧ val ∉ off_words.
Proof.
  unfold parseInterval, off_words. rewrite !not_elem_of_cons.
  destruct (bool_decide (val = "0") || bool_decide (val = "off") || bool_decide (val = "disable")) eqn:E.
  - rewrite !orb_true_iff, !bool_decide_eq_true in E. split; [done|]. naive_solver.
  - rewrite !orb_false_iff, !bool_decide_eq_false in E. destruct (ParseDuration val) as [d|].
    + destruct (d =? 0); split; (done || by intros [? _]).
    + split; [|done]. intros _. split_and!; try naive_solver. apply not_elem_of_nil.
Qed.

(** What [NewWithConfig] makes of the interval. *)
Lemma interval_config val interval age :
  0 ≤ age → parseInterval val = Some interval →
  ∃ cfg, NewWithConfig (mk_StoreConfig interval age) = Ok cfg ∧
    int64_range (AutoCompactInterval cfg) ∧
    (autoCompactEnabled cfg = true ↔ ∃ d, ParseDuration val = Some d ∧ 0 < d) ∧
    (∀ d, ParseDuration val = Some d → 0 < d → AutoCompactInterval cfg = d).
Proof.
  intros Hage. unfold parseInterval.
  destruct (bool_decide (val = "0") || bool_decide (val = "off") || bool_decide (val = "disable")) eqn:Eoff.
  - assert (ParseDuration val = Some 0 ∨ ParseDuration val = None) as Hp.
    { rewrite !orb_true_iff, !bool_decide_eq_true in Eoff. destruct Eoff as [[->| ->]| ->]; vm_compute; auto. }
    intros [= <-]. unfold NewWithConfig. cbn. destruct (age <? 0) eqn:E; bool_prop; [lia|].
    eexists. split; [done|]. cbn. split_and!; [done| |naive_solver lia].
    split; [done|]. intros (d & Hd & ?). destruct Hp; simplify_eq; lia.
  - destruct (ParseDuration val) as [d|] eqn:Ed; [|done].
    pose proof (ParseDuration_range _ _ Ed) as Hr. unfold NewWithConfig, autoCompactEnabled.
    destruct (d =? 0) eqn:E0; bool_prop; intros [= <-]; cbn [AutoCompactInterval AutoCompactAge];
      (destruct (age <? 0) eqn:E; bool_prop; [lia|]); eexists; (split; [done|]); cbn [AutoCompactInterval].
    + split_and!; [done| |intros d' [= <-]; lia]. split; [done|]. intros (d' & [= <-] & ?). lia.
    + destruct (d <? 0) eqn:Eneg; bool_prop; cbn -[Z.ltb Z.eqb].
      * split_and!; [done| |intros d' [= <-]; lia]. split; [done|]. intros (d' & [= <-] & ?). lia.
      * destruct (d =? 0) eqn:E1; bool_prop; [lia|]. split_and!; [done| |by intros d' [= <-]].
        split; [intros Hpos%Z.ltb_lt; by exists d|]. intros (d' & [= <-] & ?). by apply Z.ltb_lt.
Qed.

(** C37: the flag [--auto-compact-interval] and [NewWithConfig] together, with an age of
    compaction that is not negative: the flag ends the program exactly when its value is
    neither a duration nor one of the words "0", "off" and "disable"; after any other value
    the store compacts automatically exactly when the value is a positive duration, at that
    interval, which fits an [int64] of nanoseconds. *)
Theorem auto_compact_flag c val :
  0 ≤ autoCompactAge c →
  let parsed := parseFlag c ("--auto-compact-interval=" +:+ val) in
  (parsed = None ↔ ParseDuration val = None ∧ val ∉ ["0"; "off"; "disable"]) ∧
  ∀ c', parsed = Some c' →
    ∃ cfg, NewWithConfig (mk_StoreConfig (autoCompactInterval c') (autoCompactAge c')) = Ok cfg ∧
      int64_range (AutoCompactInterval cfg) ∧
      (autoCompactEnabled cfg = true ↔ ∃ d, ParseDuration val = Some d ∧ 0 < d) ∧
      (∀ d, ParseDuration val = Some d → 0 < d → AutoCompactInterval cfg = d).
Proof.
  intros Hage. cbn zeta. pose proof (flag_interval c val) as Hf. pose proof (parseInterval_None val) as Hn.
  destruct (parseInterval val) as [i|] eqn:E.
  - destruct Hf as (c1 & Hf & Hi & Ha). rewrite Hf. split; [rewrite <-Hn; done|]. intros c' [= <-].
    rewrite Hi, Ha. by apply interval_config.
  - rewrite Hf. split; [rewrite <-Hn; done|done].
Qed.

Definition flag_config : appConfig := mk_appConfig "" "" "db" 4 10 100 false "" "" "" "" "" 0 [] "info" 0 0.

Lemma auto_compact_flag_witness :
  (parseFlag flag_config "--auto-compact-interval=soon" = None ∧
   parseFlag flag_config "--auto-compact-interval=off" ≠ None) ∧
  ∃ c' cfg, parseFlag flag_config "--auto-compact-interval=1m30s" = Some c' ∧
    NewWithConfig (mk_StoreConfig (autoCompactInterval c') (autoCompactAge c')) = Ok cfg ∧
    AutoCompactInterval cfg = 90 * Second.
Proof.
  split; [split|].
  - apply (auto_compact_flag flag_config "soon" ltac:(cbn; lia)). split; [vm_compute; reflexivity|].
    apply (bool_decide_unpack _). vm_compute. exact I.
  - intros H. apply (auto_compact_flag flag_config "off" ltac:(cbn; lia)) in H as [_ H]. apply H. right. left.
  - destruct (parseFlag flag_config "--auto-compact-interval=1m30s") as [c'|] eqn:E; [|vm_compute in E; discriminate E].
    destruct (auto_compact_flag flag_config "1m30s" ltac:(cbn; lia)) as [_ H].
    destruct (H c' E) as (cfg & H1 & _ & _ & H2). exists c', cfg. split; [reflexivity|]. split; [exact H1|].
    apply H2; [vm_compute; reflexivity|done].
Defined.

(** The users and the lifetime in seconds given on the command line are those of the
    authentication server, whatever the files of the machine. *)
Theorem auth_flags_reach_server load read certs db users n :
  db ≠ "" → 0 < n ≤ 9223372036 →
  ∃ cfg srv,
    parseFlags (λ _, "") ["--spanner-database=" +:+ db; "--auth-users=" +:+ users; "--auth-token-ttl=" +:+ (dec n +:+ "s")]
      = Some cfg ∧
    spannerDatabase cfg = db ∧ New load read certs (serverConfig cfg) = Ok srv ∧
    s_auth srv = newAuthServer (parseUsers users) (n * Second).
Proof.
  intros Hdb Hn. unfold parseFlags. set (c0 := mk_appConfig _ _ _ _ _ _ _ _ _ _ _ _ _ _ _ _ _).
  destruct (flag_database c0 db) as (c1 & E1 & D1 & _ & _ & C1).
  destruct (flag_users c1 users) as (c2 & E2 & U2 & D2 & _ & C2).
  destruct (flag_ttl c2 _ _ (ParseDuration_seconds n Hn)) as (c3 & E3 & T3 & D3 & U3 & C3).
  assert (tlsCert c3 = "") as Htls by (rewrite C3, C2, C1; reflexivity).
  eexists c3, _. cbn [parseArgs]. rewrite E1. cbn [mbind option_bind]. rewrite E2. cbn [mbind option_bind].
  rewrite E3. cbn [mbind option_bind]. rewrite D3, D2, D1, bool_decide_false by done.
  unfold New. cbn [serverConfig withDefaults TLSCert TLSKey]. rewrite Htls.
  split_and!; [done|congruence|reflexivity|]. cbn. by rewrite U3, U2, T3.
Qed.

Lemma auth_flags_reach_server_witness :
  ∃ cfg srv,
    parseFlags (λ _, "") ["--spanner-database=projects/p"; "--auth-users=root:pw"; "--auth-token-ttl=30s"] = Some cfg ∧
    New (λ _ _, None) (λ _, Ok "") (λ _, true) (serverConfig cfg) = Ok srv ∧
    s_auth srv = newAuthServer {["root" := "pw"]} (30 * Second).
Proof.
  destruct (auth_flags_reach_server (λ _ _, None) (λ _, Ok "") (λ _, true) "projects/p" "root:pw" 30)
    as (cfg & srv & H1 & _ & H2 & H3); [discriminate|lia|].
  exists cfg, srv. split; [exact H1|]. split; [exact H2|]. rewrite H3. reflexivity.
Defined.

Definition all_well : outside :=
  mk_outside None (Some (SpannerError PermissionDenied "ddl")) None None (λ _ _, None) (λ _, Ok "") (λ _, true) None (CtxDone true).

Definition some_flags : appConfig :=
  mk_appConfig "0.0.0.0:2379" "" "projects/p" 4 10 100 false "" "" "" "" "root:pw" 0 [] "info" 0 0.

Lemma startup_ready_witness :
  is_Some (kv_rev (w_db (run (SP := solo) (G := grpc0) all_well some_flags (world_of empty_db)).2) !! CompactRevRow).
Proof.
  pose proof (@startup_ready solo solo_laws grpc0 all_well some_flags (world_of empty_db) (empty_world_wf _ _)) as H.
  assert (∃ srv store w', run (SP := solo) (G := grpc0) all_well some_flags (world_of empty_db) =
    (None, Some (srv, store), w')) as (srv & store & w' & E) by (eexists _, _, _; reflexivity).
  rewrite E in H |- *. apply H.
Defined.

(** ** Flags without effect *)

(** A certificate without its key, or a CA for client certificates without both, leaves the
    server without TLS, and start-up does not object. *)
Theorem partial_tls_is_plaintext load read certs :
  ∃ cfg srv,
    parseFlags (λ _, "") ["--spanner-database=d"; "--tls-cert=server.crt"; "--tls-ca=ca.crt"] = Some cfg ∧
    New load read certs (serverConfig cfg) = Ok srv ∧ s_creds srv = None.
Proof. eexists _, _. split_and!; reflexivity. Qed.

(** A list of users none of which has the form [user:password] disables authentication: every
    request is served. *)
Theorem malformed_users_disable_auth {A} load read certs now method md (handler : res A) :
  ∃ cfg srv,
    parseFlags (λ _, "") ["--spanner-database=d"; "--auth-users=root"] = Some cfg ∧
    New load read certs (serverConfig cfg) = Ok srv ∧
    authInterceptor now method md (s_auth srv) handler = handler.
Proof.
  eexists _, _. split_and!; [reflexivity..|]. unfold authInterceptor, validate.
  change (a_enabled _) with false. cbn. by rewrite orb_true_r.
Qed.

(** The identity of the member in the answers of the KV service is not the one the cluster
    and maintenance services report. *)
Theorem member_identity_differs load read certs rev :
  ∃ cfg srv,
    parseFlags (λ _, "") ["--spanner-database=d"] = Some cfg ∧
    New load read certs (serverConfig cfg) = Ok srv ∧
    MemberId (MemberList (s_cluster srv)).1 ≠ MemberId (header rev) ∧
    ClusterId (MemberList (s_cluster srv)).1 ≠ ClusterId (header rev).
Proof. eexists _, _. split_and!; [reflexivity|reflexivity|done|done]. Qed.

(** ** Method names *)

Fixpoint dot_free (s : string) : bool :=
  match s with EmptyString => true | String c s' => negb (bool_decide (c = "."%char)) && dot_free s' end.

Lemma after_last_dot_free s : dot_free s = true → after_last_dot s = None.
Proof.
  induction s as [|c s IH]; [done|]. cbn. intros [Hc Hs]%andb_true_iff. rewrite IH by done.
  by apply negb_true_iff in Hc as ->.
Qed.

(** The label of a method is what follows its package. *)
Lemma shortMethod_strips pkg m : dot_free m = true → shortMethod ("/" +:+ pkg +:+ "." +:+ m) = m.
Proof.
  intros Hm. unfold shortMethod.
  assert (∀ p, after_last_dot (p +:+ String "." m) = Some m) as H.
  { induction p as [|c p IH]; cbn; [by rewrite after_last_dot_free|by rewrite IH]. }
  change ("/" +:+ pkg +:+ "." +:+ m) with ("/" +:+ (pkg +:+ String "." m)). by rewrite <-str_app_assoc, H.
Qed.

Example shortMethod_Range : shortMethod "/etcdserverpb.KV/Range" = "KV/Range".
Proof. reflexivity. Qed.
