(* ===== verification/Metrics.v ===== *)
(** * pkg/metrics: what the program counts

    The metrics of pkg/metrics/metrics.go as declared, a registry of their series, and the
    operations of the other components with the calls of the metrics where the code has
    them: the writes and compactions of the store, the lease manager, the watcher, the
    change stream reader and the logging interceptors.  Each of them runs the operation of
    its component unchanged and updates the registry besides ([lift] and [tell]).

    A series holds a number.  Counters and gauges move by whole numbers, which float64
    represents exactly up to 2^53, so their values are [Z]; what [CurrentRevision.Set] and
    [Observe] are given is computed in float64. *)

From Stdlib Require Import Ascii String ZArith SpecFloat.
From S2P Require Import Prelude Go Spanner Rows Invariant Sim StoreRead StoreWrite StoreTxn StoreCompact Watcher ChangeStream Partitions PollLoop Leases ServerMain.

Open Scope string_scope.
Open Scope list_scope.
Open Scope Z_scope.

(** ** The declarations *)

Module metrics.

Inductive metric :=
| RPCDuration
| KVOperationsTotal
| CurrentRevision
| ActiveWatches
| WatchEventsTotal
| WatchSubscriberDropsTotal
| CSMode
| CSActivePartitions
| CSPartitionRestarts
| ActiveLeases
| LeaseExpirations
| CompactedRowsTotal
| CompactionDuration
| SpannerTransactions.

Definition all : list metric :=
  [RPCDuration; KVOperationsTotal; CurrentRevision; ActiveWatches; WatchEventsTotal; WatchSubscriberDropsTotal; CSMode;
   CSActivePartitions; CSPartitionRestarts; ActiveLeases; LeaseExpirations; CompactedRowsTotal; CompactionDuration;
   SpannerTransactions].

(** [prometheus.ExponentialBuckets(start, factor, count)]. *)
Fixpoint ExponentialBuckets (start factor : spec_float) (count : nat) : list spec_float :=
  match count with
  | O => []
  | S count => start :: ExponentialBuckets (SFmul 53 1024 start factor) factor count
  end.

Inductive kind := Counter | Gauge | Histogram (buckets : list spec_float).

Record opts := mk_opts { Kind : kind; Name : string; Help : string; Labels : list string }.

Definition Namespace : string := "spanner_etcd".

Definition two : spec_float := float64_of 2.

Definition declared (m : metric) : opts :=
  match m with
  | RPCDuration =>
      mk_opts (Histogram (ExponentialBuckets (SFdiv 53 1024 (float64_of 1) (float64_of 1000)) two 14))
        "rpc_duration_seconds" "gRPC request duration in seconds." ["method"; "status"]
  | KVOperationsTotal => mk_opts Counter "kv_operations_total" "Total number of KV operations." ["operation"; "status"]
  | CurrentRevision => mk_opts Gauge "current_revision" "Current global revision (latest rev in kv_rev)." []
  | ActiveWatches => mk_opts Gauge "active_watches" "Number of active Watch subscriptions." []
  | WatchEventsTotal => mk_opts Counter "watch_events_total" "Total Watch events dispatched to subscribers." ["source"]
  | WatchSubscriberDropsTotal =>
      mk_opts Counter "watch_subscriber_drops_total" "Watch subscribers dropped because their channel was full." []
  | CSMode =>
      mk_opts Gauge "change_stream_active" "1 if Change Stream is the active event source, 0 if using poll fallback." []
  | CSActivePartitions =>
      mk_opts Gauge "change_stream_partitions_active" "Number of Change Stream partitions currently being read." []
  | CSPartitionRestarts =>
      mk_opts Counter "change_stream_partition_restarts_total"
        "Total Change Stream partition reader restarts due to errors." []
  | ActiveLeases => mk_opts Gauge "active_leases" "Number of active TTL leases." []
  | LeaseExpirations => mk_opts Counter "lease_expirations_total" "Total leases expired via natural TTL." []
  | CompactedRowsTotal =>
      mk_opts Counter "compacted_rows_total" "Total kv rows physically deleted by compaction." ["trigger"]
  | CompactionDuration =>
      mk_opts (Histogram (ExponentialBuckets (SFdiv 53 1024 (float64_of 1) (float64_of 10)) two 11))
        "compaction_duration_seconds" "Time spent in each compaction run." ["trigger"]
  | SpannerTransactions =>
      mk_opts Counter "spanner_transactions_total" "Total Spanner read-write transactions." ["status"]
  end.

Definition fullName (m : metric) : string := Namespace +:+ "_" +:+ Name (declared m).

#[global] Instance metric_eq_dec : EqDecision metric.
Proof. solve_decision. Defined.

End metrics.
Export metrics(metric).

(** ** The registry *)

Definition series : Type := metric * list string.

(** [rg_panic]: a vector was asked for a series with the wrong number of labels. *)
Record registry := mk_registry {
  rg_values : series → Z;
  rg_observed : series → list spec_float;
  rg_panic : bool;
}.

Definition registry0 : registry := mk_registry (λ _, 0) (λ _, []) false.

(** [m.WithLabelValues(labels...)], with what is done to its value. *)
Definition update (m : metric) (labels : list string) (f : Z → Z) (g : registry) : registry :=
  if (length labels =? length (metrics.Labels (metrics.declared m)))%nat then
    mk_registry (λ s, if decide (s = (m, labels)) then f (rg_values g s) else rg_values g s) (rg_observed g) (rg_panic g)
  else mk_registry (rg_values g) (rg_observed g) true.

Definition inc (m : metric) (labels : list string) : registry → registry := update m labels (λ v, v + 1).
Definition dec (m : metric) (labels : list string) : registry → registry := update m labels (λ v, v - 1).
Definition add (m : metric) (labels : list string) (n : Z) : registry → registry := update m labels (λ v, v + n).
Definition set (m : metric) (labels : list string) (v : Z) : registry → registry := update m labels (λ _, v).

Definition observe (m : metric) (labels : list string) (x : spec_float) (g : registry) : registry :=
  if (length labels =? length (metrics.Labels (metrics.declared m)))%nat then
    mk_registry (rg_values g)
      (λ s, if decide (s = (m, labels)) then rg_observed g s ++ [x] else rg_observed g s) (rg_panic g)
  else mk_registry (rg_values g) (rg_observed g) true.

#[global] Arguments update : simpl never.
#[global] Arguments inc : simpl never.
#[global] Arguments dec : simpl never.
#[global] Arguments add : simpl never.
#[global] Arguments observe : simpl never.

Definition value (m : metric) (labels : list string) (g : registry) : Z := rg_values g (m, labels).

(** ** Metered code *)

Definition lift {S A} (m : ST S A) : ST (S * registry) A :=
  λ s, let (a, s') := m s.1 in (a, (s', s.2)).

Definition tell {S} (f : registry → registry) : ST (S * registry) () := λ s, ((), (s.1, f s.2)).

Definition status_of {A} (r : res A) : string := if is_ok r then "ok" else "error".

(** ** The store *)

Section store.
Context `{SP : Spanner}.

(** [status := "ok"; if err != nil { status = "error" }; ...]. *)
Definition write_metrics {A} (op : string) (r : res A) : registry → registry :=
  λ g, inc metrics.SpannerTransactions [status_of r] (inc metrics.KVOperationsTotal [op; status_of r] g).

(** [metrics.CurrentRevision.Set(float64(rev))]. *)
Definition set_revision (rev : Z) : registry → registry :=
  set metrics.CurrentRevision [] (int64_of_float (float64_of rev)).

Definition metered_Create (key : string) (val : option string) (leaseID : Z) : ST (world * registry) (res Z) :=
  r ← lift (read_write_txn (create_body key val leaseID) ());
  _ ← tell (write_metrics "create" r.1);
  match r.1 with
  | Err e => mret (Err e)
  | Ok commitTS =>
      let rev := tsToRev commitTS in
      _ ← tell (set_revision rev); _ ← lift (notify rev); mret (Ok rev)
  end.

Definition metered_outcome (r : res Z * option KV) : ST (world * registry) (res (Z * option KV * bool)) :=
  match r with
  | (Err err, prev) =>
      if errors_Is err ErrRevisionMismatch || errors_Is err ErrKeyNotFound then
        curRev ← lift CurrentRevision; mret (Ok (or_zero curRev, prev, false))
      else mret (Err err)
  | (Ok commitTS, prev) =>
      let rev := tsToRev commitTS in
      _ ← tell (set_revision rev); _ ← lift (notify rev); mret (Ok (rev, prev, true))
  end.

Definition metered_Update (key : string) (val : option string) (revision leaseID : Z) :
    ST (world * registry) (res (Z * option KV * bool)) :=
  r ← lift (read_write_txn (update_body key val revision leaseID) None);
  _ ← tell (write_metrics "update" r.1); metered_outcome r.

Definition metered_Delete (key : string) (revision : Z) : ST (world * registry) (res (Z * option KV * bool)) :=
  r ← lift (read_write_txn (delete_body key revision) None);
  _ ← tell (write_metrics "delete" r.1); metered_outcome r.

Definition metered_AtomicTxn (compares : list TxnCompare) (successOps failureOps : list TxnOp) :
    ST (world * registry) (res (bool * list TxnResult * Z)) :=
  match validateCompares compares with
  | Some e => mret (Err e)
  | None =>
      r ← lift (read_write_txn (atomic_body compares successOps failureOps) txn_vars0);
      _ ← tell (write_metrics "txn" r.1);
      match r with
      | (Err txnErr, _) => mret (Err txnErr)
      | (Ok commitTs, v) =>
          if v_hasMutations v then
            let commitRev := tsToRev commitTs in
            _ ← (if 0 <? commitRev then _ ← tell (set_revision commitRev); lift (notify commitRev) else mret ());
            mret (Ok (v_succeeded v, v_results v, commitRev))
          else
            mret (Ok (v_succeeded v, v_results v,
                      if v_snapshotRev v =? 0 then 1 else v_snapshotRev v))
      end
  end.

(** A finished run of [compactRows] that took [dur]. *)
Definition compaction_metrics (trigger : string) (total dur : Z) : registry → registry :=
  λ g, observe metrics.CompactionDuration [trigger] (Duration_Seconds dur)
         (add metrics.CompactedRowsTotal [trigger] total g).

Definition metered_compaction (fuel : nat) (dur : Z) : ST (world * registry) (option Z) :=
  total ← lift (run_compaction fuel);
  match total with
  | Some total => _ ← tell (compaction_metrics "manual" total dur); mret (Some total)
  | None => mret None
  end.

Definition metered_autoCompact (fuel : nat) (age dur : Z) : ST (world * registry) (option Z) :=
  total ← lift (autoCompact_tick fuel age);
  match total with
  | Some total => _ ← tell (compaction_metrics "auto" total dur); mret (Some total)
  | None => mret None
  end.

End store.

(** ** The logging interceptors *)

Definition metered_unary {A} (fullMethod : string) (elapsed : Z) (handler : res A) (g : registry) : res A * registry :=
  let '(r, (method, status), _) := loggingUnary fullMethod elapsed handler in
  (r, observe metrics.RPCDuration [method; status] (Duration_Seconds elapsed) g).

Definition metered_stream (fullMethod : string) (elapsed : Z) (err : option error) (g : registry) :
    option error * registry :=
  let '(r, (method, status)) := loggingStream fullMethod err in
  (r, observe metrics.RPCDuration [method; status] (Duration_Seconds elapsed) g).

(** ** The lease manager *)

(** [ml_granting] are the leases of the calls of [Grant] that have written their record and
    not yet taken the lock; [ml_overtaken] counts those that found their lease in the map
    already, entered by a reload. *)
Record metered_leases := mk_metered_leases {
  ml_s : lworld;
  ml_reg : registry;
  ml_granting : list Lease;
  ml_overtaken : nat;
}.

Definition ml_lm (x : metered_leases) : LeaseManager := lw_lm (ml_s x).

Definition on_leases (s : lworld) (g : registry) (x : metered_leases) : metered_leases :=
  mk_metered_leases s g (ml_granting x) (ml_overtaken x).

Section leases.
Context `{SP : Spanner}.

(** [Grant] up to the result of [Apply]. *)
Definition grant_apply (now ttl : Z) (x : metered_leases) : metered_leases :=
  let lm := ml_lm x in
  let id := int64 (lm_nextID lm + 1) in
  let s := set_lm (set_nextID id lm) (ml_s x) in
  match call (client_apply [InsertLease id ttl]) s with
  | (Err _, s) => on_leases s (ml_reg x) x
  | (Ok _, s) =>
      mk_metered_leases s (ml_reg x) (ml_granting x ++ [mk_Lease id ttl now (Time_Add now (seconds ttl))])
        (ml_overtaken x)
  end.

(** The rest of it. *)
Definition grant_finish (k : nat) (x : metered_leases) : metered_leases :=
  match ml_granting x !! k with
  | Some lease =>
      mk_metered_leases (set_lm (add_lease lease (ml_lm x)) (ml_s x)) (inc metrics.ActiveLeases [] (ml_reg x))
        (delete k (ml_granting x))
        (ml_overtaken x + match lm_leases (ml_lm x) !! L_ID lease with Some _ => 1 | None => 0 end)
  | None => x
  end.

Definition metered_Revoke (id : Z) : ST (lworld * registry) (option error) :=
  r ← lift (call (expireLeaseKeys id));
  match r with
  | Some e => mret (Some e)
  | None =>
      lm ← lift get_lm;
      _ ← lift (put_lm (drop_lease id lm));
      _ ← tell (match lm_leases lm !! id with Some _ => dec metrics.ActiveLeases [] | None => λ g, g end);
      mret None
  end.

Definition metered_load_row (p : LeaseManager * registry) (row : Z * lease_row) : LeaseManager * registry :=
  (load_row p.1 row,
   match lm_leases p.1 !! row.1 with Some _ => p.2 | None => inc metrics.ActiveLeases [] p.2 end).

Definition metered_load_rows (rows : list (Z * lease_row)) : ST (lworld * registry) () := λ s,
  let '(lm, g) := foldl metered_load_row (lw_lm s.1, s.2) rows in ((), (set_lm lm s.1, g)).

Definition metered_loadLeases : ST (lworld * registry) (bool * option error) :=
  out ← lift (call stream_leases);
  let '(rows, err) := out in
  _ ← metered_load_rows rows;
  mret (match err with None => (true, None) | Some e => (false, Some e) end).

(** The timer of goroutine [i] fires at [now] for a lease that was neither revoked nor
    extended. *)
Definition lease_expires (now : Z) (i : nat) (lm : LeaseManager) : bool :=
  match lm_goroutines lm !! i with
  | Some (Waiting a deadline) =>
      if now <? deadline then false
      else match lm_objs lm !! a with
           | Some lease =>
               match lookup_lease lm (L_ID lease) with
               | Some (_, current) => negb (Second <? Until (L_ExpiresAt current) now)
               | None => false
               end
           | None => false
           end
  | _ => false
  end.

Definition metered_expiry_fire (now : Z) (i : nat) : ST (lworld * registry) () := λ s,
  ((), ((expiry_fire now i s.1).2,
        if lease_expires now i (lw_lm s.1) then inc metrics.LeaseExpirations [] s.2 else s.2)).

Definition metered_expiry_retry (i : nat) : ST (lworld * registry) () := λ s,
  let lm := lw_lm s.1 in
  match lm_goroutines lm !! i with
  | Some (Expiring id attempt) =>
      let '(r, (s', g)) := metered_Revoke id s in
      let rest := delete i (lm_goroutines (lw_lm s')) in
      ((), (set_lm
        (match r with
         | None => set_goroutines rest (lw_lm s')
         | Some _ => if attempt <? 5 then set_goroutines (rest ++ [Expiring id (attempt + 1)]) (lw_lm s')
                     else abandon id (set_goroutines rest (lw_lm s'))
         end) s', g))
  | _ => ((), s)
  end.

(** An operation of the metered manager on the state with grants under way. *)
Definition run_leases {A} (m : ST (lworld * registry) A) (x : metered_leases) : metered_leases :=
  let '(s, g) := (m (ml_s x, ml_reg x)).2 in on_leases s g x.

Inductive metered_lease_step (x : metered_leases) : metered_leases → Prop :=
| ms_grant_apply now ttl : metered_lease_step x (grant_apply now ttl x)
| ms_grant_finish k : metered_lease_step x (grant_finish k x)
| ms_Revoke id : metered_lease_step x (run_leases (metered_Revoke id) x)
| ms_Keepalive now id :
    metered_lease_step x (on_leases (set_lm (Keepalive now id (ml_lm x)).2 (ml_s x)) (ml_reg x) x)
| ms_load : metered_lease_step x (run_leases metered_loadLeases x)
| ms_start i : metered_lease_step x (run_leases (lift (expiry_start i)) x)
| ms_fire now i : metered_lease_step x (run_leases (metered_expiry_fire now i) x)
| ms_retry i : metered_lease_step x (run_leases (metered_expiry_retry i) x)
| ms_store w : metered_lease_step x (on_leases (mk_lworld w (ml_lm x)) (ml_reg x) x).

Definition metered_leases_init (w : world) (now : Z) : metered_leases :=
  mk_metered_leases (mk_lworld w (newLeaseManager now)) registry0 [] 0.

End leases.

(** ** The watcher *)

Definition metered_subscribe (prefix : string) (afterRev : Z) (p : Watcher * registry) : nat * (Watcher * registry) :=
  let (i, wt) := subscribe prefix afterRev p.1 in (i, (wt, inc metrics.ActiveWatches [] p.2)).

(** [removeSub] is called by the deferred function of the goroutine. *)
Definition metered_replay_step `{SP : Spanner} (i : nat) (p : wworld * registry) : wworld * registry :=
  (replay_step i p.1,
   match wt_objs (vs_watcher p.1) !! i with
   | Some s => match sub_phase s with PRemove => dec metrics.ActiveWatches [] p.2 | _ => p.2 end
   | None => p.2
   end).

(** A batch is dispatched by the poll loop, which skips an empty one, or by the change
    stream. *)
Definition metered_dispatch_start (source : string) (events : list Event) (p : Watcher * registry) :
    dispatcher * registry :=
  (dispatch_start events p.1, add metrics.WatchEventsTotal [source] (Z.of_nat (length events)) p.2).

(** The channel of the subscriber is full. *)
Definition metered_dispatch_micro (d : dispatcher) (p : Watcher * registry) : dispatcher * (Watcher * registry) :=
  let (d', wt) := dispatch_micro (d, p.1) in
  (d', (wt, match d_send d with
            | Some i => match wt_objs p.1 !! i with
                        | Some s => if room s then p.2 else inc metrics.WatchSubscriberDropsTotal [] p.2
                        | None => p.2
                        end
            | None => p.2
            end)).

(** ** The change stream *)

Definition metered_start_receive (now : Z) (p : ChangeStreamReader * registry) : ChangeStreamReader * registry :=
  (start_receive now p.1,
   match cr_start p.1, cr_pending p.1 with
   | SLoop, part :: _ =>
       if decide (token part ∈ cr_active p.1) then p.2 else inc metrics.CSActivePartitions [] p.2
   | _, _ => p.2
   end).

Definition metered_reader_exit (j : nat) (p : ChangeStreamReader * registry) : ChangeStreamReader * registry :=
  (reader_exit j p.1,
   match cr_readers p.1 !! j with
   | Some r => match rd_phase r with RExit => dec metrics.CSActivePartitions [] p.2 | _ => p.2 end
   | None => p.2
   end).

Definition metered_reader_next `{PB : Structpb} (j : nat) (res : next_result) (p : ChangeStreamReader * registry) :
    ChangeStreamReader * registry :=
  (reader_next j res p.1,
   match cr_readers p.1 !! j with
   | Some r => match rd_phase r, res with
               | RNext, NextErr false => inc metrics.CSPartitionRestarts [] p.2
               | _, _ => p.2
               end
   | None => p.2
   end).

(** The flag of the change stream and its gauge are set one after the other. *)
Definition metered_monitor_fire (p : feeds * registry) : feeds * registry :=
  (monitor_fire p.1,
   match fs_monitor p.1 with PollLoop.Waiting => set metrics.CSMode [] 1 p.2 | _ => p.2 end).

Definition metered_cs_returned (p : feeds * registry) : feeds * registry :=
  (cs_returned p.1,
   match cr_start (fs_reader p.1) with
   | SReturned (Some _) => if fs_csDone p.1 then p.2 else set metrics.CSMode [] 0 p.2
   | _ => p.2
   end).
