(* ===== verification/MetricsProps.v ===== *)
(** * What the metrics say

    The declarations are accepted by the registry; metered code does what the code without
    metrics does; the counters of the store add up; and the gauges of leases, watches and
    partitions say what the maps and lists behind them hold, in every interleaving: exactly
    for watches and partitions, and for leases up to the grants that a reload overtook,
    which are counted twice. *)

From Stdlib Require Import Ascii String ZArith SpecFloat.
From S2P Require Import Prelude Go Spanner Rows Invariant Sim StoreRead StoreWrite StoreTxn StoreSpec StoreCompact Leases LeaseProps Watcher WatchProps ChangeStream ChangeStreamProps Partitions PartitionProps PollLoop ServerMain Metrics.

Open Scope string_scope.
Open Scope list_scope.
Open Scope Z_scope.

(** ** The registry *)

(** [promauto] panics when a name is registered twice: no two metrics share one, and every
    metric is registered. *)
Lemma metrics_registered : NoDup (metrics.fullName <$> metrics.all) ∧ ∀ m, m ∈ metrics.all.
Proof.
  split; [apply (bool_decide_unpack _); vm_compute; exact I|]. intros m. apply (bool_decide_unpack _). by destruct m.
Qed.

(** The buckets of the two histograms: from a millisecond to about eight seconds, and from a
    tenth of a second to about a hundred. *)
Lemma buckets_range :
  (match metrics.Kind (metrics.declared metrics.RPCDuration) with
   | metrics.Histogram b => last b = Some (SFdiv 53 1024 (float64_of 8192) (float64_of 1000)) ∧ length b = 14%nat
   | _ => False
   end) ∧
  match metrics.Kind (metrics.declared metrics.CompactionDuration) with
  | metrics.Histogram b => last b = Some (SFdiv 53 1024 (float64_of 1024) (float64_of 10)) ∧ length b = 11%nat
  | _ => False
  end.
Proof. vm_compute. repeat split. Qed.

(** The number of labels is the declared one. *)
Definition labelled (m : metric) (labels : list string) : Prop :=
  length labels = length (metrics.Labels (metrics.declared m)).

#[global] Instance labelled_dec m labels : Decision (labelled m labels).
Proof. unfold labelled. apply _. Defined.

Lemma value_update m labels f g m' labels' :
  labelled m labels →
  value m' labels' (update m labels f g) =
  (if decide ((m', labels') = (m, labels)) then f (value m labels g) else value m' labels' g).
Proof.
  unfold labelled, value, update. intros ->. rewrite Nat.eqb_refl. cbn.
  destruct (decide _) as [E|E]; [by rewrite E|done].
Qed.

Lemma panic_update m labels f g : labelled m labels → rg_panic (update m labels f g) = rg_panic g.
Proof. unfold labelled, update. intros ->. by rewrite Nat.eqb_refl. Qed.

Lemma value_observe m labels x g m' labels' : value m' labels' (observe m labels x g) = value m' labels' g.
Proof. unfold observe, value. by case_bool. Qed.

Lemma panic_observe m labels x g : labelled m labels → rg_panic (observe m labels x g) = rg_panic g.
Proof. unfold labelled, observe. intros ->. by rewrite Nat.eqb_refl. Qed.

(** The gauge of the revision is a float64: at nanosecond timestamps of today it does not
    tell neighbouring revisions apart. *)
Theorem current_revision_rounded :
  let rev := 1700000000000000000 in
  value metrics.CurrentRevision [] (set_revision (rev + 100) registry0) =
  value metrics.CurrentRevision [] (set_revision rev registry0).
Proof. vm_compute. reflexivity. Qed.

(** ** The store *)

Section store.
Context `{SP : Spanner}.

Inductive store_call :=
| CallCreate (key : string) (val : option string) (leaseID : Z)
| CallUpdate (key : string) (val : option string) (revision leaseID : Z)
| CallDelete (key : string) (revision : Z)
| CallTxn (compares : list TxnCompare) (successOps failureOps : list TxnOp)
| CallCompaction (fuel : nat) (dur : Z)
| CallAutoCompact (fuel : nat) (age dur : Z).

Definition plain_call (c : store_call) (w : world) : world :=
  match c with
  | CallCreate key val leaseID => (Create key val leaseID w).2
  | CallUpdate key val revision leaseID => (Update key val revision leaseID w).2
  | CallDelete key revision => (Delete key revision w).2
  | CallTxn compares successOps failureOps => (AtomicTxn compares successOps failureOps w).2
  | CallCompaction fuel _ => (run_compaction fuel w).2
  | CallAutoCompact fuel age _ => (autoCompact_tick fuel age w).2
  end.

Definition metered_call (c : store_call) (p : world * registry) : world * registry :=
  match c with
  | CallCreate key val leaseID => (metered_Create key val leaseID p).2
  | CallUpdate key val revision leaseID => (metered_Update key val revision leaseID p).2
  | CallDelete key revision => (metered_Delete key revision p).2
  | CallTxn compares successOps failureOps => (metered_AtomicTxn compares successOps failureOps p).2
  | CallCompaction fuel dur => (metered_compaction fuel dur p).2
  | CallAutoCompact fuel age dur => (metered_autoCompact fuel age dur p).2
  end.

(** The label [operation] under which a call is counted. *)
Definition call_op (c : store_call) : option string :=
  match c with
  | CallCreate _ _ _ => Some "create"
  | CallUpdate _ _ _ _ => Some "update"
  | CallDelete _ _ => Some "delete"
  | CallTxn compares _ _ => if validateCompares compares is Some _ then None else Some "txn"
  | _ => None
  end.

Definition ops : list string := ["create"; "update"; "delete"; "txn"].

Definition op_count (op : string) (cs : list store_call) : Z :=
  Z.of_nat (length (filter (λ c, call_op c = Some op) cs)).

(** What a call does to the counters of operations and transactions, with its status. *)
Definition counts (c : store_call) (st : string) (g g' : registry) : Prop :=
  rg_panic g' = rg_panic g ∧ st ∈ ["ok"; "error"] ∧
  (∀ op st', value metrics.KVOperationsTotal [op; st'] g' =
             value metrics.KVOperationsTotal [op; st'] g +
             (if decide (call_op c = Some op ∧ st' = st) then 1 else 0)) ∧
  ∀ st', value metrics.SpannerTransactions [st'] g' =
         value metrics.SpannerTransactions [st'] g + (if decide (is_Some (call_op c) ∧ st' = st) then 1 else 0).

(** An update of a series that is neither of the two. *)
Definition aside (f : registry → registry) : Prop :=
  ∀ g, rg_panic (f g) = rg_panic g ∧
    (∀ labels, value metrics.KVOperationsTotal labels (f g) = value metrics.KVOperationsTotal labels g) ∧
    ∀ labels, value metrics.SpannerTransactions labels (f g) = value metrics.SpannerTransactions labels g.

Lemma aside_id : aside (λ g, g).
Proof. done. Qed.

Lemma aside_revision rev : aside (set_revision rev).
Proof. intros g. unfold set_revision, set. split_and!; [done|intros; by rewrite value_update..]. Qed.

Lemma aside_compaction trigger total dur : aside (compaction_metrics trigger total dur).
Proof.
  intros g. unfold compaction_metrics, add. split_and!.
  - by rewrite panic_observe.
  - intros. by rewrite value_observe, value_update.
  - intros. by rewrite value_observe, value_update.
Qed.

Lemma counts_aside c f g : call_op c = None → aside f → counts c "ok" g (f g).
Proof.
  intros Hc Hf. destruct (Hf g) as (Hp & Hk & Ht). split_and!; [done|by left|..].
  - intros op st'. rewrite Hk, decide_False by naive_solver. lia.
  - intros st'. rewrite Ht, decide_False; [lia|]. rewrite Hc. by intros [[? ?] _].
Qed.

Lemma counts_write {A} c op (r : res A) f g :
  call_op c = Some op → aside f → counts c (status_of r) g (f (write_metrics op r g)).
Proof.
  intros Hc Hf. destruct (Hf (write_metrics op r g)) as (Hp & Hk & Ht). split_and!.
  - rewrite Hp. unfold write_metrics, inc. by rewrite !panic_update.
  - unfold status_of. destruct (is_ok r); [by left|by right; left].
  - intros op' st'. rewrite Hk. unfold write_metrics, inc. rewrite !value_update by done.
    rewrite decide_False by done. destruct (decide (call_op c = Some op' ∧ st' = status_of r)) as [[E ->]|E].
    + assert (op' = op) as -> by congruence. by rewrite decide_True.
    + rewrite decide_False by (intros [= -> ->]; by destruct E). lia.
  - intros st'. rewrite Ht. unfold write_metrics, inc. rewrite value_update by done.
    destruct (decide (is_Some (call_op c) ∧ st' = status_of r)) as [[_ ->]|E].
    + rewrite decide_True by done. by rewrite value_update.
    + rewrite decide_False by (intros [= ->]; by destruct E). rewrite value_update, decide_False by done. lia.
Qed.

(** Metered code does what the code without metrics does, with its result, and counts the
    call. *)
Definition faithful {A} (c : store_call) (m : ST (world * registry) A) (m0 : ST world A) : Prop :=
  ∀ w g, let (a, p) := m (w, g) in (a, p.1) = m0 w ∧ ∃ st, counts c st g p.2.

Lemma outcome_faithful r w g :
  let (a, p) := metered_outcome r (w, g) in (a, p.1) = cas_outcome r w ∧ ∃ f, aside f ∧ p.2 = f g.
Proof.
  unfold metered_outcome, cas_outcome, lift, tell, mbind, st_bind. destruct r as [[ts|e] prev]; cbn.
  - split; [done|]. exists (set_revision (tsToRev ts)). split; [apply aside_revision|done].
  - case_bool; [|split; [done|exists (λ g, g); split; [apply aside_id|done]]].
    cbn [fst snd]. destruct (CurrentRevision w) as [cur w'].
    split; [done|]. exists (λ g, g). split; [apply aside_id|done].
Qed.

Lemma Create_faithful key val l : faithful (CallCreate key val l) (metered_Create key val l) (Create key val l).
Proof.
  intros w g. unfold metered_Create, Create, lift, tell, mbind, st_bind. cbn.
  destruct (read_write_txn _ _ w) as [[[ts|e] u] w']; cbn; (split; [done|]).
  - eexists. apply (counts_write _ _ (Ok ts) (set_revision (tsToRev ts))); [done|apply aside_revision].
  - eexists. apply (counts_write _ _ (Err (A := Z) e) (λ g, g)); [done|apply aside_id].
Qed.

Lemma cas_faithful c op b :
  call_op c = Some op →
  faithful c (r ← lift (read_write_txn b None); _ ← tell (write_metrics op r.1); metered_outcome r)
             (r ← read_write_txn b None; cas_outcome r).
Proof.
  intros Hc w g. unfold lift, tell, mbind, st_bind. cbn [fst snd].
  destruct (read_write_txn _ _ w) as [[r prev] w']. cbn [fst snd].
  pose proof (outcome_faithful (r, prev) w' (write_metrics op r g)) as H.
  destruct (metered_outcome _ _) as [a [w'' g']]. destruct H as (H1 & f & Hf & H2). split; [done|].
  exists (status_of r). cbn [snd] in *. rewrite H2. by apply counts_write.
Qed.

Lemma Txn_faithful cmp s f : faithful (CallTxn cmp s f) (metered_AtomicTxn cmp s f) (AtomicTxn cmp s f).
Proof.
  intros w g. unfold metered_AtomicTxn, AtomicTxn. destruct (validateCompares cmp) as [e|] eqn:Hv.
  - split; [done|]. eexists. apply (counts_aside _ (λ g, g)); [cbn; by rewrite Hv|apply aside_id].
  - assert (call_op (CallTxn cmp s f) = Some "txn") as Hop by (cbn; by rewrite Hv).
    unfold lift, tell, mbind, st_bind. cbn [fst snd].
    destruct (read_write_txn _ _ w) as [[[ts|e] v] w']; cbn [fst snd].
    + destruct (v_hasMutations v); [|split; [done|]; eexists; by apply (counts_write _ _ _ (λ g, g) g Hop), aside_id].
      destruct (0 <? tsToRev ts); (split; [done|]); eexists.
      * apply (counts_write _ _ _ (set_revision (tsToRev ts)) g Hop), aside_revision.
      * by apply (counts_write _ _ _ (λ g, g) g Hop), aside_id.
    + split; [done|]. eexists. by apply (counts_write _ _ _ (λ g, g) g Hop), aside_id.
Qed.

Lemma compaction_faithful c trigger dur m :
  call_op c = None →
  faithful c (total ← lift m;
              match total with
              | Some total => _ ← tell (compaction_metrics trigger total dur); mret (Some total)
              | None => mret None
              end) m.
Proof.
  intros Hc w g. unfold lift, tell, mbind, st_bind. cbn [fst snd].
  destruct (m w) as [[total|] w']; cbn [fst snd]; (split; [done|]); eexists.
  - apply (counts_aside _ (compaction_metrics trigger total dur)); [done|apply aside_compaction].
  - by apply (counts_aside _ (λ g, g)), aside_id.
Qed.

Lemma call_faithful c p : (metered_call c p).1 = plain_call c p.1 ∧ ∃ st, counts c st p.2 (metered_call c p).2.
Proof.
  assert (∀ A (m : ST _ A) m0, faithful c m m0 → (m p).2.1 = (m0 p.1).2 ∧ ∃ st, counts c st p.2 (m p).2.2) as H.
  { intros A m m0 Hf. destruct p as [w g]. specialize (Hf w g). destruct (m (w, g)) as [a p]. destruct Hf as [H1 H2].
    cbn. split; [by rewrite <-H1|done]. }
  destruct c; cbn; apply H.
  - apply Create_faithful.
  - by apply (cas_faithful _ "update").
  - by apply (cas_faithful _ "delete").
  - apply Txn_faithful.
  - by apply (compaction_faithful _ "manual").
  - by apply (compaction_faithful _ "auto").
Qed.

Lemma count_status c op st :
  st ∈ ["ok"; "error"] →
  (if decide (call_op c = Some op ∧ "ok" = st) then 1 else 0) + (if decide (call_op c = Some op ∧ "error" = st) then 1 else 0) =
  Z.of_nat (length (filter (λ c, call_op c = Some op) [c])).
Proof.
  intros Hst. rewrite filter_cons, filter_nil. assert (st = "ok" ∨ st = "error") as [-> | ->] by set_solver.
  all: destruct (decide (call_op c = Some op)) as [E|E].
  all: repeat (destruct (decide (_ ∧ _)) as [[? ?]|?]); cbn; try done; try lia; exfalso; tauto.
Qed.

Lemma count_txn c (st st' : string) :
  (if decide (is_Some (call_op c) ∧ st' = st) then 1 else 0) =
  foldr Z.add 0 ((λ op, if decide (call_op c = Some op ∧ st' = st) then 1 else 0) <$> ops).
Proof.
  assert (call_op c = None ∨ ∃ op, call_op c = Some op ∧ op ∈ ops) as [-> | (op & -> & Hop)].
  { destruct c as [| | |cmp s f| |]; cbn; try (right; eexists; split; [done|]; set_solver); try by left.
    destruct (validateCompares cmp); [by left|right]. eexists. split; [done|]. set_solver. }
  - rewrite decide_False by (by intros [[] _]). unfold ops. cbn [fmap list_fmap foldr].
    by rewrite !decide_False by (by intros [? _]).
  - unfold ops in *. cbn [fmap list_fmap foldr].
    assert (op = "create" ∨ op = "update" ∨ op = "delete" ∨ op = "txn") as Ho by set_solver.
    destruct (decide (st' = st)) as [->|Hne].
    + rewrite decide_True by (split; [by eexists|done]).
      destruct Ho as [-> |[-> |[-> | ->]]]; repeat (destruct (decide (_ ∧ _)) as [[? ?]|?]); cbn; try congruence; try lia;
        exfalso; tauto.
    + by rewrite !decide_False by (by intros [_ ?]).
Qed.

(** The metrics of the store only observe it, and add up: a run of metered calls leaves the
    world the calls without metrics leave; no vector is asked for a series it does not
    have; each operation is counted once under its name, as "ok" or "error", and what is
    refused before its transaction is not counted; and the transactions counted with a
    status are the operations counted with it. *)
Theorem store_metrics_add_up w cs :
  let p := foldl (λ p c, metered_call c p) (w, registry0) cs in
  p.1 = foldl (λ w c, plain_call c w) w cs ∧ rg_panic p.2 = false ∧
  (∀ op, value metrics.KVOperationsTotal [op; "ok"] p.2 + value metrics.KVOperationsTotal [op; "error"] p.2 =
         op_count op cs) ∧
  ∀ st, value metrics.SpannerTransactions [st] p.2 =
        foldr Z.add 0 ((λ op, value metrics.KVOperationsTotal [op; st] p.2) <$> ops).
Proof.
  cbv zeta. induction cs as [|c cs IH] using rev_ind; [done|]. rewrite !foldl_snoc.
  set (p := foldl _ _ cs) in *. destruct (call_faithful c p) as (H1 & st & Hp & Hst & Hk & Ht).
  destruct IH as (I1 & I2 & I3 & I4). split_and!.
  - by rewrite H1, I1.
  - by rewrite Hp.
  - intros op. rewrite !Hk. unfold op_count. rewrite filter_app, length_app, Nat2Z.inj_add. fold (op_count op cs).
    pose proof (count_status c op st Hst). rewrite <-I3. lia.
  - intros st'. rewrite Ht, I4. pose proof (count_txn c st st') as E. unfold ops in *. cbn [fmap list_fmap foldr] in *.
    rewrite !Hk. lia.
Qed.

End store.

(** ** Leases *)

Section leases.
Context `{SP : Spanner}.

(** By how much the gauge exceeds the number of leases in the map. *)
Definition lease_surplus (lm : LeaseManager) (g : registry) : Z :=
  value metrics.ActiveLeases [] g - Z.of_nat (size (lm_leases lm)).

Definition balanced (lm : LeaseManager) (g : registry) (lm' : LeaseManager) (g' : registry) : Prop :=
  lease_surplus lm' g' = lease_surplus lm g ∧ rg_panic g' = rg_panic g.

Lemma balanced_trans lm1 g1 lm2 g2 lm3 g3 :
  balanced lm1 g1 lm2 g2 → balanced lm2 g2 lm3 g3 → balanced lm1 g1 lm3 g3.
Proof. unfold balanced. intuition congruence. Qed.

Lemma balanced_same lm g lm' : lm_leases lm' = lm_leases lm → balanced lm g lm' g.
Proof. unfold balanced, lease_surplus. by intros ->. Qed.

Lemma add_surplus l lm g :
  lease_surplus (add_lease l lm) (inc metrics.ActiveLeases [] g) =
  lease_surplus lm g + match lm_leases lm !! L_ID l with Some _ => 1 | None => 0 end.
Proof.
  unfold lease_surplus, inc, add_lease. rewrite value_update, decide_True by done. cbn [lm_leases].
  rewrite map_size_insert. destruct (lm_leases lm !! L_ID l); unfold id; lia.
Qed.

Lemma drop_balanced id lm g :
  balanced lm g (drop_lease id lm) (match lm_leases lm !! id with Some _ => dec metrics.ActiveLeases [] g | None => g end).
Proof.
  unfold balanced, lease_surplus, drop_lease. cbn [lm_leases]. rewrite map_size_delete.
  destruct (lm_leases lm !! id) as [a|] eqn:E; [|done]. unfold dec. rewrite value_update, decide_True by done.
  split; [|done]. assert (size (lm_leases lm) ≠ 0%nat); [|lia].
  intros Hz%map_size_empty_inv. by rewrite Hz, lookup_empty in E.
Qed.

Lemma Revoke_metered id s g :
  let '(r, (s', g')) := metered_Revoke id (s, g) in (r, s') = Revoke id s ∧ balanced (lw_lm s) g (lw_lm s') g'.
Proof.
  unfold metered_Revoke, Revoke, call, lift, tell, get_lm, put_lm, mbind, st_bind. cbn [fst snd].
  destruct (expireLeaseKeys id (lw_store s)) as [[e|] w]; cbn; (split; [done|]); [done|].
  pose proof (drop_balanced id (lw_lm s) g) as H. by destruct (lm_leases (lw_lm s) !! id).
Qed.

Lemma load_rows_metered rows lm g :
  (foldl metered_load_row (lm, g) rows).1 = foldl load_row lm rows ∧
  balanced lm g (foldl metered_load_row (lm, g) rows).1 (foldl metered_load_row (lm, g) rows).2.
Proof.
  revert lm g. induction rows as [|[id r] rows IH]; intros lm g; [done|]. cbn [foldl].
  unfold metered_load_row at 2 4 6. cbn [fst snd].
  destruct (IH (load_row lm (id, r)) (match lm_leases lm !! id with Some _ => g | None => inc metrics.ActiveLeases [] g end))
    as [H1 H2]. split; [done|]. eapply balanced_trans; [|exact H2]. unfold load_row.
  destruct (lm_leases lm !! id) as [a|] eqn:E; [done|]. split; [|by apply panic_update].
  rewrite add_surplus. cbn [L_ID]. rewrite E. lia.
Qed.

Lemma loadLeases_metered s g :
  let '(r, (s', g')) := metered_loadLeases (s, g) in (r, s') = loadLeases s ∧ balanced (lw_lm s) g (lw_lm s') g'.
Proof.
  unfold metered_loadLeases, metered_load_rows, loadLeases, call, lift, get_lm, put_lm, mbind, st_bind. cbn [fst snd].
  destruct (stream_leases (lw_store s)) as [[rows err] w]. cbn [fst snd lw_lm].
  destruct (load_rows_metered rows (lw_lm s) g) as [H1 H2].
  destruct (foldl metered_load_row _ rows) as [lm' g']. cbn [fst snd] in *. by rewrite <-H1.
Qed.

Lemma expiry_retry_metered i s g :
  let '(s', g') := (metered_expiry_retry i (s, g)).2 in
  s' = (expiry_retry i s).2 ∧ balanced (lw_lm s) g (lw_lm s') g'.
Proof.
  unfold metered_expiry_retry, expiry_retry. cbn [fst].
  destruct (lm_goroutines (lw_lm s) !! i) as [[a|a t|id n]|]; [done..| |done].
  pose proof (Revoke_metered id s g) as H. destruct (metered_Revoke id (s, g)) as [r [s' g']]. destruct H as [<- H].
  cbn [snd]. split; [done|]. eapply balanced_trans; [exact H|]. apply balanced_same.
  destruct r; [case_bool|]; done.
Qed.

Lemma expiry_fire_metered now i s g :
  let '(s', g') := (metered_expiry_fire now i (s, g)).2 in
  s' = (expiry_fire now i s).2 ∧ balanced (lw_lm s) g (lw_lm s') g'.
Proof.
  unfold metered_expiry_fire. cbn [fst snd]. split; [done|].
  assert (lm_leases (lw_lm (expiry_fire now i s).2) = lm_leases (lw_lm s)) as E.
  { unfold expiry_fire. destruct (_ !! i) as [[a|a t|id n]|]; try done. case_bool; [done|]. by destruct (_ !! a). }
  destruct (lease_expires _ _ _); [|by apply balanced_same]. unfold balanced, lease_surplus, inc.
  by rewrite E, value_update, decide_False, panic_update by done.
Qed.

Lemma metered_lease_step_surplus x x' :
  metered_lease_step x x' →
  lease_surplus (ml_lm x') (ml_reg x') - Z.of_nat (ml_overtaken x') =
    lease_surplus (ml_lm x) (ml_reg x) - Z.of_nat (ml_overtaken x) ∧
  rg_panic (ml_reg x') = rg_panic (ml_reg x).
Proof.
  assert (∀ s g, balanced (ml_lm x) (ml_reg x) (lw_lm s) g →
    lease_surplus (ml_lm (on_leases s g x)) (ml_reg (on_leases s g x)) - Z.of_nat (ml_overtaken x) =
      lease_surplus (ml_lm x) (ml_reg x) - Z.of_nat (ml_overtaken x) ∧ rg_panic g = rg_panic (ml_reg x)) as Hon.
  { intros s g [H1 H2]. split; [|done]. change (ml_lm (on_leases s g x)) with (lw_lm s). cbn [ml_reg on_leases]. lia. }
  destruct 1.
  - unfold grant_apply, call. destruct (client_apply _ _) as [[ts|e] w]; cbn; split; done.
  - unfold grant_finish. destruct (ml_granting x !! k) as [l|]; [|done].
    split; [|by apply panic_update]. change (ml_lm (mk_metered_leases _ _ _ _)) with (add_lease l (ml_lm x)).
    cbn [ml_reg ml_overtaken]. rewrite add_surplus. destruct (_ !! L_ID l); lia.
  - pose proof (Revoke_metered id (ml_s x) (ml_reg x)) as H. unfold run_leases.
    destruct (metered_Revoke _ _) as [r [s g]]. apply Hon, H.
  - apply Hon, balanced_same. cbn. unfold Keepalive. by destruct (lookup_lease _ _) as [[a l]|].
  - pose proof (loadLeases_metered (ml_s x) (ml_reg x)) as H. unfold run_leases.
    destruct (metered_loadLeases _) as [r [s g]]. apply Hon, H.
  - unfold run_leases, lift. cbn [fst snd]. unfold expiry_start. destruct (_ !! i) as [[a|a t|id n]|]; try done.
    by destruct (_ !! a).
  - pose proof (expiry_fire_metered now i (ml_s x) (ml_reg x)) as H. unfold run_leases.
    destruct (metered_expiry_fire _ _ _) as [r [s g]]. apply Hon, H.
  - pose proof (expiry_retry_metered i (ml_s x) (ml_reg x)) as H. unfold run_leases.
    destruct (metered_expiry_retry _ _) as [r [s g]]. apply Hon, H.
  - done.
Qed.

(** C39: The gauge of active leases: in every interleaving of grants, whose record is written
    before the lease enters the map, revocations, keep-alives, reloads and the expiry
    goroutines, it is the number of leases in the map plus the number of grants whose lease
    a reload had found in between. *)
Theorem active_leases_gauge w now x :
  rtc metered_lease_step (metered_leases_init w now) x →
  value metrics.ActiveLeases [] (ml_reg x) =
    Z.of_nat (size (lm_leases (ml_lm x))) + Z.of_nat (ml_overtaken x) ∧
  rg_panic (ml_reg x) = false.
Proof.
  intros Hrun.
  assert (lease_surplus (ml_lm x) (ml_reg x) - Z.of_nat (ml_overtaken x) = 0 ∧ rg_panic (ml_reg x) = false) as [H Hp].
  { remember (metered_leases_init w now) as x0 eqn:E.
    assert (lease_surplus (ml_lm x0) (ml_reg x0) - Z.of_nat (ml_overtaken x0) = 0 ∧ rg_panic (ml_reg x0) = false) as H0
      by (subst x0; split; vm_compute; reflexivity). clear E.
    induction Hrun as [|x0 x1 x2 Hs _ IH]; [done|]. apply IH.
    destruct (metered_lease_step_surplus _ _ Hs) as [-> ->]. done. }
  unfold lease_surplus in H. split; [lia|done].
Qed.

(** A grant is the two steps, one after the other. *)
Lemma grant_metered now ttl x :
  ml_granting x = [] →
  ml_s (grant_finish 0 (grant_apply now ttl x)) = (Grant now ttl (ml_s x)).2.
Proof.
  intros Hg. unfold grant_apply, Grant, call, get_lm, put_lm, mbind, st_bind, ml_lm. cbn [lw_lm lw_store set_lm fst snd].
  destruct (client_apply _ _) as [[ts|e] w]; cbn; unfold grant_finish; cbn; by rewrite Hg.
Qed.

End leases.

(** A reload that runs between the two halves of a grant counts its lease a second time, for
    good: one lease is active, the gauge says two, and after its revocation one. *)
Definition lease_race : metered_leases :=
  grant_finish 0 (run_leases (metered_loadLeases (SP := solo))
    (grant_apply (SP := solo) 0 10 (metered_leases_init (world_of empty_db) 0))).

Definition lease_race_over : metered_leases := run_leases (metered_Revoke (SP := solo) 1) lease_race.

Lemma lease_race_run :
  rtc (metered_lease_step (SP := solo)) (metered_leases_init (world_of empty_db) 0) lease_race ∧
  rtc (metered_lease_step (SP := solo)) lease_race lease_race_over.
Proof.
  split; [|apply rtc_once, ms_Revoke]. eapply rtc_r; [|apply ms_grant_finish]. eapply rtc_r; [|apply ms_load].
  apply rtc_once, ms_grant_apply.
Qed.

Theorem lease_counted_twice :
  ∃ x x', rtc (metered_lease_step (SP := solo)) (metered_leases_init (world_of empty_db) 0) x ∧
    rtc (metered_lease_step (SP := solo)) x x' ∧
    size (lm_leases (ml_lm x)) = 1%nat ∧ value metrics.ActiveLeases [] (ml_reg x) = 2 ∧
    lm_leases (ml_lm x') = ∅ ∧ value metrics.ActiveLeases [] (ml_reg x') = 1.
Proof.
  exists lease_race, lease_race_over. destruct lease_race_run. split_and!; try done; vm_compute; reflexivity.
Qed.

(** ** Watches *)

Section watches.
Context `{SP : Spanner}.

(** [watch_step] with the metrics; the state of the registry belongs to the watcher. *)
Inductive metered_watch_step (y : wsystem * registry) : wsystem * registry → Prop :=
| mw_subscribe prefix afterRev :
    metered_watch_step y (let '(_, (wt, g)) := metered_subscribe prefix afterRev (sy_wt y.1, y.2) in (with_wt wt y.1, g))
| mw_replay i :
    metered_watch_step y
      (let (v, g) := metered_replay_step i (sy_v y.1, y.2) in (mk_wsystem v (sy_disp y.1), g))
| mw_start source events :
    source ∈ ["poll"; "change_stream"] →
    metered_watch_step y
      (let (d, g) := metered_dispatch_start source events (sy_wt y.1, y.2) in
       (mk_wsystem (sy_v y.1) (sy_disp y.1 ++ [d]), g))
| mw_dispatch k d : sy_disp y.1 !! k = Some d →
    metered_watch_step y
      (let '(d', (wt, g)) := metered_dispatch_micro d (sy_wt y.1, y.2) in
       (mk_wsystem (mk_wworld (vs_store (sy_v y.1)) wt) (<[k := d']> (sy_disp y.1)), g))
| mw_done i : metered_watch_step y (with_wt (replay_done i (sy_wt y.1)) y.1, y.2)
| mw_timeout i : metered_watch_step y (with_wt (sentinel_timeout i (sy_wt y.1)) y.1, y.2)
| mw_cancel i : metered_watch_step y (with_wt (cancel_sub i (sy_wt y.1)) y.1, y.2)
| mw_receive i : metered_watch_step y (with_wt (receive i (sy_wt y.1)).2 y.1, y.2)
| mw_world w : metered_watch_step y (mk_wsystem (mk_wworld w (sy_wt y.1)) (sy_disp y.1), y.2).

(** The metrics do not change what the watcher does. *)
Lemma metered_watch_erase y y' : metered_watch_step y y' → watch_step y.1 y'.1.
Proof.
  destruct 1 as [p rev|i|src events|k d H|i|i|i|i|w].
  - exact (step_subscribe _ p rev).
  - exact (step_replay _ i).
  - exact (step_start _ events).
  - unfold metered_dispatch_micro. cbn [fst]. pose proof (step_dispatch _ k d H) as Hs.
    by destruct (dispatch_micro _).
  - exact (step_done _ i).
  - exact (step_timeout _ i).
  - exact (step_cancel _ i).
  - exact (step_receive _ i).
  - exact (step_world _ w).
Qed.

(** The events handed to the dispatchers so far. *)
Definition dispatched (ds : list dispatcher) : Z := foldr Z.add 0 ((λ d, Z.of_nat (length (d_events d))) <$> ds).

Record watch_metrics_ok (y : wsystem) (g : registry) : Prop := mk_watch_metrics_ok {
  wm_active : value metrics.ActiveWatches [] g = Z.of_nat (length (wt_subscribers (sy_wt y)));
  wm_events : value metrics.WatchEventsTotal ["poll"] g + value metrics.WatchEventsTotal ["change_stream"] g =
              dispatched (sy_disp y);
  wm_panic : rg_panic g = false;
}.

Lemma dispatched_app ds d : dispatched (ds ++ [d]) = dispatched ds + Z.of_nat (length (d_events d)).
Proof. unfold dispatched. induction ds as [|d' ds IH]; cbn; [lia|]. cbn in IH. rewrite IH. lia. Qed.

Lemma dispatched_insert ds k d d' :
  ds !! k = Some d → d_events d' = d_events d → dispatched (<[k := d']> ds) = dispatched ds.
Proof.
  intros Hk He. unfold dispatched. f_equal. rewrite list_fmap_insert. apply list_insert_id.
  by rewrite list_lookup_fmap, Hk, He.
Qed.

Lemma filter_not_member i (l : list nat) : i ∉ l → filter (λ j, j ≠ i) l = l.
Proof. induction l as [|j l IH]; intros Hi; [done|]. rewrite filter_cons, decide_True by set_solver. f_equal. set_solver. Qed.

Lemma remove_length i (l : list nat) :
  NoDup l → i ∈ l → (length l = 1 + length (filter (λ j, j ≠ i) l))%nat.
Proof.
  induction 1 as [|j l Hj _ IH]; intros Hi; [set_solver|]. rewrite filter_cons.
  destruct (decide (j = i)) as [->|Hne].
  - rewrite decide_False by tauto. by rewrite filter_not_member.
  - rewrite decide_True by done. cbn. rewrite IH by set_solver. done.
Qed.

Lemma set_sub_subscribers i s wt : wt_subscribers (set_sub i s wt) = wt_subscribers wt.
Proof. done. Qed.

Lemma replay_step_subscribers i v :
  wt_subscribers (vs_watcher (replay_step i v)) =
  match wt_objs (vs_watcher v) !! i with
  | Some s => match sub_phase s with
              | PRemove => filter (λ j, j ≠ i) (wt_subscribers (vs_watcher v))
              | _ => wt_subscribers (vs_watcher v)
              end
  | None => wt_subscribers (vs_watcher v)
  end.
Proof.
  destruct v as [w wt]. unfold replay_step. cbn [vs_watcher]. destruct (wt_objs wt !! i) as [s|]; [|done].
  destruct (sub_phase s); try done.
  - case_bool; [done|]. destruct (compactRevision w) as [[c|e] w']; [case_bool|]; done.
  - destruct (After _ _ _ w) as [[cur [[|e evs]|e]] w']; done.
  - by case_bool.
  - by destruct (sub_ch s).
  - by case_bool.
Qed.

Lemma dispatch_micro_subscribers d wt :
  wt_subscribers (dispatch_micro (d, wt)).2 = wt_subscribers wt ∧ d_events (dispatch_micro (d, wt)).1 = d_events d.
Proof.
  destruct d as [events todo [j|]]; cbn; [by destruct (wt_objs wt !! j)|by destruct todo].
Qed.

(** Only the gauge of watches and the counter of events matter. *)
Lemma watch_metrics_frame y g y' g' :
  watch_metrics_ok y g → value metrics.ActiveWatches [] g' = value metrics.ActiveWatches [] g →
  (∀ l, value metrics.WatchEventsTotal l g' = value metrics.WatchEventsTotal l g) → rg_panic g' = rg_panic g →
  wt_subscribers (sy_wt y') = wt_subscribers (sy_wt y) → dispatched (sy_disp y') = dispatched (sy_disp y) →
  watch_metrics_ok y' g'.
Proof. intros [H1 H2 H3] Ha He Hp Hs Hd. split; [by rewrite Ha, Hs|by rewrite !He, Hd|by rewrite Hp]. Qed.

Lemma metered_watch_step_ok y y' :
  watcher_ok (sy_wt y.1) (sy_disp y.1) → metered_watch_step y y' → watch_metrics_ok y.1 y.2 → watch_metrics_ok y'.1 y'.2.
Proof.
  intros Hw Hs H. pose proof H as [H1 H2 H3]. destruct Hs as [p rev|i|src events Hsrc|k d Hk|i|i|i|i|w].
  - cbn. split; cbn; [|unfold inc; rewrite !value_update by done; exact H2|unfold inc; by rewrite panic_update].
    unfold inc. rewrite value_update, decide_True by done. rewrite H1, length_app. cbn. lia.
  - cbn. pose proof (replay_step_subscribers i (sy_v y.1)) as Hr.
    destruct (wt_objs _ !! i) as [s|] eqn:Hi; [|by eapply watch_metrics_frame].
    destruct (sub_phase s) eqn:Hph; try by eapply watch_metrics_frame.
    assert (i ∈ wt_subscribers (sy_wt y.1)) as Hin by (apply (wo_reg _ _ Hw); exists s; by rewrite Hph).
    pose proof (remove_length i _ (wo_nodup _ _ Hw) Hin) as Hl.
    split; cbn; [|unfold dec; rewrite !value_update by done; exact H2|unfold dec; by rewrite panic_update].
    unfold dec. rewrite value_update, decide_True by done. unfold sy_wt in *. cbn [sy_v]. rewrite Hr, H1. lia.
  - cbn. split; cbn [fst snd sy_disp].
    + unfold add. by rewrite value_update by done.
    + rewrite dispatched_app, <-H2. unfold add. assert (src = "poll" ∨ src = "change_stream") as [-> | ->] by set_solver.
      * rewrite !value_update by done. rewrite decide_True by done. rewrite decide_False by done.
        cbn [d_events dispatch_start]. lia.
      * rewrite !value_update by done. rewrite decide_False by done. rewrite decide_True by done.
        cbn [d_events dispatch_start]. lia.
    + done.
  - unfold metered_dispatch_micro. cbn [fst snd]. destruct (dispatch_micro_subscribers d (sy_wt y.1)) as [Hs He].
    destruct (dispatch_micro _) as [d' wt']. cbn [fst snd] in *.
    assert (dispatched (<[k := d']> (sy_disp y.1)) = dispatched (sy_disp y.1)) as Hd by by eapply dispatched_insert.
    destruct (d_send d) as [j|]; [|by eapply watch_metrics_frame].
    destruct (wt_objs _ !! j) as [s|]; [|by eapply watch_metrics_frame].
    destruct (room s); (eapply watch_metrics_frame; [exact H|..]); try done; unfold inc; intros; by rewrite value_update.
  - eapply watch_metrics_frame; try done. cbn. unfold replay_done. repeat case_match; done.
  - eapply watch_metrics_frame; try done. cbn. unfold sentinel_timeout. repeat case_match; done.
  - eapply watch_metrics_frame; try done. cbn. unfold cancel_sub. by case_match.
  - eapply watch_metrics_frame; try done. cbn. unfold receive. repeat case_match; done.
  - by eapply watch_metrics_frame.
Qed.

(** The metrics of the watcher are exact in every interleaving: the gauge of active watches
    is the number of registered subscribers, and the two counters of events add up to the
    events handed to dispatchers. *)
Theorem watch_metrics_exact w y :
  rtc metered_watch_step (watch_init w, registry0) y →
  value metrics.ActiveWatches [] y.2 = Z.of_nat (length (wt_subscribers (sy_wt y.1))) ∧
  value metrics.WatchEventsTotal ["poll"] y.2 + value metrics.WatchEventsTotal ["change_stream"] y.2 =
    dispatched (sy_disp y.1) ∧
  rg_panic y.2 = false.
Proof.
  intros Hrun. assert (watcher_ok (sy_wt y.1) (sy_disp y.1) ∧ watch_metrics_ok y.1 y.2) as [_ [H1 H2 H3]].
  { remember (watch_init w, registry0) as y0 eqn:E.
    assert (watcher_ok (sy_wt y0.1) (sy_disp y0.1) ∧ watch_metrics_ok y0.1 y0.2) as H0
      by (subst y0; split; [exact (watch_run_ok w (watch_init w) (rtc_refl _ _))|done]). clear E.
    induction Hrun as [|y0 y1 y2 Hs _ IH]; [done|]. apply IH. destruct H0 as [Hw Hm].
    split; [by eapply watch_step_ok, metered_watch_erase|by eapply metered_watch_step_ok]. }
  done.
Qed.

(** A subscriber whose channel is full is counted as dropped by every dispatch until its
    goroutine has closed it, not once. *)
Theorem drop_counted_again i events wt s g :
  wt_objs wt !! i = Some s → room s = false →
  let send := mk_dispatcher events [] (Some i) in
  let '(_, (wt1, g1)) := metered_dispatch_micro send (wt, g) in
  let '(_, (wt2, g2)) := metered_dispatch_micro send (wt1, g1) in
  wt_objs wt1 !! i = Some (cancel s) ∧ wt_objs wt2 !! i = Some (cancel s) ∧
  value metrics.WatchSubscriberDropsTotal [] g2 = value metrics.WatchSubscriberDropsTotal [] g + 2.
Proof.
  intros Hi Hr. unfold metered_dispatch_micro. cbn. rewrite Hi. unfold offer. rewrite Hr. cbn.
  rewrite list_lookup_insert_eq by (by eapply lookup_lt_Some).
  assert (room (cancel s) = false) as Hr' by done. rewrite Hr'. cbn. split_and!.
  - done.
  - rewrite list_lookup_insert_eq; [done|]. rewrite length_insert. by eapply lookup_lt_Some.
  - unfold inc. rewrite !value_update, !decide_True by done. lia.
Qed.

End watches.

(** ** Partitions *)

Section partitions.
Context `{SP : Spanner} `{PB : Structpb}.

(** The steps of the reader that touch no metric. *)
Inductive unmetered_reader_step (r : ChangeStreamReader) : ChangeStreamReader → Prop :=
| ur_initial_send : unmetered_reader_step r (initial_send r)
| ur_initial_stop : unmetered_reader_step r (initial_stop r)
| ur_start_stop : unmetered_reader_step r (start_stop r)
| ur_start_return : unmetered_reader_step r (start_return r)
| ur_reader_top j : unmetered_reader_step r (reader_top j r)
| ur_reader_send j : unmetered_reader_step r (reader_send j r)
| ur_reader_stop j : unmetered_reader_step r (reader_stop j r)
| ur_reader_retry j : unmetered_reader_step r (reader_retry j r)
| ur_Stop : unmetered_reader_step r (Stop r)
| ur_ctx_cancel : unmetered_reader_step r (ctx_cancel r).

(** [cs_step] with the metrics. *)
Inductive metered_cs_step : csworld * registry → csworld * registry → Prop :=
| mc_Start now discovery c g : cr_start (cs_reader c) = SInit → metered_cs_step (c, g) (Start now discovery c, g)
| mc_receive now w r g :
    metered_cs_step (mk_csworld w r, g)
      (let (r', g') := metered_start_receive now (r, g) in (mk_csworld w r', g'))
| mc_next j res w r g :
    metered_cs_step (mk_csworld w r, g)
      (let (r', g') := metered_reader_next j res (r, g) in (mk_csworld w r', g'))
| mc_exit j w r g :
    metered_cs_step (mk_csworld w r, g)
      (let (r', g') := metered_reader_exit j (r, g) in (mk_csworld w r', g'))
| mc_local w r r' g : unmetered_reader_step r r' → metered_cs_step (mk_csworld w r, g) (mk_csworld w r', g)
| mc_after j now now' c g : metered_cs_step (c, g) (reader_after j now now' c, g).

Lemma metered_cs_erase p p' : metered_cs_step p p' → cs_step p.1 p'.1.
Proof.
  destruct 1 as [? ? ? ? H|now w r g|j res w r g|j w r g|w r r' g H|]; cbn; [by constructor| | | | |constructor].
  - apply cs_local, (rs_start_receive r now).
  - apply cs_local, (rs_reader_next r j res).
  - apply cs_local, (rs_reader_exit r j).
  - apply cs_local. destruct H; constructor.
Qed.

Lemma unmetered_active r r' : unmetered_reader_step r r' → cr_active r' = cr_active r.
Proof.
  destruct 1; try done.
  - unfold initial_send. destruct (cr_initial r); [done|]. by case_bool.
  - unfold initial_stop. by case_bool.
  - unfold start_stop. destruct (cr_start r); try done. by case_bool.
  - unfold start_return. destruct (cr_start r); try done. by case_bool.
  - unfold reader_top. destruct (cr_readers r !! j) as [g|]; [|done]. by destruct (rd_phase g).
  - unfold reader_send. destruct (cr_readers r !! j) as [g|]; [|done].
    destruct (rd_phase g) as [| |[|? ?] ?| | | |]; try done. by case_bool.
  - unfold reader_stop. destruct (cr_readers r !! j) as [g|]; [|done].
    destruct (rd_phase g) as [| |[|? ?] ?| | | |]; try done; by case_bool.
  - unfold reader_retry. destruct (cr_readers r !! j) as [g|]; [|done]. by destruct (rd_phase g).
Qed.

Definition partitions_ok (p : csworld * registry) : Prop :=
  value metrics.CSActivePartitions [] p.2 = Z.of_nat (size (cr_active (cs_reader p.1))) ∧ rg_panic p.2 = false.

Lemma metered_cs_step_ok p p' :
  reader_ok (cs_reader p.1) → metered_cs_step p p' → partitions_ok p → partitions_ok p'.
Proof.
  unfold partitions_ok. intros Hok Hs. destruct Hs as [now ds c g Hs|now w r g|j res w r g|j w r g|w r r' g Hu|j now now' c g];
    cbn [fst snd cs_reader metered_start_receive metered_reader_next metered_reader_exit]; intros [Hv Hp].
  - destruct c as [w r]. unfold Start. destruct (loadCursors _ w) as [res w']. cbn. by destruct (queryInitialPartitions _).
  - unfold start_receive. destruct (cr_start r); try done. destruct (cr_pending r) as [|q rest]; [done|]. cbn [cr_active set_pending].
    destruct (decide (token q ∈ cr_active r)) as [Hin|Hin]; [done|]. unfold inc.
    rewrite value_update, decide_True, panic_update by done. split; [|done]. cbn [set_active cr_active].
    rewrite size_union, size_singleton by set_solver. lia.
  - unfold reader_next. destruct (cr_readers r !! j) as [rd|]; [|done].
    destruct (rd_phase rd); try done. unfold inc. destruct res as [[gcv|]| |[]].
    all: cbn; rewrite ?value_update, ?panic_update by done; done.
  - unfold reader_exit. destruct (cr_readers r !! j) as [rd|] eqn:Hj; [|done].
    destruct (rd_phase rd) eqn:Hph; try done. unfold dec. rewrite value_update, decide_True, panic_update by done.
    split; [|done]. cbn [set_reader set_readers set_active cr_active].
    assert (token (rd_p rd) ∈ cr_active r) as Hin.
    { cbn in Hok. rewrite (ro_active _ Hok), elem_of_list_to_set.
      rewrite (live_tokens_end _ _ _ (set_rphase REnded rd) Hj) by (by rewrite ?Hph). by left. }
    rewrite size_difference, size_singleton by set_solver.
    assert (size (cr_active r) ≠ 0%nat); [|lia]. intros Hz%size_empty_inv. set_solver.
  - rewrite (unmetered_active _ _ Hu). done.
  - destruct c as [w r]. unfold reader_after. cbn [cs_reader] in *. destruct (cr_readers r !! j) as [rd|]; [|done].
    destruct (rd_phase rd) as [| | |[]| | |]; try done.
    + destruct (flushCursor _ _ w). done.
    + case_bool; [|done]. by destruct (flushCursor _ _ w).
Qed.

(** The gauge of active partitions is the number of goroutines that read a partition, in
    every interleaving of the reader. *)
Theorem active_partitions_gauge replicaID w p :
  rtc metered_cs_step (mk_csworld w (NewChangeStreamReader replicaID), registry0) p →
  value metrics.CSActivePartitions [] p.2 = Z.of_nat (length (live_tokens (cr_readers (cs_reader p.1)))) ∧
  rg_panic p.2 = false.
Proof.
  intros Hrun. assert (reader_ok (cs_reader p.1) ∧ partitions_ok p) as [Hok [Hv Hp]].
  { remember (mk_csworld w (NewChangeStreamReader replicaID), registry0) as p0 eqn:E.
    assert (reader_ok (cs_reader p0.1) ∧ partitions_ok p0) as H0 by (subst p0; split; [apply new_reader_ok|done]). clear E.
    induction Hrun as [|p0 p1 p2 Hs _ IH]; [done|]. apply IH. destruct H0 as [H1 H2].
    split; [by eapply (cs_step_ok p0.1), H1; apply metered_cs_erase|by eapply metered_cs_step_ok]. }
  split; [|done]. by rewrite Hv, (ro_active _ Hok), size_list_to_set by apply Hok.
Qed.

End partitions.

(** The gauge of the change stream mode is its health flag, whichever of the two places that
    set them comes first. *)
Lemma cs_mode_is_health p :
  value metrics.CSMode [] p.2 = Z.b2z (fs_csHealthy p.1) →
  (let q := metered_monitor_fire p in value metrics.CSMode [] q.2 = Z.b2z (fs_csHealthy q.1)) ∧
  let q := metered_cs_returned p in value metrics.CSMode [] q.2 = Z.b2z (fs_csHealthy q.1).
Proof.
  intros H. unfold metered_monitor_fire, metered_cs_returned, monitor_fire, cs_returned, set. cbn [fst snd]. split.
  - destruct (fs_monitor p.1); cbn; [by rewrite value_update, decide_True by done|done..].
  - destruct (cr_start _) as [| | |[e|]]; try done; by destruct (fs_csDone p.1).
Qed.

(** ** Witnesses *)

Lemma active_leases_gauge_witness : value metrics.ActiveLeases [] (ml_reg lease_race) = 1 + 1.
Proof.
  destruct (@active_leases_gauge solo (world_of empty_db) 0 lease_race (proj1 lease_race_run)) as [H _].
  rewrite H. vm_compute. reflexivity.
Defined.

(** Two watches, one of them torn down, and a batch of the poll loop. *)
Definition metered_run : wsystem * registry :=
  let sub := λ y : wsystem * registry,
    let '(_, (wt, g)) := metered_subscribe "k" 0 (sy_wt y.1, y.2) in (with_wt wt y.1, g) in
  let replay := λ (i : nat) (y : wsystem * registry),
    let (v, g) := metered_replay_step (SP := solo) i (sy_v y.1, y.2) in (mk_wsystem v (sy_disp y.1), g) in
  let y := replay 0%nat (sub (sub (watch_init (world_of empty_db), registry0))) in
  let y := (with_wt (cancel_sub 0 (sy_wt y.1)) y.1, y.2) in
  let y := (with_wt (replay_done 0 (sy_wt y.1)) y.1, y.2) in
  let y := replay 0%nat (replay 0%nat y) in
  let (d, g) := metered_dispatch_start "poll" [toEvent (KV_of (mk_kv_row 1 110 "k" (Some "v") None (Some 0) false true (Some 110) None))]
                  (sy_wt y.1, y.2) in
  (mk_wsystem (sy_v y.1) (sy_disp y.1 ++ [d]), g).

Lemma metered_run_reachable :
  rtc (metered_watch_step (SP := solo)) (watch_init (world_of empty_db), registry0) metered_run.
Proof.
  unfold metered_run. cbv zeta. eapply rtc_r; [|apply (mw_start _ "poll"); by left].
  do 2 (eapply rtc_r; [|apply mw_replay]). eapply rtc_r; [|apply mw_done]. eapply rtc_r; [|apply mw_cancel].
  eapply rtc_r; [|apply mw_replay]. do 2 (eapply rtc_r; [|apply mw_subscribe]). apply rtc_refl.
Qed.

Lemma watch_metrics_exact_witness :
  length (wt_objs (sy_wt metered_run.1)) = 2%nat ∧ value metrics.ActiveWatches [] metered_run.2 = 1 ∧
  value metrics.WatchEventsTotal ["poll"] metered_run.2 + value metrics.WatchEventsTotal ["change_stream"] metered_run.2 = 1.
Proof.
  destruct (@watch_metrics_exact solo (world_of empty_db) metered_run metered_run_reachable) as (H1 & H2 & _).
  split; [reflexivity|]. rewrite H1, H2. split; vm_compute; reflexivity.
Defined.
