(* ===== verification/Gateway.v ===== *)
(** * The server around the services: what is registered, who gets in, how it ends

    The second half of [server.New] (message limits, interceptors, registration), the path
    of a call through the interceptors to its handler, the metrics endpoint, [main] with
    the resources [run] acquires and releases, and the functions that stop the goroutines
    of the store and of the authentication.

    grpc-go is not part of the repository; of it the model uses that a chain of
    interceptors runs from its first to its last element, and that the message of a unary
    call longer than the receive limit is refused before them; the messages of a stream
    are received, and refused, inside its handler. *)

From Stdlib Require Import Ascii String ZArith SpecFloat.
From S2P Require Import Prelude Go GoText Spanner Rows Invariant Sim StoreRead StoreWrite StoreCompact KVServer Auth ServerMain ServerMainProps Metrics.

Open Scope string_scope.
Open Scope list_scope.
Open Scope Z_scope.

(** ** Registration *)

(** The methods with a handler in the repository, by service, in the order of registration. *)
Definition services : list (string * list string) :=
  [("etcdserverpb.KV", ["Range"; "Put"; "DeleteRange"; "Txn"; "Compact"]);
   ("etcdserverpb.Watch", ["Watch"]);
   ("etcdserverpb.Lease", ["LeaseGrant"; "LeaseRevoke"; "LeaseKeepAlive"; "LeaseTimeToLive"]);
   ("etcdserverpb.Cluster", ["MemberList"]);
   ("etcdserverpb.Maintenance", ["Status"]);
   ("etcdserverpb.Auth", ["Authenticate"; "AuthEnable"; "AuthDisable"; "AuthStatus"])].

Definition fullMethod (service method : string) : string := "/" +:+ service +:+ "/" +:+ method.

Definition handled : list string :=
  services ≫= λ s, fullMethod s.1 <$> s.2.

(** The methods whose handlers take a stream. *)
Definition isStreaming (method : string) : bool :=
  bool_decide (method ∈ [fullMethod "etcdserverpb.Watch" "Watch"; fullMethod "etcdserverpb.Lease" "LeaseKeepAlive"]).

(** [grpc.MaxRecvMsgSize] and [grpc.MaxSendMsgSize]. *)
Definition MaxRecvMsgSize : Z := 8 * 1024 * 1024.
Definition MaxSendMsgSize : Z := 8 * 1024 * 1024.

(** ** The path of a call *)

(** What the caller brings: when it calls, its metadata, the size of its message, and how
    long the call takes. *)
Record call_info := mk_call_info {
  ci_now : Z;
  ci_md : option (string → list string);
  ci_size : Z;
  ci_elapsed : Z;
}.

Section calls.
Context {A : Type}.

(** [authUnaryInterceptor] and [authStreamInterceptor] around a handler. *)
Definition authChain (c : call_info) (method : string) (auth : AuthServer) (handler : ST world (res A)) :
    ST world (res A) :=
  if isPublicMethod method || validate (ci_now c) (ci_md c) auth then handler else mret (Err invalidAuthTokenErr).

(** A unary call: the logging interceptor around the authentication around the handler. *)
Definition serve_unary (c : call_info) (method : string) (srv : Server) (handler : ST world (res A)) :
    ST (world * registry) (res A) := λ s,
  if MaxRecvMsgSize <? ci_size c then
    (Err (StatusError ResourceExhausted "grpc: received message larger than max (%d vs. %d)"
            [ArgZ (ci_size c); ArgZ MaxRecvMsgSize]), s)
  else
    let (r, w) := authChain c method (s_auth srv) handler s.1 in
    let (r, g) := metered_unary method (ci_elapsed c) r s.2 in
    (r, (w, g)).

(** The error a handler returns. *)
Definition res_err (r : res A) : option error := match r with Ok _ => None | Err e => Some e end.

(** A streaming call: the same interceptors for streams; [handler] is the whole life of the
    stream. *)
Definition serve_stream (c : call_info) (method : string) (srv : Server) (handler : ST world (res A)) :
    ST (world * registry) (res A) := λ s,
  let (r, w) := authChain c method (s_auth srv) handler s.1 in
  let (_, g) := metered_stream method (ci_elapsed c) (res_err r) s.2 in
  (r, (w, g)).

Definition serve_call (c : call_info) (method : string) (srv : Server) (handler : ST world (res A)) :
    ST (world * registry) (res A) :=
  if isStreaming method then serve_stream c method srv handler else serve_unary c method srv handler.

End calls.

(** ** The metrics endpoint *)

Inductive http_answer := Metrics | HttpText (status : Z) (body : string).

(** The handler of [serveMetrics] for the path of a request. *)
Definition metrics_mux (path : string) : http_answer :=
  if bool_decide (path = "/metrics") then Metrics
  else if bool_decide (path = "/healthz") then HttpText 200 "ok"
  else HttpText 404 "404 page not found".

(** Whether [serveMetrics] logs a warning, from the error of [ListenAndServe], which is
    [ErrServerClosed] once the context is done. *)
Definition ErrServerClosed : error := Errorf "http: Server closed" [].

Definition serveMetrics (listenAndServe : option error) : bool :=
  match listenAndServe with Some err => negb (bool_decide (err = ErrServerClosed)) | None => false end.

(** ** Stopping *)

(** [close(ch)] of a channel that carries no value: a panic when it is closed. *)
Definition close_ch (closed : bool) : option bool := if closed then None else Some true.

(** The parts of a store that stop its goroutines. *)
Record background := mk_background { bg_cancelled : bool; bg_watcher_stopCh : bool; bg_leases_stopCh : bool }.

(** [Store.Close]; [None] is a panic. *)
Definition Close (b : background) : option background :=
  watcher ← close_ch (bg_watcher_stopCh b);
  leases ← close_ch (bg_leases_stopCh b);
  Some (mk_background true watcher leases).

(** [AuthServer.close]: the state of its channel. *)
Definition auth_close (stopCh : bool) : option bool := if stopCh then Some stopCh else close_ch stopCh.

(** ** [main] *)

(** What [run] acquires: the clients and the store, whose release it defers, and the
    goroutine of the authentication, which [Serve] stops. *)
Inductive resource := AdminClient | SpannerClient | KVStore | AuthGC.

Inductive action := Acquire (r : resource) | Release (r : resource) | Serving.

Definition deferring (r : resource) (m : ST world (list action)) : ST world (list action) :=
  l ← m; mret (Acquire r :: l ++ [Release r]).

Section run.
Context `{SP : Spanner} `{G : Grpc}.

(** [run] as the sequence of what it acquires, does and releases. *)
Definition run_actions (o : outside) (cfg : appConfig) : ST world (list action) :=
  match o_adminClient o with
  | Some _ => mret []
  | None =>
      deferring AdminClient
        match Ensure (o_updateDDL o) (o_waitDDL o), o_client o with
        | Some _, _ | None, Some _ => mret []
        | None, None =>
            deferring SpannerClient
              (seeded ← SeedCompactRev;
               match seeded, NewWithConfig (mk_StoreConfig (autoCompactInterval cfg) (autoCompactAge cfg)) with
               | Some _, _ | None, Err _ => mret []
               | None, Ok _ =>
                   deferring KVStore
                     (mret (Acquire AuthGC ::
                        match New (o_loadPair o) (o_readFile o) (o_appendCerts o) (serverConfig cfg), o_listen o with
                        | Err _, _ | Ok _, Some _ => []
                        | Ok _, None => [Serving; Release AuthGC]
                        end))
               end)
        end
  end.

(** The exit code of the program. *)
Definition main (logger : option error) (o : outside) (cfg : appConfig) : ST world Z :=
  match logger with
  | Some _ => mret 1
  | None => r ← run o cfg; mret (match r.1 with Some _ => 1 | None => 0 end)
  end.

End run.

(** ** Who gets in *)

Definition with_auth (a : AuthServer) (srv : Server) : Server :=
  mk_Server (s_config srv) a (s_creds srv) (s_cluster srv) (s_maintenance srv).

(** Of the methods that are handled, exactly those of the authentication service need no
    token. *)
Lemma public_methods m :
  m ∈ handled → isPublicMethod m = true ↔ m ∈ fullMethod "etcdserverpb.Auth" <$> ["Authenticate"; "AuthEnable"; "AuthDisable"; "AuthStatus"].
Proof.
  assert (Forall (λ m, isPublicMethod m =
    bool_decide (m ∈ fullMethod "etcdserverpb.Auth" <$> ["Authenticate"; "AuthEnable"; "AuthDisable"; "AuthStatus"])) handled)
    as H by (apply (bool_decide_unpack _); vm_compute; exact I).
  intros Hm. rewrite Forall_forall in H. rewrite (H m Hm). apply bool_decide_eq_true.
Qed.

Lemma New_auth load read pem cfg srv :
  New load read pem cfg = Ok srv → s_auth srv = newAuthServer (parseUsers (AuthUsers cfg)) (AuthTokenTTL cfg).
Proof. unfold New. repeat case_match; try done; by intros [= <-]. Qed.

(** C34: The assembled server protects its services: with users configured, whatever logins it
    has seen, a call to a handled method outside the authentication service changes the
    database or gets an answer that is not an error only when it brings a token that was
    issued to one of these users for the right password, no longer ago than the lifetime
    of tokens; and every call, but for a unary one whose message is too large, is counted
    once, under its method and its outcome. *)
Theorem gateway_protects {A} load read pem cfg srv es c m (handler : ST world (res A)) w g :
  New load read pem cfg = Ok srv → parseUsers (AuthUsers cfg) ≠ ∅ → m ∈ handled →
  m ∉ fullMethod "etcdserverpb.Auth" <$> ["Authenticate"; "AuthEnable"; "AuthDisable"; "AuthStatus"] →
  let '(r, (w', g')) := serve_call c m (with_auth (auth_run (s_auth srv) es) srv) handler (w, g) in
  (w' ≠ w ∨ is_ok r = true →
   ∃ get name password t b,
     ci_md c = Some get ∧ Login t b name password ∈ es ∧ parseUsers (AuthUsers cfg) !! name = Some password ∧
     requestToken get = generateToken b ∧
     ci_now c ≤ t + (if AuthTokenTTL cfg <=? 0 then DefaultTokenTTL else AuthTokenTTL cfg)) ∧
  (isStreaming m = true ∨ ci_size c ≤ MaxRecvMsgSize →
   rg_observed g' (metrics.RPCDuration, [shortMethod m; status_of r]) =
   rg_observed g (metrics.RPCDuration, [shortMethod m; status_of r]) ++ [Duration_Seconds (ci_elapsed c)]).
Proof.
  intros Hnew Hu Hm Hpub. pose proof (New_auth _ _ _ _ _ Hnew) as Ha.
  assert (isPublicMethod m = false) as Hp by (destruct (isPublicMethod m) eqn:E; [by apply (public_methods m Hm) in E|done]).
  assert (∀ r w', authChain c m (s_auth (with_auth (auth_run (s_auth srv) es) srv)) handler w = (r, w') →
    w' ≠ w ∨ is_ok r = true →
    ∃ get name password t b, ci_md c = Some get ∧ Login t b name password ∈ es ∧
      parseUsers (AuthUsers cfg) !! name = Some password ∧ requestToken get = generateToken b ∧
      ci_now c ≤ t + (if AuthTokenTTL cfg <=? 0 then DefaultTokenTTL else AuthTokenTTL cfg)) as Hauth.
  { intros r w'. unfold authChain. cbn [s_auth with_auth]. rewrite Hp, Ha. cbn [orb].
    destruct (validate _ _ _) eqn:Hv; [intros _ _; by apply validate_sound|]. intros [= <- <-] [?|?]; done. }
  unfold serve_call, serve_stream, serve_unary. cbn [fst snd].
  destruct (isStreaming m); [|destruct (MaxRecvMsgSize <? ci_size c) eqn:Hsize; bool_prop].
  - cbn [fst snd]. destruct (authChain _ _ _ _ w) as [r w']. specialize (Hauth _ _ eq_refl). unfold metered_stream, loggingStream. cbn [fst snd].
    split; [done|]. intros _. unfold status_of. destruct r; unfold observe; cbn; by rewrite decide_True.
  - split; [intros [?|?]; done|]. intros [?|?]; [done|lia].
  - cbn [fst snd]. destruct (authChain _ _ _ _ w) as [r w']. specialize (Hauth _ _ eq_refl). cbn. split; [done|]. intros _.
    unfold observe. cbn. by rewrite decide_True.
Qed.

(** ** How it ends *)

#[global] Instance resource_eq_dec : EqDecision resource.
Proof. solve_decision. Defined.

#[global] Instance action_eq_dec : EqDecision action.
Proof. solve_decision. Defined.

(** What is still held after a sequence of actions. *)
Fixpoint held (s : list resource) (l : list action) : list resource :=
  match l with
  | [] => s
  | Acquire r :: l => held (r :: s) l
  | Release r :: l => held (filter (λ r', r' ≠ r) s) l
  | Serving :: l => held s l
  end.

Section ends.
Context `{SP : Spanner} `{G : Grpc}.

(** At the end of [run] the clients and the store are released on every path.  The goroutine
    of the authentication is not: it is left running exactly on the paths that started it
    and did not come to serve, when the server cannot be built or cannot listen.  The exit
    code is zero only after serving. *)
Theorem run_releases o cfg w :
  let l := (run_actions o cfg w).1 in
  held [] l = (if decide (Acquire AuthGC ∈ l ∧ Serving ∉ l) then [AuthGC] else []) ∧
  (Serving ∈ l ↔ o_listen o = None ∧ is_Some ((run o cfg w).1.2)) ∧
  ((main None o cfg w).1 = 0 → Serving ∈ l).
Proof.
  unfold main, run_actions, run, deferring, mbind, st_bind, mret, st_ret. cbv zeta.
  destruct (o_adminClient o) as [e|]; [cbn; case_decide; set_solver by done|].
  destruct (Ensure _ _) as [e|]; [cbn; case_decide; set_solver by done|].
  destruct (o_client o) as [e|]; [cbn; case_decide; set_solver by done|].
  destruct (SeedCompactRev w) as [[e|] w']; [cbn; case_decide; set_solver by done|].
  destruct (NewWithConfig _) as [st|e]; [|cbn; case_decide; set_solver by done].
  destruct (New _ _ _ _) as [srv|e]; [|cbn; case_decide; set_solver by done].
  destruct (o_listen o) as [e|] eqn:El; cbn; case_decide; set_solver by done.
Qed.

End ends.

(** [Close] stops a store once and panics when it is called again; the authentication may be
    stopped any number of times. *)
Lemma Close_once b :
  bg_watcher_stopCh b = false → bg_leases_stopCh b = false →
  Close b = Some (mk_background true true true) ∧ Close b ≫= Close = None ∧
  ∀ ch, auth_close ch = Some true ∧ auth_close ch ≫= auth_close = Some true.
Proof. destruct b as [c [] []]; try done. intros _ _. split_and!; [done..|]. by intros []. Qed.

(** ** Witness *)

Definition root_config : Config := mk_Config "" "" "" "" "" "root:pw" 0 [] "" 0 0.
Definition root_login : list auth_event := [Login 0 bytes0 "root" "pw"].
Definition with_root : call_info := mk_call_info 1 (Some (with_token (generateToken bytes0))) 100 1000000.

Lemma gateway_protects_witness :
  ∃ get name password t b,
    ci_md with_root = Some get ∧ Login t b name password ∈ root_login ∧ parseUsers "root:pw" !! name = Some password ∧
    requestToken get = generateToken b ∧ 1 ≤ t + DefaultTokenTTL.
Proof.
  destruct (New (λ _ _, None) (λ _, Ok "") (λ _, true) root_config) as [srv|e] eqn:E; [|vm_compute in E; discriminate E].
  assert (parseUsers "root:pw" ≠ ∅) as Hu by (intros H; apply (f_equal (lookup "root")) in H; vm_compute in H; discriminate H).
  pose proof (@gateway_protects () (λ _ _, None) (λ _, Ok "") (λ _, true) root_config srv root_login with_root
    "/etcdserverpb.KV/Range" (mret (Ok ())) (world_of empty_db) registry0 E Hu) as H.
  destruct (serve_call _ _ _ _ _) as [r [w g]] eqn:Es.
  destruct H as [H _]; [apply (bool_decide_unpack _); vm_compute; exact I|apply (bool_decide_unpack _); vm_compute; exact I|].
  apply H. right. vm_compute in E. injection E as <-. vm_compute in Es. injection Es as <- _ _. reflexivity.
Defined.
