(* ===== verification/Replica.v ===== *)
(** * A whole replica

    The components put together: one replica is the store with its watcher, the poll loop,
    the dispatchers of the change stream, the lease manager and any number of Watch
    streams, all sharing one [world].  [replica_step] is one action of any of them: a
    handler of the KV or the lease service, a goroutine of a lease, of a subscription or of
    a stream, a compaction, an action of the poll loop.  [doPoll] of [Watcher] is the poll
    as it runs undisturbed; here it is the goroutine [poll_thread] with its own atomic
    actions, and [poll_thread_doPoll] says that the two agree. *)

From Stdlib Require Import Ascii String.
From S2P Require Import Prelude Go Spanner Rows Invariant Sim StoreRead StoreWrite StoreTxn StoreCompact StoreInvariant Safe KVServer KVProps Leases LeaseProps Watcher WatchProps WatchServer WatchServerProps WatchDelivery.

Open Scope string_scope.
Open Scope list_scope.
Open Scope Z_scope.

(** ** State *)

(** Where the poll loop stands: before its first read; in its [select]; with the events of
    a poll, before it copies the list of subscribers; dispatching them, as dispatcher [k] of
    the watcher. *)
Inductive poll_thread :=
| PlInit
| PlIdle
| PlFetched (curRev : Z) (events : list Event)
| PlDispatch (curRev : Z) (k : nat).

(** [rp_gaps] counts the polls that were cut at their limit or found their start compacted,
    the two cases in which the poll loop goes on behind rows it has not delivered. *)
Record replica := mk_replica {
  rp_sys : wsystem;
  rp_poll : poll_thread;
  rp_gaps : nat;
  rp_lm : LeaseManager;
  rp_streams : list stream;
}.

Definition rp_store (r : replica) : world := vs_store (sy_v (rp_sys r)).
Definition rp_wt (r : replica) : Watcher := sy_wt (rp_sys r).
Definition rp_db (r : replica) : database := w_db (rp_store r).

Definition on_sys (y : wsystem) (r : replica) : replica :=
  mk_replica y (rp_poll r) (rp_gaps r) (rp_lm r) (rp_streams r).

Definition on_store (w : world) (r : replica) : replica := on_sys (set_store w (rp_sys r)) r.

Definition on_wt (wt : Watcher) (r : replica) : replica := on_sys (with_wt wt (rp_sys r)) r.

Definition on_poll (p : poll_thread) (r : replica) : replica :=
  mk_replica (rp_sys r) p (rp_gaps r) (rp_lm r) (rp_streams r).

Definition on_gap (g : bool) (r : replica) : replica :=
  mk_replica (rp_sys r) (rp_poll r) (rp_gaps r + if g then 1 else 0) (rp_lm r) (rp_streams r).

Definition lease_view (r : replica) : lworld := mk_lworld (rp_store r) (rp_lm r).

Definition on_lease (s : lworld) (r : replica) : replica :=
  mk_replica (set_store (lw_store s) (rp_sys r)) (rp_poll r) (rp_gaps r) (lw_lm s) (rp_streams r).

Definition on_stream (k : nat) (v : server) (r : replica) : replica :=
  mk_replica (sv_y v) (rp_poll r) (rp_gaps r) (rp_lm r) (<[k := sv_st v]> (rp_streams r)).

Definition set_lastRev (rev : Z) (wt : Watcher) : Watcher := mk_Watcher (wt_objs wt) (wt_subscribers wt) rev.

(** A replica that has just been started on the database of [w]. *)
Definition replica_init (w : world) (now : Z) : replica :=
  mk_replica (watch_init w) PlInit 0 (newLeaseManager now) [].

Section replica.
Context `{SP : Spanner} `{G : Grpc} (status_Code : error → code).

(** ** The poll loop *)

(** [lastRev, _ := w.store.CurrentRevision(ctx)]. *)
Definition poll_begin (r : replica) : replica :=
  match rp_poll r with
  | PlInit =>
      let (rev, w) := CurrentRevision (rp_store r) in
      on_poll PlIdle (on_wt (set_lastRev (or_zero rev) (rp_wt r)) (on_store w r))
  | _ => r
  end.

(** The query of [doPoll], and its error paths. *)
Definition poll_query (r : replica) : replica :=
  match rp_poll r with
  | PlIdle =>
      let (res, w) := After "" (wt_lastRev (rp_wt r)) pollBatchSize (rp_store r) in
      let r := on_store w r in
      match res with
      | (curRev, Err err) =>
          if bool_decide (err = ErrCompacted) then on_gap true (on_wt (set_lastRev curRev (rp_wt r)) r) else r
      | (curRev, Ok events) =>
          on_gap (negb (Z.of_nat (length events) <? pollBatchSize)) (on_poll (PlFetched curRev events) r)
      end
  | _ => r
  end.

(** [dispatchEvents] copies the list of subscribers. *)
Definition dispatch_new (events : list Event) (r : replica) : replica :=
  on_sys (mk_wsystem (sy_v (rp_sys r)) (sy_disp (rp_sys r) ++ [dispatch_start events (rp_wt r)])) r.

Definition poll_copy (r : replica) : replica :=
  match rp_poll r with
  | PlFetched curRev events => on_poll (PlDispatch curRev (length (sy_disp (rp_sys r)))) (dispatch_new events r)
  | _ => r
  end.

(** The next action of dispatcher [k]. *)
Definition dispatch_at (k : nat) (r : replica) : replica :=
  match sy_disp (rp_sys r) !! k with
  | Some d =>
      on_sys (mk_wsystem (mk_wworld (rp_store r) (dispatch_micro (d, rp_wt r)).2)
                         (<[k := (dispatch_micro (d, rp_wt r)).1]> (sy_disp (rp_sys r)))) r
  | None => r
  end.

(** [lastRev = w.doPoll(...)], once every subscriber has been served. *)
Definition poll_finish (r : replica) : replica :=
  match rp_poll r with
  | PlDispatch curRev k =>
      match sy_disp (rp_sys r) !! k with
      | Some (mk_dispatcher _ [] None) => on_poll PlIdle (on_wt (set_lastRev curRev (rp_wt r)) r)
      | _ => r
      end
  | _ => r
  end.

(** [case hint := <-w.notifyCh]. *)
Definition poll_wake (r : replica) : replica :=
  match rp_poll r, w_notify (rp_store r) with
  | PlIdle, hint :: rest =>
      let w := rp_store r in
      let r := on_store (mk_world (w_db w) (w_rpc w) rest (w_compactions w)) r in
      if wt_lastRev (rp_wt r) <? hint then poll_query r else r
  | _, _ => r
  end.

(** ** Steps *)

(** The state moves from [w] to [w'] by calls that keep the guarantee. *)
Definition moves (w w' : world) : Prop :=
  (w_rpc w ≤ w_rpc w')%nat ∧ (world_wf w → sp_ts (w_rpc w') < 2 ^ 63 → guarantee w w').

(** Other replicas have used the database: its state has moved on, and the queues of this
    process are as they were. *)
Definition others (w w' : world) : Prop :=
  w_notify w' = w_notify w ∧ w_compactions w' = w_compactions w ∧ moves w w'.

Inductive replica_step (r : replica) : replica → Prop :=
(* the KV service, and the goroutines that compact *)
| rp_kv q : request_ok q → replica_step r (on_store (serve q (rp_store r)) r)
| rp_compaction fuel : replica_step r (on_store (run_compaction fuel (rp_store r)).2 r)
| rp_autoCompact fuel age : replica_step r (on_store (autoCompact_tick fuel age (rp_store r)).2 r)
(* the lease service and its goroutines *)
| rp_LeaseGrant now TTL : replica_step r (on_lease (LeaseGrant now TTL (lease_view r)).2 r)
| rp_LeaseRevoke id : replica_step r (on_lease (LeaseRevoke id (lease_view r)).2 r)
| rp_LeaseKeepAlive now id : replica_step r (on_lease (LeaseKeepAlive now id (lease_view r)).2 r)
| rp_loadLeases : replica_step r (on_lease (loadLeases (lease_view r)).2 r)
| rp_expiry_start i : replica_step r (on_lease (expiry_start i (lease_view r)).2 r)
| rp_expiry_fire now i : replica_step r (on_lease (expiry_fire now i (lease_view r)).2 r)
| rp_expiry_retry i : replica_step r (on_lease (expiry_retry i (lease_view r)).2 r)
(* the poll loop *)
| rp_poll_begin : replica_step r (poll_begin r)
| rp_poll_tick : replica_step r (poll_query r)
| rp_poll_wake : replica_step r (poll_wake r)
| rp_poll_copy : replica_step r (poll_copy r)
| rp_poll_finish : replica_step r (poll_finish r)
(* batches of the change stream, and the dispatchers *)
| rp_cs_start events : replica_step r (dispatch_new events r)
| rp_dispatch k : replica_step r (dispatch_at k r)
(* the goroutines of the subscriptions *)
| rp_replay i : replica_step r (on_sys (mk_wsystem (replay_step i (sy_v (rp_sys r))) (sy_disp (rp_sys r))) r)
| rp_replay_done i : replica_step r (on_wt (replay_done i (rp_wt r)) r)
| rp_timeout i : replica_step r (on_wt (sentinel_timeout i (rp_wt r)) r)
(* Watch streams *)
| rp_open : replica_step r (mk_replica (rp_sys r) (rp_poll r) (rp_gaps r) (rp_lm r) (rp_streams r ++ [stream_init]))
| rp_stream k st v : rp_streams r !! k = Some st → stream_step status_Code (mk_server st (rp_sys r)) v →
    replica_step r (on_stream k v r)
(* other replicas *)
| rp_others w : others (rp_store r) w → replica_step r (on_store w r).

(** The goroutine of the poll, run without interruption, is [doPoll]. *)
Lemma poll_thread_doPoll r :
  rp_poll r = PlIdle →
  ∃ n, sy_v (rp_sys (poll_finish (Nat.iter n (dispatch_at (length (sy_disp (rp_sys r)))) (poll_copy (poll_query r))))) =
       doPoll (sy_v (rp_sys r)).
Proof.
  destruct r as [[[w wt] ds] p g lm sts]. cbn [rp_poll]. intros ->. unfold poll_query, rp_store, rp_wt, sy_wt. cbn.
  destruct (After _ _ _ w) as [[cur [events|err]] w'].
  2: { exists 0%nat. case_bool; cbn; done. }
  cbn. destruct (dispatch_micro_run events wt) as (n & Hn). exists n.
  set (r0 := on_poll _ _).
  assert (∀ m, Nat.iter m (dispatch_at (length ds)) r0 =
    on_sys (mk_wsystem (mk_wworld w' (Nat.iter m dispatch_micro (dispatch_start events wt, wt)).2)
              (ds ++ [(Nat.iter m dispatch_micro (dispatch_start events wt, wt)).1])) r0) as ->.
  { intros m. induction m as [|m IH]; [done|]. rewrite !Nat.iter_succ, IH.
    destruct (Nat.iter m dispatch_micro _) as [d wt1]. unfold dispatch_at. cbn [on_sys rp_sys sy_disp fst].
    rewrite list_lookup_middle by done. change (rp_wt _) with wt1. cbn [rp_store rp_sys on_sys sy_v vs_store snd].
    by rewrite insert_app_r_alt, Nat.sub_diag by lia. }
  rewrite Hn. unfold poll_finish. cbn. by rewrite list_lookup_middle.
Qed.

End replica.
