(* ===== verification/ReplicaProps.v ===== *)
(** * The invariant of a replica

    Every action of a replica touches the database only by [Safe] computations and the
    watcher only by the steps of [WatchProps], so the invariants of the components hold
    together in every run of the whole. *)

From Stdlib Require Import Ascii String.
From S2P Require Import Prelude Go Spanner Rows Invariant Sim StoreRead StoreWrite Reads StoreTxn StoreCompact StoreInvariant Safe KVServer KVProps Leases LeaseProps Watcher WatchProps WatchServer WatchServerProps WatchDelivery Replica.

Open Scope string_scope.
Open Scope list_scope.
Open Scope Z_scope.

(** ** What an action does to the database *)

Section moves.
Context `{SP : Spanner} `{!SpannerLaws SP}.

Lemma moves_refl w : moves w w.
Proof. split; [done|]. intros. by apply guarantee_refl. Qed.

Lemma moves_trans w1 w2 w3 : moves w1 w2 → moves w2 w3 → moves w1 w3.
Proof using All.
  intros [H1 G1] [H2 G2]. split; [lia|]. intros Hw Ht. pose proof (sp_ts_mono _ _ H2).
  assert (guarantee w1 w2) as Hg by (apply G1; [done|lia]).
  eapply guarantee_trans; [done|]. apply G2; [apply Hg|done].
Qed.

Lemma moves_safe {A} (m : ST world A) w : Safe m → moves w (m w).2.
Proof. intros [H G]. split; [apply H|apply G]. Qed.

(** The channel of notifications and the queue of compactions are not the database. *)
Lemma moves_same w w' : w_db w' = w_db w → w_rpc w' = w_rpc w → moves w w'.
Proof.
  intros Hd Hr. split; [lia|]. intros [Hwf Hid] _. split_and!; [|rewrite Hd; apply reach_refl|lia].
  split; by rewrite Hd, Hr.
Qed.

End moves.

#[export] Hint Resolve moves_refl : setcd.

Section leases.
Context `{SP : Spanner} `{!SpannerLaws SP} `{G : Grpc}.

Lemma safe_deleteLeaseKeys id keys n : Safe (deleteLeaseKeys id keys n).
Proof using SpannerLaws0. revert n. induction keys as [|k keys IH]; intros n; cbn; safe. Qed.

Lemma safe_expireLeaseKeys id : Safe (expireLeaseKeys id).
Proof using SpannerLaws0.
  unfold expireLeaseKeys. pose proof (safe_apply_lease (DeleteLease id) I). pose proof safe_deleteLeaseKeys. safe.
Qed.

Lemma call_moves {A} (m : ST world A) s : Safe m → moves (lw_store s) (lw_store (call m s).2).
Proof.
  intros Hm. unfold call. pose proof (moves_safe m (lw_store s) Hm) as H. by destruct (m (lw_store s)).
Qed.

Lemma Grant_moves now ttl s : moves (lw_store s) (lw_store (Grant now ttl s).2).
Proof using SpannerLaws0.
  unfold Grant, get_lm, put_lm, mbind, st_bind. cbn. set (s1 := set_lm _ s).
  pose proof (call_moves _ s1 (safe_apply_lease (InsertLease (int64 (lm_nextID (lw_lm s) + 1)) ttl) I)) as H.
  by destruct (call _ s1) as [[ts|e] s2].
Qed.

Lemma Revoke_moves id s : moves (lw_store s) (lw_store (Revoke id s).2).
Proof using SpannerLaws0.
  unfold Revoke, mbind, st_bind. pose proof (call_moves _ s (safe_expireLeaseKeys id)) as H.
  by destruct (call _ s) as [[e|] s2].
Qed.

Lemma LeaseGrant_moves now TTL s : moves (lw_store s) (lw_store (LeaseGrant now TTL s).2).
Proof using SpannerLaws0.
  unfold LeaseGrant, mbind, st_bind. pose proof (Grant_moves now (if TTL <=? 0 then 15 else TTL) s) as H.
  by destruct (Grant _ _ s) as [[l|e] s2].
Qed.

Lemma LeaseRevoke_moves id s : moves (lw_store s) (lw_store (LeaseRevoke id s).2).
Proof using SpannerLaws0.
  unfold LeaseRevoke, mbind, st_bind. pose proof (Revoke_moves id s) as H. by destruct (Revoke id s).
Qed.

Lemma LeaseKeepAlive_eq now id s : (LeaseKeepAlive now id s).2 = set_lm (Keepalive now id (lw_lm s)).2 s.
Proof. unfold LeaseKeepAlive, get_lm, put_lm, mbind, st_bind. by destruct (Keepalive now id (lw_lm s)). Qed.

Lemma loadLeases_moves s : moves (lw_store s) (lw_store (loadLeases s).2).
Proof using SpannerLaws0.
  unfold loadLeases, get_lm, put_lm, mbind, st_bind. pose proof (call_moves _ s safe_stream_leases) as H.
  by destruct (call _ s) as [[rows e] s2].
Qed.

Lemma expiry_start_store i s : lw_store (expiry_start i s).2 = lw_store s.
Proof. unfold expiry_start. repeat case_match; done. Qed.

Lemma expiry_fire_store now i s : lw_store (expiry_fire now i s).2 = lw_store s.
Proof. unfold expiry_fire. repeat case_match; done. Qed.

Lemma expiry_retry_moves i s : moves (lw_store s) (lw_store (expiry_retry i s).2).
Proof using SpannerLaws0.
  unfold expiry_retry. destruct (lm_goroutines _ !! i) as [[| |id n]|]; try apply moves_refl.
  pose proof (Revoke_moves id s) as H. by destruct (Revoke id s) as [r s2].
Qed.

End leases.

Section steps.
Context `{SP : Spanner} `{!SpannerLaws SP} `{G : Grpc} (status_Code : error → code).

Lemma safe_serve q w : request_ok q → moves w (serve q w).
Proof using SpannerLaws0.
  intros Hq. destruct q; cbn in *; apply moves_safe;
    eauto using safe_Range, safe_Put, safe_DeleteRange, safe_Txn, safe_CompactRPC.
Qed.

Lemma poll_query_moves r : moves (rp_store r) (rp_store (poll_query r)).
Proof using SpannerLaws0.
  unfold poll_query. destruct (rp_poll r); try apply moves_refl.
  pose proof (moves_safe _ (rp_store r) (safe_After "" (wt_lastRev (rp_wt r)) pollBatchSize)) as H.
  destruct (After _ _ _ _) as [[cur [evs|e]] w]; cbn; [done|]. by case_bool.
Qed.

Lemma replay_moves i v : moves (vs_store v) (vs_store (replay_step i v)).
Proof using SpannerLaws0.
  destruct v as [w wt]. unfold replay_step. cbn [vs_store].
  destruct (wt_objs wt !! i) as [s|]; [|apply moves_refl].
  destruct (sub_phase s) as [a|rev| | | | | | |]; try apply moves_refl.
  - case_bool; [apply moves_refl|]. pose proof (moves_safe _ w safe_compactRevision) as H.
    destruct (compactRevision w) as [[c|e] w']; cbn; [by case_bool|done].
  - pose proof (moves_safe _ w (safe_After (sub_prefix s) rev pollBatchSize)) as H.
    destruct (After _ _ _ w) as [[cur [[|ev evs]|e]] w']; done.
  - case_bool; apply moves_refl.
  - destruct (sub_ch s); apply moves_refl.
  - case_bool; apply moves_refl.
Qed.

Lemma stream_step_moves v v' :
  stream_step status_Code v v' → moves (vs_store (sy_v (sv_y v))) (vs_store (sy_v (sv_y v'))).
Proof using SpannerLaws0.
  assert (∀ i l v0, moves (vs_store (sy_v (sv_y v0))) (vs_store (sy_v (sv_y (loop_return i l v0))))) as Hret.
  { intros i l v0. unfold loop_return, loop_cancel. cbn. destruct (lp_sub l); apply moves_refl. }
  destruct 1; try apply moves_refl.
  - unfold loop_start. repeat case_match; apply moves_refl.
  - unfold loop_event. destruct (st_loops _ !! i) as [l|]; [|apply moves_refl].
    destruct (lp_phase l); try apply moves_refl. destruct (lp_sub l); [|apply moves_refl].
    destruct (receive _ _) as [[[|ev evs]|] wt]; try apply moves_refl.
    pose proof (moves_safe _ (vs_store (sy_v (sv_y v))) safe_compactRevision) as H. cbn.
    by destruct (compactRevision _).
  - unfold loop_tick. destruct (st_loops _ !! i) as [l|]; [|apply moves_refl].
    destruct (lp_phase l); try apply moves_refl.
    pose proof (moves_safe _ (vs_store (sy_v (sv_y v))) safe_CurrentRevision) as H. by destruct (CurrentRevision _).
  - unfold loop_send. repeat case_match; apply moves_refl.
  - unfold loop_ctx_done. repeat case_match; (apply moves_refl || apply Hret).
  - unfold loop_notify. destruct (st_loops _ !! i) as [l|]; [|apply moves_refl].
    destruct (lp_phase l); try apply moves_refl. exact (Hret i l (sv_map _ v)).
  - unfold forward_ctx. destruct (st_loops _ !! i) as [l|]; [|apply moves_refl]. case_bool; [|apply moves_refl].
    unfold loop_cancel. cbn. destruct (lp_sub l); apply moves_refl.
Qed.

Lemma replica_step_moves r r' : replica_step status_Code r r' → moves (rp_store r) (rp_store r').
Proof using SpannerLaws0.
  destruct 1.
  - by apply safe_serve.
  - apply moves_safe; auto with setcd.
  - apply moves_safe; auto with setcd.
  - apply (LeaseGrant_moves now TTL (lease_view r)).
  - apply (LeaseRevoke_moves id (lease_view r)).
  - rewrite LeaseKeepAlive_eq. apply moves_refl.
  - apply (loadLeases_moves (lease_view r)).
  - cbn. rewrite expiry_start_store. apply moves_refl.
  - cbn. rewrite expiry_fire_store. apply moves_refl.
  - apply (expiry_retry_moves i (lease_view r)).
  - unfold poll_begin. destruct (rp_poll r); try apply moves_refl.
    pose proof (moves_safe _ (rp_store r) safe_CurrentRevision) as H. by destruct (CurrentRevision _).
  - apply poll_query_moves.
  - unfold poll_wake. destruct (rp_poll r) eqn:Hp; try apply moves_refl.
    destruct (w_notify (rp_store r)) as [|hint rest]; [apply moves_refl|].
    eapply moves_trans; [|case_bool; [apply poll_query_moves|apply moves_refl]]. by apply moves_same.
  - unfold poll_copy. destruct (rp_poll r); apply moves_refl.
  - unfold poll_finish. repeat case_match; apply moves_refl.
  - apply moves_refl.
  - unfold dispatch_at. destruct (_ !! k); apply moves_refl.
  - apply replay_moves.
  - apply moves_refl.
  - apply moves_refl.
  - apply moves_refl.
  - by eapply (stream_step_moves (mk_server st (rp_sys r))).
  - by destruct H as (_ & _ & H).
Qed.

Lemma replica_run_moves r r' : rtc (replica_step status_Code) r r' → moves (rp_store r) (rp_store r').
Proof using SpannerLaws0.
  induction 1 as [|r1 r2 r3 Hs _ IH]; [apply moves_refl|]. eapply moves_trans; [|done]. by apply replica_step_moves.
Qed.

End steps.

(** ** What an action does to the watcher *)

Section watcher.
Context `{SP : Spanner} `{G : Grpc} (status_Code : error → code).

(** A step of [WatchProps], or an assignment to [lastRev]. *)
Inductive sys_step (y : wsystem) : wsystem → Prop :=
| sys_watch y' : watch_step y y' → sys_step y y'
| sys_rev rev : sys_step y (with_wt (set_lastRev rev (sy_wt y)) y).

Lemma with_wt_id y : with_wt (sy_wt y) y = y.
Proof. by destruct y as [[w wt] ds]. Qed.

Lemma cancel_steps sub y : rtc watch_step y (with_wt (cancel_sub sub (sy_wt y)) y).
Proof. apply rtc_once, step_cancel. Qed.

Lemma loop_cancel_steps i l v : rtc watch_step (sv_y v) (sv_y (loop_cancel i l v)).
Proof. unfold loop_cancel. cbn. destruct (lp_sub l) as [sub|]; [apply cancel_steps|done]. Qed.

Lemma set_store_steps w y : rtc watch_step y (set_store w y).
Proof. apply rtc_once. apply step_world. Qed.

Lemma stream_step_sys v v' : stream_step status_Code v v' → rtc watch_step (sv_y v) (sv_y v').
Proof.
  destruct 1; try done.
  - unfold loop_start. destruct (st_loops _ !! i) as [l|]; [|done]. destruct (lp_phase l); try done.
    destruct (subscribe _ _ _) as [sub wt] eqn:E.
    assert (wt = (subscribe (lp_prefix l) (lp_startRev l) (sy_wt (sv_y v))).2) as -> by (by rewrite E).
    eapply rtc_l; [apply step_subscribe|]. cbn. case_bool; [|done].
    apply (cancel_steps sub (with_wt (subscribe (lp_prefix l) (lp_startRev l) (sy_wt (sv_y v))).2 (sv_y v))).
  - unfold loop_event. destruct (st_loops _ !! i) as [l|]; [|done]. destruct (lp_phase l); try done.
    destruct (lp_sub l) as [sub|]; [|done]. destruct (receive _ _) as [[evs|] wt] eqn:E; [|done].
    assert (rtc watch_step (sv_y v) (with_wt wt (sv_y v))) as H.
    { apply rtc_once. replace wt with (receive sub (sy_wt (sv_y v))).2 by (by rewrite E). apply step_receive. }
    destruct evs; [|done]. destruct (compactRevision _) as [c w]. etrans; [exact H|apply set_store_steps].
  - unfold loop_tick. destruct (st_loops _ !! i) as [l|]; [|done]. destruct (lp_phase l); try done.
    destruct (CurrentRevision _). apply set_store_steps.
  - unfold loop_send. by repeat case_match.
  - unfold loop_ctx_done. repeat case_match; try done; apply loop_cancel_steps.
  - unfold loop_notify. destruct (st_loops _ !! i) as [l|]; [|done]. destruct (lp_phase l); try done.
    exact (loop_cancel_steps i l (sv_map _ v)).
  - unfold forward_ctx. destruct (st_loops _ !! i) as [l|]; [|done]. case_bool; [|done]. apply loop_cancel_steps.
Qed.

Lemma sys_watch_steps y y' : rtc watch_step y y' → rtc sys_step y y'.
Proof. apply (rtc_congruence id). intros. by apply sys_watch. Qed.

Lemma on_store_sys w r : rtc sys_step (rp_sys r) (rp_sys (on_store w r)).
Proof. apply sys_watch_steps, set_store_steps. Qed.

Lemma poll_query_sys r : rtc sys_step (rp_sys r) (rp_sys (poll_query r)).
Proof.
  unfold poll_query. destruct (rp_poll r); try done. destruct (After _ _ _ _) as [[cur [evs|e]] w]; cbn.
  - apply sys_watch_steps, set_store_steps.
  - case_bool; [|apply sys_watch_steps, set_store_steps]. cbn.
    eapply rtc_r; [apply on_store_sys|]. exact (sys_rev (rp_sys (on_store w r)) cur).
Qed.

Lemma replica_step_sys r r' : replica_step status_Code r r' → rtc sys_step (rp_sys r) (rp_sys r').
Proof.
  destruct 1; try apply on_store_sys; try (apply sys_watch_steps, set_store_steps).
  - unfold poll_begin. destruct (rp_poll r); try done. destruct (CurrentRevision _) as [rev w]. cbn.
    eapply rtc_r; [apply on_store_sys|]. exact (sys_rev (rp_sys (on_store w r)) (or_zero rev)).
  - apply poll_query_sys.
  - unfold poll_wake. destruct (rp_poll r); try done. destruct (w_notify _) as [|hint rest]; [done|].
    case_bool; [|apply on_store_sys]. etrans; [apply on_store_sys|apply poll_query_sys].
  - unfold poll_copy. destruct (rp_poll r); try done. cbn. apply rtc_once, sys_watch, step_start.
  - unfold poll_finish. repeat case_match; try done. cbn. apply rtc_once, sys_rev.
  - apply rtc_once, sys_watch, step_start.
  - unfold dispatch_at. destruct (_ !! k) as [d|] eqn:Hk; [|done]. by apply rtc_once, sys_watch, step_dispatch.
  - apply rtc_once, sys_watch, step_replay.
  - apply rtc_once, sys_watch, step_done.
  - apply rtc_once, sys_watch, step_timeout.
  - done.
  - by eapply sys_watch_steps, (stream_step_sys (mk_server st (rp_sys r))).
Qed.

(** The invariants of the watcher do not mention [lastRev]. *)
Lemma sys_step_ok y y' :
  watcher_ok (sy_wt y) (sy_disp y) → sys_step y y' → watcher_ok (sy_wt y') (sy_disp y').
Proof. intros H [y1 Hs|rev]; [by eapply watch_step_ok|]. by destruct H; split. Qed.

Lemma sys_step_content y y' :
  content_ok (sy_wt y) → sys_step y y' → content_ok (sy_wt y') ∧ keeps (sy_wt y) (sy_wt y').
Proof. intros H [y1 Hs|rev]; [by eapply watch_step_content|]. split; [done|by apply keeps_objs]. Qed.

Lemma sys_steps_ok y y' :
  rtc sys_step y y' → watcher_ok (sy_wt y) (sy_disp y) → content_ok (sy_wt y) →
  watcher_ok (sy_wt y') (sy_disp y') ∧ content_ok (sy_wt y') ∧ keeps (sy_wt y) (sy_wt y').
Proof.
  induction 1 as [y|y1 y2 y3 Hs _ IH]; intros Hw Hc; [split_and!; [done|done|apply keeps_refl]|].
  destruct (sys_step_content _ _ Hc Hs) as [Hc2 Hk].
  destruct IH as (? & ? & ?); [by eapply sys_step_ok|done|]. split_and!; [done|done|by eapply keeps_trans].
Qed.

End watcher.

(** ** The invariant *)

Record replica_ok (r : replica) : Prop := mk_replica_ok {
  ro_lm : lm_ok (rp_lm r);
  ro_watcher : watcher_ok (rp_wt r) (sy_disp (rp_sys r));
  ro_content : content_ok (rp_wt r);
  ro_streams k st : rp_streams r !! k = Some st → stream_ok st ∧ deliver_ok (mk_server st (rp_sys r));
}.

Section invariant.
Context `{SP : Spanner} `{G : Grpc} (status_Code : error → code).

(** A stream is left alone while the store goes on. *)
Lemma deliver_sys st y y' :
  deliver_ok (mk_server st y) → content_ok (sy_wt y') → keeps (sy_wt y) (sy_wt y') → deliver_ok (mk_server st y').
Proof.
  intros H Hc Hk. eapply (deliver_frame _ st y' H Hc); [|..|apply H|by left].
  - intros i l Hl. by exists l.
  - intros i l Hl. eapply loop_good_keeps; [exact Hk|]. exact (do_loops _ H _ _ Hl).
Qed.

Lemma stream_init_ok : stream_ok stream_init.
Proof. split; cbn; try done. exists []. split; [|done|done]. intros [|? ?] ? ? ?; done. Qed.

Lemma lease_service_ok s :
  lm_ok (lw_lm s) →
  (∀ now TTL, lm_ok (lw_lm (LeaseGrant now TTL s).2)) ∧ (∀ id, lm_ok (lw_lm (LeaseRevoke id s).2)) ∧
  lm_ok (lw_lm (loadLeases s).2).
Proof.
  intros H. split_and!.
  - intros now TTL. unfold LeaseGrant, mbind, st_bind. pose proof (Grant_ok now (if TTL <=? 0 then 15 else TTL) s H) as Hg.
    by destruct (Grant _ _ s) as [[l|e] s2].
  - intros id. unfold LeaseRevoke, mbind, st_bind. pose proof (Revoke_lm id s) as Hr.
    destruct (Revoke id s) as [[e|] s2]; cbn in *; rewrite Hr; [done|by apply drop_lease_ok].
  - unfold loadLeases, call, get_lm, put_lm, mbind, st_bind. destruct (stream_leases _) as [[rows e] w'].
    cbn. by apply load_rows_ok.
Qed.

Lemma poll_query_parts r : rp_lm (poll_query r) = rp_lm r ∧ rp_streams (poll_query r) = rp_streams r.
Proof.
  unfold poll_query. destruct (rp_poll r); try done. destruct (After _ _ _ _) as [[cur [evs|e]] w]; [done|]. by case_bool.
Qed.

(** Actions other than those of the lease manager and of the streams leave both alone. *)
Lemma replica_step_parts r r' :
  replica_step status_Code r r' → lm_ok (rp_lm r) →
  lm_ok (rp_lm r') ∧
  (rp_streams r' = rp_streams r ∨ rp_streams r' = rp_streams r ++ [stream_init] ∧ rp_sys r' = rp_sys r ∨
   ∃ k st v, rp_streams r !! k = Some st ∧ stream_step status_Code (mk_server st (rp_sys r)) v ∧
     rp_streams r' = <[k := sv_st v]> (rp_streams r) ∧ rp_sys r' = sv_y v).
Proof.
  intros Hs Hlm. destruct (lease_service_ok (lease_view r) Hlm) as (HG & HR & HL).
  destruct Hs; try (split; [done|by left]).
  - split; [apply HG|by left].
  - split; [apply HR|by left].
  - rewrite LeaseKeepAlive_eq. split; [by apply Keepalive_ok|by left].
  - split; [by apply expiry_start_ok|by left].
  - split; [by apply expiry_fire_ok|by left].
  - split; [by apply expiry_retry_ok|by left].
  - unfold poll_begin. destruct (rp_poll r); try (by split; [|left]). destruct (CurrentRevision _). by split; [|left].
  - destruct (poll_query_parts r) as [-> ->]. by split; [|left].
  - unfold poll_wake. destruct (rp_poll r); try (by split; [|left]). destruct (w_notify _); [by split; [|left]|].
    case_bool; [|by split; [|left]]. match goal with |- context [poll_query ?x] => destruct (poll_query_parts x) as [-> ->] end.
    by split; [|left].
  - unfold poll_copy. destruct (rp_poll r); by split; [|left].
  - unfold poll_finish. repeat case_match; by split; [|left].
  - unfold dispatch_at. destruct (_ !! k); by split; [|left].
  - split; [done|]. right. by left.
  - split; [done|]. right. right. by exists k, st, v.
Qed.

Lemma replica_step_ok r r' : replica_ok r → replica_step status_Code r r' → replica_ok r'.
Proof.
  intros [Hlm Hw Hc Hst] Hs. destruct (replica_step_parts r r' Hs Hlm) as [Hlm' Hparts].
  destruct (sys_steps_ok _ _ (replica_step_sys status_Code r r' Hs) Hw Hc) as (Hw' & Hc' & Hk).
  assert (∀ st, deliver_ok (mk_server st (rp_sys r)) → deliver_ok (mk_server st (rp_sys r'))) as Hdel
    by (intros; by eapply deliver_sys).
  split; [done..|]. intros k st Hk'. destruct Hparts as [E|[[E Esys]|(k0 & st0 & v & H0 & Hv & E & Esys)]].
  - rewrite E in Hk'. destruct (Hst _ _ Hk'). auto.
  - rewrite E in Hk'. apply lookup_app_Some in Hk' as [Hk'|[_ Hk']]; [destruct (Hst _ _ Hk'); auto|].
    apply list_lookup_singleton_Some in Hk' as [_ <-]. split; [apply stream_init_ok|].
    split; [done|by intros i l ?|done|by intros x ?%elem_of_nil].
  - destruct (Hst _ _ H0) as [Hok0 Hdel0]. rewrite E in Hk'.
    apply list_lookup_insert_Some in Hk' as [(-> & <- & _)|[Hne Hk']]; [|destruct (Hst _ _ Hk'); auto].
    apply (serve_own status_Code) in Hv. split; [exact (serve_step_ok status_Code (mk_server st0 (rp_sys r)) _ Hok0 Hv)|].
    rewrite Esys. apply (deliver_step status_Code _ _ Hdel0) in Hv. by destruct v.
Qed.

Lemma replica_init_ok w now : replica_ok (replica_init w now).
Proof.
  split; [| |by intros i s ?|by intros k st ?].
  - split; cbn; [by intros ? ? ?%lookup_empty_Some|]. intros id [a Ha]. by apply lookup_empty_Some in Ha.
  - split; cbn; [constructor| |done|by intros d j ?%elem_of_nil].
    intros j. split; [by intros ?%elem_of_nil|]. by intros (s & ? & _).
Qed.

Lemma replica_run_ok r r' : replica_ok r → rtc (replica_step status_Code) r r' → replica_ok r'.
Proof. intros H Hrun. induction Hrun as [|r1 r2 r3 Hs _ IH]; [done|]. apply IH. by eapply replica_step_ok. Qed.

End invariant.

(** C7: The invariant of a whole replica: whatever the interleaving of its KV requests,
    leases, compactions, polls, subscriptions and Watch streams with each other and with
    other replicas, and whichever calls fail, the database stays well-formed and is changed
    only by commits the other replicas expect, its revisions never go back, every lease has
    a goroutine that will expire it or was given up on, no channel overflows, the list of
    subscribers is exactly that of the subscriptions not yet torn down, and every stream is
    sent responses in order and events of its own watches only. *)
Theorem replica_invariant `{SP : Spanner} `{!SpannerLaws SP} `{G : Grpc} status_Code w now r :
  world_wf w → rtc (replica_step status_Code) (replica_init w now) r → sp_ts (w_rpc (rp_store r)) < 2 ^ 63 →
  guarantee w (rp_store r) ∧
  (current_rev (kv (w_db w)) ≤ current_rev (kv (rp_db r)) ∧ compact_rev (w_db w) ≤ compact_rev (rp_db r)) ∧
  (∀ id, is_Some (lm_leases (rp_lm r) !! id) →
     id ∈ lm_stuck (rp_lm r) ∨ ∃ g, g ∈ lm_goroutines (rp_lm r) ∧ concerns (lm_objs (rp_lm r)) g id) ∧
  (∀ i s, wt_objs (rp_wt r) !! i = Some s →
     Z.of_nat (length (sub_ch s)) ≤ subChannelDepth ∧ sub_closed s = past_close (sub_phase s) ∧
     (i ∈ wt_subscribers (rp_wt r) ↔ registered (sub_phase s) = true)) ∧
  (∀ k st, rp_streams r !! k = Some st →
     Z.of_nat (length (st_respCh st)) ≤ 64 ∧ ordered (st_sent st) ∧
     ∀ resp, resp ∈ st_sent st → owned st resp).
Proof.
  intros Hw Hrun Ht. destruct (replica_run_moves status_Code _ _ Hrun) as [_ Hg]. specialize (Hg Hw Ht).
  destruct (replica_run_ok status_Code _ _ (replica_init_ok w now) Hrun) as [Hlm [_ Hreg Hobj _] _ Hst].
  split_and!; [exact Hg|..].
  - eapply grows_reach; [|apply Hg]. eapply db_wf_mono; [apply Hw|]. apply sp_ts_mono, Hg.
  - eapply compact_rev_reach, Hg.
  - apply Hlm.
  - intros i s Hi. destruct (Hobj _ _ Hi) as [Hl Hcl _ _]. split_and!; [done|done|]. rewrite Hreg.
    split; [intros (x & Hx & ?); congruence|by exists s].
  - intros k st Hk. destruct (Hst _ _ Hk) as [Hok Hd]. destruct (so_trace _ Hok) as (lost & [Ho _ _]).
    split_and!; [apply Hok|by eapply ordered_app_l|]. intros resp Hr. apply (do_out _ Hd). apply elem_of_app. by left.
Qed.
