(* ===== verification/WatchPipeline.v ===== *)
(** * From a write to the client of a watch

    A row of the log on its way to a watch: found by a poll, held by a dispatcher, in the
    channel of the subscription, in the hands of the loop of the watch, in the queue of the
    stream, sent.  Every action of the replica passes it on; it is dropped only when the
    subscription is cancelled or closed, when the stream cannot send, or when the poll loop
    skips rows. *)

From Stdlib Require Import Ascii String.
From S2P Require Import Prelude Go Spanner Rows Invariant Sim StoreRead StoreWrite Reads StoreTxn StoreCompact StoreInvariant Safe KVServer KVProps Leases LeaseProps Watcher WatchProps WatchServer WatchServerProps WatchDelivery Replica ReplicaProps.

Open Scope string_scope.
Open Scope list_scope.
Open Scope Z_scope.

(** ** Streams: what their actions leave alone *)

(** A loop that only had its [watchCtx] cancelled. *)
Definition same_watch (l l' : loop) : Prop :=
  lp_sub l' = lp_sub l ∧ lp_ctx l' = lp_ctx l ∧ lp_id l' = lp_id l ∧ lp_phase l' = lp_phase l.

Definition out (st : stream) : list WatchResponse := st_sent st ++ st_respCh st.

(** Running loops go on, no loop gets a subscription, no response is lost. *)
Record stream_ext (st st' : stream) : Prop := mk_stream_ext {
  se_fwd j l : st_loops st !! j = Some l → started l = true → ∃ l', st_loops st' !! j = Some l' ∧ same_watch l l';
  se_bwd j l' x : st_loops st' !! j = Some l' → lp_sub l' = Some x →
    ∃ l, st_loops st !! j = Some l ∧ lp_sub l = Some x;
  se_out r : r ∈ out st → r ∈ out st';
  se_sender : st_sender st' = st_sender st;
}.

Lemma ext_refl st : stream_ext st st.
Proof. split; try done; [intros j l Hl _; by exists l|intros j l x Hl ?; by exists l]. Qed.

Lemma ext_trans st1 st2 st3 : stream_ext st1 st2 → stream_ext st2 st3 → stream_ext st1 st3.
Proof.
  intros [F1 B1 O1 S1] [F2 B2 O2 S2]. split; [..|auto|congruence].
  - intros j l Hl Hs. destruct (F1 _ _ Hl Hs) as (l1 & Hl1 & E1 & E2 & E3 & E4).
    destruct (F2 j l1) as (l2 & Hl2 & ? & ? & ? & ?); [done|unfold started in *; by rewrite E4|].
    exists l2. split; [done|]. split_and!; congruence.
  - intros j l x Hl Hx. destruct (B2 _ _ _ Hl Hx) as (l1 & Hl1 & ?). eauto.
Qed.

(** The loops and what goes out stay. *)
Lemma ext_same st st' :
  st_loops st' = st_loops st → st_sent st' = st_sent st → st_respCh st' = st_respCh st →
  st_sender st' = st_sender st → stream_ext st st'.
Proof.
  intros El Es Er Ex. split; rewrite ?El; [..|by unfold out; rewrite Es, Er|done].
  - intros j l Hl _. by exists l.
  - intros j l x Hl ?. by exists l.
Qed.

(** One loop changes. *)
Lemma ext_upd i f st :
  (∀ l, st_loops st !! i = Some l → lp_sub (f l) = lp_sub l ∧ (started l = true → same_watch l (f l))) →
  stream_ext st (upd_loop i f st).
Proof.
  intros Hf. split; [..|done|done]; cbn.
  - intros j l Hl Hs. destruct (decide (j = i)) as [->|Hne].
    + exists (f l). rewrite list_lookup_alter_eq, Hl. split; [done|]. by apply Hf.
    + exists l. by rewrite list_lookup_alter_ne.
  - intros j l x [(-> & l0 & Hl0 & ->)|[_ Hl]]%lookup_alter_inv Hx; [|by exists l].
    exists l0. split; [done|]. destruct (Hf _ Hl0). congruence.
Qed.

Lemma ext_cancel_watch i st : stream_ext st (upd_loop i lp_cancel_watch st).
Proof. apply ext_upd. by intros l _. Qed.

Lemma ext_close_watch st id : stream_ext st (close_watch st id).
Proof.
  unfold close_watch. destruct (st_watches st !! id) as [i|]; [|apply ext_refl].
  eapply ext_trans; [apply ext_cancel_watch|by apply ext_same].
Qed.

Lemma ext_drain st : stream_ext st (drainCancelled st).
Proof.
  unfold drainCancelled. apply (ext_trans _ (foldl close_watch st (st_cancelledCh st))); [|by apply ext_same].
  generalize (st_cancelledCh st) as ids. intros ids. revert st. induction ids as [|id ids IH]; intros st; [apply ext_refl|].
  cbn. eapply ext_trans; [apply ext_close_watch|apply IH].
Qed.

Lemma ext_cancel_all st : stream_ext st (cancel_all st).
Proof.
  unfold cancel_all. induction (map_to_list (st_watches st)).*2 as [|i idxs IH]; [apply ext_refl|].
  cbn. eapply ext_trans; [exact IH|apply ext_cancel_watch].
Qed.

Lemma ext_finish code e st : stream_ext st (main_finish code e st).
Proof. unfold main_finish. eapply ext_trans; [apply ext_cancel_all|by apply ext_same]. Qed.

Lemma ext_create key rangeEnd startRev st : stream_ext st (main_create key rangeEnd startRev st).
Proof.
  split; [..|done|done]; cbn.
  - intros j l Hl _. exists l. split; [by apply lookup_app_l_Some|done].
  - intros j l x [Hl|[_ Hl]]%lookup_app_Some Hx; [by exists l|].
    apply list_lookup_singleton_Some in Hl as [_ <-]. done.
Qed.

Lemma ext_request code st : stream_ext st (main_request code st).
Proof.
  unfold main_request. destruct (st_main st); try apply ext_refl. destruct (st_reqCh st) as [|rr rest]; [apply ext_refl|].
  assert (stream_ext st (set_reqCh rest st)) as H by by apply ext_same.
  destruct rr as [req| |e].
  - pose proof (ext_trans _ _ _ H (ext_drain _)) as Hd. destruct req; [| |done].
    + eapply ext_trans; [exact Hd|apply ext_create].
    + unfold main_cancel. eapply ext_trans; [exact Hd|]. eapply ext_trans; [apply ext_close_watch|by apply ext_same].
  - eapply ext_trans; [exact H|apply ext_finish].
  - case_bool; (eapply ext_trans; [exact H|]); [apply ext_finish|by apply ext_same].
Qed.

Lemma ext_push r st : stream_ext st (push_resp r st).
Proof.
  split; try done; [intros j l Hl _; by exists l|intros j l x Hl ?; by exists l|].
  intros x. unfold out. cbn. rewrite !elem_of_app. naive_solver.
Qed.

(** The loop a handler starts was not running. *)
Lemma ext_main_send st : stream_ok st → stream_ext st (main_send st).
Proof.
  intros Hok. unfold main_send. pose proof (so_main _ Hok) as Hm. destruct (st_main st) as [|r start|]; try apply ext_refl.
  case_bool; [|apply ext_refl].
  assert (stream_ext st (set_main MLoop (push_resp r st))) as H
    by (eapply ext_trans; [apply ext_push|by apply ext_same]).
  destruct start as [i|]; [|done]. destruct Hm as (l0 & Hl0 & Hst & _).
  eapply ext_trans; [exact H|]. apply ext_upd. cbn. intros l Hl. split; [done|]. congruence.
Qed.

Lemma ext_ctx_done code st : stream_ext st (main_ctx_done code st).
Proof.
  unfold main_ctx_done. case_bool; [|apply ext_refl]. destruct (st_main st); (apply ext_finish || apply ext_refl).
Qed.

Lemma ext_send_error code st : stream_ext st (main_send_error code st).
Proof.
  unfold main_send_error. destruct (st_sendErrCh st) as [e|]; [|apply ext_refl].
  assert (stream_ext st (main_finish code (Some e) (set_sendErrCh None st))) as H.
  { apply (ext_trans _ (set_sendErrCh None st)); [by apply ext_same|apply ext_finish]. }
  destruct (st_main st); [done|done|apply ext_refl].
Qed.

Lemma ext_cancelled st : stream_ext st (main_cancelled st).
Proof.
  unfold main_cancelled. destruct (st_main st); try apply ext_refl.
  destruct (st_cancelledCh st) as [|x rest]; [apply ext_refl|].
  apply (ext_trans _ (set_cancelledCh rest st)); [by apply ext_same|apply ext_close_watch].
Qed.

Lemma ext_recv rr st : stream_ext st (receiver_recv rr st).
Proof.
  unfold receiver_recv. destruct (st_receiver st); [|apply ext_refl]. destruct (st_reqCh st); [|apply ext_refl].
  by apply ext_same.
Qed.

(** A loop other than the one that changes. *)
Lemma ext_loop_other i f st j l :
  i ≠ j → st_loops st !! j = Some l → st_loops (upd_loop i f st) !! j = Some l.
Proof. intros Hne Hl. cbn. by rewrite list_lookup_alter_ne. Qed.

(** ** Subscriptions: flags are never reset *)

Definition open_sub (s : subscriber) : Prop := sub_cancelled s = false ∧ sub_closed s = false.

Definition flags_le (s s' : subscriber) : Prop :=
  (sub_cancelled s = true → sub_cancelled s' = true) ∧ (sub_closed s = true → sub_closed s' = true).

Definition flags_mono (wt wt' : Watcher) : Prop :=
  ∀ i s, wt_objs wt !! i = Some s → ∃ s', wt_objs wt' !! i = Some s' ∧ flags_le s s'.

Lemma flags_objs wt wt' : wt_objs wt' = wt_objs wt → flags_mono wt wt'.
Proof. intros E i s Hs. rewrite E. by exists s. Qed.

Lemma flags_set_sub i s s' wt : wt_objs wt !! i = Some s → flags_le s s' → flags_mono wt (set_sub i s' wt).
Proof.
  intros Hi Hf j x Hx. destruct (decide (j = i)) as [->|Hne].
  - exists s'. cbn. rewrite list_lookup_insert_eq by (by eapply lookup_lt_Some). by simplify_eq.
  - exists x. by rewrite set_sub_other.
Qed.

Lemma flags_mono_trans wt1 wt2 wt3 : flags_mono wt1 wt2 → flags_mono wt2 wt3 → flags_mono wt1 wt3.
Proof.
  intros H1 H2 i s (s1 & Hs1 & F1)%H1. destruct (H2 _ _ Hs1) as (s2 & Hs2 & F2). exists s2.
  split; [done|]. destruct F1, F2. split; auto.
Qed.

Lemma not_open_le s s' : flags_le s s' → ¬ open_sub s → ¬ open_sub s'.
Proof.
  intros [F1 F2] Ho [H1 H2]. apply Ho. split.
  - destruct (sub_cancelled s); [|done]. rewrite F1 in H1; done.
  - destruct (sub_closed s); [|done]. rewrite F2 in H2; done.
Qed.

Lemma offer_flags b s : flags_le s (offer b s).
Proof. unfold offer. by case_bool. Qed.

Section flags.
Context `{SP : Spanner}.

Lemma replay_step_flags i v : flags_mono (vs_watcher v) (vs_watcher (replay_step i v)).
Proof.
  destruct v as [w wt]. unfold replay_step. cbn [vs_watcher].
  destruct (wt_objs wt !! i) as [s|] eqn:Hi; [|by apply flags_objs].
  assert (∀ s', flags_le s s' → flags_mono wt (set_sub i s' wt)) as Hset by (intros; by eapply flags_set_sub).
  assert (flags_mono wt wt) as Hsame by by apply flags_objs.
  destruct (sub_phase s) as [a|rev|events rev more| | | | | |]; try done.
  - case_bool; [by apply Hset|]. destruct (compactRevision w) as [[c|e] w']; [case_bool|]; by apply Hset.
  - destruct (After _ _ _ w) as [[cur r] w']. cbn [snd]. destruct r as [[|ev evs]|e]; by apply Hset.
  - case_bool; [by apply Hset|done].
  - by apply Hset.
  - cbn [vs_watcher]. apply (flags_mono_trans _ (removeSub i wt)); [by apply flags_objs|by eapply flags_set_sub].
  - destruct (sub_ch s); by apply Hset.
  - case_bool; [by apply Hset|done].
Qed.

Lemma watch_step_flags y y' : watch_step y y' → flags_mono (sy_wt y) (sy_wt y').
Proof.
  destruct 1; unfold sy_wt; cbn [with_wt sy_v vs_watcher]; try (by apply flags_objs).
  - intros i s Hs. exists s. split; [by apply lookup_app_l_Some|done].
  - apply replay_step_flags.
  - unfold replay_done. destruct (wt_objs _ !! i) as [s|] eqn:Hi; [|by apply flags_objs]. case_bool; [|by apply flags_objs].
    destruct (sub_phase s); try (by apply flags_objs); by eapply flags_set_sub.
  - unfold sentinel_timeout. destruct (wt_objs _ !! i) as [s|] eqn:Hi; [|by apply flags_objs].
    destruct (sub_phase s); try (by apply flags_objs). case_bool; [by apply flags_objs|by eapply flags_set_sub].
  - unfold cancel_sub. destruct (wt_objs _ !! i) as [s|] eqn:Hi; [|by apply flags_objs]. by eapply flags_set_sub.
  - unfold receive. destruct (wt_objs _ !! i) as [s|] eqn:Hi; [|by apply flags_objs].
    destruct (sub_ch s); [by apply flags_objs|]. by eapply flags_set_sub.
  - destruct d as [events todo [j|]]; cbn [dispatch_micro snd]; [|destruct todo; by apply flags_objs].
    destruct (wt_objs _ !! j) as [s|] eqn:Hj; [|by apply flags_objs]. eapply flags_set_sub; [exact Hj|apply offer_flags].
Qed.

Lemma sys_steps_flags y y' : rtc sys_step y y' → flags_mono (sy_wt y) (sy_wt y').
Proof.
  induction 1 as [|y1 y2 y3 Hs _ IH]; [by apply flags_objs|]. eapply flags_mono_trans; [|exact IH].
  destruct Hs; [by apply watch_step_flags|by apply flags_objs].
Qed.

End flags.

(** ** The way to the watch *)

Section pipe.
Context (i k0 j0 : nat) (p : string) (id : Z).

Definition in_channel (s : subscriber) (e : Event) : Prop := ∃ b, b ∈ sub_ch s ∧ e ∈ b.

(** A dispatcher has the event and has not served subscription [i] yet. *)
Definition in_dispatch (ds : list dispatcher) (e : Event) : Prop :=
  ∃ d, d ∈ ds ∧ e ∈ d_events d ∧ (i ∈ d_todo d ∨ d_send d = Some i).

Definition resp_has (e : Event) (r : WatchResponse) : Prop := wr_WatchId r = id ∧ toWatchEvent e ∈ wr_Events r.

Definition in_loop (l : loop) (e : Event) : Prop := ∃ r last, lp_phase l = LSend r last ∧ resp_has e r.

Definition in_out (st : stream) (e : Event) : Prop := ∃ r, r ∈ out st ∧ resp_has e r.

(** The watcher hands the event on, as long as the subscription stays open. *)
Definition passes (y y' : wsystem) : Prop :=
  ∀ s, wt_objs (sy_wt y) !! i = Some s → sub_prefix s = p → open_sub s →
  ∃ s', wt_objs (sy_wt y') !! i = Some s' ∧ sub_prefix s' = p ∧
    (open_sub s' → ∀ e, prefix_matches p e = true → in_dispatch (sy_disp y) e ∨ in_channel s e →
       in_dispatch (sy_disp y') e ∨ in_channel s' e).

Lemma passes_same y y' :
  wt_objs (sy_wt y') !! i = wt_objs (sy_wt y) !! i → (∀ d, d ∈ sy_disp y → d ∈ sy_disp y') → passes y y'.
Proof.
  intros Eo Hd s Hs Hp _. exists s. rewrite Eo. split_and!; [done|done|]. intros _ e _ [(d & ? & ?)|?]; [left|by right].
  exists d. auto.
Qed.

(** Subscription [i] is changed and keeps its batches, or is closed. *)
Lemma passes_set_sub y wt s s' :
  wt_objs wt = wt_objs (sy_wt y) → wt_objs (sy_wt y) !! i = Some s → sub_prefix s' = sub_prefix s →
  (open_sub s' → ∀ b, b ∈ sub_ch s → b ∈ sub_ch s') → ∀ w, passes y (mk_wsystem (mk_wworld w (set_sub i s' wt)) (sy_disp y)).
Proof.
  intros Ew Hs Hp Hb w s0 Hs0 Hp0 _. simplify_eq. exists s'. unfold sy_wt at 1. cbn. rewrite Ew.
  rewrite list_lookup_insert_eq by (by eapply lookup_lt_Some). split_and!; [done|done|].
  intros Ho e _ [?|(b & ? & ?)]; [by left|right]. exists b. auto.
Qed.

Lemma passes_other y j s' wt w :
  j ≠ i → wt_objs wt = wt_objs (sy_wt y) → passes y (mk_wsystem (mk_wworld w (set_sub j s' wt)) (sy_disp y)).
Proof. intros Hne Ew. apply passes_same; [|done]. unfold sy_wt at 1. cbn. by rewrite list_lookup_insert_ne, Ew. Qed.

Lemma passes_cancel y : passes y (with_wt (cancel_sub i (sy_wt y)) y).
Proof.
  intros s Hs Hp _. exists (cancel s). unfold cancel_sub. rewrite Hs. unfold sy_wt at 1. cbn.
  rewrite list_lookup_insert_eq by (by eapply lookup_lt_Some). split_and!; [done|done|]. by intros [? _].
Qed.

Section goroutines.
Context `{SP : Spanner}.

Lemma passes_replay j y :
  watcher_ok (sy_wt y) (sy_disp y) → passes y (mk_wsystem (replay_step j (sy_v y)) (sy_disp y)).
Proof.
  intros Hok. destruct (decide (j = i)) as [->|Hne].
  2: { apply passes_same; [|done]. unfold sy_wt. cbn. apply replay_step_other. done. }
  destruct y as [[w wt] ds]. unfold replay_step, sy_wt in *. cbn [sy_v vs_watcher sy_disp] in *.
  destruct (wt_objs wt !! i) as [s|] eqn:Hi; [|by apply passes_same].
  pose proof (so_closed _ (wo_objs _ _ Hok _ _ Hi)) as Hcl.
  assert (∀ w' s', sub_prefix s' = sub_prefix s → (open_sub s' → ∀ b, b ∈ sub_ch s → b ∈ sub_ch s') →
    passes (mk_wsystem (mk_wworld w wt) ds) (mk_wsystem (mk_wworld w' (set_sub i s' wt)) ds)) as Hset.
  { intros w' s' Hp Hb. by apply (passes_set_sub (mk_wsystem (mk_wworld w wt) ds) wt s s'). }
  destruct (sub_phase s) as [a|rev|events rev more| | | | | |] eqn:Hph; try (by apply passes_same).
  - case_bool; [by apply Hset|]. destruct (compactRevision w) as [[c|e] w']; [case_bool|]; by apply Hset.
  - destruct (After _ _ _ w) as [[cur r] w']. cbn [snd]. destruct r as [[|ev evs]|e]; by apply Hset.
  - case_bool; [|by apply passes_same]. apply Hset; [done|]. intros _ b Hb. cbn. apply elem_of_app. by left.
  - apply Hset; [done|]. by intros [_ ?].
  - intros s0 Hs0 _ [_ Ho]. unfold sy_wt in Hs0. cbn in Hs0. simplify_eq. by rewrite Hcl in Ho.
  - intros s0 Hs0 _ [_ Ho]. unfold sy_wt in Hs0. cbn in Hs0. simplify_eq. by rewrite Hcl in Ho.
  - intros s0 Hs0 _ [_ Ho]. unfold sy_wt in Hs0. cbn in Hs0. simplify_eq. by rewrite Hcl in Ho.
Qed.

Lemma passes_done j y : passes y (with_wt (replay_done j (sy_wt y)) y).
Proof.
  unfold replay_done. destruct (wt_objs (sy_wt y) !! j) as [s|] eqn:Hj; [|by apply passes_same].
  case_bool; [|by apply passes_same].
  destruct (sub_phase s); try (by apply passes_same);
    (destruct (decide (j = i)) as [->|Hne]; [by eapply passes_set_sub|by apply passes_other]).
Qed.

Lemma passes_timeout j y : passes y (with_wt (sentinel_timeout j (sy_wt y)) y).
Proof.
  unfold sentinel_timeout. destruct (wt_objs (sy_wt y) !! j) as [s|] eqn:Hj; [|by apply passes_same].
  destruct (sub_phase s); try (by apply passes_same). case_bool; [by apply passes_same|].
  destruct (decide (j = i)) as [->|Hne]; [by eapply passes_set_sub|by apply passes_other].
Qed.

End goroutines.

(** A dispatcher that has the event either keeps it, or puts it into the channel, or finds
    the channel full and cancels the subscription. *)
Lemma passes_dispatch k d y :
  sy_disp y !! k = Some d →
  passes y (mk_wsystem (mk_wworld (vs_store (sy_v y)) (dispatch_micro (d, sy_wt y)).2)
                       (<[k := (dispatch_micro (d, sy_wt y)).1]> (sy_disp y))).
Proof.
  intros Hk s Hs Hp [Hca Hcl].
  assert (∀ d' e, in_dispatch (sy_disp y) e →
    (e ∈ d_events d → i ∈ d_todo d ∨ d_send d = Some i → e ∈ d_events d' ∧ (i ∈ d_todo d' ∨ d_send d' = Some i)) →
    in_dispatch (<[k := d']> (sy_disp y)) e) as Hins.
  { intros d' e (x & Hx & He & Hi) Hd'. apply list_elem_of_lookup in Hx as (m & Hm).
    destruct (decide (m = k)) as [->|Hne].
    - simplify_eq. exists d'. split; [|by apply Hd'].
      eapply list_elem_of_lookup_2, list_lookup_insert_eq. by eapply lookup_lt_Some.
    - exists x. split; [|done]. eapply list_elem_of_lookup_2. by rewrite list_lookup_insert_ne. }
  destruct d as [events todo [j|]]; cbn [dispatch_micro fst snd].
  - destruct (decide (j = i)) as [->|Hne].
    + rewrite Hs. exists (offer (matching events s) s). unfold sy_wt at 1. cbn.
      rewrite list_lookup_insert_eq by (by eapply lookup_lt_Some). rewrite offer_prefix. split_and!; [done|done|].
      intros [Ho _] e Hm Hor.
      assert (room s = true) as Hroom by (unfold offer in Ho; destruct (room s); [done|by cbn in Ho]).
      unfold offer. rewrite Hroom. destruct Hor as [Hd|(b & Hb & He)].
      2: { right. exists b. split; [|done]. cbn. apply elem_of_app. by left. }
      destruct (decide (e ∈ events)) as [He|He].
      * right. exists (matching events s). split; [cbn; apply elem_of_app; right; by apply list_elem_of_singleton|].
        apply list_elem_of_filter. by rewrite sub_matches_prefix, Hp.
      * left. apply Hins; [done|]. done.
    + exists s. split_and!; [|done|].
      * destruct (wt_objs (sy_wt y) !! j); [|done]. unfold sy_wt at 1. cbn. by rewrite list_lookup_insert_ne.
      * intros _ e _ [Hd|?]; [left|by right]. apply Hins; [done|]. cbn. naive_solver.
  - exists s. destruct todo as [|j todo]; cbn [fst snd]; (split_and!; [done|done|]); intros _ e Hm [Hd|?]; try (by right); left.
    + by rewrite list_insert_id.
    + apply Hins; [done|]. cbn. intros He [Hi|?]; [|done]. split; [done|].
      apply elem_of_cons in Hi as [<-|Hi]; [|by left]. right. rewrite Hs.
      assert (e ∈ matching events s) as He' by (apply list_elem_of_filter; by rewrite sub_matches_prefix, Hp).
      destruct (matching events s); [by apply elem_of_nil in He'|]. by rewrite Hcl.
Qed.

(** *** Streams *)

(** Loop [j0] of the stream runs the watch. *)
Record at_watch (st : stream) (l : loop) : Prop := mk_at_watch {
  aw_loop : st_loops st !! j0 = Some l;
  aw_sub : lp_sub l = Some i;
  aw_id : lp_id l = id;
  aw_ctx : lp_ctx l = false;
  aw_phase : lp_phase l ≠ LIdle ∧ lp_phase l ≠ LNew;
  aw_sender : st_sender st = true;
}.

(** What an action of its stream does to the watch: it ends it, or passes on what the
    subscription, the loop and the queue hold. *)
Definition handed (s : subscriber) (st : stream) (l : loop) (v : server) : Prop :=
  st_sender (sv_st v) = false ∨
  (∃ s', wt_objs (sy_wt (sv_y v)) !! i = Some s' ∧ ¬ open_sub s') ∨
  ∃ s' l', wt_objs (sy_wt (sv_y v)) !! i = Some s' ∧ sub_prefix s' = sub_prefix s ∧ at_watch (sv_st v) l' ∧
    ∀ e, in_channel s e ∨ in_loop l e ∨ in_out st e → in_channel s' e ∨ in_loop l' e ∨ in_out (sv_st v) e.

Lemma at_watch_started st l : at_watch st l → started l = true.
Proof. intros [_ _ _ _ [H _] _]. unfold started. by destruct (lp_phase l). Qed.

Lemma handed_intro s st l st' l' y' :
  at_watch st l → wt_objs (sy_wt y') !! i = Some s → st_loops st' !! j0 = Some l' → same_watch l l' →
  (∀ r, r ∈ out st → r ∈ out st') → st_sender st' = st_sender st → handed s st l (mk_server st' y').
Proof.
  intros [H1 H2 H3 H4 H5 H6] Hs Hl (E1 & E2 & E3 & E4) Ho Hse. right. right. exists s, l'.
  split_and!; [done|done|split; cbn; congruence|].
  intros e [?|[(r & last & ? & ?)|(r & ? & ?)]]; [by left|right; left|right; right].
  - exists r, last. split; [congruence|done].
  - exists r. auto.
Qed.

(** Actions that leave the watcher alone. *)
Lemma handed_ext s st l st' y :
  at_watch st l → wt_objs (sy_wt y) !! i = Some s → stream_ext st st' → handed s st l (mk_server st' y).
Proof.
  intros Hw Hs [F _ O S]. destruct (F j0 l) as (l' & Hl' & Hsame); [apply Hw|by eapply at_watch_started|].
  by eapply handed_intro.
Qed.

(** The loop itself moves to another phase. *)
Lemma handed_phase s st l st' y' s' ph :
  at_watch st l → wt_objs (sy_wt y') !! i = Some s' → sub_prefix s' = sub_prefix s →
  st_loops st' !! j0 = Some (lp_set_phase ph l) → ph ≠ LIdle ∧ ph ≠ LNew → st_sender st' = st_sender st →
  (∀ e, in_channel s e ∨ in_loop l e ∨ in_out st e → in_channel s' e ∨ in_loop (lp_set_phase ph l) e ∨ in_out st' e) →
  handed s st l (mk_server st' y').
Proof.
  intros [H1 H2 H3 H4 H5 H6] Hs Hp Hl Hph Hse He. right. right. exists s', (lp_set_phase ph l).
  split_and!; [done|done|split; cbn; (done || congruence)|done].
Qed.

(** Another loop, with another subscription, changes. *)
Lemma handed_other s st l m f y' :
  at_watch st l → m ≠ j0 → wt_objs (sy_wt y') !! i = Some s → handed s st l (mk_server (upd_loop m f st) y').
Proof. intros Hw Hne Hs. eapply handed_intro; [done|done|eapply ext_loop_other; [done|apply Hw]|done|done|done]. Qed.

Lemma cancel_sub_other m wt : m ≠ i → wt_objs (cancel_sub m wt) !! i = wt_objs wt !! i.
Proof. intros Hne. unfold cancel_sub. destruct (wt_objs wt !! m); [|done]. cbn. by rewrite list_lookup_insert_ne. Qed.

Lemma cancel_sub_same wt s : wt_objs wt !! i = Some s → ∃ s', wt_objs (cancel_sub i wt) !! i = Some s' ∧ ¬ open_sub s'.
Proof.
  intros Hs. unfold cancel_sub. rewrite Hs. exists (cancel s). cbn.
  rewrite list_lookup_insert_eq by (by eapply lookup_lt_Some). split; [done|]. by intros [? _].
Qed.

Lemma receive_other m wt : m ≠ i → wt_objs (receive m wt).2 !! i = wt_objs wt !! i.
Proof.
  intros Hne. unfold receive. destruct (wt_objs wt !! m) as [x|]; [|done]. destruct (sub_ch x); [done|]. cbn.
  by rewrite list_lookup_insert_ne.
Qed.

(** The context of a loop ends, and with it its subscription. *)
Lemma loop_cancel_objs m l' v :
  lp_sub l' ≠ Some i → wt_objs (sy_wt (sv_y (loop_cancel m l' v))) !! i = wt_objs (sy_wt (sv_y v)) !! i.
Proof.
  intros Hne. unfold loop_cancel. cbn. destruct (lp_sub l') as [x|]; [|done]. apply (cancel_sub_other x). congruence.
Qed.

Lemma handed_cancel s st l m l' y f :
  at_watch st l → wt_objs (sy_wt y) !! i = Some s → st_loops st !! m = Some l' →
  (lp_sub l' = Some i → m = j0) →
  handed s st l (mk_server (upd_loop m f st) (sv_y (loop_cancel m l' (mk_server st y)))).
Proof.
  intros Hw Hs Hm Hown. destruct (decide (lp_sub l' = Some i)) as [E|E].
  - right. left. unfold loop_cancel. cbn. rewrite E. by eapply (cancel_sub_same (sy_wt y)).
  - apply handed_other; [done| |by rewrite loop_cancel_objs].
    intros ->. pose proof (aw_loop _ _ Hw). pose proof (aw_sub _ _ Hw). congruence.
Qed.

Lemma upd_loop_compose m f g st : upd_loop m g (upd_loop m f st) = upd_loop m (g ∘ f) st.
Proof.
  unfold upd_loop, upd_loops. cbn. f_equal. apply list_eq. intros n. destruct (decide (n = m)) as [->|Hne].
  - rewrite !list_lookup_alter_eq. by destruct (st_loops st !! m).
  - by rewrite !list_lookup_alter_ne.
Qed.

Section streams.
Context `{SP : Spanner} (status_Code : error → code).

Lemma handed_return s st l m l' y :
  at_watch st l → wt_objs (sy_wt y) !! i = Some s → st_loops st !! m = Some l' → (lp_sub l' = Some i → m = j0) →
  handed s st l (loop_return m l' (mk_server st y)).
Proof.
  intros. unfold loop_return, sv_map. cbn [loop_cancel sv_st]. rewrite upd_loop_compose. by apply handed_cancel.
Qed.

Lemma loop_event_handed s st l y m :
  at_watch st l → wt_objs (sy_wt y) !! i = Some s →
  (∀ l', st_loops st !! m = Some l' → lp_sub l' = Some i → m = j0) →
  handed s st l (loop_event m (mk_server st y)).
Proof.
  intros Hw Hs Hown. assert (handed s st l (mk_server st y)) as Hsame by (apply handed_ext; [done|done|apply ext_refl]).
  unfold loop_event. cbn [sv_st sv_y]. destruct (st_loops st !! m) as [l'|] eqn:Hm; [|done].
  destruct (lp_phase l') eqn:Hph; try done. destruct (lp_sub l') as [x|] eqn:Hx; [|done].
  destruct (decide (x = i)) as [->|Hne].
  2: { destruct (receive x (sy_wt y)) as [[evs|] wt] eqn:E; [|done].
    assert (m ≠ j0) as Hmj by (intros ->; pose proof (aw_loop _ _ Hw); pose proof (aw_sub _ _ Hw); congruence).
    assert (wt_objs wt !! i = Some s) as Hi.
    { pose proof (receive_other x (sy_wt y) Hne) as Ho. rewrite E in Ho. cbn in Ho. congruence. }
    destruct evs; [destruct (compactRevision _)|]; by apply handed_other. }
  specialize (Hown l' eq_refl Hx) as ->. pose proof (aw_loop _ _ Hw) as Hl. rewrite Hm in Hl. injection Hl as ->.
  unfold receive. rewrite Hs. destruct (sub_ch s) as [|b ch] eqn:Hch; [done|].
  set (s' := mk_subscriber _ _ _ _ _).
  assert (wt_objs (set_sub i s' (sy_wt y)) !! i = Some s') as Hs'
    by (cbn; apply list_lookup_insert_eq; by eapply lookup_lt_Some).
  assert (∀ resp last, (∀ e, e ∈ b → resp_has e resp) → ∀ e,
    in_channel s e ∨ in_loop l e ∨ in_out st e →
    in_channel s' e ∨ in_loop (lp_set_phase (LSend resp last) l) e ∨ in_out (upd_loop j0 (lp_set_phase (LSend resp last)) st) e) as Hmove.
  { intros resp last Hb e [(b' & Hb' & He)|[(r & la & E & _)|Hout]].
    - rewrite Hch in Hb'. apply elem_of_cons in Hb' as [->|Hb']; [right; left; exists resp, last; auto|].
      left. by exists b'.
    - congruence.
    - right. right. done. }
  destruct b as [|ev evs]; [destruct (compactRevision _) as [c w']|].
  - eapply handed_phase; [done|exact Hs'|done|cbn; by rewrite list_lookup_alter_eq, Hm|done|done|].
    apply Hmove. by intros e ?%elem_of_nil.
  - eapply handed_phase; [done|exact Hs'|done|cbn; by rewrite list_lookup_alter_eq, Hm|done|done|].
    apply Hmove. intros e He. split; [apply Hw|]. cbn [wr_Events events_response]. by apply list_elem_of_fmap_2.
Qed.

Lemma loop_tick_handed s st l y m :
  at_watch st l → wt_objs (sy_wt y) !! i = Some s → handed s st l (loop_tick m (mk_server st y)).
Proof.
  intros Hw Hs. assert (handed s st l (mk_server st y)) as Hsame by (apply handed_ext; [done|done|apply ext_refl]).
  unfold loop_tick. cbn [sv_st sv_y]. destruct (st_loops st !! m) as [l'|] eqn:Hm; [|done].
  destruct (lp_phase l') eqn:Hph; try done. destruct (CurrentRevision _) as [c w'].
  destruct (decide (m = j0)) as [->|Hne]; [|by apply handed_other].
  pose proof (aw_loop _ _ Hw) as Hl. rewrite Hm in Hl. injection Hl as ->.
  eapply handed_phase; [done|exact Hs|done|cbn; by rewrite list_lookup_alter_eq, Hm|done|done|].
  intros e [?|[(r & la & E & _)|?]]; [by left|congruence|by right; right].
Qed.

Lemma loop_send_handed s st l y m :
  at_watch st l → wt_objs (sy_wt y) !! i = Some s → handed s st l (loop_send m (mk_server st y)).
Proof.
  intros Hw Hs. assert (handed s st l (mk_server st y)) as Hsame by (apply handed_ext; [done|done|apply ext_refl]).
  unfold loop_send. cbn [sv_st sv_y]. destruct (st_loops st !! m) as [l'|] eqn:Hm; [|done].
  destruct (lp_phase l') as [| | |r last| |] eqn:Hph; try done. case_bool; [|done]. unfold sv_map. cbn [sv_st sv_y].
  destruct (decide (m = j0)) as [->|Hne].
  2: { eapply handed_intro; [done|done|eapply ext_loop_other; [done|apply Hw]|done| |done].
    intros x Hx. by apply (se_out _ _ (ext_push r st)). }
  pose proof (aw_loop _ _ Hw) as Hl. rewrite Hm in Hl. injection Hl as ->.
  eapply handed_phase; [done|exact Hs|done|cbn; by rewrite list_lookup_alter_eq, Hm|by destruct last|done|].
  intros e [?|[(r' & la & E & He)|(x & Hx & He)]]; [by left|right; right..].
  - rewrite Hph in E. injection E as <- <-. exists r. split; [|done]. unfold out. cbn. rewrite !elem_of_app.
    right. right. by apply list_elem_of_singleton.
  - exists x. split; [|done]. by apply (se_out _ _ (ext_push r st)).
Qed.

Lemma loop_start_handed s st l y m :
  at_watch st l → wt_objs (sy_wt y) !! i = Some s → handed s st l (loop_start m (mk_server st y)).
Proof.
  intros Hw Hs. assert (handed s st l (mk_server st y)) as Hsame by (apply handed_ext; [done|done|apply ext_refl]).
  unfold loop_start. cbn [sv_st sv_y]. destruct (st_loops st !! m) as [l'|] eqn:Hm; [|done].
  destruct (lp_phase l') eqn:Hph; try done. cbn [subscribe].
  assert (m ≠ j0) as Hne. { intros ->. destruct Hw as [Hl _ _ _ [_ Hp] _]. congruence. }
  assert ((wt_objs (sy_wt y) ++ [mk_subscriber (lp_prefix l') [] false false (PStart (lp_startRev l'))]) !! i = Some s)
    as Hi by by apply lookup_app_l_Some.
  case_bool; apply handed_other; try done. unfold with_wt, sy_wt at 1. cbn [sy_v vs_watcher].
  rewrite cancel_sub_other; [done|]. apply lookup_lt_Some in Hs. lia.
Qed.

Lemma stream_handed s st l y v :
  stream_step status_Code (mk_server st y) v → stream_ok st → at_watch st l → wt_objs (sy_wt y) !! i = Some s →
  (∀ j l', st_loops st !! j = Some l' → lp_sub l' = Some i → j = j0) → handed s st l v.
Proof.
  intros Hstep Hok Hw Hs Hown.
  assert (handed s st l (mk_server st y)) as Hsame by (apply handed_ext; [done|done|apply ext_refl]).
  destruct Hstep; unfold sv_map; cbn [sv_st sv_y].
  - apply handed_ext; [done|done|apply ext_ctx_done].
  - apply handed_ext; [done|done|apply ext_send_error].
  - apply handed_ext; [done|done|apply ext_cancelled].
  - apply handed_ext; [done|done|apply ext_request].
  - apply handed_ext; [done|done|by apply ext_main_send].
  - unfold sender_send. rewrite (aw_sender _ _ Hw). destruct (st_respCh st) as [|r rest] eqn:Hr; [done|].
    destruct err as [e|]; [by left|]. apply (handed_intro s st l _ l); [done|done|apply Hw|done| |cbn; by rewrite (aw_sender _ _ Hw)].
    intros x. unfold out. cbn. by rewrite Hr, <-app_assoc.
  - unfold sender_done. destruct (st_ctx st) eqn:E.
    + left. cbn. by rewrite andb_false_r.
    + apply (handed_intro s st l _ l); [done|done|apply Hw|done|done|]. cbn. by rewrite andb_true_r.
  - apply handed_ext; [done|done|apply ext_recv].
  - apply handed_ext; [done|done|by apply ext_same].
  - by apply loop_start_handed.
  - apply loop_event_handed; [done|done|]. intros l' Hl'. by apply Hown.
  - by apply loop_tick_handed.
  - by apply loop_send_handed.
  - unfold loop_ctx_done. cbn [sv_st]. destruct (st_loops st !! i0) as [l'|] eqn:Hm; [|done]. case_bool; [|done].
    assert (i0 ≠ j0) as Hne. { intros ->. destruct Hw as [Hl _ _ Hc _ _]. congruence. }
    destruct (lp_phase l') as [| | |r last| |]; try done; [|case_bool; [by apply handed_other|]];
      (apply handed_return; [done|done|done|by apply Hown]).
  - unfold loop_notify. cbn [sv_st]. destruct (st_loops st !! i0) as [l'|] eqn:Hm; [|done].
    destruct (lp_phase l'); try done. unfold sv_map. cbn [sv_st sv_y]. case_bool; [|apply handed_return; [done|done|done|by apply Hown]].
    destruct Hw as [? ? ? ? ? ?]. apply (handed_return s (set_cancelledCh _ st) l i0 l' y); [by split|done|done|by apply Hown].
  - unfold forward_watchCtx, sv_map. cbn [sv_st sv_y]. case_bool; [|done]. apply handed_ext; [done|done|apply ext_cancel_watch].
  - unfold forward_ctx. cbn [sv_st]. destruct (st_loops st !! i0) as [l'|] eqn:Hm; [|done]. case_bool; [|done].
    apply handed_cancel; [done|done|done|by apply Hown].
Qed.

(** No loop is given a subscription that exists already. *)
Lemma stream_owner st y v j l' :
  stream_step status_Code (mk_server st y) v → stream_ok st → is_Some (wt_objs (sy_wt y) !! i) →
  st_loops (sv_st v) !! j = Some l' → lp_sub l' = Some i → ∃ l, st_loops st !! j = Some l ∧ lp_sub l = Some i.
Proof.
  intros Hstep Hok Hi Hl Hsub.
  assert (∀ m f, (∀ l, st_loops st !! m = Some l → lp_sub (f l) = Some i → lp_sub l = Some i) →
    st_loops (upd_loop m f st) !! j = Some l' → ∃ l, st_loops st !! j = Some l ∧ lp_sub l = Some i) as Hupd.
  { intros m f Hf. cbn. intros [(-> & l0 & Hl0 & ->)|[_ ?]]%lookup_alter_inv; eauto. }
  assert (∀ m l0 y0, st_loops (sv_st (loop_return m l0 (mk_server st y0))) !! j = Some l' →
    ∃ l, st_loops st !! j = Some l ∧ lp_sub l = Some i) as Hret.
  { intros m l0 y0. unfold loop_return, sv_map. cbn [loop_cancel sv_st]. rewrite upd_loop_compose. by apply Hupd. }
  destruct Hstep; unfold sv_map in Hl; cbn [sv_st sv_y] in Hl; try (by exists l').
  - by eapply se_bwd; [apply ext_ctx_done|..].
  - by eapply se_bwd; [apply ext_send_error|..].
  - by eapply se_bwd; [apply ext_cancelled|..].
  - by eapply se_bwd; [apply ext_request|..].
  - by eapply se_bwd; [apply ext_main_send|..].
  - unfold sender_send in Hl. destruct (st_sender st); [|by exists l']. destruct (st_respCh st); [by exists l'|].
    destruct err; by exists l'.
  - by eapply se_bwd; [apply ext_recv|..].
  - unfold loop_start in Hl. cbn [sv_st sv_y] in Hl. destruct (st_loops st !! i0) as [l0|] eqn:Hl0; [|by exists l'].
    destruct (lp_phase l0); try (by exists l'). revert Hl. cbn [subscribe sv_st]. apply Hupd. intros l _ [= E].
    apply lookup_lt_is_Some_1 in Hi. lia.
  - unfold loop_event in Hl. cbn [sv_st sv_y] in Hl. destruct (st_loops st !! i0) as [l0|]; [|by exists l'].
    destruct (lp_phase l0); try (by exists l'). destruct (lp_sub l0); [|by exists l'].
    destruct (receive _ _) as [[[|ev evs]|] wt]; [destruct (compactRevision _)| |by exists l']; revert Hl; by apply Hupd.
  - unfold loop_tick in Hl. cbn [sv_st sv_y] in Hl. destruct (st_loops st !! i0) as [l0|]; [|by exists l'].
    destruct (lp_phase l0); try (by exists l'). destruct (CurrentRevision _). revert Hl. by apply Hupd.
  - unfold loop_send in Hl. cbn [sv_st sv_y] in Hl. destruct (st_loops st !! i0) as [l0|]; [|by exists l'].
    destruct (lp_phase l0); try (by exists l'). case_match; [|by exists l']. revert Hl. by apply Hupd.
  - unfold loop_ctx_done in Hl. cbn [sv_st sv_y] in Hl. destruct (st_loops st !! i0) as [l0|]; [|by exists l'].
    case_match; [|by exists l']. destruct (lp_phase l0) as [| | |r last| |]; try (by exists l'); [by eapply Hret|].
    destruct last; [revert Hl; by apply Hupd|by eapply Hret].
  - unfold loop_notify in Hl. cbn [sv_st sv_y] in Hl. destruct (st_loops st !! i0) as [l0|]; [|by exists l'].
    destruct (lp_phase l0); try (by exists l'). apply (Hret i0 l0 y). unfold sv_map in Hl. cbn [sv_st] in Hl.
    revert Hl. by case_match.
  - unfold forward_watchCtx, sv_map in Hl. cbn [sv_st] in Hl. case_match; [|by exists l']. revert Hl. by apply Hupd.
  - unfold forward_ctx in Hl. cbn [sv_st] in Hl. destruct (st_loops st !! i0) as [l0|]; [|by exists l'].
    case_match; [|by exists l']. revert Hl. cbn [loop_cancel sv_st]. by apply Hupd.
Qed.

(** A stream without the watch does not touch its subscription. *)
Lemma stream_foreign st y v s :
  stream_step status_Code (mk_server st y) v → (∀ j l, st_loops st !! j = Some l → lp_sub l ≠ Some i) →
  wt_objs (sy_wt y) !! i = Some s → wt_objs (sy_wt (sv_y v)) !! i = Some s.
Proof.
  intros Hstep Hno Hs. destruct Hstep; try done.
  - unfold loop_start. cbn [sv_st sv_y]. destruct (st_loops st !! i0) as [l|]; [|done]. destruct (lp_phase l); try done.
    cbn [subscribe]. unfold with_wt, sy_wt. cbn [sv_y sy_v vs_watcher].
    pose proof (lookup_lt_Some _ _ _ Hs) as Hlt.
    case_match; [rewrite cancel_sub_other by (unfold sy_wt in Hlt; lia)|]; by apply lookup_app_l_Some.
  - unfold loop_event. cbn [sv_st sv_y]. destruct (st_loops st !! i0) as [l|] eqn:Hl; [|done]. destruct (lp_phase l); try done.
    destruct (lp_sub l) as [x|] eqn:Hx; [|done].
    assert (x ≠ i) as Hne by (intros ->; by apply (Hno i0 l)). pose proof (receive_other x (sy_wt y) Hne) as Ho.
    destruct (receive x (sy_wt y)) as [[[|ev evs]|] wt]; cbn in Ho; rewrite Hs in Ho; [destruct (compactRevision _)|..]; done.
  - unfold loop_tick. cbn [sv_st sv_y]. destruct (st_loops st !! i0) as [l|]; [|done]. destruct (lp_phase l); try done.
    by destruct (CurrentRevision _).
  - unfold loop_send. cbn [sv_st sv_y]. by repeat case_match.
  - unfold loop_ctx_done. cbn [sv_st sv_y]. destruct (st_loops st !! i0) as [l|] eqn:Hl; [|done]. case_match; [|done].
    destruct (lp_phase l) as [| | |r [|]| |]; try done; unfold loop_return; cbn [sv_map sv_y];
      (rewrite loop_cancel_objs; [done|by eapply Hno]).
  - unfold loop_notify. cbn [sv_st sv_y]. destruct (st_loops st !! i0) as [l|] eqn:Hl; [|done].
    destruct (lp_phase l); try done. unfold loop_return. cbn [sv_map sv_y]. rewrite loop_cancel_objs; [done|by eapply Hno].
  - unfold forward_ctx. cbn [sv_st sv_y]. destruct (st_loops st !! i0) as [l|] eqn:Hl; [|done]. case_match; [|done].
    rewrite loop_cancel_objs; [done|by eapply Hno].
Qed.

Lemma stream_disp st y v : stream_step status_Code (mk_server st y) v → sy_disp (sv_y v) = sy_disp y.
Proof.
  assert (∀ m l v0, sy_disp (sv_y (loop_return m l v0)) = sy_disp (sv_y v0)) as Hret.
  { intros m l v0. unfold loop_return, loop_cancel. cbn. by destruct (lp_sub l). }
  destruct 1; try done.
  - unfold loop_start. by repeat case_match.
  - unfold loop_event. destruct (st_loops _ !! i0) as [l|]; [|done]. destruct (lp_phase l); try done.
    destruct (lp_sub l); [|done]. destruct (receive _ _) as [[[|ev evs]|] wt]; [destruct (compactRevision _)|..]; done.
  - unfold loop_tick. destruct (st_loops _ !! i0) as [l|]; [|done]. destruct (lp_phase l); try done.
    by destruct (CurrentRevision _).
  - unfold loop_send. by repeat case_match.
  - unfold loop_ctx_done. repeat case_match; try done; apply Hret.
  - unfold loop_notify. destruct (st_loops _ !! i0) as [l|]; [|done]. destruct (lp_phase l); done.
  - unfold forward_ctx. destruct (st_loops _ !! i0) as [l|]; [|done]. case_match; [|done].
    unfold loop_cancel. cbn. by destruct (lp_sub l).
Qed.

End streams.

End pipe.
