(* ===== verification/WatchComplete.v ===== *)
(** * A watch misses no write

    The invariant that ties the poll loop to one watch of a stream: every row of the log up
    to the revision the poll loop has reached, and after the one it had reached when the
    watch was registered, is on its way to the client or was sent, unless the watch is
    over or the poll loop skipped rows. *)

From Stdlib Require Import Ascii String.
From S2P Require Import Prelude Go Spanner Rows Invariant Sim StoreRead StoreWrite Reads StoreTxn StoreCompact StoreInvariant Safe KVServer KVProps Leases LeaseProps Watcher WatchProps WatchServer WatchServerProps WatchDelivery Replica ReplicaProps WatchPipeline.

Open Scope string_scope.
Open Scope list_scope.
Open Scope Z_scope.

(** ** What a poll finds, whatever happens between its statements *)

Section polled.
Context `{SP : Spanner} `{!SpannerLaws SP}.

Lemma CurrentRevision_inv w cur w1 :
  world_wf w → sp_ts (w_rpc w) < 2 ^ 63 → CurrentRevision w = (Ok cur, w1) →
  cur = current_rev (kv (seen w)) ∧ w1 = next w.
Proof using All.
  intros Hw Hc H. destruct (sp_fate (w_rpc w)) eqn:Hf.
  - rewrite (CurrentRevision_ok 0) in H; [by injection H as <- <-|done| |done].
    unfold clock_ok. by rewrite Nat.add_0_r.
  - unfold CurrentRevision, mbind, st_bind in H. by erewrite single_err in H.
Qed.

Lemma compactRevision_next w : (compactRevision w).2 = next w.
Proof. unfold compactRevision, mbind, st_bind, single. repeat case_match; by simplify_eq. Qed.

Lemma after_at_inv p rev limit cur w cur' events w' :
  world_wf w → sp_ts (w_rpc w) < 2 ^ 63 → after_at p rev limit cur w = ((cur', Ok events), w') →
  cur' = cur ∧ w' = next w ∧ events = event_of <$> q_after p (revToTS rev) limit (sp_plan (w_rpc w)) (seen w).
Proof using All.
  intros Hw Hc H. destruct (sp_fate (w_rpc w)) eqn:Hf.
  - rewrite after_at_ok in H; [by injection H as <- <- <-|done| |done]. unfold clock_ok. by rewrite Nat.add_0_r.
  - unfold after_at, mbind, st_bind in H. by erewrite single_err in H.
Qed.

(** A page that is not full holds every newer row of the log. *)
Lemma q_after_complete rev limit plan T db r :
  (∀ rows, plan rows ≡ₚ rows) → db_wf T db → 0 < limit →
  Z.of_nat (length (q_after "" (revToTS rev) limit plan db)) < limit →
  r ∈ kv db → rev < r_rev r → r ∈ q_after "" (revToTS rev) limit plan db.
Proof.
  intros Hp Hwf Hlim Hlen Hr Hrev.
  assert (r ∈ q_after "" (revToTS rev) 0 plan db) as Hall.
  { apply (q_after_all "" _ _ _ Hp). split_and!; [done|rewrite sql_like_prefix by done; by destruct (r_key r)|].
    pose proof (rw_rev _ _ (wf_rows _ _ Hwf r Hr)). unfold revToTS. case_bool; lia. }
  unfold q_after, limitClause, sql_limit in *. destruct (limit <=? 0) eqn:E; [bool_prop; lia|].
  rewrite length_take in Hlen. rewrite take_ge by lia. exact Hall.
Qed.

(** The revision a poll reports was current before it read the rows, so the rows it reads
    are all the rows up to it, and after its start, that the log still holds. *)
Lemma After_inv rev limit w cur events w' :
  world_wf w → sp_ts (w_rpc w') < 2 ^ 63 → 0 < limit → After "" rev limit w = ((cur, Ok events), w') →
  current_rev (kv (w_db w)) ≤ cur ≤ current_rev (kv (w_db w')) ∧
  (Z.of_nat (length events) < limit →
   ∀ r, r ∈ kv (w_db w') → rev < r_rev r → event_of r ∈ events).
Proof using All.
  intros Hw Ht Hlim H.
  assert (w_rpc w ≤ w_rpc w')%nat as Hrpc.
  { pose proof (safe_rpc _ (safe_After "" rev limit) w) as Hm. by rewrite H in Hm. }
  pose proof (sp_ts_mono _ _ Hrpc) as Htm.
  unfold After, mbind, st_bind in H. destruct (CurrentRevision w) as [[c|e] w1] eqn:E1; [|done].
  apply CurrentRevision_inv in E1 as [-> ->]; [|done|lia].
  assert (∃ w2, world_wf w2 ∧ sp_ts (w_rpc w2) < 2 ^ 63 ∧ grows (seen w) (seen w2) ∧
    after_at "" rev limit (current_rev (kv (seen w))) w2 = (cur, Ok events, w')) as (w2 & Hw2 & Hc2 & Hg2 & H2).
  { assert (∀ w2, guarantee (next w) w2 → after_at "" rev limit (current_rev (kv (seen w))) w2 = (cur, Ok events, w') →
      ∃ w2, world_wf w2 ∧ sp_ts (w_rpc w2) < 2 ^ 63 ∧ grows (seen w) (seen w2) ∧
        after_at "" rev limit (current_rev (kv (seen w))) w2 = (cur, Ok events, w')) as Hex.
    { intros w2 (Hw2 & Hr2 & Hl2) H2.
      assert (w_rpc w2 ≤ w_rpc w')%nat as Hle.
      { pose proof (after_at_guarantee "" rev limit (current_rev (kv (seen w))) w2 Hw2) as (_ & _ & Hl). by rewrite H2 in Hl. }
      pose proof (sp_ts_mono _ _ Hle). exists w2. split_and!; [done|lia| |done].
      eapply (grows_reach (sp_ts (w_rpc w2))).
      - eapply db_wf_mono; [apply (ww_db _ (next_wf _ Hw))|]. by apply sp_ts_mono.
      - eapply reach_trans; [exact Hr2|]. apply (seen_snapshot _ Hw2). }
    destruct (0 <? rev); [|apply (Hex (next w)); [by apply guarantee_refl, next_wf|done]].
    pose proof (compactRevision_next (next w)) as E2. destruct (compactRevision (next w)) as [[cr|e] w2]; [|done].
    cbn in E2. subst w2. destruct (rev <? cr); [done|].
    apply (Hex (next (next w))); [|done]. apply guarantee_read, seen_snapshot. by apply next_wf. }
  apply after_at_inv in H2 as (-> & -> & ->); [|done|done]. cbn [next set_db w_db]. split.
  - split; [|apply Hg2]. eapply grows_reach; [apply Hw|apply (seen_snapshot _ Hw)].
  - rewrite length_fmap. intros Hlen r Hr Hrev. apply list_elem_of_fmap_2.
    eapply q_after_complete; [apply law_plan|apply (snap_wf _ _ _ (seen_snapshot _ Hw2))|done|done|done|done].
Qed.

Lemma current_rev_pos rows T db : db_wf T db → rows = kv db → 0 < current_rev rows.
Proof.
  intros Hwf ->. destruct (current_rev_max (kv db)) as [->|(r & Hr & <-)]; [lia|].
  pose proof (rw_rev _ _ (wf_rows _ _ Hwf r Hr)). lia.
Qed.

(** The revision a read reports is one the log has reached. *)
Lemma CurrentRevision_low w :
  world_wf w → sp_ts (w_rpc (CurrentRevision w).2) < 2 ^ 63 →
  or_zero (CurrentRevision w).1 ≤ current_rev (kv (w_db (CurrentRevision w).2)).
Proof using All.
  intros Hw Ht. pose proof (safe_guarantee _ safe_CurrentRevision w Hw Ht) as (Hw' & _ & Hl).
  pose proof (sp_ts_mono _ _ Hl).
  destruct (CurrentRevision w) as [[cur|e] w1] eqn:E; cbn in *.
  - apply CurrentRevision_inv in E as [-> ->]; [done|done|lia].
  - pose proof (current_rev_pos _ _ _ (ww_db _ Hw') eq_refl). lia.
Qed.

Lemma After_low rev limit w cur res w' :
  world_wf w → sp_ts (w_rpc w') < 2 ^ 63 → After "" rev limit w = ((cur, res), w') → cur ≤ current_rev (kv (w_db w')).
Proof using All.
  intros Hw Ht H. pose proof (safe_guarantee _ (safe_After "" rev limit) w Hw) as Hg. rewrite H in Hg. cbn in Hg.
  destruct (Hg Ht) as (Hw' & _ & Hl). pose proof (sp_ts_mono _ _ Hl) as Htm.
  pose proof (current_rev_pos _ _ _ (ww_db _ Hw') eq_refl) as Hpos.
  unfold After, mbind, st_bind in H. destruct (CurrentRevision w) as [[c|e] w1] eqn:E1; [|injection H as <- <- <-; lia].
  apply CurrentRevision_inv in E1 as [-> ->]; [|done|lia].
  assert (∀ w2, guarantee (next w) w2 → grows (seen w) (w_db w2)) as Hgr.
  { intros w2 (_ & Hr2 & Hl2). eapply grows_reach; [|exact Hr2].
    eapply db_wf_mono; [apply (ww_db _ (next_wf _ Hw))|]. by apply sp_ts_mono. }
  assert (∀ w2, guarantee (next w) w2 → after_at "" rev limit (current_rev (kv (seen w))) w2 = (cur, res, w') →
    cur ≤ current_rev (kv (w_db w'))) as Hat.
  { intros w2 Hg2 H2. pose proof (after_at_guarantee "" rev limit (current_rev (kv (seen w))) w2 (proj1 Hg2)) as Hg3.
    rewrite H2 in Hg3. cbn in Hg3. pose proof (proj1 (Hgr _ (guarantee_trans _ _ _ Hg2 Hg3))) as Hc.
    unfold after_at, mbind, st_bind in H2. destruct (single _ w2) as [[rows|e] w3]; [|injection H2 as <- <- <-; lia].
    destruct (scanAll rows); injection H2 as <- <- <-; lia. }
  destruct (0 <? rev); [|apply (Hat (next w)); [by apply guarantee_refl, next_wf|done]].
  pose proof (compactRevision_next (next w)) as E2. destruct (compactRevision (next w)) as [[cr|e] w2]; cbn in E2; subst w2;
    [|injection H as <- <- <-; lia].
  assert (guarantee (next w) (next (next w))) as Hg2 by (apply guarantee_read, seen_snapshot; by apply next_wf).
  destruct (rev <? cr); [|by apply (Hat (next (next w)))]. injection H as <- <- <-. apply (Hgr _ Hg2).
Qed.

End polled.

(** ** The invariant *)

(** The revision up to which the poll loop has handed rows to its dispatchers. *)
Definition horizon (r : replica) : Z :=
  match rp_poll r with PlDispatch cur _ => cur | _ => wt_lastRev (rp_wt r) end.

(** The poll loop is not ahead of the log. *)
Definition poll_low (r : replica) : Prop :=
  horizon r ≤ current_rev (kv (rp_db r)) ∧
  match rp_poll r with PlFetched cur _ => cur ≤ current_rev (kv (rp_db r)) | _ => True end.

(** The poll loop runs, is not ahead of the log, and the events it holds are all of them. *)
Record poll_inv (r : replica) : Prop := mk_poll_inv {
  pi_running : rp_poll r ≠ PlInit;
  pi_horizon : horizon r ≤ current_rev (kv (rp_db r));
  pi_fetched : match rp_poll r with
               | PlFetched cur events =>
                   cur ≤ current_rev (kv (rp_db r)) ∧
                   ∀ x, x ∈ kv (rp_db r) → wt_lastRev (rp_wt r) < r_rev x ≤ cur → event_of x ∈ events
               | _ => True
               end;
}.

(** The steps of the watcher do not assign [lastRev]. *)
Lemma watch_step_lastRev `{SP : Spanner} y y' : watch_step y y' → wt_lastRev (sy_wt y') = wt_lastRev (sy_wt y).
Proof.
  destruct 1; unfold sy_wt; cbn [with_wt sy_v vs_watcher]; try done.
  - destruct (sy_v y) as [w wt]. unfold replay_step. cbn [vs_watcher]. destruct (wt_objs wt !! i) as [s|]; [|done].
    destruct (sub_phase s); try done.
    + case_bool; [done|]. destruct (compactRevision w) as [[c|e] w']; [by case_bool|done].
    + destruct (After _ _ _ w) as [[cur [[|ev evs]|e]] w']; done.
    + by case_bool.
    + by destruct (sub_ch s).
    + by case_bool.
  - unfold replay_done. by repeat case_match.
  - unfold sentinel_timeout. by repeat case_match.
  - unfold cancel_sub. by case_match.
  - unfold receive. by repeat case_match.
  - destruct d as [evs [|n todo] [x|]]; cbn; try done; by case_match.
Qed.

Section complete.
Context `{SP : Spanner} `{!SpannerLaws SP} `{G : Grpc} (status_Code : error → code).
Context (i k0 j0 : nat) (p : string) (id : Z) (gaps : nat).

(** The watch is loop [j0] of stream [k0], with subscription [i]. *)
Record watching (r : replica) (s : subscriber) (st : stream) (l : loop) : Prop := mk_watching {
  wa_sub : wt_objs (rp_wt r) !! i = Some s;
  wa_prefix : sub_prefix s = p;
  wa_open : open_sub s;
  wa_stream : rp_streams r !! k0 = Some st;
  wa_watch : at_watch i j0 id st l;
}.

Definition owner (r : replica) : Prop :=
  ∀ k st j l, rp_streams r !! k = Some st → st_loops st !! j = Some l → lp_sub l = Some i → k = k0 ∧ j = j0.

(** The watch is over, or the poll loop has skipped rows. *)
Definition dropped (r : replica) : Prop :=
  (gaps < rp_gaps r)%nat ∨ (∃ s, wt_objs (rp_wt r) !! i = Some s ∧ ¬ open_sub s) ∨
  ∃ st, rp_streams r !! k0 = Some st ∧ st_sender st = false.

(** Held by a dispatcher, by the channel, by the loop, queued or sent. *)
Definition under_way (r : replica) (s : subscriber) (st : stream) (l : loop) (e : Event) : Prop :=
  in_dispatch i (sy_disp (rp_sys r)) e ∨ in_channel s e ∨ in_loop id l e ∨ in_out id st e.

(** *** It is never revived *)

Lemma stream_sender st y v :
  stream_step status_Code (mk_server st y) v → stream_ok st → st_sender st = false → st_sender (sv_st v) = false.
Proof.
  intros Hs Hok Hf. destruct Hs; unfold sv_map; cbn [sv_st sv_y].
  - by rewrite (se_sender _ _ (ext_ctx_done _ _)).
  - by rewrite (se_sender _ _ (ext_send_error _ _)).
  - by rewrite (se_sender _ _ (ext_cancelled _)).
  - by rewrite (se_sender _ _ (ext_request _ _)).
  - by rewrite (se_sender _ _ (ext_main_send _ Hok)).
  - unfold sender_send. by rewrite Hf.
  - cbn. by rewrite Hf.
  - by rewrite (se_sender _ _ (ext_recv _ _)).
  - done.
  - unfold loop_start. by repeat case_match.
  - unfold loop_event. repeat case_match; done.
  - unfold loop_tick. by repeat case_match.
  - unfold loop_send. by repeat case_match.
  - unfold loop_ctx_done. by repeat case_match.
  - unfold loop_notify. cbn [sv_st]. destruct (st_loops st !! i0) as [l|]; [|done]. destruct (lp_phase l); try done.
    cbn. by case_match.
  - unfold forward_watchCtx, sv_map. cbn [sv_st]. by case_match.
  - unfold forward_ctx. by repeat case_match.
Qed.

Lemma poll_query_gaps r : (rp_gaps r ≤ rp_gaps (poll_query r))%nat.
Proof.
  unfold poll_query. destruct (rp_poll r); try done.
  destruct (After _ _ _ _) as [[cur [evs|e]] w]; [cbn; lia|]. case_bool; cbn; lia.
Qed.

Lemma step_gaps r r' : replica_step status_Code r r' → (rp_gaps r ≤ rp_gaps r')%nat.
Proof.
  destruct 1; try done.
  - unfold poll_begin. destruct (rp_poll r); try done. by destruct (CurrentRevision _).
  - apply poll_query_gaps.
  - unfold poll_wake. destruct (rp_poll r); try done. destruct (w_notify _) as [|h rest]; [done|].
    case_bool; [|done]. etrans; [|apply poll_query_gaps]. done.
  - unfold poll_copy. by destruct (rp_poll r).
  - unfold poll_finish. by repeat case_match.
  - unfold dispatch_at. by destruct (_ !! k).
Qed.

Lemma step_dropped r r' : replica_ok r → replica_step status_Code r r' → dropped r → dropped r'.
Proof.
  intros Hok Hs [H|[(s & Hi & Ho)|(st & Hst & Hse)]].
  - left. pose proof (step_gaps _ _ Hs). lia.
  - right. left. destruct (sys_steps_flags _ _ (replica_step_sys status_Code _ _ Hs) _ _ Hi) as (s' & Hs' & Hf).
    exists s'. split; [done|]. by eapply not_open_le.
  - right. right. destruct (replica_step_parts status_Code r r' Hs (ro_lm _ Hok)) as [_ [E|[[E _]|(k & st0 & v & H0 & Hv & E & _)]]]; rewrite E.
    + by exists st.
    + exists st. split; [by apply lookup_app_l_Some|done].
    + destruct (decide (k = k0)) as [->|Hne]; [|exists st; by rewrite list_lookup_insert_ne].
      exists (sv_st v). rewrite list_lookup_insert_eq by (by eapply lookup_lt_Some). split; [done|].
      simplify_eq. eapply stream_sender; [exact Hv|by apply (ro_streams _ Hok k0)|done].
Qed.

Lemma step_owner r r' :
  replica_ok r → replica_step status_Code r r' → is_Some (wt_objs (rp_wt r) !! i) → owner r → owner r'.
Proof.
  intros Hok Hs Hi Hown k st j l Hk Hl Hsub.
  destruct (replica_step_parts status_Code r r' Hs (ro_lm _ Hok)) as [_ [E|[[E _]|(k1 & st1 & v & H1 & Hv & E & _)]]]; rewrite E in Hk.
  - eauto.
  - apply lookup_app_Some in Hk as [Hk|[_ Hk]]; [eauto|]. apply list_lookup_singleton_Some in Hk as [_ <-]. done.
  - apply list_lookup_insert_Some in Hk as [(-> & <- & _)|[_ Hk]]; [|eauto].
    destruct (stream_owner i status_Code st1 (rp_sys r) v j l Hv) as (l0 & Hl0 & Hs0); [by apply (ro_streams _ Hok k)|done..|].
    eauto.
Qed.

(** *** Every action passes rows on *)

Lemma transport_passes r r' s st l :
  passes i p (rp_sys r) (rp_sys r') → rp_streams r' !! k0 = Some st → watching r s st l →
  dropped r' ∨ ∃ s' st' l', watching r' s' st' l' ∧
    ∀ e, prefix_matches p e = true → under_way r s st l e → under_way r' s' st' l' e.
Proof.
  intros Hp Hst [H1 H2 H3 H4 H5]. destruct (Hp s H1 H2 H3) as (s' & Hs' & Hp' & He).
  assert (open_sub s' ∨ ¬ open_sub s') as [Ho|Ho].
  { unfold open_sub. destruct (sub_cancelled s'), (sub_closed s'); naive_solver. }
  - right. exists s', st, l. split; [by split|]. intros e Hm Hu. unfold under_way in *.
    destruct Hu as [Hd|[Hc|Hr]]; [destruct (He Ho e Hm (or_introl Hd))|destruct (He Ho e Hm (or_intror Hc))|]; auto.
  - left. right. left. by exists s'.
Qed.

Lemma step_transport r r' s st l :
  replica_ok r → owner r → watching r s st l → replica_step status_Code r r' →
  dropped r' ∨ ∃ s' st' l', watching r' s' st' l' ∧
    ∀ e, prefix_matches p e = true → under_way r s st l e → under_way r' s' st' l' e.
Proof.
  intros Hok Hown Hw Hs. pose proof (wa_stream _ _ _ _ Hw) as Hst.
  assert (∀ r', wt_objs (rp_wt r') = wt_objs (rp_wt r) → sy_disp (rp_sys r') = sy_disp (rp_sys r) →
    rp_streams r' = rp_streams r → dropped r' ∨ ∃ s' st' l', watching r' s' st' l' ∧
    ∀ e, prefix_matches p e = true → under_way r s st l e → under_way r' s' st' l' e) as Hsame.
  { intros r0 Ho Hd Hstr. eapply transport_passes; [|by rewrite Hstr|done]. apply passes_same; [by unfold rp_wt in Ho; rewrite Ho|].
    by rewrite Hd. }
  assert (∀ r0, wt_objs (rp_wt (poll_query r0)) = wt_objs (rp_wt r0) ∧ sy_disp (rp_sys (poll_query r0)) = sy_disp (rp_sys r0))
    as Hq.
  { intros r0. unfold poll_query. destruct (rp_poll r0); try done.
    destruct (After _ _ _ _) as [[cur [evs|e]] w]; [done|by case_bool]. }
  destruct Hs; try (by apply Hsame).
  - unfold poll_begin. destruct (rp_poll r); try (by apply Hsame). destruct (CurrentRevision _). by apply Hsame.
  - destruct (Hq r) as [??]. apply Hsame; [done|done|apply poll_query_parts].
  - unfold poll_wake. destruct (rp_poll r); try (by apply Hsame). destruct (w_notify _); [by apply Hsame|].
    case_bool; [|by apply Hsame]. match goal with |- context [poll_query ?x] => destruct (Hq x) as [??]; destruct (poll_query_parts x) end.
    by apply Hsame.
  - unfold poll_copy. destruct (rp_poll r); try (by apply Hsame). eapply transport_passes; [|done|done].
    apply passes_same; [done|]. intros d Hd. apply elem_of_app. by left.
  - unfold poll_finish. repeat case_match; by apply Hsame.
  - eapply transport_passes; [|done|done]. apply passes_same; [done|]. intros d Hd. apply elem_of_app. by left.
  - unfold dispatch_at. destruct (sy_disp (rp_sys r) !! k) as [d|] eqn:Hd; [|by apply Hsame].
    eapply transport_passes; [|done|done]. by apply passes_dispatch.
  - eapply transport_passes; [|done|done]. apply passes_replay, Hok.
  - eapply transport_passes; [|done|done]. apply passes_done.
  - eapply transport_passes; [|done|done]. apply passes_timeout.
  - eapply transport_passes; [|by apply lookup_app_l_Some|done]. by apply passes_same.
  - destruct Hw as [H1 H2 H3 _ H5]. pose proof (stream_disp status_Code _ _ _ H0) as Ed.
    destruct (decide (k = k0)) as [->|Hne].
    + assert (rp_streams (on_stream k0 v r) !! k0 = Some (sv_st v)) as Hst'
        by (cbn; apply list_lookup_insert_eq; by eapply lookup_lt_Some).
      assert (st0 = st) as -> by congruence. destruct (stream_handed i j0 id status_Code s st l (rp_sys r) v H0) as [Hse|[(s' & Hs' & Ho)|(s' & l' & Hs' & Hp' & Hat & He)]];
        [by apply (ro_streams _ Hok k0)|done|done|by intros j x Hx Hxs; eapply Hown|..].
      * left. right. right. by exists (sv_st v).
      * left. right. left. by exists s'.
      * assert (open_sub s' ∨ ¬ open_sub s') as [Ho|Ho].
        { unfold open_sub. destruct (sub_cancelled s'), (sub_closed s'); naive_solver. }
        -- right. exists s', (sv_st v), l'. split; [split; [done|congruence|done|done|done]|].
           intros e _ [Hd|Hr]; [left; cbn; by rewrite Ed|right; by apply He].
        -- left. right. left. by exists s'.
    + right. exists s, st, l. split; [split; [|done..|by cbn; rewrite list_lookup_insert_ne|done]|].
      * eapply (stream_foreign i status_Code st0 (rp_sys r)); [done| |done]. intros j x Hx Hxs. by destruct (Hown k st0 j x).
      * intros e _ [Hd|Hr]; [left; cbn; by rewrite Ed|by right].
Qed.

(** *** The poll loop *)

(** Rows up to a revision the log had reached are not added any more. *)
Lemma grows_old db db' x c :
  grows db db' → c ≤ current_rev (kv db) → x ∈ kv db' → r_rev x ≤ c → x ∈ kv db.
Proof. intros [_ Hg] Hc Hx Hr. destruct (Hg x Hx); [done|lia]. Qed.

Lemma poll_frame r r' :
  rp_poll r' = rp_poll r → wt_lastRev (rp_wt r') = wt_lastRev (rp_wt r) → grows (rp_db r) (rp_db r') →
  poll_inv r → poll_inv r' ∧ horizon r' = horizon r.
Proof.
  intros Ep El Hg [H1 H2 H3]. pose proof (proj1 Hg) as Hc.
  assert (horizon r' = horizon r) as Eh by (unfold horizon; by rewrite Ep, El).
  split; [|done]. split; [congruence|lia|]. rewrite Ep. destruct (rp_poll r) as [| |cur events|]; try done.
  destruct H3 as [H3 H4]. split; [lia|]. rewrite El. intros x Hx Hr. apply H4; [|done].
  eapply grows_old; [done|exact H3|done|lia].
Qed.

Lemma poll_query_inv r :
  world_wf (rp_store r) → sp_ts (w_rpc (rp_store (poll_query r))) < 2 ^ 63 → grows (rp_db r) (rp_db (poll_query r)) →
  poll_inv r → rp_gaps (poll_query r) = rp_gaps r → poll_inv (poll_query r) ∧ horizon (poll_query r) = horizon r.
Proof using SpannerLaws0.
  intros Hw Ht Hg Hp Hgap. destruct (rp_poll r) eqn:E; try (unfold poll_query in *; rewrite E in *; by split).
  revert Ht Hg Hgap. unfold poll_query. rewrite E. destruct (After _ _ _ _) as [[cur [events|e]] w'] eqn:HA.
  - cbn. intros Ht Hg Hgap. destruct (Z.of_nat (length events) <? pollBatchSize) eqn:El; [|cbn in Hgap; lia]. bool_prop.
    destruct (After_inv (wt_lastRev (rp_wt r)) pollBatchSize _ _ _ _ Hw Ht eq_refl HA) as [Hcur Hall].
    destruct Hp as [_ Hh _]. unfold horizon in *. rewrite E in Hh |- *. cbn. unfold rp_db, rp_store in *. cbn in *.
    split; [|done]. split; [done|change (wt_lastRev (rp_wt r) ≤ current_rev (kv (w_db w'))); lia|]. unfold rp_db, rp_store. cbn. split; [lia|]. intros x Hx [Hx1 Hx2]. by apply Hall.
  - case_bool; [cbn; lia|]. intros Ht Hg Hgap. apply (poll_frame r); [by rewrite E|done|done|done].
Qed.

Lemma step_poll r r' :
  world_wf (rp_store r) → sp_ts (w_rpc (rp_store r')) < 2 ^ 63 → guarantee (rp_store r) (rp_store r') →
  poll_inv r → replica_step status_Code r r' → rp_gaps r' = rp_gaps r →
  poll_inv r' ∧ (horizon r' = horizon r ∨ ∃ cur events, rp_poll r = PlFetched cur events ∧ r' = poll_copy r).
Proof using SpannerLaws0.
  intros Hw Ht (_ & Hr & Hl) Hp Hs Hgap.
  assert (grows (rp_db r) (rp_db r')) as Hg.
  { eapply grows_reach; [|exact Hr]. eapply db_wf_mono; [apply Hw|]. by apply sp_ts_mono. }
  assert (∀ r', rp_poll r' = rp_poll r → wt_lastRev (rp_wt r') = wt_lastRev (rp_wt r) → grows (rp_db r) (rp_db r') →
    poll_inv r' ∧ (horizon r' = horizon r ∨ ∃ cur events, rp_poll r = PlFetched cur events ∧ r' = poll_copy r)) as Hf.
  { intros r0 E1 E2 E3. destruct (poll_frame r r0 E1 E2 E3 Hp). auto. }
  assert (∀ v v', rtc watch_step v v' → wt_lastRev (sy_wt v') = wt_lastRev (sy_wt v)) as Hrev.
  { induction 1 as [|y1 y2 y3 Hy _ IH]; [done|]. rewrite IH. by apply watch_step_lastRev. }
  destruct Hs; try (by apply Hf).
  - unfold poll_begin in *. destruct (rp_poll r) eqn:E; [by destruct (pi_running _ Hp)|..]; by apply Hf.
  - destruct (poll_query_inv r Hw Ht Hg Hp Hgap). auto.
  - revert Ht Hr Hl Hgap Hg. unfold poll_wake. destruct (rp_poll r) eqn:E; try (intros; by apply Hf).
    destruct (w_notify (rp_store r)) as [|h rest]; [intros; by apply Hf|].
    set (r1 := on_store _ r).
    assert (poll_inv r1 ∧ horizon r1 = horizon r) as [Hp1 Hh1]
      by (apply poll_frame; [done|done|by split; [|left]|done]).
    case_bool; [|intros; apply Hf; done]. intros Ht Hr Hl Hgap Hg.
    destruct (poll_query_inv r1) as [? Hh]; [by destruct Hw; split|done|done|done|done|]. split; [done|left; congruence].
  - unfold poll_copy in *. destruct (rp_poll r) as [| |cur events|] eqn:E; try (by apply Hf).
    split; [|right; exists cur, events; done]. destruct Hp as [_ _ H3]. rewrite E in H3. split; [done|apply H3|done].
  - unfold poll_finish in *. destruct (rp_poll r) as [| | |cur k] eqn:E; try (by apply Hf).
    destruct (sy_disp (rp_sys r) !! k) as [[evs [|n todo] [x|]]|]; try (by apply Hf).
    destruct Hp as [_ H2 _]. unfold horizon in *. rewrite E in *. split; [|by left]. split; [done|exact H2|done].
  - unfold dispatch_at in *. destruct (sy_disp (rp_sys r) !! k) as [d|] eqn:Hd; [|by apply Hf].
    apply Hf; [done| |done]. apply (Hrev (rp_sys r)). apply rtc_once. by apply step_dispatch.
  - apply Hf; [done| |done]. apply (Hrev (rp_sys r)), rtc_once, step_replay.
  - apply Hf; [done| |done]. apply (Hrev (rp_sys r)), rtc_once, step_done.
  - apply Hf; [done| |done]. apply (Hrev (rp_sys r)), rtc_once, step_timeout.
  - apply Hf; [done| |done]. by eapply (Hrev (rp_sys r)), (stream_step_sys status_Code (mk_server st (rp_sys r))).
Qed.

(** It is never ahead of the log. *)
Lemma low_frame r r' :
  rp_poll r' = rp_poll r → wt_lastRev (rp_wt r') = wt_lastRev (rp_wt r) → grows (rp_db r) (rp_db r') →
  poll_low r → poll_low r'.
Proof.
  intros Ep El [Hc _] [H1 H2]. unfold poll_low, horizon in *. rewrite Ep, El. split; [lia|].
  destruct (rp_poll r); try done. lia.
Qed.

Lemma poll_query_low r :
  world_wf (rp_store r) → sp_ts (w_rpc (rp_store (poll_query r))) < 2 ^ 63 → grows (rp_db r) (rp_db (poll_query r)) →
  poll_low r → poll_low (poll_query r).
Proof using SpannerLaws0.
  intros Hw Ht Hg Hp. destruct (rp_poll r) eqn:E; try (unfold poll_query in *; by rewrite E in *).
  revert Ht Hg. unfold poll_query. rewrite E. destruct (After _ _ _ _) as [[cur res] w'] eqn:HA.
  destruct res as [events|e]; [|case_bool]; intros Ht Hg; pose proof (After_low _ _ _ _ _ _ Hw Ht HA) as Hcur.
  - destruct Hp as [Hh _], Hg as [Hc _]. unfold poll_low, horizon in *. rewrite E in Hh. split; [|exact Hcur].
    cbn. change (wt_lastRev (rp_wt r) ≤ current_rev (kv (w_db w'))). unfold rp_db, rp_store in *. cbn in *. lia.
  - unfold poll_low, horizon. cbn. by rewrite E.
  - by apply (low_frame r); [rewrite E|..].
Qed.

Lemma step_low r r' :
  world_wf (rp_store r) → sp_ts (w_rpc (rp_store r')) < 2 ^ 63 → guarantee (rp_store r) (rp_store r') →
  replica_step status_Code r r' → poll_low r → poll_low r'.
Proof using SpannerLaws0.
  intros Hw Ht (_ & Hr & Hl) Hs Hp.
  assert (grows (rp_db r) (rp_db r')) as Hg.
  { eapply grows_reach; [|exact Hr]. eapply db_wf_mono; [apply Hw|]. by apply sp_ts_mono. }
  assert (∀ r', rp_poll r' = rp_poll r → rtc watch_step (rp_sys r) (rp_sys r') → grows (rp_db r) (rp_db r') → poll_low r') as Hf.
  { intros r0 E1 E2 E3. eapply low_frame; [done| |done|done]. clear -E2. unfold rp_wt. induction E2 as [|y1 y2 y3 Hy _ IH]; [done|].
    rewrite IH. by apply watch_step_lastRev. }
  destruct Hs; try (by apply Hf); try (apply Hf; [done|apply set_store_steps|done]).
  - revert Ht Hr Hl Hg. unfold poll_begin. destruct (rp_poll r) eqn:E; try done. intros Ht Hr Hl Hg.
    pose proof (CurrentRevision_low (rp_store r) Hw) as Hlow. destruct (CurrentRevision (rp_store r)) as [rev w].
    unfold poll_low, horizon. cbn. split; [by apply Hlow|done].
  - by apply poll_query_low.
  - revert Ht Hr Hl Hg. unfold poll_wake. destruct (rp_poll r) eqn:E; try done.
    destruct (w_notify (rp_store r)) as [|h rest]; [done|]. set (r1 := on_store _ r).
    assert (poll_low r1) as Hp1 by (apply (low_frame r); [done|done|by split; [|left]|done]).
    case_bool; [|done]. intros Ht Hr Hl Hg. apply poll_query_low; [by destruct Hw; split|done|done|done].
  - unfold poll_copy in *. destruct (rp_poll r) eqn:E; try done. destruct Hp as [_ Hc]. rewrite E in Hc. by split.
  - unfold poll_finish in *. destruct (rp_poll r) as [| | |cur k] eqn:E; try done.
    destruct (sy_disp (rp_sys r) !! k) as [[evs [|n todo] [x|]]|]; try done.
    destruct Hp as [Hh _]. unfold poll_low, horizon in *. rewrite E in Hh. by split.
  - apply Hf; [done|apply rtc_once, step_start|done].
  - unfold dispatch_at in *. destruct (sy_disp (rp_sys r) !! k) as [d|] eqn:Hd; [|done].
    apply Hf; [done|by apply rtc_once, step_dispatch|done].
  - apply Hf; [done|apply rtc_once, step_replay|done].
  - apply Hf; [done|apply rtc_once, step_done|done].
  - apply Hf; [done|apply rtc_once, step_timeout|done].
  - apply Hf; [done| |done]. by eapply (stream_step_sys status_Code (mk_server st (rp_sys r))).
Qed.

(** *** Together *)

Context (L0 : Z).

(** Rows the poll loop has reached since the watch was registered. *)
Definition covered (r : replica) (s : subscriber) (st : stream) (l : loop) : Prop :=
  ∀ x, x ∈ kv (rp_db r) → L0 < r_rev x ≤ horizon r → prefix_matches p (event_of x) = true →
    under_way r s st l (event_of x).

Definition tracked (r : replica) : Prop :=
  owner r ∧ is_Some (wt_objs (rp_wt r) !! i) ∧
  (dropped r ∨ (gaps = rp_gaps r ∧ poll_inv r ∧ ∃ s st l, watching r s st l ∧ covered r s st l)).

Lemma step_tracked r r' :
  replica_ok r → world_wf (rp_store r) → sp_ts (w_rpc (rp_store r')) < 2 ^ 63 →
  replica_step status_Code r r' → tracked r → tracked r'.
Proof using SpannerLaws0.
  intros Hok Hw Ht Hs (Hown & Hi & H).
  destruct (replica_step_moves status_Code _ _ Hs) as [_ Hg]. specialize (Hg Hw Ht).
  split; [by eapply step_owner|]. split.
  { destruct Hi as [s Hi]. destruct (sys_steps_flags _ _ (replica_step_sys status_Code _ _ Hs) _ _ Hi) as (s' & ? & _). by exists s'. }
  destruct H as [H|(Hgap & Hp & s & st & l & Hwa & Hcov)]; [left; by eapply step_dropped|].
  destruct (step_transport _ _ _ _ _ Hok Hown Hwa Hs) as [Hd|(s' & st' & l' & Hwa' & Htr)]; [by left|].
  pose proof (step_gaps _ _ Hs) as Hle.
  destruct (decide (rp_gaps r' = rp_gaps r)) as [Eg|Hne]; [|left; left; lia]. right.
  destruct (step_poll r r' Hw Ht Hg Hp Hs Eg) as [Hp' Hh]. split_and!; [congruence|done|].
  exists s', st', l'. split; [done|].
  assert (grows (rp_db r) (rp_db r')) as Hgr.
  { destruct Hg as (_ & Hr & Hl). eapply grows_reach; [|exact Hr]. eapply db_wf_mono; [apply Hw|]. by apply sp_ts_mono. }
  intros x Hx [Hx1 Hx2] Hm.
  destruct (decide (r_rev x ≤ horizon r)) as [Hxh|Hxh].
  { apply Htr; [done|]. apply Hcov; [|done|done]. eapply grows_old; [done|apply Hp|done|done]. }
  destruct Hh as [Hh|(cur & events & Hf & ->)]; [lia|].
  destruct Hp as [_ _ H3]. unfold horizon in Hx2, Hxh. rewrite Hf in *. unfold poll_copy in *. rewrite Hf in *. cbn in Hx2.
  destruct H3 as [_ H3]. assert (event_of x ∈ events) as He by (apply H3; [done|lia]).
  assert (i ∈ wt_subscribers (rp_wt r)) as Hreg.
  { apply (wo_reg _ _ (ro_watcher _ Hok)). exists s. split; [apply Hwa|].
    pose proof (so_closed _ (wo_objs _ _ (ro_watcher _ Hok) _ _ (wa_sub _ _ _ _ Hwa))) as Hcl.
    rewrite (proj2 (wa_open _ _ _ _ Hwa)) in Hcl. by destruct (sub_phase s). }
  left. exists (dispatch_start events (rp_wt r)). cbn. split; [apply elem_of_app; right; by apply list_elem_of_singleton|].
  split; [done|]. left. destruct events; [by apply elem_of_nil in He|done].
Qed.

Lemma run_tracked r r' :
  replica_ok r → world_wf (rp_store r) → sp_ts (w_rpc (rp_store r')) < 2 ^ 63 →
  rtc (replica_step status_Code) r r' → tracked r → tracked r'.
Proof using SpannerLaws0.
  intros Hok Hw Ht Hrun. revert Hok Hw. induction Hrun as [|r1 r2 r3 Hs Hrun IH]; [done|]. intros Hok Hw H.
  destruct (replica_run_moves status_Code _ _ Hrun) as [Hm _]. pose proof (sp_ts_mono _ _ Hm).
  destruct (replica_step_moves status_Code _ _ Hs) as [_ Hg]. specialize (Hg Hw ltac:(lia)).
  apply IH; [done|by eapply replica_step_ok|apply Hg|]. eapply step_tracked; [done|done|lia|done|done].
Qed.

End complete.

(** ** The theorem *)

Section watch.
Context `{SP : Spanner} `{!SpannerLaws SP} `{G : Grpc} (status_Code : error → code).

Lemma run_low w now r :
  world_wf w → rtc (replica_step status_Code) (replica_init w now) r → sp_ts (w_rpc (rp_store r)) < 2 ^ 63 → poll_low r.
Proof using SpannerLaws0.
  intros Hw Hrun Ht.
  assert (poll_low (replica_init w now)) as H0.
  { split; [|done]. pose proof (current_rev_pos _ _ _ (ww_db _ Hw) eq_refl).
    change (0 ≤ current_rev (kv (w_db w))). lia. }
  assert (world_wf (rp_store (replica_init w now))) as Hw0 by done. clear Hw. revert H0 Hw0.
  induction Hrun as [|r1 r2 r3 Hs Hrun IH]; [done|]. intros H1 Hw1.
  destruct (replica_run_moves status_Code _ _ Hrun) as [Hm _]. pose proof (sp_ts_mono _ _ Hm).
  destruct (replica_step_moves status_Code _ _ Hs) as [_ Hg]. specialize (Hg Hw1 ltac:(lia)).
  apply IH; [done| |apply Hg]. apply (step_low status_Code r1 r2); [done|lia|done|done|done].
Qed.

(** The loop of a new watch subscribes: from here on it is tracked. *)
Lemma start_tracked r k st j l :
  replica_ok r → poll_inv r → rp_streams r !! k = Some st → st_loops st !! j = Some l →
  lp_phase l = LNew → lp_ctx l = false → st_sender st = true →
  let i := length (wt_objs (rp_wt r)) in
  tracked i k j (lp_prefix l) (lp_id l) (rp_gaps r) (horizon r) (on_stream k (loop_start j (mk_server st (rp_sys r))) r).
Proof.
  intros Hok Hp Hk Hl Hph Hc Hse. cbv zeta. set (i := length (wt_objs (rp_wt r))).
  unfold loop_start. cbn [sv_st sv_y]. rewrite Hl, Hph, Hc. cbn [subscribe].
  set (wt := mk_Watcher _ _ _). set (r' := on_stream _ _ r).
  assert (wt_objs (rp_wt r') !! i = Some (mk_subscriber (lp_prefix l) [] false false (PStart (lp_startRev l)))) as Hi
    by (by apply list_lookup_middle).
  assert (rp_streams r' !! k = Some (upd_loop j (lp_subscribed i) st)) as Hk'
    by (cbn; apply list_lookup_insert_eq; by eapply lookup_lt_Some).
  assert (st_loops (upd_loop j (lp_subscribed i) st) !! j = Some (lp_subscribed i l)) as Hl'
    by (cbn; by rewrite list_lookup_alter_eq, Hl).
  assert (∀ k1 st1 j1 l1, rp_streams r !! k1 = Some st1 → st_loops st1 !! j1 = Some l1 → lp_sub l1 ≠ Some i) as Hno.
  { intros k1 st1 j1 l1 Hk1 Hl1 Hs1. destruct (ro_streams _ Hok _ _ Hk1) as [_ Hd].
    destruct (do_loops _ Hd _ _ Hl1) as [Hg _]. destruct (Hg _ Hs1) as (s & Hs & _). apply lookup_lt_Some in Hs.
    cbn in Hs. assert (i = length (wt_objs (sy_wt (rp_sys r)))) by done. lia. }
  split_and!.
  - intros k1 st1 j1 l1 Hk1 Hl1 Hs1. cbn in Hk1. apply list_lookup_insert_Some in Hk1 as [(-> & <- & _)|[_ Hk1]].
    + cbn in Hl1. apply lookup_alter_inv in Hl1 as [(-> & _)|[_ Hl1]]; [done|]. by destruct (Hno k1 st j1 l1).
    + by destruct (Hno k1 st1 j1 l1).
  - by eexists.
  - right. split_and!; [done|..].
    + eapply (poll_frame r); [done|done|by split; [|left]|done].
    + eexists _, _, _. split; [split; [exact Hi|done|done|exact Hk'|split; [exact Hl'|done|done|done|done|done]]|].
      intros x Hx [Hx1 Hx2] _. assert (horizon r' = horizon r) as E by done. lia.
Qed.

(** A watch misses no write: from the moment the loop of a watch subscribes, in every
    interleaving of the replica with other replicas and whichever calls fail, every row of
    its prefix that the log holds between the revision the poll loop had reached then and
    the one it has reached now is held by a dispatcher, in the channel of the subscription,
    in the hands of the loop, in the queue of the stream or was sent to the client under
    the id of the watch; sent, when all of these are idle.  The exceptions are those the
    code reports or causes itself: the subscription was cancelled or closed, the stream
    cannot send any more, or a poll in between found more rows than its limit or its start
    compacted. *)
Theorem watch_misses_nothing w now r0 k st0 j l0 r :
  world_wf w → rtc (replica_step status_Code) (replica_init w now) r0 →
  rp_poll r0 = PlIdle ∨ (∃ cur d, rp_poll r0 = PlDispatch cur d) →
  rp_streams r0 !! k = Some st0 → st_loops st0 !! j = Some l0 → lp_phase l0 = LNew → lp_ctx l0 = false →
  st_sender st0 = true →
  rtc (replica_step status_Code) (on_stream k (loop_start j (mk_server st0 (rp_sys r0))) r0) r →
  sp_ts (w_rpc (rp_store r)) < 2 ^ 63 →
  let i := length (wt_objs (rp_wt r0)) in
  dropped i k (rp_gaps r0) r ∨
  ∃ s st l, watching i k j (lp_prefix l0) (lp_id l0) r s st l ∧
    ∀ x, x ∈ kv (rp_db r) → horizon r0 < r_rev x ≤ horizon r → prefix_matches (lp_prefix l0) (event_of x) = true →
      under_way i (lp_id l0) r s st l (event_of x) ∧
      ((∀ d, d ∈ sy_disp (rp_sys r) → d_todo d = [] ∧ d_send d = None) → sub_ch s = [] → lp_phase l = LSelect →
       st_respCh st = [] →
       ∃ resp, resp ∈ st_sent st ∧ wr_WatchId resp = lp_id l0 ∧ toWatchEvent (event_of x) ∈ wr_Events resp).
Proof using SpannerLaws0.
  intros Hw Hrun0 Hpoll Hk Hl Hph Hc Hse Hrun Ht. cbv zeta.
  set (r1 := on_stream _ _ r0) in *.
  assert (replica_step status_Code r0 r1) as Hs by (eapply rp_stream; [done|apply serve_loop_start]).
  destruct (replica_run_moves status_Code _ _ Hrun0) as [_ Hg0].
  destruct (replica_step_moves status_Code _ _ Hs) as [Hm1 Hg1].
  destruct (replica_run_moves status_Code _ _ Hrun) as [Hm2 _].
  pose proof (sp_ts_mono _ _ Hm1). pose proof (sp_ts_mono _ _ Hm2).
  specialize (Hg0 Hw ltac:(lia)). specialize (Hg1 (proj1 Hg0) ltac:(lia)).
  pose proof (replica_run_ok status_Code _ _ (replica_init_ok w now) Hrun0) as Hok0.
  pose proof (run_low w now r0 Hw Hrun0 ltac:(lia)) as [Hlow _].
  assert (poll_inv r0) as Hp by (destruct Hpoll as [E|(cur & d & E)]; (split; [congruence|done|by rewrite E])).
  pose proof (start_tracked r0 k st0 j l0 Hok0 Hp Hk Hl Hph Hc Hse) as H1. cbv zeta in H1. fold r1 in H1.
  apply (run_tracked status_Code _ _ _ _ _ _ _ r1 r) in H1 as (_ & _ & [Hd|(_ & _ & s & st & l & Hwa & Hcov)]);
    [by left| |by eapply replica_step_ok|apply Hg1|done|done].
  right. exists s, st, l. split; [done|]. intros x Hx Hr Hm. specialize (Hcov x Hx Hr Hm). split; [exact Hcov|].
  intros Hd Hch Hsel Hq. destruct Hcov as [(d & Hdin & _ & Hor)|[(b & Hb & _)|[(rr & la & E & _)|(rr & Hrr & Hid & He)]]].
  - destruct (Hd d Hdin) as [E1 E2]. rewrite E1, E2 in Hor. destruct Hor as [?%elem_of_nil|?]; done.
  - rewrite Hch in Hb. by apply elem_of_nil in Hb.
  - congruence.
  - unfold out in Hrr. rewrite Hq, app_nil_r in Hrr. eauto.
Qed.

End watch.
