(* ===== verification/Cluster.v ===== *)
(** * Replicas that share a database

    Any number of replicas on one database, each started at any time: an action of one of
    them happens against the database as the others left it, and all take their commit
    timestamps and row identifiers from the same Spanner.  A member of the cluster sees the
    others only as the interference [rp_others] of [Replica], so what is proved of one
    replica holds of each member; in particular a watch at one replica misses no write made
    through another. *)

From Stdlib Require Import Ascii String.
From S2P Require Import Prelude Go Spanner Rows Invariant Sim StoreRead StoreWrite Reads StoreTxn StoreCompact StoreInvariant Safe KVServer KVProps Leases LeaseProps Watcher WatchProps WatchServer WatchServerProps WatchDelivery Replica ReplicaProps WatchPipeline WatchComplete.

Open Scope string_scope.
Open Scope list_scope.
Open Scope Z_scope.

(** The database, the calls Spanner has answered, and the replicas. *)
Record cluster := mk_cluster { cl_db : database; cl_rpc : nat; cl_replicas : list replica }.

(** The world of a process that has just started, and that of a member. *)
Definition cl_world (c : cluster) : world := mk_world (cl_db c) (cl_rpc c) [] [].

Definition seat (c : cluster) (r : replica) : replica :=
  on_store (mk_world (cl_db c) (cl_rpc c) (w_notify (rp_store r)) (w_compactions (rp_store r))) r.

Definition cluster_init (w : world) : cluster := mk_cluster (w_db w) (w_rpc w) [].

(** Replica [i] has become [r]. *)
Definition after (i : nat) (r : replica) (c : cluster) : cluster :=
  mk_cluster (rp_db r) (w_rpc (rp_store r)) (<[i := r]> (cl_replicas c)).

Section cluster.
Context `{SP : Spanner} `{G : Grpc} (status_Code : error → code).

Inductive cluster_step (c : cluster) : cluster → Prop :=
| cs_join now :
    cluster_step c (mk_cluster (cl_db c) (cl_rpc c) (cl_replicas c ++ [replica_init (cl_world c) now]))
| cs_act i r r' : cl_replicas c !! i = Some r → replica_step status_Code (seat c r) r' → cluster_step c (after i r' c).

(** ** A member among the others *)

Context `{!SpannerLaws SP}.

(** Only the database and the clock matter for what others do. *)
Lemma moves_view w w' v v' :
  moves w w' → w_db v = w_db w → w_rpc v = w_rpc w → w_db v' = w_db w' → w_rpc v' = w_rpc w' → moves v v'.
Proof using All.
  intros Hm E1 E2 E3 E4. eapply moves_trans; [by apply (moves_same v w); congruence|].
  eapply moves_trans; [exact Hm|]. by apply moves_same.
Qed.

Lemma seat_after i r c : seat (after i r c) r = r.
Proof. by destruct r as [[[[db n ns cs] wt] ds] p g lm sts]. Qed.

Lemma seat_others c c' r : moves (cl_world c) (cl_world c') → replica_step status_Code (seat c r) (seat c' r).
Proof using All.
  intros Hm. assert (seat c' r = on_store (rp_store (seat c' r)) (seat c r)) as -> by done.
  apply rp_others. split_and!; [done|done|]. by eapply moves_view.
Qed.

Lemma act_moves i r r' c : replica_step status_Code (seat c r) r' → moves (cl_world c) (cl_world (after i r' c)).
Proof using All. intros Hs. by eapply moves_view; [eapply replica_step_moves, Hs|..]. Qed.

Lemma cluster_step_moves c c' : cluster_step c c' → moves (cl_world c) (cl_world c').
Proof using All. destruct 1; [apply moves_refl|by eapply act_moves]. Qed.

Lemma cluster_run_moves c c' : rtc cluster_step c c' → moves (cl_world c) (cl_world c').
Proof using All.
  induction 1 as [|c1 c2 c3 Hs _ IH]; [apply moves_refl|]. eapply moves_trans; [by apply cluster_step_moves|done].
Qed.



(** Every member was started on a well-formed database and has run since. *)
Definition member (c : cluster) (r : replica) : Prop :=
  ∃ w now, world_wf w ∧ rtc (replica_step status_Code) (replica_init w now) (seat c r).

Lemma cluster_step_members c c' :
  world_wf (cl_world c) → cluster_step c c' → (∀ r, r ∈ cl_replicas c → member c r) →
  ∀ r, r ∈ cl_replicas c' → member c' r.
Proof using All.
  intros Hw Hs Hm r Hr. destruct Hs as [now|j q q' Hj Hs]; cbn in Hr.
  - apply elem_of_app in Hr as [Hr|Hr%list_elem_of_singleton].
    + destruct (Hm r Hr) as (w & t & H1 & H2). by exists w, t.
    + subst r. exists (cl_world c), now. split; [done|]. apply rtc_refl.
  - apply list_elem_of_insert_or in Hr as [Hr| ->].
    + destruct (Hm r Hr) as (w & t & H1 & H2). exists w, t. split; [done|]. eapply rtc_r; [exact H2|].
      apply seat_others. by eapply act_moves.
    + destruct (Hm q) as (w & t & H1 & H2); [by eapply list_elem_of_lookup_2|]. exists w, t. split; [done|].
      rewrite seat_after. by eapply rtc_r.
Qed.

Lemma cluster_run_members c c' :
  world_wf (cl_world c) → (∀ r, r ∈ cl_replicas c → member c r) → rtc cluster_step c c' → sp_ts (cl_rpc c') < 2 ^ 63 →
  world_wf (cl_world c') ∧ ∀ r, r ∈ cl_replicas c' → member c' r.
Proof using All.
  intros Hw Hm Hrun. revert Hw Hm. induction Hrun as [c|c1 c2 c3 Hs Hrun IH]; intros Hw Hm Ht; [done|].
  destruct (cluster_step_moves _ _ Hs) as [_ Hg]. destruct (cluster_run_moves _ _ Hrun) as [Hle _].
  pose proof (sp_ts_mono _ _ Hle) as Hts. cbn in Hts, Hg.
  apply IH; [apply Hg; [done|lia]|by eapply cluster_step_members|done].
Qed.

Lemma cluster_from_start w c :
  world_wf w → rtc cluster_step (cluster_init w) c → sp_ts (cl_rpc c) < 2 ^ 63 →
  guarantee w (cl_world c) ∧ ∀ r, r ∈ cl_replicas c → member c r.
Proof using All.
  intros Hw Hrun Ht. assert (world_wf (cl_world (cluster_init w))) as Hw0 by (by destruct Hw; split).
  destruct (cluster_run_members _ _ Hw0 ltac:(by intros r ?%elem_of_nil) Hrun Ht) as [Hwc Hm]. split; [|done].
  assert (moves w (cl_world c)) as [_ Hg]
    by (eapply (moves_trans _ (cl_world (cluster_init w))); [by apply moves_same|by apply cluster_run_moves]).
  by apply Hg.
Qed.

(** C6: A cluster refines its replicas: in every interleaving of any number of replicas, which
    may join at any time, the shared database stays well-formed and moves only by the
    commits a single replica expects of others, and what has happened to each member, with
    the database as the cluster has left it, is a run of one replica among interfering
    others, from its start on a well-formed database; so each member has the invariants of
    a replica. *)
Theorem cluster_refines w c :
  world_wf w → rtc cluster_step (cluster_init w) c → sp_ts (cl_rpc c) < 2 ^ 63 →
  guarantee w (cl_world c) ∧
  ∀ i r, cl_replicas c !! i = Some r →
    replica_ok (seat c r) ∧
    ∃ w0 now, world_wf w0 ∧ rtc (replica_step status_Code) (replica_init w0 now) (seat c r).
Proof using All.
  intros Hw Hrun Ht. destruct (cluster_from_start w c Hw Hrun Ht) as [Hg Hm]. split; [done|].
  intros i r Hi. destruct (Hm r) as (w0 & now & H1 & H2); [by eapply list_elem_of_lookup_2|].
  split; [|by exists w0, now]. by eapply (replica_run_ok status_Code), H2; apply replica_init_ok.
Qed.


End cluster.
