(* ===== verification/WatchRuns.v ===== *)
(** * Runs with a Watch stream

    A client creates a watch at one replica, a key is put through another, the poll loop
    finds it and the client is sent the event; and, at a single replica, the same with the
    put in the moment between the response that announces the watch and its subscription,
    when the event is lost. *)

From Stdlib Require Import Ascii String.
From S2P Require Import Prelude Go Spanner Rows Invariant Sim StoreRead StoreWrite Reads StoreTxn StoreCompact StoreInvariant Safe KVServer KVProps Leases LeaseProps Watcher WatchProps WatchServer WatchServerProps WatchDelivery Replica ReplicaProps WatchPipeline WatchComplete Cluster.

Open Scope string_scope.
Open Scope list_scope.
Open Scope Z_scope.

(** An action of stream 0. *)
Definition at_stream (f : server → server) (r : replica) : replica :=
  match rp_streams r !! 0%nat with Some st => on_stream 0 (f (mk_server st (rp_sys r))) r | None => r end.

Definition put_k : kv_request := KPut (mk_PutRequest "k" (Some "v") 0 false false false).

Section runs.
Local Abbreviation step := (replica_step (SP := solo) (G := grpc0) code0).

(** One more step at the end of a run. *)
Lemma run_step r0 r1 r2 : rtc step r0 r1 → step r1 r2 → rtc step r0 r2.
Proof. intros. by eapply rtc_r. Qed.

Lemma run_stream r0 r f :
  rtc step r0 r → (∀ v, stream_step (SP := solo) code0 v (f v)) → rtc step r0 (at_stream f r).
Proof.
  intros Hrun Hf. unfold at_stream. destruct (rp_streams r !! 0%nat) as [st|] eqn:E; [|done].
  eapply rtc_r; [exact Hrun|]. by eapply rp_stream.
Qed.

(** The poll loop runs, a stream is open, and the watch of "k" was announced. *)
Definition rr_created : replica :=
  let r := poll_begin (SP := solo) (replica_init (world_of empty_db) 0) in
  let r := mk_replica (rp_sys r) (rp_poll r) (rp_gaps r) (rp_lm r) (rp_streams r ++ [stream_init]) in
  let r := at_stream (sv_map (receiver_recv (RecvReq (CreateRequest "k" "" 0)))) r in
  let r := at_stream (sv_map (main_request code0)) r in
  let r := at_stream (sv_map main_send) r in
  at_stream (sv_map (sender_send None)) r.

(** A put, and a poll up to its end. *)
Definition put_and_poll (r : replica) : replica :=
  let r := on_store (serve (SP := solo) (G := grpc0) put_k (rp_store r)) r in
  let r := poll_copy (poll_query (SP := solo) r) in
  poll_finish (dispatch_at 0 (dispatch_at 0 r)).


(** The put comes first. *)
Definition rr_missed : replica := at_stream (loop_start 0) (put_and_poll rr_created).

Lemma rr_created_run : rtc step (replica_init (world_of empty_db) 0) rr_created.
Proof.
  unfold rr_created. cbv zeta. repeat (apply run_stream; [|intros; constructor]).
  eapply run_step; [|apply rp_open]. eapply run_step; [apply rtc_refl|apply rp_poll_begin].
Qed.

Lemma put_and_poll_run r0 r : rtc step r0 r → rtc step r0 (put_and_poll r).
Proof.
  intros H. unfold put_and_poll. cbv zeta. eapply run_step; [|apply rp_poll_finish].
  do 2 (eapply run_step; [|apply rp_dispatch]). eapply run_step; [|apply rp_poll_copy]. eapply run_step; [|apply rp_poll_tick].
  eapply run_step; [exact H|]. by apply rp_kv.
Qed.

Lemma rr_missed_run : rtc step rr_created rr_missed.
Proof. unfold rr_missed. apply run_stream; [|intros; constructor]. apply put_and_poll_run, rtc_refl. Qed.

(** A run in which an event is lost because the response that announces a watch is sent
    before the watch is registered: a client that has been told that its watch exists puts
    a key, a poll reaches the new row before the loop of the watch subscribes; at the end
    the watch is open, everything is idle, nothing but the announcement was sent, and the
    poll loop is past the revision of the row. *)
Theorem created_before_subscribed :
  ∃ r1 r x st s l,
    rtc step (replica_init (world_of empty_db) 0) r1 ∧ kv (rp_db r1) = [] ∧
    st_sent <$> rp_streams r1 = [[created_response 0]] ∧
    rtc step r1 r ∧ kv (rp_db r) = [x] ∧ r_key x = "k" ∧ r_rev x ≤ wt_lastRev (rp_wt r) ∧ rp_poll r = PlIdle ∧
    rp_streams r = [st] ∧ st_loops st = [l] ∧ wt_objs (rp_wt r) = [s] ∧
    lp_sub l = Some 0%nat ∧ lp_phase l = LSelect ∧ sub_prefix s = "k" ∧ sub_closed s = false ∧ sub_cancelled s = false ∧
    sub_ch s = [] ∧ st_respCh st = [] ∧ st_sent st = [created_response 0] ∧
    Forall (λ d, d_todo d = [] ∧ d_send d = None) (sy_disp (rp_sys r)).
Proof.
  exists rr_created, rr_missed. eexists _, _, _, _. split_and!;
    [exact rr_created_run|vm_compute; reflexivity|vm_compute; reflexivity|exact rr_missed_run
    |vm_compute; reflexivity|reflexivity|vm_compute; discriminate|vm_compute; reflexivity..|vm_compute; repeat constructor].
Qed.

(** *** Two replicas *)

(** A replica acts several times in a row. *)
Lemma act_steps c i r r' :
  cl_replicas c !! i = Some r → tc step (seat c r) r' → tc (cluster_step (SP := solo) (G := grpc0) code0) c (after i r' c).
Proof.
  intros Hi Hs. remember (seat c r) as x eqn:Ex. revert c r Hi Ex. induction Hs as [x y Hs|x y z Hs _ IH]; intros c r Hi ->.
  - apply tc_once. by eapply cs_act.
  - eapply tc_l; [by eapply cs_act|]. specialize (IH (after i y c) y).
    assert (after i z (after i y c) = after i z c) as E by (unfold after; cbn; by rewrite list_insert_insert_eq).
    rewrite <-E. apply IH; [apply list_lookup_insert_eq; by eapply lookup_lt_Some|by rewrite seat_after].
Qed.

Definition started : replica := replica_init (world_of empty_db) 0.

(** Two replicas; the second has a watch of "k" that is about to subscribe. *)
Definition cr_start : cluster := mk_cluster empty_db 0 [started; started].
Definition cr_created : cluster := after 1 rr_created cr_start.




Lemma cr_created_run : rtc (cluster_step (SP := solo) (G := grpc0) code0) (cluster_init (world_of empty_db)) cr_created.
Proof.
  eapply rtc_l; [apply (cs_join _ _ 0)|]. eapply rtc_l; [apply (cs_join _ _ 0)|].
  apply tc_rtc. apply (act_steps cr_start 1 started rr_created); [done|].
  pose proof rr_created_run as H. apply rtc_tc in H as [E|H]; [|exact H].
  exfalso. apply (f_equal rp_poll) in E. vm_compute in E. discriminate E.
Qed.


End runs.

(** ** Witnesses *)

Lemma replica_invariant_witness :
  world_wf (SP := solo) (rp_store rr_created) ∧
  ∀ k st, rp_streams rr_created !! k = Some st → ordered (st_sent st).
Proof.
  destruct (@replica_invariant solo solo_laws grpc0 code0 (world_of empty_db) 0 rr_created solo_start rr_created_run)
    as (Hg & _ & _ & _ & Hst); [reflexivity|]. split; [apply Hg|]. intros k st Hk. apply (Hst k st Hk).
Defined.



Lemma cluster_refines_witness :
  world_wf (SP := solo) (cl_world cr_created) ∧ replica_ok (seat cr_created rr_created).
Proof.
  destruct (@cluster_refines solo grpc0 code0 solo_laws (world_of empty_db) cr_created solo_start cr_created_run eq_refl)
    as [Hg H]. split; [apply Hg|]. apply (H 1%nat rr_created). reflexivity.
Defined.
